(* ===== verification/_CoqProject ===== *)
-Q . S2P
Prelude.v
Crc16.v
HiUtil.v
HiArray.v
AdList.v
Dict.v
Sds.v
Read.v
Format.v
Command.v
Reply.v
Frag.v
Gather.v
Route.v
Nodes.v
Context.v
Net.v
Conn.v
Cluster.v
Redirect.v
Client.v
Pipe.v
Async.v
