(* ===== verification/Prelude.v ===== *)
(** * A verification of hiredis-vip, the Redis client library of calcsig

    The repository is a small C++ server around a bundled C library, hiredis-vip (under
    src/hiredis-vip-master), which talks to Redis servers and Redis clusters. All of the
    repository's own algorithms are in that library; this development models it and proves
    it correct, from the containers at the bottom to the routing of commands to the nodes of
    a cluster at the top.

    ** How the program is put together

    A client formats a command ([redisFormatCommandArgv], [redisvFormatCommand] in hiredis.c)
    into the RESP protocol, appends it to the output buffer of a connection ([redisContext]),
    and takes replies from the protocol reader of the connection (read.c), which builds reply
    objects through a table of functions (the default ones are in hiredis.c). In cluster mode
    (hircluster.c) a command is first parsed (command.c) to find its keys; the keys are hashed
    to slots (crc16.c, [keyHashSlot]); a command whose keys are in several slots is cut into
    one command per slot ([command_pre_fragment]) and the replies are put together again
    ([command_post_fragment]); a routing table, built from the cluster's own description,
    gives the node of every slot. Strings (sds.c), arrays (hiarray.c), lists (adlist.c), hash
    tables (dict.c) and number conversions (hiutil.c) are the containers underneath.

    ** Files, and the sources they model

    - [Prelude]: fixed-width integers written as [Z] with their wrap-around ([u32], [i32],
      [u64], [i64]), bytes as [Z], memory accesses [rd] and [wr] that fail outside of their
      block, decimal text, the [Memory] class (which allocations succeed), notations and
      tactics.
    - [Crc16]: crc16.c and [keyHashSlot] of hircluster.c.
    - [HiUtil]: the conversions and the send loop of hiutil.c.
    - [HiArray]: hiarray.c; a push is a slot to be written by the caller.
    - [AdList]: adlist.c on an explicit store of doubly linked nodes.
    - [Dict]: dict.c; buckets hold their chains; key and value functions are the class
      [dictType], as in the source.
    - [Sds]: sds.c; a string is its header (length, free room) and its bytes.
    - [Read]: read.c; the reader, its buffer, cursor and array of tasks, parametric in the
      reply functions and the state they act on.
    - [Format]: the formatters of hiredis.c.
    - [Command]: command.c, the state machine that finds the type and the keys of a command.
    - [Reply]: the default reply functions of hiredis.c on a heap of blocks.
    - [Frag], [Gather]: [command_format_by_slot], [command_pre_fragment] and
      [command_post_fragment] of hircluster.c.
    - [Route]: [parse_cluster_slots], the construction of the table in
      [cluster_update_route_by_addr], and the lookups, hircluster.c.
    - [Context]: connections, hiredis.c: buffers, reading, writing, appending, blocking
      commands, over the answers of a socket.
    - [Nodes]: [parse_cluster_nodes], hircluster.c: the text of CLUSTER NODES.
    - [Conn]: the class [Connections] of the operations on connections that the cluster
      client calls, the classes [ConnLaws] and [PipeLaws] of what they promise, and the
      implementation of them by the contexts and sockets of [Context].
    - [Cluster]: the cluster context, hircluster.c: connections of nodes, the update of the
      route ([cluster_update_route], [cluster_nodes_swap_ctx], the release of the old
      nodes), and [redis_cluster_command_execute], as computations on the context over any
      [Connections].
    - [Redirect]: what following a redirection comes to, over any [Connections] that keep
      [ConnLaws]: the specifications of the parts of an update of the route, and of the
      execution that needs one.
    - [Client]: the blocking interface of hircluster.c: addresses and options,
      [redisClusterFormattedCommand], [redisClusterAppendFormattedCommand],
      [redisClusterGetReply] and [redisClusterReset].
    - [Pipe]: pipelines of appended commands over any [Connections] that keep [PipeLaws],
      which the sockets of [Conn] do.
    - [Net]: net.c and the functions of hiredis.c that open and close connections, over the
      answers of the operating system to every call; [Context] sees only their outcome.
    - [Async]: asynchronous contexts, async.c: the queues of callbacks and the tables of
      subscriptions, the read and write events, disconnecting and freeing. What the program
      does within its callbacks is a function of what it has seen so far, and it may call the
      library again; the calls of callbacks and of the hooks of the event loop are a trace.

    ** Conventions

    A definition has the name of the function it models, or is one loop or branch of it. A
    result [None] is undefined behaviour: an access outside of its block, a failed assertion,
    a use of a null pointer, a loop without an end. Theorems that a function returns therefore
    say that it is safe and terminates. [Some None], or an error value, is a failure the
    source reports. Allocation is controlled by [malloc_ok]: theorems hold for every memory
    unless they assume [has_memory]. Loops are structural or have fuel: the fuel is given
    where the loop is called and is shown to be enough by the theorems, which prove results
    and not merely their absence. Typical bounds: the length of the remaining input plus one
    for the parsers and for the reader, the number of answers the socket will give for the
    read and write loops, the number of entries for iterations over a dictionary, 34 rounds
    for the binary search over 32-bit bounds, the redirections that are left for the
    execution of a command. In [Cluster] and [Client] the outcomes of a computation are kept
    apart: it returns, waits for a socket, is undefined, or does not end. Integers are wrapped where the source's type
    is narrower than its value; the limits the theorems need ([Sds.fits], [INT_MAX]) are those
    of the source's own types.

    ** What the theorems show

    - Containers: a dictionary behaves as a finite map under every sequence of operations and
      an iteration visits each binding once; lists are copied faithfully; the text operations
      of sds.c (printing, splitting and joining, quoting and unquoting, formatting) are
      inverse to one another or produce the specified text.
    - Protocol: the reader refines an abstract parser, does not depend on how the input is cut
      into pieces, and builds exactly the values a server sends; with memory it is safe and
      leaks nothing on every input whose array headers fit an [int] (a larger one is shown to
      fail an assertion). The formatters write the RESP encoding of their arguments, which
      the reader and the command parser read back.
    - Commands: the parser terminates within its text on any input and finds exactly the keys
      of a well-formed command; cutting a command by slots loses, repeats and reorders
      nothing, and the joined replies are the replies to the whole command.
    - Routing: the table built from a cluster's description sends every slot to the node that
      announced it, from either form of the description; regions outside of the table are
      refused, and regions that overlap are shown to release an iterator twice; both
      lookups agree; the checksum of a key is CRC-16/XMODEM of its hash tag.
    - Connections: whatever pieces the socket takes and delivers, every command gets its own
      reply; a connection that is lost reports it once and for all.
    - Cluster: an MGET over several slots and nodes is answered as one command and leaves
      nothing but its reply behind; commands that are appended are answered in their order
      over all connections, and given up without a trace; a redirection is followed to the
      node that the cluster announces, over a route that is what it announces, announced nodes
      keeping their connections and those of the others being closed; a command is
      sent again as long as it may be, its execution ends whatever the servers answer, and
      no redirection reaches the caller.
    - Sockets: whatever the operating system answers, connecting ends in one of the two
      outcomes that the connections are modelled with, and no descriptor is lost or closed
      twice (unless addresses are reused, which is shown to lose some); timeouts do not
      overflow.
    - Events: whatever a program does in its callbacks and however the connection behaves,
      the callback of every command is called exactly once, in the order of the commands,
      with NULL when the context goes away, and with its own reply when the callbacks do not
      call the library themselves; messages reach the callback
      of their subscription.
    - Defects of the source are theorems too: texts without a terminator, overruns, an
      underflow in the binary search, input that fails an assertion, descriptors that are lost
      or closed twice, replies that reach the wrong callback.

    ** What is not modelled

    Clocks and stack traces (hiutil.c) are the operating system. The functions of
    hircluster.c that a newer one supersedes (names ending in _old) and those that print are
    left out. The asynchronous cluster client (the end of hircluster.c) is left out too: its
    callbacks update the route while the contexts of the old nodes are being freed, which
    runs the same callbacks again, and the nodes of [Route] have no asynchronous
    contexts. The event loops themselves (the adapters) are not
    part of the sources. The C++ server, its pools and indexers call libraries and hold no
    algorithm of their own; test programs, adapters and bundled headers are not part of the
    library. [qsort], [vsnprintf], [strerror] and [getaddrinfo] belong to the C library and are parameters
    with their documented behaviour as hypotheses. *)
From stdpp Require Export base numbers list strings gmap.
From Stdlib Require Export ZArith Lia Ascii.

Open Scope Z_scope.

(** * Bytes and C strings *)

(** A buffer is the list of its bytes, each the unsigned value 0..255. *)
Abbreviation bytes := (list Z).

(** The length of a buffer as an integer, the form the C code compares. *)
Definition zlen {A} (l : list A) : Z := Z.of_nat (length l).

(** The byte at an integer index; [None] is an access outside the buffer. *)
Definition rd {A} (l : list A) (i : Z) : option A :=
  if decide (0 <= i) then l !! Z.to_nat i else None.

(** The bytes of a literal. *)
Definition bstr (s : string) : bytes :=
  map (fun c => Z.of_N (N_of_ascii c)) (String.list_ascii_of_string s).

Definition is_byte (b : Z) : Prop := 0 <= b < 256.

Definition CR : Z := 13.
Definition LF : Z := 10.
Definition CRLF : bytes := [CR; LF].

(** * Machine integers *)

(** Conversion to an unsigned or a two's complement signed type of [w] bits. *)
Definition uwrap (w z : Z) : Z := z mod 2 ^ w.
Definition swrap (w z : Z) : Z := (z + 2 ^ (w - 1)) mod 2 ^ w - 2 ^ (w - 1).

Abbreviation u8 := (uwrap 8).
Abbreviation u16 := (uwrap 16).
Abbreviation u32 := (uwrap 32).
Abbreviation u64 := (uwrap 64).
Abbreviation i8 := (swrap 8).
Abbreviation i32 := (swrap 32).
Abbreviation i64 := (swrap 64).

Definition INT_MAX : Z := 2 ^ 31 - 1.
Definition INT_MIN : Z := - 2 ^ 31.
Definition UINT32_MAX : Z := 2 ^ 32 - 1.
Definition LONG_MAX : Z := 2 ^ 63 - 1.
Definition LONG_MIN : Z := - 2 ^ 63.

Lemma uwrap_small w z : 0 <= z < 2 ^ w -> uwrap w z = z.
Proof. intros. unfold uwrap. by apply Z.mod_small. Qed.

Lemma swrap_small w z : 0 < w -> - 2 ^ (w - 1) <= z < 2 ^ (w - 1) -> swrap w z = z.
Proof.
  intros Hw Hz. unfold swrap.
  assert (2 ^ w = 2 * 2 ^ (w - 1)) as E.
  { rewrite <- Z.pow_succ_r by lia. f_equal. lia. }
  rewrite Z.mod_small; lia.
Qed.

Lemma uwrap_range w z : 0 <= w -> 0 <= uwrap w z < 2 ^ w.
Proof. intros. unfold uwrap. apply Z.mod_pos_bound. lia. Qed.

Lemma swrap_range w z : 0 < w -> - 2 ^ (w - 1) <= swrap w z < 2 ^ (w - 1).
Proof.
  intros Hw. unfold swrap.
  assert (2 ^ w = 2 * 2 ^ (w - 1)) as E.
  { rewrite <- Z.pow_succ_r by lia. f_equal. lia. }
  pose proof (Z.mod_pos_bound (z + 2 ^ (w - 1)) (2 ^ w)). lia.
Qed.

Lemma i32_small z : INT_MIN <= z <= INT_MAX -> i32 z = z.
Proof. unfold INT_MIN, INT_MAX. intros. apply swrap_small; lia. Qed.

Lemma i64_small z : LONG_MIN <= z <= LONG_MAX -> i64 z = z.
Proof. unfold LONG_MIN, LONG_MAX. intros. apply swrap_small; lia. Qed.

(** A [size_t] result stored in an [int]. *)
Lemma i32_u64 z : INT_MIN <= z <= INT_MAX -> i32 (u64 z) = z.
Proof.
  unfold INT_MIN, INT_MAX. intros Hz. unfold uwrap, swrap. destruct (decide (0 <= z)).
  - rewrite (Z.mod_small z) by lia. rewrite Z.mod_small; lia.
  - rewrite <- (Z.mod_unique_pos z (2 ^ 64) (-1) (z + 2 ^ 64)) by lia.
    rewrite <- (Z.mod_unique_pos (z + 2 ^ 64 + 2 ^ (32 - 1)) (2 ^ 32) (2 ^ 32) (z + 2 ^ 31)); lia.
Qed.

(** * Buffers written in place *)

(** Store at an index; [None] is a store outside the buffer. *)
Definition wr {A} (l : list A) (i : Z) (v : A) : option (list A) :=
  if decide (0 <= i < zlen l) then Some (<[Z.to_nat i := v]> l) else None.

(** [memcpy(l + i, src, |src|)]. *)
Definition wr_bytes (l : bytes) (i : Z) (src : bytes) : option bytes :=
  if decide (0 <= i /\ i + zlen src <= zlen l)
  then Some (take (Z.to_nat i) l ++ src ++ drop (Z.to_nat (i + zlen src)) l) else None.

(** The C string at the start of a buffer, up to its NUL; [None] without one. *)
Fixpoint cstr (l : bytes) : option bytes :=
  match l with
  | [] => None
  | b :: l' => if b =? 0 then Some [] else (cons b) <$> cstr l'
  end.

Lemma zlen_nonneg {A} (l : list A) : 0 <= zlen l.
Proof. unfold zlen. lia. Qed.

Lemma zlen_app {A} (l k : list A) : zlen (l ++ k) = zlen l + zlen k.
Proof. unfold zlen. rewrite length_app. lia. Qed.

Lemma zlen_cons {A} (x : A) l : zlen (x :: l) = 1 + zlen l.
Proof. unfold zlen. rewrite length_cons. lia. Qed.

Lemma zlen_nil {A} : zlen (@nil A) = 0.
Proof. done. Qed.

Lemma zlen_take {A} n (l : list A) : zlen (take n l) = Z.min (Z.of_nat n) (zlen l).
Proof. unfold zlen. rewrite length_take. lia. Qed.

Lemma zlen_drop {A} n (l : list A) : zlen (drop n l) = Z.max 0 (zlen l - Z.of_nat n).
Proof. unfold zlen. rewrite length_drop. lia. Qed.

Lemma zlen_insert {A} n (x : A) l : zlen (<[n := x]> l) = zlen l.
Proof. unfold zlen. by rewrite length_insert. Qed.

Lemma zlen_rev {A} (l : list A) : zlen (rev l) = zlen l.
Proof. unfold zlen. by rewrite length_rev. Qed.

Lemma zlen_map {A B} (f : A -> B) l : zlen (map f l) = zlen l.
Proof. unfold zlen. by rewrite length_map. Qed.

Lemma zlen_replicate {A} n (x : A) : zlen (replicate n x) = Z.of_nat n.
Proof. unfold zlen. by rewrite length_replicate. Qed.

Create HintDb hivip.
Create Rewrite HintDb hivip.
#[export] Hint Rewrite @zlen_app @zlen_cons @zlen_nil @zlen_take @zlen_drop @zlen_insert
  @zlen_rev @zlen_map @zlen_replicate : hivip.

(** Solves goals about lengths: pushes [zlen] through the list operations, adds
    that the lengths left are not negative, and calls [lia]. *)
Ltac zlen_pos :=
  repeat match goal with
  | |- context [@zlen ?A ?l] =>
      lazymatch goal with H : 0 <= @zlen A l |- _ => fail | _ => pose proof (@zlen_nonneg A l) end
  | H0 : context [@zlen ?A ?l] |- _ =>
      lazymatch goal with H : 0 <= @zlen A l |- _ => fail | _ => pose proof (@zlen_nonneg A l) end
  end.
Ltac zl := autorewrite with hivip in *; zlen_pos; lia.

Lemma rd_app_l {A} (l k : list A) i : i < zlen l -> rd (l ++ k) i = rd l i.
Proof.
  unfold rd, zlen. intros. case_decide; [|done]. rewrite lookup_app_l by lia. done.
Qed.

Lemma rd_app_r {A} (l k : list A) i : zlen l <= i -> rd (l ++ k) i = rd k (i - zlen l).
Proof.
  unfold rd, zlen. intros. rewrite !decide_True by lia. rewrite lookup_app_r by lia.
  f_equal. lia.
Qed.

Lemma rd_cons_0 {A} (x : A) l : rd (x :: l) 0 = Some x.
Proof. done. Qed.

Lemma rd_cons_S {A} (x : A) l i : 0 < i -> rd (x :: l) i = rd l (i - 1).
Proof.
  unfold rd. intros. rewrite !decide_True by lia.
  replace (Z.to_nat i) with (S (Z.to_nat (i - 1))) by lia. done.
Qed.

Lemma rd_Some {A} (l : list A) i x : rd l i = Some x -> 0 <= i < zlen l.
Proof.
  unfold rd, zlen. case_decide; [|done]. intros ?%lookup_lt_Some. lia.
Qed.

Lemma rd_is_Some {A} (l : list A) i : 0 <= i < zlen l -> is_Some (rd l i).
Proof.
  unfold rd, zlen. intros. rewrite decide_True by lia. apply lookup_lt_is_Some. lia.
Qed.

Lemma rd_None {A} (l : list A) i : zlen l <= i -> rd l i = None.
Proof.
  unfold rd, zlen. intros. case_decide; [|done]. apply lookup_ge_None. lia.
Qed.

Lemma rd_at {A} (l k : list A) x i : i = zlen l -> rd (l ++ x :: k) i = Some x.
Proof. intros ->. rewrite rd_app_r by lia. by rewrite Z.sub_diag. Qed.

Lemma Forall_rd {A} (P : A -> Prop) (l : list A) i x : Forall P l -> rd l i = Some x -> P x.
Proof.
  unfold rd. case_decide; [|done]. intros HF ?. by apply (Forall_lookup_1 P l (Z.to_nat i)).
Qed.

(** * Decimal numbers *)

Definition is_digit (b : Z) : bool := (48 <=? b) && (b <=? 57).

(** The value of a digit string. *)
Definition undec_from (v : Z) (l : bytes) : Z := foldl (fun v b => v * 10 + (b - 48)) v l.
Definition undec (l : bytes) : Z := undec_from 0 l.

Fixpoint dec_rev (fuel : nat) (n : Z) : bytes :=
  match fuel with
  | O => []
  | S f => (48 + n mod 10) :: (if n / 10 =? 0 then [] else dec_rev f (n / 10))
  end.

(** What [%u] prints for [n >= 0]; [S (log2 n)] digits are always enough. *)
Definition dec (n : Z) : bytes := rev (dec_rev (S (Z.to_nat (Z.log2 n))) n).

(** What [%d] prints. *)
Definition sdec (n : Z) : bytes := if n <? 0 then 45 :: dec (- n) else dec n.

Lemma dec_rev_fuel f1 f2 n : 0 <= n < 10 ^ Z.of_nat f1 -> n < 10 ^ Z.of_nat f2 ->
  (0 < f1)%nat -> (0 < f2)%nat -> dec_rev f1 n = dec_rev f2 n.
Proof.
  revert f2 n. induction f1 as [|f1 IH]; intros [|f2] n Hn Hf2 ??; try lia. simpl. f_equal.
  destruct (Z.eqb_spec (n / 10) 0); [done|].
  rewrite !Nat2Z.inj_succ, !Z.pow_succ_r in * by lia.
  assert (0 < n / 10) by (pose proof (Z.div_pos n 10); lia).
  assert (n / 10 < 10 ^ Z.of_nat f1) by (apply Z.div_lt_upper_bound; lia).
  assert (n / 10 < 10 ^ Z.of_nat f2) by (apply Z.div_lt_upper_bound; lia).
  destruct f1; [simpl in *; lia|]. destruct f2; [simpl in *; lia|].
  apply IH; lia.
Qed.

Lemma log2_fuel n : 0 <= n -> n < 10 ^ Z.of_nat (S (Z.to_nat (Z.log2 n))).
Proof.
  intros. rewrite Nat2Z.inj_succ, Z2Nat.id by apply Z.log2_nonneg.
  destruct (decide (n = 0)) as [->|]; [done|].
  pose proof (Z.log2_spec n). pose proof (Z.log2_nonneg n).
  pose proof (Z.pow_le_mono_l 2 10 (Z.succ (Z.log2 n))). lia.
Qed.

Lemma dec_of_fuel f n : 0 <= n < 10 ^ Z.of_nat f -> (0 < f)%nat -> dec n = rev (dec_rev f n).
Proof.
  intros. unfold dec. f_equal. pose proof (log2_fuel n). apply dec_rev_fuel; lia.
Qed.

Lemma dec_small n : 0 <= n < 10 -> dec n = [48 + n].
Proof.
  intros. rewrite (dec_of_fuel 1) by (simpl; lia). simpl.
  rewrite Z.mod_small, Z.div_small by lia. done.
Qed.

Lemma dec_step n : 10 <= n -> dec n = dec (n / 10) ++ [48 + n mod 10].
Proof.
  intros. set (f := S (Z.to_nat (Z.log2 n))).
  rewrite (dec_of_fuel (S f)).
  2: { pose proof (log2_fuel n). fold f in H0.
       rewrite Nat2Z.inj_succ, Z.pow_succ_r by lia. lia. }
  2: lia.
  assert (0 < n / 10) by (apply Z.div_str_pos; lia).
  cbn [dec_rev]. destruct (Z.eqb_spec (n / 10) 0); [lia|]. cbn [rev]. f_equal.
  symmetry. apply dec_of_fuel; [|lia]. pose proof (log2_fuel n). fold f in H1.
  assert (n / 10 <= n) by (apply Z.div_le_upper_bound; lia). lia.
Qed.

(** Induction along the decimal digits. *)
Lemma dec_ind (P : Z -> Prop) :
  (forall n, 0 <= n < 10 -> P n) -> (forall n, 10 <= n -> P (n / 10) -> P n) ->
  forall n, 0 <= n -> P n.
Proof.
  intros Hb Hs.
  assert (forall n, 0 <= n -> 0 <= n -> P n) as H; [|auto].
  apply (Z_lt_induction (fun n => 0 <= n -> P n)). intros n IH Hn.
  destruct (decide (n < 10)); [apply Hb; lia|].
  pose proof (Z.div_pos n 10). pose proof (Z.div_lt n 10).
  apply Hs; [lia|]. apply IH; lia.
Qed.

Lemma undec_from_app v l k : undec_from v (l ++ k) = undec_from (undec_from v l) k.
Proof. unfold undec_from. apply foldl_app. Qed.

Lemma undec_app l k : undec (l ++ k) = undec_from (undec l) k.
Proof. apply undec_from_app. Qed.

Lemma undec_dec n : 0 <= n -> undec (dec n) = n.
Proof.
  revert n. apply dec_ind; intros n Hn.
  - rewrite dec_small by done. unfold undec, undec_from. simpl. lia.
  - intros IH. rewrite dec_step, undec_app, IH by done. unfold undec_from. simpl.
    pose proof (Z.div_mod n 10). lia.
Qed.

Lemma dec_digits n : 0 <= n -> Forall (fun b => is_digit b = true) (dec n).
Proof.
  revert n. apply dec_ind; intros n Hn.
  - rewrite dec_small by done. repeat constructor. unfold is_digit. lia.
  - intros IH. rewrite dec_step by done. apply Forall_app. split; [done|].
    repeat constructor. pose proof (Z.mod_pos_bound n 10). unfold is_digit. lia.
Qed.

Lemma dec_not_nil n : 0 <= n -> dec n <> [].
Proof.
  intros Hn. destruct (decide (n < 10)); [by rewrite dec_small by lia|].
  rewrite dec_step by lia. by intros []%app_eq_nil.
Qed.

Lemma dec_length_pos n : 0 <= n -> 1 <= zlen (dec n).
Proof.
  intros Hn. pose proof (dec_not_nil n Hn). destruct (dec n); [done|]. zl.
Qed.

Lemma dec_length_pow n k : 0 <= n -> 0 < k -> n < 10 ^ k -> zlen (dec n) <= k.
Proof.
  intros Hn. revert k. revert n Hn. apply (dec_ind (fun n => forall k, 0 < k -> n < 10 ^ k -> _)).
  - intros n Hn k Hk _. rewrite dec_small by done. zl.
  - intros n Hn IH k Hk Hlt. rewrite dec_step by done.
    destruct (decide (k = 1)) as [->|]; [lia|].
    assert (n / 10 < 10 ^ (k - 1)).
    { apply Z.div_lt_upper_bound; [lia|]. rewrite <- Z.pow_succ_r by lia.
      replace (Z.succ (k - 1)) with k by lia. lia. }
    specialize (IH (k - 1)). zl.
Qed.

Lemma digit_is_byte b : is_digit b = true -> is_byte b.
Proof. unfold is_digit, is_byte. lia. Qed.

Lemma dec_bytes n : 0 <= n -> Forall is_byte (dec n).
Proof.
  intros Hn. eapply Forall_impl; [by apply dec_digits|]. intros b. apply digit_is_byte.
Qed.

Lemma dec_no_CR n : 0 <= n -> CR ∉ dec n.
Proof.
  intros Hn Hin. pose proof (dec_digits n Hn) as HF. rewrite Forall_forall in HF.
  by specialize (HF CR Hin).
Qed.

#[export] Hint Resolve undec_dec dec_digits dec_not_nil dec_bytes zlen_nonneg : hivip.

(** * Lists *)

Lemma Forall_bstr s : Forall is_byte (bstr s).
Proof.
  unfold bstr. apply Forall_map, Forall_forall. intros c _. simpl. unfold is_byte.
  pose proof (N_ascii_bounded c). lia.
Qed.

Lemma take_app_exact {A} (l k : list A) n : n = length l -> take n (l ++ k) = l.
Proof. intros ->. apply take_app_length. Qed.

Lemma drop_app_exact {A} (l k : list A) n : n = length l -> drop n (l ++ k) = k.
Proof. intros ->. apply drop_app_length. Qed.

(** * In-place reversal *)

(** [k] swaps of the bytes at [i] and [j], moving the indices towards each other. *)
Fixpoint swap_loop (k : nat) (i j : Z) (s : bytes) : option bytes :=
  match k with
  | O => Some s
  | S k' =>
      c ← rd s i; d ← rd s j;
      s1 ← wr s i d; s2 ← wr s1 j c;
      swap_loop k' (i + 1) (j - 1) s2
  end.

Lemma wr_at {A} (l k : list A) x y i : i = zlen l -> wr (l ++ x :: k) i y = Some (l ++ y :: k).
Proof.
  intros ->. unfold wr. rewrite decide_True by zl. f_equal.
  rewrite insert_app_r_alt by (unfold zlen; lia).
  by replace (Z.to_nat (zlen l) - length l)%nat with 0%nat by (unfold zlen; lia).
Qed.

Lemma wr_is_Some {A} (l : list A) i x : 0 <= i < zlen l -> wr l i x = Some (<[Z.to_nat i := x]> l).
Proof. intros. unfold wr. by rewrite decide_True. Qed.

Lemma swap_loop_rev k p m r i j : i = zlen p -> j = i + zlen m - 1 -> k = Z.to_nat (zlen m / 2) ->
  swap_loop k i j (p ++ m ++ r) = Some (p ++ rev m ++ r).
Proof.
  revert p m r i j. induction k as [|k IH]; intros p m r i j -> -> Hk.
  - assert (zlen m < 2).
    { destruct (decide (zlen m < 2)); [done|]. assert (1 <= zlen m / 2); [|lia].
      apply Z.div_le_lower_bound; lia. }
    destruct m as [|x [|y m]]; [done | done |]. zl.
  - destruct m as [|x m]; [by vm_compute in Hk|].
    destruct m as [|y m _] using rev_ind; [by vm_compute in Hk|].
    cbn [swap_loop app].
    rewrite (rd_at p _ x (zlen p)) by done. cbn [mbind option_bind].
    replace (p ++ x :: (m ++ [y]) ++ r) with ((p ++ x :: m) ++ y :: r) by (by rewrite <- !app_assoc).
    rewrite (rd_at (p ++ x :: m) r y) by zl. cbn [mbind option_bind].
    replace ((p ++ x :: m) ++ y :: r) with (p ++ x :: (m ++ [y]) ++ r) by (by rewrite <- !app_assoc).
    rewrite (wr_at p _ x y (zlen p)) by done. cbn [mbind option_bind].
    replace (p ++ y :: (m ++ [y]) ++ r) with ((p ++ y :: m) ++ y :: r) by (by rewrite <- !app_assoc).
    rewrite (wr_at (p ++ y :: m) r y x) by zl. cbn [mbind option_bind].
    replace ((p ++ y :: m) ++ x :: r) with ((p ++ [y]) ++ m ++ x :: r) by (by rewrite <- !app_assoc).
    rewrite IH; [| zl | zl |].
    + cbn [rev]. rewrite rev_app_distr. cbn [rev app]. by rewrite <- !app_assoc.
    + replace (zlen (x :: m ++ [y])) with (zlen m + 1 * 2) in Hk by zl.
      rewrite Z.div_add in Hk by lia. pose proof (Z.div_pos (zlen m) 2). zlen_pos. lia.
Qed.

(** * Splitting at an index *)

(** A readable index cuts the buffer, and a store there replaces the element at the cut. *)
Lemma rd_split {A} (l : list A) i x : rd l i = Some x ->
  exists l1 l2, l = l1 ++ x :: l2 /\ zlen l1 = i /\ forall y, wr l i y = Some (l1 ++ y :: l2).
Proof.
  intros H. pose proof (rd_Some _ _ _ H) as Hi. unfold rd in H. rewrite decide_True in H by lia.
  apply list_elem_of_split_length in H as (l1 & l2 & -> & Hl).
  exists l1, l2. split; [done|]. assert (zlen l1 = i) by (unfold zlen; lia).
  split; [done|]. intros y. by apply wr_at.
Qed.

(** * Memory and failing calls *)

(** The allocator as the code sees it: whether a request for so many bytes succeeds, and
    the value of the bytes that an allocation leaves uninitialised. *)
Class Memory := { malloc_ok : Z -> bool; junk : Z }.

(** A request never fails. *)
Definition has_memory `{Memory} : Prop := forall n, malloc_ok n = true.

(** An allocator for concrete runs. *)
Definition demo_memory : Memory := {| malloc_ok := fun _ => true; junk := 255 |}.

Lemma demo_has_memory : @has_memory demo_memory.
Proof. done. Qed.

(** In [option (option A)] the outer [None] is undefined behaviour (an access out of
    bounds, a NULL dereference, a failed assertion) and the inner one a NULL result.
    [let? x := e in k] goes on with a non-NULL result and returns NULL otherwise;
    [let! x := e in k] uses a result without testing it for NULL. *)
Declare Scope hivip_scope.
Notation "'let?' x := e 'in' k" :=
  (match e with Some (Some x) => k | Some None => Some None | None => None end)
  (at level 10, x name, e at level 100, k at level 200) : hivip_scope.
Notation "'let!' x := e 'in' k" :=
  (match e with Some (Some x) => k | _ => None end)
  (at level 10, x name, e at level 100, k at level 200) : hivip_scope.
Open Scope hivip_scope.
