(* ===== verification/Crc16.v ===== *)
(** The cluster's key hash: [crc16] of crc16.c with its lookup table,
    [keyHashSlot] of hircluster.c, and the proof that the table-driven
    checksum is the bitwise CRC-16/XMODEM of the comment in crc16.c. *)
From S2P Require Import Prelude.

Open Scope Z_scope.

Module Crc16.

(** ** crc16.c *)

Definition crc16tab : list Z :=
  [0x0000; 0x1021; 0x2042; 0x3063; 0x4084; 0x50a5; 0x60c6; 0x70e7;
   0x8108; 0x9129; 0xa14a; 0xb16b; 0xc18c; 0xd1ad; 0xe1ce; 0xf1ef;
   0x1231; 0x0210; 0x3273; 0x2252; 0x52b5; 0x4294; 0x72f7; 0x62d6;
   0x9339; 0x8318; 0xb37b; 0xa35a; 0xd3bd; 0xc39c; 0xf3ff; 0xe3de;
   0x2462; 0x3443; 0x0420; 0x1401; 0x64e6; 0x74c7; 0x44a4; 0x5485;
   0xa56a; 0xb54b; 0x8528; 0x9509; 0xe5ee; 0xf5cf; 0xc5ac; 0xd58d;
   0x3653; 0x2672; 0x1611; 0x0630; 0x76d7; 0x66f6; 0x5695; 0x46b4;
   0xb75b; 0xa77a; 0x9719; 0x8738; 0xf7df; 0xe7fe; 0xd79d; 0xc7bc;
   0x48c4; 0x58e5; 0x6886; 0x78a7; 0x0840; 0x1861; 0x2802; 0x3823;
   0xc9cc; 0xd9ed; 0xe98e; 0xf9af; 0x8948; 0x9969; 0xa90a; 0xb92b;
   0x5af5; 0x4ad4; 0x7ab7; 0x6a96; 0x1a71; 0x0a50; 0x3a33; 0x2a12;
   0xdbfd; 0xcbdc; 0xfbbf; 0xeb9e; 0x9b79; 0x8b58; 0xbb3b; 0xab1a;
   0x6ca6; 0x7c87; 0x4ce4; 0x5cc5; 0x2c22; 0x3c03; 0x0c60; 0x1c41;
   0xedae; 0xfd8f; 0xcdec; 0xddcd; 0xad2a; 0xbd0b; 0x8d68; 0x9d49;
   0x7e97; 0x6eb6; 0x5ed5; 0x4ef4; 0x3e13; 0x2e32; 0x1e51; 0x0e70;
   0xff9f; 0xefbe; 0xdfdd; 0xcffc; 0xbf1b; 0xaf3a; 0x9f59; 0x8f78;
   0x9188; 0x81a9; 0xb1ca; 0xa1eb; 0xd10c; 0xc12d; 0xf14e; 0xe16f;
   0x1080; 0x00a1; 0x30c2; 0x20e3; 0x5004; 0x4025; 0x7046; 0x6067;
   0x83b9; 0x9398; 0xa3fb; 0xb3da; 0xc33d; 0xd31c; 0xe37f; 0xf35e;
   0x02b1; 0x1290; 0x22f3; 0x32d2; 0x4235; 0x5214; 0x6277; 0x7256;
   0xb5ea; 0xa5cb; 0x95a8; 0x8589; 0xf56e; 0xe54f; 0xd52c; 0xc50d;
   0x34e2; 0x24c3; 0x14a0; 0x0481; 0x7466; 0x6447; 0x5424; 0x4405;
   0xa7db; 0xb7fa; 0x8799; 0x97b8; 0xe75f; 0xf77e; 0xc71d; 0xd73c;
   0x26d3; 0x36f2; 0x0691; 0x16b0; 0x6657; 0x7676; 0x4615; 0x5634;
   0xd94c; 0xc96d; 0xf90e; 0xe92f; 0x99c8; 0x89e9; 0xb98a; 0xa9ab;
   0x5844; 0x4865; 0x7806; 0x6827; 0x18c0; 0x08e1; 0x3882; 0x28a3;
   0xcb7d; 0xdb5c; 0xeb3f; 0xfb1e; 0x8bf9; 0x9bd8; 0xabbb; 0xbb9a;
   0x4a75; 0x5a54; 0x6a37; 0x7a16; 0x0af1; 0x1ad0; 0x2ab3; 0x3a92;
   0xfd2e; 0xed0f; 0xdd6c; 0xcd4d; 0xbdaa; 0xad8b; 0x9de8; 0x8dc9;
   0x7c26; 0x6c07; 0x5c64; 0x4c45; 0x3ca2; 0x2c83; 0x1ce0; 0x0cc1;
   0xef1f; 0xff3e; 0xcf5d; 0xdf7c; 0xaf9b; 0xbfba; 0x8fd9; 0x9ff8;
   0x6e17; 0x7e36; 0x4e55; 0x5e74; 0x2e93; 0x3eb2; 0x0ed1; 0x1ef0].

(** One turn of the loop: [crc = (crc<<8) ^ crc16tab[((crc>>8) ^ *buf++)&0x00FF]],
    the buffer's [char] being signed and [crc] a [uint16_t]. *)
Definition crc16_step (crc b : Z) : Z :=
  let idx := Z.land (Z.lxor (Z.shiftr crc 8) (i8 b)) 255 in
  u16 (Z.lxor (Z.shiftl crc 8) (nth (Z.to_nat idx) crc16tab 0)).

Definition crc16 (buf : bytes) : Z := foldl crc16_step 0 buf.

(** ** The reference: CRC-16/XMODEM bit by bit, polynomial 0x1021 *)

Definition crc_bit (c : Z) : Z :=
  let s := Z.land (Z.shiftl c 1) 65535 in
  if Z.testbit c 15 then Z.lxor s 4129 else s.

Definition crc_byte (c : Z) : Z := Nat.iter 8 crc_bit c.

Definition xmodem (buf : bytes) : Z :=
  foldl (fun c b => crc_byte (Z.lxor c (Z.shiftl b 8))) 0 buf.

(** ** hircluster.c: the slot of a key *)

(** The index of the first [c] at or after [i], [zlen key] when there is none:
    the loops [for (s = i; s < keylen; s++) if (key[s] == c) break;]. *)
Fixpoint scan_from (c : Z) (l : bytes) (i : Z) : Z :=
  match l with
  | [] => i
  | x :: l' => if x =? c then i else scan_from c l' (i + 1)
  end.

Definition OPEN_BRACE : Z := 123.
Definition CLOSE_BRACE : Z := 125.

Definition keyHashSlot (key : bytes) : Z :=
  let keylen := zlen key in
  let s := scan_from OPEN_BRACE key 0 in
  if s =? keylen then Z.land (crc16 key) 0x3FFF
  else
    let e := scan_from CLOSE_BRACE (drop (Z.to_nat (s + 1)) key) (s + 1) in
    if (e =? keylen) || (e =? s + 1) then Z.land (crc16 key) 0x3FFF
    else Z.land (crc16 (take (Z.to_nat (e - s - 1)) (drop (Z.to_nat (s + 1)) key))) 0x3FFF.

(** * Proofs *)

Lemma testbit_above x n : 0 <= x < 2 ^ 16 -> 16 <= n -> Z.testbit x n = false.
Proof.
  intros Hx Hn. destruct (decide (x = 0)) as [->|]; [apply Z.testbit_0_l|].
  apply Z.bits_above_log2; [lia|].
  apply Z.log2_lt_pow2; [lia|]. pose proof (Z.pow_le_mono_r 2 16 n). lia.
Qed.

Lemma crc_bit_lxor x y : crc_bit (Z.lxor x y) = Z.lxor (crc_bit x) (crc_bit y).
Proof.
  unfold crc_bit. rewrite Z.lxor_spec, Z.shiftl_lxor.
  assert (forall a b, Z.land (Z.lxor a b) 65535 =
    Z.lxor (Z.land a 65535) (Z.land b 65535)) as E.
  { intros. apply Z.bits_inj'. intros n Hn.
    rewrite !Z.lxor_spec, !Z.land_spec, !Z.lxor_spec.
    by destruct (Z.testbit a n), (Z.testbit b n), (Z.testbit 65535 n). }
  rewrite E.
  destruct (Z.testbit x 15), (Z.testbit y 15); simpl; apply Z.bits_inj'; intros n Hn;
    rewrite ?Z.lxor_spec; generalize (Z.testbit (Z.land (Z.shiftl x 1) 65535) n),
      (Z.testbit (Z.land (Z.shiftl y 1) 65535) n), (Z.testbit 4129 n); by intros [] [] [].
Qed.

Lemma crc_byte_lxor x y : crc_byte (Z.lxor x y) = Z.lxor (crc_byte x) (crc_byte y).
Proof. unfold crc_byte. simpl Nat.iter. by rewrite !crc_bit_lxor. Qed.

(** A check over all values of a byte. *)
Definition all_bytes (P : Z -> bool) : bool := forallb (fun n => P (Z.of_nat n)) (seq 0 256).

Lemma all_bytes_spec P b : all_bytes P = true -> is_byte b -> P b = true.
Proof.
  unfold all_bytes, is_byte. rewrite forallb_forall. intros H Hb.
  specialize (H (Z.to_nat b)). rewrite Z2Nat.id in H by lia. apply H.
  apply in_seq. lia.
Qed.

Lemma crc_table_entries b : is_byte b ->
  nth (Z.to_nat b) crc16tab 0 = crc_byte (Z.shiftl b 8).
Proof.
  intros Hb. apply Z.eqb_eq.
  by apply (all_bytes_spec (fun b => nth (Z.to_nat b) crc16tab 0 =? crc_byte (Z.shiftl b 8))).
Qed.

Lemma crc_byte_low b : is_byte b -> crc_byte b = Z.shiftl b 8.
Proof.
  intros Hb. apply Z.eqb_eq.
  by apply (all_bytes_spec (fun b => crc_byte b =? Z.shiftl b 8)).
Qed.

Lemma byte_land b : is_byte b -> Z.land (i8 b) 255 = b.
Proof.
  intros Hb. apply Z.eqb_eq. by apply (all_bytes_spec (fun b => Z.land (i8 b) 255 =? b)).
Qed.

Lemma land_255 x : Z.land x 255 = x mod 256.
Proof. change 255 with (Z.ones 8). by rewrite Z.land_ones. Qed.

Lemma land_255_byte x : is_byte (Z.land x 255).
Proof. unfold is_byte. rewrite land_255. apply Z.mod_pos_bound. lia. Qed.

Lemma lxor_byte x y : is_byte x -> is_byte y -> is_byte (Z.lxor x y).
Proof.
  intros Hx Hy. unfold is_byte in *.
  assert (Z.lxor x y = Z.land (Z.lxor x y) 255) as ->.
  { apply Z.bits_inj'. intros n Hn.
    assert (x = Z.land x 255) as -> by (rewrite land_255, Z.mod_small; lia).
    assert (y = Z.land y 255) as -> by (rewrite land_255, Z.mod_small; lia).
    rewrite !Z.land_spec, !Z.lxor_spec, !Z.land_spec.
    by destruct (Z.testbit x n), (Z.testbit y n), (Z.testbit 255 n). }
  apply land_255_byte.
Qed.

Lemma split_u16 c : 0 <= c < 2 ^ 16 -> c = Z.lxor (Z.shiftl (Z.shiftr c 8) 8) (Z.land c 255).
Proof.
  intros Hc. apply Z.bits_inj'. intros n Hn. change 255 with (Z.ones 8).
  rewrite Z.lxor_spec, Z.land_spec, Z.shiftl_spec by done.
  destruct (decide (n < 8)).
  - rewrite (Z.testbit_neg_r _ (n - 8)), Z.ones_spec_low by lia. by destruct (Z.testbit c n).
  - rewrite Z.shiftr_spec, Z.ones_spec_high by lia. replace (n - 8 + 8) with n by lia.
    by destruct (Z.testbit c n).
Qed.

Lemma crc16tab_range b : is_byte b -> 0 <= nth (Z.to_nat b) crc16tab 0 < 2 ^ 16.
Proof.
  intros Hb.
  assert (((0 <=? nth (Z.to_nat b) crc16tab 0) && (nth (Z.to_nat b) crc16tab 0 <? 2 ^ 16)) = true).
  { by apply (all_bytes_spec (fun b => (0 <=? nth (Z.to_nat b) crc16tab 0) &&
      (nth (Z.to_nat b) crc16tab 0 <? 2 ^ 16))). }
  lia.
Qed.

Lemma crc16_step_range c b : 0 <= crc16_step c b < 2 ^ 16.
Proof. unfold crc16_step. apply uwrap_range. lia. Qed.

(** One table step is eight bit steps. *)
Lemma crc16_step_bits c b : 0 <= c < 2 ^ 16 -> is_byte b ->
  crc16_step c b = crc_byte (Z.lxor c (Z.shiftl b 8)).
Proof.
  intros Hc Hb. unfold crc16_step.
  assert (is_byte (Z.shiftr c 8)) as Hhi.
  { rewrite Z.shiftr_div_pow2 by lia. unfold is_byte.
    split; [apply Z.div_pos; lia | apply Z.div_lt_upper_bound; lia]. }
  assert (Z.land (Z.lxor (Z.shiftr c 8) (i8 b)) 255 = Z.lxor (Z.shiftr c 8) b) as ->.
  { rewrite <- (byte_land b Hb) at 2. rewrite <- (byte_land b Hb) in Hb.
    apply Z.bits_inj'. intros n Hn. rewrite Z.land_spec, !Z.lxor_spec, Z.land_spec.
    assert (Z.testbit (Z.shiftr c 8) n = Z.testbit (Z.shiftr c 8) n && Z.testbit 255 n) as ->.
    { rewrite <- Z.land_spec. rewrite land_255, Z.mod_small; done. }
    by destruct (Z.testbit (Z.shiftr c 8) n), (Z.testbit (i8 b) n), (Z.testbit 255 n). }
  pose proof (lxor_byte _ _ Hhi Hb) as Hx.
  assert (Z.lxor c (Z.shiftl b 8) =
    Z.lxor (Z.shiftl (Z.lxor (Z.shiftr c 8) b) 8) (Z.land c 255)) as ->.
  { rewrite (split_u16 c Hc) at 1. rewrite Z.shiftl_lxor, !Z.lxor_assoc. f_equal. apply Z.lxor_comm. }
  rewrite crc_byte_lxor, <- crc_table_entries, crc_byte_low by auto using land_255_byte.
  pose proof (crc16tab_range _ Hx) as Ht.
  set (t := nth _ crc16tab 0) in *.
  unfold uwrap. rewrite <- Z.land_ones by lia.
  apply Z.bits_inj'. intros n Hn. rewrite Z.land_spec, !Z.lxor_spec, !Z.shiftl_spec, Z.land_spec by done.
  change 255 with (Z.ones 8).
  destruct (decide (n < 16)).
  - rewrite (Z.ones_spec_low 16), andb_true_r by lia. rewrite xorb_comm. f_equal.
    destruct (decide (n < 8)); [by rewrite !(Z.testbit_neg_r _ (n - 8)) by lia|].
    by rewrite Z.ones_spec_low, andb_true_r by lia.
  - rewrite (Z.ones_spec_high 16), (Z.ones_spec_high 8), (testbit_above t n), !andb_false_r by lia. done.
Qed.

Lemma crc16_foldl c buf : 0 <= c < 2 ^ 16 -> Forall is_byte buf ->
  foldl crc16_step c buf = foldl (fun c b => crc_byte (Z.lxor c (Z.shiftl b 8))) c buf.
Proof.
  intros Hc Hb. revert c Hc. induction Hb as [|b buf Hb _ IH]; intros c Hc; simpl; [done|].
  rewrite IH by apply crc16_step_range. by rewrite crc16_step_bits.
Qed.

Lemma crc16_range buf : 0 <= crc16 buf < 2 ^ 16.
Proof.
  unfold crc16. cut (forall c, 0 <= c < 2 ^ 16 -> 0 <= foldl crc16_step c buf < 2 ^ 16).
  { intros H. apply H. lia. }
  induction buf as [|b buf IH]; intros c Hc; simpl; [done|]. apply IH, crc16_step_range.
Qed.

(** C39: for every byte string, the table-driven [crc16] of crc16.c computes the
    bitwise CRC-16/XMODEM (polynomial 0x1021, initial value 0, no reflection)
    that the comment above it announces. *)
Theorem crc16_is_xmodem (buf : bytes) (Hb : Forall is_byte buf) : crc16 buf = xmodem buf.
Proof. unfold crc16, xmodem. apply crc16_foldl; [lia | done]. Qed.

Lemma crc16_is_xmodem_witness :
  Forall is_byte (bstr "123456789") /\ crc16 (bstr "123456789") = xmodem (bstr "123456789") /\
  crc16 (bstr "123456789") = 0x31C3.
Proof.
  assert (Forall is_byte (bstr "123456789")) as H.
  { repeat constructor; vm_compute; (done || lia). }
  split; [exact H|]. split; [exact (crc16_is_xmodem _ H) | vm_compute; reflexivity].
Defined.

(** ** Specification of the hashed part of a key *)

(** [hashed key part]: [part] is what the cluster hashes of [key]. *)
Inductive hashed : bytes -> bytes -> Prop :=
  | hashed_whole key : OPEN_BRACE ∉ key -> hashed key key
  | hashed_unclosed pre rest : OPEN_BRACE ∉ pre -> CLOSE_BRACE ∉ rest ->
      hashed (pre ++ OPEN_BRACE :: rest) (pre ++ OPEN_BRACE :: rest)
  | hashed_empty pre post : OPEN_BRACE ∉ pre ->
      hashed (pre ++ OPEN_BRACE :: CLOSE_BRACE :: post) (pre ++ OPEN_BRACE :: CLOSE_BRACE :: post)
  | hashed_tag pre tag post : OPEN_BRACE ∉ pre -> CLOSE_BRACE ∉ tag -> tag <> [] ->
      hashed (pre ++ OPEN_BRACE :: tag ++ CLOSE_BRACE :: post) tag.

Lemma scan_from_absent c l i : c ∉ l -> scan_from c l i = i + zlen l.
Proof.
  unfold zlen. revert i. induction l as [|x l IH]; intros i Hc; simpl; [lia|].
  apply not_elem_of_cons in Hc as [Hne Hc].
  destruct (Z.eqb_spec x c); [congruence|]. rewrite IH by done. lia.
Qed.

Lemma scan_from_found c l r i : c ∉ l -> scan_from c (l ++ c :: r) i = i + zlen l.
Proof.
  unfold zlen. revert i. induction l as [|x l IH]; intros i Hc; simpl.
  - rewrite Z.eqb_refl. lia.
  - apply not_elem_of_cons in Hc as [Hne Hc].
    destruct (Z.eqb_spec x c); [congruence|]. rewrite IH by done. lia.
Qed.

(** The first occurrence of a byte splits a list. *)
Lemma first_occurrence (c : Z) (l : bytes) : c ∈ l -> exists a b, l = a ++ c :: b /\ c ∉ a.
Proof.
  induction l as [|x l IH]; intros Hin; [by apply elem_of_nil in Hin|].
  destruct (decide (x = c)) as [->|Hne].
  - exists [], l. split; [done | apply not_elem_of_nil].
  - apply elem_of_cons in Hin as [->|Hin]; [done|].
    destruct (IH Hin) as (a & b & -> & Ha). exists (x :: a), b. split; [done|].
    apply not_elem_of_cons. auto.
Qed.

Lemma hashed_total key : exists part, hashed key part.
Proof.
  destruct (decide (OPEN_BRACE ∈ key)) as [Hin|]; [|exists key; by constructor].
  destruct (first_occurrence _ _ Hin) as (pre & rest & -> & Hpre).
  destruct (decide (CLOSE_BRACE ∈ rest)) as [Hin'|].
  - destruct (first_occurrence _ _ Hin') as ([|t tag] & post & -> & Htag).
    + eexists. by apply (hashed_empty pre post).
    + exists (t :: tag). apply (hashed_tag pre (t :: tag) post); done.
  - eexists. by apply hashed_unclosed.
Qed.

Lemma keyHashSlot_hashed key part : hashed key part -> keyHashSlot key = Z.land (crc16 part) 0x3FFF.
Proof.
  intros H. unfold keyHashSlot.
  destruct H as [key Hk | pre rest Hp Hr | pre post Hp | pre tag post Hp Ht Hne].
  - rewrite scan_from_absent by done. unfold zlen. rewrite Z.add_0_l, Z.eqb_refl. done.
  - rewrite scan_from_found by done. unfold zlen.
    case_match; [done|].
    rewrite (Z.add_0_l (Z.of_nat _)).
    replace (drop _ _) with rest.
    2: { rewrite drop_app_ge by lia.
         replace (Z.to_nat (Z.of_nat (length pre) + 1) - length pre)%nat with 1%nat by lia. done. }
    rewrite scan_from_absent by done.
    rewrite length_app, length_cons. unfold zlen.
    destruct (Z.eqb_spec (Z.of_nat (length pre) + 1 + Z.of_nat (length rest))
      (Z.of_nat (length pre + S (length rest)))); [done | lia].
  - rewrite scan_from_found by done. unfold zlen. case_match; [done|].
    rewrite (Z.add_0_l (Z.of_nat _)).
    replace (drop _ _) with (CLOSE_BRACE :: post).
    2: { rewrite drop_app_ge by lia.
         replace (Z.to_nat (Z.of_nat (length pre) + 1) - length pre)%nat with 1%nat by lia. done. }
    simpl. rewrite Z.eqb_refl, orb_true_r. done.
  - rewrite scan_from_found by done. unfold zlen. rewrite (Z.add_0_l (Z.of_nat _)).
    rewrite !length_app, !length_cons, !length_app, !length_cons.
    destruct (Z.eqb_spec (Z.of_nat (length pre))
      (Z.of_nat (length pre + S (length tag + S (length post))))); [lia|].
    replace (drop _ _) with (tag ++ CLOSE_BRACE :: post).
    2: { rewrite drop_app_ge by lia.
         replace (Z.to_nat (Z.of_nat (length pre) + 1) - length pre)%nat with 1%nat by lia. done. }
    rewrite scan_from_found by done. unfold zlen.
    destruct tag as [|t tag]; [done|]. simpl length.
    destruct (Z.eqb_spec (Z.of_nat (length pre) + 1 + Z.of_nat (S (length tag)))
      (Z.of_nat (length pre + S (S (length tag) + S (length post))))); [lia|].
    destruct (Z.eqb_spec (Z.of_nat (length pre) + 1 + Z.of_nat (S (length tag)))
      (Z.of_nat (length pre) + 1)); [lia|]. cbn [orb].
    rewrite take_app_le by (simpl; lia). rewrite take_ge by (simpl; lia). done.
Qed.

Lemma keyHashSlot_range key : 0 <= keyHashSlot key < 16384.
Proof.
  destruct (hashed_total key) as [part H]. rewrite (keyHashSlot_hashed _ _ H).
  change 0x3FFF with (Z.ones 14). rewrite Z.land_ones by lia.
  apply Z.mod_pos_bound. lia.
Qed.

(** C38: [keyHashSlot] hashes the part of a key that the cluster specification
    names (the text between the first [{] and the next [}] when it is not empty,
    the whole key otherwise) with CRC-16/XMODEM, and keeps the low 14 bits, so the
    slot is always an index of the 16384-entry table. *)
Theorem keyHashSlot_spec (key part : bytes) (Hkey : Forall is_byte key) (Hpart : hashed key part) :
  keyHashSlot key = Z.land (xmodem part) 0x3FFF /\ 0 <= keyHashSlot key < 16384.
Proof.
  split; [|apply keyHashSlot_range]. rewrite (keyHashSlot_hashed _ _ Hpart).
  unfold xmodem. rewrite <- crc16_foldl; [done | lia |].
  destruct Hpart; try done. rewrite Forall_app, Forall_cons, Forall_app in Hkey. tauto.
Qed.

Lemma keyHashSlot_spec_witness :
  hashed (bstr "{user1000}.following") (bstr "user1000") /\
  keyHashSlot (bstr "{user1000}.following") = Z.land (xmodem (bstr "user1000")) 0x3FFF /\
  keyHashSlot (bstr "{user1000}.following") = 3443.
Proof.
  assert (hashed (bstr "{user1000}.following") (bstr "user1000")) as H.
  { apply (hashed_tag [] (bstr "user1000") (bstr ".following"));
      [apply not_elem_of_nil | vm_compute | done].
    intros Hin. repeat (apply elem_of_cons in Hin as [Hin|Hin]; [lia|]). by apply elem_of_nil in Hin. }
  split; [exact H|]. split; [|vm_compute; reflexivity].
  apply (keyHashSlot_spec _ _); [|exact H]. repeat constructor; vm_compute; (done || lia).
Defined.

End Crc16.
