(* ===== verification/HiUtil.v ===== *)
(** The helpers of hiutil.c: decimal conversions between buffers and integers,
    the length of a printed number, port validation, the bounded print's return
    value, and the loops that send or receive a whole buffer on a socket. *)
From S2P Require Import Prelude.

Open Scope Z_scope.

Module HiUtil.

(** ** Definitions *)

Definition HI_OK : Z := 0.
Definition HI_ERROR : Z := -1.
Definition HI_ENOMEM : Z := -3.

(** The loop of [_hi_atoi]; [None] is its early [return -1]. [value] is an [int]. *)
Fixpoint atoi_loop (value : Z) (line : bytes) : option Z :=
  match line with
  | [] => Some value
  | b :: line' =>
      if (b <? 48) || (57 <? b) then None
      else atoi_loop (i32 (value * 10 + (b - 48))) line'
  end.

Definition _hi_atoi (line : bytes) : Z :=
  if zlen line =? 0 then -1
  else match atoi_loop 0 line with
       | None => -1
       | Some value => if value <? 0 then -1 else value
       end.

(** The digit loop of [_hi_itoa]: [while(num % 10 || num / 10)], with the move
    [s[len+1] = s[len]] before each digit is stored. [None] is a store outside [s]. *)
Fixpoint itoa_digits (fuel : nat) (s : bytes) (len num : Z) : option (bytes * Z) :=
  match fuel with
  | O => None
  | S f =>
      if negb (Z.rem num 10 =? 0) || negb (Z.quot num 10 =? 0) then
        let c := u8 (Z.rem num 10 + 48) in
        v ← rd s len; s1 ← wr s (len + 1) v; s2 ← wr s1 len c;
        itoa_digits f s2 (len + 1) (Z.quot num 10)
      else Some (s, len)
  end.

(** An [int] has at most ten digits: eleven turns of the loop are enough. *)
Definition _hi_itoa (s : bytes) (num : Z) : option bytes :=
  if num =? 0 then wr s 0 48
  else
    let sign := num <? 0 in
    let num := if sign then i32 (Z.abs num) else num in
    '(s1, len) ← itoa_digits 11 s 0 num;
    '(s2, len) ← (if sign then s' ← wr s1 len 45; Some (s', len + 1) else Some (s1, len));
    s3 ← wr s2 len 0;
    swap_loop (Z.to_nat (len / 2)) 0 (len - 1) s3.

Definition hi_valid_port (n : Z) : Z := if (n <? 1) || (65535 <? n) then 0 else 1.

Fixpoint uint_len_loop (fuel : nat) (n num : Z) : Z :=
  match fuel with
  | O => n
  | S f => if num =? 0 then n else uint_len_loop f (n + 1) (num / 10)
  end.

Definition _uint_len (num : Z) : Z := if num =? 0 then 1 else uint_len_loop 11 0 num.

(** What [_vscnprintf] returns, [n] being what [vsnprintf] returned. *)
Definition _vscnprintf (n size : Z) : Z :=
  if n <=? 0 then 0 else if n <? i32 size then n else i32 (size - 1).

(** The answers of [send] and [recv]. *)
Inductive io_event :=
  | IoBytes (k : Z)          (** a result [>= 0] *)
  | IoError (eintr : bool).  (** -1, with [errno == EINTR] or not *)

(** [_hi_sendn]: the system calls answer with the events of [trace]; the result
    is the returned value and the bytes handed to the socket. [None]: still
    blocked in a call when the trace ends. *)
Fixpoint _hi_sendn (trace : list io_event) (ptr : bytes) (n : Z) (sent : bytes) : option (Z * bytes) :=
  if zlen ptr =? 0 then Some (n, sent)
  else match trace with
       | [] => None
       | IoError true :: trace' => _hi_sendn trace' ptr n sent
       | IoError false :: _ => Some (-1, sent)
       | IoBytes k :: trace' =>
           if k =? 0 then Some (-1, sent)
           else _hi_sendn trace' (drop (Z.to_nat k) ptr) n (sent ++ take (Z.to_nat k) ptr)
       end.

(** [_hi_recvn]: each call delivers the bytes of one chunk, at most [nleft] of
    them; [IoBytes 0] is the end of the stream. *)
Inductive recv_event :=
  | RecvData (data : bytes)
  | RecvError (eintr : bool).

Fixpoint _hi_recvn (trace : list recv_event) (nleft n : Z) (got : bytes) : option (Z * bytes) :=
  if nleft <=? 0 then Some (n - nleft, got)
  else match trace with
       | [] => None
       | RecvError true :: trace' => _hi_recvn trace' nleft n got
       | RecvError false :: _ => Some (-1, got)
       | RecvData data :: trace' =>
           if zlen data =? 0 then Some (n - nleft, got)
           else _hi_recvn trace' (nleft - zlen data) n (got ++ data)
       end.

(** [hi_usec_now] and [hi_msec_now], [now] being the answer of [gettimeofday]. *)
Definition hi_usec_now (now : option (Z * Z)) : Z :=
  match now with
  | None => -1
  | Some (tv_sec, tv_usec) => i64 (i64 (tv_sec * 1000000) + tv_usec)
  end.

Definition hi_msec_now (now : option (Z * Z)) : Z := Z.quot (hi_usec_now now) 1000.

(** ** Lemmas *)

Lemma atoi_loop_digits v line : 0 <= v -> Forall (fun b => is_digit b = true) line ->
  undec_from v line <= INT_MAX -> atoi_loop v line = Some (undec_from v line).
Proof.
  intros Hv HF. revert v Hv. induction HF as [|b line Hb HF IH]; intros v Hv Hmax; simpl in *; [done|].
  unfold is_digit in Hb. rewrite (proj2 (orb_false_iff _ _)) by lia.
  assert (Hle : v * 10 + (b - 48) <= undec_from (v * 10 + (b - 48)) line).
  { clear -HF Hv Hb. assert (0 <= v * 10 + (b - 48)) as H by lia. clear Hv Hb.
    revert H. generalize (v * 10 + (b - 48)). induction HF as [|c l Hc _ IH]; intros w Hw; simpl; [lia|].
    unfold is_digit in Hc. specialize (IH (w * 10 + (c - 48))). unfold undec_from in *. simpl. lia. }
  unfold undec_from in *. simpl in *. unfold INT_MAX in *.
  rewrite i32_small by (unfold INT_MIN, INT_MAX; lia). apply IH; lia.
Qed.

Lemma hi_atoi_dec n : 0 <= n <= INT_MAX -> _hi_atoi (dec n) = n.
Proof.
  intros Hn. unfold _hi_atoi. pose proof (dec_length_pos n).
  destruct (Z.eqb_spec (zlen (dec n)) 0); [lia|].
  rewrite atoi_loop_digits; [| lia | apply dec_digits; lia |];
    fold (undec (dec n)); rewrite undec_dec by lia; [|lia].
  destruct (Z.ltb_spec n 0); lia.
Qed.

Lemma itoa_digits_spec f : forall dr x tail num,
  0 < num <= INT_MAX -> zlen (dec num) <= zlen tail -> zlen (dec num) < Z.of_nat f ->
  itoa_digits f (dr ++ x :: tail) (zlen dr) num =
    Some (dr ++ rev (dec num) ++ x :: drop (length (dec num)) tail, zlen dr + zlen (dec num)).
Proof.
  induction f as [|f IH]; intros dr x tail num Hnum Htail Hf; [zl|].
  pose proof (dec_length_pos num). cbn [itoa_digits].
  rewrite Z.rem_mod_nonneg, Z.quot_div_nonneg by lia.
  pose proof (Z.mod_pos_bound num 10).
  assert (negb (num mod 10 =? 0) || negb (num / 10 =? 0) = true) as ->.
  { pose proof (Z.div_mod num 10). apply orb_true_iff. rewrite !negb_true_iff, !Z.eqb_neq. lia. }
  rewrite rd_at by done. cbn [mbind option_bind].
  destruct tail as [|y tail]; [zl|].
  replace (dr ++ x :: y :: tail) with ((dr ++ [x]) ++ y :: tail) by (by rewrite <- app_assoc).
  rewrite (wr_at (dr ++ [x]) tail y x) by zl. cbn [mbind option_bind].
  rewrite <- app_assoc. cbn [app].
  rewrite wr_at by done. cbn [mbind option_bind].
  rewrite uwrap_small by lia.
  set (c := num mod 10 + 48).
  replace (dr ++ c :: x :: tail) with ((dr ++ [c]) ++ x :: tail) by (by rewrite <- app_assoc).
  replace (zlen dr + 1) with (zlen (dr ++ [c])) by zl.
  destruct (decide (num < 10)).
  - rewrite (Z.div_small num 10) by lia. destruct f as [|f]; [zl|]. cbn [itoa_digits].
    change (negb (Z.rem 0 10 =? 0) || negb (Z.quot 0 10 =? 0)) with false. cbn iota.
    rewrite dec_small by lia. unfold c. rewrite Z.mod_small by lia. cbn [rev app length drop].
    rewrite <- app_assoc, drop_0, (Z.add_comm num 48). cbn [app]. f_equal. f_equal. zl.
  - assert (0 < num / 10) by (apply Z.div_str_pos; lia).
    assert (num / 10 <= num) by (apply Z.div_le_upper_bound; lia).
    rewrite (dec_step num) in * by lia.
    rewrite IH; [| lia | zl | zl].
    rewrite rev_app_distr, length_app. cbn [rev app length].
    f_equal. f_equal; [|zl].
    rewrite <- app_assoc. cbn [app].
    replace (48 + num mod 10) with c by (unfold c; lia).
    replace (length (dec (num / 10)) + 1)%nat with (S (length (dec (num / 10)))) by lia. done.
Qed.

Lemma hi_itoa_dec s num : 0 < num <= INT_MAX -> zlen (dec num) + 1 <= zlen s ->
  _hi_itoa s num = Some (dec num ++ 0 :: drop (S (length (dec num))) s).
Proof.
  intros Hnum Hroom. unfold _hi_itoa.
  destruct (Z.eqb_spec num 0); [lia|]. destruct (Z.ltb_spec num 0); [lia|].
  destruct s as [|x tail]; [zl|].
  assert (zlen (dec num) <= 10) by (apply dec_length_pow; unfold INT_MAX in *; lia).
  change (x :: tail) with ([] ++ x :: tail) at 1. change 0 with (zlen (@nil Z)) at 1.
  rewrite itoa_digits_spec by zl. cbn [mbind option_bind app].
  rewrite wr_at by zl. cbn [mbind option_bind].
  change (rev (dec num) ++ 0 :: drop (length (dec num)) tail)
    with ([] ++ rev (dec num) ++ 0 :: drop (length (dec num)) tail).
  rewrite (swap_loop_rev _ []) by (rewrite ?zlen_rev, ?zlen_nil; (done || lia)).
  by rewrite rev_involutive.
Qed.

(** For every positive [int], [_hi_itoa] stores the decimal digits and a NUL at
    the start of the buffer, touches no byte behind them, and never stores outside a
    buffer of digits + 1 bytes; [_hi_atoi] reads the number back. *)
Theorem hi_itoa_atoi (s : bytes) (num : Z)
    (Hnum : 0 < num <= INT_MAX) (Hroom : zlen (dec num) + 1 <= zlen s) :
  _hi_itoa s num = Some (dec num ++ 0 :: drop (S (length (dec num))) s) /\
  _hi_atoi (dec num) = num.
Proof. split; [by apply hi_itoa_dec | apply hi_atoi_dec; lia]. Qed.

Lemma hi_itoa_atoi_witness :
  0 < 4096 <= INT_MAX /\ _hi_itoa (replicate 12 7) 4096 = Some (bstr "4096" ++ 0 :: replicate 7 7) /\
  _hi_atoi (bstr "4096") = 4096.
Proof. split; [done|]. apply (hi_itoa_atoi (replicate 12 7) 4096); done. Defined.

(** [_hi_itoa] of zero stores the digit and no NUL: the C string left in the
    buffer is the digit followed by what the buffer held behind it. *)
Theorem hi_itoa_zero_unterminated (x : Z) (rest : bytes) :
  _hi_itoa (x :: rest) 0 = Some (48 :: rest) /\
  cstr (48 :: rest) = cons 48 <$> cstr rest.
Proof. split; [|done]. unfold _hi_itoa. change (x :: rest) with ([] ++ x :: rest). by rewrite wr_at. Qed.

Lemma uint_len_loop_dec f : forall num n, 0 < num -> zlen (dec num) < Z.of_nat f ->
  uint_len_loop f n num = n + zlen (dec num).
Proof.
  induction f as [|f IH]; intros num n Hnum Hf; [zl|]. cbn [uint_len_loop].
  destruct (Z.eqb_spec num 0); [lia|]. destruct (decide (num < 10)).
  - rewrite Z.div_small, dec_small in * by lia. destruct f; [zl|]. cbn [uint_len_loop].
    rewrite Z.eqb_refl. zl.
  - rewrite (dec_step num) in * by lia.
    rewrite IH; [zl | apply Z.div_str_pos; lia | zl].
Qed.

Lemma uint_len_dec num : 0 <= num <= UINT32_MAX -> _uint_len num = zlen (dec num).
Proof.
  intros Hn. unfold _uint_len. destruct (Z.eqb_spec num 0) as [->|]; [done|].
  rewrite uint_len_loop_dec; [lia | lia |].
  assert (zlen (dec num) <= 10); [|lia]. apply dec_length_pow; unfold UINT32_MAX in *; lia.
Qed.

Lemma hi_sendn_prefix trace : forall ptr n sent r out,
  _hi_sendn trace ptr n sent = Some (r, out) ->
  exists k, out = sent ++ take k ptr /\ (r = n /\ out = sent ++ ptr \/ r = -1).
Proof.
  induction trace as [|e trace IH]; [|destruct e as [k|eintr]; [|destruct eintr]];
    intros ptr n sent r out H; cbn [_hi_sendn] in H;
    (destruct (Z.eqb_spec (zlen ptr) 0) as [E|E];
      [destruct ptr; [|zl]; injection H as <- <-; exists 0%nat; rewrite ?app_nil_r; by auto|]).
  - done.
  - destruct (Z.eqb_spec k 0).
    + injection H as <- <-. exists 0%nat. rewrite take_0, app_nil_r. by auto.
    + apply IH in H as (j & -> & Hr). exists (Z.to_nat k + j)%nat.
      rewrite <- app_assoc, take_take_drop in *. split; [done|].
      destruct Hr as [[-> Hout] | -> ]; [left|by right]. split; [done|].
      rewrite Hout, <- app_assoc, take_drop. done.
  - by apply IH in H.
  - injection H as <- <-. exists 0%nat. rewrite take_0, app_nil_r. by auto.
Qed.

(** Whatever the socket answers, [_hi_sendn] has handed it a prefix of the
    buffer, in order and without repeating a byte; it returns [n] only when the
    whole buffer went out, and -1 otherwise. *)
Theorem hi_sendn_in_order (trace : list io_event) (buf : bytes) (r : Z) (out : bytes)
    (Hrun : _hi_sendn trace buf (zlen buf) [] = Some (r, out)) :
  out `prefix_of` buf /\ (r = zlen buf /\ out = buf \/ r = -1).
Proof.
  apply hi_sendn_prefix in Hrun as (k & -> & Hr). cbn [app] in *.
  split; [apply prefix_take | done].
Qed.

Lemma hi_sendn_in_order_witness :
  _hi_sendn [IoBytes 2; IoError true; IoBytes 3] (bstr "hello") 5 [] = Some (5, bstr "hello") /\
  bstr "hello" `prefix_of` bstr "hello".
Proof.
  split; [reflexivity|].
  apply (hi_sendn_in_order [IoBytes 2; IoError true; IoBytes 3] (bstr "hello") 5). reflexivity.
Defined.

Lemma vscnprintf_bounds n size : 1 <= size <= INT_MAX -> n <= INT_MAX -> 0 <= _vscnprintf n size < size.
Proof.
  unfold INT_MAX. intros Hs Hn. unfold _vscnprintf. rewrite !i32_small by (unfold INT_MIN, INT_MAX; lia).
  repeat case_match; lia.
Qed.

End HiUtil.
