(* ===== verification/HiArray.v ===== *)
(** The growing array of hiarray.c. The element memory is the list of its cells
    ([None]: allocated and never stored to); a pointer to an element is its index.
    The ASSERTs of the file are compiled out ([HI_ASSERT_PANIC] and
    [HI_ASSERT_LOG] are not defined by the build) and so are not part of it. *)
From stdpp Require Import sorting.
From S2P Require Import Prelude HiUtil.
Import HiUtil.

Open Scope Z_scope.

Module HiArray.

(** ** struct hiarray *)

Record hiarray (A : Type) := mk_hiarray {
  nelem : Z;                 (** uint32_t *)
  elem : list (option A);    (** the allocated cells *)
  size : Z;                  (** size_t, bytes of one element *)
  nalloc : Z;                (** uint32_t *)
}.
Arguments mk_hiarray {A}. Arguments nelem {A}. Arguments elem {A}.
Arguments size {A}. Arguments nalloc {A}.

Section Ops.
Context {A : Type}.

(** Whether the allocator grants a request of so many bytes. *)
Context (malloc_ok : Z -> bool).

Definition hiarray_null : hiarray A := mk_hiarray 0 [] 0 0.

Definition hiarray_set (cells : list (option A)) (sz n : Z) : hiarray A :=
  mk_hiarray 0 cells sz n.

Definition hiarray_n (a : hiarray A) : Z := nelem a.

(** [header] is [sizeof(struct hiarray)]. *)
Definition header : Z := 32.

Definition hiarray_create (n sz : Z) : option (hiarray A) :=
  if negb (malloc_ok header) then None
  else if negb (malloc_ok (u64 (n * sz))) then None
  else Some (mk_hiarray 0 (replicate (Z.to_nat n) None) sz n).

Definition hiarray_init (a : hiarray A) (n sz : Z) : Z * hiarray A :=
  if negb (malloc_ok (u64 (n * sz))) then (HI_ENOMEM, mk_hiarray (nelem a) [] (size a) (nalloc a))
  else (HI_OK, mk_hiarray 0 (replicate (Z.to_nat n) None) sz n).

(** The index of the element [off] bytes behind the start of the array. *)
Definition hiarray_idx (a : hiarray A) (off : Z) : Z := u32 off / u32 (size a).

(** A new element: the array and the index of the element, [None] when the
    array is full and cannot grow. *)
Definition hiarray_push (a : hiarray A) : option (hiarray A * Z) :=
  if nelem a =? nalloc a then
    let sz := u64 (size a * nalloc a) in
    if negb (malloc_ok (u64 (2 * sz))) then None
    else
      let a1 := mk_hiarray (nelem a) (elem a ++ replicate (Z.to_nat (nalloc a)) None)
                  (size a) (u32 (nalloc a * 2)) in
      Some (mk_hiarray (u32 (nelem a1 + 1)) (elem a1) (size a1) (nalloc a1), nelem a1)
  else Some (mk_hiarray (u32 (nelem a + 1)) (elem a) (size a) (nalloc a), nelem a).

(** The store through the pointer a push or a get returned. *)
Definition hiarray_put (a : hiarray A) (i : Z) (v : A) : option (hiarray A) :=
  cells ← wr (elem a) i (Some v); Some (mk_hiarray (nelem a) cells (size a) (nalloc a)).

Definition hiarray_pop (a : hiarray A) : hiarray A * Z :=
  let n := u32 (nelem a - 1) in
  (mk_hiarray n (elem a) (size a) (nalloc a), n).

(** What the pointer [hiarray_get] returns points to: [None] outside the
    allocated cells or in a cell never stored to. *)
Definition hiarray_get (a : hiarray A) (idx : Z) : option A := mjoin (rd (elem a) idx).

Definition hiarray_top (a : hiarray A) : option A := hiarray_get a (u32 (nelem a - 1)).

Definition hiarray_swap (a b : hiarray A) : hiarray A * hiarray A := (b, a).

(** [hiarray_sort], over the C library's [qsort] on the first [nelem] cells. *)
Definition hiarray_sort (qsort : list (option A) -> list (option A)) (a : hiarray A) : hiarray A :=
  let n := Z.to_nat (nelem a) in
  mk_hiarray (nelem a) (qsort (take n (elem a)) ++ drop n (elem a)) (size a) (nalloc a).

(** [hiarray_each]: [func] works on the element and the state behind [data]. *)
Fixpoint hiarray_each_from {S} (func : A -> S -> Z * S) (a : hiarray A) (k : nat) (i : Z) (data : S)
    : option (Z * S) :=
  match k with
  | O => Some (HI_OK, data)
  | Datatypes.S k' =>
      x ← hiarray_get a i;
      let '(status, data') := func x data in
      if negb (status =? HI_OK) then Some (status, data')
      else hiarray_each_from func a k' (i + 1) data'
  end.

Definition hiarray_each {S} (func : A -> S -> Z * S) (a : hiarray A) (data : S) : option (Z * S) :=
  hiarray_each_from func a (Z.to_nat (hiarray_n a)) 0 data.

(** ** Abstraction: the array holds a sequence *)

Definition repr (a : hiarray A) (l : list A) : Prop :=
  nelem a = zlen l /\ nelem a <= nalloc a < 2 ^ 32 /\ zlen (elem a) = nalloc a /\ 0 < nalloc a /\
  take (length l) (elem a) = map Some l.

Lemma repr_lookup a l i x : repr a l -> rd l i = Some x -> hiarray_get a i = Some x.
Proof.
  intros (Hn & Hle & Hlen & _ & Htake) Hx. pose proof (rd_Some _ _ _ Hx) as Hi.
  unfold hiarray_get, rd in *. rewrite decide_True in Hx by lia. rewrite decide_True by lia.
  assert (take (length l) (elem a) !! Z.to_nat i = Some (Some x)) as E.
  { rewrite Htake, list_lookup_fmap, Hx. done. }
  rewrite lookup_take_lt in E by (unfold zlen in *; lia). by rewrite E.
Qed.

Lemma repr_create n sz a : 0 < n < 2 ^ 32 -> hiarray_create n sz = Some a -> repr a [].
Proof.
  unfold hiarray_create. intros Hn H. repeat case_match; simplify_eq. unfold repr. simpl.
  rewrite zlen_replicate. unfold zlen. simpl. split_and!; (done || lia).
Qed.

Lemma push_full_grows a l : repr a l -> nalloc a < 2 ^ 31 -> forall a' i,
  hiarray_push a = Some (a', i) ->
  i = zlen l /\ nelem a' = zlen l + 1 /\ nelem a' <= nalloc a' < 2 ^ 32 /\ zlen (elem a') = nalloc a' /\
  exists extra, elem a' = elem a ++ replicate extra None.
Proof.
  intros (Hn & Hle & Hlen & Hpos & Htake) Hbig a' i H. unfold hiarray_push in H.
  pose proof (zlen_nonneg l).
  destruct (Z.eqb_spec (nelem a) (nalloc a)).
  - case_match; [done|]. simplify_eq. simpl. rewrite (uwrap_small 32 (nalloc a * 2)), uwrap_small by lia.
    rewrite zlen_app, zlen_replicate. split_and!; try lia. by eexists.
  - simplify_eq. simpl. rewrite uwrap_small by lia. split_and!; try lia.
    exists 0%nat. by rewrite app_nil_r.
Qed.

Lemma push_some a : (malloc_ok (u64 (2 * u64 (size a * nalloc a))) = true \/ nelem a < nalloc a) ->
  exists r, hiarray_push a = Some r.
Proof.
  intros H. unfold hiarray_push. destruct (Z.eqb_spec (nelem a) (nalloc a)); [|eauto].
  destruct H as [->|]; [simpl; eauto | lia].
Qed.

Lemma put_repr a l a' x v : repr a l ->
  nelem a' = zlen l + 1 -> nelem a' <= nalloc a' < 2 ^ 32 -> zlen (elem a') = nalloc a' ->
  elem a' = elem a ++ replicate x None ->
  exists a'', hiarray_put a' (zlen l) v = Some a'' /\ repr a'' (l ++ [v]) /\
    size a'' = size a' /\ nalloc a'' = nalloc a'.
Proof.
  intros (Hn & Hle & Hlen & Hpos & Htake) Hn' Hle' Hlen' Hext. unfold hiarray_put.
  pose proof (zlen_nonneg l).
  rewrite wr_is_Some by lia. eexists. split; [done|]. split; [|done]. unfold repr. simpl. split_and!; try zl.
  rewrite map_app, <- Htake, length_app. simpl.
  replace (length l + 1)%nat with (S (length l)) by lia.
  replace (Z.to_nat (zlen l)) with (length l) by (unfold zlen; lia).
  rewrite Hext. erewrite take_S_r.
  2: { apply list_lookup_insert_eq. rewrite <- Hext. unfold zlen in *. lia. }
  f_equal. rewrite take_insert_ge by lia. rewrite take_app_le by (unfold zlen in *; lia). done.
Qed.

(** Pushing on an array that represents [l] (and is below half the index
    range) either reports that no memory is left, or returns the index behind the
    last element; storing [v] through it makes the array represent [l ++ [v]], with
    every element before it in place, whether or not the memory was reallocated. *)
Theorem hiarray_push_repr (a : hiarray A) (l : list A) (v : A)
    (Hrepr : repr a l) (Hbig : nalloc a < 2 ^ 31) :
  match hiarray_push a with
  | None => nelem a = nalloc a /\ malloc_ok (u64 (2 * u64 (size a * nalloc a))) = false
  | Some (a1, i) => i = zlen l /\ exists a2, hiarray_put a1 i v = Some a2 /\ repr a2 (l ++ [v])
  end.
Proof.
  destruct (hiarray_push a) as [[a1 i]|] eqn:E.
  - destruct (push_full_grows a l Hrepr Hbig _ _ E) as (-> & H1 & H2 & H3 & x & H4).
    split; [done|]. destruct (put_repr a l a1 x v Hrepr H1 H2 H3 H4) as (a2 & ? & ? & _). eauto.
  - unfold hiarray_push in E. case_match eqn:E1; [|done]. apply Z.eqb_eq in E1. split; [done|].
    case_match eqn:E2; [|done]. by apply negb_true_iff in E2.
Qed.

(** Popping an array that represents [l ++ [v]] returns the index where [v] is
    stored and leaves the array that represents [l]; [hiarray_top] read [v] before. *)
Theorem hiarray_pop_repr (a : hiarray A) (l : list A) (v : A) (Hrepr : repr a (l ++ [v])) :
  hiarray_top a = Some v /\
  hiarray_get (hiarray_pop a).1 (hiarray_pop a).2 = Some v /\ repr (hiarray_pop a).1 l.
Proof.
  assert (hiarray_get a (zlen l) = Some v) as Hv.
  { apply (repr_lookup a (l ++ [v])); [done|]. by apply rd_at. }
  destruct Hrepr as (Hn & Hle & Hlen & Hpos & Htake). pose proof (zlen_nonneg l).
  rewrite zlen_app in Hn. unfold zlen in Hn at 2. simpl in Hn.
  unfold hiarray_top, hiarray_pop, hiarray_get in *. simpl. unfold repr. simpl.
  rewrite uwrap_small, Hn, Z.add_simpl_r by lia. split_and!; try done; try lia.
  apply (f_equal (take (length l))) in Htake.
  rewrite take_take, length_app in Htake. simpl in Htake.
  replace (length l `min` (length l + 1))%nat with (length l) in Htake by lia.
  rewrite Htake, map_app, take_app_exact; [done|]. by rewrite length_map.
Qed.

(** [hiarray_each] stops at the first element whose status is not [HI_OK]. *)
Fixpoint each_spec {S} (func : A -> S -> Z * S) (l : list A) (data : S) : Z * S :=
  match l with
  | [] => (HI_OK, data)
  | x :: l' =>
      let '(status, data') := func x data in
      if negb (status =? HI_OK) then (status, data') else each_spec func l' data'
  end.

Lemma each_from_spec {S} (func : A -> S -> Z * S) a l : repr a l -> forall pre l' data,
  l = pre ++ l' ->
  hiarray_each_from func a (length l') (zlen pre) data = Some (each_spec func l' data).
Proof.
  intros Hr pre l'. revert pre. induction l' as [|x l' IH]; intros pre data ->; [done|]. simpl.
  rewrite (repr_lookup _ _ (zlen pre) x Hr) by (by apply rd_at). simpl.
  destruct (func x data) as [status data']. case_match; [done|].
  replace (zlen pre + 1) with (zlen (pre ++ [x])) by zl. apply IH. by rewrite <- app_assoc.
Qed.

Lemma each_repr {S} (func : A -> S -> Z * S) a l data : repr a l ->
  hiarray_each func a data = Some (each_spec func l data).
Proof.
  intros Hr. unfold hiarray_each, hiarray_n.
  replace (Z.to_nat (nelem a)) with (length l) by (destruct Hr as [-> _]; unfold zlen; lia).
  by apply (each_from_spec func a l Hr []).
Qed.

(** Sorting, with what is known of the [qsort] that is used. *)
Lemma sort_repr (P : list A -> list A -> Prop) qsort a l :
  (forall m, exists m', qsort (map Some m) = map Some m' /\ m' ≡ₚ m /\ P m m') ->
  repr a l -> exists l', repr (hiarray_sort qsort a) l' /\ l' ≡ₚ l /\ P l l'.
Proof.
  intros Hq (Hn & Hle & Hlen & Hpos & Htake). destruct (Hq l) as (l' & Hq' & Hp & Hs).
  exists l'. split; [|done]. pose proof (Permutation_length Hp) as HL. unfold hiarray_sort, repr. simpl.
  replace (Z.to_nat (nelem a)) with (length l) by (unfold zlen in *; lia).
  rewrite Htake, Hq'. unfold zlen in *.
  rewrite length_app, length_map, length_drop, HL. split_and!; try lia.
  rewrite take_app_exact; [done|]. by rewrite length_map.
Qed.

(** A push and the store of the element, in an array that started with [n] cells. *)
Lemma push_put a l v n : (forall k, malloc_ok k = true) -> repr a l -> nalloc a <= Z.max n (2 * zlen l) ->
  Z.max n (2 * zlen l) < 2 ^ 31 -> exists a1 i a2, hiarray_push a = Some (a1, i) /\ hiarray_put a1 i v = Some a2 /\
    repr a2 (l ++ [v]) /\ nalloc a2 <= Z.max n (2 * zlen (l ++ [v])).
Proof.
  intros Hmem Hr Ha Hb. destruct (push_some a) as [[a1 i] E]; [left; apply Hmem|].
  destruct (push_full_grows a l Hr ltac:(lia) a1 i E) as (-> & H1 & H2 & H3 & x & H4).
  destruct (put_repr a l a1 x v Hr H1 H2 H3 H4) as (a2 & Hput & Hr2 & _ & Hn).
  exists a1, (zlen l), a2. split_and!; try done. rewrite Hn, zlen_app. change (zlen [v]) with 1.
  destruct Hr as (Hne & Hle & Hlen & Hpos & _). unfold hiarray_push in E. pose proof (zlen_nonneg l).
  destruct (Z.eqb_spec (nelem a) (nalloc a)).
  - rewrite Hmem in E. cbn [negb] in E. injection E as <- <-. cbn. rewrite uwrap_small by lia. lia.
  - injection E as <- <-. cbn. lia.
Qed.

(** The elements, read one by one. *)
Lemma read_repr a l : repr a l -> mapM (hiarray_get a) (seqZ 0 (hiarray_n a)) = Some l.
Proof.
  intros Hr. unfold hiarray_n. pose proof Hr as (Hn & _). rewrite Hn.
  apply mapM_Some. apply Forall2_same_length_lookup. rewrite length_seqZ. split; [unfold zlen; lia|].
  intros i z x Hz Hk. apply lookup_seqZ in Hz as [-> _]. apply (repr_lookup _ l); [done|].
  unfold rd. rewrite decide_True by lia. by rewrite Z.add_0_l, Nat2Z.id.
Qed.

End Ops.

Lemma hiarray_push_repr_witness :
  let a := hiarray_init (fun _ => true) hiarray_null 1 4 in
  repr (A:=Z) a.2 [] /\
  match hiarray_push (fun _ => true) a.2 with
  | None => False
  | Some (a1, i) => i = 0 /\ exists a2, hiarray_put a1 i 7 = Some a2 /\ repr a2 [7]
  end.
Proof.
  split; [vm_compute; repeat split; discriminate|].
  pose proof (hiarray_push_repr (fun _ => true) (hiarray_init (fun _ => true) hiarray_null 1 4).2 [] 7) as H.
  apply H; vm_compute; repeat split; discriminate.
Defined.

Lemma hiarray_pop_repr_witness :
  let a := mk_hiarray 2 [Some 5; Some 6; None; None] 4 4 in
  repr a [5; 6] /\ hiarray_top a = Some 6 /\ repr (hiarray_pop a).1 [5].
Proof.
  intros a. assert (repr a ([5] ++ [6])) as H by (vm_compute; repeat split; discriminate).
  split; [exact H|]. destruct (hiarray_pop_repr a [5] 6 H) as (H1 & _ & H2). split; [exact H1 | exact H2].
Defined.

End HiArray.
