(* ===== verification/AdList.v ===== *)
(** The doubly linked list of adlist.c on an explicit store of nodes, and the
    proof that every operation implements the corresponding operation on sequences. *)
From S2P Require Import Prelude.

Open Scope Z_scope.

Module AdList.

(** ** adlist.h *)

Abbreviation loc := positive.
Abbreviation ptr := (option positive).

Record listNode (V : Type) := mk_node { prev : ptr; next : ptr; value : V }.
Arguments mk_node {V}. Arguments prev {V}. Arguments next {V}. Arguments value {V}.

Definition AL_START_HEAD : Z := 0.
Definition AL_START_TAIL : Z := 1.

Record listIter := mk_iter { iter_next : ptr; direction : Z }.

(** The three methods are function pointers that may be NULL. *)
Record hilist (V : Type) := mk_list {
  head : ptr;
  tail : ptr;
  dup : option (V -> option V);
  has_free : bool;
  match_fn : option (V -> V -> bool);
  len : Z;
}.
Arguments mk_list {V}. Arguments head {V}. Arguments tail {V}. Arguments dup {V}.
Arguments has_free {V}. Arguments match_fn {V}. Arguments len {V}.

(** The memory: the nodes allocated, and the values handed to a free method so far. *)
Record mem (V : Type) := mk_mem { store : gmap loc (listNode V); freed : list V }.
Arguments mk_mem {V}. Arguments store {V}. Arguments freed {V}.

(** ** Operations *)

(** An operation returns [None] when it follows an invalid pointer. *)
Section Ops.
Context {V : Type} `{EqDecision V}.

(** The allocator: a location for a new node, or no memory. *)
Context (hi_alloc : gmap loc (listNode V) -> option loc).

Definition set_store (m : mem V) (s : gmap loc (listNode V)) : mem V := mk_mem s (freed m).
Definition set_ends (l : hilist V) (h t : ptr) : hilist V :=
  mk_list h t (dup l) (has_free l) (match_fn l) (len l).
Definition set_len (l : hilist V) (n : Z) : hilist V :=
  mk_list (head l) (tail l) (dup l) (has_free l) (match_fn l) n.

Definition load (s : gmap loc (listNode V)) (p : ptr) : option (listNode V) := q ← p; s !! q.

Definition store_prev (s : gmap loc (listNode V)) (p x : ptr) : option (gmap loc (listNode V)) :=
  q ← p; n ← s !! q; Some (<[q := mk_node x (next n) (value n)]> s).

Definition store_next (s : gmap loc (listNode V)) (p x : ptr) : option (gmap loc (listNode V)) :=
  q ← p; n ← s !! q; Some (<[q := mk_node (prev n) x (value n)]> s).

(** [alloc_ok] says whether [hi_alloc] found memory for the list header. *)
Definition listCreate (alloc_ok : bool) : option (hilist V) :=
  if alloc_ok then Some (mk_list None None None false None 0) else None.

(** The loop of [listRelease]: [len] nodes are freed, starting at [current]. *)
Fixpoint release_loop (k : nat) (l : hilist V) (current : ptr) (m : mem V) : option (mem V) :=
  match k with
  | O => Some m
  | S k' =>
      p ← current; n ← store m !! p;
      let fr := if has_free l then freed m ++ [value n] else freed m in
      release_loop k' l (next n) (mk_mem (delete p (store m)) fr)
  end.

Definition listRelease (l : hilist V) (m : mem V) : option (mem V) :=
  release_loop (Z.to_nat (len l)) l (head l) m.

(** The result is the list and whether memory was found ([list] or NULL in C). *)
Definition listAddNodeHead (l : hilist V) (v : V) (m : mem V) : option (mem V * hilist V * bool) :=
  match hi_alloc (store m) with
  | None => Some (m, l, false)
  | Some p =>
      '(s, l') ←
        (if len l =? 0 then
           Some (<[p := mk_node None None v]> (store m), set_ends l (Some p) (Some p))
         else
           s ← store_prev (<[p := mk_node None (head l) v]> (store m)) (head l) (Some p);
           Some (s, set_ends l (Some p) (tail l)));
      Some (set_store m s, set_len l' (u64 (len l' + 1)), true)
  end.

Definition listAddNodeTail (l : hilist V) (v : V) (m : mem V) : option (mem V * hilist V * bool) :=
  match hi_alloc (store m) with
  | None => Some (m, l, false)
  | Some p =>
      '(s, l') ←
        (if len l =? 0 then
           Some (<[p := mk_node None None v]> (store m), set_ends l (Some p) (Some p))
         else
           s ← store_next (<[p := mk_node (tail l) None v]> (store m)) (tail l) (Some p);
           Some (s, set_ends l (head l) (Some p)));
      Some (set_store m s, set_len l' (u64 (len l' + 1)), true)
  end.

Definition listInsertNode (l : hilist V) (old_node : loc) (v : V) (after : bool) (m : mem V)
    : option (mem V * hilist V * bool) :=
  match hi_alloc (store m) with
  | None => Some (m, l, false)
  | Some p =>
      old ← store m !! old_node;
      let '(nprev, nnext, l') :=
        if after then
          (Some old_node, next old,
           if decide (tail l = Some old_node) then set_ends l (head l) (Some p) else l)
        else
          (prev old, Some old_node,
           if decide (head l = Some old_node) then set_ends l (Some p) (tail l) else l) in
      let s := <[p := mk_node nprev nnext v]> (store m) in
      s ← (match nprev with None => Some s | Some _ => store_next s nprev (Some p) end);
      s ← (match nnext with None => Some s | Some _ => store_prev s nnext (Some p) end);
      Some (set_store m s, set_len l' (u64 (len l' + 1)), true)
  end.

Definition listDelNode (l : hilist V) (p : loc) (m : mem V) : option (mem V * hilist V) :=
  n ← store m !! p;
  '(s, l) ← (match prev n with
             | Some _ => s ← store_next (store m) (prev n) (next n); Some (s, l)
             | None => Some (store m, set_ends l (next n) (tail l))
             end);
  '(s, l) ← (match next n with
             | Some _ => s ← store_prev s (next n) (prev n); Some (s, l)
             | None => Some (s, set_ends l (head l) (prev n))
             end);
  let fr := if has_free l then freed m ++ [value n] else freed m in
  Some (mk_mem (delete p s) fr, set_len l (u64 (len l - 1))).

(** [None] is the NULL returned when the iterator cannot be allocated. *)
Definition listGetIterator (alloc_ok : bool) (l : hilist V) (dir : Z) : option listIter :=
  if negb alloc_ok then None
  else Some (if dir =? AL_START_HEAD then mk_iter (head l) dir else mk_iter (tail l) dir).

Definition listRewind (l : hilist V) : listIter := mk_iter (head l) AL_START_HEAD.
Definition listRewindTail (l : hilist V) : listIter := mk_iter (tail l) AL_START_TAIL.

Definition listNext (s : gmap loc (listNode V)) (it : listIter) : option (ptr * listIter) :=
  match iter_next it with
  | None => Some (None, it)
  | Some p =>
      n ← s !! p;
      Some (Some p, mk_iter (if direction it =? AL_START_HEAD then next n else prev n) (direction it))
  end.

(** [listDup]'s loop; a walk visits every node of the store at most once, so the
    number of nodes plus one is enough fuel. *)
Fixpoint dup_loop (fuel : nat) (it : listIter) (copy : hilist V) (m : mem V)
    : option (mem V * option (hilist V)) :=
  match fuel with
  | O => None
  | S f =>
      '(cur, it') ← listNext (store m) it;
      match cur with
      | None => Some (m, Some copy)
      | Some p =>
          n ← store m !! p;
          match (match dup copy with Some d => d (value n) | None => Some (value n) end) with
          | None => m' ← listRelease copy m; Some (m', None)
          | Some v =>
              '(m', copy', ok) ← listAddNodeTail copy v m;
              if (ok : bool) then dup_loop f it' copy' m'
              else m'' ← listRelease copy' m'; Some (m'', None)
          end
      end
  end.

(** [copy_ok] and [iter_ok]: the allocations of the copy's header and of the
    iterator; the code follows the iterator without testing it for NULL. *)
Definition listDup (copy_ok iter_ok : bool) (orig : hilist V) (m : mem V)
    : option (mem V * option (hilist V)) :=
  match listCreate copy_ok with
  | None => Some (m, None)
  | Some copy =>
      let copy := mk_list (head copy) (tail copy) (dup orig) (has_free orig) (match_fn orig) (len copy) in
      iter ← listGetIterator iter_ok orig AL_START_HEAD;
      dup_loop (S (size (store m))) iter copy m
  end.

Fixpoint search_loop (fuel : nat) (l : hilist V) (it : listIter) (s : gmap loc (listNode V)) (key : V)
    : option ptr :=
  match fuel with
  | O => None
  | S f =>
      '(cur, it') ← listNext s it;
      match cur with
      | None => Some None
      | Some p =>
          n ← s !! p;
          let found := match match_fn l with
                       | Some eq => eq (value n) key
                       | None => bool_decide (key = value n)
                       end in
          if (found : bool) then Some (Some p) else search_loop f l it' s key
      end
  end.

Definition listSearchKey (iter_ok : bool) (l : hilist V) (s : gmap loc (listNode V)) (key : V)
    : option ptr :=
  iter ← listGetIterator iter_ok l AL_START_HEAD;
  search_loop (S (size s)) l iter s key.

(** [while(index-- && n) n = n->next]. *)
Fixpoint walk (fuel : nat) (forward : bool) (index : Z) (n : ptr) (s : gmap loc (listNode V)) : option ptr :=
  match fuel with
  | O => None
  | S f =>
      if index =? 0 then Some n
      else match n with
           | None => Some None
           | Some p => nd ← s !! p; walk f forward (index - 1) (if forward then next nd else prev nd) s
           end
  end.

Definition listIndex (l : hilist V) (index : Z) (s : gmap loc (listNode V)) : option ptr :=
  if index <? 0 then walk (S (S (size s))) false (i64 (- index) - 1) (tail l) s
  else walk (S (S (size s))) true index (head l) s.

Definition listRotate (l : hilist V) (m : mem V) : option (mem V * hilist V) :=
  if len l <=? 1 then Some (m, l)
  else
    let t := tail l in
    tn ← load (store m) t;
    let newtail := prev tn in
    s ← store_next (store m) newtail None;
    s ← store_prev s (head l) t;
    s ← store_prev s t None;
    s ← store_next s t (head l);
    Some (set_store m s, set_ends l t newtail).

(** ** Representation of a sequence *)

Abbreviation st := (gmap loc (listNode V)).

(** The first location of a chain, [nxt] when it is empty; the last, [prv] when it is. *)
Definition hdp (ls : list loc) (nxt : ptr) : ptr := match ls with [] => nxt | q :: _ => Some q end.
Fixpoint lastp (prv : ptr) (ls : list loc) : ptr :=
  match ls with [] => prv | q :: ls' => lastp (Some q) ls' end.

(** [seg s prv ls vs nxt]: the nodes at [ls] hold [vs] and are linked in that
    order, between [prv] and [nxt]. *)
Fixpoint seg (s : st) (prv : ptr) (ls : list loc) (vs : list V) (nxt : ptr) : Prop :=
  match ls, vs with
  | [], [] => True
  | p :: ls', v :: vs' => s !! p = Some (mk_node prv (hdp ls' nxt) v) /\ seg s (Some p) ls' vs' nxt
  | _, _ => False
  end.

(** [lrep l s ls vs]: list [l] is the chain [ls] and represents the sequence [vs]. *)
Record lrep (l : hilist V) (s : st) (ls : list loc) (vs : list V) : Prop := {
  lrep_nodup : NoDup ls;
  lrep_head : head l = hdp ls None;
  lrep_tail : tail l = lastp None ls;
  lrep_len : len l = zlen vs;
  lrep_seg : seg s None ls vs None;
}.

(** An allocator that returns a free location. *)
Definition fresh_alloc : Prop := forall s p, hi_alloc s = Some p -> s !! p = None.

Lemma seg_length s prv ls vs nxt : seg s prv ls vs nxt -> length ls = length vs.
Proof.
  revert prv vs. induction ls as [|p ls IH]; intros prv [|v vs]; simpl; try done.
  intros [_ H]. f_equal. by eapply IH.
Qed.

Lemma lastp_app prv l1 l2 : lastp prv (l1 ++ l2) = lastp (lastp prv l1) l2.
Proof. revert prv. induction l1; simpl; auto. Qed.

Lemma hdp_app l1 l2 nxt : hdp (l1 ++ l2) nxt = hdp l1 (hdp l2 nxt).
Proof. by destruct l1. Qed.

Lemma seg_app s prv l1 l2 v1 v2 nxt : length l1 = length v1 ->
  seg s prv (l1 ++ l2) (v1 ++ v2) nxt <->
  seg s prv l1 v1 (hdp l2 nxt) /\ seg s (lastp prv l1) l2 v2 nxt.
Proof.
  revert prv v1. induction l1 as [|p l1 IH]; intros prv [|v v1] Hl; simpl in *; try done; [tauto|].
  rewrite IH by lia. rewrite hdp_app. tauto.
Qed.

Lemma seg_frame s s' prv ls vs nxt : seg s prv ls vs nxt ->
  (forall p, p ∈ ls -> s' !! p = s !! p) -> seg s' prv ls vs nxt.
Proof.
  revert prv vs. induction ls as [|p ls IH]; intros prv [|v vs]; simpl; try done.
  intros [Hp H] Heq. split; [rewrite Heq; [done | by left]|].
  apply IH; [done|]. intros q Hq. apply Heq. by right.
Qed.

Lemma seg_insert s prv ls vs nxt p n : seg s prv ls vs nxt -> p ∉ ls ->
  seg (<[p := n]> s) prv ls vs nxt.
Proof.
  intros H Hp. eapply seg_frame; [done|]. intros q Hq. rewrite lookup_insert_ne; [done|]. by intros ->.
Qed.

Lemma seg_delete s prv ls vs nxt p : seg s prv ls vs nxt -> p ∉ ls -> seg (delete p s) prv ls vs nxt.
Proof.
  intros H Hp. eapply seg_frame; [done|]. intros q Hq. rewrite lookup_delete_ne; [done|]. by intros ->.
Qed.

Lemma seg_lookup s prv ls vs nxt p : seg s prv ls vs nxt -> p ∈ ls -> is_Some (s !! p).
Proof.
  revert prv vs. induction ls as [|q ls IH]; intros prv [|v vs]; simpl; try done.
  - intros _ H. by apply elem_of_nil in H.
  - intros [Hq H] [->|Hin]%elem_of_cons; [by eauto|]. by eapply IH.
Qed.

Lemma fresh_not_in s prv ls vs nxt p : seg s prv ls vs nxt -> s !! p = None -> p ∉ ls.
Proof. intros H Hp Hin. destruct (seg_lookup _ _ _ _ _ _ H Hin). congruence. Qed.

(** Changing the link behind, or before, a chain. *)
Lemma seg_set_next s prv ls vs q v nxt nxt' : seg s prv (ls ++ [q]) (vs ++ [v]) nxt ->
  length ls = length vs -> NoDup (ls ++ [q]) ->
  exists s', store_next s (Some q) nxt' = Some s' /\ seg s' prv (ls ++ [q]) (vs ++ [v]) nxt' /\
    (forall p, p <> q -> s' !! p = s !! p).
Proof.
  intros H Hl Hnd. apply seg_app in H as [H1 [H2 _]]; [|done].
  unfold store_next. simpl. rewrite H2. simpl. eexists. split; [done|]. split.
  - apply seg_app; [done|]. split.
    + apply seg_insert; [done|]. apply NoDup_app in Hnd as (_ & Hd & _).
      intros Hin. specialize (Hd _ Hin). set_solver.
    + split; [by rewrite lookup_insert_eq|done].
  - intros p Hp. by rewrite lookup_insert_ne.
Qed.

Lemma seg_set_prev s prv prv' q ls v vs nxt : seg s prv (q :: ls) (v :: vs) nxt -> NoDup (q :: ls) ->
  exists s', store_prev s (Some q) prv' = Some s' /\ seg s' prv' (q :: ls) (v :: vs) nxt /\
    (forall p, p <> q -> s' !! p = s !! p).
Proof.
  intros [H1 H2] Hnd. unfold store_prev. simpl. rewrite H1. simpl. eexists. split; [done|]. split.
  - split; [by rewrite lookup_insert_eq|]. apply seg_insert; [done|]. by apply NoDup_cons in Hnd as [? _].
  - intros p Hp. by rewrite lookup_insert_ne.
Qed.

(** Both ends of the gap between two chains can be set, with what they hold kept. *)
Lemma seg_relink s prv l1 v1 l2 v2 n1 p2 nxt n1' p2' :
  seg s prv l1 v1 n1 -> seg s p2 l2 v2 nxt -> NoDup (l1 ++ l2) ->
  exists s', (match lastp None l1 with
              | None => Some s | Some q => store_next s (Some q) n1' end) ≫=
             (fun s1 => match hdp l2 None with
              | None => Some s1 | Some q => store_prev s1 (Some q) p2' end) = Some s' /\
    seg s' prv l1 v1 n1' /\ seg s' p2' l2 v2 nxt /\
    (forall p, p ∉ l1 ++ l2 -> s' !! p = s !! p).
Proof.
  intros H1 H2 Hnd. pose proof Hnd as (Hn1 & Hd & Hn2)%NoDup_app.
  assert (exists s1, (match lastp None l1 with
    | None => Some s | Some q => store_next s (Some q) n1' end) = Some s1 /\
    seg s1 prv l1 v1 n1' /\ seg s1 p2 l2 v2 nxt /\ (forall p, p ∉ l1 -> s1 !! p = s !! p)) as
    (s1 & -> & Hs1 & Hs2 & Hfr).
  { destruct l1 as [|q l1 _] using rev_ind; simpl.
    - exists s. destruct v1; [done|]. done.
    - rewrite lastp_app. simpl. pose proof (seg_length _ _ _ _ _ H1) as Hl.
      destruct v1 as [|v v1 _] using rev_ind; [rewrite length_app in Hl; simpl in Hl; lia|].
      rewrite !length_app in Hl. simpl in Hl.
      destruct (seg_set_next s prv l1 v1 q v n1 n1') as (s1 & E & ? & Hf); [done | lia | done |].
      exists s1. split; [done|]. split; [done|]. split.
      + eapply seg_frame; [done|]. intros p Hp. apply Hf. intros ->. apply (Hd q); set_solver.
      + intros p Hp. apply Hf. set_solver. }
  cbn [mbind option_bind]. destruct l2 as [|q l2]; cbn [hdp].
  - exists s1. destruct v2; [|done]. split_and!; try done. intros p Hp. apply Hfr. set_solver.
  - destruct v2 as [|v v2]; [done|].
    destruct (seg_set_prev s1 p2 p2' q l2 v v2 nxt Hs2 Hn2) as (s' & -> & ? & Hf).
    exists s'. split_and!; try done.
    + eapply seg_frame; [done|]. intros p Hp. apply Hf. intros ->. apply (Hd q); set_solver.
    + intros p Hp. rewrite Hf by set_solver. apply Hfr. set_solver.
Qed.

(** *** The operations *)

Lemma lrep_empty l s ls vs : lrep l s ls vs -> (len l =? 0) = true -> ls = [] /\ vs = [].
Proof.
  intros [_ _ _ Hlen Hseg] H. apply Z.eqb_eq in H. destruct vs; [|zl].
  apply seg_length in Hseg. by destruct ls.
Qed.

Lemma lrep_nonempty l s ls vs : lrep l s ls vs -> (len l =? 0) = false -> ls <> [].
Proof.
  intros [_ _ _ Hlen Hseg] H. apply Z.eqb_neq in H. apply seg_length in Hseg.
  destruct ls, vs; done.
Qed.

(** What adding a node in the middle of the chain [l1 ++ l2] establishes, for the
    store that holds the new node and the two links to it. *)
Lemma link_new s prv l1 l2 v1 v2 p v nxt s' :
  seg s prv l1 v1 (Some p) -> seg s (Some p) l2 v2 nxt ->
  s !! p = Some (mk_node (lastp prv l1) (hdp l2 nxt) v) -> s' = s ->
  seg s' prv (l1 ++ p :: l2) (v1 ++ v :: v2) nxt.
Proof.
  intros H1 H2 Hp ->. apply seg_app; [by eapply seg_length|]. split; [done|]. by split.
Qed.

Lemma add_middle l s l1 l2 v1 v2 p v n1 p2 s' :
  seg s None l1 v1 n1 -> seg s p2 l2 v2 None -> NoDup (l1 ++ l2) -> s !! p = None ->
  (match lastp None l1 with
   | None => Some (<[p := mk_node (lastp None l1) (hdp l2 None) v]> s)
   | Some q => store_next (<[p := mk_node (lastp None l1) (hdp l2 None) v]> s) (Some q) (Some p) end) ≫=
  (fun s1 => match hdp l2 None with
   | None => Some s1 | Some q => store_prev s1 (Some q) (Some p) end) = Some s' ->
  len l = zlen (v1 ++ v2) -> len l < 2 ^ 64 - 1 ->
  lrep (set_len (set_ends l (hdp (l1 ++ p :: l2) None) (lastp None (l1 ++ p :: l2))) (u64 (len l + 1)))
    s' (l1 ++ p :: l2) (v1 ++ v :: v2) /\
  (forall q, q ∉ p :: l1 ++ l2 -> s' !! q = s !! q).
Proof.
  intros H1 H2 Hnd Hp E Hlen Hmax.
  assert (p ∉ l1) by (by eapply fresh_not_in).
  assert (p ∉ l2) by (by eapply fresh_not_in).
  apply (seg_insert _ _ _ _ _ p (mk_node (lastp None l1) (hdp l2 None) v)) in H1; [|done].
  apply (seg_insert _ _ _ _ _ p (mk_node (lastp None l1) (hdp l2 None) v)) in H2; [|done].
  destruct (seg_relink _ _ _ _ _ _ _ _ _ (Some p) (Some p) H1 H2 Hnd) as (s2 & E2 & Hs1 & Hs2 & Hfr).
  rewrite E in E2. injection E2 as <-.
  split; [|intros q Hq; rewrite Hfr, lookup_insert_ne; set_solver].
  split; simpl; try done.
  - apply NoDup_app in Hnd as (? & ? & ?). apply NoDup_app. split_and!; [done | set_solver |].
    apply NoDup_cons. split; [done | done].
  - rewrite uwrap_small by zl. zl.
  - eapply link_new; [done | done | | done].
    rewrite Hfr by set_solver. by rewrite lookup_insert_eq.
Qed.

(** On a list that represents [vs], [listAddNodeHead], when it gets memory,
    yields a list that represents [v :: vs] and changes no node outside the list;
    without memory the list and the store are unaltered. *)
Theorem listAddNodeHead_repr (l : hilist V) (m : mem V) ls vs v
    (Hfresh : fresh_alloc) (Hl : lrep l (store m) ls vs) (Hmax : len l < 2 ^ 64 - 1) :
  match hi_alloc (store m) with
  | None => listAddNodeHead l v m = Some (m, l, false)
  | Some p => exists m' l', listAddNodeHead l v m = Some (m', l', true) /\
      lrep l' (store m') (p :: ls) (v :: vs) /\
      freed m' = freed m /\ (forall q, q ∉ p :: ls -> store m' !! q = store m !! q)
  end.
Proof.
  unfold listAddNodeHead. destruct (hi_alloc (store m)) as [p|] eqn:Ea; [|done].
  pose proof (Hfresh _ _ Ea) as Hp.
  pose proof Hl as [Hnd Hh Ht Hlen Hseg].
  pose proof (fun s' => add_middle l (store m) [] ls [] vs p v (hdp ls None) None s') as Hadd.
  cbn [lastp app mbind option_bind hdp seg] in Hadd.
  destruct (len l =? 0) eqn:E0.
  - destruct (lrep_empty _ _ _ _ Hl E0) as [-> ->].
    destruct (Hadd (<[p:=mk_node None None v]> (store m))) as [Hr Hf]; try done.
    eexists _, _. split; [reflexivity|]. split; [exact Hr|]. split; [done | exact Hf].
  - pose proof (lrep_nonempty _ _ _ _ Hl E0). destruct ls as [|q ls]; [done|].
    rewrite Hh in *. cbn [hdp] in *.
    destruct vs as [|v0 vs]; [done|].
    assert (p ≠ q). { intros ->. destruct Hseg as [Hq _]. congruence. }
    assert (is_Some (store_prev (<[p:=mk_node None (Some q) v]> (store m)) (Some q) (Some p))) as [s' Es].
    { unfold store_prev. simpl. rewrite lookup_insert_ne by done. destruct Hseg as [-> _]. by eexists. }
    destruct (Hadd s') as [Hr Hf]; try done.
    rewrite Es. cbn [mbind option_bind].
    eexists _, _. split; [reflexivity|]. split; [|done].
    cbn [set_ends set_len head tail store set_store] in *. rewrite Ht. exact Hr.
Qed.

Lemma lastp_In prv l q : lastp prv l = Some q -> prv = Some q \/ q ∈ l.
Proof.
  revert prv. induction l as [|x l IH]; intros prv; simpl; [by left|].
  intros [H|H]%IH; [injection H as ->; right; by left | right; by right].
Qed.

Lemma lastp_snoc q prv l : lastp prv (l ++ [q]) = Some q.
Proof. by rewrite lastp_app. Qed.

Lemma lastp_split prv l q : lastp None l = Some q -> lastp prv l = Some q /\ exists l', l = l' ++ [q].
Proof.
  destruct l as [|x l _] using rev_ind; [done|]. rewrite !lastp_snoc. intros [= ->]. eauto.
Qed.

(** [listAddNodeTail] appends. *)
Lemma listAddNodeTail_repr l m ls vs v :
  fresh_alloc -> lrep l (store m) ls vs -> len l < 2 ^ 64 - 1 ->
  match hi_alloc (store m) with
  | None => listAddNodeTail l v m = Some (m, l, false)
  | Some p => exists m' l', listAddNodeTail l v m = Some (m', l', true) /\
      lrep l' (store m') (ls ++ [p]) (vs ++ [v]) /\
      freed m' = freed m /\ dup l' = dup l /\ has_free l' = has_free l /\ match_fn l' = match_fn l /\
      (forall q, q ∉ p :: ls -> store m' !! q = store m !! q)
  end.
Proof.
  intros Hfresh Hl Hmax. unfold listAddNodeTail. destruct (hi_alloc (store m)) as [p|] eqn:Ea; [|done].
  pose proof (Hfresh _ _ Ea) as Hp. pose proof Hl as [Hnd Hh Ht Hlen Hseg].
  pose proof (fun s' => add_middle l (store m) ls [] vs [] p v None (lastp None ls) s') as Hadd.
  cbn [lastp app mbind option_bind hdp seg] in Hadd. rewrite !app_nil_r in Hadd.
  destruct (len l =? 0) eqn:E0.
  - destruct (lrep_empty _ _ _ _ Hl E0) as [-> ->].
    destruct (Hadd (<[p:=mk_node None None v]> (store m))) as [Hr Hf]; try done.
    eexists _, _. split; [reflexivity|]. split; [exact Hr|]. done.
  - pose proof (lrep_nonempty _ _ _ _ Hl E0).
    destruct (lastp None ls) as [q|] eqn:Eq.
    2: { destruct ls as [|x ls _] using rev_ind; [done|]. by rewrite lastp_snoc in Eq. }
    destruct (lastp_split None _ _ Eq) as [_ [l' ->]].
    assert (is_Some (store m !! q)) as [n Hn] by (eapply seg_lookup; [done | set_solver]).
    assert (p ≠ q) by congruence.
    assert (is_Some (store_next (<[p:=mk_node (tail l) None v]> (store m)) (Some q) (Some p))) as [s' Es].
    { unfold store_next. simpl. rewrite lookup_insert_ne, Hn by done. by eexists. }
    rewrite Ht in *. destruct (Hadd s') as [Hr Hf]; try done.
    { by rewrite Es. }
    rewrite Es. cbn [mbind option_bind].
    eexists _, _. split; [reflexivity|]. split; [|done].
    cbn [set_ends set_len head tail store set_store] in *. rewrite lastp_snoc in Hr.
    rewrite hdp_app in Hr. rewrite Hh. by destruct l'.
Qed.

(** The links and the ends that [listInsertNode] computes at a cut of the chain. *)
Lemma insert_cut (l : hilist V) (s : st) l1 l2 v1 v2 old p (after : bool) :
  lrep l s (l1 ++ l2) (v1 ++ v2) -> length l1 = length v1 ->
  (if after then lastp None l1 = Some old else hdp l2 None = Some old) ->
  exists nd, s !! old = Some nd /\
    (if after then (Some old, next nd) else (prev nd, Some old)) = (lastp None l1, hdp l2 None) /\
    (if after then if decide (tail l = Some old) then set_ends l (head l) (Some p) else l
     else if decide (head l = Some old) then set_ends l (Some p) (tail l) else l) =
    set_ends l (hdp (l1 ++ p :: l2) None) (lastp None (l1 ++ p :: l2)).
Proof.
  intros [Hnd Hh Ht Hlen Hseg] Hcut Hold. pose proof Hnd as (Hn1 & Hd & Hn2)%NoDup_app.
  apply seg_app in Hseg as [Hs1 Hs2]; [|done].
  rewrite lastp_app, hdp_app in *. cbn [lastp hdp]. destruct after.
  - destruct (lastp_split None _ _ Hold) as [_ [l' ->]].
    destruct v1 as [|w v1 _] using rev_ind; [rewrite length_app in Hcut; simpl in Hcut; lia|].
    rewrite !length_app in Hcut. simpl in Hcut.
    apply seg_app in Hs1 as [_ [Hq _]]; [|lia]. eexists. split; [exact Hq|].
    rewrite Hold. split; [done|]. rewrite lastp_snoc in Ht.
    rewrite hdp_app in *. cbn [hdp] in *.
    case_decide as Hdec.
    + destruct l2 as [|x l2]; [by rewrite Hh|]. exfalso. simpl in Ht. rewrite Ht in Hdec.
      apply lastp_In in Hdec as [[= ->]|Hin]; [apply (Hd old) | apply (Hd old)]; set_solver.
    + destruct l2 as [|x l2]; [done|]. destruct l as [? ? ? ? ? ?]. simpl in *. by rewrite Hh, Ht.
  - destruct l2 as [|x l2]; [done|]. simpl in Hold. injection Hold as ->. destruct v2 as [|w v2]; [done|].
    destruct Hs2 as [Hq _]. eexists. split; [exact Hq|]. split; [done|]. cbn [hdp] in *.
    case_decide as Hdec.
    + destruct l1 as [|y l1]; [by rewrite Ht|]. exfalso. simpl in Hh. rewrite Hh in Hdec.
      injection Hdec as ->. apply (Hd old); set_solver.
    + destruct l1 as [|y l1]; [done|]. destruct l as [? ? ? ? ? ?]. simpl in *. by rewrite Hh, Ht.
Qed.

(** On a list that represents [v1 ++ v2], [listInsertNode] next to the node at
    the cut (the last of [v1] with [after], the first of [v2] without) yields a list
    that represents [v1 ++ v :: v2], head and tail updated when the cut is at an end. *)
Theorem listInsertNode_repr (l : hilist V) (m : mem V) l1 l2 v1 v2 old v (after : bool)
    (Hfresh : fresh_alloc) (Hl : lrep l (store m) (l1 ++ l2) (v1 ++ v2))
    (Hcut : length l1 = length v1) (Hmax : len l < 2 ^ 64 - 1)
    (Hold : if after then lastp None l1 = Some old else hdp l2 None = Some old) :
  match hi_alloc (store m) with
  | None => listInsertNode l old v after m = Some (m, l, false)
  | Some p => exists m' l', listInsertNode l old v after m = Some (m', l', true) /\
      lrep l' (store m') (l1 ++ p :: l2) (v1 ++ v :: v2) /\
      freed m' = freed m /\ (forall q, q ∉ p :: l1 ++ l2 -> store m' !! q = store m !! q)
  end.
Proof.
  unfold listInsertNode. destruct (hi_alloc (store m)) as [p|] eqn:Ea; [|done].
  pose proof (Hfresh _ _ Ea) as Hp. pose proof Hl as [Hnd Hh Ht Hlen Hseg].
  pose proof Hnd as (Hn1 & Hd & Hn2)%NoDup_app.
  apply seg_app in Hseg as [Hs1 Hs2]; [|done].
  assert (p ∉ l1) by (by eapply fresh_not_in).
  assert (p ∉ l2) by (by eapply fresh_not_in).
  set (s1 := <[p := mk_node (lastp None l1) (hdp l2 None) v]> (store m)).
  destruct (seg_relink s1 None l1 v1 l2 v2 (hdp l2 None) (lastp None l1) None (Some p) (Some p))
    as (s' & E & _); [by apply seg_insert | by apply seg_insert | done |].
  destruct (add_middle l (store m) l1 l2 v1 v2 p v (hdp l2 None) (lastp None l1) s') as [Hr Hf]; try done.
  destruct (insert_cut l (store m) l1 l2 v1 v2 old p after Hl Hcut Hold) as (nd & Hnd' & Hlinks & Hends).
  rewrite Hnd'. cbn [mbind option_bind].
  assert (forall T (k : ptr -> ptr -> hilist V -> T),
    (let '(a, b, c) := if after
       then (Some old, next nd, if decide (tail l = Some old) then set_ends l (head l) (Some p) else l)
       else (prev nd, Some old, if decide (head l = Some old) then set_ends l (Some p) (tail l) else l)
     in k a b c) = k (lastp None l1) (hdp l2 None)
       (set_ends l (hdp (l1 ++ p :: l2) None) (lastp None (l1 ++ p :: l2)))) as Hk.
  { intros T k. destruct after; injection Hlinks as <- <-; by rewrite Hends. }
  rewrite Hk. fold s1.
  destruct (lastp None l1) as [a|], (hdp l2 None) as [b|]; cbn [mbind option_bind] in *;
    try (destruct (store_next _ _ _); [|done]); cbn [mbind option_bind] in *; rewrite ?E;
    try (injection E as ->); cbn [mbind option_bind];
    (eexists _, _; split; [reflexivity|]; split; [exact Hr | done]).
Qed.

(** [listDelNode] of the node that holds [v] in a list that represents
    [v1 ++ v :: v2] leaves a list that represents [v1 ++ v2], gives [v] to the free
    method when one is set, removes exactly that node from the store and keeps the
    nodes of other lists. *)
Theorem listDelNode_repr (l : hilist V) (m : mem V) l1 p l2 v1 v v2
    (Hl : lrep l (store m) (l1 ++ p :: l2) (v1 ++ v :: v2)) (Hcut : length l1 = length v1)
    (Hmax : len l < 2 ^ 64) :
  exists m' l', listDelNode l p m = Some (m', l') /\
    lrep l' (store m') (l1 ++ l2) (v1 ++ v2) /\ store m' !! p = None /\
    freed m' = (if has_free l then freed m ++ [v] else freed m) /\
    (forall q, q ∉ l1 ++ p :: l2 -> store m' !! q = store m !! q).
Proof.
  destruct Hl as [Hnd Hh Ht Hlen Hseg].
  apply seg_app in Hseg as [Hs1 [Hp Hs2]]; [|done].
  pose proof Hnd as (Hn1 & Hd & [Hpl2 Hn2]%NoDup_cons)%NoDup_app.
  assert (Hnd2 : NoDup (l1 ++ l2)) by (apply NoDup_app; set_solver).
  assert (Hpl : p ∉ l1 ++ l2) by set_solver.
  destruct (seg_relink (store m) None l1 v1 l2 v2 _ _ None (hdp l2 None) (lastp None l1) Hs1 Hs2 Hnd2)
    as (s' & E & H1 & H2 & Hfr).
  assert (Hfin : forall m' l', m' = mk_mem (delete p s') (if has_free l then freed m ++ [v] else freed m) ->
    l' = set_len (set_ends l (hdp (l1 ++ l2) None) (lastp None (l1 ++ l2))) (u64 (len l - 1)) ->
    lrep l' (store m') (l1 ++ l2) (v1 ++ v2) /\ store m' !! p = None /\
    freed m' = (if has_free l then freed m ++ [v] else freed m) /\
    (forall q, q ∉ l1 ++ p :: l2 -> store m' !! q = store m !! q)).
  { intros m' l' -> ->. simpl. split; [|split; [apply lookup_delete_eq | split; [done|]]].
    - split; simpl; try done; [rewrite uwrap_small by zl; zl|].
      apply seg_app; [done|]. split; apply seg_delete; set_solver.
    - intros q Hq. rewrite lookup_delete_ne, Hfr by set_solver. done. }
  unfold listDelNode. rewrite Hp. cbn [mbind option_bind prev next value].
  rewrite hdp_app, lastp_app in *. cbn [hdp lastp] in *.
  assert (Hlast : forall x, lastp x l2 = match hdp l2 None with None => x | Some _ => lastp None l2 end)
    by (by destruct l2).
  assert (Hhd : forall x, hdp l1 x = match lastp None l1 with None => x | Some _ => hdp l1 None end).
  { intros x. destruct l1 as [|y l1] using rev_ind; [done|]. rewrite lastp_snoc. by destruct l1. }
  rewrite Hlast in Hfin, Ht. rewrite Hhd in Hfin, Hh.
  destruct (lastp None l1) as [a|], (hdp l2 None) as [b|]; cbn [mbind option_bind] in *;
    try (destruct (store_next _ _ _); [|done]); cbn [mbind option_bind] in *; rewrite ?E;
    try (injection E as <-); cbn [mbind option_bind];
    eexists _, _; (split; [reflexivity|]); (apply Hfin; [done|]);
    destruct l; simpl in *; by rewrite ?Hh, ?Ht.
Qed.

(** *** Iteration *)

(** Walking with [listNext] from the node at a cut visits the values behind it. *)
Lemma listNext_cut l s l1 p l2 v1 v v2 : lrep l s (l1 ++ p :: l2) (v1 ++ v :: v2) ->
  length l1 = length v1 ->
  listNext s (mk_iter (Some p) AL_START_HEAD) = Some (Some p, mk_iter (hdp l2 None) AL_START_HEAD) /\
  listNext s (mk_iter (Some p) AL_START_TAIL) = Some (Some p, mk_iter (lastp None l1) AL_START_TAIL) /\
  exists n, s !! p = Some n /\ value n = v.
Proof.
  intros [_ _ _ _ Hseg] Hcut. apply seg_app in Hseg as [_ [Hp _]]; [|done].
  unfold listNext. simpl. rewrite Hp. simpl. eauto.
Qed.

(** A chain has at most as many nodes as the store. *)
Lemma seg_size s prv ls vs nxt : NoDup ls -> seg s prv ls vs nxt -> (length ls <= size s)%nat.
Proof.
  revert s prv vs. induction ls as [|p ls IH]; intros s prv [|v vs] Hnd; simpl; try done; try lia.
  intros [Hp Hs]. apply NoDup_cons in Hnd as [Hnin Hnd].
  rewrite <- (insert_delete_id s p _ Hp), map_size_insert_None by apply lookup_delete_eq.
  apply le_n_S. eapply IH; [done|]. by apply seg_delete.
Qed.

Lemma search_loop_spec l s key f : forall l1 l2 v1 v2,
  lrep l s (l1 ++ l2) (v1 ++ v2) -> length l1 = length v1 -> (length l2 < f)%nat ->
  let eq := match match_fn l with Some e => e | None => fun v k => bool_decide (k = v) end in
  exists r, search_loop f l (mk_iter (hdp l2 None) AL_START_HEAD) s key = Some r /\
    match r with
    | None => Forall (fun v => eq v key = false) v2
    | Some p => exists i v, l2 !! i = Some p /\ v2 !! i = Some v /\ eq v key = true /\
                  Forall (fun v => eq v key = false) (take i v2)
    end.
Proof.
  induction f as [|f IH]; intros l1 l2 v1 v2 Hl Hcut Hf eq; [lia|]. cbn [search_loop].
  pose proof Hl as [_ _ _ _ Hseg]. pose proof (seg_length _ _ _ _ _ Hseg) as HL.
  rewrite !length_app in HL.
  destruct l2 as [|p l2], v2 as [|v v2]; simpl in HL; try lia.
  { exists None. split; [done | constructor]. }
  destruct (listNext_cut _ _ _ _ _ _ _ _ Hl Hcut) as (E & _ & n & Hn & Hv).
  cbn [hdp]. rewrite E. cbn [mbind option_bind]. rewrite Hn. cbn [mbind option_bind]. rewrite Hv.
  assert ((match match_fn l with Some e => e v key | None => bool_decide (key = v) end) = eq v key) as Heq
    by (unfold eq; by destruct (match_fn l)).
  rewrite Heq. destruct (eq v key) eqn:Ev.
  - exists (Some p). split; [done|]. exists 0%nat, v. simpl. done.
  - destruct (IH (l1 ++ [p]) l2 (v1 ++ [v]) v2) as (r & Er & Hr).
    + by rewrite <- !app_assoc.
    + rewrite !length_app. simpl. lia.
    + simpl in Hf. lia.
    + exists r. split; [done|]. destruct r as [q|]; [|by constructor].
      destruct Hr as (i & w & Hi & Hw & He & HF). exists (S i), w. simpl. split_and!; try done.
      by constructor.
Qed.

(** With memory for its iterator, [listSearchKey] terminates and returns the first node, from the head, whose
    value matches the key (by the match method, by equality without one); it returns
    NULL only when no value of the list matches. *)
Theorem listSearchKey_first (l : hilist V) (s : st) ls vs key (Hl : lrep l s ls vs) :
  let eq := match match_fn l with Some e => e | None => fun v k => bool_decide (k = v) end in
  exists r, listSearchKey true l s key = Some r /\
    match r with
    | None => Forall (fun v => eq v key = false) vs
    | Some p => exists i v, ls !! i = Some p /\ vs !! i = Some v /\ eq v key = true /\
                  Forall (fun v => eq v key = false) (take i vs)
    end.
Proof.
  unfold listSearchKey, listGetIterator. cbn [negb mbind option_bind]. rewrite Z.eqb_refl, (lrep_head _ _ _ _ Hl).
  apply (search_loop_spec l s key _ [] ls [] vs Hl eq_refl).
  pose proof (seg_size _ _ _ _ _ (lrep_nodup _ _ _ _ Hl) (lrep_seg _ _ _ _ Hl)). lia.
Qed.

(** *** Indexing, rotation, release and copy *)

Lemma walk_forward s prv ls vs f i : seg s prv ls vs None -> 0 <= i -> (length ls < f)%nat ->
  walk f true i (hdp ls None) s = Some (ls !! Z.to_nat i).
Proof.
  revert s prv vs i f. induction ls as [|p ls IH]; intros s prv [|v vs] i [|f] Hs Hi Hf; simpl in Hs, Hf;
    try done; try lia; cbn [walk hdp].
  - destruct (i =? 0); [|done]. done.
  - destruct Hs as [Hp Hs]. destruct (Z.eqb_spec i 0) as [->|Hne]; [done|].
    rewrite Hp. cbn [mbind option_bind next]. rewrite (IH s (Some p) vs) by (done || lia).
    by replace (Z.to_nat i) with (S (Z.to_nat (i - 1))) by lia.
Qed.

Lemma walk_backward s ls vs nxt f i : seg s None ls vs nxt -> 0 <= i -> (length ls < f)%nat ->
  walk f false i (lastp None ls) s = Some (reverse ls !! Z.to_nat i).
Proof.
  revert vs nxt i f. induction ls as [|p ls IH] using rev_ind; intros vs nxt i [|f] Hs Hi Hf;
    rewrite ?length_app in Hf; simpl in Hf; try lia; cbn [walk].
  - destruct (i =? 0); [|done]. done.
  - rewrite lastp_snoc, reverse_snoc. destruct (Z.eqb_spec i 0) as [->|Hne]; [done|].
    pose proof (seg_length _ _ _ _ _ Hs) as HL. rewrite length_app in HL. simpl in HL.
    destruct vs as [|v vs _] using rev_ind; [simpl in HL; lia|].
    rewrite length_app in HL. simpl in HL.
    apply seg_app in Hs as [Hs [Hp _]]; [|lia]. rewrite Hp. cbn [mbind option_bind prev].
    rewrite (IH vs _) by (done || lia).
    by replace (Z.to_nat i) with (S (Z.to_nat (i - 1))) by lia.
Qed.

(** [listIndex] returns the node at a zero-based index from the head, a
    negative index counting from the tail (-1 is the last node), and NULL exactly when the
    index is out of range. *)
Theorem listIndex_spec (l : hilist V) (s : st) ls vs i (Hl : lrep l s ls vs) (Hi : LONG_MIN < i) (Hi' : i <= LONG_MAX) :
  listIndex l i s =
    Some (if 0 <=? i then ls !! Z.to_nat i else reverse ls !! Z.to_nat (- i - 1)).
Proof.
  destruct Hl as [Hnd Hh Ht Hlen Hseg]. pose proof (seg_size _ _ _ _ _ Hnd Hseg) as Hsz.
  unfold listIndex, LONG_MIN, LONG_MAX in *. rewrite Hh, Ht.
  destruct (Z.ltb_spec i 0), (Z.leb_spec 0 i); try lia.
  - rewrite i64_small by (unfold LONG_MIN, LONG_MAX; lia). eapply walk_backward; [done | lia | lia].
  - eapply walk_forward; [done | lia | lia].
Qed.

(** [listRotate] moves the last element to the front and keeps the nodes:
    no node is allocated or released, and the nodes of other lists are untouched. *)
Theorem listRotate_repr (l : hilist V) (m : mem V) ls vs p v
    (Hl : lrep l (store m) (ls ++ [p]) (vs ++ [v])) (Hcut : length ls = length vs) :
  exists m' l', listRotate l m = Some (m', l') /\ lrep l' (store m') (p :: ls) (v :: vs) /\
    freed m' = freed m /\ (forall q, q ∉ ls ++ [p] -> store m' !! q = store m !! q).
Proof.
  destruct Hl as [Hnd Hh Ht Hlen Hseg]. unfold listRotate. rewrite Hlen, Hh, Ht.
  destruct ls as [|a ls].
  { destruct vs; [|done]. exists m, l. split; [done|]. split; [by split|]. done. }
  destruct vs as [|w vs]; [done|].
  rewrite (proj2 (Z.leb_gt _ _)) by zl. rewrite lastp_app. cbn [lastp app hdp].
  apply (seg_app _ _ (a :: ls) [p] (w :: vs) [v]) in Hseg as [Hs [Hp _]]; [|done].
  unfold load. cbn [mbind option_bind]. rewrite Hp. cbn [mbind option_bind prev].
  apply NoDup_app in Hnd as (Hn1 & Hd & _). assert (p ∉ a :: ls) as Hpn by set_solver.
  destruct (seg_relink (store m) None (a :: ls) (w :: vs) [] [] _ None None None None Hs I) as
    (s1 & E1 & Hs1 & _ & Hf1); [by rewrite app_nil_r|].
  cbn [hdp lastp] in E1, Hp |- *. rewrite app_nil_r in Hf1.
  destruct (lastp (Some a) ls) as [q|] eqn:Eq.
  2: { destruct ls as [|x ls _] using rev_ind; simpl in Eq; [done|]. by rewrite lastp_snoc in Eq. }
  destruct (store_next (store m) (Some q) None); [|done].
  cbn [mbind option_bind] in *. injection E1 as ->.
  destruct (seg_set_prev s1 None (Some p) a ls w vs None Hs1 Hn1) as (s2 & E2 & Hs2 & Hf2).
  rewrite E2. cbn [mbind option_bind]. unfold store_prev, store_next. cbn [mbind option_bind].
  assert (p ≠ a) by set_solver.
  rewrite Hf2, Hf1, Hp by done. cbn [mbind option_bind]. rewrite lookup_insert_eq. cbn [mbind option_bind].
  eexists _, _. split; [reflexivity|]. cbn [store set_store freed set_ends]. rewrite insert_insert_eq.
  split; [|split; [done|]].
  - split; cbn [head tail len set_ends]; try done.
    + by apply NoDup_cons.
    + zl.
    + split; [by rewrite lookup_insert_eq|]. by apply seg_insert.
  - intros x Hx. rewrite lookup_insert_ne by set_solver. rewrite Hf2, Hf1 by set_solver. done.
Qed.

Lemma release_loop_spec l s0 prv ls vs fr : seg s0 prv ls vs None -> NoDup ls ->
  release_loop (length ls) l (hdp ls None) (mk_mem s0 fr) =
    Some (mk_mem (foldr delete s0 (reverse ls)) (if has_free l then fr ++ vs else fr)).
Proof.
  revert s0 prv vs fr. induction ls as [|p ls IH]; intros s0 prv [|v vs] fr Hs Hnd; simpl in Hs; try done.
  - simpl. rewrite app_nil_r. by destruct (has_free l).
  - destruct Hs as [Hp Hs]. apply NoDup_cons in Hnd as [Hn Hnd].
    cbn [length release_loop hdp mbind option_bind store freed]. rewrite Hp. cbn [mbind option_bind next value].
    rewrite (IH _ (Some p) vs) by (try apply seg_delete; done).
    rewrite reverse_cons, foldr_app. simpl. f_equal. f_equal.
    destruct (has_free l); [by rewrite <- app_assoc | done].
Qed.

Lemma foldr_delete_lookup (s : st) ls q :
  foldr delete s ls !! q = if decide (q ∈ ls) then None else s !! q.
Proof.
  induction ls as [|p ls IH]; [done|]. simpl. destruct (decide (p = q)) as [->|Hne].
  - rewrite lookup_delete_eq, decide_True by set_solver. done.
  - rewrite lookup_delete_ne, IH by done. by repeat case_decide; set_solver.
Qed.

(** [listRelease] removes exactly the nodes of the list, and frees its values once, in order. *)
Lemma listRelease_spec l m ls vs : lrep l (store m) ls vs ->
  exists m', listRelease l m = Some m' /\
    freed m' = (if has_free l then freed m ++ vs else freed m) /\
    (forall q, store m' !! q = if decide (q ∈ ls) then None else store m !! q).
Proof.
  intros [Hnd Hh Ht Hlen Hseg]. unfold listRelease. rewrite Hlen, Hh.
  replace (Z.to_nat (zlen vs)) with (length ls)
    by (rewrite (seg_length _ _ _ _ _ Hseg); unfold zlen; lia).
  destruct m as [s fr]. rewrite (release_loop_spec l s None ls vs fr Hseg Hnd).
  eexists. split; [done|]. split; [done|]. intros q. cbn [store].
  rewrite foldr_delete_lookup. by repeat case_decide; set_solver.
Qed.

(** The copy of a value: by the dup method, or the value itself without one. *)
Definition dup_value (l : hilist V) (v : V) : option V :=
  match dup l with Some d => d v | None => Some v end.

(** [s] is [s0] plus the nodes at [cls]. *)
Definition extends (s0 s : st) (cls : list loc) : Prop :=
  forall q, if decide (q ∈ cls) then s0 !! q = None else s !! q = s0 !! q.

Lemma extends_seg s0 s cls prv ls vs nxt : extends s0 s cls -> seg s0 prv ls vs nxt -> seg s prv ls vs nxt.
Proof.
  intros He Hs. eapply seg_frame; [done|]. intros p Hp. specialize (He p).
  case_decide; [|done]. destruct (seg_lookup _ _ _ _ _ _ Hs Hp). congruence.
Qed.

(** The outcome of [listDup] on a list with values [vs], the values [done] copied before. *)
Definition dup_outcome (l : hilist V) (s0 : st) (fr : list V) (done vs : list V)
    (m' : mem V) (r : option (hilist V)) : Prop :=
  match r with
  | Some c => exists cls cvs, lrep c (store m') cls (done ++ cvs) /\ extends s0 (store m') cls /\
      Forall2 (fun v v' => dup_value l v = Some v') vs cvs /\ freed m' = fr /\
      dup c = dup l /\ has_free c = has_free l /\ match_fn c = match_fn l
  | None => store m' = s0
  end.

Lemma release_copy s0 c m cls cvs : lrep c (store m) cls cvs -> extends s0 (store m) cls ->
  exists m', listRelease c m = Some m' /\ store m' = s0.
Proof.
  intros Hc He. destruct (listRelease_spec _ _ _ _ Hc) as (m' & E & _ & Hst). exists m'.
  split; [done|]. apply map_eq. intros q. rewrite Hst. specialize (He q). by case_decide.
Qed.

Lemma dup_loop_spec l s0 f : forall l1 l2 v1 v2 c m cls cvs,
  fresh_alloc -> lrep l s0 (l1 ++ l2) (v1 ++ v2) -> length l1 = length v1 -> (length l2 < f)%nat ->
  lrep c (store m) cls cvs -> extends s0 (store m) cls -> zlen cvs + zlen v2 < 2 ^ 64 ->
  dup c = dup l -> has_free c = has_free l -> match_fn c = match_fn l ->
  exists m' r, dup_loop f (mk_iter (hdp l2 None) AL_START_HEAD) c m = Some (m', r) /\
    dup_outcome l s0 (freed m) cvs v2 m' r.
Proof.
  induction f as [|f IH]; intros l1 l2 v1 v2 c m cls cvs Hfresh Hl Hcut Hf Hc He Hmax Hd1 Hd2 Hd3; [lia|].
  pose proof (seg_length _ _ _ _ _ (lrep_seg _ _ _ _ Hl)) as HL. rewrite !length_app in HL.
  cbn [dup_loop]. destruct l2 as [|p l2], v2 as [|v v2]; simpl in HL; try lia.
  { cbn. eexists _, _. split; [reflexivity|]. exists cls, []. rewrite app_nil_r.
    split_and!; done. }
  assert (Hl' : lrep l (store m) (l1 ++ p :: l2) (v1 ++ v :: v2))
    by (destruct Hl; split; try done; by eapply extends_seg).
  destruct (listNext_cut _ _ _ _ _ _ _ _ Hl' Hcut) as (E & _ & n & Hn & Hv).
  cbn [hdp]. rewrite E. cbn [mbind option_bind]. rewrite Hn. cbn [mbind option_bind]. rewrite Hv, Hd1.
  fold (dup_value l v). destruct (dup_value l v) as [w|] eqn:Ew.
  2: { destruct (release_copy s0 c m cls cvs Hc He) as (m' & -> & Hm'). by eexists _, None. }
  pose proof (listAddNodeTail_repr c m cls cvs w Hfresh Hc) as Hadd.
  specialize (Hadd ltac:(rewrite (lrep_len _ _ _ _ Hc); zl)).
  destruct (hi_alloc (store m)) as [q|] eqn:Ea.
  2: { rewrite Hadd. cbn [mbind option_bind].
       destruct (release_copy s0 c m cls cvs Hc He) as (m' & -> & Hm'). by eexists _, None. }
  destruct Hadd as (m1 & c1 & -> & Hc1 & Hfr & ? & ? & ? & Hst). cbn [mbind option_bind].
  destruct (IH (l1 ++ [p]) l2 (v1 ++ [v]) v2 c1 m1 (cls ++ [q]) (cvs ++ [w])) as (m' & r & Er & Hr);
    try congruence; try assumption.
  - by rewrite <- !app_assoc.
  - rewrite !length_app. simpl. lia.
  - simpl in Hf. lia.
  - intros x. specialize (He x). destruct (decide (x ∈ cls ++ [q])) as [Hx|Hx].
    + destruct (decide (x ∈ cls)); [done|]. assert (x = q) as -> by set_solver.
      rewrite <- He. exact (Hfresh _ _ Ea).
    + rewrite decide_False in He by set_solver. rewrite Hst by set_solver. done.
  - zl.
  - exists m', r. split; [done|]. rewrite <- Hfr. destruct r as [c'|]; [|done].
    destruct Hr as (cls' & cvs' & Hr & ?). exists cls', (w :: cvs').
    rewrite <- app_assoc in Hr. destruct_and!. split_and!; try done. by constructor.
Qed.

(** With memory for its iterator, [listDup] terminates.  When it returns a copy, the copy is a separate chain
    that holds the duplicated values in order, with the original's methods, nothing is
    freed and the rest of the store is unchanged; when a duplication or an allocation fails
    it returns NULL and the store is exactly the one before the call (no node leaks). *)
Theorem listDup_spec (l : hilist V) (m : mem V) ls vs copy_ok
    (Hfresh : fresh_alloc) (Hl : lrep l (store m) ls vs) (Hmax : zlen vs < 2 ^ 64) :
  exists m' r, listDup copy_ok true l m = Some (m', r) /\ dup_outcome l (store m) (freed m) [] vs m' r.
Proof.
  unfold listDup, listCreate, listGetIterator. destruct copy_ok; [|by exists m, None].
  cbn [negb mbind option_bind head tail len]. rewrite Z.eqb_refl, (lrep_head _ _ _ _ Hl).
  apply (dup_loop_spec l (store m) _ [] ls [] vs _ m [] []); try done.
  - pose proof (seg_size _ _ _ _ _ (lrep_nodup _ _ _ _ Hl) (lrep_seg _ _ _ _ Hl)). lia.
  - by split; try constructor.
Qed.

End Ops.

(** ** A concrete list *)

(** An allocator that takes a location not in use. *)
Definition alloc_fresh {V} (s : gmap loc (listNode V)) : option loc := Some (fresh (dom s)).

Lemma alloc_fresh_ok V : fresh_alloc (@alloc_fresh V).
Proof. intros s p [= <-]. apply not_elem_of_dom, is_fresh. Qed.

Definition demo_store : gmap loc (listNode Z) :=
  <[1%positive := mk_node None (Some 2%positive) 10]>
  (<[2%positive := mk_node (Some 1%positive) None 20]> ∅).
Definition demo_list : hilist Z := mk_list (Some 1%positive) (Some 2%positive) None true None 2.

Lemma demo_rep : lrep demo_list demo_store [1%positive; 2%positive] [10; 20].
Proof. split; try done. by apply (bool_decide_unpack _). Qed.

Lemma listAddNodeHead_repr_witness :
  exists m' l', listAddNodeHead alloc_fresh demo_list 5 (mk_mem demo_store []) = Some (m', l', true) /\
    lrep l' (store m') [fresh (dom demo_store); 1%positive; 2%positive] [5; 10; 20].
Proof.
  destruct (listAddNodeHead_repr alloc_fresh demo_list (mk_mem demo_store [])
    [1%positive; 2%positive] [10; 20] 5 (alloc_fresh_ok Z) demo_rep eq_refl) as (m' & l' & E & H & _).
  exists m', l'. split; [exact E | exact H].
Defined.

Lemma listInsertNode_repr_witness :
  exists m' l', listInsertNode alloc_fresh demo_list 1%positive 15 true (mk_mem demo_store []) =
    Some (m', l', true) /\
    lrep l' (store m') [1%positive; fresh (dom demo_store); 2%positive] [10; 15; 20].
Proof.
  destruct (listInsertNode_repr alloc_fresh demo_list (mk_mem demo_store [])
    [1%positive] [2%positive] [10] [20] 1%positive 15 true (alloc_fresh_ok Z) demo_rep
    eq_refl eq_refl eq_refl) as (m' & l' & E & H & _).
  exists m', l'. split; [exact E | exact H].
Defined.

Lemma listDelNode_repr_witness :
  exists m' l', listDelNode demo_list 1%positive (mk_mem demo_store []) = Some (m', l') /\
    lrep l' (store m') [2%positive] [20] /\ freed m' = [10].
Proof.
  destruct (listDelNode_repr alloc_fresh demo_list (mk_mem demo_store []) [] 1%positive [2%positive]
    [] 10 [20] demo_rep eq_refl eq_refl) as (m' & l' & E & H & _ & Hf & _).
  exists m', l'. split; [exact E | split; [exact H | exact Hf]].
Defined.

Lemma listSearchKey_first_witness :
  exists r, listSearchKey true demo_list demo_store 20 = Some r /\ r = Some 2%positive.
Proof.
  destruct (listSearchKey_first alloc_fresh demo_list demo_store [1%positive; 2%positive] [10; 20] 20 demo_rep)
    as (r & E & _).
  exists r. split; [exact E|]. vm_compute in E. injection E as <-. reflexivity.
Defined.

Lemma listIndex_spec_witness :
  listIndex demo_list (-1) demo_store = Some (Some 2%positive).
Proof. exact (listIndex_spec alloc_fresh demo_list demo_store _ _ (-1) demo_rep eq_refl ltac:(done)). Defined.

Lemma listRotate_repr_witness :
  exists m' l', listRotate demo_list (mk_mem demo_store []) = Some (m', l') /\
    lrep l' (store m') [2%positive; 1%positive] [20; 10].
Proof.
  destruct (listRotate_repr alloc_fresh demo_list (mk_mem demo_store []) [1%positive] [10] 2%positive 20
    demo_rep eq_refl) as (m' & l' & E & H & _).
  exists m', l'. split; [exact E | exact H].
Defined.

Lemma listDup_spec_witness :
  exists m' r, listDup alloc_fresh true true demo_list (mk_mem demo_store []) = Some (m', r) /\
    dup_outcome demo_list demo_store [] [] [10; 20] m' r.
Proof.
  exact (listDup_spec alloc_fresh demo_list (mk_mem demo_store []) _ [10; 20] true
    (alloc_fresh_ok Z) demo_rep eq_refl).
Defined.

End AdList.
