(* ===== verification/Dict.v ===== *)
(** The chained hash table of dict.c, and the proof that it implements finite maps
    for every hash function and key comparison that satisfy the interface's laws. *)
From S2P Require Import Prelude.

Open Scope Z_scope.

Module Dict.

(** ** dict.h *)

Definition DICT_OK : Z := 0.
Definition DICT_ERR : Z := 1.
Definition DICT_HT_INITIAL_SIZE : Z := 4.

(** The functions a client supplies; the optional ones may be NULL in the C struct. *)
Class dictType (K V : Type) := {
  hashFunction : K -> Z;
  keyDup : option (K -> K);
  valDup : option (V -> V);
  keyCompare : option (K -> K -> bool);
  has_keyDestructor : bool;
  has_valDestructor : bool;
}.

(** What the table relies on: hashes are [unsigned int], keys compare by content, and a
    duplicated key has the content of the original. *)
Class DictLaws {K V} `{EqDecision K} (T : dictType K V) : Prop := {
  hash_range : forall k, 0 <= hashFunction k < 2 ^ 32;
  compare_eq : forall f, keyCompare = Some f -> forall a b, f a b = bool_decide (a = b);
  dup_key_id : forall f, keyDup = Some f -> forall k, f k = k;
}.

(** A destructor call. *)
Inductive dcall (K V : Type) := FreeKey (k : K) | FreeVal (v : V).
Arguments FreeKey {K V}. Arguments FreeVal {K V}.

(** The table is the list of its chains; the type is the class instance in scope. *)
Record dict (K V : Type) := mk_dict {
  table : list (list (K * V));
  size : Z;
  sizemask : Z;
  used : Z;
}.
Arguments mk_dict {K V}. Arguments table {K V}. Arguments size {K V}.
Arguments sizemask {K V}. Arguments used {K V}.

(** [entry] and [nextEntry] point into a chain: each is the rest of the chain from there. *)
Record dictIterator (K V : Type) := mk_iter {
  index : Z;
  entry : list (K * V);
  nextEntry : list (K * V);
}.
Arguments mk_iter {K V}. Arguments index {K V}. Arguments entry {K V}. Arguments nextEntry {K V}.

(** ** Hash functions *)

Definition dictGenHashFunction (buf : bytes) : Z :=
  foldl (fun hash c => u32 (u32 (u32 (Z.shiftl hash 5) + hash) + c)) 5381 buf.

(** ** Operations *)

Section Ops.
Context {K V : Type} `{EqDecision K} {T : dictType K V}.

(** Whether an allocation of so many bytes succeeds; dict.c never tests a result, so a
    failure is followed by a store through NULL ([None]). *)
Context (malloc_ok : Z -> bool).

Definition dictCompareHashKeys (a b : K) : bool :=
  match keyCompare with Some f => f a b | None => bool_decide (a = b) end.
Definition dictSetHashKey (k : K) : K := match keyDup with Some f => f k | None => k end.
Definition dictSetHashVal (v : V) : V := match valDup with Some f => f v | None => v end.
Definition dictFreeEntryKey (e : K * V) : list (dcall K V) :=
  if has_keyDestructor then [FreeKey (fst e)] else [].
Definition dictFreeEntryVal (e : K * V) : list (dcall K V) :=
  if has_valDestructor then [FreeVal (snd e)] else [].

Definition dictReset : dict K V := mk_dict [] 0 0 0.
Definition dictInit : dict K V := dictReset.
Definition dictCreate : option (dict K V) := if malloc_ok 48 then Some dictInit else None.

(** [h = dictHashKey(ht, key) & sizemask], stored in an [unsigned int]. *)
Definition bucket (mask : Z) (key : K) : Z := u32 (Z.land (hashFunction key) mask).

(** The loop [while(1)] of [_dictNextPower], at most 62 doublings. *)
Fixpoint next_power_loop (fuel : nat) (i sz : Z) : option Z :=
  match fuel with
  | O => None
  | S f => if sz <=? i then Some i else next_power_loop f (u64 (i * 2)) sz
  end.

Definition dictNextPower (sz : Z) : option Z :=
  if LONG_MAX <=? sz then Some LONG_MAX else next_power_loop 64 DICT_HT_INITIAL_SIZE sz.

(** Relinking one entry into the new table. *)
Definition move_entry (mask : Z) (t : list (list (K * V))) (e : K * V) : option (list (list (K * V))) :=
  chain ← rd t (bucket mask (fst e)); wr t (bucket mask (fst e)) (e :: chain).

Fixpoint move_chain (mask : Z) (c : list (K * V)) (t : list (list (K * V))) (used : Z)
    : option (list (list (K * V)) * Z) :=
  match c with
  | [] => Some (t, used)
  | e :: c' => t' ← move_entry mask t e; move_chain mask c' t' (u64 (used - 1))
  end.

(** [for (i = 0; i < ht->size && ht->used > 0; i++)]. *)
Fixpoint expand_loop (old : list (list (K * V))) (mask : Z) (t : list (list (K * V))) (used : Z)
    : option (list (list (K * V)) * Z) :=
  match old with
  | [] => Some (t, used)
  | c :: old' =>
      if 0 <? used then '(t', used') ← move_chain mask c t used; expand_loop old' mask t' used'
      else Some (t, used)
  end.

Definition dictExpand (ht : dict K V) (sz : Z) : option (dict K V * Z) :=
  realsize ← dictNextPower sz;
  if sz <? used ht then Some (ht, DICT_ERR)
  else if negb (malloc_ok (u64 (realsize * 8))) then None
  else
    '(t, rest) ← expand_loop (take (Z.to_nat (size ht)) (table ht)) (u64 (realsize - 1))
                   (replicate (Z.to_nat realsize) []) (used ht);
    if rest =? 0 then Some (mk_dict t realsize (u64 (realsize - 1)) (used ht), DICT_OK) else None.

Definition dictExpandIfNeeded (ht : dict K V) : option (dict K V * Z) :=
  if size ht =? 0 then dictExpand ht DICT_HT_INITIAL_SIZE
  else if used ht =? size ht then dictExpand ht (u64 (size ht * 2))
  else Some (ht, DICT_OK).

(** The search loop shared by the lookups. *)
Fixpoint find_chain (key : K) (c : list (K * V)) : option (K * V) :=
  match c with
  | [] => None
  | e :: c' => if dictCompareHashKeys key (fst e) then Some e else find_chain key c'
  end.

(** The table, possibly expanded, and the index as an [int], -1 when the key exists. *)
Definition dictKeyIndex (ht : dict K V) (key : K) : option (dict K V * Z) :=
  '(ht, r) ← dictExpandIfNeeded ht;
  if r =? DICT_ERR then Some (ht, -1)
  else
    c ← rd (table ht) (bucket (sizemask ht) key);
    match find_chain key c with
    | Some _ => Some (ht, -1)
    | None => Some (ht, i32 (bucket (sizemask ht) key))
    end.

Definition dictAdd (ht : dict K V) (key : K) (val : V) : option (dict K V * Z) :=
  '(ht, idx) ← dictKeyIndex ht key;
  if idx =? -1 then Some (ht, DICT_ERR)
  else if negb (malloc_ok 24) then None
  else
    c ← rd (table ht) idx;
    t ← wr (table ht) idx ((dictSetHashKey key, dictSetHashVal val) :: c);
    Some (mk_dict t (size ht) (sizemask ht) (u64 (used ht + 1)), DICT_OK).

(** The outer option is undefined behaviour, the inner one the NULL of "not found". *)
Definition dictFind (ht : dict K V) (key : K) : option (option (K * V)) :=
  if size ht =? 0 then Some None
  else c ← rd (table ht) (bucket (sizemask ht) key); Some (find_chain key c).

(** The entry found in a chain with its value overwritten. *)
Fixpoint set_chain (key : K) (val : V) (c : list (K * V)) : list (K * V) :=
  match c with
  | [] => []
  | e :: c' => if dictCompareHashKeys key (fst e) then (fst e, val) :: c' else e :: set_chain key val c'
  end.

Definition dictReplace (ht : dict K V) (key : K) (val : V) : option (dict K V * Z * list (dcall K V)) :=
  '(ht, r) ← dictAdd ht key val;
  if r =? DICT_OK then Some (ht, 1, [])
  else
    auxentry ← mjoin (dictFind ht key);
    c ← rd (table ht) (bucket (sizemask ht) key);
    t ← wr (table ht) (bucket (sizemask ht) key) (set_chain key (dictSetHashVal val) c);
    Some (mk_dict t (size ht) (sizemask ht) (used ht), 0, dictFreeEntryVal auxentry).

(** The chain without the entry found, and that entry. *)
Fixpoint unlink (key : K) (c : list (K * V)) : option (list (K * V) * (K * V)) :=
  match c with
  | [] => None
  | e :: c' => if dictCompareHashKeys key (fst e) then Some (c', e)
               else '(c'', d) ← unlink key c'; Some (e :: c'', d)
  end.

Definition dictDelete (ht : dict K V) (key : K) : option (dict K V * Z * list (dcall K V)) :=
  if size ht =? 0 then Some (ht, DICT_ERR, [])
  else
    let h := bucket (sizemask ht) key in
    c ← rd (table ht) h;
    match unlink key c with
    | Some (c', de) =>
        t ← wr (table ht) h c';
        Some (mk_dict t (size ht) (sizemask ht) (u64 (used ht - 1)), DICT_OK,
              dictFreeEntryKey de ++ dictFreeEntryVal de)
    | None => Some (ht, DICT_ERR, [])
    end.

Fixpoint clear_chain (c : list (K * V)) (used : Z) : list (dcall K V) * Z :=
  match c with
  | [] => ([], used)
  | he :: c' =>
      let '(l, u) := clear_chain c' (u64 (used - 1)) in
      (dictFreeEntryKey he ++ dictFreeEntryVal he ++ l, u)
  end.

Fixpoint clear_loop (t : list (list (K * V))) (used : Z) : list (dcall K V) :=
  match t with
  | [] => []
  | c :: t' => if 0 <? used then let '(l, u) := clear_chain c used in l ++ clear_loop t' u else []
  end.

Definition dictClear (ht : dict K V) : dict K V * list (dcall K V) :=
  (dictReset, clear_loop (take (Z.to_nat (size ht)) (table ht)) (used ht)).

Definition dictRelease (ht : dict K V) : list (dcall K V) := snd (dictClear ht).

Definition dictGetIterator : option (dictIterator K V) :=
  if malloc_ok 32 then Some (mk_iter (-1) [] []) else None.

(** One call of [dictNext]; its loop passes each bucket at most once. *)
Fixpoint next_loop (fuel : nat) (ht : dict K V) (it : dictIterator K V)
    : option (option (K * V) * dictIterator K V) :=
  match fuel with
  | O => None
  | S f =>
      '(it', stop) ←
        (match entry it with
         | [] =>
             let i := i32 (index it + 1) in
             if i32 (size ht) <=? i then Some (mk_iter i [] (nextEntry it), true)
             else c ← rd (table ht) i; Some (mk_iter i c (nextEntry it), false)
         | _ :: _ => Some (mk_iter (index it) (nextEntry it) (nextEntry it), false)
         end);
      if (stop : bool) then Some (None, it')
      else match entry it' with
           | e :: rest => Some (Some e, mk_iter (index it') (e :: rest) rest)
           | [] => next_loop f ht it'
           end
  end.

Definition dictNext (ht : dict K V) (it : dictIterator K V) : option (option (K * V) * dictIterator K V) :=
  next_loop (S (S (Z.to_nat (size ht)))) ht it.

(** ** Refinement of finite maps *)

Context {HC : Countable K} {L : DictLaws T}.

(** Every entry is in the bucket of its key. *)
Definition placed (mask : Z) (t : list (list (K * V))) : Prop :=
  forall i c, t !! i = Some c -> Forall (fun e => bucket mask (fst e) = Z.of_nat i) c.

Definition pow2_size (n : Z) : Prop := exists p, 2 <= p <= 31 /\ n = 2 ^ p.

(** A table of [n] buckets with these entries. *)
Record table_ok (n : Z) (t : list (list (K * V))) : Prop := {
  table_pow2 : pow2_size n;
  table_len : zlen t = n;
  table_placed : placed (n - 1) t;
}.

(** The invariant of a dictionary: never expanded, or a table of a power of two buckets. *)
Record wf (ht : dict K V) : Prop := {
  wf_table : (size ht = 0 /\ table ht = []) \/
             (table_ok (size ht) (table ht) /\ sizemask ht = size ht - 1);
  wf_used : used ht = zlen (concat (table ht));
  wf_full : used ht <= size ht;
  wf_keys : NoDup (concat (table ht)).*1;
}.

(** The finite map a dictionary stands for. *)
Definition contents (ht : dict K V) : gmap K V := list_to_map (concat (table ht)).

Lemma compare_spec a b : dictCompareHashKeys a b = bool_decide (a = b).
Proof.
  unfold dictCompareHashKeys. destruct keyCompare eqn:E; [|done]. by eapply compare_eq.
Qed.

Lemma set_key_spec k : dictSetHashKey k = k.
Proof. unfold dictSetHashKey. destruct keyDup eqn:E; [|done]. by eapply dup_key_id. Qed.

Lemma bucket_range n k : pow2_size n -> 0 <= bucket (n - 1) k < n.
Proof.
  intros (p & Hp & ->). unfold bucket. pose proof (hash_range k) as Hk.
  replace (2 ^ p - 1) with (Z.ones p) by (rewrite Z.ones_equiv; lia).
  rewrite Z.land_ones by lia. assert (0 <= hashFunction k mod 2 ^ p < 2 ^ p) by (apply Z.mod_pos_bound; lia).
  pose proof (Z.pow_le_mono_r 2 p 31). rewrite uwrap_small; lia.
Qed.

Lemma table_rd n t k : table_ok n t -> exists c, rd t (bucket (n - 1) k) = Some c.
Proof.
  intros [Hp Hl _]. pose proof (bucket_range n k Hp). apply rd_is_Some. lia.
Qed.

(** Replacing the chain of a bucket by another whose entries belong there. *)
Lemma placed_wr mask t1 c t2 c' : placed mask (t1 ++ c :: t2) ->
  Forall (fun e => bucket mask (fst e) = zlen t1) c' -> placed mask (t1 ++ c' :: t2).
Proof.
  intros Hp Hc i c0 Hi. destruct (decide (i = length t1)) as [->|Hne].
  - rewrite list_lookup_middle in Hi by done. by injection Hi as <-.
  - apply (Hp i). destruct (decide (i < length t1)%nat).
    + by rewrite lookup_app_l in * by lia.
    + rewrite lookup_app_r in * by lia. by replace (i - length t1)%nat with (S (i - length t1 - 1)) in * by lia.
Qed.

Lemma placed_chain mask t1 c t2 : placed mask (t1 ++ c :: t2) ->
  Forall (fun e => bucket mask (fst e) = zlen t1) c.
Proof. intros Hp. apply (Hp (length t1)). by rewrite list_lookup_middle. Qed.

(** The table cut at the bucket of a key. *)
Lemma table_cut n t k : table_ok n t ->
  exists t1 c t2, t = t1 ++ c :: t2 /\ zlen t1 = bucket (n - 1) k /\
    rd t (bucket (n - 1) k) = Some c /\
    forall c', wr t (bucket (n - 1) k) c' = Some (t1 ++ c' :: t2) /\
      (Forall (fun e => bucket (n - 1) (fst e) = bucket (n - 1) k) c' -> table_ok n (t1 ++ c' :: t2)).
Proof.
  intros Ht. destruct (table_rd n t k Ht) as [c Hc]. destruct (rd_split _ _ _ Hc) as (t1 & t2 & -> & Hl & Hw).
  exists t1, c, t2. split_and!; try done. intros c'. split; [done|]. intros HF.
  destruct Ht as [? ? ?]. split; [done | zl |]. eapply placed_wr; [done|]. by rewrite Hl.
Qed.

(** *** Expansion *)

Lemma next_power_loop_spec p sz f : 2 <= p -> 2 ^ p < 2 * Z.max 4 sz -> sz <= 2 ^ 63 ->
  64 < p + Z.of_nat f ->
  exists q, next_power_loop f (2 ^ p) sz = Some (2 ^ q) /\ p <= q /\ sz <= 2 ^ q < 2 * Z.max 4 sz.
Proof.
  revert p. induction f as [|f IH]; intros p Hp Hlt Hsz Hf.
  { pose proof (Z.pow_le_mono_r 2 65 p). lia. }
  cbn [next_power_loop]. destruct (Z.leb_spec sz (2 ^ p)); [by exists p; split_and!|].
  assert (p < 63) by (apply (Z.pow_lt_mono_r_iff 2); lia).
  assert (2 ^ p * 2 = 2 ^ (p + 1)) as E by (rewrite Z.pow_add_r by lia; lia).
  pose proof (Z.pow_le_mono_r 2 (p + 1) 63).
  rewrite E, uwrap_small by lia. destruct (IH (p + 1)) as (q & ? & ? & ?); try lia.
  exists q. split_and!; try done; lia.
Qed.

(** [_dictNextPower] terminates and returns the least power of two that is at least
    the size asked for and the initial size. *)
Lemma dictNextPower_least sz : 0 <= sz < LONG_MAX ->
  exists q, dictNextPower sz = Some (2 ^ q) /\ 2 <= q /\ sz <= 2 ^ q < 2 * Z.max 4 sz.
Proof.
  unfold LONG_MAX. intros. unfold dictNextPower, LONG_MAX, DICT_HT_INITIAL_SIZE.
  destruct (Z.leb_spec (2 ^ 63 - 1) sz); [lia|].
  apply (next_power_loop_spec 2 sz 64); lia.
Qed.

Lemma move_entry_spec n t e : table_ok n t ->
  exists t', move_entry (n - 1) t e = Some t' /\ table_ok n t' /\ concat t' ≡ₚ e :: concat t.
Proof.
  intros Ht. destruct (table_cut n t (fst e) Ht) as (t1 & c & t2 & -> & Hl & Hrd & Hwr).
  destruct (Hwr (e :: c)) as [Hw Hok]. unfold move_entry. rewrite Hrd. cbn [mbind option_bind].
  rewrite Hw. eexists. split; [done|]. split.
  - apply Hok. constructor; [done|]. rewrite <- Hl. eapply placed_chain, Ht.
  - rewrite !concat_app. simpl. by rewrite <- Permutation_middle.
Qed.

Lemma move_chain_spec n c : forall t u, table_ok n t -> zlen c <= u < 2 ^ 64 ->
  exists t', move_chain (n - 1) c t u = Some (t', u - zlen c) /\ table_ok n t' /\
    concat t' ≡ₚ c ++ concat t.
Proof.
  induction c as [|e c IH]; intros t u Ht Hu.
  { exists t. simpl. rewrite zlen_nil, Z.sub_0_r. done. }
  destruct (move_entry_spec n t e Ht) as (t1 & E & Ht1 & Hp1). cbn [move_chain].
  rewrite E. cbn [mbind option_bind]. rewrite uwrap_small by zl.
  destruct (IH t1 (u - 1) Ht1) as (t' & E' & Ht' & Hp'); [zl|].
  exists t'. rewrite E'. split; [do 2 f_equal; zl|]. split; [done|].
  rewrite Hp', Hp1. simpl. by rewrite Permutation_middle.
Qed.

Lemma expand_loop_spec n old : forall t u, table_ok n t -> u = zlen (concat old) -> u < 2 ^ 64 ->
  exists t', expand_loop old (n - 1) t u = Some (t', 0) /\ table_ok n t' /\
    concat t' ≡ₚ concat old ++ concat t.
Proof.
  induction old as [|c old IH]; intros t u Ht Hu Hm; [by subst; exists t|].
  cbn [expand_loop concat] in *. destruct (Z.ltb_spec 0 u).
  - destruct (move_chain_spec n c t u Ht) as (t1 & -> & Ht1 & Hp1); [zl|]. cbn [mbind option_bind].
    destruct (IH t1 (u - zlen c) Ht1) as (t' & -> & Ht' & Hp'); [zl | zl |].
    exists t'. split_and!; try done. rewrite Hp', Hp1, !app_assoc. f_equiv. apply Permutation_app_comm.
  - assert (zlen (c ++ concat old) = 0) as Hz by zl.
    destruct (c ++ concat old) eqn:E; [|zl]. exists t. split; [by subst|]. done.
Qed.

Lemma concat_replicate_nil k : concat (replicate k (@nil (K * V))) = [].
Proof. induction k; simpl; auto. Qed.

Lemma table_ok_empty q : 2 <= q <= 31 -> table_ok (2 ^ q) (replicate (Z.to_nat (2 ^ q)) []).
Proof.
  intros. split; [by exists q | zl |].
  intros i c [-> _]%lookup_replicate. constructor.
Qed.

(** Expansion keeps the entries: the new table holds a permutation of the old one's. *)
Lemma dictExpand_spec ht sz : wf ht -> used ht <= sz <= 2 ^ 31 -> 0 < sz ->
  (forall x, malloc_ok x = true) ->
  exists ht', dictExpand ht sz = Some (ht', DICT_OK) /\ wf ht' /\ contents ht' = contents ht /\
    used ht' = used ht /\ sz <= size ht' < 2 * Z.max 4 sz /\ table_ok (size ht') (table ht').
Proof.
  intros [Htab Hused Hfull Hkeys] Hsz Hpos Hm. unfold dictExpand.
  destruct (dictNextPower_least sz) as (q & -> & Hq & Hsz'); [unfold LONG_MAX; lia|].
  cbn [mbind option_bind]. rewrite (proj2 (Z.ltb_ge sz (used ht))) by lia. rewrite Hm. cbn [negb].
  assert (q <= 31) as Hq31.
  { assert (q < 32); [|lia]. apply (Z.pow_lt_mono_r_iff 2); lia. }
  assert (take (Z.to_nat (size ht)) (table ht) = table ht) as ->.
  { destruct Htab as [[-> ->]|[[_ Hl _] _]]; [done|]. rewrite <- Hl. apply take_ge. unfold zlen. lia. }
  rewrite uwrap_small by (pose proof (Z.pow_le_mono_r 2 q 31); lia).
  destruct (expand_loop_spec (2 ^ q) (table ht) _ (used ht) (table_ok_empty q (conj Hq Hq31)) Hused)
    as (t' & -> & Ht' & Hp); [lia|].
  cbn [mbind option_bind]. rewrite Z.eqb_refl, concat_replicate_nil, app_nil_r in *.
  eexists. split; [done|]. cbn [size table used]. split; [|split; [|done]].
  - split; cbn [size sizemask used table]; [by right | | lia | by rewrite Hp].
    unfold zlen in *. by rewrite Hp.
  - unfold contents. cbn [table]. symmetry. apply list_to_map_proper; [done|]. by symmetry.
Qed.

Lemma dictExpandIfNeeded_spec ht : wf ht -> used ht < 2 ^ 30 -> (forall x, malloc_ok x = true) ->
  exists ht', dictExpandIfNeeded ht = Some (ht', DICT_OK) /\ wf ht' /\ contents ht' = contents ht /\
    used ht' = used ht /\ used ht' < size ht' /\ table_ok (size ht') (table ht') /\
    sizemask ht' = size ht' - 1.
Proof.
  intros Hwf Hu Hm. unfold dictExpandIfNeeded. pose proof Hwf as [Htab Hused Hfull Hkeys].
  assert (0 <= used ht) by zl.
  assert (forall h, wf h -> 0 < size h -> sizemask h = size h - 1) as Hmask
    by (intros h [[[? _]|[_ ?]] _ _ _] ?; [lia | done]).
  destruct (Z.eqb_spec (size ht) 0) as [E0|E0]; [|destruct (Z.eqb_spec (used ht) (size ht)) as [E1|E1]].
  - destruct (dictExpand_spec ht DICT_HT_INITIAL_SIZE Hwf) as (h & ? & ? & ? & ? & ? & ?);
      [unfold DICT_HT_INITIAL_SIZE; lia | done | done |].
    unfold DICT_HT_INITIAL_SIZE in *. exists h. split_and!; try done; [lia | apply Hmask; [done|lia]].
  - rewrite uwrap_small by lia.
    destruct (dictExpand_spec ht (size ht * 2) Hwf) as (h & ? & ? & ? & ? & ? & ?); [lia | lia | done |].
    exists h. split_and!; try done; [lia | apply Hmask; [done|lia]].
  - exists ht. destruct Htab as [[? _]|[? ?]]; [done|]. split_and!; try done. lia.
Qed.

(** *** Lookup *)

Lemma find_chain_spec k c :
  match find_chain k c with Some e => e ∈ c /\ fst e = k | None => k ∉ c.*1 end.
Proof.
  induction c as [|e c IH]; simpl; [apply not_elem_of_nil|]. rewrite compare_spec.
  destruct (bool_decide_reflect (k = fst e)) as [->|Hne]; [split; [by left | done]|].
  destruct (find_chain k c); [destruct IH; split; [by right | done]|].
  apply not_elem_of_cons. done.
Qed.

(** An entry of the table is in the chain of its bucket. *)
Lemma in_bucket n t1 c t2 e : table_ok n (t1 ++ c :: t2) -> bucket (n - 1) (fst e) = zlen t1 ->
  e ∈ concat (t1 ++ c :: t2) -> e ∈ c.
Proof.
  intros [_ _ Hp] Hb Hin. apply list_elem_of_In, in_concat in Hin as (c0 & Hc0 & Hin).
  apply list_elem_of_In, list_elem_of_lookup in Hc0 as [i Hi]. apply list_elem_of_In in Hin.
  pose proof (Hp i c0 Hi) as HF. rewrite Forall_forall in HF. specialize (HF e Hin). simpl in HF.
  assert (i = length t1) as -> by (unfold zlen in Hb; lia).
  rewrite list_lookup_middle in Hi by done. by injection Hi as ->.
Qed.

Lemma find_contents ht t1 c t2 k : wf ht -> table_ok (size ht) (table ht) ->
  table ht = t1 ++ c :: t2 -> zlen t1 = bucket (size ht - 1) k ->
  find_chain k c = pair k <$> contents ht !! k.
Proof.
  intros [_ _ _ Hk] Hok Ht Hb. pose proof (find_chain_spec k c) as Hf. unfold contents.
  destruct (find_chain k c) as [[k' v]|].
  - destruct Hf as [Hin Hk']. simpl in Hk'. subst k'. rewrite (proj1 (elem_of_list_to_map _ k v Hk)); [done|].
    rewrite Ht, concat_app. simpl. set_solver.
  - destruct (list_to_map (concat (table ht)) !! k) as [v|] eqn:E; [|done]. exfalso. apply Hf.
    apply elem_of_list_to_map in E; [|done]. rewrite Ht in E, Hok. apply (in_bucket (size ht)) in E; [|done..].
    apply list_elem_of_fmap. by exists (k, v).
Qed.

(** A dictionary with buckets, cut at the bucket of a key. *)
Lemma wf_cut ht k : wf ht -> table_ok (size ht) (table ht) -> sizemask ht = size ht - 1 ->
  exists t1 c t2, table ht = t1 ++ c :: t2 /\ zlen t1 = bucket (sizemask ht) k /\
    rd (table ht) (bucket (sizemask ht) k) = Some c /\ find_chain k c = pair k <$> contents ht !! k /\
    forall c', wr (table ht) (bucket (sizemask ht) k) c' = Some (t1 ++ c' :: t2) /\
      (Forall (fun e => bucket (size ht - 1) (fst e) = bucket (size ht - 1) k) c' ->
       table_ok (size ht) (t1 ++ c' :: t2)).
Proof.
  intros Hwf Hok ->. destruct (table_cut _ _ k Hok) as (t1 & c & t2 & Ht & Hl & Hrd & Hwr).
  exists t1, c, t2. split_and!; try done. by eapply find_contents.
Qed.

Lemma wf_cases ht : wf ht ->
  (size ht = 0 /\ contents ht = ∅ /\ table ht = []) \/
  (size ht <> 0 /\ table_ok (size ht) (table ht) /\ sizemask ht = size ht - 1).
Proof.
  intros [[[? Ht]|[Ht ?]] _ _ _]; [left|right].
  - unfold contents. by rewrite Ht.
  - split; [|done]. destruct Ht as [(p & ? & ->) _ _]. lia.
Qed.

(** [dictFind] returns the entry of the finite map the dictionary stands for,
    and NULL exactly for the keys it does not bind. *)
Lemma dictFind_refines (ht : dict K V) (k : K) (Hwf : wf ht) :
  dictFind ht k = Some (pair k <$> contents ht !! k).
Proof.
  unfold dictFind. destruct (wf_cases ht Hwf) as [(-> & -> & _)|(Hs & Hok & Hm)].
  - by rewrite lookup_empty.
  - rewrite (proj2 (Z.eqb_neq _ _)) by done.
    destruct (wf_cut ht k Hwf Hok Hm) as (t1 & c & t2 & _ & _ & -> & Hf & _).
    cbn [mbind option_bind]. by rewrite Hf.
Qed.

(** *** Insertion *)

Lemma dictKeyIndex_spec ht k : wf ht -> used ht < 2 ^ 30 -> (forall x, malloc_ok x = true) ->
  exists ht', wf ht' /\ contents ht' = contents ht /\ used ht' = used ht /\ used ht' < size ht' /\
    table_ok (size ht') (table ht') /\ sizemask ht' = size ht' - 1 /\
    dictKeyIndex ht k = Some (ht', match contents ht !! k with
                                    | Some _ => -1 | None => bucket (sizemask ht') k end).
Proof.
  intros Hwf Hu Hm. destruct (dictExpandIfNeeded_spec ht Hwf Hu Hm) as (h & E & Hw & Hc & ? & ? & Hok & Hmask).
  exists h. split_and!; try done. unfold dictKeyIndex. rewrite E. cbn [mbind option_bind].
  rewrite (proj2 (Z.eqb_neq DICT_OK DICT_ERR)) by done.
  destruct (wf_cut h k Hw Hok Hmask) as (t1 & c & t2 & _ & _ & -> & Hf & _). cbn [mbind option_bind].
  rewrite Hf, Hc. destruct (contents ht !! k); [done|]. simpl. do 2 f_equal.
  pose proof (table_pow2 _ _ Hok) as Hp. pose proof (bucket_range (size h) k Hp) as Hb.
  destruct Hp as (p & Hp & E2). pose proof (Z.pow_le_mono_r 2 p 31).
  rewrite Hmask. apply i32_small. unfold INT_MIN, INT_MAX. lia.
Qed.

Lemma contents_perm ht l : wf ht -> l ≡ₚ concat (table ht) -> contents ht = list_to_map l.
Proof. intros Hwf Hp. unfold contents. symmetry. apply list_to_map_proper; [|done]. rewrite Hp. apply Hwf. Qed.

(** A new entry at the head of its chain. *)
Lemma add_entry ht k v t1 c t2 : wf ht -> table_ok (size ht) (table ht) -> sizemask ht = size ht - 1 ->
  used ht < size ht -> contents ht !! k = None -> table ht = t1 ++ c :: t2 ->
  table_ok (size ht) (t1 ++ ((k, v) :: c) :: t2) ->
  let ht' := mk_dict (t1 ++ ((k, v) :: c) :: t2) (size ht) (sizemask ht) (u64 (used ht + 1)) in
  wf ht' /\ contents ht' = <[k := v]> (contents ht).
Proof.
  intros Hwf Hok Hm Hu Hn Ht Hok' ht'. pose proof Hwf as [_ Hused Hfull Hk].
  assert (concat (t1 ++ ((k, v) :: c) :: t2) ≡ₚ (k, v) :: concat (table ht)) as Hp.
  { rewrite Ht, !concat_app. simpl. by rewrite <- Permutation_middle. }
  assert (k ∉ (concat (table ht)).*1) as Hnk by (by apply not_elem_of_list_to_map).
  destruct (table_pow2 _ _ Hok) as (p & ? & E). pose proof (Z.pow_le_mono_r 2 p 31). assert (0 <= used ht) by zl.
  assert (wf ht') as Hwf'.
  { split; cbn [ht' size used table sizemask]; [by right | | |].
    - rewrite uwrap_small, Hused by lia. unfold zlen. rewrite Hp. simpl. lia.
    - rewrite uwrap_small; lia.
    - rewrite Hp. simpl. by apply NoDup_cons. }
  split; [done|]. rewrite (contents_perm ht' ((k, v) :: concat (table ht))); [done | done |].
  by symmetry.
Qed.

(** [dictAdd] binds a key that is not in the map and reports an existing one
    without changing the map; the table stays well formed, also when it is expanded. *)
Lemma dictAdd_refines (ht : dict K V) (k : K) (v : V)
    (Hwf : wf ht) (Hused : used ht < 2 ^ 30) (Hmem : forall x, malloc_ok x = true) :
  exists ht' r, dictAdd ht k v = Some (ht', r) /\ wf ht' /\
    match contents ht !! k with
    | Some _ => r = DICT_ERR /\ contents ht' = contents ht /\ used ht' = used ht
    | None => r = DICT_OK /\ contents ht' = <[k := dictSetHashVal v]> (contents ht) /\
              used ht' = used ht + 1
    end.
Proof.
  destruct (dictKeyIndex_spec ht k Hwf Hused Hmem) as (h & Hw & Hc & Hu & Hlt & Hok & Hm & E).
  unfold dictAdd. rewrite E. cbn [mbind option_bind]. destruct (contents ht !! k) eqn:Ek.
  - rewrite Z.eqb_refl. exists h, DICT_ERR. done.
  - destruct (wf_cut h k Hw Hok Hm) as (t1 & c & t2 & Ht & Hl & Hrd & _ & Hwr).
    pose proof (bucket_range (size h) k (table_pow2 _ _ Hok)) as Hb. rewrite <- Hm in Hb.
    rewrite (proj2 (Z.eqb_neq _ _)) by lia. rewrite Hmem, Hrd. cbn [negb mbind option_bind].
    destruct (Hwr ((dictSetHashKey k, dictSetHashVal v) :: c)) as [-> Hok']. cbn [mbind option_bind].
    rewrite set_key_spec in *.
    destruct (add_entry h k (dictSetHashVal v) t1 c t2) as [Hw' Hc']; try done; [by rewrite Hc | |].
    { apply Hok'. constructor; [done|]. rewrite <- Hm, <- Hl. rewrite Hm in *. eapply placed_chain. rewrite <- Ht. apply Hok. }
    eexists _, _. split; [reflexivity|]. split; [done|]. rewrite Hc', Hc. split_and!; try done.
    cbn [used]. rewrite uwrap_small; [lia|]. destruct Hw as [_ Hx _ _]. zl.
Qed.

(** Adding at most doubles a full table. *)
Lemma expand_size ht : wf ht -> used ht < 2 ^ 30 -> (forall x, malloc_ok x = true) -> forall h r,
  dictExpandIfNeeded ht = Some (h, r) -> size h <= Z.max (size ht) (Z.max 8 (4 * used ht)).
Proof.
  intros Hwf Hu Hm h r. unfold dictExpandIfNeeded. assert (0 <= used ht) by (rewrite (wf_used _ Hwf); apply zlen_nonneg).
  destruct (Z.eqb_spec (size ht) 0) as [E0|E0]; [|destruct (Z.eqb_spec (used ht) (size ht)) as [E1|E1]].
  - destruct (dictExpand_spec ht DICT_HT_INITIAL_SIZE Hwf) as (h' & -> & _ & _ & _ & Hs & _);
      [pose proof (wf_full _ Hwf); unfold DICT_HT_INITIAL_SIZE; lia | done | done |].
    intros [= <- _]. unfold DICT_HT_INITIAL_SIZE in Hs. lia.
  - rewrite uwrap_small by lia.
    destruct (dictExpand_spec ht (size ht * 2) Hwf) as (h' & -> & _ & _ & _ & Hs & _); [lia | lia | done |]. intros [= <- _]. lia.
  - intros [= <- _]. lia.
Qed.

Lemma dictAdd_size ht k v ht' r : wf ht -> used ht < 2 ^ 30 -> (forall x, malloc_ok x = true) ->
  dictAdd ht k v = Some (ht', r) -> size ht' <= Z.max (size ht) (Z.max 8 (4 * used ht)).
Proof.
  intros Hwf Hu Hm E. unfold dictAdd, dictKeyIndex in E.
  destruct (dictExpandIfNeeded ht) as [[h x]|] eqn:Ex; [|done]. pose proof (expand_size ht Hwf Hu Hm h x Ex) as Hs.
  cbn [mbind option_bind] in E. apply bind_Some in E as ([h' i] & E1 & E).
  assert (h' = h) as ->.
  { destruct (x =? DICT_ERR); [by injection E1 as -> _|]. apply bind_Some in E1 as (c & _ & E1). destruct (find_chain k c); by injection E1 as -> _. }
  destruct (i =? -1); [injection E as <- _; done|]. destruct (negb (malloc_ok 24)); [done|].
  apply bind_Some in E as (c & _ & E). apply bind_Some in E as (t & _ & E). injection E as <- _. done.
Qed.

(** *** Update and deletion *)

Lemma set_chain_spec k v c : NoDup c.*1 ->
  (set_chain k v c).*1 = c.*1 /\
  forall e, e ∈ set_chain k v c <-> (fst e = k /\ k ∈ c.*1 /\ snd e = v) \/ (e ∈ c /\ fst e <> k).
Proof.
  induction c as [|[k0 v0] c IH]; simpl; [intros _; set_solver|]. rewrite NoDup_cons. intros [Hn Hnd].
  rewrite compare_spec. cbn [fst]. destruct (bool_decide_reflect (k = k0)) as [->|Hne]; simpl.
  - split; [done|]. intros [k1 v1]. rewrite !elem_of_cons. simpl. split.
    + intros [[= -> ->]|Hin]; [left; set_solver|]. right. split; [by right|]. intros ->.
      apply Hn, list_elem_of_fmap. by exists (k0, v1).
    + intros [(-> & _ & ->)|[[[= -> ->]|Hin] Hne]]; [by left | done | by right].
  - destruct (IH Hnd) as [E Hin]. split; [f_equal; exact E|]. intros [k1 v1]. rewrite !elem_of_cons, Hin.
    simpl. split; [|naive_solver]. intros [[= -> ->]|[?|?]]; naive_solver.
Qed.

Lemma unlink_spec k c : NoDup c.*1 ->
  match unlink k c with
  | Some (c', d) => c ≡ₚ d :: c' /\ fst d = k
  | None => k ∉ c.*1
  end.
Proof.
  induction c as [|e c IH]; simpl; [intros; apply not_elem_of_nil|]. rewrite NoDup_cons. intros [Hn Hnd].
  rewrite compare_spec. destruct (bool_decide_reflect (k = fst e)) as [->|Hne]; [done|].
  specialize (IH Hnd). destruct (unlink k c) as [[c' d]|]; cbn [mbind option_bind].
  - destruct IH as [Hp ?]. split; [|done]. rewrite Hp. constructor.
  - by apply not_elem_of_cons.
Qed.

Lemma chain_nodup (t1 t2 : list (list (K * V))) c : NoDup (concat (t1 ++ c :: t2)).*1 -> NoDup c.*1.
Proof.
  rewrite concat_app, fmap_app. simpl. rewrite fmap_app. rewrite !NoDup_app. tauto.
Qed.

(** Overwriting the value of a bound key. *)
Lemma update_entry ht k v t1 c t2 : wf ht -> table_ok (size ht) (table ht) -> sizemask ht = size ht - 1 ->
  is_Some (contents ht !! k) -> table ht = t1 ++ c :: t2 -> zlen t1 = bucket (size ht - 1) k ->
  let ht' := mk_dict (t1 ++ set_chain k v c :: t2) (size ht) (sizemask ht) (used ht) in
  wf ht' /\ contents ht' = <[k := v]> (contents ht).
Proof.
  intros Hwf Hok Hm [w Hw] Ht Hb ht'. pose proof Hwf as [_ Hused Hfull Hk].
  rewrite Ht in Hk, Hused, Hok. pose proof (chain_nodup _ _ _ Hk) as Hnd.
  destruct (set_chain_spec k v c Hnd) as [Hkeys Hel].
  assert ((concat (t1 ++ set_chain k v c :: t2)).*1 = (concat (t1 ++ c :: t2)).*1) as Ekeys
    by (by rewrite !concat_app; cbn [concat]; rewrite !fmap_app, Hkeys).
  assert (length (concat (t1 ++ set_chain k v c :: t2)) = length (concat (t1 ++ c :: t2))) as Elen
    by (by rewrite <- !(length_fmap fst), Ekeys).
  assert (wf ht') as Hwf'.
  { split; cbn [ht' size used table sizemask]; [|by unfold zlen in *; rewrite Elen|done|by rewrite Ekeys].
    right. split; [|done]. destruct Hok as [Hp Hl Hpl]. split; [done | zl |].
    eapply placed_wr; [done|]. apply Forall_forall. intros e [(-> & _ & _)|[He _]]%Hel; [done|].
    pose proof (placed_chain _ _ _ _ Hpl) as HF. rewrite Forall_forall in HF. by apply HF. }
  split; [done|]. apply map_eq. intros k'. apply option_eq. intros v'. unfold contents. cbn [ht' table].
  rewrite <- elem_of_list_to_map by (by rewrite Ekeys). rewrite concat_app. simpl.
  assert (k ∈ c.*1) as Hkc.
  { apply list_elem_of_fmap. exists (k, w). split; [done|]. unfold contents in Hw. rewrite Ht in Hw.
    apply elem_of_list_to_map in Hw; [|done]. by eapply in_bucket. }
  rewrite !elem_of_app, Hel. simpl. destruct (decide (k' = k)) as [->|Hne].
  - rewrite lookup_insert_eq. split; [|intros [= ->]; naive_solver].
    rewrite concat_app in Hk. simpl in Hk. rewrite !fmap_app, !NoDup_app in Hk.
    intros [H|[H|H]]; [|naive_solver|]; exfalso; apply (list_elem_of_fmap_2 fst) in H; naive_solver set_solver.
  - rewrite lookup_insert_ne by done. unfold contents. rewrite Ht.
    rewrite <- elem_of_list_to_map by done. rewrite concat_app. simpl. rewrite !elem_of_app. naive_solver.
Qed.

(** [dictReplace] binds the key to the new value in either case, returns 1 when the key
    was new and 0 when it was not, and in the second case gives exactly the old value to the
    value destructor. *)
Lemma dictReplace_refines (ht : dict K V) (k : K) (v : V)
    (Hwf : wf ht) (Hused : used ht < 2 ^ 30) (Hmem : forall x, malloc_ok x = true) :
  exists ht', wf ht' /\ contents ht' = <[k := dictSetHashVal v]> (contents ht) /\
    dictReplace ht k v = Some (ht', if decide (is_Some (contents ht !! k)) then 0 else 1,
      match contents ht !! k with Some w => dictFreeEntryVal (k, w) | None => [] end).
Proof.
  destruct (dictKeyIndex_spec ht k Hwf Hused Hmem) as (h & Hw & Hc & Hu & Hlt & Hok & Hm & E).
  destruct (wf_cut h k Hw Hok Hm) as (t1 & c & t2 & Ht & Hl & Hrd & Hf & Hwr).
  unfold dictReplace, dictAdd. rewrite E. cbn [mbind option_bind]. destruct (contents ht !! k) as [w|] eqn:Ek.
  - rewrite Z.eqb_refl. cbn [mbind option_bind]. rewrite (proj2 (Z.eqb_neq DICT_ERR DICT_OK)) by done.
    unfold dictFind. rewrite (proj2 (Z.eqb_neq (size h) 0)) by (destruct Hw as [_ Hx _ _]; zl).
    rewrite Hrd. cbn [mbind option_bind mjoin option_join]. rewrite Hf, Hc, Ek.
    cbn [fmap option_fmap option_map mjoin option_join mbind option_bind].
    destruct (Hwr (set_chain k (dictSetHashVal v) c)) as [-> _]. cbn [mbind option_bind].
    destruct (update_entry h k (dictSetHashVal v) t1 c t2) as [Hw' Hc']; try done.
    { rewrite Hc, Ek. by eexists. }
    { by rewrite Hl, Hm. }
    eexists. split; [exact Hw'|]. split; [by rewrite Hc', Hc|]. done.
  - pose proof (bucket_range (size h) k (table_pow2 _ _ Hok)) as Hb. rewrite <- Hm in Hb.
    rewrite (proj2 (Z.eqb_neq _ _)) by lia. rewrite Hmem, Hrd. cbn [negb mbind option_bind].
    destruct (Hwr ((dictSetHashKey k, dictSetHashVal v) :: c)) as [-> Hok']. cbn [mbind option_bind].
    rewrite set_key_spec in *. rewrite Z.eqb_refl.
    destruct (add_entry h k (dictSetHashVal v) t1 c t2) as [Hw' Hc']; try done; [by rewrite Hc | |].
    { apply Hok'. constructor; [done|]. rewrite <- Hm, <- Hl. rewrite Hm in *. eapply placed_chain. rewrite <- Ht. apply Hok. }
    eexists. split; [exact Hw'|]. split; [by rewrite Hc', Hc|]. done.
Qed.

(** Removing an entry from its chain. *)
Lemma remove_entry ht k d t1 c c' t2 : wf ht -> table_ok (size ht) (table ht) -> sizemask ht = size ht - 1 ->
  table ht = t1 ++ c :: t2 -> c ≡ₚ d :: c' -> fst d = k ->
  let ht' := mk_dict (t1 ++ c' :: t2) (size ht) (sizemask ht) (u64 (used ht - 1)) in
  wf ht' /\ contents ht' = delete k (contents ht) /\ contents ht !! k = Some (snd d).
Proof.
  intros Hwf Hok Hm Ht Hp Hd ht'. pose proof Hwf as [_ Hused Hfull Hk].
  assert (concat (table ht) ≡ₚ d :: concat (t1 ++ c' :: t2)) as Hperm.
  { rewrite Ht, !concat_app. simpl. rewrite Hp. simpl. by rewrite <- Permutation_middle. }
  assert (used ht = 1 + zlen (concat (t1 ++ c' :: t2))) as Hlen
    by (rewrite Hused; unfold zlen; rewrite Hperm; simpl; lia).
  rewrite Hperm in Hk. simpl in Hk. apply NoDup_cons in Hk as [Hn Hk].
  destruct (table_pow2 _ _ Hok) as (p & ? & E). pose proof (Z.pow_le_mono_r 2 p 31).
  pose proof (zlen_nonneg (concat (t1 ++ c' :: t2))).
  assert (contents ht = <[k := snd d]> (list_to_map (concat (t1 ++ c' :: t2)))) as Hc.
  { rewrite (contents_perm ht (d :: concat (t1 ++ c' :: t2)) Hwf) by done. subst k. by destruct d. }
  split; [|split].
  - split; cbn [ht' size used table sizemask]; [|rewrite uwrap_small; lia|rewrite uwrap_small; lia|done].
    right. split; [|done]. destruct Hok as [Hp2 Hl Hpl]. rewrite Ht in Hl, Hpl. split; [done | zl |].
    eapply placed_wr; [done|]. pose proof (placed_chain _ _ _ _ Hpl) as HF. rewrite Hp in HF.
    by apply Forall_cons in HF as [_ ?].
  - rewrite Hc. rewrite delete_insert_id; [done|]. apply not_elem_of_list_to_map. by rewrite <- Hd.
  - rewrite Hc. by rewrite lookup_insert_eq.
Qed.

(** [dictDelete] unbinds a key that is in the map, destroys its key and its value, and
    reports a key that is not in the map without changing anything. *)
Lemma dictDelete_refines (ht : dict K V) (k : K) (Hwf : wf ht) :
  match contents ht !! k with
  | Some v => exists ht', wf ht' /\ contents ht' = delete k (contents ht) /\
      dictDelete ht k = Some (ht', DICT_OK, dictFreeEntryKey (k, v) ++ dictFreeEntryVal (k, v))
  | None => dictDelete ht k = Some (ht, DICT_ERR, [])
  end.
Proof.
  unfold dictDelete. destruct (wf_cases ht Hwf) as [(-> & -> & _)|(Hs & Hok & Hm)]; [done|].
  rewrite (proj2 (Z.eqb_neq _ _)) by done.
  destruct (wf_cut ht k Hwf Hok Hm) as (t1 & c & t2 & Ht & Hl & -> & Hf & Hwr). cbn [mbind option_bind].
  assert (NoDup c.*1) as Hnd by (pose proof (wf_keys _ Hwf) as Hk; rewrite Ht in Hk; by eapply chain_nodup).
  pose proof (unlink_spec k c Hnd) as Hu. destruct (unlink k c) as [[c' d]|].
  - destruct Hu as [Hp Hd]. destruct (Hwr c') as [-> _]. cbn [mbind option_bind].
    destruct (remove_entry ht k d t1 c c' t2) as (? & ? & Hv); try done. rewrite Hv.
    assert ((k, snd d) = d) as -> by (rewrite <- Hd; by destruct d). eauto.
  - pose proof (find_chain_spec k c) as Hfs. rewrite Hf in Hfs.
    destruct (contents ht !! k); [|done]. simpl in Hfs. destruct Hfs as [Hin _].
    exfalso. apply Hu. by apply (list_elem_of_fmap_2 fst) in Hin.
Qed.

(** *** Iteration *)

(** The entries that calls of [dictNext] return until it returns NULL. *)
Fixpoint iterate (fuel : nat) (ht : dict K V) (it : dictIterator K V) : option (list (K * V)) :=
  match fuel with
  | O => None
  | S f =>
      '(r, it') ← dictNext ht it;
      match r with None => Some [] | Some e => cons e <$> iterate f ht it' end
  end.

(** The entries an iterator has still to return. *)
Definition remaining (ht : dict K V) (it : dictIterator K V) : list (K * V) :=
  match entry it with [] => [] | _ :: _ => nextEntry it end ++ concat (drop (Z.to_nat (index it + 1)) (table ht)).

Lemma next_loop_spec ht f it : wf ht -> size ht < 2 ^ 31 ->
  0 <= index it < size ht \/ (index it = -1 /\ entry it = [] /\ 0 <= size ht) ->
  size ht - index it + (if entry it is _ :: _ then 1 else 0) < Z.of_nat f ->
  exists r it', next_loop f ht it = Some (r, it') /\
    match r with
    | None => remaining ht it = []
    | Some e => remaining ht it = e :: remaining ht it' /\ 0 <= index it' < size ht
    end.
Proof.
  intros Hwf Hsz. revert it. induction f as [|f IH]; intros it Hi Hf; [destruct (entry it); lia|].
  cbn [next_loop].
  assert (remaining ht it = match entry it with [] => [] | _ :: _ => nextEntry it end ++
    concat (drop (Z.to_nat (index it + 1)) (table ht))) as Hrem by done.
  destruct (entry it) as [|e0 rest] eqn:Ee; cbn [mbind option_bind entry].
  - rewrite (i32_small (index it + 1)), (i32_small (size ht)) by (unfold INT_MIN, INT_MAX; lia).
    assert (zlen (table ht) = size ht) as Hlen.
    { destruct (wf_cases ht Hwf) as [(-> & _ & ->)|(_ & [_ ? _] & _)]; done. }
    destruct (Z.leb_spec (size ht) (index it + 1)).
    + eexists _, _. split; [done|]. rewrite Hrem, drop_ge by (unfold zlen in Hlen; lia). done.
    + destruct (rd_is_Some (table ht) (index it + 1)) as [c Hc]; [lia|]. rewrite Hc. cbn [mbind option_bind entry].
      destruct (rd_split _ _ _ Hc) as (t1 & t2 & Ht & Hl & _).
      assert (concat (drop (Z.to_nat (index it + 1)) (table ht)) = c ++ concat t2) as Hcat.
      { rewrite Ht, drop_app_exact by (unfold zlen in Hl; lia). done. }
      assert (drop (Z.to_nat (index it + 1 + 1)) (table ht) = t2) as Hd2.
      { rewrite Ht. replace (t1 ++ c :: t2) with ((t1 ++ [c]) ++ t2) by (by rewrite <- app_assoc).
        apply drop_app_exact. rewrite length_app. simpl. unfold zlen in Hl. lia. }
      rewrite Hcat in Hrem. destruct c as [|e rest].
      * destruct (IH (mk_iter (index it + 1) [] (nextEntry it))) as (r & it' & E & Hr); cbn [index entry]; try lia.
        exists r, it'. split; [done|].
        replace (remaining ht it) with (remaining ht (mk_iter (index it + 1) [] (nextEntry it))); [done|].
        rewrite Hrem. unfold remaining. cbn [entry index nextEntry]. by rewrite Hd2.
      * eexists _, _. split; [done|]. rewrite Hrem.  unfold remaining. cbn [entry index nextEntry]. rewrite Hd2.
        split; [done | lia].
  - destruct Hi as [Hi|(_ & ? & _)]; [|done]. destruct (nextEntry it) as [|e rest'] eqn:En.
    + destruct (IH (mk_iter (index it) [] [])) as (r & it' & E & Hr); cbn [index entry]; try lia.
      exists r, it'. split; [done|].
      by assert (remaining ht it = remaining ht (mk_iter (index it) [] [])) as -> by (by rewrite Hrem).
    + eexists _, _. split; [done|]. rewrite Hrem. unfold remaining. cbn [entry index nextEntry].
      split; [done | naive_solver].
Qed.

Lemma iterate_spec ht f it : wf ht -> size ht < 2 ^ 31 -> 0 <= index it < size ht \/ (index it = -1 /\ entry it = []) ->
  (length (remaining ht it) < f)%nat -> iterate f ht it = Some (remaining ht it).
Proof.
  intros Hwf Hsz. assert (0 <= size ht) by (destruct (wf_cases ht Hwf) as [(? & _)|(_ & [(p & ? & ->) _ _] & _)]; lia).
  revert it. induction f as [|f IH]; intros it Hi Hf; [lia|]. cbn [iterate]. unfold dictNext.
  destruct (next_loop_spec ht (S (S (Z.to_nat (size ht)))) it Hwf Hsz) as (r & it' & -> & Hr);
    [naive_solver | destruct (entry it); naive_solver lia |].
  cbn [mbind option_bind]. destruct r as [e|]; [|by rewrite Hr]. destruct Hr as [Hr ?].
  rewrite Hr in Hf |- *. simpl in Hf. rewrite IH; [done | by left | lia].
Qed.

(** Where an iterator stands. *)
Definition iter_ok (nodes : dict K V) (it : dictIterator K V) : Prop :=
  0 <= index it < size nodes \/ (index it = -1 /\ entry it = []).

Lemma dictNext_spec nodes it : wf nodes -> size nodes < 2 ^ 31 -> iter_ok nodes it ->
  exists r it', dictNext nodes it = Some (r, it') /\
    match r with
    | None => remaining nodes it = []
    | Some e => remaining nodes it = e :: remaining nodes it' /\ iter_ok nodes it'
    end.
Proof.
  intros Hwf Hsz Hi. assert (0 <= size nodes) by (destruct (wf_cases nodes Hwf) as [(? & _)|(_ & [(p & ? & ->) _ _] & _)]; lia).
  unfold dictNext. destruct (next_loop_spec nodes (S (S (Z.to_nat (size nodes)))) it Hwf Hsz) as (r & it' & E & Hr).
  - destruct Hi as [|[? ?]]; [by left | right; split_and!; done].
  - destruct Hi as [|[? He]]; [destruct (entry it); lia | rewrite He; lia].
  - exists r, it'. split; [done|]. destruct r; [|done]. destruct Hr. split; [done | by left].
Qed.

(** Iterating over a dictionary terminates and returns every binding of the
    map exactly once. *)
Theorem dict_iteration (ht : dict K V) (Hwf : wf ht) (Hsize : size ht < 2 ^ 31) :
  exists l, iterate (S (Z.to_nat (used ht))) ht (mk_iter (-1) [] []) = Some l /\
    l ≡ₚ map_to_list (contents ht).
Proof.
  exists (concat (table ht)). rewrite iterate_spec; [| done | done | by right |].
  - split; [done|]. symmetry. apply map_to_list_to_map, Hwf.
  - unfold remaining. simpl. rewrite (wf_used _ Hwf). unfold zlen. change (Z.to_nat (-1 + 1)) with 0%nat. rewrite drop_0. lia.
Qed.

Lemma clear_chain_spec c u : zlen c <= u < 2 ^ 64 ->
  clear_chain c u = (c ≫= (fun e => dictFreeEntryKey e ++ dictFreeEntryVal e), u - zlen c).
Proof.
  revert u. induction c as [|e c IH]; intros u Hu; [by rewrite zlen_nil, Z.sub_0_r|].
  cbn [clear_chain]. rewrite uwrap_small, IH by zl. cbn [mbind list_bind]. rewrite <- app_assoc. f_equal. zl.
Qed.

(** [_dictClear] destroys every binding once and leaves the empty dictionary. *)
Lemma dictClear_spec ht : wf ht -> used ht < 2 ^ 64 ->
  dictClear ht = (dictReset, concat (table ht) ≫= (fun e => dictFreeEntryKey e ++ dictFreeEntryVal e)).
Proof.
  intros Hwf Hu. unfold dictClear. f_equal.
  assert (take (Z.to_nat (size ht)) (table ht) = table ht) as ->.
  { destruct (wf_cases ht Hwf) as [(_ & _ & ->)|(_ & [_ Hl _] & _)]; [by rewrite take_nil|].
    rewrite <- Hl. apply take_ge. unfold zlen. lia. }
  destruct Hwf as [_ Hused _ _]. revert Hu Hused. generalize (used ht). clear.
  induction (table ht) as [|c t IH]; intros u Hu Hused; [done|]. cbn [clear_loop concat] in *.
  destruct (Z.ltb_spec 0 u).
  - rewrite clear_chain_spec by zl. rewrite (IH (u - zlen c)) by zl. by rewrite bind_app.
  - destruct (c ++ concat t) eqn:E; [done | zl].
Qed.

(** *** Sequences of operations *)

Inductive op := Add (k : K) (v : V) | Replace (k : K) (v : V) | Delete (k : K) | Find (k : K).

(** The code of an operation's result and the value found. *)
Definition result : Type := Z * option V.

Definition step (ht : dict K V) (o : op) : option (dict K V * result) :=
  match o with
  | Add k v => '(ht', r) ← dictAdd ht k v; Some (ht', (r, None))
  | Replace k v => '(ht', r, _) ← dictReplace ht k v; Some (ht', (r, None))
  | Delete k => '(ht', r, _) ← dictDelete ht k; Some (ht', (r, None))
  | Find k => match dictFind ht k with Some e => Some (ht, (0, snd <$> e)) | None => None end
  end.

(** The same operations on a finite map. *)
Definition abs_step (m : gmap K V) (o : op) : gmap K V * result :=
  match o with
  | Add k v => if decide (is_Some (m !! k)) then (m, (DICT_ERR, None))
               else (<[k := dictSetHashVal v]> m, (DICT_OK, None))
  | Replace k v => (<[k := dictSetHashVal v]> m, (if decide (is_Some (m !! k)) then 0 else 1, None))
  | Delete k => (delete k m, (if decide (is_Some (m !! k)) then DICT_OK else DICT_ERR, None))
  | Find k => (m, (0, m !! k))
  end.

Fixpoint run (ht : dict K V) (ops : list op) : option (dict K V * list result) :=
  match ops with
  | [] => Some (ht, [])
  | o :: ops' => '(ht', r) ← step ht o; '(ht'', rs) ← run ht' ops'; Some (ht'', r :: rs)
  end.

Fixpoint abs_run (m : gmap K V) (ops : list op) : gmap K V * list result :=
  match ops with
  | [] => (m, [])
  | o :: ops' => let '(m', r) := abs_step m o in let '(m'', rs) := abs_run m' ops' in (m'', r :: rs)
  end.

Lemma used_size ht : wf ht -> used ht = Z.of_nat (base.size (contents ht)).
Proof.
  intros Hwf. unfold contents. rewrite (wf_used _ Hwf), map_size_list_to_map by apply Hwf. done.
Qed.

Lemma step_refines ht o : wf ht -> used ht < 2 ^ 30 -> (forall x, malloc_ok x = true) ->
  exists ht' r, step ht o = Some (ht', r) /\ wf ht' /\ abs_step (contents ht) o = (contents ht', r) /\
    used ht' <= used ht + 1.
Proof.
  intros Hwf Hu Hm. rewrite (used_size ht Hwf). destruct o as [k v|k v|k|k]; cbn [step abs_step].
  - destruct (dictAdd_refines ht k v Hwf Hu Hm) as (ht' & r & -> & Hwf' & Hr).
    eexists _, _. split; [done|]. split; [done|]. rewrite <- (used_size ht Hwf).
    destruct (contents ht !! k); destruct Hr as (-> & -> & ->); split; done || lia.
  - destruct (dictReplace_refines ht k v Hwf Hu Hm) as (ht' & Hwf' & Hc & ->).
    eexists _, _. split; [done|]. split; [done|]. rewrite Hc, (used_size ht' Hwf'), Hc. split; [done|].
    rewrite map_size_insert. destruct (contents ht !! k); simpl; lia.
  - pose proof (dictDelete_refines ht k Hwf) as Hd. destruct (contents ht !! k) eqn:Ek.
    + destruct Hd as (ht' & Hwf' & Hc & ->). eexists _, _. split; [done|]. split; [done|].
      rewrite Hc, (used_size ht' Hwf'), Hc. split; [done|].
      rewrite map_size_delete, Ek. simpl. lia.
    + rewrite Hd. eexists _, _. split; [done|]. split; [done|]. rewrite delete_id by done.
      rewrite (used_size ht Hwf). split; [done | lia].
  - rewrite dictFind_refines by done. eexists _, _. split; [done|]. split; [done|].
    rewrite (used_size ht Hwf). split; [by destruct (contents ht !! k) | lia].
Qed.

Lemma run_refines ht ops : wf ht -> used ht + zlen ops <= 2 ^ 30 -> (forall x, malloc_ok x = true) ->
  exists ht' rs, run ht ops = Some (ht', rs) /\ wf ht' /\ abs_run (contents ht) ops = (contents ht', rs).
Proof.
  intros Hwf Hu Hm. revert ht Hwf Hu. induction ops as [|o ops IH]; intros ht Hwf Hu.
  { exists ht, []. done. }
  destruct (step_refines ht o Hwf) as (h1 & r & E & Hw1 & Ha & Hu1); [zl | done |].
  destruct (IH h1 Hw1) as (h2 & rs & E2 & Hw2 & Ha2); [zl|].
  exists h2, (r :: rs). cbn [run abs_run]. rewrite E. cbn [mbind option_bind]. rewrite E2.
  cbn [mbind option_bind]. split_and!; try done. by rewrite Ha, Ha2.
Qed.

(** The dictionary that [_dictInit] builds is well formed and empty. *)
Lemma wf_init : wf dictInit.
Proof. split; try done; [by left | constructor]. Qed.

(** C33: every sequence of additions, replacements, deletions and lookups on a new
    dictionary runs without undefined behaviour, keeps the table well formed, returns what
    the same operations return on a finite map, and ends in the same map. *)
Theorem dict_refines_map (ops : list op)
    (Hops : zlen ops <= 2 ^ 30) (Hmem : forall x, malloc_ok x = true) :
  exists ht rs, run dictInit ops = Some (ht, rs) /\ wf ht /\ abs_run ∅ ops = (contents ht, rs).
Proof. by apply (run_refines dictInit ops wf_init). Qed.

End Ops.

(** ** The dictionaries of the library: keys are sds strings *)

(** [dictSdsHash] and [dictSdsKeyCompare] of the clients, without destructors. *)
#[local] Instance sds_dict : dictType bytes Z := {
  hashFunction := dictGenHashFunction;
  keyDup := None; valDup := None;
  keyCompare := Some (fun a b => bool_decide (a = b));
  has_keyDestructor := false; has_valDestructor := false;
}.

Lemma dictGenHashFunction_range buf : 0 <= dictGenHashFunction buf < 2 ^ 32.
Proof.
  unfold dictGenHashFunction. destruct buf as [|b buf _] using rev_ind; [done|].
  rewrite foldl_app. apply uwrap_range. lia.
Qed.

#[local] Instance sds_dict_laws : DictLaws sds_dict.
Proof.
  split.
  - apply dictGenHashFunction_range.
  - intros f [= <-]. done.
  - done.
Qed.

Definition demo_ops : list op :=
  [Add (bstr "a") 1; Add (bstr "b") 2; Add (bstr "a") 3; Replace (bstr "b") 4; Add (bstr "c") 5;
   Add (bstr "d") 6; Add (bstr "e") 7; Delete (bstr "c"); Find (bstr "b"); Find (bstr "c")].

Lemma dict_refines_map_witness :
  exists ht rs, run (fun _ => true) dictInit demo_ops = Some (ht, rs) /\
    rs = [(0, None); (0, None); (1, None); (0, None); (0, None); (0, None); (0, None); (0, None);
          (0, Some 4); (0, None)] /\ size ht = 8.
Proof.
  destruct (dict_refines_map (fun _ => true) demo_ops ltac:(done) ltac:(done)) as (ht & rs & E & _ & _).
  exists ht, rs. split; [exact E|]. vm_compute in E. injection E as <- <-. split; reflexivity.
Defined.

Lemma dict_iteration_witness :
  exists ht rs l, run (fun _ => true) dictInit demo_ops = Some (ht, rs) /\
    iterate (S (Z.to_nat (used ht))) ht (mk_iter (-1) [] []) = Some l /\
    l ≡ₚ map_to_list (contents ht).
Proof.
  destruct (run_refines (fun _ => true) dictInit demo_ops wf_init ltac:(done) ltac:(done))
    as (ht & rs & E & Hwf & _).
  assert (size ht < 2 ^ 31) as Hs.
  { clear Hwf. vm_compute in E. injection E as <- _. reflexivity. }
  destruct (dict_iteration ht Hwf Hs) as (l & El & Hl).
  exists ht, rs, l. split; [exact E|]. split; [exact El | exact Hl].
Defined.

End Dict.
