(* ===== verification/Sds.v ===== *)
(** The dynamic strings of sds.c: the header and the buffer as the allocator returns
    them, every operation of the file, and the proof that on well-formed strings each
    computes the function on byte sequences it documents. *)
From S2P Require Import Prelude.

Open Scope Z_scope.

Module Sds.

(** ** sds.h *)

Definition SDS_MAX_PREALLOC : Z := 1024 * 1024.
Definition SDS_LLSTR_SIZE : Z := 21.

(** [struct sdshdr]: two [int] fields and the bytes behind them. *)
Record sds := mk_sds { len : Z; free : Z; buf : bytes }.

(** The size of the header. *)
Definition hdr : Z := 8.

Definition sdslen (s : sds) : Z := u64 (len s).
Definition sdsavail (s : sds) : Z := u64 (free s).

(** ** Characters *)

Definition isspace (c : Z) : bool := (c =? 32) || ((9 <=? c) && (c <=? 13)).
Definition isprint (c : Z) : bool := (32 <=? c) && (c <=? 126).
Definition tolower (c : Z) : Z := if (65 <=? c) && (c <=? 90) then c + 32 else c.
Definition toupper (c : Z) : Z := if (97 <=? c) && (c <=? 122) then c - 32 else c.

Section Ops.
Context `{Memory}.

(** ** Creation *)

(** [init] is the memory at the source pointer, [None] for NULL. *)
Definition sdsnewlen (init : option bytes) (initlen : Z) : option (option sds) :=
  if negb (malloc_ok (u64 (hdr + initlen + 1))) then Some None
  else
    let mem := match init with
               | Some _ => replicate (Z.to_nat (initlen + 1)) junk
               | None => replicate (Z.to_nat (initlen + 1)) 0
               end in
    mem ← (match init with
           | Some src => if initlen <=? zlen src then wr_bytes mem 0 (take (Z.to_nat initlen) src) else None
           | None => Some mem
           end);
    mem ← wr mem initlen 0;
    Some (Some (mk_sds (i32 initlen) 0 mem)).

Definition sdsempty : option (option sds) := sdsnewlen (Some []) 0.

Definition sdsnew (init : option bytes) : option (option sds) :=
  initlen ← (match init with None => Some 0 | Some b => zlen <$> cstr b end);
  sdsnewlen init initlen.

Definition sdsdup (s : sds) : option (option sds) := sdsnewlen (Some (buf s)) (sdslen s).

(** ** Length and room *)

Definition sdsupdatelen (s : sds) : option sds :=
  l ← cstr (buf s);
  let reallen := i32 (zlen l) in
  Some (mk_sds reallen (i32 (free s + (len s - reallen))) (buf s)).

Definition sdsclear (s : sds) : option sds :=
  b ← wr (buf s) 0 0; Some (mk_sds 0 (i32 (free s + len s)) b).

(** [realloc] to [n] bytes behind the header: the old bytes are kept. *)
Definition realloc_buf (b : bytes) (n : Z) : bytes :=
  take (Z.to_nat n) b ++ replicate (Z.to_nat (n - zlen b)) junk.

Definition sdsMakeRoomFor (s : sds) (addlen : Z) : option (option sds) :=
  if addlen <=? sdsavail s then Some (Some s)
  else
    let newlen := u64 (sdslen s + addlen) in
    let newlen := if newlen <? SDS_MAX_PREALLOC then u64 (newlen * 2)
                  else u64 (newlen + SDS_MAX_PREALLOC) in
    if negb (malloc_ok (u64 (hdr + newlen + 1))) then Some None
    else Some (Some (mk_sds (len s) (i32 (u64 (newlen - sdslen s))) (realloc_buf (buf s) (newlen + 1)))).

(** The result of [realloc] is used without a test. *)
Definition sdsRemoveFreeSpace (s : sds) : option sds :=
  if negb (malloc_ok (u64 (hdr + len s + 1))) then None
  else Some (mk_sds (len s) 0 (realloc_buf (buf s) (len s + 1))).

Definition sdsAllocSize (s : sds) : Z := u64 (hdr + len s + free s + 1).

Definition sdsIncrLen (s : sds) (incr : Z) : option sds :=
  if negb (incr <=? free s) then None
  else
    let l := i32 (len s + incr) in
    let f := i32 (free s - incr) in
    if negb (0 <=? f) then None
    else b ← wr (buf s) l 0; Some (mk_sds l f b).

Definition sdsgrowzero (s : sds) (l : Z) : option (option sds) :=
  let curlen := u64 (len s) in
  if l <=? curlen then Some (Some s)
  else
    let? s := sdsMakeRoomFor s (u64 (l - curlen)) in
    b ← wr_bytes (buf s) curlen (replicate (Z.to_nat (l - curlen + 1)) 0);
    let totlen := u64 (i32 (len s + free s)) in
    Some (Some (mk_sds (i32 l) (i32 (u64 (totlen - u64 (i32 l)))) b)).

(** ** Concatenation and copy *)

(** [t] is the memory at the source; reading past its end is undefined. *)
Definition sdscatlen (s : sds) (t : bytes) (l : Z) : option (option sds) :=
  let curlen := sdslen s in
  let? s := sdsMakeRoomFor s l in
  if zlen t <? l then None
  else
    b ← wr_bytes (buf s) curlen (take (Z.to_nat l) t);
    b ← wr b (u64 (curlen + l)) 0;
    Some (Some (mk_sds (i32 (u64 (curlen + l))) (i32 (u64 (u64 (free s) - l))) b)).

Definition sdscat (s : sds) (t : bytes) : option (option sds) :=
  c ← cstr t; sdscatlen s t (zlen c).

Definition sdscatsds (s t : sds) : option (option sds) := sdscatlen s (buf t) (sdslen t).

Definition sdscpylen (s : sds) (t : bytes) (l : Z) : option (option sds) :=
  let totlen := u64 (i32 (free s + len s)) in
  let? s := (if totlen <? l then sdsMakeRoomFor s (u64 (l - u64 (len s))) else Some (Some s)) in
  let totlen := u64 (i32 (free s + len s)) in
  if zlen t <? l then None
  else
    b ← wr_bytes (buf s) 0 (take (Z.to_nat l) t);
    b ← wr b l 0;
    Some (Some (mk_sds (i32 l) (i32 (u64 (totlen - l))) b)).

Definition sdscpy (s : sds) (t : bytes) : option (option sds) :=
  c ← cstr t; sdscpylen s t (zlen c).

(** ** Numbers *)

(** [do { *p++ = '0'+(v%10); v /= 10; } while(v);] on [unsigned long long]: at most 20
    digits, so 20 rounds are enough. *)
Fixpoint put_digits (fuel : nat) (s : bytes) (p v : Z) : option (bytes * Z) :=
  match fuel with
  | O => None
  | S f =>
      s' ← wr s p (48 + v mod 10);
      if v / 10 =? 0 then Some (s', p + 1) else put_digits f s' (p + 1) (v / 10)
  end.

(** The result is the buffer and the length of the text. *)
Definition sdsll2str (s : bytes) (value : Z) : option (bytes * Z) :=
  let v := if value <? 0 then u64 (- value) else value in
  '(s, p) ← put_digits 20 s 0 v;
  '(s, p) ← (if value <? 0 then s' ← wr s p 45; Some (s', p + 1) else Some (s, p));
  s ← wr s p 0;
  s ← swap_loop (Z.to_nat (p / 2)) 0 (p - 1) s;
  Some (s, p).

Definition sdsull2str (s : bytes) (v : Z) : option (bytes * Z) :=
  '(s, p) ← put_digits 20 s 0 v;
  s ← wr s p 0;
  s ← swap_loop (Z.to_nat (p / 2)) 0 (p - 1) s;
  Some (s, p).

(** The digits stored downwards from [p] in the 32 bytes of [sdsfromlonglong]. *)
Fixpoint put_digits_down (fuel : nat) (b : bytes) (p v : Z) : option (bytes * Z) :=
  match fuel with
  | O => None
  | S f =>
      b' ← wr b p (48 + v mod 10);
      if v / 10 =? 0 then Some (b', p - 1) else put_digits_down f b' (p - 1) (v / 10)
  end.

Definition sdsfromlonglong (value : Z) : option (option sds) :=
  let v := if value <? 0 then u64 (- value) else value in
  '(b, p) ← put_digits_down 20 (replicate 32 junk) 31 v;
  '(b, p) ← (if value <? 0 then b' ← wr b p 45; Some (b', p - 1) else Some (b, p));
  sdsnewlen (Some (drop (Z.to_nat (p + 1)) b)) (32 - (p + 1)).

(** ** Formatted output *)

(** [out] is the text that [vsnprintf] produces for the format and the arguments; the
    buffer is doubled until the text fits with a byte to spare. *)
Fixpoint vprintf_loop (fuel : nat) (out : bytes) (buflen : Z) : option (option bytes) :=
  match fuel with
  | O => None
  | S f =>
      if negb (malloc_ok buflen) then Some None
      else
        b ← wr (replicate (Z.to_nat buflen) junk) (buflen - 2) 0;
        b ← wr_bytes b 0 (take (Z.to_nat (buflen - 1)) out ++ [0]);
        c ← rd b (buflen - 2);
        if negb (c =? 0) then vprintf_loop f out (u64 (buflen * 2)) else Some (Some b)
  end.

Definition sdscatvprintf (s : sds) (out : bytes) : option (option sds) :=
  let? b := vprintf_loop 64 out 16 in sdscat s b.

Definition sdscatprintf (s : sds) (out : bytes) : option (option sds) := sdscatvprintf s out.

(** The arguments of [sdscatfmt]. *)
Inductive fmt_arg :=
| ArgStr (s : bytes)
| ArgSds (s : sds)
| ArgInt (n : Z)
| ArgLongLong (n : Z)
| ArgUInt (n : Z)
| ArgULongLong (n : Z)
| ArgSize (n : Z).

(** The copy of [l] bytes of [src] at the write position, which is the length [i]. *)
Definition fmt_put (s : sds) (i : Z) (src : bytes) (l : Z) : option (sds * Z) :=
  let! s := (if free s <? l then sdsMakeRoomFor s (u64 l) else Some (Some s)) in
  if zlen src <? l then None
  else b ← wr_bytes (buf s) i (take (Z.to_nat l) src);
       Some (mk_sds (i32 (len s + l)) (i32 (free s - l)) b, i + l).

Definition fmt_char (s : sds) (i c : Z) : option (sds * Z) :=
  b ← wr (buf s) i c; Some (mk_sds (i32 (len s + 1)) (i32 (free s - 1)) b, i + 1).

(** One directive; the argument taken must have the type the directive reads. *)
Definition fmt_directive (s : sds) (i next : Z) (args : list fmt_arg) : option (sds * Z * list fmt_arg) :=
  if next =? 115 then
    match args with ArgStr t :: r => c ← cstr t; '(s, i) ← fmt_put s i t (zlen c); Some (s, i, r) | _ => None end
  else if next =? 83 then
    match args with ArgSds t :: r => '(s, i) ← fmt_put s i (buf t) (sdslen t); Some (s, i, r) | _ => None end
  else if (next =? 105) || (next =? 73) then
    match args with
    | a :: r =>
        num ← (match a with ArgInt n => if next =? 105 then Some n else None
                          | ArgLongLong n => if next =? 73 then Some n else None | _ => None end);
        '(b, l) ← sdsll2str (replicate (Z.to_nat SDS_LLSTR_SIZE) junk) num;
        '(s, i) ← fmt_put s i b l; Some (s, i, r)
    | [] => None
    end
  else if (next =? 117) || (next =? 85) || (next =? 84) then
    match args with
    | a :: r =>
        num ← (match a with ArgUInt n => if next =? 117 then Some n else None
                          | ArgULongLong n => if next =? 85 then Some n else None
                          | ArgSize n => if next =? 84 then Some n else None | _ => None end);
        '(b, l) ← sdsull2str (replicate (Z.to_nat SDS_LLSTR_SIZE) junk) num;
        '(s, i) ← fmt_put s i b l; Some (s, i, r)
    | [] => None
    end
  else '(s, i) ← fmt_char s i next; Some (s, i, args).

(** The loop over the format, a C string without its NUL; after a final [%] the code
    steps over the NUL and reads on. *)
Fixpoint fmt_loop (f : bytes) (s : sds) (i : Z) (args : list fmt_arg) : option (sds * Z) :=
  match f with
  | [] => Some (s, i)
  | c :: f' =>
      let! s := (if free s =? 0 then sdsMakeRoomFor s 1 else Some (Some s)) in
      if c =? 37 then
        match f' with
        | [] => None
        | next :: f'' => '(s, i, args) ← fmt_directive s i next args; fmt_loop f'' s i args
        end
      else '(s, i) ← fmt_char s i c; fmt_loop f' s i args
  end.

Definition sdscatfmt (s : sds) (fmt : bytes) (args : list fmt_arg) : option sds :=
  '(s, i) ← fmt_loop fmt s (sdslen s) args;
  b ← wr (buf s) i 0;
  Some (mk_sds (len s) (free s) b).

(** ** Substrings *)

(** [strchr(cset, c)] finds every byte of the C string and its NUL. *)
Definition strchr (cset : bytes) (c : Z) : bool := existsb (Z.eqb c) cset || (c =? 0).

(** [while(sp <= end && strchr(cset, *sp)) sp++;] *)
Fixpoint trim_left (fuel : nat) (b cset : bytes) (sp last : Z) : option Z :=
  match fuel with
  | O => None
  | S f =>
      if sp <=? last then c ← rd b sp; if strchr cset c then trim_left f b cset (sp + 1) last else Some sp
      else Some sp
  end.

(** [while(ep > start && strchr(cset, *ep)) ep--;] *)
Fixpoint trim_right (fuel : nat) (b cset : bytes) (ep : Z) : option Z :=
  match fuel with
  | O => None
  | S f =>
      if 0 <? ep then c ← rd b ep; if strchr cset c then trim_right f b cset (ep - 1) else Some ep
      else Some ep
  end.

(** [memmove(b, b + src, n)]. *)
Definition move_front (b : bytes) (src n : Z) : option bytes :=
  if decide (0 <= src /\ 0 <= n /\ src + n <= zlen b)
  then wr_bytes b 0 (take (Z.to_nat n) (drop (Z.to_nat src) b)) else None.

Definition sdstrim (s : sds) (cset : bytes) : option sds :=
  let last := sdslen s - 1 in
  sp ← trim_left (S (length (buf s))) (buf s) cset 0 last;
  ep ← trim_right (S (length (buf s))) (buf s) cset last;
  let l := if ep <? sp then 0 else ep - sp + 1 in
  b ← (if sp =? 0 then Some (buf s) else move_front (buf s) sp l);
  b ← wr b l 0;
  Some (mk_sds (i32 l) (i32 (u64 (free s + (len s - l)))) b).

Definition sdsrange (s : sds) (start last : Z) : option sds :=
  let l := sdslen s in
  if l =? 0 then Some s
  else
    let start := if start <? 0 then let x := i32 (u64 (l + start)) in if x <? 0 then 0 else x else start in
    let last := if last <? 0 then let x := i32 (u64 (l + last)) in if x <? 0 then 0 else x else last in
    let newlen := if last <? start then 0 else last - start + 1 in
    let '(newlen, start) :=
      if negb (newlen =? 0) then
        if i32 l <=? start then (0, start)
        else if i32 l <=? last then
          let last := i32 (l - 1) in (if last <? start then 0 else last - start + 1, start)
        else (newlen, start)
      else (0, 0) in
    b ← (if negb (start =? 0) && negb (newlen =? 0) then move_front (buf s) start newlen else Some (buf s));
    b ← wr b newlen 0;
    Some (mk_sds (i32 newlen) (i32 (u64 (free s + (len s - newlen)))) b).

(** ** Characters of a string *)

(** [for (j = 0; j < len; j++) s[j] = f(s[j]);] *)
Fixpoint map_loop (k : nat) (f : Z -> Z) (j : Z) (b : bytes) : option bytes :=
  match k with
  | O => Some b
  | S k' => c ← rd b j; b' ← wr b j (f c); map_loop k' f (j + 1) b'
  end.

Definition sdstolower (s : sds) : option sds :=
  b ← map_loop (Z.to_nat (i32 (sdslen s))) tolower 0 (buf s); Some (mk_sds (len s) (free s) b).
Definition sdstoupper (s : sds) : option sds :=
  b ← map_loop (Z.to_nat (i32 (sdslen s))) toupper 0 (buf s); Some (mk_sds (len s) (free s) b).

(** The first [from] that equals [c] selects the byte of [to]. *)
Fixpoint map_char (from to : bytes) (c : Z) : Z :=
  match from, to with
  | x :: from', y :: to' => if c =? x then y else map_char from' to' c
  | _, _ => c
  end.

Definition sdsmapchars (s : sds) (from to : bytes) (setlen : Z) : option sds :=
  if (zlen from <? setlen) || (zlen to <? setlen) then None
  else
    b ← map_loop (Z.to_nat (sdslen s))
          (map_char (take (Z.to_nat setlen) from) (take (Z.to_nat setlen) to)) 0 (buf s);
    Some (mk_sds (len s) (free s) b).

Fixpoint memcmp (n : nat) (a b : bytes) : option Z :=
  match n with
  | O => Some 0
  | S n' =>
      match a, b with
      | x :: a', y :: b' => if x =? y then memcmp n' a' b' else Some (x - y)
      | _, _ => None
      end
  end.

Definition sdscmp (s1 s2 : sds) : option Z :=
  let l1 := sdslen s1 in
  let l2 := sdslen s2 in
  let minlen := if l1 <? l2 then l1 else l2 in
  cmp ← memcmp (Z.to_nat minlen) (buf s1) (buf s2);
  if cmp =? 0 then Some (i32 (u64 (l1 - l2))) else Some cmp.

(** ** Splitting and joining *)

(** The loop of [sdssplitlen] over [j]: [slots] is the room of the token array, which is
    doubled when less than two slots are left; [None] inside is the jump to [cleanup]. *)
Fixpoint split_loop (fuel : nat) (s : bytes) (l : Z) (sep : bytes) (seplen : Z)
    (slots start j : Z) (tokens : list sds) : option (option (list sds)) :=
  match fuel with
  | O => None
  | S f =>
      if j <? l - (seplen - 1) then
        let grow := slots <? zlen tokens + 2 in
        let slots := if grow then slots * 2 else slots in
        if grow && negb (malloc_ok (8 * slots)) then Some None
        else
          c ← rd s j; c0 ← rd sep 0;
          cmp ← memcmp (Z.to_nat seplen) (drop (Z.to_nat j) s) sep;
          if ((seplen =? 1) && (c =? c0)) || (cmp =? 0) then
            let? t := sdsnewlen (Some (drop (Z.to_nat start) s)) (j - start) in
            split_loop f s l sep seplen slots (j + seplen) (j + seplen) (tokens ++ [t])
          else split_loop f s l sep seplen slots start (j + 1) tokens
      else
        let? t := sdsnewlen (Some (drop (Z.to_nat start) s)) (l - start) in
        Some (Some (tokens ++ [t]))
  end.

(** The result is the token array with its count, or NULL (and a count of 0). *)
Definition sdssplitlen (s : bytes) (l : Z) (sep : bytes) (seplen : Z) : option (option (list sds)) :=
  if (seplen <? 1) || (l <? 0) then Some None
  else if negb (malloc_ok (8 * 5)) then Some None
  else if l =? 0 then Some (Some [])
  else split_loop (S (Z.to_nat l)) s l sep seplen 5 0 0 [].

(** [sdsfreesplitres] releases every token, the last first. *)
Definition sdsfreesplitres (tokens : option (list sds)) : list sds :=
  match tokens with None => [] | Some l => rev l end.

(** The loop of the two joins; a failed concatenation is not tested. *)
Fixpoint join_loop (cat : sds -> sds -> option (option sds)) (join : sds) (argv : list sds) (sep : bytes)
    (seplen : Z) : option sds :=
  match argv with
  | [] => Some join
  | a :: argv' =>
      let! join := cat join a in
      match argv' with
      | [] => Some join
      | _ :: _ => let! join := sdscatlen join sep seplen in join_loop cat join argv' sep seplen
      end
  end.

Definition sdsjoinsds (argv : list sds) (sep : bytes) (seplen : Z) : option sds :=
  let! join := sdsempty in join_loop sdscatsds join argv sep seplen.

(** The arguments of [sdsjoin] are C strings, kept in the buffer of an [sds] here. *)
Definition sdsjoin (argv : list bytes) (sep : bytes) (seplen : Z) : option sds :=
  let! join := sdsempty in
  join_loop (fun j a => sdscat j (buf a)) join (map (mk_sds 0 0) argv) sep seplen.

(** ** Quoted representation *)

Definition hex_digit (n : Z) : Z := if n <? 10 then 48 + n else 87 + n.

(** The text [sdscatrepr] appends for one byte, and through which call. *)
Definition catrepr_char (s : sds) (c : Z) : option (option sds) :=
  if (c =? 92) || (c =? 34) then sdscatprintf s [92; c]
  else if c =? 10 then sdscatlen s [92; 110] 2
  else if c =? 13 then sdscatlen s [92; 114] 2
  else if c =? 9 then sdscatlen s [92; 116] 2
  else if c =? 7 then sdscatlen s [92; 97] 2
  else if c =? 8 then sdscatlen s [92; 98] 2
  else if isprint c then sdscatprintf s [c]
  else sdscatprintf s [92; 120; hex_digit (c / 16); hex_digit (c mod 16)].

(** Only the last result may be NULL without being dereferenced. *)
Fixpoint catrepr_loop (s : sds) (p : bytes) : option (option sds) :=
  match p with
  | [] => sdscatlen s [34] 1
  | c :: p' => let! s := catrepr_char s c in catrepr_loop s p'
  end.

Definition sdscatrepr (s : sds) (p : bytes) (l : Z) : option (option sds) :=
  if zlen p <? l then None
  else let! s := sdscatlen s [34] 1 in catrepr_loop s (take (Z.to_nat l) p).

Definition is_hex_digit (c : Z) : bool :=
  ((48 <=? c) && (c <=? 57)) || ((97 <=? c) && (c <=? 102)) || ((65 <=? c) && (c <=? 70)).

Definition hex_digit_to_int (c : Z) : Z :=
  if (48 <=? c) && (c <=? 57) then c - 48
  else if (97 <=? c) && (c <=? 102) then c - 87
  else if (65 <=? c) && (c <=? 70) then c - 55
  else 0.

(** The position in the line is the rest of the C string: [peek p k] is [p[k]]. *)
Definition peek (p : bytes) (k : nat) : Z := match p !! k with Some c => c | None => 0 end.

Inductive quoting := Unquoted | InQ | InSQ.

(** What one round of the token loop does: append a byte and move on, change the quoting,
    finish the token, or fail. *)
Inductive token_step :=
| Append (c : Z) (adv : nat)
| Enter (q : quoting)
| Done
| Err.

Definition escaped (c : Z) : Z :=
  if c =? 110 then 10 else if c =? 114 then 13 else if c =? 116 then 9
  else if c =? 98 then 8 else if c =? 97 then 7 else c.

Definition token_round (q : quoting) (p : bytes) : token_step :=
  let c0 := peek p 0 in
  match q with
  | InQ =>
      if (c0 =? 92) && (peek p 1 =? 120) && is_hex_digit (peek p 2) && is_hex_digit (peek p 3)
      then Append (u8 (hex_digit_to_int (peek p 2) * 16 + hex_digit_to_int (peek p 3))) 4
      else if (c0 =? 92) && negb (peek p 1 =? 0) then Append (escaped (peek p 1)) 2
      else if c0 =? 34 then if negb (peek p 1 =? 0) && negb (isspace (peek p 1)) then Err else Done
      else if c0 =? 0 then Err
      else Append c0 1
  | InSQ =>
      if (c0 =? 92) && (peek p 1 =? 39) then Append 39 2
      else if c0 =? 39 then if negb (peek p 1 =? 0) && negb (isspace (peek p 1)) then Err else Done
      else if c0 =? 0 then Err
      else Append c0 1
  | Unquoted =>
      if (c0 =? 32) || (c0 =? 10) || (c0 =? 13) || (c0 =? 9) || (c0 =? 0) then Done
      else if c0 =? 34 then Enter InQ
      else if c0 =? 39 then Enter InSQ
      else Append c0 1
  end.

(** The token loop, with [if ( *p ) p++] at the end of a round.  [current] is not tested for
    NULL.  The result is the token and the rest, [None] inside for the jump to [err]. *)
Fixpoint token_loop (fuel : nat) (q : quoting) (current : sds) (p : bytes) : option (option (sds * bytes)) :=
  match fuel with
  | O => None
  | S f =>
      match token_round q p with
      | Append c adv => let! current := sdscatlen current [c] 1 in token_loop f q current (drop adv p)
      | Enter q' => token_loop f q' current (drop 1 p)
      | Done => Some (Some (current, drop 1 p))
      | Err => Some None
      end
  end.

Fixpoint skip_space (p : bytes) : bytes :=
  match p with c :: p' => if negb (c =? 0) && isspace c then skip_space p' else p | [] => [] end.

Fixpoint splitargs_loop (fuel : nat) (p : bytes) (vector : list sds) : option (option (list sds)) :=
  match fuel with
  | O => None
  | S f =>
      match skip_space p with
      | [] => if (zlen vector =? 0) && negb (malloc_ok 8) then Some None else Some (Some vector)
      | p' =>
          let! current := sdsempty in
          let? r := token_loop (S (length p')) Unquoted current p' in
          if negb (malloc_ok (8 * (zlen vector + 1))) then None
          else splitargs_loop f (snd r) (vector ++ [fst r])
      end
  end.

(** [line] is the memory of a C string. *)
Definition sdssplitargs (line : bytes) : option (option (list sds)) :=
  l ← cstr line; splitargs_loop (S (length l)) l [].

(** ** Well-formed strings *)

(** [repr s l]: the header and the buffer of [s] are consistent and hold the bytes [l],
    followed by a NUL and the free space. *)
Definition repr (s : sds) (l : bytes) : Prop :=
  exists t, buf s = l ++ 0 :: t /\ len s = zlen l /\ free s = zlen t /\ zlen l + zlen t <= INT_MAX.

(** Room for [n] bytes can be made without leaving the range of [int]. *)
Definition fits (n : Z) : Prop := 0 <= n /\ n + SDS_MAX_PREALLOC <= INT_MAX.

(** A call is never undefined; it returns a string with [P], or NULL when an allocation failed. *)
Definition ok_or_oom {A} (r : option (option A)) (P : A -> Prop) : Prop :=
  match r with
  | Some (Some s) => P s
  | Some None => exists n, malloc_ok n = false
  | None => False
  end.

Lemma ok_or_oom_impl {A} (r : option (option A)) (P Q : A -> Prop) :
  ok_or_oom r P -> (forall s, P s -> Q s) -> ok_or_oom r Q.
Proof. destruct r as [[s|]|]; simpl; auto. Qed.

Lemma ok_or_oom_bind {A B} (r : option (option A)) (k : A -> option (option B)) (P : A -> Prop) (Q : B -> Prop) :
  ok_or_oom r P -> (forall s, P s -> ok_or_oom (k s) Q) -> ok_or_oom (let? s := r in k s) Q.
Proof. destruct r as [[s|]|]; simpl; auto. Qed.

Lemma ok_or_oom_mem {A} (r : option (option A)) (P : A -> Prop) :
  has_memory -> ok_or_oom r P -> exists s, r = Some (Some s) /\ P s.
Proof. intros Hm. destruct r as [[s|]|]; simpl; [eauto | | done]. intros [n Hn]. by rewrite Hm in Hn. Qed.

Lemma repr_range s l : repr s l -> 0 <= len s /\ 0 <= free s /\ len s + free s <= INT_MAX /\ len s = zlen l.
Proof. intros (t & _ & -> & -> & Hm). zlen_pos. lia. Qed.

Lemma sdslen_repr s l : repr s l -> sdslen s = zlen l.
Proof.
  intros Hr. destruct (repr_range s l Hr) as (? & ? & ? & <-). apply uwrap_small. unfold INT_MAX in *. lia.
Qed.

Lemma sdsavail_repr s l : repr s l -> sdsavail s = free s.
Proof. intros Hr. destruct (repr_range s l Hr) as (? & ? & ? & _). apply uwrap_small. unfold INT_MAX in *. lia. Qed.

(** The string is its C string when it has no NUL. *)
Lemma cstr_app l t : 0 ∉ l -> cstr (l ++ 0 :: t) = Some l.
Proof.
  induction l as [|b l IH]; intros Hn; [done|]. simpl.
  rewrite (proj2 (Z.eqb_neq b 0)) by set_solver. rewrite IH by set_solver. done.
Qed.

Lemma wr_bytes_at (l x t : bytes) y i : i = zlen l -> zlen x = zlen y ->
  wr_bytes (l ++ x ++ t) i y = Some (l ++ y ++ t).
Proof.
  intros -> Hl. unfold wr_bytes. rewrite decide_True by zl. f_equal. rewrite !app_assoc.
  f_equal; [f_equal|].
  - rewrite <- app_assoc. apply take_app_exact. unfold zlen. lia.
  - apply drop_app_exact. rewrite length_app. unfold zlen in *. lia.
Qed.

(** A buffer of a known length can be cut where a write begins and ends. *)
Lemma cut_at (t : bytes) n : 0 <= n <= zlen t -> exists a b, t = a ++ b /\ zlen a = n.
Proof.
  intros. exists (take (Z.to_nat n) t), (drop (Z.to_nat n) t). rewrite take_drop. split; [done|]. zl.
Qed.

Lemma take_zlen_app (l k : bytes) n : n = zlen l -> take (Z.to_nat n) (l ++ k) = l.
Proof. intros ->. apply take_app_exact. unfold zlen. lia. Qed.

(** *** Creation *)

Lemma sdsnewlen_spec src l : 0 <= l <= INT_MAX -> l <= zlen src ->
  ok_or_oom (sdsnewlen (Some src) l) (fun s => repr s (take (Z.to_nat l) src) /\ free s = 0).
Proof.
  intros Hl Hsrc. unfold sdsnewlen. destruct (malloc_ok _) eqn:Em; cbn [negb]; [|by eexists].
  rewrite (proj2 (Z.leb_le l (zlen src))) by lia.
  assert (zlen (take (Z.to_nat l) src) = l) as Ht by zl.
  replace (replicate (Z.to_nat (l + 1)) junk) with ([] ++ replicate (Z.to_nat l) junk ++ [junk]).
  2: { replace (Z.to_nat (l + 1)) with (Z.to_nat l + 1)%nat by lia. by rewrite replicate_add. }
  rewrite wr_bytes_at by zl. cbn [app mbind option_bind].
  rewrite (wr_at _ [] junk 0) by done. cbn [mbind option_bind].
  rewrite i32_small by (unfold INT_MIN, INT_MAX in *; lia).
  split; [|done]. exists []. cbn [buf len free]. split_and!; zl || done.
Qed.

Lemma sdsempty_spec : ok_or_oom sdsempty (fun s => repr s []).
Proof.
  eapply ok_or_oom_impl; [by apply sdsnewlen_spec|]. intros s [Hs _]. exact Hs.
Qed.

Lemma sdsnew_spec l t : 0 ∉ l -> zlen l <= INT_MAX -> ok_or_oom (sdsnew (Some (l ++ 0 :: t))) (fun s => repr s l).
Proof.
  intros Hn Hl. unfold sdsnew. rewrite cstr_app by done. cbn [fmap option_fmap option_map mbind option_bind].
  eapply ok_or_oom_impl; [apply sdsnewlen_spec; zl|]. intros s [Hs _]. by rewrite take_zlen_app in Hs by done.
Qed.

Lemma sdsdup_spec s l : repr s l -> ok_or_oom (sdsdup s) (fun s' => repr s' l /\ free s' = 0).
Proof.
  intros Hs. unfold sdsdup. rewrite (sdslen_repr s l Hs). destruct Hs as (t & -> & _ & _ & Hm).
  eapply ok_or_oom_impl; [apply sdsnewlen_spec; zl|]. intros s'. by rewrite take_zlen_app.
Qed.

(** *** Room *)

Lemma realloc_grow (b : bytes) n : zlen b <= n ->
  realloc_buf b n = b ++ replicate (Z.to_nat (n - zlen b)) junk.
Proof. intros Hn. unfold realloc_buf. rewrite take_ge; [done|]. unfold zlen in Hn. lia. Qed.

Lemma sdsMakeRoomFor_spec s l n : repr s l -> 0 <= n -> fits (zlen l + n) ->
  ok_or_oom (sdsMakeRoomFor s n) (fun s' => repr s' l /\ n <= free s').
Proof.
  intros Hs Hn [_ Hf]. unfold sdsMakeRoomFor. rewrite (sdsavail_repr s l Hs), (sdslen_repr s l Hs).
  destruct (Z.leb_spec n (free s)); [done|].
  unfold SDS_MAX_PREALLOC, INT_MAX in *. pose proof (zlen_nonneg l).
  rewrite (uwrap_small 64 (zlen l + n)) by lia.
  set (newlen := if zlen l + n <? 1024 * 1024 then u64 ((zlen l + n) * 2) else u64 (zlen l + n + 1024 * 1024)).
  assert (zlen l + n <= newlen <= INT_MAX) as Hnew.
  { unfold newlen, INT_MAX. destruct (Z.ltb_spec (zlen l + n) (1024 * 1024)); rewrite uwrap_small; lia. }
  unfold INT_MAX in *. destruct (malloc_ok _) eqn:Em; cbn [negb]; [|by eexists].
  rewrite uwrap_small, i32_small by (unfold INT_MIN, INT_MAX; lia).
  destruct Hs as (t & Hb & Hlen & Hfree & Hm). split; [|cbn [free]; lia].
  rewrite Hb, realloc_grow by (rewrite zlen_app, zlen_cons; lia).
  eexists. cbn [buf len free]. rewrite <- app_assoc. cbn [app].
  split; [done|]. split; [done|]. split; [|unfold INT_MAX]; zl.
Qed.

Lemma repr_room s l n : repr s l -> 0 <= n <= free s ->
  exists x t, buf s = l ++ x ++ t /\ zlen x = n + 1 /\ zlen t = free s - n /\ zlen l + free s <= INT_MAX /\
    len s = zlen l.
Proof.
  intros (t & Hb & Hlen & Hfree & Hm) Hn.
  destruct (cut_at (0 :: t) (n + 1)) as (x & t' & E & Hx); [zl|].
  exists x, t'. rewrite Hb, E. split; [done|]. split; [done|].
  assert (zlen (0 :: t) = zlen (x ++ t')) as Hz by (by rewrite E). zl.
Qed.

(** Writing [y] behind the content, a NUL after it, and the new lengths. *)
Lemma repr_append s l y : repr s l -> zlen y <= free s ->
  exists b, wr_bytes (buf s) (zlen l) y = Some b /\
    exists b', wr b (zlen l + zlen y) 0 = Some b' /\
      repr (mk_sds (zlen l + zlen y) (free s - zlen y) b') (l ++ y).
Proof.
  intros Hs Hy. destruct (repr_room s l (zlen y) Hs) as (x & t & Hb & Hx & Ht & Hm & Hl); [zl|].
  destruct (cut_at x (zlen y)) as (x1 & x2 & -> & Hx1); [zl|].
  destruct x2 as [|c [|? ?]]; [zl | | zl].
  rewrite Hb, <- app_assoc. eexists. split; [by apply wr_bytes_at|].
  cbn [app]. eexists. split.
  - rewrite app_assoc. apply wr_at. zl.
  - exists t. cbn [buf len free]. split_and!; zl || done.
Qed.

(** *** Concatenation *)

Lemma sdscatlen_spec s l t n : repr s l -> 0 <= n <= zlen t -> fits (zlen l + n) ->
  ok_or_oom (sdscatlen s t n) (fun s' => repr s' (l ++ take (Z.to_nat n) t)).
Proof.
  intros Hs Hn Hf. unfold sdscatlen. rewrite (sdslen_repr s l Hs).
  eapply ok_or_oom_bind; [apply sdsMakeRoomFor_spec; [done | lia | done]|].
  intros s' [Hs' Hroom]. rewrite (proj2 (Z.ltb_ge _ _)) by lia.
  set (y := take (Z.to_nat n) t). assert (zlen y = n) as Hy by (unfold y; zl).
  destruct (repr_append s' l y Hs') as (b & -> & b' & Hb' & Hr); [lia|]. cbn [mbind option_bind].
  destruct (repr_range s' l Hs') as (? & ? & ? & ?). unfold fits, SDS_MAX_PREALLOC, INT_MAX in *. zlen_pos.
  rewrite Hy in *. rewrite !(uwrap_small 64 (zlen l + n)) by lia. rewrite Hb'. cbn [mbind option_bind].
  rewrite (uwrap_small 64 (free s')), uwrap_small by lia.
  rewrite !i32_small by (unfold INT_MIN, INT_MAX; lia). exact Hr.
Qed.

Lemma sdscat_spec s l t r : repr s l -> 0 ∉ t -> fits (zlen l + zlen t) ->
  ok_or_oom (sdscat s (t ++ 0 :: r)) (fun s' => repr s' (l ++ t)).
Proof.
  intros Hs Ht Hf. unfold sdscat. rewrite cstr_app by done. cbn [mbind option_bind].
  eapply ok_or_oom_impl; [apply sdscatlen_spec; [done | zl | done]|].
  intros s'. by rewrite take_zlen_app.
Qed.

Lemma sdscatsds_spec s l u k : repr s l -> repr u k -> fits (zlen l + zlen k) ->
  ok_or_oom (sdscatsds s u) (fun s' => repr s' (l ++ k)).
Proof.
  intros Hs Hu Hf. unfold sdscatsds. rewrite (sdslen_repr u k Hu). destruct Hu as (t & -> & _).
  eapply ok_or_oom_impl; [apply sdscatlen_spec; [done | zl | done]|].
  intros s'. by rewrite take_zlen_app.
Qed.

(** The buffer of a representation, forgetting what is behind a cut. *)
Lemma repr_buf s l n : repr s l -> 0 <= n <= len s + free s ->
  exists x c t, buf s = x ++ c :: t /\ zlen x = n /\ zlen t = len s + free s - n.
Proof.
  intros (t & Hb & Hlen & Hfree & Hm) Hn.
  destruct (cut_at (buf s) n) as (x & [|c t'] & E & Hx); [rewrite Hb; zl | |].
  - exfalso. assert (zlen (buf s) = zlen (x ++ [])) as Hz by (by rewrite <- E). rewrite Hb in Hz. zl.
  - exists x, c, t'. split; [done|]. split; [done|].
    assert (zlen (buf s) = zlen (x ++ c :: t')) as Hz by (by rewrite <- E). rewrite Hb in Hz. zl.
Qed.

(** Writing [y] at the start, a NUL after it, and the new lengths. *)
Lemma repr_overwrite s l y : repr s l -> zlen y <= len s + free s ->
  exists b, wr_bytes (buf s) 0 y = Some b /\
    exists b', wr b (zlen y) 0 = Some b' /\
      repr (mk_sds (zlen y) (len s + free s - zlen y) b') y.
Proof.
  intros Hs Hy. destruct (repr_buf s l (zlen y) Hs) as (x & c & t & Hb & Hx & Ht); [zl|].
  destruct (repr_range s l Hs) as (? & ? & ? & ?).
  rewrite Hb. eexists. split; [apply (wr_bytes_at [] x (c :: t)); [done | lia]|].
  eexists. split; [by apply wr_at|]. exists t. cbn [buf len free app]. split_and!; zl || done.
Qed.

Lemma sdscpylen_spec s l t n : repr s l -> 0 <= n <= zlen t -> fits n -> zlen l + SDS_MAX_PREALLOC <= INT_MAX ->
  ok_or_oom (sdscpylen s t n) (fun s' => repr s' (take (Z.to_nat n) t)).
Proof.
  intros Hs Hn Hf Hl. unfold sdscpylen. destruct (repr_range s l Hs) as (? & ? & ? & ?).
  unfold fits, SDS_MAX_PREALLOC, INT_MAX in *.
  rewrite (i32_small (free s + len s)) by (unfold INT_MIN, INT_MAX; lia).
  rewrite (uwrap_small 64 (free s + len s)), (uwrap_small 64 (len s)) by lia.
  apply (ok_or_oom_bind _ _ (fun s' => repr s' l /\ n <= len s' + free s')).
  - destruct (Z.ltb_spec (free s + len s) n); [|split; [done | lia]].
    rewrite uwrap_small by lia. eapply ok_or_oom_impl.
    + apply sdsMakeRoomFor_spec; [done | lia | split; unfold SDS_MAX_PREALLOC, INT_MAX; lia].
    + intros s' [Hs' ?]. split; [done|]. destruct (repr_range s' l Hs') as (? & ? & ? & ?). lia.
  - intros s' [Hs' Hroom]. rewrite (proj2 (Z.ltb_ge _ _)) by lia.
    set (y := take (Z.to_nat n) t). assert (zlen y = n) as Hy by (unfold y; zl).
    destruct (repr_overwrite s' l y Hs') as (b & -> & b' & Hb' & Hr); [lia|]. cbn [mbind option_bind].
    destruct (repr_range s' l Hs') as (? & ? & ? & ?). unfold INT_MAX in *.
    rewrite Hy in *. rewrite Hb'. cbn [mbind option_bind].
    rewrite (i32_small (free s' + len s')) by (unfold INT_MIN, INT_MAX; lia).
    rewrite !uwrap_small by (rewrite ?uwrap_small; lia).
    rewrite !i32_small by (unfold INT_MIN, INT_MAX; lia). by rewrite Z.add_comm in Hr.
Qed.

Lemma sdsgrowzero_spec s l n : repr s l -> 0 <= n -> fits (Z.max (zlen l) n) ->
  ok_or_oom (sdsgrowzero s n) (fun s' => repr s' (l ++ replicate (Z.to_nat (n - zlen l)) 0)).
Proof.
  intros Hs Hn [_ Hf]. unfold sdsgrowzero. destruct (repr_range s l Hs) as (? & ? & ? & Hl).
  unfold SDS_MAX_PREALLOC, INT_MAX in *. rewrite Hl, (uwrap_small 64 (zlen l)) by lia.
  destruct (Z.leb_spec n (zlen l)).
  { replace (Z.to_nat (n - zlen l)) with 0%nat by lia. cbn [replicate]. by rewrite app_nil_r. }
  rewrite uwrap_small by lia.
  eapply ok_or_oom_bind; [apply sdsMakeRoomFor_spec; [done | lia | split; unfold SDS_MAX_PREALLOC, INT_MAX; lia]|].
  intros s' [Hs' Hroom]. destruct (repr_range s' l Hs') as (? & ? & ? & Hl').
  destruct (repr_room s' l (n - zlen l) Hs') as (x & t & Hb & Hx & Ht & Hm & _); [lia|].
  rewrite Hb, wr_bytes_at by zl. cbn [mbind option_bind]. unfold INT_MAX in *.
  rewrite (i32_small (len s' + free s')), (i32_small n) by (unfold INT_MIN, INT_MAX; lia).
  rewrite !uwrap_small by (rewrite ?uwrap_small; lia). rewrite i32_small by (unfold INT_MIN, INT_MAX; lia).
  exists t. cbn [buf len free]. replace (Z.to_nat (n - zlen l + 1)) with (Z.to_nat (n - zlen l) + 1)%nat by lia.
  rewrite replicate_add, <- !app_assoc. cbn [replicate app]. unfold INT_MAX. split_and!; zl || done.
Qed.

Lemma sdsclear_spec s l : repr s l -> exists s', sdsclear s = Some s' /\ repr s' [].
Proof.
  intros Hs. destruct (repr_range s l Hs) as (? & ? & ? & ?). unfold sdsclear.
  destruct (repr_buf s l 0 Hs) as (x & c & t & Hb & Hx & Ht); [lia|].
  destruct x; [|zl]. rewrite Hb. cbn. eexists. split; [done|]. exists t. cbn [buf len free].
  unfold INT_MAX in *. rewrite i32_small by (unfold INT_MIN, INT_MAX; lia).
  split_and!; zl || done.
Qed.

(** The bytes written after the content by the caller become part of the string. *)
Lemma sdsIncrLen_spec s l y c t : buf s = l ++ y ++ c :: t -> len s = zlen l -> free s = zlen (y ++ t) ->
  len s + free s <= INT_MAX -> exists s', sdsIncrLen s (zlen y) = Some s' /\ repr s' (l ++ y).
Proof.
  intros Hb Hl Hf Hm. unfold sdsIncrLen. rewrite Hl, Hf in *. unfold INT_MAX in *.
  rewrite (proj2 (Z.leb_le _ _)) by zl. cbn [negb].
  rewrite !i32_small by (unfold INT_MIN, INT_MAX; zl). rewrite (proj2 (Z.leb_le _ _)) by zl. cbn [negb].
  rewrite Hb, app_assoc, wr_at by zl. eexists. split; [done|]. exists t. cbn [buf len free].
  unfold INT_MAX. split_and!; zl || done.
Qed.

Lemma sdsRemoveFreeSpace_spec s l : has_memory -> repr s l ->
  exists s', sdsRemoveFreeSpace s = Some s' /\ repr s' l /\ free s' = 0.
Proof.
  intros Hmem (t & Hb & Hlen & Hfree & Hm). unfold sdsRemoveFreeSpace. rewrite Hmem. cbn [negb].
  eexists. split; [done|]. split; [|done]. exists []. cbn [buf len free]. unfold realloc_buf.
  rewrite Hb, Hlen. replace (Z.to_nat (zlen l + 1 - zlen (l ++ 0 :: t))) with 0%nat by zl.
  replace (l ++ 0 :: t) with ((l ++ [0]) ++ t) by (by rewrite <- app_assoc).
  rewrite take_app_exact by (rewrite length_app; unfold zlen; simpl; lia).
  rewrite app_nil_r. split_and!; zl || done.
Qed.

Lemma sdsupdatelen_spec s l k : repr s (l ++ 0 :: k) -> 0 ∉ l ->
  exists s', sdsupdatelen s = Some s' /\ repr s' l.
Proof.
  intros (t & Hb & Hlen & Hfree & Hm) Hn. unfold sdsupdatelen. rewrite Hb.
  rewrite <- app_assoc. cbn [app]. rewrite cstr_app by done. cbn [mbind option_bind].
  eexists. split; [done|]. exists (k ++ 0 :: t). cbn [buf len free]. unfold INT_MAX in *.
  rewrite Hlen, Hfree. rewrite !i32_small by (unfold INT_MIN, INT_MAX; rewrite ?i32_small by (unfold INT_MIN, INT_MAX; zl); zl).
  split_and!; zl || done.
Qed.

(** *** Numbers *)

Lemma dec_snoc v : 0 <= v -> (v / 10 =? 0) = false -> dec v = dec (v / 10) ++ [48 + v mod 10].
Proof.
  intros Hv H10. apply Z.eqb_neq in H10. apply dec_step.
  destruct (decide (v < 10)); [|lia]. rewrite Z.div_small in H10; lia.
Qed.

Lemma dec_one v : 0 <= v -> (v / 10 =? 0) = true -> dec v = [48 + v mod 10].
Proof.
  intros Hv H10. apply Z.eqb_eq in H10. assert (v < 10).
  { destruct (decide (v < 10)); [done|]. pose proof (Z.div_str_pos v 10). lia. }
  rewrite dec_small, Z.mod_small by lia. done.
Qed.

Lemma put_digits_spec f : forall pre x r v, 0 <= v < 10 ^ Z.of_nat f -> (0 < f)%nat -> zlen x = zlen (dec v) ->
  put_digits f (pre ++ x ++ r) (zlen pre) v = Some (pre ++ rev (dec v) ++ r, zlen pre + zlen (dec v)).
Proof.
  induction f as [|f IH]; intros pre x r v Hv Hf Hx; [lia|]. cbn [put_digits].
  pose proof (dec_length_pos v). destruct x as [|c x]; [zl|]. cbn [app].
  rewrite (wr_at pre (x ++ r) c (48 + v mod 10)) by done. cbn [mbind option_bind].
  destruct (v / 10 =? 0) eqn:E.
  - rewrite (dec_one v) in * by (done || lia). destruct x; [|zl]. done.
  - rewrite (dec_snoc v) in * by (done || lia). rewrite rev_app_distr. cbn [rev app].
    rewrite Nat2Z.inj_succ, Z.pow_succ_r in Hv by lia.
    assert (0 <= v / 10 < 10 ^ Z.of_nat f) by (split; [apply Z.div_pos | apply Z.div_lt_upper_bound]; lia).
    replace (pre ++ (48 + v mod 10) :: x ++ r) with ((pre ++ [48 + v mod 10]) ++ x ++ r) by (by rewrite <- app_assoc).
    replace (zlen pre + 1) with (zlen (pre ++ [48 + v mod 10])) by zl.
    rewrite IH; [| done | | zl].
    + rewrite <- app_assoc. cbn [app]. do 2 f_equal. zl.
    + apply Z.eqb_neq in E. destruct f; [simpl in *; lia | lia].
Qed.

Lemma put_digits_start x r v : 0 <= v < 10 ^ Z.of_nat 20 -> zlen x = zlen (dec v) ->
  put_digits 20 (x ++ r) 0 v = Some (rev (dec v) ++ r, zlen (dec v)).
Proof. intros Hv Hx. apply (put_digits_spec 20 [] x r v Hv ltac:(lia) Hx). Qed.

Lemma put_digits_down_spec f : forall x post r v, 0 <= v < 10 ^ Z.of_nat f -> (0 < f)%nat ->
  zlen x = zlen (dec v) ->
  put_digits_down f (r ++ x ++ post) (zlen r + zlen x - 1) v = Some (r ++ dec v ++ post, zlen r - 1).
Proof.
  induction f as [|f IH]; intros x post r v Hv Hf Hx; [lia|]. cbn [put_digits_down].
  pose proof (dec_length_pos v). destruct x as [|c x _] using rev_ind; [zl|].
  rewrite <- app_assoc. cbn [app]. rewrite (app_assoc r x (c :: post)).
  rewrite (wr_at (r ++ x) post c (48 + v mod 10)) by zl. cbn [mbind option_bind].
  destruct (v / 10 =? 0) eqn:E.
  - rewrite (dec_one v) in * by (done || lia). destruct x; [|zl]. rewrite app_nil_r. cbn [app]. do 2 f_equal. zl.
  - rewrite (dec_snoc v) in * by (done || lia). rewrite <- !app_assoc. cbn [app].
    rewrite Nat2Z.inj_succ, Z.pow_succ_r in Hv by lia.
    assert (0 <= v / 10 < 10 ^ Z.of_nat f) by (split; [apply Z.div_pos | apply Z.div_lt_upper_bound]; lia).
    replace (zlen r + zlen (x ++ [c]) - 1 - 1) with (zlen r + zlen x - 1) by zl.
    rewrite IH; [done | done | | zl].
    apply Z.eqb_neq in E. destruct f; [simpl in *; lia | lia].
Qed.

(** The magnitude of a [long long] as the code computes it. *)
Lemma magnitude value : LONG_MIN <= value <= LONG_MAX ->
  let v := if value <? 0 then u64 (- value) else value in
  0 <= v < 10 ^ Z.of_nat 20 /\ v = Z.abs value /\ zlen (dec v) <= 19.
Proof.
  intros Hv v. unfold LONG_MIN, LONG_MAX in Hv.
  assert (v = Z.abs value) as ->.
  { unfold v. destruct (Z.ltb_spec value 0); [rewrite uwrap_small|]; lia. }
  split; [lia|]. split; [done|]. apply dec_length_pow; lia.
Qed.

Lemma sdec_length value : LONG_MIN <= value <= LONG_MAX -> zlen (sdec value) <= 20.
Proof.
  unfold sdec, LONG_MIN, LONG_MAX. intros. destruct (Z.ltb_spec value 0).
  - pose proof (dec_length_pow (- value) 19). zl.
  - pose proof (dec_length_pow value 19). zl.
Qed.

Lemma sdsll2str_text s value : SDS_LLSTR_SIZE <= zlen s -> LONG_MIN <= value <= LONG_MAX ->
  exists r, sdsll2str s value = Some (sdec value ++ 0 :: r, zlen (sdec value)) /\
    zlen (sdec value) + 1 <= SDS_LLSTR_SIZE.
Proof.
  intros Hroom Hv. pose proof (sdec_length value Hv). unfold SDS_LLSTR_SIZE in *.
  destruct (cut_at s (zlen (sdec value))) as (x & [|c r] & -> & Hx); [zlen_pos; lia | zl |].
  exists r. split; [|lia]. unfold sdsll2str. pose proof (magnitude value Hv) as Hmag. cbv zeta in Hmag.
  set (v := if value <? 0 then u64 (- value) else value) in *. destruct Hmag as (Hv20 & Habs & _).
  assert (exists d, sdec value = (if value <? 0 then 45 :: d else d) /\ d = dec v) as (d & Ed & ->).
  { unfold sdec. rewrite Habs. destruct (Z.ltb_spec value 0); eexists; (split; [done|]); f_equal; lia. }
  destruct (value <? 0).
  - destruct x as [|y x _] using rev_ind; [rewrite Ed in Hx; zl|]. rewrite Ed in Hx.
    rewrite <- app_assoc. cbn [app].
    rewrite (put_digits_start x (y :: c :: r) v Hv20) by zl. cbn [mbind option_bind].
    rewrite (wr_at (rev (dec v)) (c :: r) y 45) by zl. cbn [mbind option_bind].
    replace (rev (dec v) ++ 45 :: c :: r) with ((rev (dec v) ++ [45]) ++ c :: r) by (by rewrite <- app_assoc).
    rewrite (wr_at (rev (dec v) ++ [45]) r c 0) by zl. cbn [mbind option_bind].
    rewrite (swap_loop_rev _ [] (rev (dec v) ++ [45]) (0 :: r)); [| done | zl | do 2 f_equal; zl].
    cbn [app mbind option_bind]. rewrite rev_app_distr, rev_involutive. cbn [rev app].
    rewrite Ed. do 2 f_equal. zl.
  - rewrite Ed in Hx. rewrite (put_digits_start x (c :: r) v Hv20) by zl. cbn [mbind option_bind].
    rewrite (wr_at (rev (dec v)) r c 0) by zl. cbn [mbind option_bind].
    rewrite (swap_loop_rev _ [] (rev (dec v)) (0 :: r)); [| done | zl | do 2 f_equal; zl].
    cbn [app mbind option_bind]. by rewrite rev_involutive, Ed.
Qed.

(** For every [long long], [sdsll2str] writes the decimal text and a NUL within
    the [SDS_LLSTR_SIZE] bytes its callers reserve, and returns the length of the text. *)
Theorem sdsll2str_spec (s : bytes) (value : Z)
    (Hroom : SDS_LLSTR_SIZE <= zlen s) (Hv : LONG_MIN <= value <= LONG_MAX) :
  exists r, sdsll2str s value = Some (sdec value ++ 0 :: r, zlen (sdec value)) /\
    zlen (sdec value) + 1 <= SDS_LLSTR_SIZE.
Proof. by apply sdsll2str_text. Qed.

Lemma sdsull2str_spec s v : SDS_LLSTR_SIZE <= zlen s -> 0 <= v < 2 ^ 64 ->
  exists r, sdsull2str s v = Some (dec v ++ 0 :: r, zlen (dec v)) /\ zlen (dec v) + 1 <= SDS_LLSTR_SIZE.
Proof.
  intros Hroom Hv. pose proof (dec_length_pow v 20). unfold SDS_LLSTR_SIZE in *.
  destruct (cut_at s (zlen (dec v))) as (x & [|c r] & -> & Hx); [zlen_pos; lia | zl |].
  exists r. split; [|lia]. unfold sdsull2str.
  rewrite (put_digits_start x (c :: r) v) by lia. cbn [mbind option_bind].
  rewrite (wr_at (rev (dec v)) r c 0) by zl. cbn [mbind option_bind].
  rewrite (swap_loop_rev _ [] (rev (dec v)) (0 :: r)); [| done | zl | do 2 f_equal; zl].
  cbn [app mbind option_bind]. by rewrite rev_involutive.
Qed.

Lemma sdsfromlonglong_spec value : LONG_MIN <= value <= LONG_MAX ->
  ok_or_oom (sdsfromlonglong value) (fun s => repr s (sdec value)).
Proof.
  intros Hv. pose proof (sdec_length value Hv). unfold sdsfromlonglong.
  pose proof (magnitude value Hv) as Hmag. cbv zeta in Hmag.
  set (v := if value <? 0 then u64 (- value) else value) in *. destruct Hmag as (Hv20 & Habs & Hlen).
  assert (zlen (replicate 32 junk) = 32) as H32 by done.
  destruct (cut_at (replicate 32 junk) (32 - zlen (dec v))) as (r & x & E & Hr); [zlen_pos; lia|].
  rewrite E in *.
  replace 31 with (zlen r + zlen x - 1) by zl.
  rewrite <- (app_nil_r x) at 1. rewrite (put_digits_down_spec 20 x [] r v Hv20) by (lia || zl).
  cbn [mbind option_bind]. rewrite app_nil_r. unfold sdec. destruct (Z.ltb_spec value 0).
  - destruct r as [|c r _] using rev_ind; [zl|]. rewrite <- app_assoc. cbn [app].
    rewrite (wr_at r (dec v) c 45) by zl. cbn [mbind option_bind].
    replace (zlen (r ++ [c]) - 1 - 1 + 1) with (zlen r) by zl.
    rewrite drop_app_exact by (unfold zlen; lia).
    eapply ok_or_oom_impl; [apply sdsnewlen_spec; unfold INT_MAX; zl|].
    intros s [Hs _]. rewrite take_ge in Hs by (unfold zlen in *; rewrite !length_app in *; simpl in *; lia).
    by replace (- value) with v by lia.
  - cbn [mbind option_bind]. replace (zlen r - 1 + 1) with (zlen r) by lia.
    rewrite drop_app_exact by (unfold zlen; lia).
    eapply ok_or_oom_impl; [apply sdsnewlen_spec; unfold INT_MAX; zl|].
    intros s [Hs _]. rewrite take_ge in Hs by (unfold zlen in *; rewrite ?length_app in *; lia).
    by replace value with v by lia.
Qed.

(** *** Formatted output *)

Lemma wr_bytes_0 (b y : bytes) : zlen y <= zlen b -> wr_bytes b 0 y = Some (y ++ drop (Z.to_nat (zlen y)) b).
Proof.
  intros Hy. destruct (cut_at b (zlen y)) as (x & t & -> & Hx); [zl|].
  etransitivity; [apply (wr_bytes_at [] x t y 0); (done || lia)|]. cbn [app]. do 2 f_equal.
  symmetry. apply drop_app_exact. unfold zlen in *. lia.
Qed.

Lemma vprintf_loop_spec out f : forall buflen, 0 ∉ out -> zlen out <= INT_MAX -> 16 <= buflen ->
  zlen out + 2 <= buflen * 2 ^ (Z.of_nat f - 1) -> (0 < f)%nat ->
  ok_or_oom (vprintf_loop f out buflen) (fun b => exists r, b = out ++ 0 :: r).
Proof.
  induction f as [|f IH]; intros buflen Hn Hout Hb Hf Hpos; [lia|]. cbn [vprintf_loop].
  destruct (malloc_ok buflen) eqn:Em; cbn [negb]; [|by exists buflen].
  destruct (cut_at (replicate (Z.to_nat buflen) junk) (buflen - 2)) as (x & t & E & Hx); [zl|].
  assert (zlen (replicate (Z.to_nat buflen) junk) = buflen) as Hlen by zl.
  rewrite E in *. destruct t as [|c [|d [|? ?]]]; try zl.
  rewrite wr_at by done. cbn [mbind option_bind].
  rewrite wr_bytes_0 by zl. cbn [mbind option_bind].
  set (y := take (Z.to_nat (buflen - 1)) out ++ [0]).
  destruct (decide (zlen out <= buflen - 2)) as [Hle|Hgt].
  - assert (y = out ++ [0]) as Ey by (unfold y; rewrite take_ge; [done | unfold zlen in *; lia]).
    assert (rd (y ++ drop (Z.to_nat (zlen y)) (x ++ [0; d])) (buflen - 2) = Some 0) as ->.
    { rewrite Ey. destruct (decide (zlen out = buflen - 2)).
      - rewrite rd_app_l by zl. by rewrite (rd_at out [] 0).
      - rewrite rd_app_r by zl. rewrite zlen_app.
        destruct (cut_at x (zlen out + 1)) as (x1 & x2 & -> & Hx1); [zl|].
        rewrite <- app_assoc, drop_app_exact by (unfold zlen in *; simpl; lia).
        rewrite (rd_at x2 [d] 0); [done | zl]. }
    cbn [mbind option_bind Z.eqb negb]. rewrite Ey, <- app_assoc. by eexists.
  - assert (exists c, rd (y ++ drop (Z.to_nat (zlen y)) (x ++ [0; d])) (buflen - 2) = Some c /\ c <> 0) as (e & -> & He).
    { destruct (rd_is_Some out (buflen - 2)) as [e He]; [lia|]. exists e.
      destruct (rd_split _ _ _ He) as (o1 & o2 & Eo & Ho1 & _). split.
      - unfold y. rewrite Eo. replace (Z.to_nat (buflen - 1)) with (S (length o1)) by (unfold zlen in *; lia).
        rewrite take_app_ge by lia. replace (S (length o1) - length o1)%nat with 1%nat by lia.
        cbn [take]. rewrite <- !app_assoc. cbn [app]. by apply rd_at.
      - intros ->. apply Hn. rewrite Eo. set_solver. }
    cbn [mbind option_bind]. rewrite (proj2 (Z.eqb_neq e 0)) by done. cbn [negb].
    unfold INT_MAX in *. rewrite uwrap_small by lia.
    destruct f as [|f]; [simpl in Hf; lia|]. apply IH; try done; try lia.
    rewrite !Nat2Z.inj_succ in *. replace (Z.succ (Z.succ (Z.of_nat f)) - 1) with (Z.succ (Z.of_nat f)) in Hf by lia.
    replace (Z.succ (Z.of_nat f) - 1) with (Z.of_nat f) by lia. rewrite Z.pow_succ_r in Hf by lia. lia.
Qed.

(** [sdscatprintf] appends the formatted text (which has no NUL), whatever its length. *)
Lemma sdscatprintf_spec s l out : repr s l -> 0 ∉ out -> fits (zlen l + zlen out) ->
  ok_or_oom (sdscatprintf s out) (fun s' => repr s' (l ++ out)).
Proof.
  intros Hs Hn Hf. unfold sdscatprintf, sdscatvprintf. unfold fits, SDS_MAX_PREALLOC, INT_MAX in *.
  eapply ok_or_oom_bind; [apply vprintf_loop_spec; unfold INT_MAX; (done || zlen_pos; lia)|].
  intros b [r ->]. by apply sdscat_spec.
Qed.

(** While [sdscatfmt] runs, the NUL is not written yet. *)
Definition raw (s : sds) (l : bytes) : Prop :=
  exists t, buf s = l ++ t /\ len s = zlen l /\ zlen t = free s + 1 /\ 0 <= free s /\ zlen l + free s <= INT_MAX.

Lemma repr_raw s l : repr s l -> raw s l.
Proof. intros (t & Hb & Hl & Hf & Hm). exists (0 :: t). split_and!; zl || done. Qed.

Lemma raw_room s l n : raw s l -> 0 <= n -> fits (zlen l + n) ->
  ok_or_oom (sdsMakeRoomFor s n) (fun s' => raw s' l /\ n <= free s').
Proof.
  intros (t & Hb & Hl & Ht & Hf & Hm) Hn [_ Hfit]. unfold sdsMakeRoomFor, sdsavail, sdslen.
  unfold SDS_MAX_PREALLOC, INT_MAX in *. pose proof (zlen_nonneg l).
  rewrite (uwrap_small 64 (free s)), (uwrap_small 64 (len s)) by lia.
  destruct (Z.leb_spec n (free s)); [split; [by exists t | done]|].
  rewrite Hl, (uwrap_small 64 (zlen l + n)) by lia.
  set (newlen := if zlen l + n <? 1024 * 1024 then u64 ((zlen l + n) * 2) else u64 (zlen l + n + 1024 * 1024)).
  assert (zlen l + n <= newlen <= INT_MAX) as Hnew.
  { unfold newlen, INT_MAX. destruct (Z.ltb_spec (zlen l + n) (1024 * 1024)); rewrite uwrap_small; lia. }
  unfold INT_MAX in *. destruct (malloc_ok _) eqn:Em; cbn [negb]; [|by eexists].
  rewrite uwrap_small, i32_small by (unfold INT_MIN, INT_MAX; lia). split; [|cbn [free]; lia].
  eexists. cbn [buf len free]. rewrite Hb, realloc_grow, <- app_assoc by (rewrite zlen_app; lia).
  unfold INT_MAX. split_and!; (done || zl).
Qed.

Lemma fmt_put_spec s l src n : has_memory -> raw s l -> 0 <= n <= zlen src -> fits (zlen l + n) ->
  exists s', fmt_put s (zlen l) src n = Some (s', zlen (l ++ take (Z.to_nat n) src)) /\
    raw s' (l ++ take (Z.to_nat n) src).
Proof.
  intros Hm Hs Hn Hf. unfold fmt_put. unfold fits, SDS_MAX_PREALLOC, INT_MAX in *.
  assert (exists s1, (if free s <? n then sdsMakeRoomFor s (u64 n) else Some (Some s)) = Some (Some s1) /\
    raw s1 l /\ n <= free s1) as (s1 & -> & (t & Hb & Hl & Ht & Hfr & Hmx) & Hroom).
  { destruct (Z.ltb_spec (free s) n); [|by eauto]. rewrite uwrap_small by (zlen_pos; lia).
    apply ok_or_oom_mem; [done|]. apply raw_room; [done | lia | unfold fits, SDS_MAX_PREALLOC, INT_MAX; lia]. }
  rewrite (proj2 (Z.ltb_ge _ _)) by lia.
  destruct (cut_at t n) as (x & t' & -> & Hx); [lia|].
  rewrite Hb, wr_bytes_at by zl. cbn [mbind option_bind].
  eexists. split; [do 2 f_equal; zl|]. exists t'. cbn [buf len free]. unfold INT_MAX in *. zlen_pos.
  rewrite Hl, !i32_small by (unfold INT_MIN, INT_MAX; lia).
  rewrite <- app_assoc. split_and!; (done || zl).
Qed.

Lemma fmt_char_spec s l c : raw s l -> 1 <= free s ->
  exists s', fmt_char s (zlen l) c = Some (s', zlen (l ++ [c])) /\ raw s' (l ++ [c]).
Proof.
  intros (t & Hb & Hl & Ht & Hf & Hm) Hroom. unfold fmt_char. destruct t as [|x t]; [zl|].
  rewrite Hb, wr_at by done. cbn [mbind option_bind].
  eexists. split; [do 2 f_equal; zl|]. exists t. cbn [buf len free]. unfold INT_MAX in *. zlen_pos.
  rewrite Hl, !i32_small by (unfold INT_MIN, INT_MAX; lia).
  rewrite <- app_assoc. split_and!; (done || zl).
Qed.

(** The text of a directive: its argument must have the type that the directive reads. *)
Definition fmt_text (next : Z) (args : list fmt_arg) : option (bytes * list fmt_arg) :=
  if next =? 115 then match args with ArgStr t :: r => c ← cstr t; Some (c, r) | _ => None end
  else if next =? 83 then
    match args with ArgSds t :: r => Some (take (Z.to_nat (len t)) (buf t), r) | _ => None end
  else if next =? 105 then match args with ArgInt n :: r => Some (sdec n, r) | _ => None end
  else if next =? 73 then match args with ArgLongLong n :: r => Some (sdec n, r) | _ => None end
  else if next =? 117 then match args with ArgUInt n :: r => Some (dec n, r) | _ => None end
  else if next =? 85 then match args with ArgULongLong n :: r => Some (dec n, r) | _ => None end
  else if next =? 84 then match args with ArgSize n :: r => Some (dec n, r) | _ => None end
  else Some ([next], args).

(** What a format and its arguments stand for. *)
Fixpoint render (fmt : bytes) (args : list fmt_arg) : option bytes :=
  match fmt with
  | [] => Some []
  | c :: f =>
      if c =? 37 then
        match f with
        | [] => None
        | next :: f' => '(t, args) ← fmt_text next args; app t <$> render f' args
        end
      else cons c <$> render f args
  end.

(** The arguments are what their C types allow, strings in memory that holds them. *)
Definition arg_ok (a : fmt_arg) : Prop :=
  match a with
  | ArgStr _ => True
  | ArgSds t => exists l, repr t l
  | ArgInt n => INT_MIN <= n <= INT_MAX
  | ArgLongLong n => LONG_MIN <= n <= LONG_MAX
  | ArgUInt n => 0 <= n < 2 ^ 32
  | ArgULongLong n | ArgSize n => 0 <= n < 2 ^ 64
  end.

Lemma cstr_Some b c : cstr b = Some c -> exists r, b = c ++ 0 :: r /\ 0 ∉ c.
Proof.
  revert c. induction b as [|x b IH]; intros c; simpl; [done|].
  destruct (Z.eqb_spec x 0) as [->|Hne]; [intros [= <-]; exists b; split; [done | set_solver]|].
  destruct (cstr b) as [c'|]; [|done]. intros [= <-]. destruct (IH c' eq_refl) as (r & -> & Hn).
  exists r. split; [done | set_solver].
Qed.

(** The bytes a directive copies, put behind the content. *)
Lemma fmt_put_text s l src t r (args : list fmt_arg) : has_memory -> raw s l -> src = t ++ r -> fits (zlen l + zlen t) ->
  exists s', ('(s, i) ← fmt_put s (zlen l) src (zlen t); Some (s, i, args)) = Some (s', zlen (l ++ t), args) /\
    raw s' (l ++ t).
Proof.
  intros Hm Hs -> Hf. destruct (fmt_put_spec s l (t ++ r) (zlen t) Hm Hs) as (s' & -> & Hr); [zl | done |].
  rewrite take_zlen_app in * by done. exists s'. done.
Qed.

Lemma fmt_directive_spec s l next args t r : has_memory -> raw s l -> 1 <= free s ->
  fmt_text next args = Some (t, r) -> Forall arg_ok args -> fits (zlen l + zlen t) ->
  exists s', fmt_directive s (zlen l) next args = Some (s', zlen (l ++ t), r) /\ raw s' (l ++ t) /\ Forall arg_ok r.
Proof.
  intros Hm Hs Hfree Htext Hargs Hf. unfold fmt_text in Htext. unfold fmt_directive.
  assert (zlen (replicate (Z.to_nat SDS_LLSTR_SIZE) junk) = SDS_LLSTR_SIZE) as Hb21 by done.
  assert (forall b k (rest : list fmt_arg), b = t ++ k -> Forall arg_ok rest ->
    exists s', ('(s, i) ← fmt_put s (zlen l) b (zlen t); Some (s, i, rest)) = Some (s', zlen (l ++ t), rest) /\
      raw s' (l ++ t) /\ Forall arg_ok rest) as Hput.
  { intros b k rest -> Hrest. destruct (fmt_put_text s l (t ++ k) t k rest Hm Hs eq_refl Hf) as (s' & ? & ?). eauto. }
  assert (forall num (rest : list fmt_arg), LONG_MIN <= num <= LONG_MAX -> t = sdec num -> Forall arg_ok rest ->
    exists s', ('(b, n) ← sdsll2str (replicate (Z.to_nat SDS_LLSTR_SIZE) junk) num;
      '(s, i) ← fmt_put s (zlen l) b n; Some (s, i, rest)) = Some (s', zlen (l ++ t), rest) /\
      raw s' (l ++ t) /\ Forall arg_ok rest) as Hsigned.
  { intros num rest Hr Et Hrest. destruct (sdsll2str_text _ num ltac:(by rewrite Hb21) Hr) as (x & -> & _). rewrite <- Et.
    by eapply Hput. }
  assert (forall num (rest : list fmt_arg), 0 <= num < 2 ^ 64 -> t = dec num -> Forall arg_ok rest ->
    exists s', ('(b, n) ← sdsull2str (replicate (Z.to_nat SDS_LLSTR_SIZE) junk) num;
      '(s, i) ← fmt_put s (zlen l) b n; Some (s, i, rest)) = Some (s', zlen (l ++ t), rest) /\
      raw s' (l ++ t) /\ Forall arg_ok rest) as Hunsigned.
  { intros num rest Hr Et Hrest. destruct (sdsull2str_spec _ num ltac:(by rewrite Hb21) Hr) as (x & -> & _). rewrite <- Et.
    by eapply Hput. }
  repeat match type of Htext with (if ?b then _ else _) = _ => destruct b eqn:?; cbn [orb] in * end;
    try (destruct args as [|[] args]; try done; apply Forall_cons in Hargs as [Ha Hargs]).
  - destruct (cstr _) as [c|] eqn:Ec; [|done]. injection Htext as <- <-.
    destruct (cstr_Some _ _ Ec) as (x & -> & _). cbn [mbind option_bind]. by eapply Hput.
  - injection Htext as <- <-. destruct Ha as [k Hk]. rewrite (sdslen_repr _ k Hk).
    destruct Hk as (x & Hbuf & Hlen & _). rewrite Hbuf, Hlen, take_zlen_app in * by done. by eapply Hput.
  - injection Htext as <- <-. cbn [mbind option_bind]. apply Hsigned; [|done|done].
    simpl in Ha. unfold INT_MIN, INT_MAX, LONG_MIN, LONG_MAX in *. lia.
  - injection Htext as <- <-. cbn [mbind option_bind]. by apply Hsigned.
  - injection Htext as <- <-. cbn [mbind option_bind]. apply Hunsigned; [|done|done]. simpl in Ha. lia.
  - injection Htext as <- <-. cbn [mbind option_bind]. by apply Hunsigned.
  - injection Htext as <- <-. cbn [mbind option_bind]. by apply Hunsigned.
  - injection Htext as <- <-. destruct (fmt_char_spec s l next Hs Hfree) as (s' & -> & Hs'). cbn [mbind option_bind].
    eauto.
Qed.

Lemma fmt_loop_spec : forall n fmt s l args out, (length fmt <= n)%nat -> has_memory -> raw s l ->
  render fmt args = Some out -> Forall arg_ok args -> fits (zlen l + zlen out + 1) ->
  exists s', fmt_loop fmt s (zlen l) args = Some (s', zlen (l ++ out)) /\ raw s' (l ++ out).
Proof.
  induction n as [|n IH]; intros fmt s l args out Hlen Hm Hs Hren Hargs Hf;
    (destruct fmt as [|c fmt]; [injection Hren as <-; rewrite app_nil_r; by exists s|]); simpl in Hlen; [lia|].
  cbn [render] in Hren. cbn [fmt_loop]. unfold fits, SDS_MAX_PREALLOC, INT_MAX in *.
  assert (exists s1, (if free s =? 0 then sdsMakeRoomFor s 1 else Some (Some s)) = Some (Some s1) /\
    raw s1 l /\ 1 <= free s1) as (s1 & -> & Hs1 & Hroom).
  { destruct (Z.eqb_spec (free s) 0).
    - apply ok_or_oom_mem; [done|]. apply raw_room; [done | lia | unfold fits, SDS_MAX_PREALLOC, INT_MAX; zlen_pos; lia].
    - exists s. split_and!; try done. destruct Hs as (t & _ & _ & _ & ? & _). lia. }
  destruct (c =? 37).
  - destruct fmt as [|next fmt]; [done|]. simpl in Hlen.
    destruct (fmt_text next args) as [[t args']|] eqn:Et; [|done]. cbn [mbind option_bind] in Hren.
    destruct (render fmt args') as [o|] eqn:Eo; [|done]. injection Hren as <-.
    destruct (fmt_directive_spec s1 l next args t args' Hm Hs1 Hroom Et Hargs) as (s2 & -> & Hs2 & Hargs');
      [unfold fits, SDS_MAX_PREALLOC, INT_MAX; zl|].
    cbn [mbind option_bind]. destruct (IH fmt s2 (l ++ t) args' o) as (s' & -> & Hs'); try done;
      [lia | unfold fits, SDS_MAX_PREALLOC, INT_MAX; zl |].
    rewrite <- app_assoc in *. eauto.
  - destruct (render fmt args) as [o|] eqn:Eo; [|done]. injection Hren as <-.
    destruct (fmt_char_spec s1 l c Hs1 Hroom) as (s2 & -> & Hs2). cbn [mbind option_bind].
    destruct (IH fmt s2 (l ++ [c]) args o) as (s' & -> & Hs'); try done;
      [lia | unfold fits, SDS_MAX_PREALLOC, INT_MAX; zl |].
    rewrite <- app_assoc in *. eauto.
Qed.

(** The text a format and its arguments stand for is appended. *)
Lemma sdscatfmt_render s l fmt args out : has_memory -> repr s l -> render fmt args = Some out ->
  Forall arg_ok args -> fits (zlen l + zlen out + 1) ->
  exists s', sdscatfmt s fmt args = Some s' /\ repr s' (l ++ out).
Proof.
  intros Hmem Hs Hren Hargs Hfit.
  unfold sdscatfmt. rewrite (sdslen_repr s l Hs).
  destruct (fmt_loop_spec (length fmt) fmt s l args out) as (s' & -> & t & Hb & Hl & Ht & Hf & Hm);
    try done; [by apply repr_raw|].
  cbn [mbind option_bind]. destruct t as [|x t]; [zl|]. rewrite Hb, wr_at by done. cbn [mbind option_bind].
  eexists. split; [done|]. exists t. cbn [buf len free]. split_and!; zl || done.
Qed.

(** When the format and the arguments agree, [sdscatfmt] appends the text they
    stand for (strings, integers of every width it supports, escaped bytes) and leaves a
    well-formed string, growing the buffer as often as needed. *)
Theorem sdscatfmt_spec (s : sds) (l fmt : bytes) (args : list fmt_arg) (out : bytes)
    (Hmem : has_memory) (Hs : repr s l) (Hren : render fmt args = Some out)
    (Hargs : Forall arg_ok args) (Hfit : fits (zlen l + zlen out + 1)) :
  exists s', sdscatfmt s fmt args = Some s' /\ repr s' (l ++ out).
Proof. by apply sdscatfmt_render. Qed.

(** *** Substrings *)

(** Moving bytes to the front and setting the new length. *)
Lemma repr_shrink s l a m b : repr s l -> l = a ++ m ++ b ->
  exists x, (if zlen a =? 0 then Some (buf s) else move_front (buf s) (zlen a) (zlen m)) = Some x /\
    exists y, wr x (zlen m) 0 = Some y /\
      repr (mk_sds (i32 (zlen m)) (i32 (u64 (free s + (len s - zlen m)))) y) m.
Proof.
  intros Hs ->. destruct (repr_range _ _ Hs) as (? & ? & ? & Hl).
  destruct Hs as (t & Hb & _ & Hfree & Hm). unfold INT_MAX in *.
  assert (exists x c r, (if zlen a =? 0 then Some (buf s) else move_front (buf s) (zlen a) (zlen m)) = Some x /\
    x = m ++ c :: r /\ zlen x = zlen (buf s)) as (x & c & r & -> & -> & Hx).
  { destruct (Z.eqb_spec (zlen a) 0) as [E|E].
    - destruct a; [|zl]. cbn [app] in *. destruct b as [|c b]; rewrite Hb.
      + exists (m ++ 0 :: t), 0, t. by rewrite app_nil_r.
      + exists (m ++ c :: b ++ 0 :: t), c, (b ++ 0 :: t). by rewrite <- app_assoc.
    - unfold move_front. rewrite Hb, decide_True by zl. rewrite <- !app_assoc.
      rewrite drop_app_exact by (unfold zlen; lia). rewrite take_app_exact by (unfold zlen; lia).
      rewrite wr_bytes_0 by zl.
      set (w := drop (Z.to_nat (zlen m)) (a ++ m ++ b ++ 0 :: t)).
      assert (zlen w = zlen a + zlen b + 1 + zlen t) as Hw by (unfold w; zl).
      destruct w as [|c r] eqn:Ew; [zl|]. exists (m ++ c :: r), c, r. split_and!; try done. zl. }
  eexists. split; [done|]. eexists. split; [by apply wr_at|].
  assert (zlen (buf s) = zlen a + zlen m + zlen b + 1 + zlen t) as Hbuf by (rewrite Hb; zl).
  exists r. cbn [buf len free]. unfold INT_MAX. rewrite Hl, Hfree in *. autorewrite with hivip in *. zlen_pos.
  rewrite uwrap_small, !i32_small by (unfold INT_MIN, INT_MAX; lia). split_and!; (done || lia).
Qed.

(** The inclusive range of [sdsrange], negative positions counted from the end. *)
Definition range_of (l : bytes) (start last : Z) : bytes :=
  let st := if start <? 0 then Z.max 0 (zlen l + start) else start in
  let en := if last <? 0 then Z.max 0 (zlen l + last) else last in
  take (Z.to_nat (en - st + 1)) (drop (Z.to_nat st) l).

(** A range of a sequence as a cut of it. *)
Lemma slice_cut (l : bytes) st n : 0 <= st -> 0 <= n -> st + n <= zlen l ->
  exists a m b, l = a ++ m ++ b /\ zlen a = st /\ zlen m = n /\ take (Z.to_nat n) (drop (Z.to_nat st) l) = m.
Proof.
  intros. destruct (cut_at l st) as (a & k & -> & Ha); [zlen_pos; lia|].
  destruct (cut_at k n) as (m & b & -> & Hm); [zl|]. exists a, m, b. split_and!; try done.
  rewrite drop_app_exact by (unfold zlen in *; lia). apply take_app_exact. unfold zlen in *; lia.
Qed.

(** The index arithmetic of [sdsrange] yields a range inside the string. *)
Lemma norm_index n i : 0 <= n <= INT_MAX -> INT_MIN <= i <= INT_MAX ->
  (if i <? 0 then let x := i32 (u64 (n + i)) in if x <? 0 then 0 else x else i) =
  (if i <? 0 then Z.max 0 (n + i) else i).
Proof.
  intros Hn Hi. destruct (Z.ltb_spec i 0); [|done]. cbv zeta.
  rewrite i32_u64 by (unfold INT_MIN, INT_MAX in *; lia).
  destruct (Z.ltb_spec (n + i) 0); lia.
Qed.

(** The last lines of [sdsrange]: the range that was computed is moved to the front. *)
Lemma range_finish s l st newlen : repr s l -> 0 <= st -> 0 <= newlen -> st + newlen <= zlen l ->
  exists s', (b ← (if negb (st =? 0) && negb (newlen =? 0) then move_front (buf s) st newlen else Some (buf s));
    b ← wr b newlen 0; Some (mk_sds (i32 newlen) (i32 (u64 (free s + (len s - newlen)))) b)) = Some s' /\
    repr s' (take (Z.to_nat newlen) (drop (Z.to_nat st) l)).
Proof.
  intros Hs K1 K2 K3. destruct (slice_cut l st newlen K1 K2 K3) as (a & m & b & El & Ha & Hm & Et).
  rewrite Et. destruct (decide (newlen = 0)) as [En|En].
  - destruct (repr_shrink s l [] [] l Hs eq_refl) as (x & Ex & y & Ey & Hr).
    destruct m; [|zl]. cbn in Ex. injection Ex as <-.
    subst newlen. rewrite Bool.andb_false_r. cbn [mbind option_bind]. rewrite Ey. eauto.
  - destruct (repr_shrink s l a m b Hs El) as (x & Ex & y & Ey & Hr). rewrite Ha, Hm in *.
    rewrite (proj2 (Z.eqb_neq newlen 0)) by done. rewrite Bool.andb_true_r.
    destruct (st =? 0); cbn [negb]; rewrite Ex; cbn [mbind option_bind]; rewrite Ey; eauto.
Qed.

Lemma sdsrange_cut s l start last : repr s l -> INT_MIN <= start <= INT_MAX -> INT_MIN <= last < INT_MAX ->
  exists s', sdsrange s start last = Some s' /\ repr s' (range_of l start last).
Proof.
  intros Hs Hstart Hlast. unfold sdsrange, range_of. rewrite (sdslen_repr s l Hs).
  destruct (repr_range s l Hs) as (? & ? & Hmax & Hl). rewrite Hl in Hmax. zlen_pos.
  destruct (Z.eqb_spec (zlen l) 0) as [E|E].
  { destruct l; [|zl]. exists s. rewrite drop_nil, take_nil. done. }
  rewrite !norm_index by lia. set (st := if start <? 0 then _ else start). set (en := if last <? 0 then _ else last).
  assert (0 <= st <= INT_MAX) by (unfold st; destruct (Z.ltb_spec start 0); lia).
  assert (0 <= en < INT_MAX \/ (0 <= en < zlen l)) by (unfold en; destruct (Z.ltb_spec last 0); lia).
  unfold INT_MIN, INT_MAX in *. rewrite !i32_small by (unfold INT_MIN, INT_MAX; lia).
  assert (forall newlen st', 0 <= st' -> 0 <= newlen -> st' + newlen <= zlen l ->
    take (Z.to_nat newlen) (drop (Z.to_nat st') l) = take (Z.to_nat (en - st + 1)) (drop (Z.to_nat st) l) ->
    exists s', (b ← (if negb (st' =? 0) && negb (newlen =? 0) then move_front (buf s) st' newlen else Some (buf s));
      b ← wr b newlen 0; Some (mk_sds (i32 newlen) (i32 (u64 (free s + (len s - newlen)))) b)) = Some s' /\
      repr s' (take (Z.to_nat (en - st + 1)) (drop (Z.to_nat st) l))) as Hfin.
  { intros newlen st' K1 K2 K3 <-. by apply range_finish. }
  destruct (Z.ltb_spec en st); [cbn [Z.eqb negb]|].
  - apply (Hfin 0 0); try lia. replace (Z.to_nat (en - st + 1)) with 0%nat by lia. done.
  - rewrite (proj2 (Z.eqb_neq (en - st + 1) 0)) by lia. cbn [negb].
    destruct (Z.leb_spec (zlen l) st); [|destruct (Z.leb_spec (zlen l) en)].
    + destruct (repr_shrink s l [] [] l Hs eq_refl) as (x & Ex & y & Ey & Hr). cbn in Ex. injection Ex as <-.
      rewrite Bool.andb_false_r. cbn [mbind option_bind]. change (zlen (@nil Z)) with 0 in *. rewrite Ey.
      cbn [mbind option_bind]. eexists. split; [done|].
      rewrite drop_ge by (unfold zlen in *; lia). by rewrite take_nil.
    + rewrite (proj2 (Z.ltb_ge (zlen l - 1) st)) by lia. apply (Hfin (zlen l - 1 - st + 1) st); try lia.
      rewrite !take_ge; [done | rewrite length_drop; unfold zlen in *; lia ..].
    + by apply (Hfin (en - st + 1) st); try lia.
Qed.

(** [sdsrange] keeps exactly the bytes of the inclusive range, with negative
    indexes counted from the end and out-of-range indexes clipped, and leaves a well-formed string. *)
Theorem sdsrange_spec (s : sds) (l : bytes) (start last : Z) (Hs : repr s l)
    (Hstart : INT_MIN <= start <= INT_MAX) (Hlast : INT_MIN <= last < INT_MAX) :
  exists s', sdsrange s start last = Some s' /\ repr s' (range_of l start last).
Proof. by apply sdsrange_cut. Qed.

(** *** Trimming *)

Lemma trim_left_spec cset a : forall f b pre y last, b = pre ++ a ++ y -> Forall (fun c => strchr cset c = true) a ->
  zlen pre + zlen a - 1 <= last ->
  (last < zlen pre + zlen a \/ exists c y', y = c :: y' /\ strchr cset c = false) ->
  (length a < f)%nat -> trim_left f b cset (zlen pre) last = Some (zlen pre + zlen a).
Proof.
  induction a as [|x a IH]; intros [|f] b pre y last Hb HF Hl Hy Hf; simpl in Hf; try lia; cbn [trim_left].
  - cbn [app] in Hb. rewrite zlen_nil, Z.add_0_r in *. destruct (Z.leb_spec (zlen pre) last); [|done].
    destruct Hy as [?|(c & y' & -> & Hc)]; [lia|]. rewrite Hb, (rd_at pre y' c) by done. cbn [mbind option_bind].
    by rewrite Hc.
  - apply Forall_cons in HF as [Hx HF]. rewrite (proj2 (Z.leb_le _ _)) by zl.
    rewrite Hb. cbn [app]. rewrite (rd_at pre (a ++ y) x) by done. cbn [mbind option_bind]. rewrite Hx.
    replace (zlen pre + 1) with (zlen (pre ++ [x])) by zl.
    rewrite (IH f _ (pre ++ [x]) y); try done; [f_equal; zl | by rewrite <- app_assoc | zl | | lia].
    destruct Hy as [?|?]; [left; zl | by right].
Qed.

Lemma trim_right_spec cset r : forall f b pre x rest, b = pre ++ x :: r ++ rest ->
  Forall (fun c => strchr cset c = true) r -> (pre = [] \/ strchr cset x = false) ->
  (length r < f)%nat -> trim_right f b cset (zlen pre + zlen r) = Some (zlen pre).
Proof.
  induction r as [|c r IH] using rev_ind; intros [|f] b pre x rest Hb HF Hx Hf;
    rewrite ?length_app in Hf; simpl in Hf; try lia; cbn [trim_right].
  - replace (zlen pre + zlen (@nil Z)) with (zlen pre) by zl. destruct (Z.ltb_spec 0 (zlen pre)); [|done].
    destruct Hx as [->|Hx]; [zl|]. rewrite Hb, (rd_at pre _ x) by done. cbn [mbind option_bind]. by rewrite Hx.
  - apply Forall_app in HF as [HF Hc]. apply Forall_cons in Hc as [Hc _]. rewrite (proj2 (Z.ltb_lt _ _)) by zl.
    assert (b = (pre ++ x :: r) ++ c :: rest) as Eb by (rewrite Hb, <- !app_assoc; done).
    rewrite Eb at 1. rewrite (rd_at (pre ++ x :: r) rest c) by zl. cbn [mbind option_bind]. rewrite Hc.
    replace (zlen pre + zlen (r ++ [c]) - 1) with (zlen pre + zlen r) by zl.
    rewrite (IH f b pre x (c :: rest)); try done; [by rewrite Eb, <- app_assoc | lia].
Qed.

(** The decomposition of a string at the first and the last byte outside the set. *)
Lemma trim_split cset (l : bytes) :
  Forall (fun c => strchr cset c = true) l \/
  exists a m b, l = a ++ m ++ b /\ Forall (fun c => strchr cset c = true) a /\
    Forall (fun c => strchr cset c = true) b /\
    (exists c m', m = c :: m' /\ strchr cset c = false) /\ (exists m' c, m = m' ++ [c] /\ strchr cset c = false).
Proof.
  induction l as [|x l IH]; [by left|]. destruct IH as [HF|(a & m & b & -> & Ha & Hb & Hf & Hl)].
  - destruct (strchr cset x) eqn:Ex; [left; by constructor|]. right. exists [], [x], l.
    split_and!; try done; [by exists x, [] | by exists [], x].
  - right. destruct (strchr cset x) eqn:Ex.
    + exists (x :: a), m, b. split_and!; try done. by constructor.
    + exists [], (x :: a ++ m), b. split_and!; try done.
      * cbn [app]. by rewrite <- app_assoc.
      * by exists x, (a ++ m).
      * destruct Hl as (m' & c & -> & Hc). exists (x :: a ++ m'), c. split; [|done]. cbn [app]. by rewrite <- app_assoc.
Qed.

(** [sdstrim] removes the longest prefix and the longest suffix made of bytes of
    the set, and nothing else. *)
Theorem sdstrim_spec (s : sds) (l cset : bytes) (Hs : repr s l) :
  exists s' a m b, sdstrim s cset = Some s' /\ repr s' m /\ l = a ++ m ++ b /\
    Forall (fun c => strchr cset c = true) a /\ Forall (fun c => strchr cset c = true) b /\
    (forall c m', m = c :: m' -> strchr cset c = false) /\
    (forall c m', m = m' ++ [c] -> strchr cset c = false).
Proof.
  unfold sdstrim. rewrite (sdslen_repr s l Hs). pose proof Hs as (t & Hb & _).
  assert (length (buf s) = (length l + S (length t))%nat) as HL by (rewrite Hb, length_app; done).
  destruct (trim_split cset l) as [HF|(a & m & b & El & Ha & Hbf & (c & m1 & Em1 & Hc) & (m2 & d & Em2 & Hd))].
  - assert (trim_left (S (length (buf s))) (buf s) cset 0 (zlen l - 1) = Some (zlen l)) as ->
      by (apply (trim_left_spec cset l _ (buf s) [] (0 :: t)); [done | done | zl | left; zl | lia]).
    cbn [mbind option_bind].
    assert (exists ep, trim_right (S (length (buf s))) (buf s) cset (zlen l - 1) = Some ep /\ ep < zlen l) as (ep & -> & Hep).
    { destruct l as [|x r]; [by exists (-1)|]. apply Forall_cons in HF as [_ HF].
      exists 0. split; [|zl]. replace (zlen (x :: r) - 1) with (zlen (@nil Z) + zlen r) by zl.
      apply (trim_right_spec cset r _ (buf s) [] x (0 :: t)); [done | done | by left | simpl in HL; lia]. }
    cbn [mbind option_bind]. rewrite (proj2 (Z.ltb_lt _ _)) by done.
    destruct (repr_shrink s l l [] [] Hs) as (x & Ex & y & Ey & Hr); [by rewrite !app_nil_r|].
    change (zlen (@nil Z)) with 0 in *. rewrite Ex. cbn [mbind option_bind]. rewrite Ey. cbn [mbind option_bind].
    eexists _, l, [], []. split; [done|]. split; [done|]. rewrite !app_nil_r. split_and!; try done.
    by intros ? [].
  - assert (trim_left (S (length (buf s))) (buf s) cset 0 (zlen l - 1) = Some (zlen a)) as ->.
    { apply (trim_left_spec cset a _ (buf s) [] (m ++ b ++ 0 :: t)); [|done| |right|].
      - by rewrite Hb, El, <- !app_assoc.
      - rewrite El, Em1. zl.
      - rewrite Em1. by eexists _, _.
      - rewrite El, !length_app in HL. lia. }
    cbn [mbind option_bind].
    assert (trim_right (S (length (buf s))) (buf s) cset (zlen l - 1) = Some (zlen (a ++ m2))) as ->.
    { replace (zlen l - 1) with (zlen (a ++ m2) + zlen b) by (rewrite El, Em2; zl).
      apply (trim_right_spec cset b _ (buf s) (a ++ m2) d (0 :: t)); [|done|by right|].
      - by rewrite Hb, El, Em2, <- !app_assoc.
      - rewrite El, !length_app in HL. lia. }
    cbn [mbind option_bind].
    rewrite (proj2 (Z.ltb_ge _ _)) by zl. replace (zlen (a ++ m2) - zlen a + 1) with (zlen m) by (rewrite Em2; zl).
    destruct (repr_shrink s l a m b Hs El) as (x & Ex & y & Ey & Hr). rewrite Ex. cbn [mbind option_bind].
    rewrite Ey. cbn [mbind option_bind]. eexists _, a, m, b. split; [done|]. split_and!; try done.
    + intros c' m' E'. congruence.
    + intros c' m' E'. rewrite Em2 in E'. by apply app_inj_tail in E' as [_ <-].
Qed.

(** *** Characters *)

Lemma map_loop_spec f l : forall pre r, map_loop (length l) f (zlen pre) (pre ++ l ++ r) = Some (pre ++ map f l ++ r).
Proof.
  induction l as [|c l IH]; intros pre r; [done|]. cbn [length map_loop app map].
  rewrite (rd_at pre (l ++ r) c) by done. cbn [mbind option_bind].
  rewrite (wr_at pre (l ++ r) c) by done. cbn [mbind option_bind].
  specialize (IH (pre ++ [f c]) r). rewrite <- !app_assoc in IH. cbn [app] in IH.
  replace (zlen pre + 1) with (zlen (pre ++ [f c])) by zl. done.
Qed.

Lemma map_repr s l f : repr s l -> exists b, map_loop (length l) f 0 (buf s) = Some b /\
  repr (mk_sds (len s) (free s) b) (map f l).
Proof.
  intros (t & Hb & Hl & Hf & Hm). eexists. split; [rewrite Hb; apply (map_loop_spec f l [])|].
  exists t. cbn [buf len free app]. split_and!; zl || done.
Qed.

Lemma sdstolower_spec s l : repr s l -> exists s', sdstolower s = Some s' /\ repr s' (map tolower l).
Proof.
  intros Hs. unfold sdstolower. rewrite (sdslen_repr s l Hs). destruct (repr_range s l Hs) as (? & ? & ? & Hl).
  rewrite i32_small by (unfold INT_MIN, INT_MAX in *; lia).
  destruct (map_repr s l tolower Hs) as (b & Eb & Hr). replace (Z.to_nat (zlen l)) with (length l) by (unfold zlen; lia).
  rewrite Eb. eauto.
Qed.

Lemma sdstoupper_spec s l : repr s l -> exists s', sdstoupper s = Some s' /\ repr s' (map toupper l).
Proof.
  intros Hs. unfold sdstoupper. rewrite (sdslen_repr s l Hs). destruct (repr_range s l Hs) as (? & ? & ? & Hl).
  rewrite i32_small by (unfold INT_MIN, INT_MAX in *; lia).
  destruct (map_repr s l toupper Hs) as (b & Eb & Hr). replace (Z.to_nat (zlen l)) with (length l) by (unfold zlen; lia).
  rewrite Eb. eauto.
Qed.

Lemma sdsmapchars_spec s l from to : repr s l -> zlen from = zlen to ->
  exists s', sdsmapchars s from to (zlen from) = Some s' /\ repr s' (map (map_char from to) l).
Proof.
  intros Hs Hft. unfold sdsmapchars. rewrite (sdslen_repr s l Hs), Hft, Z.ltb_irrefl. cbn [orb].
  destruct (map_repr s l (map_char from to) Hs) as (b & Eb & Hr).
  replace (Z.to_nat (zlen l)) with (length l) by (unfold zlen; lia).
  rewrite !take_ge by (unfold zlen in *; lia). rewrite Eb. eauto.
Qed.

(** *** Comparison *)

Fixpoint lex_lt (a b : bytes) : bool :=
  match a, b with
  | _, [] => false
  | [], _ :: _ => true
  | x :: a', y :: b' => (x <? y) || ((x =? y) && lex_lt a' b')
  end.

Lemma memcmp_spec a ra b rb :
  exists c, memcmp (Nat.min (length a) (length b)) (a ++ ra) (b ++ rb) = Some c /\
    (if c =? 0 then exists k, a = b ++ k \/ b = a ++ k else (c <? 0) = lex_lt a b /\ a <> b).
Proof.
  revert b. induction a as [|x a IH]; intros b; [exists 0; split; [done | exists b; by right]|].
  destruct b as [|y b]; [exists 0; split; [done | exists (x :: a); by left]|].
  cbn [length Nat.min app memcmp lex_lt]. destruct (Z.eqb_spec x y) as [->|Hne].
  - destruct (IH b) as (c & -> & Hc). exists c. split; [done|]. destruct (c =? 0).
    + destruct Hc as [k [->| ->]]; exists k; [by left | by right].
    + rewrite Z.ltb_irrefl. destruct Hc as [-> ?]. split; [done | congruence].
  - exists (x - y). split; [done|]. rewrite (proj2 (Z.eqb_neq (x - y) 0)) by lia. cbn [andb]. rewrite Bool.orb_false_r.
    split; [|congruence]. destruct (Z.ltb_spec (x - y) 0), (Z.ltb_spec x y); lia || done.
Qed.

Lemma lex_lt_prefix a k : lex_lt a (a ++ k) = negb (zlen k =? 0) /\ lex_lt (a ++ k) a = false.
Proof.
  induction a as [|x a IH]; cbn [app lex_lt].
  - destruct k; [done|]. split; [|done]. symmetry. apply Bool.negb_true_iff, Z.eqb_neq. zl.
  - rewrite Z.ltb_irrefl, Z.eqb_refl. done.
Qed.

(** [sdscmp] decides equality and the lexicographic order of the contents. *)
Lemma sdscmp_spec s1 s2 l1 l2 : repr s1 l1 -> repr s2 l2 ->
  exists r, sdscmp s1 s2 = Some r /\ (r = 0 <-> l1 = l2) /\ (r <? 0) = lex_lt l1 l2.
Proof.
  intros Hs1 Hs2. unfold sdscmp. rewrite (sdslen_repr s1 l1 Hs1), (sdslen_repr s2 l2 Hs2).
  destruct (repr_range s1 l1 Hs1) as (_ & ? & ? & ?), (repr_range s2 l2 Hs2) as (_ & ? & ? & ?).
  destruct Hs1 as (t1 & -> & _), Hs2 as (t2 & -> & _).
  replace (Z.to_nat (if zlen l1 <? zlen l2 then zlen l1 else zlen l2)) with (Nat.min (length l1) (length l2))
    by (unfold zlen; destruct (Z.ltb_spec (Z.of_nat (length l1)) (Z.of_nat (length l2))); lia).
  destruct (memcmp_spec l1 (0 :: t1) l2 (0 :: t2)) as (c & -> & Hc). cbn [mbind option_bind].
  destruct (c =? 0) eqn:Ec; [|apply Z.eqb_neq in Ec].
  - eexists. split; [done|]. zlen_pos. rewrite i32_u64 by (unfold INT_MIN, INT_MAX in *; lia).
    destruct Hc as [k [->| ->]]; [destruct (lex_lt_prefix l2 k) as [_ ->] | destruct (lex_lt_prefix l1 k) as [-> _]].
    + autorewrite with hivip. zlen_pos. split; [|destruct (Z.ltb_spec (zlen l2 + zlen k - zlen l2) 0); lia || done].
      split; [|intros E; assert (zlen (l2 ++ k) = zlen l2) by (by rewrite E); zl].
      intros. destruct k; [by rewrite app_nil_r | zl].
    + autorewrite with hivip. zlen_pos. split.
      * split; [|intros E; assert (zlen (l1 ++ k) = zlen l1) by (by rewrite <- E); zl]. intros. destruct k; [by rewrite app_nil_r | zl].
      * destruct (Z.ltb_spec (zlen l1 - (zlen l1 + zlen k)) 0), (Z.eqb_spec (zlen k) 0); lia || done.
  - destruct Hc as [Hlt Hd]. exists c. split; [done|]. split; [|done]. done.
Qed.

(** *** Splitting and joining *)

Fixpoint join_bytes (sep : bytes) (ts : list bytes) : bytes :=
  match ts with
  | [] => []
  | t :: ts' => match ts' with [] => t | _ :: _ => t ++ sep ++ join_bytes sep ts' end
  end.

(** The separator does not occur in a token. *)
Definition sep_free (sep t : bytes) : Prop := forall a b, t <> a ++ sep ++ b.

Lemma join_bytes_snoc sep ts t : join_bytes sep (ts ++ [t]) = flat_map (fun x => x ++ sep) ts ++ t.
Proof.
  induction ts as [|x ts IH]; [done|]. cbn [app join_bytes flat_map].
  destruct (ts ++ [t]) as [|y ys] eqn:E; [by destruct ts|]. by rewrite IH, <- !app_assoc.
Qed.

Lemma memcmp_eq n : forall a b, (n <= length a)%nat -> (n <= length b)%nat ->
  exists c, memcmp n a b = Some c /\ (c =? 0) = bool_decide (take n a = take n b).
Proof.
  induction n as [|n IH]; intros a b Ha Hb; [by exists 0|].
  destruct a as [|x a], b as [|y b]; simpl in Ha, Hb; try lia. cbn [memcmp take].
  destruct (Z.eqb_spec x y) as [->|Hne].
  - destruct (IH a b) as (c & -> & Hc); [lia | lia |]. exists c. split; [done|]. rewrite Hc.
    apply bool_decide_ext. split; [by intros -> | by intros [= ->]].
  - exists (x - y). split; [done|]. rewrite bool_decide_false by congruence. apply Z.eqb_neq. lia.
Qed.

(** The test of the inner loop of [sdssplitlen] decides whether the separator is at [j]. *)
Lemma sep_test (R rest sep : bytes) : 1 <= zlen sep -> zlen sep <= zlen R ->
  exists c c0 cmp, rd (R ++ rest) 0 = Some c /\ rd sep 0 = Some c0 /\
    memcmp (length sep) (R ++ rest) sep = Some cmp /\
    ((zlen sep =? 1) && (c =? c0)) || (cmp =? 0) = bool_decide (take (length sep) R = sep).
Proof.
  intros Hsep HR. destruct sep as [|c0 sep]; [zl|]. destruct R as [|c R]; [zl|].
  destruct (memcmp_eq (length (c0 :: sep)) ((c :: R) ++ rest) (c0 :: sep)) as (cmp & E & Hc);
    [rewrite length_app; unfold zlen in HR; lia | done |].
  rewrite (take_ge (c0 :: sep)) in Hc by done. rewrite take_app_le in Hc by (unfold zlen in HR; lia).
  exists c, c0, cmp. split_and!; try done. rewrite Hc.
  destruct (Z.eqb_spec (zlen (c0 :: sep)) 1) as [E1|E1]; [|done]. destruct sep; [|zl]. simpl.
  destruct (Z.eqb_spec c c0) as [->|Hne]; [by rewrite bool_decide_true|]. by rewrite Bool.orb_false_l.
Qed.

(** A token copied out of the source. *)
Lemma token_spec (P T R : bytes) l : has_memory -> zlen T <= INT_MAX -> l = zlen T ->
  exists t, sdsnewlen (Some (drop (Z.to_nat (zlen P)) (P ++ T ++ R))) l = Some (Some t) /\ repr t T.
Proof.
  intros Hm HT ->. rewrite drop_app_exact by (unfold zlen; lia).
  destruct (ok_or_oom_mem _ _ Hm (sdsnewlen_spec (T ++ R) (zlen T) ltac:(zl) ltac:(zl))) as (t & -> & Hr & _).
  rewrite take_zlen_app in Hr by done. eauto.
Qed.

Lemma split_loop_spec sep rest : has_memory -> 1 <= zlen sep -> forall f P T R slots toks ts,
  zlen (P ++ T ++ R) <= INT_MAX -> (length R < f)%nat -> Forall2 repr toks ts -> Forall (sep_free sep) ts ->
  P = flat_map (fun x => x ++ sep) ts -> (forall a b, T ++ R = a ++ sep ++ b -> zlen T <= zlen a) ->
  exists toks' ts',
    split_loop f ((P ++ T ++ R) ++ rest) (zlen (P ++ T ++ R)) sep (zlen sep) slots (zlen P) (zlen P + zlen T) toks =
      Some (Some toks') /\
    Forall2 repr toks' ts' /\ Forall (sep_free sep) ts' /\ join_bytes sep ts' = P ++ T ++ R.
Proof.
  intros Hmem Hsep. induction f as [|f IH]; intros P T R slots toks ts Hmax Hf Htoks Hfree HP Hno; [lia|].
  cbn [split_loop]. destruct (Z.ltb_spec (zlen P + zlen T) (zlen (P ++ T ++ R) - (zlen sep - 1))) as [Hj|Hj].
  - assert (zlen sep <= zlen R) as HR by zl. rewrite Hmem. cbn [negb]. rewrite Bool.andb_false_r.
    set (slots' := if slots <? zlen toks + 2 then slots * 2 else slots).
    destruct (sep_test R rest sep Hsep HR) as (c & c0 & cmp & Ec & Ec0 & Ecmp & Htest).
    assert (rd ((P ++ T ++ R) ++ rest) (zlen P + zlen T) = Some c) as ->.
    { rewrite <- !app_assoc, app_assoc. rewrite rd_app_r by zl. rewrite <- Ec. f_equal. zl. }
    rewrite Ec0. cbn [mbind option_bind].
    replace (drop (Z.to_nat (zlen P + zlen T)) ((P ++ T ++ R) ++ rest)) with (R ++ rest)
      by (rewrite <- !app_assoc, app_assoc, drop_app_exact; [done | rewrite length_app; unfold zlen; lia]).
    replace (Z.to_nat (zlen sep)) with (length sep) by (unfold zlen; lia). rewrite Ecmp. cbn [mbind option_bind].
    rewrite Htest. case_bool_decide as Hm.
    + assert (exists R', R = sep ++ R') as [R' ->] by (exists (drop (length sep) R); by rewrite <- Hm at 1; rewrite take_drop).
      rewrite <- (app_assoc P), <- (app_assoc T).
      destruct (token_spec P T ((sep ++ R') ++ rest) (zlen P + zlen T - zlen P) Hmem) as (t & -> & Ht); [zl | lia |].
      destruct (IH (P ++ T ++ sep) [] R' slots' (toks ++ [t]) (ts ++ [T])) as (toks' & ts' & E & H2 & H3 & H4).
      * zl.
      * rewrite length_app in Hf. unfold zlen in Hsep. lia.
      * by apply Forall2_app; [|constructor].
      * apply Forall_app. split; [done|]. constructor; [|done]. intros a b ->.
        specialize (Hno a (b ++ sep ++ R')). rewrite <- !app_assoc in Hno. specialize (Hno eq_refl). zl.
      * rewrite flat_map_app, <- HP. cbn [flat_map]. by rewrite app_nil_r.
      * intros a b _. zl.
      * exists toks', ts'. rewrite <- !app_assoc in *. cbn [app] in *. split_and!; try done.
        rewrite <- E. f_equal; zl.
    + destruct R as [|x R]; [zl|]. destruct (IH P (T ++ [x]) R slots' toks ts) as (toks' & ts' & E & H2 & H3 & H4); try done.
      * zl.
      * simpl in Hf. lia.
      * intros a b E. rewrite <- app_assoc in E. cbn [app] in E. pose proof (Hno a b E) as Ha.
        destruct (decide (zlen a = zlen T)) as [El|]; [|zl]. exfalso. apply Hm.
        apply app_inj_1 in E as [_ E]; [|unfold zlen in El; lia]. rewrite E. by apply take_app_length.
      * exists toks', ts'. rewrite <- !app_assoc in *. cbn [app] in *. split_and!; try done.
        rewrite <- E. f_equal; zl.
  - rewrite <- (app_assoc P).
    destruct (token_spec P (T ++ R) rest (zlen (P ++ T ++ R) - zlen P) Hmem) as (t & -> & Ht); [zl | zl |].
    exists (toks ++ [t]), (ts ++ [T ++ R]). split; [done|]. split; [by apply Forall2_app; [|constructor]|]. split.
    + apply Forall_app. split; [done|]. constructor; [|done]. intros a b E. pose proof (Hno a b E).
      assert (zlen (T ++ R) = zlen (a ++ sep ++ b)) by (by rewrite E). zl.
    + by rewrite join_bytes_snoc, <- HP.
Qed.

Lemma join_loop_spec sep ts : forall j pre argv, has_memory -> repr j pre -> Forall2 repr argv ts ->
  fits (zlen pre + zlen (join_bytes sep ts)) ->
  exists j', join_loop sdscatsds j argv sep (zlen sep) = Some j' /\ repr j' (pre ++ join_bytes sep ts).
Proof.
  induction ts as [|t ts IH]; intros j pre argv Hm Hj Hargs Hf.
  { inversion_clear Hargs. exists j. rewrite app_nil_r. done. }
  apply Forall2_cons_inv_r in Hargs as (a & argv' & Ha & Hargs & ->). cbn [join_loop].
  assert (zlen t <= zlen (join_bytes sep (t :: ts))) as Hle by (destruct ts; cbn [join_bytes]; zl).
  destruct (ok_or_oom_mem _ _ Hm (sdscatsds_spec j pre a t Hj Ha ltac:(destruct Hf; split; zlen_pos; lia)))
    as (j1 & -> & Hj1).
  destruct ts as [|t2 ts]; [inversion_clear Hargs; eauto|].
  apply Forall2_cons_inv_r in Hargs as (a2 & argv2 & Ha2 & Hargs & ->).
  change (join_bytes sep (t :: t2 :: ts)) with (t ++ sep ++ join_bytes sep (t2 :: ts)) in *.
  destruct (ok_or_oom_mem _ _ Hm (sdscatlen_spec j1 (pre ++ t) sep (zlen sep) Hj1 ltac:(zl)
    ltac:(destruct Hf; split; zl))) as (j2 & -> & Hj2).
  rewrite take_ge in Hj2 by (unfold zlen; lia).
  destruct (IH j2 ((pre ++ t) ++ sep) (a2 :: argv2) Hm Hj2) as (j' & E & Hr); [by constructor | destruct Hf; split; zl |].
  exists j'. split; [exact E|]. by rewrite <- !app_assoc in Hr.
Qed.

(** [sdssplitlen] cuts a non-empty string at a separator into tokens that do not
    contain it, and [sdsjoinsds] of the tokens with the separator gives the string back. *)
Theorem sdssplit_join (src rest sep : bytes)
    (Hmem : has_memory) (Hsrc : 1 <= zlen src) (Hsep : 1 <= zlen sep) (Hfit : fits (zlen src)) :
  exists toks ts j, sdssplitlen (src ++ rest) (zlen src) sep (zlen sep) = Some (Some toks) /\
    Forall2 repr toks ts /\ Forall (sep_free sep) ts /\ join_bytes sep ts = src /\
    sdsjoinsds toks sep (zlen sep) = Some j /\ repr j src.
Proof.
  destruct (split_loop_spec sep rest Hmem Hsep (S (Z.to_nat (zlen src))) [] [] src 5 [] []) as (toks & ts & E & Hr & Hf & Hj);
    try done; [unfold fits, SDS_MAX_PREALLOC, INT_MAX in *; cbn [app]; lia | unfold zlen; lia | intros a b _; zl |].
  cbn [app] in *. destruct (ok_or_oom_mem _ _ Hmem sdsempty_spec) as (e & Ee & He).
  destruct (join_loop_spec sep ts e [] toks Hmem He Hr) as (j & Ej & Hrj); [by rewrite Hj|].
  exists toks, ts, j. split; [|split_and!; try done].
  - unfold sdssplitlen. rewrite (proj2 (Z.ltb_ge (zlen sep) 1)), (proj2 (Z.ltb_ge (zlen src) 0)) by lia.
    rewrite Hmem, (proj2 (Z.eqb_neq (zlen src) 0)) by lia. exact E.
  - unfold sdsjoinsds. by rewrite Ee.
  - by rewrite <- Hj.
Qed.

(** *** Quoted representation *)

(** The text for one byte. *)
Definition quote (c : Z) : bytes :=
  if (c =? 92) || (c =? 34) then [92; c]
  else if c =? 10 then [92; 110]
  else if c =? 13 then [92; 114]
  else if c =? 9 then [92; 116]
  else if c =? 7 then [92; 97]
  else if c =? 8 then [92; 98]
  else if isprint c then [c]
  else [92; 120; hex_digit (c / 16); hex_digit (c mod 16)].

Lemma hex_digits_range c : is_byte c -> 0 <= c / 16 < 16 /\ 0 <= c mod 16 < 16 /\ c = c / 16 * 16 + c mod 16.
Proof.
  unfold is_byte. intros. pose proof (Z.mod_pos_bound c 16). pose proof (Z.div_mod c 16).
  assert (0 <= c / 16) by (apply Z.div_pos; lia). assert (c / 16 < 16) by (apply Z.div_lt_upper_bound; lia). lia.
Qed.

Lemma hex_digit_spec n : 0 <= n < 16 ->
  is_hex_digit (hex_digit n) = true /\ hex_digit_to_int (hex_digit n) = n /\ hex_digit n <> 0.
Proof.
  intros Hn. unfold is_hex_digit, hex_digit_to_int, hex_digit.
  destruct (Z.ltb_spec n 10); repeat case_match; lia.
Qed.

Lemma quote_no_nul c : is_byte c -> (0 ∉ quote c) /\ zlen (quote c) <= 4.
Proof.
  intros Hc. destruct (hex_digits_range c Hc) as (H1 & H2 & _).
  pose proof (hex_digit_spec _ H1) as (_ & _ & ?). pose proof (hex_digit_spec _ H2) as (_ & _ & ?).
  unfold quote, isprint. repeat case_match; (split; [rewrite ?not_elem_of_cons; split_and?; (lia || set_solver) | zl]).
Qed.

Lemma catrepr_char_spec s l c : is_byte c -> repr s l -> fits (zlen l + 4) ->
  ok_or_oom (catrepr_char s c) (fun s' => repr s' (l ++ quote c)).
Proof.
  intros Hc Hs Hf. destruct (quote_no_nul c Hc) as [Hn Hlen].
  assert (ok_or_oom (sdscatprintf s (quote c)) (fun s' => repr s' (l ++ quote c))) as Hp
    by (apply sdscatprintf_spec; [done | done | destruct Hf; split; zlen_pos; lia]).
  assert (ok_or_oom (sdscatlen s (quote c) (zlen (quote c))) (fun s' => repr s' (l ++ quote c))) as Hq.
  { eapply ok_or_oom_impl; [apply sdscatlen_spec; [done | zlen_pos; lia | destruct Hf; split; zlen_pos; lia]|].
    intros s'. by rewrite take_ge by (unfold zlen; lia). }
  unfold catrepr_char. unfold quote in *. repeat case_match; assumption.
Qed.

Lemma catrepr_loop_spec p : forall s l, has_memory -> Forall is_byte p -> repr s l -> fits (zlen l + 4 * zlen p + 1) ->
  exists s', catrepr_loop s p = Some (Some s') /\ repr s' (l ++ flat_map quote p ++ [34]).
Proof.
  induction p as [|c p IH]; intros s l Hm Hb Hs Hf; cbn [catrepr_loop flat_map].
  - apply ok_or_oom_mem; [done|]. apply (sdscatlen_spec s l [34] 1); [done | zl | destruct Hf; split; zl].
  - apply Forall_cons in Hb as [Hc Hb]. destruct (quote_no_nul c Hc) as [_ Hq].
    destruct (ok_or_oom_mem _ _ Hm (catrepr_char_spec s l c Hc Hs ltac:(destruct Hf; split; zl))) as (s1 & -> & Hs1).
    destruct (IH s1 (l ++ quote c) Hm Hb Hs1) as (s' & E & Hr); [destruct Hf; split; zl|].
    exists s'. split; [done|]. by rewrite <- !app_assoc in *.
Qed.

(** In quotes, the text for a byte is read back as that byte. *)
Lemma round_quote c k : is_byte c -> token_round InQ (quote c ++ k) = Append c (length (quote c)).
Proof.
  intros Hc. destruct (hex_digits_range c Hc) as (H1 & H2 & Hsum).
  destruct (hex_digit_spec _ H1) as (I1 & V1 & _), (hex_digit_spec _ H2) as (I2 & V2 & _).
  unfold quote. repeat case_match; subst; cbn [app token_round length];
    unfold token_round, peek; cbn [lookup list_lookup app].
  - apply Bool.orb_true_iff in H0 as [->%Z.eqb_eq| ->%Z.eqb_eq]; done.
  - apply Z.eqb_eq in H3 as ->. done.
  - apply Z.eqb_eq in H4 as ->. done.
  - apply Z.eqb_eq in H5 as ->. done.
  - apply Z.eqb_eq in H6 as ->. done.
  - apply Z.eqb_eq in H7 as ->. done.
  - apply Bool.orb_false_iff in H0 as [-> ->]. cbn [andb]. unfold isprint in H8.
    rewrite (proj2 (Z.eqb_neq c 0)) by lia. done.
  - rewrite I1, I2, V1, V2. cbn [Z.eqb Pos.eqb andb]. f_equal. rewrite <- Hsum. apply uwrap_small. unfold is_byte in Hc. lia.
Qed.

Lemma token_loop_spec p : forall f cur l, has_memory -> Forall is_byte p -> repr cur l -> fits (zlen l + zlen p) ->
  (length p < f)%nat ->
  exists t, token_loop f InQ cur (flat_map quote p ++ [34]) = Some (Some (t, [])) /\ repr t (l ++ p).
Proof.
  induction p as [|c p IH]; intros [|f] cur l Hm Hb Hcur Hf Hfuel; simpl in Hfuel; try lia; cbn [token_loop flat_map].
  - exists cur. rewrite app_nil_r. done.
  - apply Forall_cons in Hb as [Hc Hb]. rewrite <- app_assoc, round_quote by done.
    destruct (ok_or_oom_mem _ _ Hm (sdscatlen_spec cur l [c] 1 Hcur ltac:(zl) ltac:(destruct Hf; split; zl)))
      as (cur' & -> & Hcur'). rewrite drop_app_length.
    destruct (IH f cur' (l ++ [c])) as (t & -> & Ht); try done; [destruct Hf; split; zl | lia |].
    exists t. split; [done|]. by rewrite <- app_assoc in Ht.
Qed.

Lemma token_open f cur k : token_loop (S f) Unquoted cur (34 :: k) = token_loop f InQ cur k.
Proof. cbn [token_loop]. cbn. by rewrite drop_0. Qed.

(** The quoted text has no NUL and is at least as long as the string. *)
Lemma flat_quote p : Forall is_byte p -> (0 ∉ flat_map quote p) /\ (length p <= length (flat_map quote p))%nat.
Proof.
  induction p as [|c p IH]; intros Hb; [split; [set_solver | done]|]. apply Forall_cons in Hb as [Hc Hb].
  destruct (IH Hb), (quote_no_nul c Hc). cbn [flat_map]. rewrite length_app. split; [set_solver|].
  assert (1 <= length (quote c))%nat; [|simpl; lia]. unfold quote. repeat case_match; simpl; lia.
Qed.

(** C40: what [sdscatrepr] prints for a byte string, [sdssplitargs] reads back as one
    argument with exactly these bytes, for every byte string that fits. *)
Theorem sdscatrepr_splitargs (e : sds) (p : bytes)
    (Hmem : has_memory) (Hp : Forall is_byte p) (He : repr e []) (Hfit : fits (4 * zlen p + 2)) :
  exists q t, sdscatrepr e p (zlen p) = Some (Some q) /\
    sdssplitargs (buf q) = Some (Some [t]) /\ repr t p.
Proof.
  unfold sdscatrepr. rewrite Z.ltb_irrefl. zlen_pos.
  destruct (ok_or_oom_mem _ _ Hmem (sdscatlen_spec e [] [34] 1 He ltac:(zl) ltac:(destruct Hfit; split; zl)))
    as (s1 & -> & Hs1).
  rewrite take_ge by (unfold zlen; lia).
  destruct (catrepr_loop_spec p s1 ([] ++ [34]) Hmem Hp Hs1) as (q & -> & Hq); [destruct Hfit; split; zl|].
  cbn [app] in Hq. destruct (flat_quote p Hp) as [Hn Hlen].
  destruct Hq as (r & Hb & _). exists q. unfold sdssplitargs. rewrite Hb, cstr_app by set_solver. cbn [mbind option_bind].
  cbn [length splitargs_loop skip_space Z.eqb Pos.eqb isspace Z.leb Z.compare Pos.compare Pos.compare_cont orb andb negb].
  destruct (ok_or_oom_mem _ _ Hmem sdsempty_spec) as (c & -> & Hc).
  rewrite token_open.
  destruct (token_loop_spec p (S (length (flat_map quote p ++ [34]))) c [] Hmem Hp Hc) as (t & Et & Ht);
    [destruct Hfit; split; zl | rewrite length_app; simpl; lia |].
  rewrite Et, Hmem. exists t. split; [done|]. split; [|done]. cbn [negb fst snd app].
  destruct (length (flat_map quote p ++ [34])) as [|n] eqn:En; [rewrite length_app in En; simpl in En; lia|].
  cbn [splitargs_loop skip_space]. by rewrite Hmem, Bool.andb_false_r.
Qed.

End Ops.

(** ** Concrete strings *)

#[local] Existing Instance demo_memory.

Definition demo_sds : sds := mk_sds 5 2 (bstr "Hello" ++ [0; 1; 2]).

Lemma demo_repr : repr demo_sds (bstr "Hello").
Proof. by exists [1; 2]. Qed.

Lemma demo_empty_repr : repr (mk_sds 0 0 [0]) [].
Proof. by exists []. Qed.

Lemma sdsll2str_spec_witness :
  exists r, sdsll2str (replicate 21 255) (-42) = Some (bstr "-42" ++ 0 :: r, 3).
Proof.
  destruct (sdsll2str_spec (replicate 21 255) (-42) ltac:(done) ltac:(done)) as (r & E & _).
  exists r. exact E.
Defined.

Lemma sdscatfmt_spec_witness :
  exists s', sdscatfmt demo_sds (bstr " %s=%i%%") [ArgStr (bstr "x" ++ [0]); ArgInt (-7)] = Some s' /\
    repr s' (bstr "Hello x=-7%").
Proof.
  refine (sdscatfmt_spec demo_sds (bstr "Hello") _ _ (bstr " x=-7%") demo_has_memory demo_repr _ _ _);
    [reflexivity | repeat constructor; done | done].
Defined.

Lemma sdsrange_spec_witness :
  exists s', sdsrange demo_sds 1 (-2) = Some s' /\ repr s' (bstr "ell").
Proof. exact (sdsrange_spec demo_sds (bstr "Hello") 1 (-2) demo_repr ltac:(done) ltac:(done)). Defined.

Lemma sdstrim_spec_witness :
  exists s' a m b, sdstrim demo_sds (bstr "oH") = Some s' /\ repr s' m /\ bstr "Hello" = a ++ m ++ b.
Proof.
  destruct (sdstrim_spec demo_sds (bstr "Hello") (bstr "oH") demo_repr) as (s' & a & m & b & E & Hr & Hl & _).
  exists s', a, m, b. split; [exact E | split; [exact Hr | exact Hl]].
Defined.

Lemma sdssplit_join_witness :
  exists toks ts j, sdssplitlen (bstr "a--b--" ++ [0]) 6 (bstr "--") 2 = Some (Some toks) /\
    Forall2 repr toks ts /\ sdsjoinsds toks (bstr "--") 2 = Some j /\ repr j (bstr "a--b--").
Proof.
  destruct (sdssplit_join (bstr "a--b--") [0] (bstr "--") demo_has_memory ltac:(done) ltac:(done) ltac:(done))
    as (toks & ts & j & E & Hr & _ & _ & Ej & Hj).
  exists toks, ts, j. split_and!; [exact E | exact Hr | exact Ej | exact Hj].
Defined.

Lemma sdscatrepr_splitargs_witness :
  exists q t, sdscatrepr (mk_sds 0 0 [0]) [65; 34; 0; 255; 92; 120; 10] 7 = Some (Some q) /\
    sdssplitargs (buf q) = Some (Some [t]) /\ repr t [65; 34; 0; 255; 92; 120; 10].
Proof.
  refine (sdscatrepr_splitargs (mk_sds 0 0 [0]) [65; 34; 0; 255; 92; 120; 10] demo_has_memory _ demo_empty_repr _);
    [repeat constructor; done | done].
Defined.

End Sds.
