(* ===== verification/Read.v ===== *)
(** The incremental protocol parser of read.c: the reader with its task stack, every
    function of the file, an abstract parser on the unread bytes that it refines, and the
    theorems on safety and on independence of how the input is cut into chunks. *)
From S2P Require Import Prelude Sds.

Open Scope Z_scope.

Module Read.

(** ** read.h *)

Definition REDIS_ERR : Z := -1.
Definition REDIS_OK : Z := 0.
Definition REDIS_ERR_IO : Z := 1.
Definition REDIS_ERR_OTHER : Z := 2.
Definition REDIS_ERR_EOF : Z := 3.
Definition REDIS_ERR_PROTOCOL : Z := 4.
Definition REDIS_ERR_OOM : Z := 5.

Definition REDIS_REPLY_STRING : Z := 1.
Definition REDIS_REPLY_ARRAY : Z := 2.
Definition REDIS_REPLY_INTEGER : Z := 3.
Definition REDIS_REPLY_NIL : Z := 4.
Definition REDIS_REPLY_STATUS : Z := 5.
Definition REDIS_REPLY_ERROR : Z := 6.

Definition REDIS_READER_MAX_BUF : Z := 1024 * 16.

(** A [void *] that is not NULL: an object of the client, or the type number that the
    reader casts to a pointer when it has no function to create one. *)
Inductive vptr (O : Type) := Cast (z : Z) | Obj (o : O).
Arguments Cast {O}. Arguments Obj {O}.

(** [parent] is the index of the parent task in the stack ([privdata] is passed through
    by the reader and left out). *)
Record redisReadTask (O : Type) := mk_task {
  type : Z;
  elements : Z;
  idx : Z;
  obj : option (vptr O);
  parent : option Z;
}.
Arguments mk_task {O}. Arguments type {O}. Arguments elements {O}. Arguments idx {O}.
Arguments obj {O}. Arguments parent {O}.

(** The functions that build replies, on a world [W] of the client.  They get the task and
    what its parent pointer points to; the outer option is undefined behaviour, the inner
    one a NULL result. *)
Record redisReplyObjectFunctions (O W : Type) := {
  createString : option (redisReadTask O -> option (redisReadTask O) -> bytes -> W -> option (W * option (vptr O)));
  createArray : option (redisReadTask O -> option (redisReadTask O) -> Z -> W -> option (W * option (vptr O)));
  createInteger : option (redisReadTask O -> option (redisReadTask O) -> Z -> W -> option (W * option (vptr O)));
  createNil : option (redisReadTask O -> option (redisReadTask O) -> W -> option (W * option (vptr O)));
  freeObject : option (vptr O -> W -> option W);
}.
Arguments createString {O W}. Arguments createArray {O W}. Arguments createInteger {O W}.
Arguments createNil {O W}. Arguments freeObject {O W}.

Record redisReader (O : Type) := mk_reader {
  err : Z;
  errstr : bytes;
  buf : option Sds.sds;
  pos : Z;
  len : Z;
  maxbuf : Z;
  rstack : list (redisReadTask O);
  ridx : Z;
  reply : option (vptr O);
}.
Arguments mk_reader {O}. Arguments err {O}. Arguments errstr {O}. Arguments buf {O}. Arguments pos {O}.
Arguments len {O}. Arguments maxbuf {O}. Arguments rstack {O}. Arguments ridx {O}. Arguments reply {O}.

(** ** Scanning *)

(** [while(pos < _len && s[pos] != '\r') pos++;] *)
Fixpoint skip_to_cr (fuel : nat) (s : bytes) (p l : Z) : option Z :=
  match fuel with
  | O => None
  | S f => if p <? l then c ← rd s p; if c =? CR then Some p else skip_to_cr f s (p + 1) l else Some p
  end.

Fixpoint seek_loop (fuel : nat) (s : bytes) (p l : Z) : option (option Z) :=
  match fuel with
  | O => None
  | S f =>
      if p <? l then
        p ← skip_to_cr (S (length s)) s p l;
        c ← rd s p;
        if negb (c =? CR) then Some None
        else d ← rd s (p + 1); if d =? LF then Some (Some p) else seek_loop f s (p + 1) l
      else Some None
  end.

(** [s] is the memory at the pointer; the result is the offset of the CR LF, [None] for
    NULL.  [_len] is [len-1] converted to [int]. *)
Definition seekNewline (s : bytes) (l : Z) : option (option Z) :=
  seek_loop (S (length s)) s 0 (i32 (u64 (l - 1))).

(** The digits up to the CR; [None] when the memory ends before one. *)
Fixpoint rll_loop (s : bytes) (mult v : Z) : option Z :=
  match s with
  | [] => None
  | c :: s' =>
      if c =? CR then Some (i64 (mult * v))
      else if is_digit c then rll_loop s' mult (i64 (i64 (v * 10) + (c - 48)))
      else Some (-1)
  end.

(** [readLongLong]; the sums and products of [long long] are wrapped around, as they are when
    compiled, although C leaves their overflow undefined. *)
Definition readLongLong (s : bytes) : option Z :=
  match s with
  | 45 :: s' => rll_loop s' (-1) 0
  | 43 :: s' => rll_loop s' 1 0
  | _ => rll_loop s 1 0
  end.

(** The text of a byte in an error message. *)
Definition chrtos (byte : Z) : bytes :=
  if (byte =? 92) || (byte =? 34) then [34; 92; byte; 34]
  else if byte =? 10 then [34; 92; 110; 34]
  else if byte =? 13 then [34; 92; 114; 34]
  else if byte =? 9 then [34; 92; 116; 34]
  else if byte =? 7 then [34; 92; 97; 34]
  else if byte =? 8 then [34; 92; 98; 34]
  else if Sds.isprint byte then [34; byte; 34]
  else [34; 92; 120; Sds.hex_digit (byte / 16); Sds.hex_digit (byte mod 16); 34].

Section Reader.
Context {Ob W : Type} `{Memory}.
Context (fn : option (redisReplyObjectFunctions Ob W)).

Abbreviation task := (redisReadTask Ob).
Abbreviation reader := (redisReader Ob).

Definition set_pos (r : reader) (p : Z) : reader :=
  mk_reader (err r) (errstr r) (buf r) p (len r) (maxbuf r) (rstack r) (ridx r) (reply r).
Definition set_stack (r : reader) (st : list task) (i : Z) : reader :=
  mk_reader (err r) (errstr r) (buf r) (pos r) (len r) (maxbuf r) st i (reply r).
Definition set_reply (r : reader) (o : option (vptr Ob)) : reader :=
  mk_reader (err r) (errstr r) (buf r) (pos r) (len r) (maxbuf r) (rstack r) (ridx r) o.
Definition set_buf (r : reader) (b : option Sds.sds) (p l : Z) : reader :=
  mk_reader (err r) (errstr r) b p l (maxbuf r) (rstack r) (ridx r) (reply r).

(** [r->fn && r->fn->f]. *)
Definition fn_of {F} (field : redisReplyObjectFunctions Ob W -> option F) : option F := fn ≫= field.

(** ** Errors *)

Definition redisReaderSetError (r : reader) (ty : Z) (str : bytes) (w : W) : option (reader * W) :=
  '(rep, w) ← (match reply r, fn_of freeObject with
               | Some o, Some f => w' ← f o w; Some (None, w')
               | rep, _ => Some (rep, w)
               end);
  let '(p, l) := match buf r with Some _ => (0, 0) | None => (pos r, len r) end in
  Some (mk_reader ty (take 127 str) None p l (maxbuf r) (rstack r) (-1) rep, w).

Definition protocol_byte_msg (byte : Z) : bytes :=
  bstr "Protocol error, got " ++ chrtos byte ++ bstr " as reply type byte".
Definition oom_msg : bytes := bstr "Out of memory".
Definition depth_msg : bytes := bstr "No support for nested multi bulk replies with depth > 7".

Definition redisReaderSetErrorProtocolByte (r : reader) (byte : Z) (w : W) : option (reader * W) :=
  redisReaderSetError r REDIS_ERR_PROTOCOL (take 127 (protocol_byte_msg byte)) w.

Definition redisReaderSetErrorOOM (r : reader) (w : W) : option (reader * W) :=
  redisReaderSetError r REDIS_ERR_OOM oom_msg w.

(** ** Reading *)

(** The memory of the buffer; [None] when it is NULL. *)
Definition mem (r : reader) : option bytes := Sds.buf <$> buf r.

(** The offset of the bytes in the buffer, [None] inside for NULL. *)
Definition readBytes (r : reader) (n : Z) : option Z * reader :=
  if n <=? u64 (len r - pos r) then (Some (pos r), set_pos r (u64 (pos r + n))) else (None, r).

(** The offset of the line and its length. *)
Definition readLine (r : reader) : option (option (Z * Z) * reader) :=
  m ← mem r;
  s ← seekNewline (drop (Z.to_nat (pos r)) m) (u64 (len r - pos r));
  match s with
  | Some l => Some (Some (pos r, i32 l), set_pos r (u64 (pos r + (i32 l + 2))))
  | None => Some (None, r)
  end.

(** [n] bytes of memory at an offset. *)
Definition sub_mem (m : bytes) (off n : Z) : option bytes :=
  if decide (0 <= off /\ 0 <= n /\ off + n <= zlen m)
  then Some (take (Z.to_nat n) (drop (Z.to_nat off) m)) else None.

(** ** The task stack *)

(** [while (r->ridx >= 0)], at most one round per task. *)
Fixpoint next_loop (fuel : nat) (r : reader) : option reader :=
  match fuel with
  | O => None
  | S f =>
      if negb (0 <=? ridx r) then Some r
      else if ridx r =? 0 then Some (set_stack r (rstack r) (-1))
      else
        cur ← rd (rstack r) (ridx r);
        prv ← rd (rstack r) (ridx r - 1);
        if negb (type prv =? REDIS_REPLY_ARRAY) then None
        else if idx cur =? i32 (elements prv - 1) then next_loop f (set_stack r (rstack r) (ridx r - 1))
        else if negb (idx cur <? elements prv) then None
        else st ← wr (rstack r) (ridx r) (mk_task (-1) (-1) (i32 (idx cur + 1)) (obj cur) (parent cur));
             Some (set_stack r st (ridx r))
  end.

Definition moveToNextTask (r : reader) : option reader := next_loop 10 r.

(** The task that a parent pointer points to. *)
Definition parent_of (r : reader) (cur : task) : option (option task) :=
  match parent cur with None => Some None | Some i => t ← rd (rstack r) i; Some (Some t) end.

(** A call of a creation function, or the cast of the type number without one. *)
Definition create {F} (f : option F) (call : F -> W -> option (W * option (vptr Ob))) (ty : Z) (w : W)
    : option (W * option (vptr Ob)) :=
  match f with Some g => call g w | None => Some (w, Some (Cast ty)) end.

(** [if (r->ridx == 0) r->reply = obj;] *)
Definition set_root (r : reader) (o : vptr Ob) : reader :=
  if ridx r =? 0 then set_reply r (Some o) else r.

Definition processLineItem (r : reader) (w : W) : option (Z * reader * W) :=
  cur ← rd (rstack r) (ridx r);
  par ← parent_of r cur;
  '(line, r) ← readLine r;
  match line with
  | None => Some (REDIS_ERR, r, w)
  | Some (p, l) =>
      m ← mem r;
      '(w, o) ←
        (if type cur =? REDIS_REPLY_INTEGER then
           v ← readLongLong (drop (Z.to_nat p) m);
           create (fn_of createInteger) (fun g => g cur par v) REDIS_REPLY_INTEGER w
         else
           str ← sub_mem m p l;
           create (fn_of createString) (fun g => g cur par str) (type cur) w);
      match o with
      | None => '(r, w) ← redisReaderSetErrorOOM r w; Some (REDIS_ERR, r, w)
      | Some o => r ← moveToNextTask (set_root r o); Some (REDIS_OK, r, w)
      end
  end.

Definition processBulkItem (r : reader) (w : W) : option (Z * reader * W) :=
  cur ← rd (rstack r) (ridx r);
  par ← parent_of r cur;
  m ← mem r;
  s ← seekNewline (drop (Z.to_nat (pos r)) m) (u64 (len r - pos r));
  match s with
  | None => Some (REDIS_ERR, r, w)
  | Some n =>
      let bytelen := n + 2 in
      l ← readLongLong (drop (Z.to_nat (pos r)) m);
      '(w, o, success, bytelen) ←
        (if l <? 0 then
           '(w, o) ← create (fn_of createNil) (fun g => g cur par) REDIS_REPLY_NIL w;
           Some (w, o, true, bytelen)
         else
           let bytelen := u64 (bytelen + (l + 2)) in
           if u64 (pos r + bytelen) <=? len r then
             str ← sub_mem m (pos r + n + 2) l;
             '(w, o) ← create (fn_of createString) (fun g => g cur par str) REDIS_REPLY_STRING w;
             Some (w, o, true, bytelen)
           else Some (w, None, false, bytelen));
      if (success : bool) then
        match o with
        | None => '(r, w) ← redisReaderSetErrorOOM r w; Some (REDIS_ERR, r, w)
        | Some o =>
            let r := set_pos r (u64 (pos r + bytelen)) in
            r ← moveToNextTask (set_root r o); Some (REDIS_OK, r, w)
        end
      else Some (REDIS_ERR, r, w)
  end.

Definition processMultiBulkItem (r : reader) (w : W) : option (Z * reader * W) :=
  cur ← rd (rstack r) (ridx r);
  par ← parent_of r cur;
  if ridx r =? 8 then '(r, w) ← redisReaderSetError r REDIS_ERR_PROTOCOL depth_msg w; Some (REDIS_ERR, r, w)
  else
    '(line, r) ← readLine r;
    match line with
    | None => Some (REDIS_ERR, r, w)
    | Some (p, _) =>
        m ← mem r;
        n ← readLongLong (drop (Z.to_nat p) m);
        let root := ridx r =? 0 in
        '(w, o) ←
          (if n =? -1 then create (fn_of createNil) (fun g => g cur par) REDIS_REPLY_NIL w
           else create (fn_of createArray) (fun g => g cur par (i32 n)) REDIS_REPLY_ARRAY w);
        match o with
        | None => '(r, w) ← redisReaderSetErrorOOM r w; Some (REDIS_ERR, r, w)
        | Some o =>
            r ← (if negb (n =? -1) && (0 <? n) then
                   st ← wr (rstack r) (ridx r) (mk_task (type cur) (i32 n) (idx cur) (Some o) (parent cur));
                   st ← wr st (ridx r + 1) (mk_task (-1) (-1) 0 None (Some (ridx r)));
                   Some (set_stack r st (ridx r + 1))
                 else moveToNextTask r);
            Some (REDIS_OK, if root then set_reply r (Some o) else r, w)
        end
    end.

(** The type of a reply from its first byte. *)
Definition type_of_byte (c : Z) : option Z :=
  if c =? 45 then Some REDIS_REPLY_ERROR
  else if c =? 43 then Some REDIS_REPLY_STATUS
  else if c =? 58 then Some REDIS_REPLY_INTEGER
  else if c =? 36 then Some REDIS_REPLY_STRING
  else if c =? 42 then Some REDIS_REPLY_ARRAY
  else None.

Definition processTyped (r : reader) (ty : Z) (w : W) : option (Z * reader * W) :=
  if (ty =? REDIS_REPLY_ERROR) || (ty =? REDIS_REPLY_STATUS) || (ty =? REDIS_REPLY_INTEGER)
  then processLineItem r w
  else if ty =? REDIS_REPLY_STRING then processBulkItem r w
  else if ty =? REDIS_REPLY_ARRAY then processMultiBulkItem r w
  else None.

Definition processItem (r : reader) (w : W) : option (Z * reader * W) :=
  cur ← rd (rstack r) (ridx r);
  if type cur <? 0 then
    match readBytes r 1 with
    | (Some p, r) =>
        m ← mem r;
        c ← rd m p;
        match type_of_byte c with
        | Some ty =>
            st ← wr (rstack r) (ridx r) (mk_task ty (elements cur) (idx cur) (obj cur) (parent cur));
            processTyped (set_stack r st (ridx r)) ty w
        | None => '(r, w) ← redisReaderSetErrorProtocolByte r c w; Some (REDIS_ERR, r, w)
        end
    | (None, r) => Some (REDIS_ERR, r, w)
    end
  else processTyped r (type cur) w.

(** ** The API *)

(** [redisReaderCreateWithFunctions]: memory for the reader and for its buffer. *)
Definition redisReaderCreateWithFunctions (calloc_ok : bool) : option (option reader) :=
  if negb calloc_ok then Some None
  else
    let? b := Sds.sdsempty in
    Some (Some (mk_reader 0 [] (Some b) 0 0 REDIS_READER_MAX_BUF (replicate 9 (mk_task 0 0 0 None None)) (-1) None)).

(** [redisReaderFree]: the reply under construction is given to [freeObject]. *)
Definition redisReaderFree (r : reader) (w : W) : option W :=
  match reply r, fn_of freeObject with Some o, Some f => f o w | _, _ => Some w end.

(** [data] is [None] for a NULL pointer. *)
Definition redisReaderFeed (r : reader) (data : option bytes) (w : W) : option (Z * reader * W) :=
  if negb (err r =? 0) then Some (REDIS_ERR, r, w)
  else
    match data with
    | Some d =>
        if 1 <=? zlen d then
          b ← buf r;
          r ← (if (len r =? 0) && negb (maxbuf r =? 0) && (maxbuf r <? Sds.sdsavail b) then
                 let! b := Sds.sdsempty in Some (set_buf r (Some b) 0 (len r))
               else Some r);
          b ← buf r;
          match Sds.sdscatlen b d (zlen d) with
          | None => None
          | Some None => '(r, w) ← redisReaderSetErrorOOM r w; Some (REDIS_ERR, r, w)
          | Some (Some nb) => Some (REDIS_OK, set_buf r (Some nb) (pos r) (Sds.sdslen nb), w)
          end
        else Some (REDIS_OK, r, w)
    | None => Some (REDIS_OK, r, w)
    end.

(** [while (r->ridx >= 0) if (processItem(r) != REDIS_OK) break;] *)
Fixpoint items_loop (fuel : nat) (r : reader) (w : W) : option (reader * W) :=
  match fuel with
  | O => None
  | S f =>
      if 0 <=? ridx r then
        '(ret, r, w) ← processItem r w;
        if ret =? REDIS_OK then items_loop f r w else Some (r, w)
      else Some (r, w)
  end.

(** The result, the reply stored through the pointer ([None] for NULL), and the reader.
    Every processed item consumes a byte, so the bytes left bound the loop. *)
Definition redisReaderGetReply (r : reader) (w : W) : option (Z * option (vptr Ob) * reader * W) :=
  if negb (err r =? 0) then Some (REDIS_ERR, None, r, w)
  else if len r =? 0 then Some (REDIS_OK, None, r, w)
  else
    r ← (if ridx r =? -1 then
           st ← wr (rstack r) 0 (mk_task (-1) (-1) (-1) None None); Some (set_stack r st 0)
         else Some r);
    '(r, w) ← items_loop (S (Z.to_nat (len r - pos r))) r w;
    if negb (err r =? 0) then Some (REDIS_ERR, None, r, w)
    else
      r ← (if 1024 <=? pos r then
             b ← buf r; b ← Sds.sdsrange b (i32 (pos r)) (-1); Some (set_buf r (Some b) 0 (Sds.sdslen b))
           else Some r);
      if ridx r =? -1 then Some (REDIS_OK, reply r, set_reply r None, w)
      else Some (REDIS_OK, None, r, w).

(** ** The abstract parser *)

(** The parser on the unread bytes: the live tasks, top first, the root reply and the
    input.  [Starve] asks for more input. *)
Inductive outcome :=
| Starve (st : list task) (inp : bytes)
| Next (st : list task) (rep : option (vptr Ob)) (inp : bytes) (w : W)
| Fail (ty : Z) (str : bytes) (w : W).

(** The offset of the first CR LF. *)
Fixpoint find_crlf (l : bytes) : option Z :=
  match l with
  | [] => None
  | c :: l' =>
      if (c =? CR) && (match l' with d :: _ => d =? LF | [] => false end) then Some 0
      else Z.succ <$> find_crlf l'
  end.

(** [moveToNextTask] on the live tasks. *)
Fixpoint anext (st : list task) : option (list task) :=
  match st with
  | [] => Some []
  | cur :: st' =>
      match st' with
      | [] => Some []
      | prv :: _ =>
          if negb (type prv =? REDIS_REPLY_ARRAY) then None
          else if idx cur =? i32 (elements prv - 1) then anext st'
          else if negb (idx cur <? elements prv) then None
          else Some (mk_task (-1) (-1) (i32 (idx cur + 1)) (obj cur) (parent cur) :: st')
      end
  end.

Definition root_reply (rest : list task) (rep : option (vptr Ob)) (o : vptr Ob) : option (vptr Ob) :=
  match rest with [] => Some o | _ :: _ => rep end.

(** An object was created for the top task: report it and move on. *)
Definition finish (cur : task) (rest : list task) (rep : option (vptr Ob)) (inp : bytes)
    (c : option (W * option (vptr Ob))) : option outcome :=
  '(w, o) ← c;
  match o with
  | None => Some (Fail REDIS_ERR_OOM oom_msg w)
  | Some o => st ← anext (cur :: rest); Some (Next st (root_reply rest rep o) inp w)
  end.

Definition aline (cur : task) (rest : list task) rep (inp : bytes) (w : W) : option outcome :=
  match find_crlf inp with
  | None => Some (Starve (cur :: rest) inp)
  | Some n =>
      finish cur rest rep (drop (Z.to_nat (n + 2)) inp)
        (if type cur =? REDIS_REPLY_INTEGER then
           v ← readLongLong inp;
           create (fn_of createInteger) (fun g => g cur (head rest) v) REDIS_REPLY_INTEGER w
         else create (fn_of createString) (fun g => g cur (head rest) (take (Z.to_nat n) inp)) (type cur) w)
  end.

Definition abulk (cur : task) (rest : list task) rep (inp : bytes) (w : W) : option outcome :=
  match find_crlf inp with
  | None => Some (Starve (cur :: rest) inp)
  | Some n =>
      l ← readLongLong inp;
      if l <? 0 then
        finish cur rest rep (drop (Z.to_nat (n + 2)) inp)
          (create (fn_of createNil) (fun g => g cur (head rest)) REDIS_REPLY_NIL w)
      else if n + 2 + l + 2 <=? zlen inp then
        finish cur rest rep (drop (Z.to_nat (n + 2 + l + 2)) inp)
          (create (fn_of createString) (fun g => g cur (head rest)
             (take (Z.to_nat l) (drop (Z.to_nat (n + 2)) inp))) REDIS_REPLY_STRING w)
      else Some (Starve (cur :: rest) inp)
  end.

Definition amulti (cur : task) (rest : list task) rep (inp : bytes) (w : W) : option outcome :=
  if zlen rest =? 8 then Some (Fail REDIS_ERR_PROTOCOL depth_msg w)
  else
    match find_crlf inp with
    | None => Some (Starve (cur :: rest) inp)
    | Some n =>
        let inp' := drop (Z.to_nat (n + 2)) inp in
        k ← readLongLong inp;
        if k =? -1 then
          finish cur rest rep inp' (create (fn_of createNil) (fun g => g cur (head rest)) REDIS_REPLY_NIL w)
        else if 0 <? k then
          '(w, o) ← create (fn_of createArray) (fun g => g cur (head rest) (i32 k)) REDIS_REPLY_ARRAY w;
          match o with
          | None => Some (Fail REDIS_ERR_OOM oom_msg w)
          | Some o =>
              Some (Next (mk_task (-1) (-1) 0 None (Some (zlen rest)) ::
                          mk_task (type cur) (i32 k) (idx cur) (Some o) (parent cur) :: rest)
                     (root_reply rest rep o) inp' w)
          end
        else finish cur rest rep inp'
               (create (fn_of createArray) (fun g => g cur (head rest) (i32 k)) REDIS_REPLY_ARRAY w)
    end.

Definition atyped (cur : task) (rest : list task) rep (inp : bytes) (w : W) : option outcome :=
  let ty := type cur in
  if (ty =? REDIS_REPLY_ERROR) || (ty =? REDIS_REPLY_STATUS) || (ty =? REDIS_REPLY_INTEGER)
  then aline cur rest rep inp w
  else if ty =? REDIS_REPLY_STRING then abulk cur rest rep inp w
  else if ty =? REDIS_REPLY_ARRAY then amulti cur rest rep inp w
  else None.

Definition set_type (cur : task) (ty : Z) : task := mk_task ty (elements cur) (idx cur) (obj cur) (parent cur).

Definition astep (st : list task) rep (inp : bytes) (w : W) : option outcome :=
  match st with
  | [] => None
  | cur :: rest =>
      if type cur <? 0 then
        match inp with
        | [] => Some (Starve st [])
        | c :: inp' =>
            match type_of_byte c with
            | Some ty => atyped (set_type cur ty) rest rep inp' w
            | None => Some (Fail REDIS_ERR_PROTOCOL (take 127 (protocol_byte_msg c)) w)
            end
        end
      else atyped cur rest rep inp w
  end.

(** *** More input does not change what was parsed *)

Lemma find_crlf_app l k n : find_crlf l = Some n -> find_crlf (l ++ k) = Some n.
Proof.
  revert n. induction l as [|c l IH]; intros n; [done|]. cbn [app find_crlf].
  destruct ((c =? CR) && _) eqn:E.
  - intros [= <-]. destruct l; [by rewrite Bool.andb_false_r in E|]. cbn [app]. by rewrite E.
  - destruct (find_crlf l) as [m|] eqn:Em; [|done]. intros [= <-]. rewrite (IH m eq_refl).
    destruct l; [done|]. cbn [app]. by rewrite E.
Qed.

Lemma find_crlf_split l n : find_crlf l = Some n -> exists a b, l = a ++ CR :: LF :: b /\ zlen a = n.
Proof.
  revert n. induction l as [|c l IH]; intros n; [done|]. cbn [find_crlf].
  destruct ((c =? CR) && _) eqn:E.
  - intros [= <-]. destruct l as [|d l]; [by rewrite Bool.andb_false_r in E|].
    apply andb_prop in E as [->%Z.eqb_eq ->%Z.eqb_eq]. by exists [], l.
  - destruct (find_crlf l) as [m|] eqn:Em; [|done]. intros [= <-].
    destruct (IH m eq_refl) as (a & b & -> & <-). exists (c :: a), b. split; [done | zl].
Qed.

Lemma rll_loop_app s k mult v : CR ∈ s -> rll_loop (s ++ k) mult v = rll_loop s mult v.
Proof.
  revert v. induction s as [|c s IH]; intros v Hin; [by apply not_elem_of_nil in Hin|]. cbn [app rll_loop].
  destruct (Z.eqb_spec c CR); [done|]. destruct (is_digit c); [|done]. apply IH. set_solver.
Qed.

Lemma rll_loop_some s mult v : CR ∈ s -> is_Some (rll_loop s mult v).
Proof.
  revert v. induction s as [|c s IH]; intros v Hin; [by apply not_elem_of_nil in Hin|]. cbn [rll_loop].
  destruct (Z.eqb_spec c CR); [by eexists|]. destruct (is_digit c); [|by eexists]. apply IH. set_solver.
Qed.

Lemma readLongLong_cases s k : CR ∈ s -> exists mult s',
  CR ∈ s' /\ readLongLong s = rll_loop s' mult 0 /\ readLongLong (s ++ k) = rll_loop (s' ++ k) mult 0.
Proof.
  intros Hin. destruct s as [|c s]; [by apply not_elem_of_nil in Hin|].
  destruct (decide (c = 45)) as [->|H45]; [exists (-1), s; split_and!; try done; set_solver|].
  destruct (decide (c = 43)) as [->|H43]; [exists 1, s; split_and!; try done; set_solver|].
  exists 1, (c :: s). split; [done|]. split; unfold readLongLong; cbn [app]; by repeat case_match.
Qed.

Lemma readLongLong_app s k n : find_crlf s = Some n ->
  readLongLong (s ++ k) = readLongLong s /\ is_Some (readLongLong s).
Proof.
  intros (a & b & -> & _)%find_crlf_split.
  destruct (readLongLong_cases (a ++ CR :: LF :: b) k) as (mult & s' & Hin & -> & ->); [set_solver|].
  split; [by apply rll_loop_app | by apply rll_loop_some].
Qed.

Lemma find_crlf_bound l n : find_crlf l = Some n -> 0 <= n /\ n + 2 <= zlen l.
Proof. intros (a & b & -> & <-)%find_crlf_split. zl. Qed.

(** [o2], the outcome on the input [inp ++ k], is the one on [inp] with the rest extended;
    a step that starved on [inp] has left its tasks and its input as they were. *)
Definition grows (o1 o2 : option outcome) (st : list task) (inp k : bytes) : Prop :=
  match o1 with
  | Some (Next st' rep' inp' w') => o2 = Some (Next st' rep' (inp' ++ k) w')
  | Some (Starve st' inp') => st' = st /\ inp' = inp
  | o => o2 = o
  end.

Lemma finish_grows cur rest rep inp k c st i :
  grows (finish cur rest rep inp c) (finish cur rest rep (inp ++ k) c) st i k.
Proof.
  unfold finish. destruct c as [[w [o|]]|]; [|done..]. cbn [mbind option_bind].
  by destruct (anext (cur :: rest)).
Qed.

Lemma drop_app_in (l k : bytes) n : 0 <= n <= zlen l -> drop (Z.to_nat n) (l ++ k) = drop (Z.to_nat n) l ++ k.
Proof. intros. apply drop_app_le. unfold zlen in *. lia. Qed.

Lemma take_app_in (l k : bytes) n : 0 <= n <= zlen l -> take (Z.to_nat n) (l ++ k) = take (Z.to_nat n) l.
Proof. intros. apply take_app_le. unfold zlen in *. lia. Qed.

(** What the parsers use of the line at the head of the input is kept by more input. *)
Lemma line_app inp k n : find_crlf inp = Some n ->
  find_crlf (inp ++ k) = Some n /\ readLongLong (inp ++ k) = readLongLong inp /\
  drop (Z.to_nat (n + 2)) (inp ++ k) = drop (Z.to_nat (n + 2)) inp ++ k /\
  take (Z.to_nat n) (inp ++ k) = take (Z.to_nat n) inp /\ 0 <= n /\ n + 2 <= zlen inp.
Proof.
  intros Hn. destruct (find_crlf_bound _ _ Hn). destruct (readLongLong_app inp k n Hn).
  split_and!; try done; [by apply find_crlf_app | apply drop_app_in; lia | apply take_app_in; lia].
Qed.

Lemma aline_grows cur rest rep inp k w :
  grows (aline cur rest rep inp w) (aline cur rest rep (inp ++ k) w) (cur :: rest) inp k.
Proof.
  unfold aline. destruct (find_crlf inp) as [n|] eqn:En; [|done].
  destruct (line_app inp k n En) as (-> & -> & -> & -> & _). apply finish_grows.
Qed.

Lemma abulk_grows cur rest rep inp k w :
  grows (abulk cur rest rep inp w) (abulk cur rest rep (inp ++ k) w) (cur :: rest) inp k.
Proof.
  unfold abulk. destruct (find_crlf inp) as [n|] eqn:En; [|done].
  destruct (line_app inp k n En) as (-> & -> & Ed & _ & ? & ?). rewrite Ed.
  destruct (readLongLong inp) as [l|]; [|done]. cbn [mbind option_bind].
  destruct (Z.ltb_spec l 0); [apply finish_grows|].
  destruct (Z.leb_spec (n + 2 + l + 2) (zlen inp)); [|done].
  rewrite (proj2 (Z.leb_le _ _)) by zl. rewrite (drop_app_in inp k (n + 2 + l + 2)) by zl.
  rewrite take_app_in by zl. apply finish_grows.
Qed.

Lemma amulti_grows cur rest rep inp k w :
  grows (amulti cur rest rep inp w) (amulti cur rest rep (inp ++ k) w) (cur :: rest) inp k.
Proof.
  unfold amulti. destruct (zlen rest =? 8); [done|]. destruct (find_crlf inp) as [n|] eqn:En; [|done].
  destruct (line_app inp k n En) as (-> & -> & -> & _).
  destruct (readLongLong inp) as [l|]; [|done]. cbn [mbind option_bind].
  destruct (l =? -1); [apply finish_grows|]. destruct (0 <? l); [|apply finish_grows].
  by destruct (create _ _ _ _) as [[w' [o|]]|].
Qed.

Lemma atyped_grows cur rest rep inp k w :
  grows (atyped cur rest rep inp w) (atyped cur rest rep (inp ++ k) w) (cur :: rest) inp k.
Proof.
  unfold atyped. repeat case_match; [apply aline_grows | apply abulk_grows | apply amulti_grows | done].
Qed.

(** The typed task of a starved step carries on where the step left off. *)
Lemma type_of_byte_nonneg c ty : type_of_byte c = Some ty -> 0 < ty.
Proof. unfold type_of_byte. repeat case_match; by intros [= <-]. Qed.

(** One step on more input. *)
Lemma astep_app st rep inp k w :
  astep st rep (inp ++ k) w =
  match astep st rep inp w with
  | Some (Next st' rep' inp' w') => Some (Next st' rep' (inp' ++ k) w')
  | Some (Starve st' inp') => astep st' rep (inp' ++ k) w
  | o => o
  end.
Proof.
  destruct st as [|cur rest]; [done|]. cbn [astep]. destruct (type cur <? 0) eqn:Et.
  - destruct inp as [|c inp]; [cbn [astep app]; by rewrite Et|]. cbn [app].
    destruct (type_of_byte c) as [ty|] eqn:Ec; [|done].
    pose proof (atyped_grows (set_type cur ty) rest rep inp k w) as Hg.
    destruct (atyped (set_type cur ty) rest rep inp w) as [[st' i| |]|]; try done.
    destruct Hg as [-> ->]. cbn [astep set_type type].
    apply type_of_byte_nonneg in Ec. by rewrite (proj2 (Z.ltb_ge ty 0)) by lia.
  - pose proof (atyped_grows cur rest rep inp k w) as Hg.
    destruct (atyped cur rest rep inp w) as [[st' i| |]|]; try done.
    destruct Hg as [-> ->]. cbn [astep]. by rewrite Et.
Qed.

(** *** Streams of replies *)

Definition root_task : task := mk_task (-1) (-1) (-1) None None.

(** The state between two chunks of input, or the error that stopped the parser. *)
Inductive pstate :=
| Live (st : list task) (rep : option (vptr Ob)) (inp : bytes) (w : W)
| Dead (ty : Z) (str : bytes) (w : W).

(** The reply under construction is released on an error. *)
Definition free_reply (rep : option (vptr Ob)) (w : W) : option W :=
  match rep, fn_of freeObject with Some o, Some f => f o w | _, _ => Some w end.

(** Steps until the input is used up: the replies completed, and the state reached.  A reply
    is never complete without an object (shown below). *)
Fixpoint pump (fuel : nat) (st : list task) rep (inp : bytes) (w : W) : option (list (vptr Ob) * pstate) :=
  match fuel with
  | O => None
  | S f =>
      o ← astep st rep inp w;
      match o with
      | Starve st' inp' => Some ([], Live st' rep inp' w)
      | Fail ty str w' => w'' ← free_reply rep w'; Some ([], Dead ty str w'')
      | Next [] (Some v) inp' w' => '(outs, d) ← pump f [root_task] None inp' w'; Some (v :: outs, d)
      | Next [] None _ _ => None
      | Next st' rep' inp' w' => pump f st' rep' inp' w'
      end
  end.

Lemma drop_shorter (l : bytes) n : 0 < n <= zlen l -> (length (drop (Z.to_nat n) l) < length l)%nat.
Proof. unfold zlen. intros. rewrite length_drop. lia. Qed.

Lemma finish_consumes cur rest rep inp c st rep' inp' w :
  finish cur rest rep inp c = Some (Next st rep' inp' w) -> inp' = inp.
Proof.
  unfold finish. destruct c as [[? [o|]]|]; [|done..]. cbn [mbind option_bind].
  destruct (anext (cur :: rest)); [|done]. cbn [mbind option_bind]. by intros [= _ _ -> _].
Qed.

Lemma atyped_consumes cur rest rep inp w st rep' inp' w' :
  atyped cur rest rep inp w = Some (Next st rep' inp' w') -> (length inp' < length inp)%nat.
Proof.
  assert (forall n, find_crlf inp = Some n -> (length (drop (Z.to_nat (n + 2)) inp) < length inp)%nat) as Hd.
  { intros n Hn. apply find_crlf_bound in Hn. apply drop_shorter. lia. }
  unfold atyped. destruct (_ || _); [|destruct (_ =? _); [|destruct (_ =? _); [|done]]].
  - unfold aline. destruct (find_crlf inp) as [n|]; [|done]. intros ->%finish_consumes. by apply Hd.
  - unfold abulk. destruct (find_crlf inp) as [n|] eqn:En; [|done]. apply find_crlf_bound in En.
    destruct (readLongLong inp) as [l|]; [|done]. cbn [mbind option_bind].
    destruct (Z.ltb_spec l 0); [intros ->%finish_consumes; by apply Hd|].
    destruct (Z.leb_spec (n + 2 + l + 2) (zlen inp)); [|done]. intros ->%finish_consumes. apply drop_shorter. lia.
  - unfold amulti. destruct (_ =? 8); [done|]. destruct (find_crlf inp) as [n|]; [|done].
    destruct (readLongLong inp) as [l|]; [|done]. cbn [mbind option_bind].
    destruct (l =? -1); [intros ->%finish_consumes; by apply Hd|].
    destruct (0 <? l); [|intros ->%finish_consumes; by apply Hd].
    destruct (create _ _ _ _) as [[? [o|]]|]; cbn [mbind option_bind]; [|done..]. intros [= _ _ <- _]. by apply Hd.
Qed.

(** Every step that goes on consumes input. *)
Lemma astep_consumes st rep inp w st' rep' inp' w' :
  astep st rep inp w = Some (Next st' rep' inp' w') -> (length inp' < length inp)%nat.
Proof.
  destruct st as [|cur rest]; [done|]. cbn [astep]. destruct (type cur <? 0); [|apply atyped_consumes].
  destruct inp as [|c inp]; [done|]. destruct (type_of_byte c); [|done].
  intros ?%atyped_consumes. simpl. lia.
Qed.

Lemma pump_fuel f1 : forall f2 st rep inp w, (length inp < f1)%nat -> (length inp < f2)%nat ->
  pump f1 st rep inp w = pump f2 st rep inp w.
Proof.
  induction f1 as [|f1 IH]; intros [|f2] st rep inp w H1 H2; try lia. cbn [pump].
  destruct (astep st rep inp w) as [[|st' rep' inp' w'|]|] eqn:E; try done. cbn [mbind option_bind].
  apply astep_consumes in E.
  destruct st' as [|t st']; [|apply IH; lia]. destruct rep' as [v|]; [|done].
  by rewrite (IH f2 [root_task] None inp' w') by lia.
Qed.

Lemma astep_starves st rep inp w st' inp' : astep st rep inp w = Some (Starve st' inp') ->
  (length inp' <= length inp)%nat.
Proof.
  destruct st as [|cur rest]; [done|]. cbn [astep]. destruct (type cur <? 0).
  - destruct inp as [|c inp]; [by intros [= _ <-]|]. destruct (type_of_byte c) as [ty|]; [|done].
    pose proof (atyped_grows (set_type cur ty) rest rep inp [] w) as Hg. intros E. rewrite E in Hg.
    destruct Hg as [_ ->]. simpl. lia.
  - pose proof (atyped_grows cur rest rep inp [] w) as Hg. intros E. rewrite E in Hg. by destruct Hg as [_ ->].
Qed.

(** Pumping with enough fuel for the input. *)
Definition pump_all (st : list task) rep (inp : bytes) (w : W) := pump (S (length inp)) st rep inp w.

(** Feeding [k] to a parser that has used up what it had. *)
Definition resume (r : option (list (vptr Ob) * pstate)) (k : bytes) : option (list (vptr Ob) * pstate) :=
  match r with
  | Some (outs, Live st rep inp w) => '(outs', d) ← pump_all st rep (inp ++ k) w; Some (outs ++ outs', d)
  | r => r
  end.

Lemma resume_cons v r k :
  resume ('(outs, d) ← r; Some (v :: outs, d)) k = ('(outs, d) ← resume r k; Some (v :: outs, d)).
Proof.
  destruct r as [[outs [st rep inp w|]]|]; try done. cbn [mbind option_bind resume].
  by destruct (pump_all st rep (inp ++ k) w) as [[? ?]|].
Qed.

Lemma pump_app_fuel f : forall st rep inp k w, (length (inp ++ k) < f)%nat ->
  pump f st rep (inp ++ k) w = resume (pump f st rep inp w) k.
Proof.
  induction f as [|f IH]; intros st rep inp k w Hf; [lia|]. rewrite length_app in Hf. cbn [pump]. rewrite astep_app.
  destruct (astep st rep inp w) as [[st' inp'|st' rep' inp' w'|ty str w']|] eqn:E; try done; cbn [mbind option_bind].
  - apply astep_starves in E. cbn [resume]. unfold pump_all.
    rewrite (pump_fuel (S (length (inp' ++ k))) (S f)) by (rewrite length_app; lia).
    change (astep st' rep (inp' ++ k) w ≫= _) with (pump (S f) st' rep (inp' ++ k) w).
    by destruct (pump (S f) st' rep (inp' ++ k) w) as [[? ?]|].
  - apply astep_consumes in E.
    destruct st' as [|t st']; [|apply IH; rewrite length_app; lia]. destruct rep' as [v|]; [|done].
    rewrite IH by (rewrite length_app; lia). by rewrite resume_cons.
  - by destruct (free_reply rep w').
Qed.

(** Pumping in two parts is pumping at once. *)
Lemma pump_app st rep inp k w : pump_all st rep (inp ++ k) w = resume (pump_all st rep inp w) k.
Proof.
  unfold pump_all. rewrite pump_app_fuel by lia. f_equal. apply pump_fuel; rewrite ?length_app; lia.
Qed.

(** The root object exists as soon as the stack has a second task. *)
Definition rep_inv (st : list task) (rep : option (vptr Ob)) : Prop := (2 <= length st)%nat -> is_Some rep.

Lemma finish_rep cur rest rep inp c st rep' inp' w : rep_inv (cur :: rest) rep ->
  finish cur rest rep inp c = Some (Next st rep' inp' w) -> is_Some rep'.
Proof.
  intros Hinv. unfold finish. destruct c as [[? [o|]]|]; [|done..]. cbn [mbind option_bind].
  destruct (anext (cur :: rest)); [|done]. cbn [mbind option_bind]. intros [= _ <- _ _].
  destruct rest; [by eexists|]. apply Hinv. simpl. lia.
Qed.

Lemma atyped_rep cur rest rep inp w st' rep' inp' w' : rep_inv (cur :: rest) rep ->
  atyped cur rest rep inp w = Some (Next st' rep' inp' w') -> is_Some rep'.
Proof.
  intros Hinv. unfold atyped. destruct (_ || _); [|destruct (_ =? _); [|destruct (_ =? _); [|done]]].
  - unfold aline. destruct (find_crlf inp) as [n|]; [|done]. by apply finish_rep.
  - unfold abulk. destruct (find_crlf inp) as [n|]; [|done]. destruct (readLongLong inp) as [l|]; [|done].
    cbn [mbind option_bind]. destruct (l <? 0); [by apply finish_rep|]. destruct (_ <=? _); [by apply finish_rep | done].
  - unfold amulti. destruct (_ =? 8); [done|]. destruct (find_crlf inp) as [n|]; [|done].
    destruct (readLongLong inp) as [l|]; [|done]. cbn [mbind option_bind].
    destruct (l =? -1); [by apply finish_rep|]. destruct (0 <? l); [|by apply finish_rep].
    destruct (create _ _ _ _) as [[? [o|]]|]; cbn [mbind option_bind]; [|done..]. intros [= _ <- _ _].
    destruct rest; [by eexists|]. apply Hinv. simpl. lia.
Qed.

Lemma astep_rep st rep inp w st' rep' inp' w' : rep_inv st rep ->
  astep st rep inp w = Some (Next st' rep' inp' w') -> is_Some rep'.
Proof.
  intros Hinv. destruct st as [|cur rest]; [done|]. cbn [astep]. destruct (type cur <? 0); [|by apply atyped_rep].
  destruct inp as [|c inp]; [done|]. destruct (type_of_byte c) as [ty|]; [|done]. by apply atyped_rep.
Qed.

(** ** The reader refines the abstract parser *)

(** *** Scanning *)

Lemma skip_to_cr_spec s a : forall pre b f l, s = pre ++ a ++ b -> CR ∉ a ->
  (zlen pre + zlen a = l \/ (zlen pre + zlen a < l /\ exists b', b = CR :: b')) -> (length a < f)%nat ->
  skip_to_cr f s (zlen pre) l = Some (zlen pre + zlen a).
Proof.
  induction a as [|c a IH]; intros pre b [|f] l Hs Hn Hl Hf; simpl in Hf; try lia; cbn [skip_to_cr].
  - replace (zlen pre + zlen (@nil Z)) with (zlen pre) in * by zl. destruct (Z.ltb_spec (zlen pre) l); [|done].
    destruct Hl as [?|[_ [b' ->]]]; [lia|]. rewrite Hs. cbn [app]. by rewrite (rd_at pre b' CR).
  - rewrite (proj2 (Z.ltb_lt _ _)) by zl. rewrite Hs at 1. cbn [app]. rewrite (rd_at pre (a ++ b) c) by done.
    cbn [mbind option_bind]. rewrite (proj2 (Z.eqb_neq c CR)) by set_solver.
    replace (zlen pre + 1) with (zlen (pre ++ [c])) by zl.
    rewrite (IH (pre ++ [c]) b f l); [f_equal; zl | by rewrite <- app_assoc | set_solver | | lia].
    destruct Hl as [?|[? ?]]; [left; zl | right; split; [zl | done]].
Qed.

Lemma find_crlf_skip a b : CR ∉ a -> find_crlf (a ++ b) = (Z.add (zlen a)) <$> find_crlf b.
Proof.
  induction a as [|c a IH]; intros Hn; cbn [app find_crlf].
  - by destruct (find_crlf b).
  - rewrite (proj2 (Z.eqb_neq c CR)) by set_solver. cbn [andb]. rewrite IH by set_solver.
    destruct (find_crlf b); simpl; [|done]. f_equal. zl.
Qed.

(** The first CR of a list. *)
Lemma first_cr (l : bytes) : CR ∉ l \/ exists a b, l = a ++ CR :: b /\ CR ∉ a.
Proof.
  induction l as [|c l IH]; [left; set_solver|]. destruct (decide (c = CR)) as [->|Hc].
  - right. exists [], l. split; [done | set_solver].
  - destruct IH as [Hn|(a & b & -> & Hn)]; [left; set_solver|]. right. exists (c :: a), b. split; [done | set_solver].
Qed.

Lemma find_crlf_cr d b : find_crlf (CR :: d :: b) = if d =? LF then Some 0 else Z.succ <$> find_crlf (d :: b).
Proof. cbn [find_crlf]. by destruct (d =? LF). Qed.

Lemma seek_loop_spec inp t f : forall pre suf, inp = pre ++ suf -> (length suf < f)%nat ->
  seek_loop f (inp ++ 0 :: t) (zlen pre) (zlen inp - 1) = Some ((Z.add (zlen pre)) <$> find_crlf suf).
Proof.
  induction f as [|f IH]; intros pre suf -> Hf; [lia|]. cbn [seek_loop].
  destruct suf as [|z suf' _] using rev_ind; [rewrite (proj2 (Z.ltb_ge _ _)) by zl; done|].
  destruct (decide (suf' = [])) as [->|Hne].
  { cbn [app find_crlf]. rewrite Bool.andb_false_r, (proj2 (Z.ltb_ge _ _)) by zl. done. }
  assert (0 < zlen suf') by (destruct suf'; [done | zl]). rewrite (proj2 (Z.ltb_lt _ _)) by zl.
  rewrite <- !app_assoc. cbn [app]. rewrite length_app in Hf. simpl in Hf.
  destruct (first_cr suf') as [Hn|(a & b & -> & Hn)].
  - rewrite (skip_to_cr_spec _ suf' pre (z :: 0 :: t)); [|done|done|left; zl|rewrite !length_app; lia].
    cbn [mbind option_bind]. rewrite app_assoc. rewrite (rd_at (pre ++ suf') (0 :: t) z (zlen pre + zlen suf')) by zl. cbn [mbind option_bind].
    rewrite find_crlf_skip by done. cbn [find_crlf]. rewrite Bool.andb_false_r. cbn [fmap option_fmap option_map].
    destruct (Z.eqb_spec z CR) as [->|_]; [|done]. cbn [negb].
    replace ((pre ++ suf') ++ CR :: 0 :: t) with ((pre ++ suf' ++ [CR]) ++ 0 :: t) by (by rewrite <- !app_assoc).
    rewrite (rd_at (pre ++ suf' ++ [CR]) t 0) by zl. cbn [mbind option_bind Z.eqb LF].
    specialize (IH (pre ++ suf' ++ [CR]) []). rewrite app_nil_r in IH. simpl in IH.
    replace (zlen pre + zlen suf' + 1) with (zlen (pre ++ suf' ++ [CR])) by zl. apply IH; [done | lia].
  - rewrite <- app_assoc in *. cbn [app] in *. rewrite length_app in Hf. simpl in Hf.
    rewrite (skip_to_cr_spec _ a pre (CR :: b ++ z :: 0 :: t));
      [|done|done|right; split; [zl | by eexists]|rewrite !length_app; lia].
    cbn [mbind option_bind]. rewrite app_assoc. rewrite (rd_at (pre ++ a) _ CR (zlen pre + zlen a)) by zl. cbn [mbind option_bind].
    rewrite Z.eqb_refl. cbn [negb].
    destruct (b ++ [z]) as [|d b'] eqn:Eb; [by destruct b|].
    replace ((pre ++ a) ++ CR :: b ++ z :: 0 :: t) with ((pre ++ a ++ [CR]) ++ d :: b' ++ 0 :: t).
    2: { rewrite <- !app_assoc. cbn [app]. do 3 f_equal. change (d :: b' ++ 0 :: t) with ((d :: b') ++ 0 :: t).
         rewrite <- Eb, <- app_assoc. done. }
    rewrite (rd_at (pre ++ a ++ [CR]) _ d) by zl. cbn [mbind option_bind].
    replace ((a ++ CR :: b) ++ [z]) with (a ++ CR :: d :: b') in * by (rewrite <- app_assoc; cbn [app]; by rewrite Eb).
    rewrite find_crlf_skip, find_crlf_cr by done. destruct (d =? LF).
    + cbn. do 2 f_equal. lia.
    + replace ((pre ++ a ++ [CR]) ++ d :: b' ++ 0 :: t) with ((pre ++ a ++ CR :: d :: b') ++ 0 :: t)
        by (by rewrite <- !app_assoc).
      replace (zlen pre + zlen a + 1) with (zlen (pre ++ a ++ [CR])) by zl.
      rewrite (IH (pre ++ a ++ [CR]) (d :: b')); [|by rewrite <- !app_assoc|rewrite <- Eb, length_app; simpl; lia].
      destruct (find_crlf (d :: b')); [|done]. simpl. do 2 f_equal. zl.
Qed.

(** [seekNewline] finds the first CR LF, also when the data ends in a CR: the byte it reads
    behind the data is the NUL of the buffer. *)
Lemma seekNewline_spec inp t : zlen inp <= INT_MAX ->
  seekNewline (inp ++ 0 :: t) (zlen inp) = Some (find_crlf inp).
Proof.
  intros Hl. unfold seekNewline. rewrite i32_u64 by (unfold INT_MIN, INT_MAX in *; zlen_pos; lia).
  etransitivity; [apply (seek_loop_spec inp t _ [] inp); [done | rewrite length_app; simpl; lia]|].
  by destruct (find_crlf inp).
Qed.

(** *** The simulation relation *)

(** Each task points to the one below it. *)
Fixpoint links (st : list task) : Prop :=
  match st with
  | [] => True
  | cur :: rest =>
      parent cur = match rest with [] => None | _ :: _ => Some (zlen rest - 1) end /\ links rest
  end.

(** The live tasks are the first ones of the stack array, bottom first. *)
Definition stk (rs : list task) (st : list task) : Prop :=
  length rs = 9%nat /\ (exists dead, rs = rev st ++ dead) /\ links st.

(** The reader [r], with at most [n] bytes in its buffer, is in this abstract state. *)
Record sim (n : Z) (r : reader) (st : list task) (rep : option (vptr Ob)) (inp : bytes) : Prop := {
  sim_err : err r = 0;
  sim_buf : exists s pre, buf r = Some s /\ Sds.repr s (pre ++ inp) /\ zlen pre = pos r /\
              len r = zlen (pre ++ inp) /\ zlen (pre ++ inp) <= n <= INT_MAX;
  sim_stk : stk (rstack r) st;
  sim_ridx : ridx r = zlen st - 1;
  sim_rep : reply r = rep;
  sim_errstr : errstr r = [];
}.

(** The reader holds no reply that [redisReaderFree] would release. *)
Definition spent (r : reader) : Prop := forall w, redisReaderFree r w = Some w.

(** A result of the code for an abstract outcome. *)
Definition refines (n : Z) (o : option outcome) (rep : option (vptr Ob)) (w : W) (res : option (Z * reader * W)) : Prop :=
  match o with
  | None => res = None
  | Some (Starve st inp) => exists r', res = Some (REDIS_ERR, r', w) /\ sim n r' st rep inp
  | Some (Next st rep' inp w') => exists r', res = Some (REDIS_OK, r', w') /\ sim n r' st rep' inp
  | Some (Fail ty str w') =>
      match free_reply rep w' with
      | None => res = None
      | Some w'' => exists r', res = Some (REDIS_ERR, r', w'') /\ err r' = ty /\ errstr r' = take 127 str /\ spent r'
      end
  end.

Lemma stk_length rs st : stk rs st -> (length st <= 9)%nat.
Proof. intros (Hl & [dead ->] & _). rewrite length_app, length_rev in Hl. lia. Qed.

Lemma stk_top rs cur rest : stk rs (cur :: rest) ->
  rd rs (zlen rest) = Some cur /\
  forall x, links (x :: rest) -> exists rs', wr rs (zlen rest) x = Some rs' /\ stk rs' (x :: rest).
Proof.
  intros (Hl & [dead ->] & Hk). cbn [rev] in *. rewrite <- app_assoc in *. cbn [app] in *. split.
  - apply rd_at. by rewrite zlen_rev.
  - intros x Hx. rewrite wr_at by (by rewrite zlen_rev). eexists. split; [done|]. split_and!; [|exists dead|done].
    + rewrite !length_app in *. done.
    + cbn [rev]. by rewrite <- app_assoc.
Qed.

Lemma stk_tail rs cur rest : stk rs (cur :: rest) -> stk rs rest.
Proof.
  intros (Hl & [dead ->] & [_ Hk]). split_and!; [done | | done]. exists (cur :: dead). cbn [rev]. by rewrite <- app_assoc.
Qed.

Lemma next_loop_sim f : forall r st, stk (rstack r) st -> ridx r = zlen st - 1 -> st <> [] -> (length st < f)%nat ->
  match anext st with
  | None => next_loop f r = None
  | Some st' => exists rs', next_loop f r = Some (set_stack r rs' (zlen st' - 1)) /\ stk rs' st'
  end.
Proof.
  induction f as [|f IH]; intros r st Hstk Hr Hne Hf; [lia|]. cbn [next_loop].
  destruct st as [|cur rest]; [done|]. rewrite Hr. replace (zlen (cur :: rest) - 1) with (zlen rest) by zl.
  rewrite (proj2 (Z.leb_le 0 _)) by zl. cbn [negb anext].
  destruct rest as [|prv rest']; cbn [Z.eqb zlen length Z.of_nat].
  { eexists. split; [done|]. destruct (stk_tail _ _ _ Hstk) as (? & ? & ?). done. }
  set (rest := prv :: rest') in *. rewrite (proj2 (Z.eqb_neq (zlen rest) 0)) by (unfold rest; zl).
  destruct (stk_top _ _ _ Hstk) as [-> Hwr]. cbn [mbind option_bind].
  replace (zlen rest - 1) with (zlen rest') by (unfold rest; zl). destruct (stk_top _ _ _ (stk_tail _ _ _ Hstk)) as [-> _].
  cbn [mbind option_bind]. destruct (type prv =? REDIS_REPLY_ARRAY); [|done]. cbn [negb].
  destruct (idx cur =? i32 (elements prv - 1)).
  - specialize (IH (set_stack r (rstack r) (zlen rest')) rest (stk_tail _ _ _ Hstk)). cbn [ridx set_stack] in IH.
    simpl in Hf. specialize (IH ltac:(unfold rest; zl) ltac:(done) ltac:(simpl; lia)). exact IH.
  - destruct (idx cur <? elements prv); [|done]. cbn [negb].
    destruct (Hwr (mk_task (-1) (-1) (i32 (idx cur + 1)) (obj cur) (parent cur))) as (rs' & -> & Hs').
    { destruct Hstk as (_ & _ & Hk). exact Hk. }
    cbn [mbind option_bind]. exists rs'. split; [|done]. do 2 f_equal. zl.
Qed.

Lemma rll_loop_range s : forall mult v x, rll_loop s mult v = Some x -> LONG_MIN <= x <= LONG_MAX.
Proof.
  induction s as [|c s IH]; intros mult v x; [done|]. cbn [rll_loop].
  destruct (c =? CR); [|destruct (is_digit c); [apply IH | intros [= <-]; unfold LONG_MIN, LONG_MAX; lia]].
  intros [= <-]. pose proof (swrap_range 64 (mult * v)). unfold LONG_MIN, LONG_MAX in *. simpl in *. lia.
Qed.

Lemma readLongLong_range s x : readLongLong s = Some x -> x <= LONG_MAX.
Proof. unfold readLongLong. repeat case_match; intros ?%rll_loop_range; lia. Qed.

Section Sim.
Context (n : Z) (Hn : n <= INT_MAX).

Lemma sim_set_stack r st rep inp rs' st' : sim n r st rep inp -> stk rs' st' ->
  sim n (set_stack r rs' (zlen st' - 1)) st' rep inp.
Proof. intros [] ?. split; done. Qed.

Lemma sim_set_reply r st rep inp rep' : sim n r st rep inp -> sim n (set_reply r rep') st rep' inp.
Proof. intros []. split; done. Qed.

Lemma sim_len r st rep inp : sim n r st rep inp ->
  u64 (len r - pos r) = zlen inp /\ zlen inp <= INT_MAX /\ 0 <= pos r /\ pos r + zlen inp <= INT_MAX.
Proof.
  intros [_ (s & pre & _ & _ & Hp & Hl & Hb) _ _ _]. rewrite Hl, zlen_app in *. zlen_pos. unfold INT_MAX in *.
  rewrite uwrap_small; lia.
Qed.

Lemma sim_mem r st rep inp : sim n r st rep inp ->
  exists pre t, mem r = Some (pre ++ inp ++ 0 :: t) /\ zlen pre = pos r /\
    drop (Z.to_nat (pos r)) (pre ++ inp ++ 0 :: t) = inp ++ 0 :: t.
Proof.
  intros [_ (s & pre & Hbuf & (t & Hb & _) & Hp & _) _ _ _]. exists pre, t. unfold mem. rewrite Hbuf. simpl.
  rewrite Hb, <- app_assoc. split_and!; try done. apply drop_app_exact. unfold zlen in Hp. lia.
Qed.

Lemma sim_advance r st rep inp k : sim n r st rep inp -> 0 <= k <= zlen inp ->
  sim n (set_pos r (u64 (pos r + k))) st rep (drop (Z.to_nat k) inp).
Proof.
  intros Hs Hk. destruct (sim_len _ _ _ _ Hs) as (_ & _ & Hp0 & Hpm).
  destruct Hs as [He (s & pre & Hbuf & Hr & Hp & Hl & Hb) Hst Hri Hre]. unfold INT_MAX in *.
  rewrite uwrap_small by lia. split; try done. cbn [buf pos len set_pos].
  exists s, (pre ++ take (Z.to_nat k) inp). rewrite <- app_assoc, take_drop. split_and!; try done; zl.
Qed.

Lemma sim_seek r st rep inp pre t : sim n r st rep inp -> mem r = Some (pre ++ inp ++ 0 :: t) -> zlen pre = pos r ->
  seekNewline (inp ++ 0 :: t) (u64 (len r - pos r)) = Some (find_crlf inp).
Proof. intros Hs _ _. destruct (sim_len _ _ _ _ Hs) as (-> & Hm & _). by apply seekNewline_spec. Qed.

Lemma sim_readLine r st rep inp : sim n r st rep inp ->
  match find_crlf inp with
  | None => readLine r = Some (None, r)
  | Some k => readLine r = Some (Some (pos r, k), set_pos r (u64 (pos r + (k + 2)))) /\
      sim n (set_pos r (u64 (pos r + (k + 2)))) st rep (drop (Z.to_nat (k + 2)) inp)
  end.
Proof.
  intros Hs. destruct (sim_mem _ _ _ _ Hs) as (pre & t & Em & Hp & Ed). unfold readLine. rewrite Em.
  cbn [mbind option_bind]. rewrite Ed, (sim_seek _ _ _ _ _ _ Hs Em Hp). cbn [mbind option_bind].
  destruct (find_crlf inp) as [k|] eqn:Ek; [|done]. apply find_crlf_bound in Ek.
  destruct (sim_len _ _ _ _ Hs) as (_ & Hm & ? & ?). unfold INT_MAX in *.
  rewrite i32_small by (unfold INT_MIN, INT_MAX; lia). split; [done|]. apply sim_advance; [done | lia].
Qed.

Lemma sim_top r cur rest rep inp : sim n r (cur :: rest) rep inp ->
  ridx r = zlen rest /\ rd (rstack r) (zlen rest) = Some cur /\ parent_of r cur = Some (head rest) /\
  (ridx r =? 0) = (if rest is [] then true else false).
Proof.
  intros [_ _ Hst Hri _]. assert (ridx r = zlen rest) as Hr by zl.
  destruct (stk_top _ _ _ Hst) as [Hrd _]. split_and!; try done.
  - unfold parent_of. destruct Hst as (Hl & Hd & Hp & Hk). rewrite Hp. destruct rest as [|prv rest]; [done|].
    replace (zlen (prv :: rest) - 1) with (zlen rest) by zl.
    destruct (stk_top (rstack r) prv rest) as [-> _]; [|done]. eapply stk_tail. by split.
  - rewrite Hr. destruct rest; [done|]. apply Z.eqb_neq. zl.
Qed.

Lemma seterror_sim r st rep inp ty str w : sim n r st rep inp ->
  refines n (Some (Fail ty str w)) rep w ('(r, w) ← redisReaderSetError r ty str w; Some (REDIS_ERR, r, w)).
Proof.
  intros Hs. unfold refines, redisReaderSetError, free_reply. rewrite (sim_rep _ _ _ _ _ Hs).
  destruct (buf r), rep as [o|]; [| by eexists | | by eexists];
    (destruct (fn_of freeObject) as [f|] eqn:Ef;
      [|eexists; split_and!; try done; intros w0; unfold redisReaderFree; cbn [reply]; by rewrite Ef]);
    (destruct (f o w) as [w'|]; [by eexists | done]).
Qed.

Lemma finish_sim r cur rest rep inp c w : sim n r (cur :: rest) rep inp ->
  refines n (finish cur rest rep inp c) rep w
    ('(w, o) ← c;
     match o with
     | None => '(r, w) ← redisReaderSetErrorOOM r w; Some (REDIS_ERR, r, w)
     | Some o => r ← moveToNextTask (set_root r o); Some (REDIS_OK, r, w)
     end).
Proof.
  intros Hs. unfold finish. destruct c as [[w' [o|]]|]; cbn [mbind option_bind]; [| |done].
  2: { eapply seterror_sim in Hs. exact Hs. }
  destruct (sim_top _ _ _ _ _ Hs) as (Hri & _ & _ & Hroot).
  assert (sim n (set_root r o) (cur :: rest) (root_reply rest rep o) inp) as Hs'.
  { unfold set_root. rewrite Hroot. destruct rest; [by eapply sim_set_reply | done]. }
  pose proof (next_loop_sim 10 (set_root r o) (cur :: rest) (sim_stk _ _ _ _ _ Hs') (sim_ridx _ _ _ _ _ Hs')
    ltac:(done) ltac:(pose proof (stk_length _ _ (sim_stk _ _ _ _ _ Hs')); lia)) as Hnext.
  unfold moveToNextTask. destruct (anext (cur :: rest)) as [st'|]; [|by rewrite Hnext].
  destruct Hnext as (rs' & -> & Hstk'). eexists. split; [done|]. by eapply sim_set_stack.
Qed.

Lemma sub_mem_inp (pre inp t : bytes) a b p : p = zlen pre + a -> 0 <= a -> 0 <= b -> a + b <= zlen inp ->
  sub_mem (pre ++ inp ++ t) p b = Some (take (Z.to_nat b) (drop (Z.to_nat a) inp)).
Proof.
  intros -> Ha Hb Hab. unfold sub_mem. rewrite decide_True by zl. f_equal.
  replace (Z.to_nat (zlen pre + a)) with (length pre + Z.to_nat a)%nat by (unfold zlen; lia).
  rewrite <- drop_drop, drop_app_length, drop_app_in, take_app_in by zl. done.
Qed.

Lemma processLineItem_sim r cur rest rep inp w : sim n r (cur :: rest) rep inp ->
  refines n (aline cur rest rep inp w) rep w (processLineItem r w).
Proof.
  intros Hs. destruct (sim_top _ _ _ _ _ Hs) as (Hri & Hcur & Hpar & _). unfold processLineItem, aline.
  rewrite Hri, Hcur. cbn [mbind option_bind]. rewrite Hpar. cbn [mbind option_bind].
  pose proof (sim_readLine _ _ _ _ Hs) as Hline. destruct (find_crlf inp) as [k|] eqn:Ek.
  2: { rewrite Hline. cbn [mbind option_bind]. by eexists. }
  destruct Hline as [-> Hs']. cbn [mbind option_bind].
  destruct (sim_mem _ _ _ _ Hs) as (pre & t & Em & Hp & Ed).
  unfold mem in Em |- *. cbn [set_pos buf]. rewrite Em. cbn [mbind option_bind]. rewrite Ed.
  destruct (readLongLong_app inp (0 :: t) k Ek) as [-> _]. apply find_crlf_bound in Ek.
  rewrite (sub_mem_inp pre inp (0 :: t) 0 k) by lia. cbn [mbind option_bind]. change (Z.to_nat 0) with 0%nat. rewrite drop_0.
  apply finish_sim. exact Hs'.
Qed.

Lemma processBulkItem_sim r cur rest rep inp w : sim n r (cur :: rest) rep inp ->
  refines n (abulk cur rest rep inp w) rep w (processBulkItem r w).
Proof.
  intros Hs. destruct (sim_top _ _ _ _ _ Hs) as (Hri & Hcur & Hpar & _). unfold processBulkItem, abulk.
  rewrite Hri, Hcur. cbn [mbind option_bind]. rewrite Hpar. cbn [mbind option_bind].
  destruct (sim_mem _ _ _ _ Hs) as (pre & t & Em & Hp & Ed). rewrite Em. cbn [mbind option_bind].
  rewrite Ed, (sim_seek _ _ _ _ _ _ Hs Em Hp). cbn [mbind option_bind].
  destruct (find_crlf inp) as [k|] eqn:Ek; [|by eexists].
  destruct (readLongLong_app inp (0 :: t) k Ek) as [-> [l Hl]]. apply find_crlf_bound in Ek.
  rewrite Hl. cbn [mbind option_bind]. destruct (sim_len _ _ _ _ Hs) as (_ & Hm & ? & ?). unfold INT_MAX in *.
  assert (forall c b inp', sim n (set_pos r (u64 (pos r + b))) (cur :: rest) rep inp' ->
    refines n (finish cur rest rep inp' c) rep w
      ('(w, o) ← c; match o with
        | None => '(r, w) ← redisReaderSetErrorOOM r w; Some (REDIS_ERR, r, w)
        | Some o => r ← moveToNextTask (set_root (set_pos r (u64 (pos r + b))) o); Some (REDIS_OK, r, w) end)) as Hfin.
  { intros c b inp' Hs'. pose proof (finish_sim _ _ _ _ _ c w Hs') as Hf.
    destruct c as [[w' [o|]]|]; [exact Hf | | exact Hf]. apply (seterror_sim _ _ _ _ _ _ _ Hs). }
  destruct (Z.ltb_spec l 0) as [Hneg|Hpos].
  - specialize (Hfin (create (fn_of createNil) (fun g => g cur (head rest)) REDIS_REPLY_NIL w) (k + 2) _
      (sim_advance _ _ _ _ (k + 2) Hs ltac:(lia))).
    destruct (create _ _ _ _) as [[w' [o|]]|]; exact Hfin.
  - assert (l <= LONG_MAX) as Hmax by (by eapply readLongLong_range). unfold LONG_MAX in *.
    rewrite (uwrap_small 64 (k + 2 + (l + 2))), (uwrap_small 64 (pos r + _)) by lia.
    destruct (sim_buf _ _ _ _ _ Hs) as (s & pre' & _ & _ & Hp' & Hlen & _).
    destruct (Z.leb_spec (k + 2 + l + 2) (zlen inp)) as [Hle|Hgt].
    + rewrite (proj2 (Z.leb_le (pos r + (k + 2 + (l + 2))) (len r))) by (rewrite Hlen; zl).
      rewrite (sub_mem_inp pre inp (0 :: t) (k + 2) l) by lia. cbn [mbind option_bind].
      specialize (Hfin (create (fn_of createString) (fun g => g cur (head rest)
        (take (Z.to_nat l) (drop (Z.to_nat (k + 2)) inp))) REDIS_REPLY_STRING w) (k + 2 + l + 2) _
        (sim_advance _ _ _ _ (k + 2 + l + 2) Hs ltac:(lia))).
      replace (k + 2 + (l + 2)) with (k + 2 + l + 2) by lia.
      destruct (create _ _ _ _) as [[w' [o|]]|]; exact Hfin.
    + rewrite (proj2 (Z.leb_gt (pos r + (k + 2 + (l + 2))) (len r))) by (rewrite Hlen; zl).
      cbn [mbind option_bind]. by eexists.
Qed.

(** The end of [processMultiBulkItem] when the item is complete: the root reply is set
    after the move instead of before it. *)
Lemma multi_move r cur rest rep inp o w w' : sim n r (cur :: rest) rep inp ->
  refines n (finish cur rest rep inp (Some (w', Some o))) rep w
    (r2 ← moveToNextTask r; Some (REDIS_OK, if ridx r =? 0 then set_reply r2 (Some o) else r2, w')).
Proof.
  intros Hs. destruct (sim_top _ _ _ _ _ Hs) as (_ & _ & _ & Hroot). pose proof (finish_sim _ _ _ _ _ (Some (w', Some o)) w Hs) as Hf.
  unfold finish in *. cbn [mbind option_bind] in *.
  pose proof (next_loop_sim 10 r (cur :: rest) (sim_stk _ _ _ _ _ Hs) (sim_ridx _ _ _ _ _ Hs)
    ltac:(done) ltac:(pose proof (stk_length _ _ (sim_stk _ _ _ _ _ Hs)); lia)) as Hnext.
  unfold moveToNextTask in *. destruct (anext (cur :: rest)) as [st'|]; cbn [mbind option_bind] in *; [|by rewrite Hnext].
  destruct Hnext as (rs' & -> & Hstk'). eexists. split; [done|]. rewrite Hroot.
  destruct rest; [eapply sim_set_reply|]; by eapply sim_set_stack.
Qed.

(** The end of [processMultiBulkItem] when elements follow: a task for them is pushed. *)
Lemma multi_push r cur rest rep inp o l w w' : sim n r (cur :: rest) rep inp ->
  zlen rest <> 8 ->
  refines n (Some (Next (mk_task (-1) (-1) 0 None (Some (zlen rest)) ::
                         mk_task (type cur) (i32 l) (idx cur) (Some o) (parent cur) :: rest)
                    (root_reply rest rep o) inp w')) rep w
    (r2 ← (st ← wr (rstack r) (ridx r) (mk_task (type cur) (i32 l) (idx cur) (Some o) (parent cur));
          st ← wr st (ridx r + 1) (mk_task (-1) (-1) 0 None (Some (ridx r)));
          Some (set_stack r st (ridx r + 1)));
     Some (REDIS_OK, if ridx r =? 0 then set_reply r2 (Some o) else r2, w')).
Proof.
  intros Hs H8. destruct (sim_top _ _ _ _ _ Hs) as (Hri & _ & _ & Hroot). rewrite Hroot, Hri.
  pose proof (sim_stk _ _ _ _ _ Hs) as Hstk. pose proof Hstk as (_ & _ & Hk).
  destruct (stk_top _ _ _ Hstk) as [_ Hwr].
  set (cur' := mk_task (type cur) (i32 l) (idx cur) (Some o) (parent cur)).
  destruct (Hwr cur' Hk) as (rs1 & -> & Hs1). cbn [mbind option_bind].
  set (new := mk_task (-1) (-1) 0 None (Some (zlen rest))).
  assert (exists rs2, wr rs1 (zlen rest + 1) new = Some rs2 /\ stk rs2 (new :: cur' :: rest)) as (rs2 & -> & Hs2).
  { destruct Hs1 as (Hl & [dead ->] & Hk1). rewrite length_app, length_rev in Hl. simpl in Hl.
    destruct dead as [|d dead]; [simpl in Hl; unfold zlen in H8; lia|].
    rewrite (wr_at (rev (cur' :: rest)) dead d new) by (rewrite zlen_rev; zl).
    eexists. split; [done|]. split_and!.
    - rewrite length_app, length_rev. simpl in *. lia.
    - exists dead. cbn [rev]. by rewrite <- !app_assoc.
    - split; [|exact Hk1]. cbn [parent new]. rewrite zlen_cons. f_equal. lia. }
  cbn [mbind option_bind]. eexists. split; [done|].
  assert (sim n (set_stack r rs2 (zlen rest + 1)) (new :: cur' :: rest) rep inp) as Hsim.
  { replace (zlen rest + 1) with (zlen (new :: cur' :: rest) - 1) by zl. by eapply sim_set_stack. }
  destruct rest; [by eapply sim_set_reply | done].
Qed.

Lemma processMultiBulkItem_sim r cur rest rep inp w : sim n r (cur :: rest) rep inp ->
  refines n (amulti cur rest rep inp w) rep w (processMultiBulkItem r w).
Proof.
  intros Hs. destruct (sim_top _ _ _ _ _ Hs) as (Hri & Hcur & Hpar & Hroot). unfold processMultiBulkItem, amulti.
  rewrite Hri, Hcur. cbn [mbind option_bind]. rewrite Hpar. cbn [mbind option_bind].
  destruct (Z.eqb_spec (zlen rest) 8) as [H8|H8]; [apply (seterror_sim _ _ _ _ _ _ _ Hs)|].
  pose proof (sim_readLine _ _ _ _ Hs) as Hline. destruct (find_crlf inp) as [k|] eqn:Ek.
  2: { rewrite Hline. cbn [mbind option_bind]. by eexists. }
  destruct Hline as [-> Hs']. cbn [mbind option_bind].
  destruct (sim_mem _ _ _ _ Hs) as (pre & t & Em & Hp & Ed).
  unfold mem in Em |- *. cbn [set_pos buf]. rewrite Em. cbn [mbind option_bind]. rewrite Ed.
  destruct (readLongLong_app inp (0 :: t) k Ek) as [-> [l Hl]]. rewrite Hl. cbn [mbind option_bind ridx].
  set (r' := set_pos r (u64 (pos r + (k + 2)))) in *.
  destruct (Z.eqb_spec l (-1)) as [->|Hne]; cbn [negb andb].
  - pose proof (finish_sim _ _ _ _ _ (create (fn_of createNil) (fun g => g cur (head rest)) REDIS_REPLY_NIL w) w Hs') as Hf.
    destruct (create _ _ _ _) as [[w' [o|]]|]; cbn [mbind option_bind]; [|exact Hf..].
    eapply multi_move; eassumption.
  - destruct (Z.ltb_spec 0 l) as [Hpos|Hneg]; cbn [negb].
    + destruct (create _ _ _ _) as [[w' [o|]]|]; cbn [mbind option_bind]; [| |done].
      2: apply (seterror_sim _ _ _ _ _ _ _ Hs').
      eapply multi_push; eassumption.
    + pose proof (finish_sim _ _ _ _ _ (create (fn_of createArray) (fun g => g cur (head rest) (i32 l)) REDIS_REPLY_ARRAY w) w Hs') as Hf.
      destruct (create _ _ _ _) as [[w' [o|]]|]; cbn [mbind option_bind]; [|exact Hf..].
      eapply multi_move; eassumption.
Qed.

Lemma processTyped_sim r cur rest rep inp w : sim n r (cur :: rest) rep inp ->
  refines n (atyped cur rest rep inp w) rep w (processTyped r (type cur) w).
Proof.
  intros Hs. unfold atyped, processTyped.
  repeat case_match; [by apply processLineItem_sim | by apply processBulkItem_sim | by apply processMultiBulkItem_sim | done].
Qed.

Lemma processItem_sim r st rep inp w : sim n r st rep inp -> st <> [] ->
  refines n (astep st rep inp w) rep w (processItem r w).
Proof.
  intros Hs Hne. destruct st as [|cur rest]; [done|].
  destruct (sim_top _ _ _ _ _ Hs) as (Hri & Hcur & _). unfold processItem. cbn [astep].
  rewrite Hri, Hcur. cbn [mbind option_bind]. destruct (type cur <? 0); [|by apply processTyped_sim].
  unfold readBytes. destruct (sim_len _ _ _ _ Hs) as (-> & _). destruct inp as [|c inp]; [by exists r|].
  rewrite (proj2 (Z.leb_le 1 _)) by zl. pose proof (sim_advance _ _ _ _ 1 Hs ltac:(zl)) as Hs'.
  change (drop (Z.to_nat 1) (c :: inp)) with inp in Hs'. set (r' := set_pos r (u64 (pos r + 1))) in *.
  destruct (sim_mem _ _ _ _ Hs) as (pre & t & Em & Hp & _). unfold mem in *. cbn [buf r' set_pos]. rewrite Em.
  cbn [mbind option_bind app]. rewrite (rd_at pre (inp ++ 0 :: t) c) by done. cbn [mbind option_bind].
  destruct (type_of_byte c) as [ty|] eqn:Ec.
  - destruct (sim_top _ _ _ _ _ Hs') as (Hri' & _). rewrite Hri'.
    destruct (stk_top _ _ _ (sim_stk _ _ _ _ _ Hs')) as [_ Hwr].
    destruct (Hwr (set_type cur ty)) as (rs & E & Hstk); [by destruct (sim_stk _ _ _ _ _ Hs') as (_ & _ & ?)|].
    unfold set_type in E. rewrite E. cbn [mbind option_bind].
    apply (processTyped_sim (set_stack r' rs (zlen rest)) (set_type cur ty)).
    replace (zlen rest) with (zlen (set_type cur ty :: rest) - 1) by zl. by eapply sim_set_stack.
  - apply (seterror_sim _ _ _ _ _ _ _ Hs').
Qed.

End Sim.

(** *** One reply *)

Inductive result :=
| RDone (v : vptr Ob) (inp : bytes) (w : W)
| RHungry (st : list task) (rep : option (vptr Ob)) (inp : bytes) (w : W)
| RBroken (ty : Z) (str : bytes) (w : W).

Fixpoint arun (fuel : nat) (st : list task) rep (inp : bytes) (w : W) : option result :=
  match fuel with
  | O => None
  | S f =>
      o ← astep st rep inp w;
      match o with
      | Starve st' inp' => Some (RHungry st' rep inp' w)
      | Fail ty str w' => w'' ← free_reply rep w'; Some (RBroken ty str w'')
      | Next [] (Some v) inp' w' => Some (RDone v inp' w')
      | Next [] None _ _ => None
      | Next st' rep' inp' w' => arun f st' rep' inp' w'
      end
  end.

Lemma pump_arun f : forall st rep inp w, (length inp < f)%nat ->
  pump f st rep inp w =
  match arun f st rep inp w with
  | Some (RDone v inp' w') => '(outs, d) ← pump_all [root_task] None inp' w'; Some (v :: outs, d)
  | Some (RHungry st' rep' inp' w') => Some ([], Live st' rep' inp' w')
  | Some (RBroken ty str w') => Some ([], Dead ty str w')
  | None => None
  end.
Proof.
  induction f as [|f IH]; intros st rep inp w Hf; [lia|]. cbn [pump arun].
  destruct (astep st rep inp w) as [[|st' rep' inp' w'|]|] eqn:E; try done; cbn [mbind option_bind].
  - apply astep_consumes in E. destruct st' as [|t st']; [|apply IH; lia]. destruct rep' as [v|]; [|done].
    unfold pump_all. by rewrite (pump_fuel f (S (length inp'))) by lia.
  - by destruct (free_reply rep w0).
Qed.

Lemma arun_done f : forall st rep inp w v inp' w', arun f st rep inp w = Some (RDone v inp' w') ->
  (length inp' < length inp)%nat.
Proof.
  induction f as [|f IH]; intros st rep inp w v inp' w'; [done|]. cbn [arun].
  destruct (astep st rep inp w) as [[|st1 rep1 inp1 w1|]|] eqn:E; try done; cbn [mbind option_bind].
  - apply astep_consumes in E. destruct st1 as [|t st1]; [|intros ?%IH; lia]. destruct rep1; [|done]. by intros [= _ <- _].
  - by destruct (free_reply rep w0).
Qed.

(** The errors of the parser. *)
Lemma astep_fail st rep inp w ty str w' : astep st rep inp w = Some (Fail ty str w') -> ty <> 0.
Proof.
  assert (forall cur rest i c, finish cur rest rep i c = Some (Fail ty str w') -> ty <> 0) as Hfin.
  { intros cur rest i c. unfold finish. destruct c as [[? [o|]]|]; [|by intros [= <- _ _]|done].
    cbn [mbind option_bind]. by destruct (anext _). }
  assert (forall cur rest i, atyped cur rest rep i w = Some (Fail ty str w') -> ty <> 0) as Htyped.
  { intros cur rest i. unfold atyped, aline, abulk, amulti.
    destruct (find_crlf i), (readLongLong i); cbn [mbind option_bind]; repeat case_match; try done;
      try apply Hfin; try (by intros [= <- _ _]).
    all: destruct (create _ _ _ _) as [[? [?|]]|]; cbn [mbind option_bind]; try done; by intros [= <- _ _]. }
  destruct st as [|cur rest]; [done|]. cbn [astep]. destruct (type cur <? 0); [|apply Htyped].
  destruct inp as [|c i]; [done|]. destruct (type_of_byte c); [apply Htyped|]. by intros [= <- _ _].
Qed.

Section Sim2.
Context (n : Z) (Hn : n <= INT_MAX).

Lemma items_loop_sim f : forall r st rep inp w, sim n r st rep inp -> st <> [] -> rep_inv st rep -> (length inp < f)%nat ->
  match arun f st rep inp w with
  | None => items_loop f r w = None
  | Some (RDone v inp' w') => exists r', items_loop f r w = Some (r', w') /\ sim n r' [] (Some v) inp'
  | Some (RHungry st' rep' inp' w') =>
      exists r', items_loop f r w = Some (r', w') /\ sim n r' st' rep' inp' /\ st' <> []
  | Some (RBroken ty str w') =>
      exists r', items_loop f r w = Some (r', w') /\ err r' = ty /\ errstr r' = take 127 str /\ spent r' /\ ty <> 0
  end.
Proof.
  induction f as [|f IH]; intros r st rep inp w Hs Hne Hrep Hf; [lia|]. cbn [arun items_loop].
  assert (0 <= ridx r) by (rewrite (sim_ridx _ _ _ _ _ Hs); destruct st; [done | zl]).
  rewrite (proj2 (Z.leb_le _ _)) by done.
  pose proof (processItem_sim n Hn r st rep inp w Hs Hne) as Hp.
  destruct (astep st rep inp w) as [[st' inp'|st' rep' inp' w'|ty str w']|] eqn:E; cbn [refines mbind option_bind] in *.
  - destruct Hp as (r' & -> & Hs'). exists r'. split; [done|]. split; [done|].
    intros ->. destruct st as [|cur rest]; [done|]. cbn [astep] in E.
    destruct (type cur <? 0); [destruct inp; [done|]; destruct (type_of_byte _) as [ty|]; [|done]|].
    + pose proof (atyped_grows (set_type cur ty) rest rep inp [] w) as Hg. rewrite E in Hg. by destruct Hg.
    + pose proof (atyped_grows cur rest rep inp [] w) as Hg. rewrite E in Hg. by destruct Hg.
  - destruct Hp as (r' & -> & Hs'). cbn [mbind option_bind]. rewrite Z.eqb_refl.
    destruct (astep_rep _ _ _ _ _ _ _ _ Hrep E) as [v ->]. apply astep_consumes in E.
    destruct st' as [|t st'].
    + exists r'. split; [|done]. destruct f; [lia|]. cbn [items_loop].
      by rewrite (sim_ridx _ _ _ _ _ Hs').
    + apply IH; [done | done | by eexists | lia].
  - destruct (free_reply rep w') as [w''|]; [|by rewrite Hp]. destruct Hp as (r' & -> & He & Hes).
    exists r'. split; [done|]. apply astep_fail in E. by destruct Hes.
  - by rewrite Hp.
Qed.

(** The tasks of a reader that is idle count as the root task that the next call pushes. *)
Definition norm (st : list task) : list task := match st with [] => [root_task] | _ :: _ => st end.

(** What holds between two calls. *)
Record ready (r : reader) (st : list task) (rep : option (vptr Ob)) (inp : bytes) (w : W) : Prop := {
  ready_sim : sim n r st rep inp;
  ready_rep : rep_inv (norm st) rep;
  ready_idle : st = [] -> rep = None;
  ready_empty : len r = 0 -> astep (norm st) rep [] w = Some (Starve (norm st) []);
}.

Lemma sdsrange_drop s (pre inp : bytes) : Sds.repr s (pre ++ inp) -> zlen (pre ++ inp) <= INT_MAX ->
  exists s', Sds.sdsrange s (i32 (zlen pre)) (-1) = Some s' /\ Sds.repr s' inp.
Proof.
  intros Hs Hl. unfold INT_MAX in *. rewrite zlen_app in Hl. zlen_pos.
  rewrite i32_small by (unfold INT_MIN, INT_MAX; lia).
  destruct (Sds.sdsrange_cut s (pre ++ inp) (zlen pre) (-1) Hs) as (s' & E & Hr);
    [unfold INT_MIN, INT_MAX; lia | unfold INT_MIN, INT_MAX; lia |].
  exists s'. split; [done|]. unfold Sds.range_of in Hr. rewrite (proj2 (Z.ltb_ge (zlen pre) 0)) in Hr by lia.
  cbn [Z.ltb Z.compare] in Hr. rewrite drop_app_exact in Hr by (unfold zlen; lia).
  rewrite take_ge in Hr; [done|]. rewrite zlen_app. unfold zlen. lia.
Qed.

(** The end of a call: compaction of the buffer. *)
Lemma compact_sim r st rep inp : sim n r st rep inp ->
  exists r', (if 1024 <=? pos r then
                b ← buf r; b ← Sds.sdsrange b (i32 (pos r)) (-1); Some (set_buf r (Some b) 0 (Sds.sdslen b))
              else Some r) = Some r' /\ sim n r' st rep inp /\ (len r' = 0 -> inp = []).
Proof.
  intros [He (s & pre & Hbuf & Hr & Hp & Hl & Hb) Hst Hri Hre]. destruct (Z.leb_spec 1024 (pos r)).
  - rewrite Hbuf. cbn [mbind option_bind]. rewrite <- Hp.
    destruct (sdsrange_drop s pre inp Hr) as (s' & -> & Hr'); [lia|]. cbn [mbind option_bind].
    eexists. split; [done|]. rewrite (Sds.sdslen_repr _ _ Hr'). split; [|cbn [len set_buf]; intros; destruct inp; [done | zl]].
    split; try done. exists s', []. cbn [buf pos len set_buf app]. split_and!; try done; zl.
  - exists r. split; [done|]. split; [by split; try done; exists s, pre|]. rewrite Hl. intros. destruct inp; [done | zl].
Qed.

Lemma arun_hungry f : forall st rep inp w st' rep' inp' w', rep_inv st rep ->
  arun f st rep inp w = Some (RHungry st' rep' inp' w') ->
  rep_inv st' rep' /\ astep st' rep' inp' w' = Some (Starve st' inp').
Proof.
  induction f as [|f IH]; intros st rep inp w st' rep' inp' w' Hrep; [done|]. cbn [arun].
  destruct (astep st rep inp w) as [[st1 inp1|st1 rep1 inp1 w1|]|] eqn:E; try done; cbn [mbind option_bind].
  - intros [= <- <- <- <-]. pose proof (astep_app st rep inp [] w) as Ha. rewrite app_nil_r, E, app_nil_r in Ha.
    split; [|done].
    intros Hl. apply Hrep. destruct st as [|cur rest]; [done|]. cbn [astep] in E.
    destruct (type cur <? 0); [destruct inp; [by injection E as <- _|]; destruct (type_of_byte _) as [ty|]; [|done]|].
    + pose proof (atyped_grows (set_type cur ty) rest rep inp [] w) as Hg. rewrite E in Hg. by destruct Hg as [-> _].
    + pose proof (atyped_grows cur rest rep inp [] w) as Hg. rewrite E in Hg. by destruct Hg as [-> _].
  - destruct st1 as [|t st1]; [by destruct rep1|]. apply IH. intros _. by eapply astep_rep.
  - by destruct (free_reply rep w0).
Qed.

(** A call on an idle reader pushes the root task. *)
Lemma push_root_sim r st rep inp : sim n r st rep inp ->
  exists r0, (if ridx r =? -1 then st ← wr (rstack r) 0 (mk_task (-1) (-1) (-1) None None); Some (set_stack r st 0)
    else Some r) = Some r0 /\ sim n r0 (norm st) rep inp.
Proof.
  intros Hs. destruct st as [|t st].
  - rewrite (sim_ridx _ _ _ _ _ Hs). cbn [Z.eqb zlen length Z.of_nat Z.sub Z.add Z.opp Pos.eqb].
    destruct (sim_stk _ _ _ _ _ Hs) as (Hl9 & _). destruct (rstack r) as [|x rs] eqn:Ers; [done|].
    pose proof (wr_at [] rs x root_task 0 eq_refl) as Hw. cbn [app] in Hw. fold root_task. rewrite Hw.
    eexists. split; [done|].
    apply (sim_set_stack n r [] rep inp (root_task :: rs) [root_task] Hs). split_and!; [done | by exists rs | done].
  - rewrite (proj2 (Z.eqb_neq _ _)) by (rewrite (sim_ridx _ _ _ _ _ Hs); zl). by exists r.
Qed.

(** [redisReaderGetReply] runs the abstract parser for one reply. *)
Lemma getreply_sim r st rep inp w : ready r st rep inp w ->
  match arun (S (length inp)) (norm st) rep inp w with
  | None => redisReaderGetReply r w = None
  | Some (RDone v inp' w') => exists r', redisReaderGetReply r w = Some (REDIS_OK, Some v, r', w') /\
      ready r' [] None inp' w'
  | Some (RHungry st' rep' inp' w') => exists r' st2, redisReaderGetReply r w = Some (REDIS_OK, None, r', w') /\
      ready r' st2 rep' inp' w' /\ norm st2 = st' /\ astep st' rep' inp' w' = Some (Starve st' inp')
  | Some (RBroken ty str w') => exists r', redisReaderGetReply r w = Some (REDIS_ERR, None, r', w') /\
      err r' = ty /\ errstr r' = take 127 str /\ spent r' /\ ty <> 0
  end.
Proof.
  intros [Hs Hrep Hidle Hempty]. unfold redisReaderGetReply. rewrite (sim_err _ _ _ _ _ Hs). cbn [Z.eqb negb].
  destruct (Z.eqb_spec (len r) 0) as [Hl|Hl].
  { assert (inp = []) as ->.
    { destruct (sim_buf _ _ _ _ _ Hs) as (? & pre & _ & _ & _ & Hlen & _). destruct inp; [done | zl]. }
    cbn [length arun]. rewrite (Hempty Hl). cbn [mbind option_bind]. exists r, st.
    split; [done|]. split; [by split|]. split; [done | by apply Hempty]. }
  destruct (push_root_sim r st rep inp Hs) as (r0 & -> & Hs0).
  cbn [mbind option_bind].
  destruct (sim_buf _ _ _ _ _ Hs0) as (_ & pre0 & _ & _ & Hp0 & Hl0 & _).
  replace (Z.to_nat (len r0 - pos r0)) with (length inp) by (rewrite Hl0, <- Hp0; unfold zlen; rewrite length_app; lia).
  pose proof (items_loop_sim (S (length inp)) r0 (norm st) rep inp w Hs0 ltac:(by destruct st) Hrep ltac:(lia)) as Hloop.
  destruct (arun (S (length inp)) (norm st) rep inp w) as [[v inp' w'|st' rep' inp' w'|ty str w']|] eqn:Er; cbn in Hloop |- *.
  - destruct Hloop as (r1 & -> & Hs1). cbn [mbind option_bind]. rewrite (sim_err _ _ _ _ _ Hs1). cbn [Z.eqb negb].
    destruct (compact_sim _ _ _ _ Hs1) as (r2 & -> & Hs2 & Hlen2). cbn [mbind option_bind].
    rewrite (sim_ridx _ _ _ _ _ Hs2). cbn [Z.eqb zlen length Z.of_nat Z.sub Z.add Z.opp Pos.eqb].
    rewrite (sim_rep _ _ _ _ _ Hs2). eexists. split; [done|]. split; try done; [by eapply sim_set_reply|].
    intros Hl2. simpl in Hl2. by simpl; unfold rep_inv; simpl; lia.
  - destruct Hloop as (r1 & -> & Hs1 & Hne). cbn [mbind option_bind]. rewrite (sim_err _ _ _ _ _ Hs1). cbn [Z.eqb negb].
    destruct (compact_sim _ _ _ _ Hs1) as (r2 & -> & Hs2 & Hlen2). cbn [mbind option_bind].
    rewrite (proj2 (Z.eqb_neq _ _)) by (rewrite (sim_ridx _ _ _ _ _ Hs2); destruct st'; [done | zl]).
    destruct (arun_hungry _ _ _ _ _ _ _ _ _ Hrep Er) as [Hrep' Hst'].
    assert (norm st' = st') as Hnorm by (by destruct st'). exists r2, st'. split; [done|]. split; [|done].
    split; try done; rewrite ?Hnorm; try done. intros Hl2. by rewrite (Hlen2 Hl2) in Hst'.
  - destruct Hloop as (r1 & -> & He & Hes & Hsp & Hty). cbn [mbind option_bind]. rewrite He, (proj2 (Z.eqb_neq ty 0)) by done.
    cbn [negb]. eauto 10.
  - by rewrite Hloop.
Qed.

End Sim2.

(** *** Whole inputs *)

(** A client: feed a chunk, take replies until there is none, and so on. *)
Fixpoint drain (calls : nat) (r : reader) (w : W) : option (list (vptr Ob) * reader * W) :=
  match calls with
  | O => None
  | S c =>
      '(ret, rep, r, w) ← redisReaderGetReply r w;
      if negb (ret =? REDIS_OK) then Some ([], r, w)
      else match rep with
           | None => Some ([], r, w)
           | Some v => '(outs, r, w) ← drain c r w; Some (v :: outs, r, w)
           end
  end.

Fixpoint consume (r : reader) (chunks : list bytes) (w : W) : option (list (vptr Ob) * reader * W) :=
  match chunks with
  | [] => Some ([], r, w)
  | k :: cs =>
      '(ret, r, w) ← redisReaderFeed r (Some k) w;
      '(o1, r, w) ← drain (S (Z.to_nat (len r))) r w;
      '(o2, r, w) ← consume r cs w;
      Some (o1 ++ o2, r, w)
  end.

(** What the client sees: the replies, the error, the state of its world, and the state it is
    left in by [redisReaderFree]. *)
Definition observe (x : option (list (vptr Ob) * reader * W)) :
    option (list (vptr Ob) * (Z * bytes) * W * option W) :=
  '(outs, r, w) ← x; Some (outs, (err r, errstr r), w, redisReaderFree r w).

Definition aobserve (x : option (list (vptr Ob) * pstate)) :
    option (list (vptr Ob) * (Z * bytes) * W * option W) :=
  '(outs, d) ← x;
  match d with
  | Live _ rep _ w => Some (outs, (0, []), w, free_reply rep w)
  | Dead ty str w => Some (outs, (ty, take 127 str), w, Some w)
  end.

Lemma sim_weaken n n' r st rep inp : n <= n' <= INT_MAX -> sim n r st rep inp -> sim n' r st rep inp.
Proof. intros Hn [He (s & pre & ? & ? & ? & ? & ?) ? ? ?]. split; try done. exists s, pre. split_and!; try done; lia. Qed.

(** Between calls, after an error. *)
Lemma dead_calls r w chunks : err r <> 0 ->
  (forall c, drain (S c) r w = Some ([], r, w)) /\ consume r chunks w = Some ([], r, w).
Proof.
  intros He. assert (forall c, drain (S c) r w = Some ([], r, w)) as Hd.
  { intros c. cbn [drain]. unfold redisReaderGetReply. by rewrite (proj2 (Z.eqb_neq _ _)). }
  split; [done|]. induction chunks as [|k cs IH]; [done|]. cbn [consume]. unfold redisReaderFeed.
  rewrite (proj2 (Z.eqb_neq (err r) 0)) by done. cbn [negb mbind option_bind].
  rewrite Hd. cbn [mbind option_bind]. by rewrite IH.
Qed.

Lemma drain_sim n calls : forall r st rep inp w, n <= INT_MAX -> ready n r st rep inp w ->
  (length inp < calls)%nat ->
  match pump_all (norm st) rep inp w with
  | None => drain calls r w = None
  | Some (outs, Live st' rep' inp' w') => exists r' st2, drain calls r w = Some (outs, r', w') /\
      ready n r' st2 rep' inp' w' /\ norm st2 = st' /\ astep st' rep' inp' w' = Some (Starve st' inp')
  | Some (outs, Dead ty str w') => exists r', drain calls r w = Some (outs, r', w') /\
      err r' = ty /\ errstr r' = take 127 str /\ spent r' /\ ty <> 0
  end.
Proof.
  induction calls as [|c IH]; intros r st rep inp w Hn Hr Hc; [lia|]. cbn [drain].
  unfold pump_all at 1. rewrite pump_arun by lia. pose proof (getreply_sim n Hn r st rep inp w Hr) as Hg.
  destruct (arun (S (length inp)) (norm st) rep inp w) as [[v inp' w'|st' rep' inp' w'|ty str w']|] eqn:Er.
  - destruct Hg as (r' & -> & Hr'). cbn [mbind option_bind]. rewrite Z.eqb_refl. cbn [negb].
    apply arun_done in Er. specialize (IH r' [] None inp' w' Hn Hr' ltac:(lia)). cbn [norm] in IH.
    destruct (pump_all [root_task] None inp' w') as [[outs [st' rep' inp2 w2|ty str w2]]|]; cbn [mbind option_bind].
    + destruct IH as (r2 & st2 & -> & ?). cbn [mbind option_bind]. eauto.
    + destruct IH as (r2 & -> & ?). cbn [mbind option_bind]. eauto.
    + by rewrite IH.
  - destruct Hg as (r' & st2 & -> & Hr' & Hnorm & Hst). cbn [mbind option_bind]. rewrite Z.eqb_refl. cbn [negb]. eauto 10.
  - destruct Hg as (r' & -> & He & Hes' & Hsp & Hty). cbn [mbind option_bind]. eauto 10.
  - by rewrite Hg.
Qed.

(** [redisReaderFeed] appends to the input. *)
Lemma feed_sim n r st rep inp w w0 k : has_memory -> Sds.fits (n + zlen k) -> 0 <= n -> ready n r st rep inp w0 ->
  astep (norm st) rep inp w = Some (Starve (norm st) inp) ->
  exists r', redisReaderFeed r (Some k) w = Some (REDIS_OK, r', w) /\ ready (n + zlen k) r' st rep (inp ++ k) w /\
    (length (inp ++ k) <= Z.to_nat (len r'))%nat.
Proof.
  intros Hm Hf Hn [Hs Hrep Hidle Hempty] Hst. unfold redisReaderFeed. rewrite (sim_err _ _ _ _ _ Hs). cbn [Z.eqb negb].
  pose proof (sim_buf _ _ _ _ _ Hs) as (s & pre & Hbuf & Hr & Hp & Hl & Hb).
  assert (n + zlen k <= INT_MAX) by (unfold Sds.fits, Sds.SDS_MAX_PREALLOC in Hf; lia).
  destruct (Z.leb_spec 1 (zlen k)) as [Hk|Hk].
  2: { destruct k; [|zl]. rewrite app_nil_r. exists r. split; [done|]. split.
       - split; [apply (sim_weaken n); [zl | done] | done | done |]. intros Hl0.
         assert (inp = []) as -> by (destruct inp; [done | zl]). done.
       - rewrite Hl. unfold zlen. rewrite length_app. lia. }
  rewrite Hbuf. cbn [mbind option_bind].
  assert (exists r1 s1 pre1, (if (len r =? 0) && negb (maxbuf r =? 0) && (maxbuf r <? Sds.sdsavail s) then
      let! b := Sds.sdsempty in Some (set_buf r (Some b) 0 (len r)) else Some r) = Some r1 /\ buf r1 = Some s1 /\
      Sds.repr s1 (pre1 ++ inp) /\ zlen pre1 = pos r1 /\ zlen (pre1 ++ inp) <= n /\
      (err r1, errstr r1, rstack r1, ridx r1, reply r1) = (err r, errstr r, rstack r, ridx r, reply r))
    as (r1 & s1 & pre1 & -> & Hbuf1 & Hr1 & Hp1 & Hb1 & Heq).
  { destruct (Z.eqb_spec (len r) 0) as [Hl0|Hl0]; cbn [andb]; [|exists r, s, pre; split_and!; done || lia].
    destruct (negb _ && _); [|exists r, s, pre; split_and!; done || lia].
    destruct (Sds.ok_or_oom_mem _ _ Hm Sds.sdsempty_spec) as (e & -> & He).
    assert (inp = []) as -> by (destruct inp; [done | zl]). eexists _, e, []. by split_and!. }
  cbn [mbind option_bind]. rewrite Hbuf1. cbn [mbind option_bind].
  destruct (Sds.ok_or_oom_mem _ _ Hm (Sds.sdscatlen_spec s1 (pre1 ++ inp) k (zlen k) Hr1 ltac:(zl)
    ltac:(unfold Sds.fits in *; zlen_pos; lia))) as (nb & -> & Hnb).
  rewrite take_ge in Hnb by (unfold zlen; lia). rewrite <- app_assoc in Hnb. eexists. split; [done|].
  rewrite (Sds.sdslen_repr _ _ Hnb). injection Heq as He1 Hes1 Hrs1 Hri1 Hre1. split.
  - split; [|done|done|cbn [len set_buf]; intros; zl].
    split; cbn [err errstr buf pos len rstack ridx reply set_buf]; rewrite ?He1, ?Hes1, ?Hrs1, ?Hri1, ?Hre1; try apply Hs.
    exists nb, pre1. split_and!; try done; zl.
  - cbn [len set_buf]. unfold zlen. rewrite !length_app. lia.
Qed.

(** The parser fed chunk by chunk. *)
Fixpoint aconsume (st : list task) rep (inp : bytes) (w : W) (chunks : list bytes) : option (list (vptr Ob) * pstate) :=
  match chunks with
  | [] => Some ([], Live st rep inp w)
  | k :: cs =>
      '(o1, d) ← pump_all st rep (inp ++ k) w;
      match d with
      | Live st' rep' inp' w' => '(o2, d2) ← aconsume st' rep' inp' w' cs; Some (o1 ++ o2, d2)
      | Dead _ _ _ => Some (o1, d)
      end
  end.

(** A parser that needs more input stays as it is until it gets some. *)
Lemma pump_live f : forall st rep inp w outs st' rep' inp' w',
  pump f st rep inp w = Some (outs, Live st' rep' inp' w') -> astep st' rep' inp' w' = Some (Starve st' inp').
Proof.
  induction f as [|f IH]; intros st rep inp w outs st' rep' inp' w'; [done|]. cbn [pump].
  destruct (astep st rep inp w) as [[st1 inp1|st1 rep1 inp1 w1|]|] eqn:E; try done; cbn [mbind option_bind].
  - intros [= <- <- <- <- <-]. pose proof (astep_app st rep inp [] w) as Ha. by rewrite app_nil_r, E, app_nil_r in Ha.
  - destruct st1 as [|t st1]; [|apply IH]. destruct rep1 as [v|]; [|done].
    destruct (pump f [root_task] None inp1 w1) as [[o d]|] eqn:Ep; [|done]. cbn [mbind option_bind].
    intros [= _ ->]. by eapply IH.
  - by destruct (free_reply rep w0).
Qed.

Lemma aconsume_concat chunks : forall st rep inp w, astep st rep inp w = Some (Starve st inp) ->
  aconsume st rep inp w chunks = pump_all st rep (inp ++ concat chunks) w.
Proof.
  induction chunks as [|k cs IH]; intros st rep inp w Hst; cbn [aconsume concat].
  - rewrite app_nil_r. unfold pump_all. cbn [pump]. by rewrite Hst.
  - rewrite app_assoc, (pump_app st rep (inp ++ k)). destruct (pump_all st rep (inp ++ k) w) as [[o1 [st' rep' inp' w'|]]|] eqn:E; try done.
    cbn [mbind option_bind resume]. rewrite IH; [done|]. by eapply pump_live.
Qed.

Lemma consume_sim chunks : forall n r st rep inp w, has_memory -> 0 <= n -> Sds.fits (n + zlen (concat chunks)) ->
  ready n r st rep inp w -> astep (norm st) rep inp w = Some (Starve (norm st) inp) ->
  observe (consume r chunks w) = aobserve (aconsume (norm st) rep inp w chunks).
Proof.
  induction chunks as [|k cs IH]; intros n r st rep inp w Hm Hn Hf Hr Hst; cbn [consume aconsume concat] in *.
  { cbn [observe aobserve mbind option_bind]. destruct Hr as [[He _ _ _ Hre Hes] _ _ _].
    unfold redisReaderFree, free_reply. by rewrite He, Hes, Hre. }
  assert (Sds.fits (n + zlen k)) as Hfk by (unfold Sds.fits in *; zl).
  assert (n + zlen k <= INT_MAX) by (unfold Sds.fits, Sds.SDS_MAX_PREALLOC in *; lia).
  destruct (feed_sim n r st rep inp w w k Hm Hfk Hn Hr Hst) as (r1 & -> & Hr1 & Hlen). cbn [mbind option_bind].
  pose proof (drain_sim (n + zlen k) (S (Z.to_nat (len r1))) r1 st rep (inp ++ k) w ltac:(done) Hr1 ltac:(lia)) as Hd.
  destruct (pump_all (norm st) rep (inp ++ k) w) as [[o1 [st' rep' inp' w'|ty str w']]|]; cbn [mbind option_bind].
  - destruct Hd as (r2 & st2 & -> & Hr2 & <- & Hst2). cbn [mbind option_bind].
    specialize (IH (n + zlen k) r2 st2 rep' inp' w' Hm ltac:(zlen_pos; lia)
      ltac:(by rewrite zlen_app, Z.add_assoc in Hf) Hr2 Hst2).
    destruct (consume r2 cs w') as [[[o2 r3] w3]|], (aconsume (norm st2) rep' inp' w' cs) as [[o2' d2]|];
      cbn [mbind option_bind observe aobserve] in *; try done; destruct d2; cbn [mbind option_bind] in *; congruence.
  - destruct Hd as (r2 & -> & He & Hes & Hsp & Hty). cbn [mbind option_bind].
    destruct (dead_calls r2 w' cs) as [_ ->]; [congruence|]. cbn [mbind option_bind observe aobserve].
    by rewrite app_nil_r, He, Hes, Hsp.
  - by rewrite Hd.
Qed.

(** A new reader is ready. *)
Lemma create_ready r w : redisReaderCreateWithFunctions true = Some (Some r) -> ready 0 r [] None [] w.
Proof.
  unfold redisReaderCreateWithFunctions. cbn [negb]. pose proof Sds.sdsempty_spec as He.
  destruct Sds.sdsempty as [[b|]|]; [|done..]. cbn in He. intros [= <-]. split; try done.
  - split; try done; [exists b, []; done|]. split; [done|]. split; [by eexists | done].
  - intros Hl. simpl in Hl. lia.
Qed.

Lemma consume_spec r chunks w : has_memory -> redisReaderCreateWithFunctions true = Some (Some r) ->
  Sds.fits (zlen (concat chunks)) ->
  observe (consume r chunks w) = aobserve (pump_all [root_task] None (concat chunks) w).
Proof.
  intros Hm Hc Hf. rewrite (consume_sim chunks 0 r [] None [] w); try done; [|by apply create_ready].
  cbn [norm]. by rewrite aconsume_concat.
Qed.

(** C1: on every input and with every set of reply functions, the reader of read.c, with
    its buffer, cursor and task array, emits the replies, the error and the client effects of
    the abstract parser on the concatenated input, and holds the same reply under
    construction: [redisReaderFree] releases what the parser is still building. *)
Theorem reader_refines_parser (r : reader) (chunks : list bytes) (w : W)
    (Hmem : has_memory) (Hnew : redisReaderCreateWithFunctions true = Some (Some r))
    (Hfit : Sds.fits (zlen (concat chunks))) :
  observe (consume r chunks w) = aobserve (pump_all [root_task] None (concat chunks) w).
Proof. by apply consume_spec. Qed.

(** C3: what the reader emits does not depend on how the input is cut into chunks: feeding
    the pieces one by one, taking the replies after each, gives the same replies in the same
    order, the same error and the same effects on the client as feeding the whole at once. *)
Theorem reader_chunk_independent (r : reader) (chunks1 chunks2 : list bytes) (w : W)
    (Hmem : has_memory) (Hnew : redisReaderCreateWithFunctions true = Some (Some r))
    (Hfit : Sds.fits (zlen (concat chunks1))) (Heq : concat chunks1 = concat chunks2) :
  observe (consume r chunks1 w) = observe (consume r chunks2 w).
Proof. rewrite !consume_spec by (done || by rewrite <- Heq). by rewrite Heq. Qed.

(** After an error the reader is inert: feeding and taking replies return
    [REDIS_ERR], call no client function and leave the reader as it is. *)
Theorem reader_error_sticky (r : reader) (data : option bytes) (w : W) (Herr : err r <> 0) :
  redisReaderFeed r data w = Some (REDIS_ERR, r, w) /\ redisReaderGetReply r w = Some (REDIS_ERR, None, r, w).
Proof. unfold redisReaderFeed, redisReaderGetReply. by rewrite (proj2 (Z.eqb_neq (err r) 0)). Qed.

(** *** Safety *)

(** The client functions that are set are defined on all arguments. *)
Record fn_total : Prop := {
  string_total : forall g, fn_of createString = Some g -> forall t p s w, is_Some (g t p s w);
  array_total : forall g, fn_of createArray = Some g -> forall t p k w, is_Some (g t p k w);
  integer_total : forall g, fn_of createInteger = Some g -> forall t p v w, is_Some (g t p v w);
  nil_total : forall g, fn_of createNil = Some g -> forall t p w, is_Some (g t p w);
  free_total : forall g, fn_of freeObject = Some g -> forall o w, is_Some (g o w);
}.

(** No array header in the input announces more elements than an [int] can hold. *)
Definition counts_ok (inp : bytes) : Prop :=
  forall a b v, inp = a ++ 42 :: b -> readLongLong b = Some v -> v <= INT_MAX.

(** Below the current task are arrays with elements left to read. *)
Fixpoint below (cur : task) (rest : list task) : Prop :=
  match rest with
  | [] => True
  | prv :: rest' =>
      type prv = REDIS_REPLY_ARRAY /\ 0 <= idx cur < elements prv /\ elements prv <= INT_MAX /\ below prv rest'
  end.

Definition stack_ok (st : list task) : Prop :=
  match st with [] => True | cur :: rest => type cur = -1 /\ below cur rest end.

Lemma counts_ok_drop inp k : counts_ok inp -> counts_ok (drop k inp).
Proof.
  intros Hc a b v E. apply (Hc (take k inp ++ a)). rewrite <- app_assoc, <- E. symmetry. apply take_drop.
Qed.

(** The assertions of [moveToNextTask] hold. *)
Lemma anext_safe rest : forall cur, below cur rest -> exists st, anext (cur :: rest) = Some st /\ stack_ok st.
Proof.
  induction rest as [|prv rest IH]; intros cur Hb; [by exists []|]. destruct Hb as (Ht & Hi & He & Hb).
  cbn [anext]. rewrite Ht, Z.eqb_refl. cbn [negb]. unfold INT_MAX in *.
  rewrite i32_small by (unfold INT_MIN, INT_MAX; lia).
  destruct (Z.eqb_spec (idx cur) (elements prv - 1)); [by apply IH|].
  rewrite (proj2 (Z.ltb_lt _ _)) by lia. cbn [negb].
  eexists. split; [done|]. split; [done|]. cbn [below idx]. rewrite i32_small by (unfold INT_MIN, INT_MAX; lia).
  unfold INT_MAX. split_and!; try done; lia.
Qed.

(** A step is defined and keeps the stack well formed. *)
Definition safe (o : option outcome) : Prop :=
  match o with
  | None => False
  | Some (Next st' _ inp' _) => stack_ok st' /\ counts_ok inp'
  | Some _ => True
  end.

Lemma finish_safe cur rest rep inp c : below cur rest -> counts_ok inp -> is_Some c -> safe (finish cur rest rep inp c).
Proof.
  intros Hb Hc [[w [o|]] ->]; [|done]. unfold finish. cbn [mbind option_bind].
  destruct (anext_safe rest cur Hb) as (st & -> & Hst). by split.
Qed.

Lemma create_total {F} (f : option F) call ty w : (forall g, f = Some g -> is_Some (call g w)) ->
  is_Some (create f call ty w).
Proof. intros Hf. unfold create. destruct f; [by apply Hf | by eexists]. Qed.

Lemma amulti_safe cur rest rep inp w v : fn_total -> type cur = REDIS_REPLY_ARRAY -> below cur rest -> counts_ok inp ->
  (readLongLong inp = Some v -> v <= INT_MAX) -> (find_crlf inp <> None -> readLongLong inp = Some v) ->
  safe (amulti cur rest rep inp w).
Proof.
  intros [_ Ha _ Hnil _] Hty Hb Hc Hv Hsome. unfold amulti. destruct (_ =? 8); [done|].
  destruct (find_crlf inp) as [n|]; [|done]. rewrite (Hsome ltac:(done)) in *. specialize (Hv eq_refl).
  cbn [mbind option_bind]. pose proof (counts_ok_drop inp (Z.to_nat (n + 2)) Hc) as Hd.
  destruct (v =? -1); [apply finish_safe; [done.. | apply create_total; eauto]|].
  destruct (Z.ltb_spec 0 v); [|apply finish_safe; [done.. | apply create_total; eauto]].
  destruct (create_total (fn_of createArray) (fun g => g cur (head rest) (i32 v)) REDIS_REPLY_ARRAY w) as [[w' [o|]] ->];
    [eauto | | done].
  unfold INT_MAX in *. split; [|done]. split; [done|]. cbn [below type idx elements].
  rewrite i32_small by (unfold INT_MIN, INT_MAX; lia). unfold INT_MAX. split_and!; try lia. by destruct rest.
Qed.

Lemma type_of_byte_spec c ty : type_of_byte c = Some ty ->
  (ty = REDIS_REPLY_ERROR \/ ty = REDIS_REPLY_STATUS \/ ty = REDIS_REPLY_INTEGER) \/ ty = REDIS_REPLY_STRING \/
  (ty = REDIS_REPLY_ARRAY /\ c = 42).
Proof.
  unfold type_of_byte.
  destruct (c =? 45), (c =? 43), (c =? 58), (c =? 36), (Z.eqb_spec c 42); intros [= <-]; auto 10.
Qed.

Lemma astep_safe st rep inp w : fn_total -> stack_ok st -> st <> [] -> counts_ok inp -> safe (astep st rep inp w).
Proof.
  intros Htot Hst Hne Hc. destruct st as [|cur rest]; [done|]. destruct Hst as [Hty Hb]. cbn [astep]. rewrite Hty.
  cbn [Z.ltb Z.compare]. destruct inp as [|c inp]; [done|]. destruct (type_of_byte c) as [ty|] eqn:Ec; [|done].
  assert (counts_ok inp) as Hc' by (apply (counts_ok_drop (c :: inp) 1 Hc)).
  assert (below (set_type cur ty) rest) as Hb' by (by destruct rest). set (cur' := set_type cur ty) in *.
  assert (forall n, find_crlf inp = Some n -> is_Some (readLongLong inp)) as Hrll
    by (intros n Hn; by destruct (readLongLong_app inp [] n Hn)).
  unfold atyped. destruct (_ || _) eqn:Hor; [|destruct (_ =? REDIS_REPLY_STRING) eqn:Hstr;
    [|destruct (Z.eqb_spec (type cur') REDIS_REPLY_ARRAY)]].
  - unfold aline. destruct (find_crlf inp) as [n|] eqn:En; [|done]. destruct (Hrll n eq_refl) as [v ->].
    cbn [mbind option_bind]. destruct Htot. apply finish_safe; [done | by apply counts_ok_drop |].
    destruct (type cur' =? REDIS_REPLY_INTEGER); apply create_total; eauto.
  - unfold abulk. destruct (find_crlf inp) as [n|] eqn:En; [|done]. destruct (Hrll n eq_refl) as [v ->].
    cbn [mbind option_bind]. destruct Htot.
    destruct (v <? 0); [apply finish_safe; [done | by apply counts_ok_drop | apply create_total; eauto]|].
    destruct (_ <=? _); [apply finish_safe; [done | by apply counts_ok_drop | apply create_total; eauto] | done].
  - destruct (find_crlf inp) as [n|] eqn:En.
    + destruct (Hrll n eq_refl) as [v Hv]. apply (amulti_safe cur' rest rep inp w v); try done.
      intros Hv'. apply (Hc [] inp v); [|done]. cbn [app].
      apply type_of_byte_spec in Ec as [[ -> |[ -> | -> ]]|[ -> |[_ -> ]]]; done.
    + unfold amulti. rewrite En. by destruct (_ =? 8).
  - exfalso. revert Hor Hstr n. cbn [cur' type set_type].
    apply type_of_byte_spec in Ec as [[ -> |[ -> | -> ]]|[ -> |[ -> _]]]; done.
Qed.

Lemma pump_safe f : forall st rep inp w, fn_total -> stack_ok st -> st <> [] -> counts_ok inp -> rep_inv st rep ->
  (length inp < f)%nat -> is_Some (pump f st rep inp w).
Proof.
  induction f as [|f IH]; intros st rep inp w Htot Hst Hne Hc Hrep Hf; [lia|]. cbn [pump].
  pose proof (astep_safe st rep inp w Htot Hst Hne Hc) as Hs.
  destruct (astep st rep inp w) as [[st' inp'|st' rep' inp' w'|ty str w']|] eqn:E; cbn [mbind option_bind]; [by eexists| | |done].
  - destruct Hs as [Hst' Hc']. destruct (astep_rep _ _ _ _ _ _ _ _ Hrep E) as [v ->]. apply astep_consumes in E.
    destruct st' as [|t st']; [|apply IH; try done; [intros _; by eexists | lia]].
    destruct (IH [root_task] None inp' w') as [[outs d] ->]; try done; try lia; try (by eexists).
    unfold rep_inv. simpl. lia.
  - assert (is_Some (free_reply rep w')) as [w'' ->]; [|by eexists]. unfold free_reply.
    destruct rep as [o|]; [|by eexists]. destruct (fn_of freeObject) eqn:Ef; [|by eexists].
    by apply (free_total Htot).
Qed.

(** C21: with client functions that are defined everywhere, the reader is defined on every
    input whose array headers fit an [int], as long as memory can be allocated: no read
    outside the buffer, no access outside the task array, no failing assertion, and it
    terminates. (A number that overflows a [long long] is read as it wraps around.) *)
Theorem reader_safe (r : reader) (chunks : list bytes) (w : W)
    (Hmem : has_memory) (Hnew : redisReaderCreateWithFunctions true = Some (Some r))
    (Hfit : Sds.fits (zlen (concat chunks))) (Htot : fn_total) (Hcounts : counts_ok (concat chunks)) :
  exists outs r' w', consume r chunks w = Some (outs, r', w').
Proof.
  pose proof (consume_spec r chunks w Hmem Hnew Hfit) as Hobs.
  destruct (pump_safe (S (length (concat chunks))) [root_task] None (concat chunks) w) as [[outs d] Hp];
    try done; try lia; [unfold rep_inv; simpl; lia|].
  unfold pump_all in Hobs. rewrite Hp in Hobs.
  destruct (consume r chunks w) as [[[o r'] w']|]; [eauto|]. by destruct d.
Qed.

End Reader.

(** ** A client without reply functions *)

#[local] Existing Instance demo_memory.

Definition demo_reader : redisReader unit :=
  mk_reader 0 [] (Some (Sds.mk_sds 0 0 [0])) 0 0 REDIS_READER_MAX_BUF (replicate 9 (mk_task 0 0 0 None None)) (-1) None.

Lemma demo_create : redisReaderCreateWithFunctions true = Some (Some demo_reader).
Proof. reflexivity. Qed.

Definition crlf : bytes := [13; 10].
Definition demo_chunks : list bytes :=
  [bstr "*2" ++ [13]; [10] ++ bstr "$3" ++ crlf ++ bstr "a"; bstr "bc" ++ crlf ++ bstr ":7" ++ crlf ++ bstr "+O";
   bstr "K" ++ crlf].

(** A number out of the range of a [long long] is read as another one. *)
Theorem number_wraps : readLongLong (bstr "18446744073709551621" ++ crlf) = Some 5.
Proof. reflexivity. Qed.

Lemma reader_refines_parser_witness :
  observe None (consume None demo_reader demo_chunks tt) =
  Some ([Cast REDIS_REPLY_ARRAY; Cast REDIS_REPLY_STATUS], (0, []), tt, Some tt).
Proof.
  rewrite (reader_refines_parser None demo_reader demo_chunks tt demo_has_memory demo_create ltac:(done)).
  vm_compute. reflexivity.
Defined.

Lemma reader_chunk_independent_witness :
  observe None (consume None demo_reader demo_chunks tt) = observe None (consume None demo_reader [concat demo_chunks] tt).
Proof.
  refine (reader_chunk_independent None demo_reader demo_chunks [concat demo_chunks] tt demo_has_memory demo_create _ _);
    [done | symmetry; apply app_nil_r].
Defined.

Lemma reader_error_sticky_witness :
  redisReaderGetReply (Ob:=unit) (W:=unit) None
    (mk_reader 4 [] None 0 0 0 [] (-1) None) tt = Some (REDIS_ERR, None, mk_reader 4 [] None 0 0 0 [] (-1) None, tt).
Proof. apply (reader_error_sticky None (mk_reader 4 [] None 0 0 0 [] (-1) None) None tt). discriminate. Defined.

Lemma reader_safe_witness :
  exists outs r' w', consume None demo_reader [bstr "*1" ++ crlf ++ bstr ":5" ++ crlf] tt = Some (outs, r', w').
Proof.
  refine (reader_safe None demo_reader _ tt demo_has_memory demo_create _ _ _); [done | by split | ].
  intros a b v E Hv. destruct a as [|x a]; [injection E as <-; vm_compute in Hv; injection Hv as <-; done|].
  exfalso. assert (42 ∈ x :: a ++ 42 :: b) as Hin by set_solver. change (x :: a ++ 42 :: b) with ((x :: a) ++ 42 :: b) in Hin.
  injection E as <- E. assert (42 ∈ a ++ 42 :: b) as Hin2 by set_solver. rewrite <- E in Hin2.
  vm_compute in Hin2. repeat (apply elem_of_cons in Hin2 as [?|Hin2]; [done|]). by apply not_elem_of_nil in Hin2.
Defined.

(** An array header whose count does not fit an [int] makes the reader fail an
    assertion of [moveToNextTask]: ["*4294967296\r\n:1\r\n"] is announced as an array of 2^32
    elements and stored with [elements = 0]. *)
Theorem reader_count_truncated :
  consume None demo_reader [bstr "*4294967296" ++ crlf ++ bstr ":1" ++ crlf] tt = None.
Proof. vm_compute. reflexivity. Qed.

End Read.
