(* ===== verification/Format.v ===== *)
(** Command formatting in hiredis.c: the three functions that build the protocol text of
    a command, the length arithmetic they rely on, and the proof that each writes exactly
    the RESP encoding of its arguments into the memory it has reserved. *)
From S2P Require Import Prelude Sds.

Open Scope Z_scope.

Module Format.

(** ** Lengths *)

(** [for (;;)] of [countDigits]: a [uint64_t] is below 10^20, so five rounds are enough. *)
Fixpoint count_loop (fuel : nat) (v result : Z) : option Z :=
  match fuel with
  | O => None
  | S f =>
      if v <? 10 then Some result
      else if v <? 100 then Some (result + 1)
      else if v <? 1000 then Some (result + 2)
      else if v <? 10000 then Some (result + 3)
      else count_loop f (v / 10000) (result + 4)
  end.

Definition countDigits (v : Z) : option Z := count_loop 6 v 1.

Definition bulklen (l : Z) : option Z := d ← countDigits l; Some (u64 (1 + d + 2 + l + 2)).

(** ** The arguments *)

(** One argument: the memory at [argv[j]], and [argvlen[j]] when lengths are given. *)
Definition arg_len (mem : bytes) (l : option Z) : option Z :=
  match l with Some n => Some n | None => zlen <$> cstr mem end.

(** The arguments with their lengths; a length array must have an entry for each. *)
Fixpoint arg_lens (argv : list bytes) (argvlen : option (list Z)) : option (list (bytes * Z)) :=
  match argv with
  | [] => Some []
  | a :: argv' =>
      '(l, rest) ← (match argvlen with
                    | None => Some (None, None)
                    | Some (l :: ls) => Some (Some l, Some ls)
                    | Some [] => None
                    end);
      n ← arg_len a l;
      r ← arg_lens argv' rest;
      Some ((a, n) :: r)
  end.

Section Ops.
Context `{Memory}.

(** [totlen += bulklen(len)] over the arguments, in [int]. *)
Fixpoint total_int (totlen : Z) (args : list (bytes * Z)) : option Z :=
  match args with
  | [] => Some totlen
  | (_, l) :: args' => b ← bulklen l; total_int (i32 (u64 (totlen + b))) args'
  end.

(** The same in [unsigned long long]. *)
Fixpoint total_u64 (totlen : Z) (args : list (bytes * Z)) : option Z :=
  match args with
  | [] => Some totlen
  | (_, l) :: args' => b ← bulklen l; total_u64 (u64 (totlen + b)) args'
  end.

(** [pos += sprintf(cmd+pos, ...)] of a text: the NUL is stored too. *)
Definition put_text (cmd : bytes) (pos : Z) (text : bytes) : option (bytes * Z) :=
  b ← wr_bytes cmd pos (text ++ [0]); Some (b, i32 (pos + zlen text)).

(** The loop that copies the arguments. *)
Fixpoint put_args (cmd : bytes) (pos : Z) (args : list (bytes * Z)) : option (bytes * Z) :=
  match args with
  | [] => Some (cmd, pos)
  | (mem, l) :: args' =>
      '(cmd, pos) ← put_text cmd pos (36 :: dec l ++ CRLF);
      if zlen mem <? l then None
      else
        cmd ← wr_bytes cmd pos (take (Z.to_nat l) mem);
        let pos := i32 (u64 (pos + l)) in
        cmd ← wr cmd pos CR;
        cmd ← wr cmd (pos + 1) LF;
        put_args cmd (pos + 2) args'
  end.

(** The command text in fresh memory: what the two [char *] formatters share. *)
Definition build (argc totlen : Z) (args : list (bytes * Z)) : option (option (Z * bytes)) :=
  if negb (malloc_ok (u64 (totlen + 1))) then Some None
  else
    '(cmd, pos) ← put_text (replicate (Z.to_nat (totlen + 1)) junk) 0 (42 :: sdec argc ++ CRLF);
    '(cmd, pos) ← put_args cmd pos args;
    if negb (pos =? totlen) then None
    else cmd ← wr cmd pos 0; Some (Some (totlen, cmd)).

(** The result is the length and the memory stored in the target, [None] inside for -1. *)
Definition redisFormatCommandArgv (argv : list bytes) (argvlen : option (list Z)) : option (option (Z * bytes)) :=
  let argc := zlen argv in
  args ← arg_lens argv argvlen;
  d ← countDigits (u64 argc);
  totlen ← total_int (i32 (1 + d + 2)) args;
  build argc totlen args.

(** The loop of [redisFormatSdsCommandArgv]; the results of the concatenations are not tested. *)
Fixpoint cat_args (cmd : Sds.sds) (args : list (bytes * Z)) : option Sds.sds :=
  match args with
  | [] => Some cmd
  | (mem, l) :: args' =>
      cmd ← Sds.sdscatfmt cmd (bstr "$%T" ++ CRLF) [Sds.ArgSize l];
      let! cmd := Sds.sdscatlen cmd mem l in
      let! cmd := Sds.sdscatlen cmd CRLF 2 in
      cat_args cmd args'
  end.

Definition redisFormatSdsCommandArgv (argv : list bytes) (argvlen : option (list Z)) : option (option (Z * Sds.sds)) :=
  let argc := zlen argv in
  args ← arg_lens argv argvlen;
  d ← countDigits (u64 argc);
  totlen ← total_u64 (1 + d + 2) args;
  let? cmd := Sds.sdsempty in
  let? cmd := Sds.sdsMakeRoomFor cmd totlen in
  cmd ← Sds.sdscatfmt cmd (bstr "*%i" ++ CRLF) [Sds.ArgInt argc];
  cmd ← cat_args cmd args;
  if negb (Sds.sdslen cmd =? totlen) then None else Some (Some (i32 totlen, cmd)).

(** ** Formats *)

(** The variadic arguments: C strings, pointers with a size, numbers. *)
Inductive farg :=
| FStr (mem : bytes)
| FBin (mem : bytes) (size : Z)
| FInt (n : Z)
| FDouble (text : bytes)
| FLong (n : Z)
| FLongLong (n : Z).

(** What [vsnprintf] prints for a directive and the argument it takes. *)
Context (vsnprintf : bytes -> farg -> bytes).

(** The characters of a [strchr] set, the NUL included. *)
Definition in_set (set : string) (c : Z) : bool := existsb (Z.eqb c) (bstr set) || (c =? 0).

(** [*_p] at an offset of the format, 0 at its end. *)
Definition at_ (f : bytes) (k : nat) : Z := match f !! k with Some c => c | None => 0 end.

(** [while ( *_p != '\0' && test( *_p )) _p++;] from offset [k]. *)
Fixpoint skip_while (fuel : nat) (test : Z -> bool) (f : bytes) (k : nat) : nat :=
  match fuel with
  | O => k
  | S n => if negb (at_ f k =? 0) && test (at_ f k) then skip_while n test f (S k) else k
  end.

(** The kinds of argument a numeric directive takes. *)
Inductive num_kind := KInt | KDouble | KLong | KLongLong.

(** Classification of the directive that starts at the [%] (offset 0): the offset of the
    conversion character and the kind of its argument; [None] is [fmt_invalid]. *)
Definition classify (c : bytes) : option (nat * num_kind) :=
  let fuel := length c in
  let p := skip_while fuel (in_set "#0-+ ") c 1 in
  let p := skip_while fuel is_digit c p in
  let p := if at_ c p =? 46 then skip_while fuel is_digit c (S p) else p in
  if in_set "diouxX" (at_ c p) then Some (p, KInt)
  else if in_set "eEfFgGaA" (at_ c p) then Some (p, KDouble)
  else if (at_ c p =? 104) && (at_ c (S p) =? 104) then
    let p := S (S p) in
    if negb (at_ c p =? 0) && in_set "diouxX" (at_ c p) then Some (p, KInt) else None
  else if at_ c p =? 104 then
    let p := S p in
    if negb (at_ c p =? 0) && in_set "diouxX" (at_ c p) then Some (p, KInt) else None
  else if (at_ c p =? 108) && (at_ c (S p) =? 108) then
    let p := S (S p) in
    if negb (at_ c p =? 0) && in_set "diouxX" (at_ c p) then Some (p, KLongLong) else None
  else if at_ c p =? 108 then
    let p := S p in
    if negb (at_ c p =? 0) && in_set "diouxX" (at_ c p) then Some (p, KLong) else None
  else None.

(** [va_arg] with the type of the directive. *)
Definition take_num (k : num_kind) (args : list farg) : option (farg * list farg) :=
  match args with
  | a :: r =>
      match k, a with
      | KInt, FInt _ | KDouble, FDouble _ | KLong, FLong _ | KLongLong, FLongLong _ => Some (a, r)
      | _, _ => None
      end
  | [] => None
  end.

(** The state of the loop: the argument being built, whether it was touched, the finished
    arguments and their total length. *)
Record fstate := mk_fstate { curarg : Sds.sds; touched : bool; fargv : list Sds.sds; ftotlen : Z }.

Inductive step_result :=
| Continue (st : fstate) (rest : bytes) (args : list farg)
| MemoryErr
| FormatErr.

(** A finished argument goes to the vector. *)
Definition push_arg (st : fstate) : option (option fstate) :=
  if negb (malloc_ok (8 * (zlen (fargv st) + 1))) then Some None
  else
    b ← bulklen (Sds.sdslen (curarg st));
    Some (Some (mk_fstate (curarg st) false (fargv st ++ [curarg st]) (i32 (u64 (ftotlen st + b))))).

(** A new value for the current argument, [None] inside for NULL. *)
Definition set_cur (st : fstate) (new : option (option Sds.sds)) (rest : bytes) (args : list farg) : option step_result :=
  match new with
  | None => None
  | Some None => Some MemoryErr
  | Some (Some s) => Some (Continue (mk_fstate s true (fargv st) (ftotlen st)) rest args)
  end.

(** A character of the format that is not a directive. *)
Definition fmt_plain (st : fstate) (c : Z) (rest : bytes) (args : list farg) : option step_result :=
  if c =? 32 then
    if touched st then
      match push_arg st with
      | None => None
      | Some None => Some MemoryErr
      | Some (Some st) =>
          match Sds.sdsempty with
          | None => None
          | Some None => Some MemoryErr
          | Some (Some e) => Some (Continue (mk_fstate e false (fargv st) (ftotlen st)) rest args)
          end
      end
    else Some (Continue st rest args)
  else set_cur st (Sds.sdscatlen (curarg st) [c] 1) rest args.

(** A directive: [c] is the format from the [%] on, which has a second character. *)
Definition fmt_directive (st : fstate) (c : bytes) (args : list farg) : option step_result :=
  let next := at_ c 1 in
  let rest := drop 2 c in
  if next =? 115 then
    match args with
    | FStr m :: r =>
        s ← cstr m;
        set_cur st (if 0 <? zlen s then Sds.sdscatlen (curarg st) m (zlen s) else Some (Some (curarg st))) rest r
    | _ => None
    end
  else if next =? 98 then
    match args with
    | FBin m n :: r =>
        set_cur st (if 0 <? n then Sds.sdscatlen (curarg st) m n else Some (Some (curarg st))) rest r
    | _ => None
    end
  else if next =? 37 then set_cur st (Sds.sdscat (curarg st) [37; 0]) rest args
  else
    match classify c with
    | None => Some FormatErr
    | Some (p, k) =>
        '(a, r) ← take_num k args;
        let l := Z.of_nat p + 1 in
        if l <? 16 - 2 then
          (* the pointer ends two behind [_p-1]: past the NUL when [_p] is at it *)
          if Z.of_nat (length c) <? Z.of_nat p + 1 then None
          else set_cur st (Sds.sdscatvprintf (curarg st) (vsnprintf (take (Z.to_nat l) c) a)) (drop (S p) c) r
        else set_cur st (Some (Some (curarg st))) rest r
    end.

(** The loop over the format, a C string without its NUL. *)
Fixpoint fmt_loop (fuel : nat) (st : fstate) (c : bytes) (args : list farg) : option (Z + fstate) :=
  match fuel with
  | O => None
  | S f =>
      match c with
      | [] => Some (inr st)
      | x :: rest =>
          r ← (if negb (x =? 37) || (at_ c 1 =? 0) then fmt_plain st x rest args else fmt_directive st c args);
          match r with
          | Continue st c args => fmt_loop f st c args
          | MemoryErr => Some (inl (-1))
          | FormatErr => Some (inl (-2))
          end
      end
  end.

(** The result is an error code, or the length and the memory of the command. *)
Definition redisvFormatCommand (format : bytes) (args : list farg) : option (Z + Z * bytes) :=
  c ← cstr format;
  match Sds.sdsempty with
  | None => None
  | Some None => Some (inl (-1))
  | Some (Some e) =>
      r ← fmt_loop (S (length c)) (mk_fstate e false [] 0) c args;
      match r with
      | inl code => Some (inl code)
      | inr st =>
          match (if touched st then push_arg st else Some (Some st)) with
          | None => None
          | Some None => Some (inl (-1))
          | Some (Some st) =>
              let argc := zlen (fargv st) in
              d ← countDigits (u64 argc);
              let totlen := i32 (ftotlen st + (1 + d + 2)) in
              b ← build argc totlen (map (fun s => (Sds.buf s, Sds.sdslen s)) (fargv st));
              match b with None => Some (inl (-1)) | Some r => Some (inr r) end
          end
      end
  end.

(** [redisFormatCommand] reports every error as -1. *)
Definition redisFormatCommand (format : bytes) (args : list farg) : option (Z + Z * bytes) :=
  r ← redisvFormatCommand format args;
  match r with
  | inl code => Some (inl (if code <? 0 then -1 else code))
  | inr (l, b) => if l <? 0 then Some (inl (-1)) else Some (inr (l, b))
  end.

(** ** The encoding *)

(** The RESP text of one argument, and of a command. *)
Definition bulk (a : bytes) : bytes := 36 :: dec (zlen a) ++ CRLF ++ a ++ CRLF.
Definition encode (strs : list bytes) : bytes := 42 :: dec (zlen strs) ++ CRLF ++ flat_map bulk strs.

(** The arguments hold these byte strings, possibly with more memory behind them. *)
Definition holds (args : list (bytes * Z)) (strs : list bytes) : Prop :=
  Forall2 (fun p a => snd p = zlen a /\ exists r, fst p = a ++ r) args strs.

Lemma dec_length_step v : 10 <= v -> zlen (dec v) = 1 + zlen (dec (v / 10)).
Proof. intros. rewrite dec_step by done. zl. Qed.

Lemma dec_length_step4 v : 10000 <= v -> zlen (dec v) = 4 + zlen (dec (v / 10000)).
Proof.
  intros. rewrite dec_length_step by lia.
  assert (1000 <= v / 10) by (apply Z.div_le_lower_bound; lia). rewrite (dec_length_step (v / 10)) by lia.
  rewrite Z.div_div by lia. assert (100 <= v / (10 * 10)) by (apply Z.div_le_lower_bound; lia).
  rewrite (dec_length_step (v / (10 * 10))) by lia. rewrite Z.div_div by lia.
  assert (10 <= v / (10 * 10 * 10)) by (apply Z.div_le_lower_bound; lia).
  rewrite (dec_length_step (v / (10 * 10 * 10))) by lia. rewrite Z.div_div by lia.
  change (10 * 10 * 10 * 10) with 10000. lia.
Qed.

Lemma count_loop_spec f : forall v result, 0 <= v < 10 ^ (4 * Z.of_nat f) -> (0 < f)%nat ->
  count_loop f v result = Some (result - 1 + zlen (dec v)).
Proof.
  induction f as [|f IH]; intros v result Hv Hf; [lia|]. cbn [count_loop].
  assert (forall x, 10 <= x -> zlen (dec x) = 1 + zlen (dec (x / 10))) as Hs by apply dec_length_step.
  destruct (Z.ltb_spec v 10); [rewrite dec_small by lia; f_equal; zl|].
  destruct (Z.ltb_spec v 100).
  { assert (0 <= v / 10 < 10) by (split; [apply Z.div_pos | apply Z.div_lt_upper_bound]; lia).
    rewrite Hs, (dec_small (v / 10)) by lia. f_equal. zl. }
  destruct (Z.ltb_spec v 1000).
  { assert (10 <= v / 10 < 100) by (split; [apply Z.div_le_lower_bound | apply Z.div_lt_upper_bound]; lia).
    assert (0 <= v / 10 / 10 < 10) by (split; [apply Z.div_pos | apply Z.div_lt_upper_bound]; lia).
    rewrite Hs, (Hs (v / 10)), (dec_small (v / 10 / 10)) by lia. f_equal. zl. }
  destruct (Z.ltb_spec v 10000).
  { assert (100 <= v / 10 < 1000) by (split; [apply Z.div_le_lower_bound | apply Z.div_lt_upper_bound]; lia).
    assert (10 <= v / 10 / 10 < 100) by (split; [apply Z.div_le_lower_bound | apply Z.div_lt_upper_bound]; lia).
    assert (0 <= v / 10 / 10 / 10 < 10) by (split; [apply Z.div_pos | apply Z.div_lt_upper_bound]; lia).
    rewrite Hs, (Hs (v / 10)), (Hs (v / 10 / 10)), (dec_small (v / 10 / 10 / 10)) by lia. f_equal. zl. }
  destruct f as [|f]; [simpl in *; lia|].
  rewrite IH, (dec_length_step4 v) by (lia || (split; [apply Z.div_pos; lia|]; apply Z.div_lt_upper_bound; [lia|];
    rewrite (Nat2Z.inj_succ (S f)) in Hv; replace (4 * Z.succ (Z.of_nat (S f))) with (4 * Z.of_nat (S f) + 4) in Hv by lia;
    rewrite Z.pow_add_r in Hv by lia; lia)).
  f_equal. lia.
Qed.

(** [countDigits] is the length of the decimal text, for every [uint64_t]. *)
Lemma countDigits_spec v : 0 <= v < 2 ^ 64 -> countDigits v = Some (zlen (dec v)).
Proof. intros. unfold countDigits. rewrite count_loop_spec by (simpl; lia). f_equal. Qed.

Lemma zlen_bulk a : zlen (bulk a) = 1 + zlen (dec (zlen a)) + 2 + zlen a + 2.
Proof. unfold bulk. autorewrite with hivip. unfold CRLF. autorewrite with hivip. lia. Qed.

Lemma bulklen_spec a : zlen a <= INT_MAX -> bulklen (zlen a) = Some (zlen (bulk a)).
Proof.
  intros Ha. unfold INT_MAX in *. unfold bulklen. zlen_pos. rewrite countDigits_spec by lia. cbn [mbind option_bind].
  rewrite zlen_bulk. pose proof (dec_length_pow (zlen a) 10). pose proof (dec_length_pos (zlen a)).
  rewrite uwrap_small; [done | lia].
Qed.

Lemma flat_bulk_cons a strs : zlen (flat_map bulk (a :: strs)) = zlen (bulk a) + zlen (flat_map bulk strs).
Proof. cbn [flat_map]. by rewrite zlen_app. Qed.

Lemma total_int_spec args strs : holds args strs -> forall t, 0 <= t -> t + zlen (flat_map bulk strs) <= INT_MAX ->
  total_int t args = Some (t + zlen (flat_map bulk strs)).
Proof.
  induction 1 as [|[m l] a args strs [Hl _] _ IH]; intros t Ht Hmax; [cbn; f_equal; zl|]. cbn [total_int] in *.
  simpl in Hl. subst l. rewrite flat_bulk_cons in Hmax |- *. pose proof (zlen_bulk a).
  pose proof (dec_length_pos (zlen a)). zlen_pos. unfold INT_MAX in *.
  rewrite bulklen_spec by (unfold INT_MAX; lia). cbn [mbind option_bind].
  rewrite i32_u64 by (unfold INT_MIN, INT_MAX; lia). rewrite IH by (unfold INT_MAX; lia). f_equal. lia.
Qed.

Lemma total_u64_spec args strs : holds args strs -> forall t, 0 <= t -> t + zlen (flat_map bulk strs) <= INT_MAX ->
  total_u64 t args = Some (t + zlen (flat_map bulk strs)).
Proof.
  induction 1 as [|[m l] a args strs [Hl _] _ IH]; intros t Ht Hmax; [cbn; f_equal; zl|]. cbn [total_u64] in *.
  simpl in Hl. subst l. rewrite flat_bulk_cons in Hmax |- *. pose proof (zlen_bulk a).
  pose proof (dec_length_pos (zlen a)). zlen_pos. unfold INT_MAX in *.
  rewrite bulklen_spec by (unfold INT_MAX; lia). cbn [mbind option_bind].
  rewrite uwrap_small by lia. rewrite IH by (unfold INT_MAX; lia). f_equal. lia.
Qed.

(** Text and its NUL written behind [pre] in a buffer with room for them. *)
Lemma put_text_spec pre r text : zlen text + 1 <= zlen r -> zlen pre + zlen text <= INT_MAX ->
  exists r', put_text (pre ++ r) (zlen pre) text = Some ((pre ++ text) ++ r', zlen (pre ++ text)) /\
    zlen r' = zlen r - zlen text.
Proof.
  intros Hr Hm. destruct (Sds.cut_at r (zlen text + 1)) as (x & t & -> & Hx); [zl|].
  unfold put_text. rewrite Sds.wr_bytes_at by zl. cbn [mbind option_bind]. zlen_pos.
  unfold INT_MAX in *. rewrite i32_small by (unfold INT_MIN, INT_MAX; lia).
  exists (0 :: t). rewrite <- !app_assoc. cbn [app]. split; [|zl]. do 2 f_equal. zl.
Qed.

Lemma put_args_spec args strs : holds args strs -> forall pre r, zlen r = zlen (flat_map bulk strs) + 1 ->
  zlen pre + zlen r <= INT_MAX ->
  exists x, put_args (pre ++ r) (zlen pre) args =
    Some (pre ++ flat_map bulk strs ++ [x], zlen pre + zlen (flat_map bulk strs)).
Proof.
  induction 1 as [|[m l] a args strs [Hl [mr Hmr]] _ IH]; intros pre r Hr Hmax.
  { destruct r as [|x [|? ?]]; [zl | | zl]. exists x. cbn. do 2 f_equal. zl. }
  simpl in Hl, Hmr. subst l m. rewrite flat_bulk_cons in Hr. cbn [put_args flat_map].
  pose proof (zlen_bulk a) as Hb. unfold INT_MAX in *.
  assert (zlen (36 :: dec (zlen a) ++ CRLF) = zlen (dec (zlen a)) + 3) as Ht by (unfold CRLF; zl).
  destruct (put_text_spec pre r (36 :: dec (zlen a) ++ CRLF)) as (r1 & -> & Hr1); [zl | unfold INT_MAX; zl |].
  cbn [mbind option_bind]. set (hd := pre ++ 36 :: dec (zlen a) ++ CRLF).
  assert (zlen hd = zlen pre + zlen (dec (zlen a)) + 3) as Hhd by (unfold hd; zl).
  rewrite (proj2 (Z.ltb_ge _ _)) by zl. rewrite Sds.take_zlen_app by done.
  destruct (Sds.cut_at r1 (zlen a)) as (x & r2 & -> & Hx); [zl|]. rewrite zlen_app in Hr1.
  rewrite Sds.wr_bytes_at by (done || lia). cbn [mbind option_bind]. zlen_pos.
  rewrite i32_u64 by (unfold INT_MIN, INT_MAX; zl).
  destruct r2 as [|y [|z r2]]; [zl | zl |].
  replace (hd ++ a ++ y :: z :: r2) with ((hd ++ a) ++ y :: z :: r2) by (by rewrite <- app_assoc).
  rewrite (wr_at (hd ++ a) (z :: r2) y CR) by zl. cbn [mbind option_bind].
  replace ((hd ++ a) ++ CR :: z :: r2) with ((hd ++ a ++ [CR]) ++ z :: r2) by (by rewrite <- !app_assoc).
  rewrite (wr_at (hd ++ a ++ [CR]) r2 z LF) by zl. cbn [mbind option_bind].
  replace ((hd ++ a ++ [CR]) ++ LF :: r2) with ((pre ++ bulk a) ++ r2).
  2: { unfold hd, bulk, CRLF. by repeat (rewrite <- app_assoc || cbn [app]). }
  replace (zlen hd + zlen a + 2) with (zlen (pre ++ bulk a)) by zl.
  destruct (IH (pre ++ bulk a) r2) as (w & ->); [zl | zl |].
  exists w. rewrite <- !app_assoc. do 2 f_equal. zl.
Qed.

(** The command text in the memory reserved for it: the assertion on the length holds. *)
Lemma build_spec args strs : holds args strs -> zlen (encode strs) < INT_MAX ->
  build (zlen strs) (zlen (encode strs)) args =
    if malloc_ok (u64 (zlen (encode strs) + 1)) then Some (Some (zlen (encode strs), encode strs ++ [0])) else Some None.
Proof.
  intros Hh Hmax. unfold build. destruct (malloc_ok _); cbn [negb]; [|done]. unfold INT_MAX in *.
  assert (sdec (zlen strs) = dec (zlen strs)) as -> by (unfold sdec; rewrite (proj2 (Z.ltb_ge _ _)); [done | zl]).
  assert (zlen (encode strs) = zlen (42 :: dec (zlen strs) ++ CRLF) + zlen (flat_map bulk strs)) as He
    by (unfold encode; zl).
  set (r := replicate _ junk). assert (zlen r = zlen (encode strs) + 1) as Hr by (unfold r; zl).
  destruct (put_text_spec [] r (42 :: dec (zlen strs) ++ CRLF)) as (r1 & Ep & Hr1); [zl | unfold INT_MAX; zl |].
  rewrite !app_nil_l in Ep. change (zlen (@nil Z)) with 0 in Ep. rewrite Ep. cbn [mbind option_bind].
  destruct (put_args_spec args strs Hh (42 :: dec (zlen strs) ++ CRLF) r1) as (x & ->); [zl | unfold INT_MAX; zl |].
  cbn [mbind option_bind]. rewrite <- He, Z.eqb_refl. cbn [negb].
  replace ((42 :: dec (zlen strs) ++ CRLF) ++ flat_map bulk strs ++ [x]) with (encode strs ++ [x])
    by (unfold encode; cbn [app]; by rewrite <- !app_assoc).
  by rewrite wr_at by done.
Qed.

(** ** Vectors of arguments *)

(** The caller passes these byte strings: as C strings when no lengths are given, with
    their lengths otherwise. *)
Definition passed (argv : list bytes) (argvlen : option (list Z)) (strs : list bytes) : Prop :=
  match argvlen with
  | None => Forall2 (fun m a => (0 ∉ a) /\ exists r, m = a ++ 0 :: r) argv strs
  | Some ls => ls = map zlen strs /\ Forall2 (fun m a => exists r, m = a ++ r) argv strs
  end.

Lemma arg_lens_spec argv argvlen strs : passed argv argvlen strs ->
  exists args, arg_lens argv argvlen = Some args /\ holds args strs.
Proof.
  unfold holds. destruct argvlen as [ls|]; cbn [passed].
  - intros [-> Hf]. induction Hf as [|m a argv strs [r ->] _ (args & E & IH)]; [by exists []|].
    cbn [arg_lens map]. cbn [mbind option_bind arg_len]. rewrite E. cbn [mbind option_bind].
    eexists. split; [done|]. constructor; [|done]. split; [done | by exists r].
  - induction 1 as [|m a argv strs [H0 [r ->]] _ (args & E & IH)]; [by exists []|].
    cbn [arg_lens]. cbn [mbind option_bind arg_len]. rewrite Sds.cstr_app by done.
    cbn [fmap option_fmap option_map mbind option_bind]. rewrite E. cbn [mbind option_bind].
    eexists. split; [done|]. constructor; [|done]. split; [done | by eexists].
Qed.

Lemma passed_length argv argvlen strs : passed argv argvlen strs -> zlen argv = zlen strs.
Proof.
  destruct argvlen; cbn [passed]; [intros [_ Hf] | intros Hf]; apply Forall2_length in Hf; unfold zlen; lia.
Qed.

Lemma zlen_encode strs : zlen (encode strs) = 1 + zlen (dec (zlen strs)) + 2 + zlen (flat_map bulk strs).
Proof. unfold encode, CRLF. autorewrite with hivip. lia. Qed.

Lemma zlen_strs strs : zlen strs <= zlen (flat_map bulk strs).
Proof.
  induction strs as [|a strs IH]; [done|]. rewrite flat_bulk_cons, zlen_bulk, zlen_cons. zlen_pos. lia.
Qed.

(** The digits of the argument count, which the encoding bounds. *)
Lemma count_argc strs : zlen (encode strs) <= INT_MAX -> countDigits (u64 (zlen strs)) = Some (zlen (dec (zlen strs))).
Proof.
  intros Hm. pose proof (zlen_encode strs). pose proof (zlen_strs strs). unfold INT_MAX in *. zlen_pos.
  rewrite uwrap_small by lia. apply countDigits_spec. lia.
Qed.

Lemma redisFormatCommandArgv_text argv argvlen strs : passed argv argvlen strs -> zlen (encode strs) < INT_MAX ->
  redisFormatCommandArgv argv argvlen =
    if malloc_ok (u64 (zlen (encode strs) + 1)) then Some (Some (zlen (encode strs), encode strs ++ [0])) else Some None.
Proof.
  intros Hp Hm. unfold redisFormatCommandArgv. destruct (arg_lens_spec _ _ _ Hp) as (args & -> & Hh).
  cbn [mbind option_bind]. rewrite (passed_length _ _ _ Hp), count_argc by lia. cbn [mbind option_bind].
  pose proof (zlen_encode strs) as He. unfold INT_MAX in *. zlen_pos.
  rewrite i32_small by (unfold INT_MIN, INT_MAX; lia).
  rewrite (total_int_spec args strs Hh) by (unfold INT_MAX; lia). cbn [mbind option_bind].
  rewrite <- He. by apply build_spec.
Qed.

(** ** The sds formatter *)

Lemma render_count argc : 0 <= argc -> Sds.render (bstr "*%i" ++ CRLF) [Sds.ArgInt argc] = Some (42 :: dec argc ++ CRLF).
Proof.
  intros. transitivity (Some (42 :: sdec argc ++ CRLF)); [done|].
  unfold sdec. by rewrite (proj2 (Z.ltb_ge _ _)) by done.
Qed.

Lemma render_len n : Sds.render (bstr "$%T" ++ CRLF) [Sds.ArgSize n] = Some (36 :: dec n ++ CRLF).
Proof. done. Qed.

Lemma cat_args_spec args strs : has_memory -> holds args strs -> forall s l, Sds.repr s l ->
  Sds.fits (zlen l + zlen (flat_map bulk strs) + 1) ->
  exists s', cat_args s args = Some s' /\ Sds.repr s' (l ++ flat_map bulk strs).
Proof.
  intros Hmem. induction 1 as [|[m n] a args strs [Hl [mr Hmr]] _ IH]; intros s l Hs Hfit.
  { exists s. cbn. by rewrite app_nil_r. }
  simpl in Hl, Hmr. subst n m. rewrite flat_bulk_cons in Hfit. pose proof (zlen_bulk a) as Hb.
  unfold Sds.fits, Sds.SDS_MAX_PREALLOC, INT_MAX in *. zlen_pos. cbn [cat_args].
  destruct (Sds.sdscatfmt_render s l _ _ _ Hmem Hs (render_len (zlen a))) as (s1 & -> & Hs1).
  { repeat constructor; cbn; lia. }
  { unfold Sds.fits, Sds.SDS_MAX_PREALLOC, INT_MAX. unfold CRLF in *. zl. }
  cbn [mbind option_bind].
  destruct (Sds.ok_or_oom_mem _ _ Hmem (Sds.sdscatlen_spec s1 _ (a ++ mr) (zlen a) Hs1 ltac:(zl)
    ltac:(unfold Sds.fits, Sds.SDS_MAX_PREALLOC, INT_MAX; unfold CRLF in *; zl))) as (s2 & -> & Hs2).
  rewrite Sds.take_zlen_app in Hs2 by done.
  destruct (Sds.ok_or_oom_mem _ _ Hmem (Sds.sdscatlen_spec s2 _ CRLF 2 Hs2 ltac:(done)
    ltac:(unfold Sds.fits, Sds.SDS_MAX_PREALLOC, INT_MAX; unfold CRLF in *; zl))) as (s3 & -> & Hs3).
  replace (((l ++ 36 :: dec (zlen a) ++ CRLF) ++ a) ++ take (Z.to_nat 2) CRLF) with (l ++ bulk a) in Hs3
    by (unfold bulk; repeat (rewrite <- app_assoc || cbn [app]); done).
  destruct (IH s3 _ Hs3) as (s4 & -> & Hs4); [zl|].
  exists s4. split; [done|]. cbn [flat_map]. by rewrite app_assoc.
Qed.

Lemma redisFormatSdsCommandArgv_text argv argvlen strs : has_memory -> passed argv argvlen strs ->
  Sds.fits (zlen (encode strs) + 1) ->
  exists s, redisFormatSdsCommandArgv argv argvlen = Some (Some (zlen (encode strs), s)) /\ Sds.repr s (encode strs).
Proof.
  intros Hmem Hp Hfit. unfold redisFormatSdsCommandArgv. destruct (arg_lens_spec _ _ _ Hp) as (args & -> & Hh).
  unfold Sds.fits, Sds.SDS_MAX_PREALLOC, INT_MAX in *.
  cbn [mbind option_bind]. rewrite (passed_length _ _ _ Hp), count_argc by (unfold INT_MAX; lia). cbn [mbind option_bind].
  pose proof (zlen_encode strs) as He. pose proof (zlen_strs strs). zlen_pos.
  rewrite (total_u64_spec args strs Hh) by (unfold INT_MAX; lia). cbn [mbind option_bind]. rewrite <- He.
  destruct (Sds.ok_or_oom_mem _ _ Hmem Sds.sdsempty_spec) as (s0 & -> & Hs0).
  destruct (Sds.ok_or_oom_mem _ _ Hmem (Sds.sdsMakeRoomFor_spec s0 [] (zlen (encode strs)) Hs0 ltac:(lia)
    ltac:(unfold Sds.fits, Sds.SDS_MAX_PREALLOC, INT_MAX; zl))) as (s1 & -> & Hs1 & _).
  destruct (Sds.sdscatfmt_render s1 [] _ _ _ Hmem Hs1 (render_count (zlen strs) ltac:(lia))) as (s2 & -> & Hs2).
  { repeat constructor; cbn; unfold INT_MIN, INT_MAX; lia. }
  { unfold Sds.fits, Sds.SDS_MAX_PREALLOC, INT_MAX. unfold CRLF in *. zl. }
  cbn [mbind option_bind]. rewrite app_nil_l in Hs2.
  destruct (cat_args_spec args strs Hmem Hh s2 _ Hs2) as (s3 & -> & Hs3).
  { unfold Sds.fits, Sds.SDS_MAX_PREALLOC, INT_MAX. unfold CRLF in *. zl. }
  cbn [mbind option_bind].
  replace ((42 :: dec (zlen strs) ++ CRLF) ++ flat_map bulk strs) with (encode strs) in Hs3
    by (unfold encode; cbn [app]; by rewrite <- app_assoc).
  rewrite (Sds.sdslen_repr s3 _ Hs3), Z.eqb_refl. cbn [negb].
  rewrite i32_small by (unfold INT_MIN, INT_MAX; lia). by exists s3.
Qed.

(** ** What a format stands for *)

(** A numeric directive: [d] is its text from the [%] on, [k] the argument it takes. The
    classification does not depend on what follows, and the text fits the 16 bytes the
    formatter copies it to. *)
Record number (d : bytes) (k : num_kind) (a : farg) : Prop := {
  number_len : 2 <= zlen d < 14;
  number_next : at_ d 1 <> 115 /\ at_ d 1 <> 98 /\ at_ d 1 <> 37 /\ at_ d 1 <> 0;
  number_nul : 0 ∉ d;
  number_head : head d = Some 37;
  number_class : forall rest, classify (d ++ rest) = Some (length d - 1, k)%nat;
  number_arg : forall r, take_num k (a :: r) = Some (a, r);
  number_text : 0 ∉ vsnprintf d a
}.

(** A format as the sequence of its parts. *)
Inductive item :=
| Space
| Char (c : Z)
| Percent
| Str (a r : bytes)
| Bin (a r : bytes)
| Num (d : bytes) (k : num_kind) (a : farg).

Definition item_ok (i : item) : Prop :=
  match i with
  | Char c => c <> 0 /\ c <> 32 /\ c <> 37
  | Str a _ => 0 ∉ a
  | Num d k a => number d k a
  | _ => True
  end.

(** The text of an item in the format, the variadic argument it takes, what it stands for. *)
Definition item_text (i : item) : bytes :=
  match i with
  | Space => [32]
  | Char c => [c]
  | Percent => [37; 37]
  | Str _ _ => [37; 115]
  | Bin _ _ => [37; 98]
  | Num d _ _ => d
  end.

Definition item_args (i : item) : list farg :=
  match i with
  | Str a r => [FStr (a ++ 0 :: r)]
  | Bin a r => [FBin (a ++ r) (zlen a)]
  | Num _ _ a => [a]
  | _ => []
  end.

Definition item_bytes (i : item) : bytes :=
  match i with
  | Space => []
  | Char c => [c]
  | Percent => [37]
  | Str a _ | Bin a _ => a
  | Num d _ a => vsnprintf d a
  end.

Definition is_space (i : item) : bool := match i with Space => true | _ => false end.

(** The words of the command: items between spaces; a word with only empty items is kept. *)
Fixpoint words (cur : option bytes) (items : list item) : list bytes :=
  match items with
  | [] => option_list cur
  | i :: items' =>
      if is_space i then option_list cur ++ words None items'
      else words (Some (default [] cur ++ item_bytes i)) items'
  end.

Lemma words_mono items : forall cur, zlen (default [] cur) <= zlen (flat_map bulk (words cur items)).
Proof.
  induction items as [|i items IH]; intros cur; cbn [words].
  - destruct cur as [w|]; cbn [option_list option_rect from_option id app]; [|done]. rewrite flat_bulk_cons, zlen_bulk. zlen_pos. lia.
  - destruct (is_space i).
    + destruct cur as [w|]; cbn [option_list option_rect from_option id app]; [|zlen_pos; done].
      rewrite flat_bulk_cons, zlen_bulk. zlen_pos. lia.
    + specialize (IH (Some (default [] cur ++ item_bytes i))). cbn [from_option id] in IH |- *. rewrite zlen_app in IH. zlen_pos. lia.
Qed.

(** The state of the loop represents the finished words and the one being built. *)
Definition fmt_inv (st : fstate) (done : list bytes) (cur : option bytes) : Prop :=
  Sds.repr (curarg st) (default [] cur) /\ touched st = bool_decide (is_Some cur) /\
  Forall2 Sds.repr (fargv st) done /\ ftotlen st = zlen (flat_map bulk done).

(** The total of the words stays in the range where the buffers can grow. *)
Definition fmt_fits (strs : list bytes) : Prop := Sds.fits (zlen (encode strs) + 1).

(** A step goes on in a state with the new words, or runs out of memory. *)
Definition step_ok (r : option step_result) (P : fstate -> bytes -> list farg -> Prop) : Prop :=
  match r with
  | Some (Continue st rest args) => P st rest args
  | Some MemoryErr => exists n, malloc_ok n = false
  | _ => False
  end.

Lemma flat_bulk_app a b : zlen (flat_map bulk (a ++ b)) = zlen (flat_map bulk a) + zlen (flat_map bulk b).
Proof. by rewrite flat_map_app, zlen_app. Qed.

Lemma push_arg_spec st done w : fmt_inv st done (Some w) ->
  zlen (flat_map bulk done) + zlen (bulk w) <= INT_MAX ->
  Sds.ok_or_oom (push_arg st) (fun st' => Forall2 Sds.repr (fargv st') (done ++ [w]) /\
    ftotlen st' = zlen (flat_map bulk (done ++ [w]))).
Proof.
  intros (Hc & _ & Ha & Ht) Hm. unfold push_arg. destruct (malloc_ok _) eqn:Em; cbn [negb]; [|by eexists].
  cbn [from_option id] in Hc. pose proof (zlen_bulk w). unfold INT_MAX in *. zlen_pos.
  rewrite (Sds.sdslen_repr _ _ Hc), bulklen_spec by (unfold INT_MAX; lia).
  cbn [mbind option_bind Sds.ok_or_oom fargv ftotlen]. split; [by apply Forall2_app; [|constructor]|].
  rewrite Ht, i32_u64 by (unfold INT_MIN, INT_MAX; lia). rewrite flat_bulk_app, flat_bulk_cons. cbn [flat_map]. zl.
Qed.

Lemma set_cur_spec st done cur new x rest args : fmt_inv st done cur ->
  Sds.ok_or_oom new (fun s => Sds.repr s (default [] cur ++ x)) ->
  step_ok (set_cur st new rest args)
    (fun st' rest' args' => fmt_inv st' done (Some (default [] cur ++ x)) /\ rest' = rest /\ args' = args).
Proof.
  intros (_ & _ & Ha & Ht) Hn. unfold set_cur. destruct new as [[s|]|]; cbn in *; try done.

Qed.

(** A directive that is not a space: one step appends what it stands for. *)
Lemma directive_step st done cur i rest args : fmt_inv st done cur -> item_ok i -> is_space i = false ->
  Sds.fits (zlen (default [] cur) + zlen (item_bytes i)) ->
  exists x r, item_text i ++ rest = x :: r /\
  step_ok (if negb (x =? 37) || (at_ (x :: r) 1 =? 0) then fmt_plain st x r (item_args i ++ args)
           else fmt_directive st (x :: r) (item_args i ++ args))
    (fun st' rest' args' => fmt_inv st' done (Some (default [] cur ++ item_bytes i)) /\ rest' = rest /\ args' = args).
Proof.
  intros Hinv Hok Hsp Hfit. pose proof (proj1 Hinv) as Hc.
  assert (forall m n, 0 <= n <= zlen m -> take (Z.to_nat n) m = item_bytes i ->
    Sds.ok_or_oom (if 0 <? n then Sds.sdscatlen (curarg st) m n else Some (Some (curarg st)))
      (fun s => Sds.repr s (default [] cur ++ item_bytes i))) as Hcat.
  { intros m n Hn Ht. destruct (Z.ltb_spec 0 n).
    - eapply Sds.ok_or_oom_impl; [eapply (Sds.sdscatlen_spec _ _ m n Hc Hn)|].
      + replace n with (zlen (item_bytes i)); [done|]. rewrite <- Ht. zl.
      + intros s. by rewrite Ht.
    - assert (n = 0) as -> by lia. cbn in Ht |- *. rewrite <- Ht, app_nil_r. done. }
  destruct i as [|c| |a r|a r|d k a]; cbn [item_text item_args item_bytes app] in *; [done|..].
  - destruct Hok as (Hz & H32 & H37). exists c, rest. split; [done|].
    rewrite (proj2 (Z.eqb_neq _ _) H37). cbn [negb orb]. unfold fmt_plain. rewrite (proj2 (Z.eqb_neq _ _) H32).
    apply (set_cur_spec _ _ _ _ [c]); [done|]. by apply (Hcat [c] 1).
  - exists 37, (37 :: rest). split; [done|]. cbn. apply (set_cur_spec _ _ _ _ [37]); [done|].
    apply (Sds.sdscat_spec _ _ [37] [] Hc); [set_solver | done].
  - exists 37, (115 :: rest). split; [done|]. cbn. rewrite Sds.cstr_app by done. cbn [mbind option_bind].
    apply (set_cur_spec _ _ _ _ a); [done|]. apply Hcat; [zl|]. by apply Sds.take_zlen_app.
  - exists 37, (98 :: rest). split; [done|]. cbn.
    apply (set_cur_spec _ _ _ _ a); [done|]. apply Hcat; [zl|]. by apply Sds.take_zlen_app.
  - destruct Hok as [Hlen (H1 & H2 & H3 & H4) _ Hhd Hcl Harg Htx].
    destruct d as [|x d]; [done|]. injection Hhd as ->. exists 37, (d ++ rest). split; [done|].
    destruct d as [|y d]; [zl|]. unfold at_ in H1, H2, H3, H4. cbn [lookup list_lookup] in H1, H2, H3, H4.
    unfold at_. cbn [app lookup list_lookup]. rewrite (proj2 (Z.eqb_neq _ _) H4). cbn [Z.eqb Pos.eqb negb orb].
    unfold fmt_directive, at_. cbn [app lookup list_lookup].
    rewrite (proj2 (Z.eqb_neq _ _) H1), (proj2 (Z.eqb_neq _ _) H2), (proj2 (Z.eqb_neq _ _) H3).
    specialize (Hcl rest). cbn [app] in Hcl. rewrite Hcl, Harg. cbn [mbind option_bind].
    replace (length (37%Z :: y :: d) - 1)%nat with (S (length d)) by (simpl; lia).
    rewrite (proj2 (Z.ltb_lt (Z.of_nat (S (length d)) + 1) (16 - 2))) by (unfold zlen in Hlen; simpl in Hlen; lia).
    rewrite (proj2 (Z.ltb_ge _ _)) by (rewrite !length_cons, length_app; lia).
    replace (Z.to_nat (Z.of_nat (S (length d)) + 1)) with (length (37%Z :: y :: d)) by (simpl; lia).
    replace (take (length (37%Z :: y :: d)) (37 :: y :: d ++ rest)) with (37 :: y :: d)
      by (symmetry; apply (take_app_length (37 :: y :: d))).
    replace (drop (S (S (length d))) (37 :: y :: d ++ rest)) with rest
      by (symmetry; apply (drop_app_length (37 :: y :: d))).
    apply (set_cur_spec _ _ _ _ (vsnprintf (37 :: y :: d) a)); [done|]. by apply Sds.sdscatprintf_spec.
Qed.

Lemma space_step st done cur rest args : fmt_inv st done cur ->
  zlen (flat_map bulk (done ++ option_list cur)) <= INT_MAX ->
  step_ok (fmt_plain st 32 rest args)
    (fun st' rest' args' => fmt_inv st' (done ++ option_list cur) None /\ rest' = rest /\ args' = args).
Proof.
  intros Hinv Hm. pose proof Hinv as (Hc & Htch & Ha & Ht). unfold fmt_plain. cbn [Z.eqb Pos.eqb]. rewrite Htch.
  destruct cur as [w|]; [|cbn [option_list option_rect]; rewrite app_nil_r; by split_and!].
  rewrite bool_decide_true by done. cbn [option_list option_rect] in *.
  rewrite flat_bulk_app, flat_bulk_cons in Hm. zlen_pos.
  pose proof (push_arg_spec st done w Hinv ltac:(lia)) as Hp.
  destruct (push_arg st) as [[st'|]|]; cbn in Hp; [|done|done]. destruct Hp as [Ha' Ht'].
  pose proof Sds.sdsempty_spec as He. destruct Sds.sdsempty as [[e|]|]; cbn in He |- *; try done.
Qed.

(** The words that the items give survive the loop, whatever the allocator does. *)
Lemma format_loop_spec items : forall f st done cur, fmt_inv st done cur -> Forall item_ok items ->
  (length (flat_map item_text items) < f)%nat -> fmt_fits (done ++ words cur items) ->
  match fmt_loop f st (flat_map item_text items) (flat_map item_args items) with
  | Some (inr st') => exists done' cur', fmt_inv st' done' cur' /\ done' ++ option_list cur' = done ++ words cur items
  | Some (inl code) => code = -1 /\ exists n, malloc_ok n = false
  | None => False
  end.
Proof.
  induction items as [|i items IH]; intros f st done cur Hinv Hok Hf Hfit.
  { destruct f; [lia|]. cbn. eauto. }
  inversion_clear Hok as [|? ? Hi Hok']. destruct f as [|f]; [lia|]. cbn [flat_map] in Hf |- *. rewrite length_app in Hf.
  unfold fmt_fits, Sds.fits, Sds.SDS_MAX_PREALLOC, INT_MAX in Hfit.
  rewrite zlen_encode, flat_bulk_app in Hfit. cbn [words] in Hfit |- *.
  destruct (is_space i) eqn:Es.
  - destruct i; try done. cbn [item_text item_args app] in *. rewrite flat_bulk_app in Hfit. zlen_pos.
    pose proof (space_step st done cur (flat_map item_text items) (flat_map item_args items) Hinv) as Hst.
    cbn [fmt_loop]. cbn [Z.eqb Pos.eqb negb orb]. destruct (fmt_plain _ _ _ _) as [[st' rest' args'| |]|]; cbn in Hst;
      try (destruct Hst; rewrite ?flat_bulk_app; unfold INT_MAX; lia); cbn [mbind option_bind];
      [|by split; [|apply Hst; rewrite ?flat_bulk_app; unfold INT_MAX; lia]].
    destruct Hst as (Hinv' & -> & ->); [rewrite ?flat_bulk_app; unfold INT_MAX; lia|].
    rewrite app_assoc. apply IH; [done | done | cbn in Hf; lia |].
    unfold fmt_fits, Sds.fits, Sds.SDS_MAX_PREALLOC, INT_MAX. rewrite zlen_encode, !flat_bulk_app, <- app_assoc. lia.
  - pose proof (words_mono items (Some (default [] cur ++ item_bytes i))) as Hw. cbn [from_option id] in Hw.
    rewrite zlen_app in Hw. zlen_pos.
    destruct (directive_step st done cur i (flat_map item_text items) (flat_map item_args items) Hinv Hi Es)
      as (x & r & E & Hst); [unfold Sds.fits, Sds.SDS_MAX_PREALLOC, INT_MAX; lia|].
    rewrite E. cbn [fmt_loop].
    destruct (if _ || _ then _ else _) as [[st' rest' args'| |]|]; cbn in Hst; cbn [mbind option_bind]; try done.
    destruct Hst as (Hinv' & -> & ->). apply IH; [done | done | |].
    + destruct i as [| | | | |d k a]; cbn in Hf, Hi |- *; try lia. destruct Hi as [Hl]. unfold zlen in Hl. lia.
    + unfold fmt_fits, Sds.fits, Sds.SDS_MAX_PREALLOC, INT_MAX. rewrite zlen_encode, flat_bulk_app. lia.
Qed.

Lemma encode_parts done cur : fmt_fits (done ++ option_list cur) ->
  zlen (flat_map bulk done) + zlen (flat_map bulk (option_list cur)) <= INT_MAX.
Proof.
  unfold fmt_fits, Sds.fits, Sds.SDS_MAX_PREALLOC, INT_MAX. rewrite zlen_encode, flat_bulk_app. zlen_pos. lia.
Qed.

Lemma holds_repr argv strs : Forall2 Sds.repr argv strs ->
  holds (map (fun s => (Sds.buf s, Sds.sdslen s)) argv) strs.
Proof.
  unfold holds. induction 1 as [|s l argv strs Hs _ IH]; [constructor|]. cbn [map]. constructor; [|done].
  cbn [fst snd]. split; [by apply Sds.sdslen_repr|]. destruct Hs as (t & -> & _). by eexists.
Qed.

(** The words in the vector are sent as they are. *)
Lemma build_words st strs : Forall2 Sds.repr (fargv st) strs -> ftotlen st = zlen (flat_map bulk strs) ->
  fmt_fits strs -> exists d, countDigits (u64 (zlen (fargv st))) = Some d /\
  build (zlen (fargv st)) (i32 (ftotlen st + (1 + d + 2))) (map (fun s => (Sds.buf s, Sds.sdslen s)) (fargv st)) =
    if malloc_ok (u64 (zlen (encode strs) + 1)) then Some (Some (zlen (encode strs), encode strs ++ [0])) else Some None.
Proof.
  intros Ha Ht Hf. unfold fmt_fits, Sds.fits, Sds.SDS_MAX_PREALLOC, INT_MAX in Hf.
  assert (zlen (fargv st) = zlen strs) as -> by (apply Forall2_length in Ha; unfold zlen; lia).
  exists (zlen (dec (zlen strs))). split; [apply count_argc; unfold INT_MAX; lia|].
  pose proof (zlen_encode strs) as He. zlen_pos.
  replace (i32 _) with (zlen (encode strs)) by (rewrite Ht, i32_small; unfold INT_MIN, INT_MAX; lia).
  apply build_spec; [by apply holds_repr | unfold INT_MAX; lia].
Qed.

Lemma redisvFormatCommand_text items r : Forall item_ok items -> 0 ∉ flat_map item_text items ->
  fmt_fits (words None items) ->
  match redisvFormatCommand (flat_map item_text items ++ 0 :: r) (flat_map item_args items) with
  | Some (inr (n, cmd)) => n = zlen (encode (words None items)) /\ cmd = encode (words None items) ++ [0]
  | Some (inl code) => code = -1 /\ exists n, malloc_ok n = false
  | None => False
  end.
Proof.
  intros Hok H0 Hfit. unfold redisvFormatCommand. rewrite Sds.cstr_app by done. cbn [mbind option_bind].
  pose proof Sds.sdsempty_spec as He. destruct Sds.sdsempty as [[e|]|]; cbn in He; try done.
  pose proof (format_loop_spec items (S (length (flat_map item_text items))) (mk_fstate e false [] 0) [] None) as Hl.
  destruct (fmt_loop _ _ _ _) as [[code|st]|]; cbn [mbind option_bind];
    try (apply Hl; try done; lia).
  destruct Hl as (done' & cur' & Hinv & Hw); try done; [lia|]. cbn [app] in Hw.
  rewrite <- Hw in *. clear Hw.
  assert (Sds.ok_or_oom (if touched st then push_arg st else Some (Some st)) (fun st' =>
    Forall2 Sds.repr (fargv st') (done' ++ option_list cur') /\
    ftotlen st' = zlen (flat_map bulk (done' ++ option_list cur')))) as Hp.
  { pose proof (encode_parts done' cur' Hfit) as Hb. pose proof Hinv as (_ & -> & Ha & Ht). destruct cur' as [w|].
    - apply push_arg_spec; [done|]. cbn [option_list option_rect flat_map] in Hb. rewrite app_nil_r in Hb. done.
    - cbn [option_list option_rect]. rewrite app_nil_r. done. }
  destruct (if touched st then _ else _) as [[st'|]|]; cbn in Hp; try done. destruct Hp as [Ha Ht].
  destruct (build_words st' _ Ha Ht Hfit) as (d & -> & E). cbn [mbind option_bind]. rewrite E.
  destruct (malloc_ok _) eqn:Em; cbn; eauto.
Qed.

(** ** The results *)

(** C31: [redisFormatCommandArgv] returns the length of the RESP encoding of its arguments
    and stores that encoding with a NUL behind it, in exactly the memory it reserved (the
    final assertion never fires); when the allocation fails it returns -1. Arguments may
    hold any bytes when their lengths are given. *)
Theorem redisFormatCommandArgv_encode (argv : list bytes) (argvlen : option (list Z)) (strs : list bytes)
    (Hargs : passed argv argvlen strs) (Hmax : zlen (encode strs) < INT_MAX) :
  redisFormatCommandArgv argv argvlen =
    if malloc_ok (u64 (zlen (encode strs) + 1)) then Some (Some (zlen (encode strs), encode strs ++ [0])) else Some None.
Proof. by apply redisFormatCommandArgv_text. Qed.

(** With memory, [redisFormatSdsCommandArgv] and [redisFormatCommandArgv] agree: the
    string built by concatenation has the content and the length of the one built in
    place, for every argument vector. *)
Theorem redisFormatSdsCommandArgv_agrees (argv : list bytes) (argvlen : option (list Z)) (strs : list bytes)
    (Hmem : has_memory) (Hargs : passed argv argvlen strs) (Hfit : Sds.fits (zlen (encode strs) + 1)) :
  exists n s text, redisFormatSdsCommandArgv argv argvlen = Some (Some (n, s)) /\ Sds.repr s text /\
    redisFormatCommandArgv argv argvlen = Some (Some (n, text ++ [0])).
Proof.
  destruct (redisFormatSdsCommandArgv_text argv argvlen strs) as (s & -> & Hs); try done.
  exists (zlen (encode strs)), s, (encode strs). split_and!; try done.
  rewrite (redisFormatCommandArgv_text argv argvlen strs), Hmem; [done | done |].
  unfold Sds.fits, Sds.SDS_MAX_PREALLOC, INT_MAX in *. lia.
Qed.

(** C32: [redisvFormatCommand] on a format of literal text, spaces, [%s], [%b], [%%] and
    numeric directives sends the words the format stands for: spaces separate them (also
    repeated ones), interpolated strings are not split, and an empty interpolation still
    makes an argument. On such a format it fails only when an allocation failed, with -1. *)
Theorem redisvFormatCommand_words (items : list item) (r : bytes)
    (Hok : Forall item_ok items) (Hnul : 0 ∉ flat_map item_text items) (Hfit : fmt_fits (words None items)) :
  match redisvFormatCommand (flat_map item_text items ++ 0 :: r) (flat_map item_args items) with
  | Some (inr (n, cmd)) => n = zlen (encode (words None items)) /\ cmd = encode (words None items) ++ [0]
  | Some (inl code) => code = -1 /\ exists n, malloc_ok n = false
  | None => False
  end.
Proof. by apply redisvFormatCommand_text. Qed.

End Ops.

(** ** Concrete commands *)

#[local] Existing Instance demo_memory.

(** A [vsnprintf] for [int] arguments. *)
Definition demo_printf (d : bytes) (a : farg) : bytes := match a with FInt n => sdec n | _ => [] end.

(** A format that ends inside a directive is taken for a conversion, because the
    terminating NUL is among the characters [strchr] finds: the formatter goes on reading
    behind the end of the format. *)
Theorem format_end_overread : redisvFormatCommand demo_printf (bstr "GET %5" ++ [0]) [FInt 1] = None.
Proof. by vm_compute. Qed.

Lemma demo_passed : passed [bstr "GET" ++ [0; 7]; [0; 13; 10]] (Some [3; 3]) [bstr "GET"; [0; 13; 10]].
Proof. split; [done|]. repeat constructor; by eexists. Qed.

Lemma redisFormatCommandArgv_encode_witness :
  redisFormatCommandArgv [bstr "GET" ++ [0; 7]; [0; 13; 10]] (Some [3; 3]) =
    Some (Some (22, bstr "*2" ++ CRLF ++ bstr "$3" ++ CRLF ++ bstr "GET" ++ CRLF ++ bstr "$3" ++ CRLF ++
      [0; 13; 10] ++ CRLF ++ [0])).
Proof. exact (redisFormatCommandArgv_encode _ _ [bstr "GET"; [0; 13; 10]] demo_passed ltac:(done)). Defined.

Lemma redisFormatSdsCommandArgv_agrees_witness :
  exists n s text, redisFormatSdsCommandArgv [bstr "GET" ++ [0; 7]; [0; 13; 10]] (Some [3; 3]) = Some (Some (n, s)) /\
    Sds.repr s text /\ redisFormatCommandArgv [bstr "GET" ++ [0; 7]; [0; 13; 10]] (Some [3; 3]) = Some (Some (n, text ++ [0])).
Proof.
  exact (redisFormatSdsCommandArgv_agrees _ _ [bstr "GET"; [0; 13; 10]] demo_has_memory demo_passed ltac:(done)).
Defined.

(** [ SET %s:%d   %b], with a binary value. *)
Definition demo_items : list item :=
  [Space; Char 83; Char 69; Char 84; Space; Str (bstr "k y") [9]; Char 58; Num (bstr "%d") KInt (FInt (-4));
   Space; Space; Space; Bin [0; 32] []; Percent; Space; Str [] []].

Lemma demo_items_ok : Forall (item_ok demo_printf) demo_items.
Proof.
  repeat constructor; cbn; try set_solver; try done; try lia.

Qed.

Lemma redisvFormatCommand_words_witness :
  words demo_printf None demo_items = [bstr "SET"; bstr "k y:-4"; [0; 32; 37]; []] /\
  match redisvFormatCommand demo_printf (flat_map item_text demo_items ++ 0 :: [1]) (flat_map item_args demo_items) with
  | Some (inr (n, cmd)) => n = zlen (encode (words demo_printf None demo_items)) /\
      cmd = encode (words demo_printf None demo_items) ++ [0]
  | Some (inl code) => code = -1 /\ exists n, malloc_ok n = false
  | None => False
  end.
Proof.
  split; [reflexivity|]. apply (redisvFormatCommand_words demo_printf demo_items [1] demo_items_ok).
  - vm_compute. set_solver.
  - done.
Defined.

End Format.
