(* ===== verification/Command.v ===== *)
(** Command parsing, command.c: the classes of commands, the table of their names, the
    state machine of [redis_parse_cmd] with one function per state, and the proofs that it
    is safe on every input and that it parses every command the formatters produce. *)
From S2P Require Import Prelude HiUtil HiArray Format.
Import HiUtil.

Open Scope Z_scope.

Module Command.

(** ** command.h *)

Inductive cmd_parse_result :=
| CMD_PARSE_OK | CMD_PARSE_ENOMEM | CMD_PARSE_ERROR | CMD_PARSE_REPAIR | CMD_PARSE_AGAIN.

(** The commands of command.h, in the order of the enumeration. *)
Inductive cmd_type :=
| CMD_UNKNOWN | CMD_REQ_REDIS_DEL | CMD_REQ_REDIS_EXISTS | CMD_REQ_REDIS_EXPIRE
| CMD_REQ_REDIS_EXPIREAT | CMD_REQ_REDIS_PEXPIRE | CMD_REQ_REDIS_PEXPIREAT | CMD_REQ_REDIS_PERSIST
| CMD_REQ_REDIS_PTTL | CMD_REQ_REDIS_SORT | CMD_REQ_REDIS_TTL | CMD_REQ_REDIS_TYPE
| CMD_REQ_REDIS_APPEND | CMD_REQ_REDIS_BITCOUNT | CMD_REQ_REDIS_DECR | CMD_REQ_REDIS_DECRBY
| CMD_REQ_REDIS_DUMP | CMD_REQ_REDIS_GET | CMD_REQ_REDIS_GETBIT | CMD_REQ_REDIS_GETRANGE
| CMD_REQ_REDIS_GETSET | CMD_REQ_REDIS_INCR | CMD_REQ_REDIS_INCRBY | CMD_REQ_REDIS_INCRBYFLOAT
| CMD_REQ_REDIS_MGET | CMD_REQ_REDIS_MSET | CMD_REQ_REDIS_PSETEX | CMD_REQ_REDIS_RESTORE
| CMD_REQ_REDIS_SET | CMD_REQ_REDIS_SETBIT | CMD_REQ_REDIS_SETEX | CMD_REQ_REDIS_SETNX
| CMD_REQ_REDIS_SETRANGE | CMD_REQ_REDIS_STRLEN | CMD_REQ_REDIS_HDEL | CMD_REQ_REDIS_HEXISTS
| CMD_REQ_REDIS_HGET | CMD_REQ_REDIS_HGETALL | CMD_REQ_REDIS_HINCRBY | CMD_REQ_REDIS_HINCRBYFLOAT
| CMD_REQ_REDIS_HKEYS | CMD_REQ_REDIS_HLEN | CMD_REQ_REDIS_HMGET | CMD_REQ_REDIS_HMSET
| CMD_REQ_REDIS_HSET | CMD_REQ_REDIS_HSETNX | CMD_REQ_REDIS_HSCAN | CMD_REQ_REDIS_HVALS
| CMD_REQ_REDIS_LINDEX | CMD_REQ_REDIS_LINSERT | CMD_REQ_REDIS_LLEN | CMD_REQ_REDIS_LPOP
| CMD_REQ_REDIS_LPUSH | CMD_REQ_REDIS_LPUSHX | CMD_REQ_REDIS_LRANGE | CMD_REQ_REDIS_LREM
| CMD_REQ_REDIS_LSET | CMD_REQ_REDIS_LTRIM | CMD_REQ_REDIS_PFADD | CMD_REQ_REDIS_PFCOUNT
| CMD_REQ_REDIS_PFMERGE | CMD_REQ_REDIS_RPOP | CMD_REQ_REDIS_RPOPLPUSH | CMD_REQ_REDIS_RPUSH
| CMD_REQ_REDIS_RPUSHX | CMD_REQ_REDIS_SADD | CMD_REQ_REDIS_SCARD | CMD_REQ_REDIS_SDIFF
| CMD_REQ_REDIS_SDIFFSTORE | CMD_REQ_REDIS_SINTER | CMD_REQ_REDIS_SINTERSTORE | CMD_REQ_REDIS_SISMEMBER
| CMD_REQ_REDIS_SMEMBERS | CMD_REQ_REDIS_SMOVE | CMD_REQ_REDIS_SPOP | CMD_REQ_REDIS_SRANDMEMBER
| CMD_REQ_REDIS_SREM | CMD_REQ_REDIS_SUNION | CMD_REQ_REDIS_SUNIONSTORE | CMD_REQ_REDIS_SSCAN
| CMD_REQ_REDIS_ZADD | CMD_REQ_REDIS_ZCARD | CMD_REQ_REDIS_ZCOUNT | CMD_REQ_REDIS_ZINCRBY
| CMD_REQ_REDIS_ZINTERSTORE | CMD_REQ_REDIS_ZLEXCOUNT | CMD_REQ_REDIS_ZRANGE | CMD_REQ_REDIS_ZRANGEBYLEX
| CMD_REQ_REDIS_ZRANGEBYSCORE | CMD_REQ_REDIS_ZRANK | CMD_REQ_REDIS_ZREM | CMD_REQ_REDIS_ZREMRANGEBYRANK
| CMD_REQ_REDIS_ZREMRANGEBYLEX | CMD_REQ_REDIS_ZREMRANGEBYSCORE | CMD_REQ_REDIS_ZREVRANGE | CMD_REQ_REDIS_ZREVRANGEBYSCORE
| CMD_REQ_REDIS_ZREVRANK | CMD_REQ_REDIS_ZSCORE | CMD_REQ_REDIS_ZUNIONSTORE | CMD_REQ_REDIS_ZSCAN
| CMD_REQ_REDIS_EVAL | CMD_REQ_REDIS_EVALSHA | CMD_REQ_REDIS_PING | CMD_REQ_REDIS_QUIT
| CMD_REQ_REDIS_AUTH | CMD_RSP_REDIS_STATUS | CMD_RSP_REDIS_ERROR | CMD_RSP_REDIS_INTEGER
| CMD_RSP_REDIS_BULK | CMD_RSP_REDIS_MULTIBULK | CMD_SENTINEL.

(** The numbers of the enumeration, which the error message prints. *)
Definition cmd_type_number (t : cmd_type) : Z :=
  match t with
  | CMD_UNKNOWN => 0 | CMD_REQ_REDIS_DEL => 1 | CMD_REQ_REDIS_EXISTS => 2
  | CMD_REQ_REDIS_EXPIRE => 3 | CMD_REQ_REDIS_EXPIREAT => 4 | CMD_REQ_REDIS_PEXPIRE => 5
  | CMD_REQ_REDIS_PEXPIREAT => 6 | CMD_REQ_REDIS_PERSIST => 7 | CMD_REQ_REDIS_PTTL => 8
  | CMD_REQ_REDIS_SORT => 9 | CMD_REQ_REDIS_TTL => 10 | CMD_REQ_REDIS_TYPE => 11
  | CMD_REQ_REDIS_APPEND => 12 | CMD_REQ_REDIS_BITCOUNT => 13 | CMD_REQ_REDIS_DECR => 14
  | CMD_REQ_REDIS_DECRBY => 15 | CMD_REQ_REDIS_DUMP => 16 | CMD_REQ_REDIS_GET => 17
  | CMD_REQ_REDIS_GETBIT => 18 | CMD_REQ_REDIS_GETRANGE => 19 | CMD_REQ_REDIS_GETSET => 20
  | CMD_REQ_REDIS_INCR => 21 | CMD_REQ_REDIS_INCRBY => 22 | CMD_REQ_REDIS_INCRBYFLOAT => 23
  | CMD_REQ_REDIS_MGET => 24 | CMD_REQ_REDIS_MSET => 25 | CMD_REQ_REDIS_PSETEX => 26
  | CMD_REQ_REDIS_RESTORE => 27 | CMD_REQ_REDIS_SET => 28 | CMD_REQ_REDIS_SETBIT => 29
  | CMD_REQ_REDIS_SETEX => 30 | CMD_REQ_REDIS_SETNX => 31 | CMD_REQ_REDIS_SETRANGE => 32
  | CMD_REQ_REDIS_STRLEN => 33 | CMD_REQ_REDIS_HDEL => 34 | CMD_REQ_REDIS_HEXISTS => 35
  | CMD_REQ_REDIS_HGET => 36 | CMD_REQ_REDIS_HGETALL => 37 | CMD_REQ_REDIS_HINCRBY => 38
  | CMD_REQ_REDIS_HINCRBYFLOAT => 39 | CMD_REQ_REDIS_HKEYS => 40 | CMD_REQ_REDIS_HLEN => 41
  | CMD_REQ_REDIS_HMGET => 42 | CMD_REQ_REDIS_HMSET => 43 | CMD_REQ_REDIS_HSET => 44
  | CMD_REQ_REDIS_HSETNX => 45 | CMD_REQ_REDIS_HSCAN => 46 | CMD_REQ_REDIS_HVALS => 47
  | CMD_REQ_REDIS_LINDEX => 48 | CMD_REQ_REDIS_LINSERT => 49 | CMD_REQ_REDIS_LLEN => 50
  | CMD_REQ_REDIS_LPOP => 51 | CMD_REQ_REDIS_LPUSH => 52 | CMD_REQ_REDIS_LPUSHX => 53
  | CMD_REQ_REDIS_LRANGE => 54 | CMD_REQ_REDIS_LREM => 55 | CMD_REQ_REDIS_LSET => 56
  | CMD_REQ_REDIS_LTRIM => 57 | CMD_REQ_REDIS_PFADD => 58 | CMD_REQ_REDIS_PFCOUNT => 59
  | CMD_REQ_REDIS_PFMERGE => 60 | CMD_REQ_REDIS_RPOP => 61 | CMD_REQ_REDIS_RPOPLPUSH => 62
  | CMD_REQ_REDIS_RPUSH => 63 | CMD_REQ_REDIS_RPUSHX => 64 | CMD_REQ_REDIS_SADD => 65
  | CMD_REQ_REDIS_SCARD => 66 | CMD_REQ_REDIS_SDIFF => 67 | CMD_REQ_REDIS_SDIFFSTORE => 68
  | CMD_REQ_REDIS_SINTER => 69 | CMD_REQ_REDIS_SINTERSTORE => 70 | CMD_REQ_REDIS_SISMEMBER => 71
  | CMD_REQ_REDIS_SMEMBERS => 72 | CMD_REQ_REDIS_SMOVE => 73 | CMD_REQ_REDIS_SPOP => 74
  | CMD_REQ_REDIS_SRANDMEMBER => 75 | CMD_REQ_REDIS_SREM => 76 | CMD_REQ_REDIS_SUNION => 77
  | CMD_REQ_REDIS_SUNIONSTORE => 78 | CMD_REQ_REDIS_SSCAN => 79 | CMD_REQ_REDIS_ZADD => 80
  | CMD_REQ_REDIS_ZCARD => 81 | CMD_REQ_REDIS_ZCOUNT => 82 | CMD_REQ_REDIS_ZINCRBY => 83
  | CMD_REQ_REDIS_ZINTERSTORE => 84 | CMD_REQ_REDIS_ZLEXCOUNT => 85 | CMD_REQ_REDIS_ZRANGE => 86
  | CMD_REQ_REDIS_ZRANGEBYLEX => 87 | CMD_REQ_REDIS_ZRANGEBYSCORE => 88 | CMD_REQ_REDIS_ZRANK => 89
  | CMD_REQ_REDIS_ZREM => 90 | CMD_REQ_REDIS_ZREMRANGEBYRANK => 91 | CMD_REQ_REDIS_ZREMRANGEBYLEX => 92
  | CMD_REQ_REDIS_ZREMRANGEBYSCORE => 93 | CMD_REQ_REDIS_ZREVRANGE => 94 | CMD_REQ_REDIS_ZREVRANGEBYSCORE => 95
  | CMD_REQ_REDIS_ZREVRANK => 96 | CMD_REQ_REDIS_ZSCORE => 97 | CMD_REQ_REDIS_ZUNIONSTORE => 98
  | CMD_REQ_REDIS_ZSCAN => 99 | CMD_REQ_REDIS_EVAL => 100 | CMD_REQ_REDIS_EVALSHA => 101
  | CMD_REQ_REDIS_PING => 102 | CMD_REQ_REDIS_QUIT => 103 | CMD_REQ_REDIS_AUTH => 104
  | CMD_RSP_REDIS_STATUS => 105 | CMD_RSP_REDIS_ERROR => 106 | CMD_RSP_REDIS_INTEGER => 107
  | CMD_RSP_REDIS_BULK => 108 | CMD_RSP_REDIS_MULTIBULK => 109 | CMD_SENTINEL => 110
  end.

(** A key of the command: the offsets of its first byte and of the byte behind it;
    [remain_len] is not set by the parser. *)
Record keypos := mk_keypos { start : Z; end_ : Z; remain_len : option Z }.

(** [cmd] is the memory of the command text, and the pointers into it are offsets. The
    fields that only the cluster code uses are with that code. *)
Record cmd := mk_cmd {
  id : Z;
  result : cmd_parse_result;
  errstr : option bytes;
  ctype : cmd_type;
  text : option bytes;
  clen : Z;
  keys : HiArray.hiarray keypos;
  narg_start : option Z;
  narg_end : option Z;
  narg : Z;
  quit : bool;
  noforward : bool;
  slot_num : Z;
}.

Definition set_result (r : cmd) (x : cmd_parse_result) (e : option bytes) : cmd :=
  mk_cmd (id r) x e (ctype r) (text r) (clen r) (keys r) (narg_start r) (narg_end r) (narg r)
    (quit r) (noforward r) (slot_num r).
Definition set_ctype (r : cmd) (t : cmd_type) (q nf : bool) : cmd :=
  mk_cmd (id r) (result r) (errstr r) t (text r) (clen r) (keys r) (narg_start r) (narg_end r) (narg r)
    q nf (slot_num r).
Definition set_keys (r : cmd) (k : HiArray.hiarray keypos) : cmd :=
  mk_cmd (id r) (result r) (errstr r) (ctype r) (text r) (clen r) k (narg_start r) (narg_end r) (narg r)
    (quit r) (noforward r) (slot_num r).
Definition set_narg (r : cmd) (s e : option Z) (n : Z) : cmd :=
  mk_cmd (id r) (result r) (errstr r) (ctype r) (text r) (clen r) (keys r) s e n
    (quit r) (noforward r) (slot_num r).

(** ** Classes of commands *)

(** The command takes no key. *)
Definition redis_argz (t : cmd_type) : bool :=
  match t with
  | CMD_REQ_REDIS_PING | CMD_REQ_REDIS_QUIT => true
  | _ => false
  end.

(** A key and no arguments. *)
Definition redis_arg0 (t : cmd_type) : bool :=
  match t with
  | CMD_REQ_REDIS_EXISTS | CMD_REQ_REDIS_PERSIST | CMD_REQ_REDIS_PTTL | CMD_REQ_REDIS_SORT
  | CMD_REQ_REDIS_TTL | CMD_REQ_REDIS_TYPE | CMD_REQ_REDIS_DUMP | CMD_REQ_REDIS_DECR
  | CMD_REQ_REDIS_GET | CMD_REQ_REDIS_INCR | CMD_REQ_REDIS_STRLEN | CMD_REQ_REDIS_HGETALL
  | CMD_REQ_REDIS_HKEYS | CMD_REQ_REDIS_HLEN | CMD_REQ_REDIS_HVALS | CMD_REQ_REDIS_LLEN
  | CMD_REQ_REDIS_LPOP | CMD_REQ_REDIS_RPOP | CMD_REQ_REDIS_SCARD | CMD_REQ_REDIS_SMEMBERS
  | CMD_REQ_REDIS_SPOP | CMD_REQ_REDIS_ZCARD | CMD_REQ_REDIS_PFCOUNT | CMD_REQ_REDIS_AUTH => true
  | _ => false
  end.

(** A key and exactly 1 argument. *)
Definition redis_arg1 (t : cmd_type) : bool :=
  match t with
  | CMD_REQ_REDIS_EXPIRE | CMD_REQ_REDIS_EXPIREAT | CMD_REQ_REDIS_PEXPIRE | CMD_REQ_REDIS_PEXPIREAT
  | CMD_REQ_REDIS_APPEND | CMD_REQ_REDIS_DECRBY | CMD_REQ_REDIS_GETBIT | CMD_REQ_REDIS_GETSET
  | CMD_REQ_REDIS_INCRBY | CMD_REQ_REDIS_INCRBYFLOAT | CMD_REQ_REDIS_SETNX | CMD_REQ_REDIS_HEXISTS
  | CMD_REQ_REDIS_HGET | CMD_REQ_REDIS_LINDEX | CMD_REQ_REDIS_LPUSHX | CMD_REQ_REDIS_RPOPLPUSH
  | CMD_REQ_REDIS_RPUSHX | CMD_REQ_REDIS_SISMEMBER | CMD_REQ_REDIS_ZRANK | CMD_REQ_REDIS_ZREVRANK
  | CMD_REQ_REDIS_ZSCORE => true
  | _ => false
  end.

(** A key and exactly 2 arguments. *)
Definition redis_arg2 (t : cmd_type) : bool :=
  match t with
  | CMD_REQ_REDIS_GETRANGE | CMD_REQ_REDIS_PSETEX | CMD_REQ_REDIS_SETBIT | CMD_REQ_REDIS_SETEX
  | CMD_REQ_REDIS_SETRANGE | CMD_REQ_REDIS_HINCRBY | CMD_REQ_REDIS_HINCRBYFLOAT | CMD_REQ_REDIS_HSET
  | CMD_REQ_REDIS_HSETNX | CMD_REQ_REDIS_LRANGE | CMD_REQ_REDIS_LREM | CMD_REQ_REDIS_LSET
  | CMD_REQ_REDIS_LTRIM | CMD_REQ_REDIS_SMOVE | CMD_REQ_REDIS_ZCOUNT | CMD_REQ_REDIS_ZLEXCOUNT
  | CMD_REQ_REDIS_ZINCRBY | CMD_REQ_REDIS_ZREMRANGEBYLEX | CMD_REQ_REDIS_ZREMRANGEBYRANK | CMD_REQ_REDIS_ZREMRANGEBYSCORE
  | CMD_REQ_REDIS_RESTORE => true
  | _ => false
  end.

(** A key and exactly 3 arguments. *)
Definition redis_arg3 (t : cmd_type) : bool :=
  match t with
  | CMD_REQ_REDIS_LINSERT => true
  | _ => false
  end.

(** A key and 0 or more arguments. *)
Definition redis_argn (t : cmd_type) : bool :=
  match t with
  | CMD_REQ_REDIS_BITCOUNT | CMD_REQ_REDIS_SET | CMD_REQ_REDIS_HDEL | CMD_REQ_REDIS_HMGET
  | CMD_REQ_REDIS_HMSET | CMD_REQ_REDIS_HSCAN | CMD_REQ_REDIS_LPUSH | CMD_REQ_REDIS_RPUSH
  | CMD_REQ_REDIS_SADD | CMD_REQ_REDIS_SDIFF | CMD_REQ_REDIS_SDIFFSTORE | CMD_REQ_REDIS_SINTER
  | CMD_REQ_REDIS_SINTERSTORE | CMD_REQ_REDIS_SREM | CMD_REQ_REDIS_SUNION | CMD_REQ_REDIS_SUNIONSTORE
  | CMD_REQ_REDIS_SRANDMEMBER | CMD_REQ_REDIS_SSCAN | CMD_REQ_REDIS_PFADD | CMD_REQ_REDIS_PFMERGE
  | CMD_REQ_REDIS_ZADD | CMD_REQ_REDIS_ZINTERSTORE | CMD_REQ_REDIS_ZRANGE | CMD_REQ_REDIS_ZRANGEBYSCORE
  | CMD_REQ_REDIS_ZREM | CMD_REQ_REDIS_ZREVRANGE | CMD_REQ_REDIS_ZRANGEBYLEX | CMD_REQ_REDIS_ZREVRANGEBYSCORE
  | CMD_REQ_REDIS_ZUNIONSTORE | CMD_REQ_REDIS_ZSCAN => true
  | _ => false
  end.

(** One or more keys. *)
Definition redis_argx (t : cmd_type) : bool :=
  match t with
  | CMD_REQ_REDIS_MGET | CMD_REQ_REDIS_DEL => true
  | _ => false
  end.

(** One or more key-value pairs. *)
Definition redis_argkvx (t : cmd_type) : bool :=
  match t with
  | CMD_REQ_REDIS_MSET => true
  | _ => false
  end.

(** A script, the number of keys, keys and arguments. *)
Definition redis_argeval (t : cmd_type) : bool :=
  match t with
  | CMD_REQ_REDIS_EVAL | CMD_REQ_REDIS_EVALSHA => true
  | _ => false
  end.

(** ** Names *)

Definition name (s : string) (t : cmd_type) : bytes * cmd_type := (bstr s, t).

Definition case_3 : list (bytes * cmd_type) :=
  [name "get" CMD_REQ_REDIS_GET; name "set" CMD_REQ_REDIS_SET; name "ttl" CMD_REQ_REDIS_TTL;
   name "del" CMD_REQ_REDIS_DEL].

Definition case_4 : list (bytes * cmd_type) :=
  [name "pttl" CMD_REQ_REDIS_PTTL; name "decr" CMD_REQ_REDIS_DECR; name "dump" CMD_REQ_REDIS_DUMP;
   name "hdel" CMD_REQ_REDIS_HDEL; name "hget" CMD_REQ_REDIS_HGET; name "hlen" CMD_REQ_REDIS_HLEN;
   name "hset" CMD_REQ_REDIS_HSET; name "incr" CMD_REQ_REDIS_INCR; name "llen" CMD_REQ_REDIS_LLEN;
   name "lpop" CMD_REQ_REDIS_LPOP; name "lrem" CMD_REQ_REDIS_LREM; name "lset" CMD_REQ_REDIS_LSET;
   name "rpop" CMD_REQ_REDIS_RPOP; name "sadd" CMD_REQ_REDIS_SADD; name "spop" CMD_REQ_REDIS_SPOP;
   name "srem" CMD_REQ_REDIS_SREM; name "type" CMD_REQ_REDIS_TYPE; name "mget" CMD_REQ_REDIS_MGET;
   name "mset" CMD_REQ_REDIS_MSET; name "zadd" CMD_REQ_REDIS_ZADD; name "zrem" CMD_REQ_REDIS_ZREM;
   name "eval" CMD_REQ_REDIS_EVAL; name "sort" CMD_REQ_REDIS_SORT; name "ping" CMD_REQ_REDIS_PING;
   name "quit" CMD_REQ_REDIS_QUIT; name "auth" CMD_REQ_REDIS_AUTH].

Definition case_5 : list (bytes * cmd_type) :=
  [name "hkeys" CMD_REQ_REDIS_HKEYS; name "hmget" CMD_REQ_REDIS_HMGET; name "hmset" CMD_REQ_REDIS_HMSET;
   name "hvals" CMD_REQ_REDIS_HVALS; name "hscan" CMD_REQ_REDIS_HSCAN; name "lpush" CMD_REQ_REDIS_LPUSH;
   name "ltrim" CMD_REQ_REDIS_LTRIM; name "rpush" CMD_REQ_REDIS_RPUSH; name "scard" CMD_REQ_REDIS_SCARD;
   name "sdiff" CMD_REQ_REDIS_SDIFF; name "setex" CMD_REQ_REDIS_SETEX; name "setnx" CMD_REQ_REDIS_SETNX;
   name "smove" CMD_REQ_REDIS_SMOVE; name "sscan" CMD_REQ_REDIS_SSCAN; name "zcard" CMD_REQ_REDIS_ZCARD;
   name "zrank" CMD_REQ_REDIS_ZRANK; name "zscan" CMD_REQ_REDIS_ZSCAN; name "pfadd" CMD_REQ_REDIS_PFADD].

Definition case_6 : list (bytes * cmd_type) :=
  [name "append" CMD_REQ_REDIS_APPEND; name "decrby" CMD_REQ_REDIS_DECRBY; name "exists" CMD_REQ_REDIS_EXISTS;
   name "expire" CMD_REQ_REDIS_EXPIRE; name "getbit" CMD_REQ_REDIS_GETBIT; name "getset" CMD_REQ_REDIS_GETSET;
   name "psetex" CMD_REQ_REDIS_PSETEX; name "hsetnx" CMD_REQ_REDIS_HSETNX; name "incrby" CMD_REQ_REDIS_INCRBY;
   name "lindex" CMD_REQ_REDIS_LINDEX; name "lpushx" CMD_REQ_REDIS_LPUSHX; name "lrange" CMD_REQ_REDIS_LRANGE;
   name "rpushx" CMD_REQ_REDIS_RPUSHX; name "setbit" CMD_REQ_REDIS_SETBIT; name "sinter" CMD_REQ_REDIS_SINTER;
   name "strlen" CMD_REQ_REDIS_STRLEN; name "sunion" CMD_REQ_REDIS_SUNION; name "zcount" CMD_REQ_REDIS_ZCOUNT;
   name "zrange" CMD_REQ_REDIS_ZRANGE; name "zscore" CMD_REQ_REDIS_ZSCORE].

Definition case_7 : list (bytes * cmd_type) :=
  [name "persist" CMD_REQ_REDIS_PERSIST; name "pexpire" CMD_REQ_REDIS_PEXPIRE; name "hexists" CMD_REQ_REDIS_HEXISTS;
   name "hgetall" CMD_REQ_REDIS_HGETALL; name "hincrby" CMD_REQ_REDIS_HINCRBY; name "linsert" CMD_REQ_REDIS_LINSERT;
   name "zincrby" CMD_REQ_REDIS_ZINCRBY; name "evalsha" CMD_REQ_REDIS_EVALSHA; name "restore" CMD_REQ_REDIS_RESTORE;
   name "pfcount" CMD_REQ_REDIS_PFCOUNT; name "pfmerge" CMD_REQ_REDIS_PFMERGE].

Definition case_8 : list (bytes * cmd_type) :=
  [name "expireat" CMD_REQ_REDIS_EXPIREAT; name "bitcount" CMD_REQ_REDIS_BITCOUNT; name "getrange" CMD_REQ_REDIS_GETRANGE;
   name "setrange" CMD_REQ_REDIS_SETRANGE; name "smembers" CMD_REQ_REDIS_SMEMBERS; name "zrevrank" CMD_REQ_REDIS_ZREVRANK].

Definition case_9 : list (bytes * cmd_type) :=
  [name "pexpireat" CMD_REQ_REDIS_PEXPIREAT; name "rpoplpush" CMD_REQ_REDIS_RPOPLPUSH;
   name "sismember" CMD_REQ_REDIS_SISMEMBER; name "zrevrange" CMD_REQ_REDIS_ZREVRANGE;
   name "zlexcount" CMD_REQ_REDIS_ZLEXCOUNT].

Definition case_10 : list (bytes * cmd_type) :=
  [name "sdiffstore" CMD_REQ_REDIS_SDIFFSTORE].

Definition case_11 : list (bytes * cmd_type) :=
  [name "incrbyfloat" CMD_REQ_REDIS_INCRBYFLOAT; name "sinterstore" CMD_REQ_REDIS_SINTERSTORE;
   name "srandmember" CMD_REQ_REDIS_SRANDMEMBER; name "sunionstore" CMD_REQ_REDIS_SUNIONSTORE;
   name "zinterstore" CMD_REQ_REDIS_ZINTERSTORE; name "zunionstore" CMD_REQ_REDIS_ZUNIONSTORE;
   name "zrangebylex" CMD_REQ_REDIS_ZRANGEBYLEX].

Definition case_12 : list (bytes * cmd_type) :=
  [name "hincrbyfloat" CMD_REQ_REDIS_HINCRBYFLOAT].

Definition case_13 : list (bytes * cmd_type) :=
  [name "zrangebyscore" CMD_REQ_REDIS_ZRANGEBYSCORE].

Definition case_14 : list (bytes * cmd_type) :=
  [name "zremrangebylex" CMD_REQ_REDIS_ZREMRANGEBYLEX].

Definition case_15 : list (bytes * cmd_type) :=
  [name "zremrangebyrank" CMD_REQ_REDIS_ZREMRANGEBYRANK].

Definition case_16 : list (bytes * cmd_type) :=
  [name "zremrangebyscore" CMD_REQ_REDIS_ZREMRANGEBYSCORE; name "zrevrangebyscore" CMD_REQ_REDIS_ZREVRANGEBYSCORE].

(** The names tried for a length; [case 10] falls through to [case 11]. *)
Definition names (n : Z) : list (bytes * cmd_type) :=
  match n with
  | 3 => case_3 | 4 => case_4 | 5 => case_5 | 6 => case_6 | 7 => case_7 | 8 => case_8 | 9 => case_9
  | 10 => case_10 ++ case_11
  | 11 => case_11 | 12 => case_12 | 13 => case_13 | 14 => case_14 | 15 => case_15 | 16 => case_16
  | _ => []
  end.

(** [strNicmp(m, c0, c1, ...)]: the comparison stops at the first difference. *)
Fixpoint stricmp (m name : bytes) : option bool :=
  match name with
  | [] => Some true
  | c :: name' =>
      x ← head m;
      if (x =? c) || (x =? Z.lxor c 32) then stricmp (tail m) name' else Some false
  end.

(** The type of the first name that matches. *)
Fixpoint lookup_name (m : bytes) (l : list (bytes * cmd_type)) : option cmd_type :=
  match l with
  | [] => Some CMD_UNKNOWN
  | (n, t) :: l' => b ← stricmp m n; if b : bool then Some t else lookup_name m l'
  end.

(** The flags set together with a type. *)
Definition sets_noforward (t : cmd_type) : bool :=
  match t with CMD_REQ_REDIS_PING | CMD_REQ_REDIS_AUTH => true | _ => false end.
Definition sets_quit (t : cmd_type) : bool := match t with CMD_REQ_REDIS_QUIT => true | _ => false end.

(** ** The state machine *)

Inductive sw :=
| SW_START | SW_NARG | SW_NARG_LF | SW_REQ_TYPE_LEN | SW_REQ_TYPE_LEN_LF | SW_REQ_TYPE | SW_REQ_TYPE_LF
| SW_KEY_LEN | SW_KEY_LEN_LF | SW_KEY | SW_KEY_LF
| SW_ARG1_LEN | SW_ARG1_LEN_LF | SW_ARG1 | SW_ARG1_LF
| SW_ARG2_LEN | SW_ARG2_LEN_LF | SW_ARG2 | SW_ARG2_LF
| SW_ARG3_LEN | SW_ARG3_LEN_LF | SW_ARG3 | SW_ARG3_LF
| SW_ARGN_LEN | SW_ARGN_LEN_LF | SW_ARGN | SW_ARGN_LF | SW_SENTINEL.

Definition sw_number (s : sw) : Z :=
  match s with
  | SW_START => 0 | SW_NARG => 1 | SW_NARG_LF => 2 | SW_REQ_TYPE_LEN => 3 | SW_REQ_TYPE_LEN_LF => 4
  | SW_REQ_TYPE => 5 | SW_REQ_TYPE_LF => 6 | SW_KEY_LEN => 7 | SW_KEY_LEN_LF => 8 | SW_KEY => 9
  | SW_KEY_LF => 10 | SW_ARG1_LEN => 11 | SW_ARG1_LEN_LF => 12 | SW_ARG1 => 13 | SW_ARG1_LF => 14
  | SW_ARG2_LEN => 15 | SW_ARG2_LEN_LF => 16 | SW_ARG2 => 17 | SW_ARG2_LF => 18 | SW_ARG3_LEN => 19
  | SW_ARG3_LEN_LF => 20 | SW_ARG3 => 21 | SW_ARG3_LF => 22 | SW_ARGN_LEN => 23 | SW_ARGN_LEN_LF => 24
  | SW_ARGN => 25 | SW_ARGN_LF => 26 | SW_SENTINEL => 27
  end.

(** The local variables of the parser, and the command it fills. *)
Record fsm := mk_fsm { state : sw; p : Z; token : option Z; rlen : Z; rnarg : Z; req : cmd }.

(** How a state leaves the switch: [break], or a jump to one of the labels. *)
Inductive exit :=
| Break (s : fsm)
| Goto_done (s : fsm)
| Goto_enomem (s : fsm)
| Goto_error (s : fsm).

Definition goto (s : fsm) (st : sw) : exit := Break (mk_fsm st (p s) (token s) (rlen s) (rnarg s) (req s)).

(** [v * 10 + (uint32_t)(ch - '0')]. *)
Definition add_digit (v ch : Z) : Z := u32 (v * 10 + (ch - 48)).

Section Machine.
Context `{Memory}.

(** The text and its length. *)
Context (mem : bytes) (cend : Z).

Definition sw_narg (s : fsm) (ch : Z) : exit :=
  match token s with
  | None =>
      if negb (ch =? 42) then Goto_error s
      else Break (mk_fsm SW_NARG (p s) (Some (p s)) (rlen s) 0
                    (set_narg (req s) (Some (p s)) (narg_end (req s)) (narg (req s))))
  | Some _ =>
      if is_digit ch then Break (mk_fsm (state s) (p s) (token s) (rlen s) (add_digit (rnarg s) ch) (req s))
      else if ch =? CR then
        if rnarg s =? 0 then Goto_error s
        else Break (mk_fsm SW_NARG_LF (p s) None (rlen s) (rnarg s)
                      (set_narg (req s) (narg_start (req s)) (Some (p s)) (rnarg s)))
      else Goto_error s
  end.

(** The states that expect a line feed and nothing else. *)
Definition sw_lf (next : sw) (s : fsm) (ch : Z) : exit := if ch =? LF then goto s next else Goto_error s.

(** The states that read [$] and a length; [bad] is the test at the CR. *)
Definition sw_len (bad : fsm -> bool) (next : sw) (s : fsm) (ch : Z) : exit :=
  match token s with
  | None =>
      if negb (ch =? 36) then Goto_error s
      else Break (mk_fsm (state s) (p s) (Some (p s)) 0 (rnarg s) (req s))
  | Some _ =>
      if is_digit ch then Break (mk_fsm (state s) (p s) (token s) (add_digit (rlen s) ch) (rnarg s) (req s))
      else if ch =? CR then
        if bad s then Goto_error s
        else Break (mk_fsm next (p s) None (rlen s) (u32 (rnarg s - 1)) (req s))
      else Goto_error s
  end.

(** [(p - token) <= 1 || rnarg == 0]. *)
Definition no_digits (s : fsm) : bool :=
  (match token s with Some t => p s - t <=? 1 | None => false end) || (rnarg s =? 0).

Definition sw_req_type_len : fsm -> Z -> exit :=
  sw_len (fun s => (rlen s =? 0) || (rnarg s =? 0)) SW_REQ_TYPE_LEN_LF.
Definition sw_key_len : fsm -> Z -> exit := sw_len (fun s => rnarg s =? 0) SW_KEY_LEN_LF.
Definition sw_arg1_len : fsm -> Z -> exit := sw_len no_digits SW_ARG1_LEN_LF.
Definition sw_arg2_len : fsm -> Z -> exit := sw_len no_digits SW_ARG2_LEN_LF.
Definition sw_arg3_len : fsm -> Z -> exit := sw_len no_digits SW_ARG3_LEN_LF.
Definition sw_argn_len : fsm -> Z -> exit := sw_len no_digits SW_ARGN_LEN_LF.

(** [m = from + rlen; if (m >= cmd_end) goto error; if ( *m != CR ) goto error;] and then
    the rest with [m]. *)
Definition at_cr (s : fsm) (from : Z) (k : Z -> option exit) : option exit :=
  let m := from + rlen s in
  if cend <=? m then Some (Goto_error s)
  else c ← rd mem m; if negb (c =? CR) then Some (Goto_error s) else k m.

Definition from_token (s : fsm) : Z := match token s with None => p s | Some t => t end.

(** The error jumps behind the first assignment keep the token it made. *)
Definition with_token (s : fsm) : fsm := mk_fsm (state s) (p s) (Some (from_token s)) (rlen s) (rnarg s) (req s).

Definition sw_req_type (s : fsm) : option exit :=
  at_cr (with_token s) (from_token s) (fun m =>
    t ← lookup_name (drop (Z.to_nat (from_token s)) mem) (names (m - from_token s));
    let r := set_ctype (req s) t (if sets_quit t then true else quit (req s))
               (if sets_noforward t then true else noforward (req s)) in
    match t with
    | CMD_UNKNOWN => Some (Goto_error (mk_fsm (state s) m None 0 (rnarg s) r))
    | _ => Some (Break (mk_fsm SW_REQ_TYPE_LF m None 0 (rnarg s) r))
    end).

Definition sw_req_type_lf (s : fsm) (ch : Z) : exit :=
  if negb (ch =? LF) then Goto_error s
  else if redis_argz (ctype (req s)) then Goto_done s
  else if redis_argeval (ctype (req s)) then goto s SW_ARG1_LEN
  else goto s SW_KEY_LEN.

Definition sw_key (s : fsm) : option exit :=
  at_cr (with_token s) (from_token s) (fun m =>
    match HiArray.hiarray_push malloc_ok (keys (req s)) with
    | None => Some (Goto_enomem (mk_fsm (state s) m None 0 (rnarg s) (req s)))
    | Some (a, i) =>
        a ← HiArray.hiarray_put a i (mk_keypos (from_token s) m None);
        Some (Break (mk_fsm SW_KEY_LF m None 0 (rnarg s) (set_keys (req s) a)))
    end).

Definition sw_key_lf (s : fsm) (ch : Z) : exit :=
  let t := ctype (req s) in
  if negb (ch =? LF) then Goto_error s
  else if redis_arg0 t then (if negb (rnarg s =? 0) then Goto_error s else Goto_done s)
  else if redis_arg1 t then (if negb (rnarg s =? 1) then Goto_error s else goto s SW_ARG1_LEN)
  else if redis_arg2 t then (if negb (rnarg s =? 2) then Goto_error s else goto s SW_ARG1_LEN)
  else if redis_arg3 t then (if negb (rnarg s =? 3) then Goto_error s else goto s SW_ARG1_LEN)
  else if redis_argn t then (if rnarg s =? 0 then Goto_done s else goto s SW_ARG1_LEN)
  else if redis_argx t then (if rnarg s =? 0 then Goto_done s else goto s SW_KEY_LEN)
  else if redis_argkvx t then
    (if rnarg s =? 0 then Goto_done s
     else if narg (req s) mod 2 =? 0 then Goto_error s else goto s SW_ARG1_LEN)
  else if redis_argeval t then (if rnarg s =? 0 then Goto_done s else goto s SW_ARGN_LEN)
  else Goto_error s.

(** The arguments that are skipped. *)
Definition sw_skip (next : sw) (s : fsm) : option exit :=
  at_cr s (p s) (fun m => Some (Break (mk_fsm next m (token s) 0 (rnarg s) (req s)))).

Definition sw_arg1 : fsm -> option exit := sw_skip SW_ARG1_LF.
Definition sw_arg3 : fsm -> option exit := sw_skip SW_ARG3_LF.
Definition sw_argn : fsm -> option exit := sw_skip SW_ARGN_LF.

Definition sw_arg1_lf (s : fsm) (ch : Z) : exit :=
  let t := ctype (req s) in
  if negb (ch =? LF) then Goto_error s
  else if redis_arg1 t then (if negb (rnarg s =? 0) then Goto_error s else Goto_done s)
  else if redis_arg2 t then (if negb (rnarg s =? 1) then Goto_error s else goto s SW_ARG2_LEN)
  else if redis_arg3 t then (if negb (rnarg s =? 2) then Goto_error s else goto s SW_ARG2_LEN)
  else if redis_argn t then (if rnarg s =? 0 then Goto_done s else goto s SW_ARGN_LEN)
  else if redis_argeval t then (if rnarg s <? 2 then Goto_error s else goto s SW_ARG2_LEN)
  else if redis_argkvx t then (if rnarg s =? 0 then Goto_done s else goto s SW_KEY_LEN)
  else Goto_error s.

(** The number of keys of EVAL; [None] for the jump to the error label. *)
Fixpoint nkey_loop (nkey : Z) (l : bytes) : option Z :=
  match l with
  | [] => Some nkey
  | c :: l' => if is_digit c then nkey_loop (add_digit nkey c) l' else None
  end.

Definition sw_arg2 (s : fsm) : option exit :=
  let s := match token s with
           | None => if redis_argeval (ctype (req s)) then with_token s else s
           | Some _ => s
           end in
  at_cr s (p s) (fun m =>
    let moved tok := mk_fsm (state s) m tok 0 (rnarg s) (req s) in
    let next tok := mk_fsm SW_ARG2_LF m tok 0 (rnarg s) (req s) in
    if redis_argeval (ctype (req s)) then
      t ← token s;
      if m - t <? 1 then Some (Goto_error (moved (token s)))
      else
        match nkey_loop 0 (take (Z.to_nat (m - t)) (drop (Z.to_nat t) mem)) with
        | None => Some (Goto_error (moved (token s)))
        | Some nkey => if nkey =? 0 then Some (Goto_error (moved (token s))) else Some (Break (next None))
        end
    else Some (Break (next (token s)))).

Definition sw_arg2_lf (s : fsm) (ch : Z) : exit :=
  let t := ctype (req s) in
  if negb (ch =? LF) then Goto_error s
  else if redis_arg2 t then (if negb (rnarg s =? 0) then Goto_error s else Goto_done s)
  else if redis_arg3 t then (if negb (rnarg s =? 1) then Goto_error s else goto s SW_ARG3_LEN)
  else if redis_argn t then (if rnarg s =? 0 then Goto_done s else goto s SW_ARGN_LEN)
  else if redis_argeval t then (if rnarg s <? 1 then Goto_error s else goto s SW_KEY_LEN)
  else Goto_error s.

Definition sw_arg3_lf (s : fsm) (ch : Z) : exit :=
  let t := ctype (req s) in
  if negb (ch =? LF) then Goto_error s
  else if redis_arg3 t then (if negb (rnarg s =? 0) then Goto_error s else Goto_done s)
  else if redis_argn t then (if rnarg s =? 0 then Goto_done s else goto s SW_ARGN_LEN)
  else Goto_error s.

Definition sw_argn_lf (s : fsm) (ch : Z) : exit :=
  let t := ctype (req s) in
  if negb (ch =? LF) then Goto_error s
  else if redis_argn t || redis_argeval t then (if rnarg s =? 0 then Goto_done s else goto s SW_ARGN_LEN)
  else Goto_error s.

(** The switch. *)
Definition parse_switch (s : fsm) (ch : Z) : option exit :=
  match state s with
  | SW_START | SW_NARG => Some (sw_narg s ch)
  | SW_NARG_LF => Some (sw_lf SW_REQ_TYPE_LEN s ch)
  | SW_REQ_TYPE_LEN => Some (sw_req_type_len s ch)
  | SW_REQ_TYPE_LEN_LF => Some (sw_lf SW_REQ_TYPE s ch)
  | SW_REQ_TYPE => sw_req_type s
  | SW_REQ_TYPE_LF => Some (sw_req_type_lf s ch)
  | SW_KEY_LEN => Some (sw_key_len s ch)
  | SW_KEY_LEN_LF => Some (sw_lf SW_KEY s ch)
  | SW_KEY => sw_key s
  | SW_KEY_LF => Some (sw_key_lf s ch)
  | SW_ARG1_LEN => Some (sw_arg1_len s ch)
  | SW_ARG1_LEN_LF => Some (sw_lf SW_ARG1 s ch)
  | SW_ARG1 => sw_arg1 s
  | SW_ARG1_LF => Some (sw_arg1_lf s ch)
  | SW_ARG2_LEN => Some (sw_arg2_len s ch)
  | SW_ARG2_LEN_LF => Some (sw_lf SW_ARG2 s ch)
  | SW_ARG2 => sw_arg2 s
  | SW_ARG2_LF => Some (sw_arg2_lf s ch)
  | SW_ARG3_LEN => Some (sw_arg3_len s ch)
  | SW_ARG3_LEN_LF => Some (sw_lf SW_ARG3 s ch)
  | SW_ARG3 => sw_arg3 s
  | SW_ARG3_LF => Some (sw_arg3_lf s ch)
  | SW_ARGN_LEN => Some (sw_argn_len s ch)
  | SW_ARGN_LEN_LF => Some (sw_lf SW_ARGN s ch)
  | SW_ARGN => sw_argn s
  | SW_ARGN_LF => Some (sw_argn_lf s ch)
  | SW_SENTINEL => Some (Break s)
  end.

Definition advance (s : fsm) : fsm := mk_fsm (state s) (p s + 1) (token s) (rlen s) (rnarg s) (req s).

(** The loop; [inr] is its end without a jump. The position moves in every round. *)
Fixpoint parse_loop (fuel : nat) (s : fsm) : option (exit + fsm) :=
  match fuel with
  | O => None
  | S f =>
      if p s <? cend then
        ch ← rd mem (p s);
        e ← parse_switch s ch;
        match e with
        | Break s' => parse_loop f (advance s')
        | _ => Some (inl e)
        end
      else Some (inr s)
  end.

End Machine.

Section Ops.
Context `{Memory}.

Definition parse_error_msg (s : fsm) : bytes :=
  bstr "Parse command error. Cmd type: " ++ sdec (cmd_type_number (ctype (req s))) ++
  bstr ", state: " ++ sdec (sw_number (state s)) ++ bstr ", break position: " ++ sdec (i32 (p s)) ++ bstr ".".

(** The error label: the message goes to a buffer of 100 bytes, allocated when there is none
    and not tested for NULL. *)
Definition parse_error (s : fsm) : option cmd :=
  let r := req s in
  e ← (match errstr r with
       | Some e => Some e
       | None => if malloc_ok 100 then Some (replicate 100 junk) else None
       end);
  let msg := parse_error_msg s in
  e ← wr_bytes e 0 (take 99 msg ++ [0]);
  e ← wr e (_vscnprintf (zlen msg) 100) 0;
  Some (set_result r CMD_PARSE_ERROR (Some e)).

Definition redis_parse_cmd (r : cmd) : option cmd :=
  let mem := default [] (text r) in
  x ← parse_loop mem (clen r) (S (Z.to_nat (clen r))) (mk_fsm SW_START 0 None 0 0 r);
  match x with
  | inr s => Some (req s)
  | inl (Break s) => Some (req s)
  | inl (Goto_done s) => Some (set_result (req s) CMD_PARSE_OK (errstr (req s)))
  | inl (Goto_enomem s) => Some (set_result (req s) CMD_PARSE_ENOMEM (errstr (req s)))
  | inl (Goto_error s) => parse_error s
  end.

(** [sizeof(struct cmd)] and [sizeof(struct keypos)]. *)
Definition cmd_size : Z := 112.
Definition keypos_size : Z := 24.

(** The command and the new value of the counter [cmd_id]. *)
Definition command_get (cmd_id : Z) : option cmd * Z :=
  if negb (malloc_ok cmd_size) then (None, cmd_id)
  else
    let cmd_id := u64 (cmd_id + 1) in
    match HiArray.hiarray_create malloc_ok 1 keypos_size with
    | None => (None, cmd_id)
    | Some keys =>
        (Some (mk_cmd cmd_id CMD_PARSE_OK None CMD_UNKNOWN None 0 keys None None 0 false false (-1)), cmd_id)
    end.

End Ops.

(** ** Names, case-insensitively *)

(** All commands. *)
Definition command_names : list (bytes * cmd_type) :=
  case_3 ++ case_4 ++ case_5 ++ case_6 ++ case_7 ++ case_8 ++ case_9 ++ case_10 ++ case_11 ++ case_12 ++
  case_13 ++ case_14 ++ case_15 ++ case_16.

Definition lower (b : Z) : Z := if (65 <=? b) && (b <=? 90) then b + 32 else b.

Fixpoint named_in (nm : bytes) (l : list (bytes * cmd_type)) : cmd_type :=
  match l with
  | [] => CMD_UNKNOWN
  | (n, t) :: l' => if bool_decide (map lower nm = n) then t else named_in nm l'
  end.

(** The command a name stands for, in any mixture of cases. *)
Definition command_named (nm : bytes) : cmd_type := named_in nm command_names.

Definition small_letter (c : Z) : bool := (97 <=? c) && (c <=? 122).

Lemma letter_match c x : small_letter c = true -> (x =? c) || (x =? Z.lxor c 32) = bool_decide (lower x = c).
Proof.
  intros Hc. assert (Z.lxor c 32 = c - 32) as ->.
  { assert (Forall (fun c => Z.lxor c 32 = c - 32) (seqZ 97 26)) as HF by (vm_compute; repeat constructor).
    rewrite Forall_forall in HF. apply HF, elem_of_seqZ. unfold small_letter in Hc. lia. }
  unfold small_letter in Hc. unfold lower. destruct ((65 <=? x) && (x <=? 90)) eqn:E; case_bool_decide; lia.
Qed.

(** A comparison with the text up to a CR is a comparison of the whole name. *)
Lemma stricmp_spec n : forall nm rest, Forall (fun c => small_letter c = true) n ->
  (length n <= S (length nm))%nat ->
  stricmp (nm ++ CR :: rest) n = Some (bool_decide (map lower (take (length n) nm) = n /\ (length n <= length nm)%nat)).
Proof.
  induction n as [|c n IH]; intros nm rest Hl Hlen.
  { cbn. rewrite bool_decide_true; [done|]. split; [done | lia]. }
  inversion_clear Hl as [|? ? Hc Hn]. cbn [stricmp].
  destruct nm as [|x nm]; cbn [app head tail mbind option_bind take map length] in *.
  - rewrite (letter_match c CR Hc), (bool_decide_false (lower CR = c)).
    2: { unfold small_letter in Hc. unfold lower, CR. cbn. lia. }
    rewrite bool_decide_false by lia. done.
  - rewrite (letter_match c x Hc). case_bool_decide as E.
    + rewrite IH by (done || lia). f_equal. apply bool_decide_ext. rewrite E. split.
      * intros [-> ?]. split; [done | lia].
      * intros [[= ->] ?]. split; [done | lia].
    + rewrite bool_decide_false; [done|]. by intros [[= ? ?] ?].
Qed.

Lemma lookup_name_spec nm rest l :
  Forall (fun e => Forall (fun c => small_letter c = true) e.1 /\ zlen nm <= zlen e.1 <= zlen nm + 1) l ->
  lookup_name (nm ++ CR :: rest) l = Some (named_in nm l).
Proof.
  induction 1 as [|[n t] l [Hn Hlen] _ IH]; [done|]. cbn [lookup_name named_in fst] in *. unfold zlen in Hlen.
  rewrite stricmp_spec by (done || lia). cbn [mbind option_bind].
  assert (bool_decide (map lower (take (length n) nm) = n /\ (length n <= length nm)%nat) =
          bool_decide (map lower nm = n)) as ->; [|by case_bool_decide].
  apply bool_decide_ext. split.
  - intros [E ?]. by rewrite take_ge in E by lia.
  - intros <-. rewrite length_map in *. by rewrite take_ge by lia.
Qed.

(** Only the names of the right length count. *)
Definition of_length (n : Z) (l : list (bytes * cmd_type)) := List.filter (fun e => zlen e.1 =? n) l.

Lemma named_in_filter nm l : named_in nm (of_length (zlen nm) l) = named_in nm l.
Proof.
  induction l as [|[n t] l IH]; [done|]. cbn [of_length List.filter named_in fst].
  destruct (Z.eqb_spec (zlen n) (zlen nm)) as [E|E]; [cbn [named_in]; by rewrite <- IH|].
  rewrite bool_decide_false; [done|]. intros <-. by rewrite zlen_map in E.
Qed.

Lemma command_names_lengths : Forall (fun e => 3 <= zlen e.1 <= 16) command_names.
Proof. repeat constructor; done. Qed.

Lemma of_length_outside n : ~ 3 <= n <= 16 -> of_length n command_names = [].
Proof.
  intros Hn. induction command_names_lengths as [|[x t] l Hx _ IH]; [done|].
  cbn [of_length List.filter fst] in *. destruct (Z.eqb_spec (zlen x) n); [lia | done].
Qed.

Lemma names_outside n : ~ 3 <= n <= 16 -> names n = [].
Proof. intros Hn. unfold names. repeat case_match; first [done | lia]. Qed.

Lemma between_3_16 (P : Z -> Prop) n : 3 <= n <= 16 ->
  P 3 -> P 4 -> P 5 -> P 6 -> P 7 -> P 8 -> P 9 -> P 10 -> P 11 -> P 12 -> P 13 -> P 14 -> P 15 -> P 16 -> P n.
Proof.
  intros Hn. assert (n = 3 \/ n = 4 \/ n = 5 \/ n = 6 \/ n = 7 \/ n = 8 \/ n = 9 \/ n = 10 \/ n = 11 \/ n = 12 \/
    n = 13 \/ n = 14 \/ n = 15 \/ n = 16) as Hc by lia.
  by repeat destruct Hc as [->|Hc]; subst.
Qed.

Lemma names_of_length n : of_length n (names n) = of_length n command_names.
Proof.
  destruct (decide (3 <= n <= 16)) as [Hn|Hn]; [|by rewrite of_length_outside, names_outside].
  apply (between_3_16 (fun n => of_length n (names n) = of_length n command_names)); first [exact Hn | vm_compute; reflexivity].
Qed.

Definition name_ok (n : Z) (e : bytes * cmd_type) : bool :=
  forallb small_letter e.1 && (n <=? zlen e.1) && (zlen e.1 <=? n + 1).

Lemma names_ok n : Forall (fun e => Forall (fun c => small_letter c = true) e.1 /\ n <= zlen e.1 <= n + 1) (names n).
Proof.
  assert (forallb (name_ok n) (names n) = true) as Hb.
  { destruct (decide (3 <= n <= 16)) as [Hn|Hn]; [|by rewrite names_outside].
    apply (between_3_16 (fun n => forallb (name_ok n) (names n) = true)); first [exact Hn | vm_compute; reflexivity]. }
  rewrite List.Forall_forall. intros e He. rewrite List.forallb_forall in Hb. specialize (Hb e He).
  unfold name_ok in Hb. apply andb_prop in Hb as [Hb H3]. apply andb_prop in Hb as [H1 H2].
  split; [|lia]. apply List.Forall_forall. by apply List.forallb_forall.
Qed.

(** The switch on the length of the name finds the command the name stands for. *)
Lemma lookup_command nm rest : lookup_name (nm ++ CR :: rest) (names (zlen nm)) = Some (command_named nm).
Proof.
  rewrite lookup_name_spec by apply names_ok. f_equal. unfold command_named.
  by rewrite <- named_in_filter, names_of_length, named_in_filter.
Qed.

(** ** Runs *)

Section Runs.
Context `{Memory} (mem : bytes) (cend : Z).

(** Some rounds of the loop lead from one state to another; each moves the position. *)
Definition goes (s s' : fsm) : Prop :=
  exists k, Z.of_nat k <= p s' - p s /\ forall f, parse_loop mem cend (k + f) s = parse_loop mem cend f s'.

(** The loop ends in a jump from this state. *)
Definition jumps (s : fsm) (e : exit) : Prop := forall f, parse_loop mem cend (S f) s = Some (inl e).

Lemma goes_refl s : goes s s.
Proof. exists 0%nat. split; [lia | done]. Qed.

Lemma goes_trans s1 s2 s3 : goes s1 s2 -> goes s2 s3 -> goes s1 s3.
Proof.
  intros (k1 & H1 & E1) (k2 & H2 & E2). exists (k1 + k2)%nat. split; [lia|].
  intros f. rewrite <- Nat.add_assoc, E1. apply E2.
Qed.

Lemma goes_step s s' ch : p s < cend -> rd mem (p s) = Some ch -> parse_switch mem cend s ch = Some (Break s') ->
  p s <= p s' -> goes s (advance s').
Proof.
  intros Hp Hch Hsw Hle. exists 1%nat. split; [simpl; lia|]. intros f. cbn [Nat.add parse_loop].
  rewrite (proj2 (Z.ltb_lt _ _)) by done. by rewrite Hch; cbn [mbind option_bind]; rewrite Hsw.
Qed.

Lemma jumps_step s e ch : p s < cend -> rd mem (p s) = Some ch -> parse_switch mem cend s ch = Some e ->
  (forall s', e <> Break s') -> jumps s e.
Proof.
  intros Hp Hch Hsw Hne f. cbn [parse_loop]. rewrite (proj2 (Z.ltb_lt _ _)) by done.
  rewrite Hch; cbn [mbind option_bind]; rewrite Hsw. cbn [mbind option_bind]. destruct e; [by destruct (Hne s0)|done..].
Qed.

(** With fuel for the text that is left, a run decides the result. *)
Lemma goes_jumps s s' e f : goes s s' -> jumps s' e -> p s' < cend -> (Z.to_nat (cend - p s) < f)%nat ->
  parse_loop mem cend f s = Some (inl e).
Proof.
  intros (k & Hk & E) Hj Hlt Hf. replace f with (k + S (f - k - 1))%nat by lia. rewrite E. apply Hj.
Qed.

Lemma goes_end s s' f : goes s s' -> p s' = cend -> (Z.to_nat (cend - p s) < f)%nat ->
  parse_loop mem cend f s = Some (inr s').
Proof.
  intros (k & Hk & E) Hp Hf. replace f with (k + S (f - k - 1))%nat by lia. rewrite E. cbn [parse_loop].
  by rewrite (proj2 (Z.ltb_ge _ _)) by lia.
Qed.

(** The state stands before the arguments [args], the last ones of the text. *)
Definition before (s : fsm) (args : list bytes) : Prop :=
  exists pre rest, mem = pre ++ flat_map Format.bulk args ++ rest /\ p s = zlen pre /\
    cend = zlen pre + zlen (flat_map Format.bulk args).

Definition moved (s : fsm) (st : sw) (q : Z) (tok : option Z) (rl rn : Z) : fsm := mk_fsm st q tok rl rn (req s).

Lemma undec_from_ge ds : forall v, 0 <= v -> Forall (fun b => is_digit b = true) ds -> v <= undec_from v ds.
Proof.
  induction ds as [|d ds IH]; intros v Hv Hd; [done|]. inversion_clear Hd as [|? ? H1 H2].
  unfold undec_from. cbn [foldl]. unfold is_digit in H1. specialize (IH (v * 10 + (d - 48)) ltac:(lia) H2).
  unfold undec_from in IH. lia.
Qed.

(** Digits accumulate without wrapping when the number fits 32 bits. *)
Lemma digits_run L bad nx ds : forall s pre rest t, state s = L ->
  (forall s0 ch, state s0 = L -> parse_switch mem cend s0 ch = Some (sw_len bad nx s0 ch)) ->
  token s = Some t -> mem = pre ++ ds ++ rest -> p s = zlen pre -> zlen pre + zlen ds <= cend ->
  Forall (fun b => is_digit b = true) ds -> 0 <= rlen s -> undec_from (rlen s) ds < 2 ^ 32 ->
  goes s (moved s L (zlen pre + zlen ds) (Some t) (undec_from (rlen s) ds) (rnarg s)).
Proof.
  induction ds as [|d ds IH]; intros s pre rest t HL Hsw Ht Hm Hp Hc Hd Hr Hu.
  { replace (moved _ _ _ _ _ _) with s; [apply goes_refl|]. destruct s; cbn in *. subst.
    unfold moved. cbn. f_equal; zl. }
  inversion_clear Hd as [|? ? Hd1 Hd2]. unfold undec_from in Hu |- *. cbn [foldl] in Hu |- *.
  fold (undec_from (rlen s * 10 + (d - 48)) ds) in Hu |- *.
  assert (0 <= d - 48) by (unfold is_digit in Hd1; lia).
  pose proof (undec_from_ge ds (rlen s * 10 + (d - 48)) ltac:(lia) Hd2) as Hge. autorewrite with hivip in Hc. zlen_pos.
  eapply goes_trans.
  - eapply (goes_step s _ d); [lia | rewrite Hm; apply rd_at; lia | rewrite (Hsw s d HL); unfold sw_len; rewrite Ht, Hd1; done | done].
  - unfold add_digit. rewrite uwrap_small by lia.
    pose proof (IH (advance (mk_fsm (state s) (p s) (token s) (rlen s * 10 + (d - 48)) (rnarg s) (req s))) (pre ++ [d]) rest t) as IH'.
    cbn in IH'. unfold moved in *. cbn in IH' |- *. replace (zlen pre + zlen (d :: ds)) with (zlen (pre ++ [d]) + zlen ds) by zl.
    rewrite Ht in IH'. apply IH'; try done; try zl. rewrite Hm. by rewrite <- app_assoc.
Qed.

(** A length field: from the [$] to the byte behind the line feed. *)
Lemma length_run L LLF X bad s a args : state s = L ->
  (forall s0 ch, state s0 = L -> parse_switch mem cend s0 ch = Some (sw_len bad LLF s0 ch)) ->
  (forall s0 ch, state s0 = LLF -> parse_switch mem cend s0 ch = Some (sw_lf X s0 ch)) ->
  token s = None -> before s (a :: args) -> zlen a < 2 ^ 32 -> 1 <= rnarg s < 2 ^ 32 ->
  (forall t, p s = t -> bad (moved s L (t + 1 + zlen (dec (zlen a))) (Some t) (zlen a) (rnarg s)) = false) ->
  exists pre rest, mem = pre ++ a ++ CR :: LF :: flat_map Format.bulk args ++ rest /\
    cend = zlen pre + zlen a + 2 + zlen (flat_map Format.bulk args) /\
    goes s (moved s X (zlen pre) None (zlen a) (rnarg s - 1)).
Proof.
  intros HL HswL HswF Htok (pre & rest & Hm & Hp & Hc) Ha Hrn Hbad. cbn [flat_map] in Hm.
  unfold Format.bulk at 1, CRLF in Hm. repeat (rewrite <- app_assoc in Hm || cbn [app] in Hm).
  rewrite Format.flat_bulk_cons, Format.zlen_bulk in Hc.
  set (ds := dec (zlen a)) in *. set (pre2 := (pre ++ 36 :: ds) ++ [CR; LF]).
  assert (Forall (fun b => is_digit b = true) ds) as Hds by (apply dec_digits; zlen_pos; lia).
  assert (zlen pre2 = zlen pre + zlen ds + 3) as Hp2 by (unfold pre2; zl).
  zlen_pos. exists pre2, rest. split_and!; [rewrite Hm; unfold pre2; by repeat (rewrite <- app_assoc || cbn [app]) | lia |].
  eapply goes_trans; [eapply (goes_step s _ 36); [lia | rewrite Hm; apply rd_at; lia |
    rewrite (HswL s _ HL); unfold sw_len; rewrite Htok; done | done]|].
  set (s1 := advance _). assert (undec_from 0 ds = zlen a) as Hu by (apply undec_dec; lia).
  pose proof (digits_run L bad LLF ds s1 (pre ++ [36]) (CR :: LF :: a ++ CR :: LF :: flat_map Format.bulk args ++ rest) (p s))
    as Hd. change (rlen s1) with 0 in Hd. rewrite Hu in Hd. 
  assert (zlen (pre ++ [36]) = p s + 1) as Hpre by zl. rewrite Hpre in Hd.
  eapply goes_trans; [apply Hd; first [done | lia | rewrite Hm; by rewrite <- app_assoc]|].
  clear Hd.
  set (s2 := moved _ _ _ _ _ _).
  eapply goes_trans; [eapply (goes_step s2 _ CR)|].
  - change (p s2) with (p s + 1 + zlen ds). lia.
  - change (p s2) with (p s + 1 + zlen ds). rewrite Hm. replace (pre ++ 36 :: ds ++ CR :: LF :: a ++ CR :: LF :: flat_map Format.bulk args ++ rest)
      with ((pre ++ 36 :: ds) ++ CR :: LF :: a ++ CR :: LF :: flat_map Format.bulk args ++ rest) by (by rewrite <- app_assoc).
    apply rd_at. zl.
  - rewrite (HswL s2 _ eq_refl). unfold sw_len. cbn [token s2 moved]. cbn [is_digit CR Z.leb Z.compare Pos.compare Pos.compare_cont andb Z.eqb Pos.eqb].
    replace (bad s2) with false by (symmetry; apply (Hbad (p s) eq_refl)). done.
  - done.
  - set (s3 := advance _).
    replace (moved s X (zlen pre2) None (zlen a) (rnarg s - 1)) with (advance (mk_fsm X (p s3) None (zlen a) (rnarg s - 1) (req s))).
    2: { unfold advance, moved. cbn [state p token rlen rnarg req]. change (p s3) with (p s + 1 + zlen ds + 1). f_equal. lia. }
    eapply (goes_step s3 _ LF); [change (p s3) with (p s + 1 + zlen ds + 1); lia | | rewrite (HswF s3 _ eq_refl) | done].
    + change (p s3) with (p s + 1 + zlen ds + 1). rewrite Hm. replace (pre ++ 36 :: ds ++ CR :: LF :: a ++ CR :: LF :: flat_map Format.bulk args ++ rest)
        with ((pre ++ 36 :: ds ++ [CR]) ++ LF :: a ++ CR :: LF :: flat_map Format.bulk args ++ rest)
        by (rewrite <- app_assoc; cbn [app]; by rewrite <- app_assoc).
      apply rd_at. zl.
    + unfold sw_lf, goto. cbn. rewrite uwrap_small by lia. done.
Qed.


(** The state stands at the line feed that ends an argument. *)
Definition at_lf (s : fsm) (args : list bytes) : Prop :=
  exists pre rest, mem = pre ++ LF :: flat_map Format.bulk args ++ rest /\ p s = zlen pre /\
    cend = zlen pre + 1 + zlen (flat_map Format.bulk args).

Lemma at_lf_before s args st : at_lf s args -> before (advance (moved s st (p s) None 0 (rnarg s))) args.
Proof.
  intros (pre & rest & Hm & Hp & Hc). exists (pre ++ [LF]), rest. cbn [p advance moved].
  split_and!; [rewrite Hm; by rewrite <- app_assoc | zl | zl].
Qed.

(** The bytes of a key. *)
Definition key_text (k : keypos) : bytes := take (Z.to_nat (end_ k - start k)) (drop (Z.to_nat (start k)) mem).

(** The span is the first of the arguments [args], in the place where the text holds them. *)
Definition located (k : keypos) (args : list bytes) : Prop :=
  exists a args' pre rest, args = a :: args' /\ mem = pre ++ a ++ CR :: LF :: flat_map Format.bulk args' ++ rest /\
    start k = zlen pre /\ end_ k = zlen pre + zlen a.

(** The keys found so far, each given by the arguments from it on, in an array with room in
    proportion to them. *)
Definition keyed (s : fsm) (texts : list (list bytes)) : Prop :=
  exists kl, HiArray.repr (keys (req s)) kl /\ HiArray.nalloc (keys (req s)) <= Z.max 1 (2 * zlen kl) /\
    Forall2 located kl texts /\ 2 * zlen texts <= p s.

(** What stays the same once it is known. *)
Definition known (s : fsm) (t : cmd_type) (n : Z) (texts : list (list bytes)) : Prop :=
  ctype (req s) = t /\ narg (req s) = n /\ keyed s texts.

Lemma known_later s s' t n texts : known s t n texts -> req s' = req s -> p s <= p s' -> known s' t n texts.
Proof.
  intros (Ht & Hn & kl & Hr & Ha & Hk & Hp) E Hle. split_and!; [by rewrite E..|].
  exists kl. rewrite E. split_and!; try done. lia.
Qed.

(** A state at the start of a field or at a line feed, with [rn] arguments to come. *)
Definition in_state (s : fsm) (st : sw) (rn : Z) : Prop := state s = st /\ token s = None /\ rnarg s = rn.

Lemma lf_run s args st rn nx t n texts : in_state s st rn -> at_lf s args -> known s t n texts ->
  parse_switch mem cend s LF = Some (goto s nx) ->
  exists s', goes s s' /\ in_state s' nx rn /\ before s' args /\ known s' t n texts.
Proof.
  intros (Hst & Htok & Hrn) Hlf Hk Hsw. pose proof Hlf as (pre & rest & Hm & Hp & Hc). zlen_pos.
  exists (advance (mk_fsm nx (p s) (token s) (rlen s) (rnarg s) (req s))). split_and!.
  - eapply (goes_step s _ LF); [lia | rewrite Hm; by apply rd_at | exact Hsw | done].
  - done.
  - destruct (at_lf_before s args nx Hlf) as (pre' & rest' & ? & ? & ?). by exists pre', rest'.
  - apply (known_later s); [done | done | cbn; lia].
Qed.

Lemma lf_jump s args e : at_lf s args -> parse_switch mem cend s LF = Some e -> (forall s', e <> Break s') ->
  p s < cend /\ jumps s e.
Proof.
  intros (pre & rest & Hm & Hp & Hc) Hsw Hne. zlen_pos. split; [lia|].
  eapply (jumps_step s e LF); [lia | rewrite Hm; by apply rd_at | done | done].
Qed.

(** The byte behind the argument is a CR. *)
Lemma at_cr_run s s0 a pre rest k : mem = pre ++ a ++ CR :: rest -> s0 = zlen pre -> rlen s = zlen a ->
  zlen pre + zlen a < cend -> at_cr mem cend s s0 k = k (zlen pre + zlen a).
Proof.
  intros Hm -> Hr Hc. unfold at_cr. rewrite Hr, (proj2 (Z.leb_gt _ _)) by lia.
  replace (rd mem (zlen pre + zlen a)) with (Some CR); [done|].
  rewrite Hm, app_assoc. symmetry. apply rd_at. zl.
Qed.

(** From a field to its line feed, when the argument is skipped. *)
Lemma field_run L LLF X XLF bad s a args rn t n texts : in_state s L rn -> before s (a :: args) -> known s t n texts ->
  (forall s0 ch, state s0 = L -> parse_switch mem cend s0 ch = Some (sw_len bad LLF s0 ch)) ->
  (forall s0 ch, state s0 = LLF -> parse_switch mem cend s0 ch = Some (sw_lf X s0 ch)) ->
  zlen a < 2 ^ 32 -> 1 <= rn < 2 ^ 32 ->
  (forall t, p s = t -> bad (moved s L (t + 1 + zlen (dec (zlen a))) (Some t) (zlen a) (rnarg s)) = false) ->
  (forall s0 pre rest ch, state s0 = X -> token s0 = None -> mem = pre ++ a ++ CR :: rest -> p s0 = zlen pre ->
    rlen s0 = zlen a -> zlen pre + zlen a < cend -> req s0 = req s ->
    parse_switch mem cend s0 ch = Some (Break (moved s0 XLF (zlen pre + zlen a) None 0 (rnarg s0)))) ->
  exists s', goes s s' /\ in_state s' XLF (rn - 1) /\ at_lf s' args /\ known s' t n texts.
Proof.
  intros (Hst & Htok & Hrn) Hb Hk HL HLLF Ha Hrng Hbad HX.
  destruct (length_run L LLF X bad s a args) as (pre & rest & Hm & Hc & Hg); try done; try lia.
  pose proof Hg as (k & Hle & _). cbn [p moved] in Hle.
  set (s1 := moved s X (zlen pre) None (zlen a) (rnarg s - 1)) in *. zlen_pos.
  exists (advance (moved s1 XLF (zlen pre + zlen a) None 0 (rnarg s1))). split_and!.
  - eapply goes_trans; [exact Hg|].
    destruct (rd_is_Some mem (zlen pre)) as [ch Hch]; [rewrite Hm; zl|].
    eapply (goes_step s1 _ ch); [change (p s1) with (zlen pre); lia | done | eapply HX; try done; lia | cbn; lia].
  - split_and!; [done | done | cbn; lia].
  - exists ((pre ++ a) ++ [CR]), rest. cbn [p advance moved]. split_and!; [|zl | zl].
    rewrite Hm. by repeat (rewrite <- app_assoc || cbn [app]).
  - apply (known_later s); [done | done | cbn; lia].
Qed.

Lemma no_digits_ok s L (a : bytes) t : 1 <= rnarg s ->
  no_digits (moved s L (t + 1 + zlen (dec (zlen a))) (Some t) (zlen a) (rnarg s)) = false.
Proof.
  intros Hr. unfold no_digits. cbn [token p rnarg moved]. pose proof (dec_length_pos (zlen a) ltac:(zlen_pos; lia)).
  rewrite (proj2 (Z.leb_gt _ _)) by lia. cbn [orb]. apply Z.eqb_neq. lia.
Qed.

Lemma skip_body nx s0 a pre rest : token s0 = None -> mem = pre ++ a ++ CR :: rest -> p s0 = zlen pre ->
  rlen s0 = zlen a -> zlen pre + zlen a < cend ->
  sw_skip mem cend nx s0 = Some (Break (moved s0 nx (zlen pre + zlen a) None 0 (rnarg s0))).
Proof.
  intros Ht Hm Hp Hr Hc. unfold sw_skip. rewrite (at_cr_run s0 _ a pre rest) by done. by rewrite Ht.
Qed.

(** The four kinds of skipped arguments. *)
Ltac skip_field L LLF X XLF :=
  intros; eapply (field_run L LLF X XLF no_digits); try done;
  [intros s0 ch Hs; unfold parse_switch; by rewrite Hs | intros s0 ch Hs; unfold parse_switch; by rewrite Hs |
   intros; apply no_digits_ok; by destruct_and?; unfold in_state in *; destruct_and?; lia |
   intros s0 pre rest ch Hs; intros; unfold parse_switch; rewrite Hs; by eapply skip_body].

Lemma arg1_run s a args rn t n texts : in_state s SW_ARG1_LEN rn -> before s (a :: args) -> known s t n texts ->
  zlen a < 2 ^ 32 -> 1 <= rn < 2 ^ 32 ->
  exists s', goes s s' /\ in_state s' SW_ARG1_LF (rn - 1) /\ at_lf s' args /\ known s' t n texts.
Proof. skip_field SW_ARG1_LEN SW_ARG1_LEN_LF SW_ARG1 SW_ARG1_LF. Qed.

Lemma arg3_run s a args rn t n texts : in_state s SW_ARG3_LEN rn -> before s (a :: args) -> known s t n texts ->
  zlen a < 2 ^ 32 -> 1 <= rn < 2 ^ 32 ->
  exists s', goes s s' /\ in_state s' SW_ARG3_LF (rn - 1) /\ at_lf s' args /\ known s' t n texts.
Proof. skip_field SW_ARG3_LEN SW_ARG3_LEN_LF SW_ARG3 SW_ARG3_LF. Qed.

Lemma argn_run s a args rn t n texts : in_state s SW_ARGN_LEN rn -> before s (a :: args) -> known s t n texts ->
  zlen a < 2 ^ 32 -> 1 <= rn < 2 ^ 32 ->
  exists s', goes s s' /\ in_state s' SW_ARGN_LF (rn - 1) /\ at_lf s' args /\ known s' t n texts.
Proof. skip_field SW_ARGN_LEN SW_ARGN_LEN_LF SW_ARGN SW_ARGN_LF. Qed.

(** The value EVAL reads from its second argument. *)
Definition eval_nkey (a : bytes) : bool :=
  (1 <=? zlen a) && match nkey_loop 0 a with Some k => negb (k =? 0) | None => false end.

Lemma slice_at (pre a rest : bytes) : take (Z.to_nat (zlen pre + zlen a - zlen pre)) (drop (Z.to_nat (zlen pre)) (pre ++ a ++ rest)) = a.
Proof.
  replace (Z.to_nat (zlen pre)) with (length pre) by (unfold zlen; lia). rewrite drop_app_length.
  apply take_app_exact. unfold zlen. lia.
Qed.

(** The state [SW_ARG2] on the last byte of its argument. *)
Lemma arg2_body s0 a pre rest : token s0 = None -> mem = pre ++ a ++ CR :: rest -> p s0 = zlen pre ->
  rlen s0 = zlen a -> zlen pre + zlen a < cend ->
  sw_arg2 mem cend s0 =
    Some (if redis_argeval (ctype (req s0)) && negb (eval_nkey a)
          then Goto_error (moved s0 (state s0) (zlen pre + zlen a) (Some (zlen pre)) 0 (rnarg s0))
          else Break (moved s0 SW_ARG2_LF (zlen pre + zlen a) None 0 (rnarg s0))).
Proof.
  intros Ht Hm Hp Hr Hc. unfold sw_arg2. rewrite Ht. destruct (redis_argeval (ctype (req s0))) eqn:Ee; cbn [andb].
  - rewrite (at_cr_run _ _ a pre rest) by done. cbn [req with_token]. rewrite Ee. cbn [token with_token mbind option_bind].
    unfold from_token. rewrite Ht, Hp. replace (take _ _) with a by (rewrite Hm; symmetry; apply slice_at).
    unfold eval_nkey. replace (zlen pre + zlen a - zlen pre) with (zlen a) by lia.
    destruct (Z.ltb_spec (zlen a) 1); [rewrite (proj2 (Z.leb_gt _ _)) by lia; done|].
    rewrite (proj2 (Z.leb_le _ _)) by lia. cbn [andb]. destruct (nkey_loop 0 a) as [k|]; [|done]. by destruct (k =? 0).
  - rewrite (at_cr_run _ _ a pre rest) by done. cbn beta zeta. by rewrite Ee, Ht.
Qed.

Lemma arg2_run s a args rn t n texts : in_state s SW_ARG2_LEN rn -> before s (a :: args) -> known s t n texts ->
  zlen a < 2 ^ 32 -> 1 <= rn < 2 ^ 32 -> redis_argeval t && negb (eval_nkey a) = false ->
  exists s', goes s s' /\ in_state s' SW_ARG2_LF (rn - 1) /\ at_lf s' args /\ known s' t n texts.
Proof.
  intros Hin Hb Hk Ha Hrn He. pose proof Hk as (Ht & _). pose proof Hin as (_ & _ & Hr).
  eapply (field_run SW_ARG2_LEN SW_ARG2_LEN_LF SW_ARG2 SW_ARG2_LF no_digits); try done.
  - intros s0 ch Hs. unfold parse_switch. by rewrite Hs.
  - intros s0 ch Hs. unfold parse_switch. by rewrite Hs.
  - intros. apply no_digits_ok. lia.
  - intros s0 pre rest ch Hs ? ? ? ? ? Hreq. unfold parse_switch. rewrite Hs.
    erewrite arg2_body by done. by rewrite Hreq, Ht, He.
Qed.

(** EVAL with a number of keys it cannot use. *)
Lemma arg2_bad s a args rn t n texts : in_state s SW_ARG2_LEN rn -> before s (a :: args) -> known s t n texts ->
  zlen a < 2 ^ 32 -> 1 <= rn < 2 ^ 32 -> redis_argeval t && negb (eval_nkey a) = true ->
  exists s' s'', goes s s' /\ p s' < cend /\ jumps s' (Goto_error s'').
Proof.
  intros (Hst & Htok & Hr) Hb (Ht & _) Ha Hrn He.
  destruct (length_run SW_ARG2_LEN SW_ARG2_LEN_LF SW_ARG2 no_digits s a args) as (pre & rest & Hm & Hc & Hg); try done; try lia.
  - intros s0 ch Hs. unfold parse_switch. by rewrite Hs.
  - intros s0 ch Hs. unfold parse_switch. by rewrite Hs.
  - intros. apply no_digits_ok. lia.
  - set (s1 := moved s SW_ARG2 (zlen pre) None (zlen a) (rnarg s - 1)) in *. zlen_pos.
    exists s1. eexists. split_and!; [exact Hg | change (p s1) with (zlen pre); lia |].
    destruct (rd_is_Some mem (zlen pre)) as [ch Hch]; [rewrite Hm; zl|].
    eapply (jumps_step s1 _ ch); [change (p s1) with (zlen pre); lia | done | |].
    + change (parse_switch mem cend s1 ch) with (sw_arg2 mem cend s1).
      rewrite (arg2_body s1 a pre (LF :: flat_map Format.bulk args ++ rest)) by (done || lia).
      change (req s1) with (req s). rewrite Ht, He. done.
    + done.
Qed.

(** A new element in an array whose room is in proportion to its elements. *)
Lemma push_key (a : HiArray.hiarray keypos) kl k : has_memory -> HiArray.repr a kl -> HiArray.nalloc a <= Z.max 1 (2 * zlen kl) ->
  2 * zlen kl < 2 ^ 31 -> exists a1 i a2, HiArray.hiarray_push malloc_ok a = Some (a1, i) /\
    HiArray.hiarray_put a1 i k = Some a2 /\ HiArray.repr a2 (kl ++ [k]) /\
    HiArray.nalloc a2 <= Z.max 1 (2 * zlen (kl ++ [k])).
Proof.
  intros Hmem Hr Ha Hb. apply HiArray.push_put; [apply Hmem | done | done |]. zlen_pos. lia.
Qed.

Lemma key_body s0 a args pre rest t n texts : has_memory -> state s0 = SW_KEY -> token s0 = None ->
  mem = pre ++ a ++ CR :: LF :: flat_map Format.bulk args ++ rest -> p s0 = zlen pre -> rlen s0 = zlen a ->
  zlen pre + zlen a < cend -> cend <= INT_MAX -> known s0 t n texts -> 2 * zlen texts + 2 <= zlen pre ->
  exists s', sw_key mem cend s0 = Some (Break s') /\ in_state s' SW_KEY_LF (rnarg s0) /\
    p s' = zlen pre + zlen a /\ known s' t n (texts ++ [a :: args]).
Proof.
  intros Hmem Hst Ht Hm Hp Hr Hc Hmax (Hty & Hn & kl & Hrep & Hal & Hk & Hpos) Hroom.
  assert (zlen kl = zlen texts) as Hkl by (unfold zlen; f_equal; by eapply Forall2_length).
  unfold INT_MAX in Hmax. zlen_pos.
  destruct (push_key (keys (req s0)) kl (mk_keypos (zlen pre) (zlen pre + zlen a) None) Hmem Hrep Hal ltac:(lia))
    as (a1 & i & a2 & Epush & Eput & Hrep2 & Hal2).
  unfold sw_key, from_token. rewrite Ht, Hp. rewrite (at_cr_run _ _ a pre (LF :: flat_map Format.bulk args ++ rest)) by done.
  rewrite Epush, Eput. cbn [mbind option_bind]. eexists. split; [done|].
  split; [done|]. split; [done|]. split_and!; [done | done |].
  exists (kl ++ [mk_keypos (zlen pre) (zlen pre + zlen a) None]). cbn [req keys set_keys p]. split_and!; try done.
  - apply Forall2_app; [done|]. constructor; [|constructor]. by exists a, args, pre, rest.
  - rewrite zlen_app. change (zlen [a :: args]) with 1. lia.
Qed.

(** From a key field to the line feed behind the key. *)
Lemma key_run s a args rn t n texts : has_memory -> cend <= INT_MAX -> in_state s SW_KEY_LEN rn ->
  before s (a :: args) -> known s t n texts -> 1 <= rn < 2 ^ 32 ->
  exists s', goes s s' /\ in_state s' SW_KEY_LF (rn - 1) /\ at_lf s' args /\ known s' t n (texts ++ [a :: args]).
Proof.
  intros Hmem Hmax (Hst & Htok & Hrn) Hb Hk Hrng. pose proof Hb as (? & ? & _ & _ & Hc0).
  rewrite Format.flat_bulk_cons, Format.zlen_bulk in Hc0. unfold INT_MAX in Hmax. zlen_pos.
  destruct (length_run SW_KEY_LEN SW_KEY_LEN_LF SW_KEY (fun s => rnarg s =? 0) s a args)
    as (pre & rest & Hm & Hc & Hg); try done; try lia.
  - intros s0 ch Hs. unfold parse_switch. by rewrite Hs.
  - intros s0 ch Hs. unfold parse_switch. by rewrite Hs.
  - intros. cbn. apply Z.eqb_neq. lia.
  - pose proof Hg as (k & Hle & _). cbn [p moved] in Hle.
    assert (p s + 3 <= zlen pre) as Hadv.
    { destruct Hb as (pre0 & rest0 & Hm0 & Hp0 & Hc1). rewrite Format.flat_bulk_cons, Format.zlen_bulk in Hc1.
      pose proof (dec_length_pos (zlen a) ltac:(lia)). lia. }
    set (s1 := moved s SW_KEY (zlen pre) None (zlen a) (rnarg s - 1)) in *.
    assert (known s1 t n texts) as Hk1 by (apply (known_later s); [done | done | cbn; lia]).
    destruct Hk as (_ & _ & ? & _ & _ & _ & Hpos).
    destruct (key_body s1 a args pre rest t n texts) as (s2 & E & Hin & Hp2 & Hk2);
      try done; try lia.
    exists (advance s2). split_and!.
    + eapply goes_trans; [exact Hg|]. destruct (rd_is_Some mem (zlen pre)) as [ch Hch]; [rewrite Hm; zl|].
      eapply (goes_step s1 _ ch); [change (p s1) with (zlen pre); lia | done | exact E | change (p s1) with (zlen pre); lia].
    + destruct Hin as (? & ? & Hr2). split_and!; try done. cbn [rnarg advance]. rewrite Hr2. cbn. lia.
    + exists ((pre ++ a) ++ [CR]), rest. cbn [p advance]. split_and!; [| zl | zl].
      rewrite Hm. by repeat (rewrite <- app_assoc || cbn [app]).
    + apply (known_later s2); [done | done | cbn; lia].
Qed.

(** ** Verdicts *)

(** The parser accepts: it reaches its [done] label or the end of the text. *)
Definition accepts (s : fsm) (t : cmd_type) (n : Z) (texts : list (list bytes)) : Prop :=
  exists s', goes s s' /\ ((p s' < cend /\ jumps s' (Goto_done s')) \/ p s' = cend) /\ known s' t n texts.

(** The parser rejects: it reaches its [error] label. *)
Definition rejects (s : fsm) : Prop := exists s' s'', goes s s' /\ p s' < cend /\ jumps s' (Goto_error s'').

Definition verdict (s : fsm) (t : cmd_type) (n : Z) (texts : option (list (list bytes))) : Prop :=
  match texts with Some ks => accepts s t n ks | None => rejects s end.

Lemma verdict_goes s s' t n ks : goes s s' -> verdict s' t n ks -> verdict s t n ks.
Proof.
  intros Hg. destruct ks as [ks|]; cbn.
  - intros (x & Hx & Hend & Hk). exists x. split_and!; [by eapply goes_trans | done | done].
  - intros (x & y & Hx & Hr). exists x, y. split; [by eapply goes_trans | done].
Qed.

Lemma verdict_done s args t n ks : at_lf s args -> known s t n ks -> parse_switch mem cend s LF = Some (Goto_done s) ->
  verdict s t n (Some ks).
Proof.
  intros Hlf Hk Hsw. destruct (lf_jump s args _ Hlf Hsw) as [? ?]; [done|].
  exists s. split_and!; [apply goes_refl | by left | done].
Qed.

Lemma verdict_error s args t n e : at_lf s args -> parse_switch mem cend s LF = Some (Goto_error e) ->
  verdict s t n None.
Proof.
  intros Hlf Hsw. destruct (lf_jump s args _ Hlf Hsw) as [? ?]; [done|].
  exists s, e. split_and!; [apply goes_refl | done | done].
Qed.

Lemma verdict_next s args st rn nx t n texts ks : in_state s st rn -> at_lf s args -> known s t n texts ->
  parse_switch mem cend s LF = Some (goto s nx) ->
  (forall s', in_state s' nx rn -> before s' args -> known s' t n texts -> verdict s' t n ks) -> verdict s t n ks.
Proof.
  intros Hin Hlf Hk Hsw Hgo. destruct (lf_run s args st rn nx t n texts Hin Hlf Hk Hsw) as (s' & Hg & Hin' & Hb & Hk').
  eapply verdict_goes; [exact Hg|]. by apply Hgo.
Qed.

(** ** Shapes of commands *)

(** The keys of [k v k v ...]. *)
Fixpoint pair_keys (args : list bytes) : list bytes :=
  match args with
  | k :: _ :: args' => k :: pair_keys args'
  | [k] => [k]
  | [] => []
  end.

(** The keys among the arguments of a command, [None] when the arguments are refused. Not every
    number that the class of the command does not ask for is: a command of any class may have
    no arguments at all, and MSET may have a single key without a value. *)
Definition key_args (t : cmd_type) (args : list bytes) : option (list bytes) :=
  let n := zlen args in
  if redis_argz t then Some []
  else
    match args with
    | [] => Some []
    | a :: rest =>
        if redis_argeval t then
          match rest with
          | nk :: k :: _ => if eval_nkey nk then Some [k] else None
          | _ => None
          end
        else if redis_arg0 t then if n =? 1 then Some [a] else None
        else if redis_arg1 t then if n =? 2 then Some [a] else None
        else if redis_arg2 t then if n =? 3 then Some [a] else None
        else if redis_arg3 t then if n =? 4 then Some [a] else None
        else if redis_argn t then Some [a]
        else if redis_argx t then Some args
        else if redis_argkvx t then if (n =? 1) || Z.even n then Some (pair_keys args) else None
        else None
    end.

(** The same, each key with the arguments that follow it. *)
Fixpoint tails (args : list bytes) : list (list bytes) :=
  match args with [] => [] | _ :: args' => args :: tails args' end.

Fixpoint pair_tails (args : list bytes) : list (list bytes) :=
  match args with
  | _ :: _ :: args' => args :: pair_tails args'
  | [_] => [args]
  | [] => []
  end.

Definition key_places (t : cmd_type) (args : list bytes) : option (list (list bytes)) :=
  let n := zlen args in
  if redis_argz t then Some []
  else
    match args with
    | [] => Some []
    | a :: rest =>
        if redis_argeval t then
          match rest with
          | nk :: ks => match ks with _ :: _ => if eval_nkey nk then Some [ks] else None | [] => None end
          | [] => None
          end
        else if redis_arg0 t then if n =? 1 then Some [args] else None
        else if redis_arg1 t then if n =? 2 then Some [args] else None
        else if redis_arg2 t then if n =? 3 then Some [args] else None
        else if redis_arg3 t then if n =? 4 then Some [args] else None
        else if redis_argn t then Some [args]
        else if redis_argx t then Some (tails args)
        else if redis_argkvx t then if (n =? 1) || Z.even n then Some (pair_tails args) else None
        else None
    end.

Lemma tails_heads args : map (hd []) (tails args) = args.
Proof. induction args as [|a args IH]; [done|]. cbn [tails map hd]. by rewrite IH. Qed.

Lemma pair_tails_heads args : map (hd []) (pair_tails args) = pair_keys args.
Proof.
  enough (map (hd []) (pair_tails args) = pair_keys args /\ forall a, map (hd []) (pair_tails (a :: args)) = pair_keys (a :: args)) by tauto.
  induction args as [|b args [IH1 IH2]]; [done|]. split; [apply IH2|]. intros a. cbn [pair_tails pair_keys map hd]. by rewrite IH1.
Qed.

Lemma key_places_args t args : key_args t args = map (hd []) <$> key_places t args.
Proof.
  unfold key_args, key_places. rewrite <- (pair_tails_heads args). destruct args as [|a args]; [by destruct (redis_argz t)|].
  pose proof (tails_heads (a :: args)) as Ht. repeat case_match; simplify_eq/=; try done. by rewrite Ht.
Qed.

Lemma argeval_excludes t : redis_argeval t = true ->
  redis_argz t = false /\ redis_arg0 t = false /\ redis_arg1 t = false /\ redis_arg2 t = false /\
  redis_arg3 t = false /\ redis_argn t = false /\ redis_argx t = false /\ redis_argkvx t = false.
Proof. by destruct t. Qed.

Section Verdicts.
Context (Hmem : has_memory) (Hmax : cend <= INT_MAX) (t : cmd_type) (n : Z).

Lemma before_bounds s a args : before s (a :: args) -> 0 <= zlen a < 2 ^ 31 /\ 0 <= zlen args < 2 ^ 31.
Proof.
  intros (pre & rest & _ & _ & Hc). rewrite Format.flat_bulk_cons, Format.zlen_bulk in Hc.
  pose proof (Format.zlen_strs args). unfold INT_MAX in Hmax. zlen_pos. lia.
Qed.

(** Decides what a line feed does in a known state. *)
Ltac at_line_feed Hin Hk :=
  let Hst := fresh in let Hrn := fresh in let Hty := fresh in
  destruct Hin as (Hst & _ & Hrn); destruct Hk as (Hty & _);
  unfold parse_switch; rewrite Hst; unfold sw_req_type_lf, sw_key_lf, sw_arg1_lf, sw_arg2_lf, sw_arg3_lf, sw_argn_lf;
  rewrite Hty, Hrn; cbn [Z.eqb Pos.eqb negb LF];
  repeat match goal with H : ?f t = ?b |- context [?f t] => rewrite H end; cbn [orb].

Lemma rest_verdict args : forall s texts, in_state s SW_ARGN_LEN (zlen args) -> before s args -> known s t n texts ->
  args <> [] -> redis_argn t || redis_argeval t = true -> verdict s t n (Some texts).
Proof.
  induction args as [|a args IH]; intros s texts Hin Hb Hk Hne Ht; [done|].
  pose proof (before_bounds s a args Hb) as [Hla Hlr].
  destruct (argn_run s a args (zlen (a :: args)) t n texts) as (s1 & Hg & Hin1 & Hlf & Hk1);
    try done; try lia; [rewrite zlen_cons; lia|].
  eapply verdict_goes; [exact Hg|]. rewrite zlen_cons, Z.add_simpl_l in Hin1. destruct args as [|b args].
  - eapply verdict_done; [done | done |]. at_line_feed Hin1 Hk1. rewrite Ht. done.
  - eapply verdict_next; [done | done | done | |].
    + at_line_feed Hin1 Hk1. rewrite Ht, (proj2 (Z.eqb_neq _ _)) by (rewrite zlen_cons in *; zlen_pos; lia). done.
    + intros s' ? ? ?. by apply IH.
Qed.

Lemma keys_verdict args : forall s texts, in_state s SW_KEY_LEN (zlen args) -> before s args -> known s t n texts ->
  args <> [] -> redis_arg0 t = false -> redis_arg1 t = false -> redis_arg2 t = false -> redis_arg3 t = false ->
  redis_argn t = false -> redis_argx t = true -> verdict s t n (Some (texts ++ tails args)).
Proof.
  induction args as [|a args IH]; intros s texts Hin Hb Hk Hne ? ? ? ? ? ?; [done|].
  pose proof (before_bounds s a args Hb) as [Hla Hlr].
  destruct (key_run s a args (zlen (a :: args)) t n texts) as (s1 & Hg & Hin1 & Hlf & Hk1);
    try done; [rewrite zlen_cons; lia|].
  eapply verdict_goes; [exact Hg|]. rewrite zlen_cons, Z.add_simpl_l in Hin1. destruct args as [|b args].
  - eapply verdict_done; [done | done |]. at_line_feed Hin1 Hk1. done.
  - eapply verdict_next; [done | done | done | |].
    + at_line_feed Hin1 Hk1. rewrite (proj2 (Z.eqb_neq _ _)) by (rewrite zlen_cons in *; zlen_pos; lia). done.
    + intros s' ? ? ?. cbn [tails]. replace (texts ++ (a :: b :: args) :: (b :: args) :: tails args)
        with ((texts ++ [a :: b :: args]) ++ tails (b :: args)) by (by rewrite <- app_assoc). by apply IH.
Qed.

(** A key and its value. *)
Lemma pair_run s a v args texts : in_state s SW_KEY_LEN (zlen (a :: v :: args)) -> before s (a :: v :: args) ->
  known s t n texts -> n mod 2 <> 0 ->
  redis_arg0 t = false -> redis_arg1 t = false -> redis_arg2 t = false -> redis_arg3 t = false ->
  redis_argn t = false -> redis_argx t = false -> redis_argkvx t = true ->
  exists s', goes s s' /\ in_state s' SW_ARG1_LF (zlen args) /\ at_lf s' args /\ known s' t n (texts ++ [a :: v :: args]).
Proof.
  intros Hin Hb Hk Hn ? ? ? ? ? ? ?. pose proof (before_bounds s a (v :: args) Hb) as [Hla Hlr].
  destruct (key_run s a (v :: args) (zlen (a :: v :: args)) t n texts) as (s1 & Hg & Hin1 & Hlf & Hk1);
    try done; [rewrite zlen_cons; lia|]. rewrite zlen_cons, Z.add_simpl_l in Hin1.
  assert (0 < zlen (v :: args)) by (rewrite zlen_cons; zlen_pos; lia).
  destruct (lf_run s1 (v :: args) SW_KEY_LF (zlen (v :: args)) SW_ARG1_LEN t n (texts ++ [a :: v :: args]) Hin1 Hlf Hk1)
    as (s2 & Hg2 & Hin2 & Hb2 & Hk2).
  { pose proof Hk1 as (_ & Hnarg & _). at_line_feed Hin1 Hk1.
    rewrite (proj2 (Z.eqb_neq (zlen (v :: args)) 0)), Hnarg, (proj2 (Z.eqb_neq _ _) Hn) by lia. done. }
  pose proof (before_bounds s2 v args Hb2) as [Hlv _].
  destruct (arg1_run s2 v args (zlen (v :: args)) t n (texts ++ [a :: v :: args])) as (s3 & Hg3 & Hin3 & Hlf3 & Hk3); try done; try lia.
  rewrite zlen_cons, Z.add_simpl_l in Hin3. exists s3. split_and!; try done.
  eapply goes_trans; [exact Hg|]. by eapply goes_trans.
Qed.

Lemma pairs_verdict m : forall args s texts, length args = (2 * S m)%nat ->
  in_state s SW_KEY_LEN (zlen args) -> before s args -> known s t n texts -> n mod 2 <> 0 ->
  redis_arg0 t = false -> redis_arg1 t = false -> redis_arg2 t = false -> redis_arg3 t = false ->
  redis_argn t = false -> redis_argx t = false -> redis_argeval t = false -> redis_argkvx t = true ->
  verdict s t n (Some (texts ++ pair_tails args)).
Proof.
  induction m as [|m IH]; intros args s texts Hlen Hin Hb Hk Hn ? ? ? ? ? ? ? ?.
  all: destruct args as [|a [|v args]]; [simpl in Hlen; lia | simpl in Hlen; lia |].
  all: destruct (pair_run s a v args texts) as (s1 & Hg & Hin1 & Hlf & Hk1); try done.
  all: eapply verdict_goes; [exact Hg|].
  - destruct args; [|simpl in Hlen; lia]. eapply verdict_done; [done | done |]. at_line_feed Hin1 Hk1. done.
  - eapply verdict_next; [done | done | done | |].
    + at_line_feed Hin1 Hk1. rewrite (proj2 (Z.eqb_neq _ _)); [done|]. unfold zlen. simpl in Hlen. lia.
    + intros s4 ? ? ?. cbn [pair_tails]. replace (texts ++ (a :: v :: args) :: pair_tails args)
        with ((texts ++ [a :: v :: args]) ++ pair_tails args) by (by rewrite <- app_assoc). apply IH; try done. simpl in Hlen. lia.
Qed.

(** Exactly one, two or three arguments behind the key. *)
Lemma one_verdict s a texts : in_state s SW_ARG1_LEN 1 -> before s [a] -> known s t n texts ->
  redis_arg1 t = true -> verdict s t n (Some texts).
Proof.
  intros Hin Hb Hk ?. pose proof (before_bounds s a [] Hb) as [Hla _].
  destruct (arg1_run s a [] 1 t n texts) as (s1 & Hg & Hin1 & Hlf & Hk1); try done; try lia.
  eapply verdict_goes; [exact Hg|]. eapply verdict_done; [done | done |]. at_line_feed Hin1 Hk1. done.
Qed.

(** Through the first argument to the second. *)
Lemma two_run s a b args texts rn : in_state s SW_ARG1_LEN rn -> before s (a :: b :: args) -> known s t n texts ->
  (redis_arg2 t = true /\ rn = 2 \/ redis_arg2 t = false /\ redis_arg3 t = true /\ rn = 3) ->
  redis_arg1 t = false -> redis_argeval t = false ->
  exists s', goes s s' /\ in_state s' SW_ARG2_LF (rn - 2) /\ at_lf s' args /\ known s' t n texts.
Proof.
  intros Hin Hb Hk Hcase H1 He. pose proof (before_bounds s a (b :: args) Hb) as [Hla _].
  destruct (arg1_run s a (b :: args) rn t n texts) as (s1 & Hg & Hin1 & Hlf & Hk1); try done; try lia.
  destruct (lf_run s1 (b :: args) SW_ARG1_LF (rn - 1) SW_ARG2_LEN t n texts Hin1 Hlf Hk1) as (s2 & Hg2 & Hin2 & Hb2 & Hk2).
  { destruct Hcase as [(H2 & ->) | (H2 & H3 & ->)]; at_line_feed Hin1 Hk1; done. }
  pose proof (before_bounds s2 b args Hb2) as [Hlb _].
  destruct (arg2_run s2 b args (rn - 1) t n texts) as (s3 & Hg3 & Hin3 & Hlf3 & Hk3); try done; try lia; [by rewrite He|].
  replace (rn - 1 - 1) with (rn - 2) in Hin3 by lia.
  exists s3. split_and!; try done. eapply goes_trans; [exact Hg|]. by eapply goes_trans.
Qed.

Lemma two_verdict s a b texts : in_state s SW_ARG1_LEN 2 -> before s [a; b] -> known s t n texts ->
  redis_arg1 t = false -> redis_arg2 t = true -> redis_argeval t = false -> verdict s t n (Some texts).
Proof.
  intros Hin Hb Hk ? H2 ?. destruct (two_run s a b [] texts 2) as (s1 & Hg & Hin1 & Hlf & Hk1); try done; [by left|].
  eapply verdict_goes; [exact Hg|]. eapply verdict_done; [done | done |]. at_line_feed Hin1 Hk1. done.
Qed.

Lemma three_verdict s a b c texts : in_state s SW_ARG1_LEN 3 -> before s [a; b; c] -> known s t n texts ->
  redis_arg1 t = false -> redis_arg2 t = false -> redis_arg3 t = true -> redis_argeval t = false ->
  verdict s t n (Some texts).
Proof.
  intros Hin Hb Hk ? ? ? ?. destruct (two_run s a b [c] texts 3) as (s1 & Hg & Hin1 & Hlf & Hk1); try done; [by right|].
  eapply verdict_goes; [exact Hg|]. eapply verdict_next; [done | done | done | |].
  { at_line_feed Hin1 Hk1. done. }
  intros s2 Hin2 Hb2 Hk2. pose proof (before_bounds s2 c [] Hb2) as [Hlc _].
  destruct (arg3_run s2 c [] 1 t n texts) as (s3 & Hg3 & Hin3 & Hlf3 & Hk3); try done; try lia.
  eapply verdict_goes; [exact Hg3|]. eapply verdict_done; [done | done |]. at_line_feed Hin3 Hk3. done.
Qed.

(** Any number of arguments behind the key. *)
Lemma many_verdict s a args texts : in_state s SW_ARG1_LEN (zlen (a :: args)) -> before s (a :: args) -> known s t n texts ->
  redis_arg1 t = false -> redis_arg2 t = false -> redis_arg3 t = false -> redis_argn t = true ->
  verdict s t n (Some texts).
Proof.
  intros Hin Hb Hk ? ? ? Hn. pose proof (before_bounds s a args Hb) as [Hla Hlr].
  destruct (arg1_run s a args (zlen (a :: args)) t n texts) as (s1 & Hg & Hin1 & Hlf & Hk1);
    try done; try lia; [rewrite zlen_cons; lia|].
  eapply verdict_goes; [exact Hg|]. rewrite zlen_cons, Z.add_simpl_l in Hin1. destruct args as [|b args].
  - eapply verdict_done; [done | done |]. at_line_feed Hin1 Hk1. done.
  - eapply verdict_next; [done | done | done | |].
    + at_line_feed Hin1 Hk1. rewrite (proj2 (Z.eqb_neq _ _)) by (rewrite zlen_cons in *; zlen_pos; lia). done.
    + intros s2 ? ? ?. apply (rest_verdict (b :: args)); try done. by rewrite Hn.
Qed.

Lemma even_pairs (l : list bytes) : Z.even (zlen l) = true -> l <> [] -> exists m, length l = (2 * S m)%nat.
Proof.
  intros He Hne. apply Z.even_spec in He as [k Hk]. destruct l as [|x l]; [done|].
  exists (Z.to_nat k - 1)%nat. unfold zlen in *. simpl in *. lia.
Qed.

(** A line feed that counts the arguments to come. *)
Lemma count_next s args k texts : in_state s SW_KEY_LF (zlen args) -> at_lf s args -> known s t n texts ->
  parse_switch mem cend s LF = Some (if negb (zlen args =? k) then Goto_error s else goto s SW_ARG1_LEN) ->
  (forall s', in_state s' SW_ARG1_LEN (zlen args) -> before s' args -> known s' t n texts -> zlen args = k ->
    verdict s' t n (Some texts)) ->
  verdict s t n (if 1 + zlen args =? 1 + k then Some texts else None).
Proof.
  intros Hin Hlf Hk Hsw Hgo. destruct (Z.eqb_spec (zlen args) k).
  - rewrite (proj2 (Z.eqb_eq _ _)) by lia. eapply verdict_next; [done | done | done | exact Hsw | auto].
  - rewrite (proj2 (Z.eqb_neq _ _)) by lia. eapply verdict_error; [exact Hlf | exact Hsw].
Qed.

(** The vector commands. *)
Lemma vector_verdict s a args : n = zlen (a :: args) + 1 -> in_state s SW_KEY_LEN (zlen (a :: args)) ->
  before s (a :: args) -> known s t n [] ->
  redis_argx t = true \/ redis_argkvx t = true /\ Z.even (zlen (a :: args)) = true ->
  verdict s t n (key_places t (a :: args)).
Proof.
  intros Hn Hin Hb Hk Hcase. assert (redis_argz t = false /\ redis_argeval t = false /\ redis_arg0 t = false /\
    redis_arg1 t = false /\ redis_arg2 t = false /\ redis_arg3 t = false /\ redis_argn t = false)
    as (Hz & He & H0 & H1 & H2 & H3 & H4) by (destruct Hcase as [?|[? _]]; by destruct t).
  unfold key_places. rewrite Hz, He, H0, H1, H2, H3, H4. destruct Hcase as [Hx | [Hkv Hev]].
  - rewrite Hx. by apply (keys_verdict (a :: args) s []).
  - assert (redis_argx t = false) as Hx by (by destruct t). rewrite Hx, Hkv, Hev, orb_true_r.
    destruct (even_pairs (a :: args)) as [m Hm]; [done | done |].
    apply (pairs_verdict m (a :: args) s []); try done. rewrite Hn, Zmod_even, Z.even_add, Hev. done.
Qed.

(** A command with a key behind its name. *)
Lemma key_verdict s a args : n = zlen (a :: args) + 1 -> in_state s SW_KEY_LEN (zlen (a :: args)) ->
  before s (a :: args) -> known s t n [] -> redis_argz t = false -> redis_argeval t = false ->
  verdict s t n (key_places t (a :: args)).
Proof.
  intros Hn Hin Hb Hk Hz He. pose proof (before_bounds s a args Hb) as [Hla Hlr].
  destruct (redis_argx t) eqn:Ex; [apply vector_verdict; by try left|].
  destruct (redis_argkvx t && Z.even (zlen (a :: args))) eqn:Ekv.
  { apply andb_prop in Ekv as [Ekv Eev]. apply vector_verdict; by try right. }
  unfold key_places. rewrite Hz, He. rewrite zlen_cons in *.
  destruct (key_run s a args (1 + zlen args) t n []) as (s1 & Hg & Hin1 & Hlf & Hk1); try done; try lia.
  eapply verdict_goes; [exact Hg|]. rewrite Z.add_simpl_l in Hin1. cbn [app] in Hk1.
  destruct (redis_arg0 t) eqn:E0.
  { destruct (Z.eqb_spec (1 + zlen args) 1).
    - eapply verdict_done; [done | done |]. at_line_feed Hin1 Hk1. by rewrite (proj2 (Z.eqb_eq (zlen args) 0)) by lia.
    - eapply verdict_error; [done|]. at_line_feed Hin1 Hk1. by rewrite (proj2 (Z.eqb_neq (zlen args) 0)) by lia. }
  destruct (redis_arg1 t) eqn:E1.
  { apply (count_next s1 args 1); try done; [by at_line_feed Hin1 Hk1|]. intros s2 Hin2 Hb2 Hk2 Hlen.
    rewrite Hlen in Hin2. destruct args as [|b [|? ?]]; [zl | | zl]. by apply (one_verdict s2 b). }
  destruct (redis_arg2 t) eqn:E2.
  { apply (count_next s1 args 2); try done; [by at_line_feed Hin1 Hk1|]. intros s2 Hin2 Hb2 Hk2 Hlen.
    rewrite Hlen in Hin2. destruct args as [|b [|c [|? ?]]]; [zl | zl | | zl]. by apply (two_verdict s2 b c). }
  destruct (redis_arg3 t) eqn:E3.
  { apply (count_next s1 args 3); try done; [by at_line_feed Hin1 Hk1|]. intros s2 Hin2 Hb2 Hk2 Hlen.
    rewrite Hlen in Hin2. destruct args as [|b [|c [|d [|? ?]]]]; [zl | zl | zl | | zl]. by apply (three_verdict s2 b c d). }
  destruct (redis_argn t) eqn:En.
  { destruct args as [|b args]; [eapply verdict_done; [done | done | by at_line_feed Hin1 Hk1]|].
    eapply verdict_next; [done | done | done | |].
    - at_line_feed Hin1 Hk1. by rewrite (proj2 (Z.eqb_neq _ _)) by (rewrite zlen_cons in *; zlen_pos; lia).
    - intros s2 ? ? ?. by apply (many_verdict s2 b args). }
  rewrite Ex. destruct (redis_argkvx t) eqn:Ek; cbn [andb] in Ekv.
  2: { eapply verdict_error; [done|]. by at_line_feed Hin1 Hk1. }
  rewrite Ekv, orb_false_r. destruct (Z.eqb_spec (1 + zlen args) 1).
  - destruct args; [|zl]. eapply verdict_done; [done | done |]. by at_line_feed Hin1 Hk1.
  - eapply verdict_error; [done|]. pose proof Hk1 as (_ & Hnarg & _). at_line_feed Hin1 Hk1.
    rewrite (proj2 (Z.eqb_neq (zlen args) 0)) by lia. by rewrite Hnarg, Hn, Zmod_even, Z.even_add, Ekv.
Qed.

(** EVAL and EVALSHA. *)
Lemma eval_verdict s a args : in_state s SW_ARG1_LEN (zlen (a :: args)) ->
  before s (a :: args) -> known s t n [] -> redis_argeval t = true -> verdict s t n (key_places t (a :: args)).
Proof.
  intros Hin Hb Hk He. destruct (argeval_excludes t He) as (Hz & H0 & H1 & H2 & H3 & H4 & H5 & H6).
  unfold key_places. rewrite Hz, He. pose proof (before_bounds s a args Hb) as [Hla Hlr].
  destruct (arg1_run s a args (zlen (a :: args)) t n []) as (s1 & Hg & Hin1 & Hlf & Hk1);
    try done; try lia; [rewrite zlen_cons; lia|].
  eapply verdict_goes; [exact Hg|]. rewrite zlen_cons, Z.add_simpl_l in Hin1.
  destruct args as [|nk [|k args]].
  1-2: eapply verdict_error; [done | by at_line_feed Hin1 Hk1].
  eapply verdict_next; [done | done | done | |].
  { at_line_feed Hin1 Hk1. rewrite (proj2 (Z.ltb_ge _ _)) by (rewrite !zlen_cons; zlen_pos; lia). done. }
  intros s2 Hin2 Hb2 Hk2. pose proof (before_bounds s2 nk (k :: args) Hb2) as [Hlnk Hlk].
  destruct (eval_nkey nk) eqn:Enk.
  2: { apply (arg2_bad s2 nk (k :: args) (zlen (nk :: k :: args)) t n []); try done; try lia; [zl | by rewrite He, Enk]. }
  destruct (arg2_run s2 nk (k :: args) (zlen (nk :: k :: args)) t n []) as (s3 & Hg3 & Hin3 & Hlf3 & Hk3);
    try done; try lia; [zl | by rewrite He, Enk |].
  eapply verdict_goes; [exact Hg3|]. rewrite (zlen_cons nk), Z.add_simpl_l in Hin3.
  eapply verdict_next; [done | done | done | |].
  { at_line_feed Hin3 Hk3. rewrite (proj2 (Z.ltb_ge _ _)) by (rewrite !zlen_cons; zlen_pos; lia). done. }
  intros s4 Hin4 Hb4 Hk4.
  destruct (key_run s4 k args (zlen (k :: args)) t n []) as (s5 & Hg5 & Hin5 & Hlf5 & Hk5); try done; [zl|].
  eapply verdict_goes; [exact Hg5|]. rewrite zlen_cons, Z.add_simpl_l in Hin5. cbn [app] in Hk5.
  destruct args as [|b args]; [eapply verdict_done; [done | done | by at_line_feed Hin5 Hk5]|].
  eapply verdict_next; [done | done | done | |].
  - at_line_feed Hin5 Hk5. by rewrite (proj2 (Z.eqb_neq _ _)) by (rewrite zlen_cons in *; zlen_pos; lia).
  - intros s6 ? ? ?. apply (rest_verdict (b :: args)); try done. by rewrite He, orb_true_r.
Qed.

End Verdicts.

(** ** The beginning of a command *)

Lemma narg_digits ds : forall s pre rest tk, state s = SW_NARG -> token s = Some tk -> mem = pre ++ ds ++ rest ->
  p s = zlen pre -> zlen pre + zlen ds <= cend -> Forall (fun b => is_digit b = true) ds -> 0 <= rnarg s ->
  undec_from (rnarg s) ds < 2 ^ 32 ->
  goes s (moved s SW_NARG (zlen pre + zlen ds) (Some tk) (rlen s) (undec_from (rnarg s) ds)).
Proof.
  induction ds as [|d ds IH]; intros s pre rest tk Hst Ht Hm Hp Hc Hd Hr Hu.
  { replace (moved _ _ _ _ _ _) with s; [apply goes_refl|]. destruct s; cbn in *. subst.
    unfold moved. cbn. f_equal; zl. }
  inversion_clear Hd as [|? ? Hd1 Hd2]. unfold undec_from in Hu |- *. cbn [foldl] in Hu |- *.
  fold (undec_from (rnarg s * 10 + (d - 48)) ds) in Hu |- *.
  assert (0 <= d - 48) by (unfold is_digit in Hd1; lia).
  pose proof (undec_from_ge ds (rnarg s * 10 + (d - 48)) ltac:(lia) Hd2) as Hge. autorewrite with hivip in Hc. zlen_pos.
  set (s1 := mk_fsm SW_NARG (p s) (Some tk) (rlen s) (rnarg s * 10 + (d - 48)) (req s)).
  eapply (goes_trans _ (advance s1)).
  - eapply (goes_step s s1 d); [lia | rewrite Hm; apply rd_at; lia | | done].
    unfold parse_switch, sw_narg, add_digit, s1. rewrite Hst, Ht, Hd1, uwrap_small by lia. done.
  - pose proof (IH (advance s1) (pre ++ [d]) rest tk) as IH'. change (rnarg (advance s1)) with (rnarg s * 10 + (d - 48)) in IH'.
    assert (zlen (pre ++ [d]) = zlen pre + 1) as Hpre by zl. rewrite Hpre in IH'.
    replace (zlen pre + zlen (d :: ds)) with (zlen pre + 1 + zlen ds) by zl.
    apply IH'; first [done | lia | cbn; lia | rewrite Hm; by rewrite <- app_assoc].
Qed.

(** The header: from the [*] to the first argument. *)
Lemma header_run r strs rest : mem = Format.encode strs ++ rest -> cend = zlen (Format.encode strs) ->
  cend <= INT_MAX -> strs <> [] ->
  exists s, goes (mk_fsm SW_START 0 None 0 0 r) s /\ in_state s SW_REQ_TYPE_LEN (zlen strs) /\ before s strs /\
    exists st en, req s = set_narg r st en (zlen strs).
Proof.
  intros Hm Hc Hmax Hne. pose proof (Format.zlen_encode strs) as Hlen. pose proof (Format.zlen_strs strs) as Hls.
  unfold Format.encode, CRLF in Hm. repeat (rewrite <- app_assoc in Hm || cbn [app] in Hm).
  set (ds := dec (zlen strs)) in *. unfold INT_MAX in Hmax.
  assert (0 < zlen strs) as Hpos by (destruct strs; [done | rewrite zlen_cons; zlen_pos; lia]). zlen_pos.
  assert (Forall (fun b => is_digit b = true) ds) as Hds by (apply dec_digits; lia).
  set (r1 := set_narg r (Some 0) (narg_end r) (narg r)).
  set (s0 := mk_fsm SW_START 0 None 0 0 r). set (s1 := mk_fsm SW_NARG 0 (Some 0) 0 0 r1).
  set (s2 := mk_fsm SW_NARG (1 + zlen ds) (Some 0) 0 (zlen strs) r1).
  set (s3 := mk_fsm SW_NARG_LF (1 + zlen ds) None 0 (zlen strs) (set_narg r (Some 0) (Some (1 + zlen ds)) (zlen strs))).
  set (s4 := mk_fsm SW_REQ_TYPE_LEN (2 + zlen ds) None 0 (zlen strs) (set_narg r (Some 0) (Some (1 + zlen ds)) (zlen strs))).
  exists (advance s4). split_and!.
  - eapply (goes_trans _ (advance s1)).
    { eapply (goes_step s0 s1 42); [change (p s0) with 0; lia | by rewrite Hm | done | done]. }
    eapply (goes_trans _ s2).
    { pose proof (narg_digits ds (advance s1) [42] (CR :: LF :: flat_map Format.bulk strs ++ rest) 0) as Hd.
      change (rnarg (advance s1)) with 0 in Hd. change (zlen [42]) with 1 in Hd. rewrite (undec_dec (zlen strs) ltac:(lia) : undec_from 0 ds = _) in Hd.
      apply Hd; first [done | lia | cbn; lia]. }
    eapply (goes_trans _ (advance s3)).
    { eapply (goes_step s2 s3 CR); [change (p s2) with (1 + zlen ds); lia | | | done].
      - rewrite Hm. apply (rd_at (42 :: ds)). cbn [p s2]. zl.
      - cbn. by rewrite (proj2 (Z.eqb_neq (zlen strs) 0)) by lia. }
    replace (advance s4) with (advance (mk_fsm SW_REQ_TYPE_LEN (p (advance s3)) None 0 (zlen strs) (req s3)))
      by (unfold advance; cbn; f_equal; lia).
    eapply (goes_step (advance s3) _ LF); [change (p (advance s3)) with (1 + zlen ds + 1); lia | | done | done].
    rewrite Hm. replace (42 :: ds ++ CR :: LF :: flat_map Format.bulk strs ++ rest)
      with ((42 :: ds ++ [CR]) ++ LF :: flat_map Format.bulk strs ++ rest) by (cbn [app]; by rewrite <- app_assoc).
    apply rd_at. cbn [p advance s3]. zl.
  - done.
  - exists (42 :: ds ++ [CR; LF]), rest. cbn [p advance s4]. split_and!; [| zl | zl].
    rewrite Hm. cbn [app]. by rewrite <- app_assoc.
  - by eexists _, _.
Qed.

(** The name: its type is that of [command_named]. *)
Lemma name_run s nm args n texts : cend <= INT_MAX -> in_state s SW_REQ_TYPE_LEN (zlen args + 1) -> before s (nm :: args) ->
  narg (req s) = n -> keyed s texts -> nm <> [] ->
  match command_named nm with
  | CMD_UNKNOWN => rejects s
  | t => exists s', goes s s' /\ in_state s' SW_REQ_TYPE_LF (zlen args) /\ at_lf s' args /\ known s' t n texts
  end.
Proof.
  intros Hmax (Hst & Htok & Hrn) Hb Hn Hk Hne. pose proof (before_bounds Hmax s nm args Hb) as [Hlnm Hlr].
  assert (0 < zlen nm) by (destruct nm; [done | rewrite zlen_cons; zlen_pos; lia]).
  destruct (length_run SW_REQ_TYPE_LEN SW_REQ_TYPE_LEN_LF SW_REQ_TYPE (fun s => (rlen s =? 0) || (rnarg s =? 0)) s nm args)
    as (pre & rest & Hm & Hc & Hg); try done; try lia.
  1-2: intros s0 ch Hs; unfold parse_switch; by rewrite Hs.
  { intros. cbn. by rewrite (proj2 (Z.eqb_neq (zlen nm) 0)), (proj2 (Z.eqb_neq (rnarg s) 0)) by lia. }
  pose proof Hg as (k & Hle & _). cbn [p moved] in Hle.
  set (s1 := moved s SW_REQ_TYPE (zlen pre) None (zlen nm) (rnarg s - 1)) in *. zlen_pos.
  destruct (rd_is_Some mem (zlen pre)) as [ch Hch]; [rewrite Hm; zl|].
  assert (p s1 < cend) as Hlt by (change (p s1) with (zlen pre); lia).
  set (r' t := set_ctype (req s) t (if sets_quit t then true else quit (req s)) (if sets_noforward t then true else noforward (req s))).
  assert (parse_switch mem cend s1 ch = match command_named nm with
    | CMD_UNKNOWN => Some (Goto_error (mk_fsm SW_REQ_TYPE (zlen pre + zlen nm) None 0 (rnarg s - 1) (r' CMD_UNKNOWN)))
    | t => Some (Break (mk_fsm SW_REQ_TYPE_LF (zlen pre + zlen nm) None 0 (rnarg s - 1) (r' t))) end) as Hsw.
  { change (parse_switch mem cend s1 ch) with (sw_req_type mem cend s1). unfold sw_req_type.
    change (from_token s1) with (zlen pre).
    rewrite (at_cr_run _ _ nm pre (LF :: flat_map Format.bulk args ++ rest)) by (done || lia).
    replace (zlen pre + zlen nm - zlen pre) with (zlen nm) by lia.
    replace (drop (Z.to_nat (zlen pre)) mem) with (nm ++ CR :: LF :: flat_map Format.bulk args ++ rest)
      by (rewrite Hm; symmetry; apply drop_app_exact; unfold zlen; lia).
    rewrite lookup_command. cbn [mbind option_bind]. by destruct (command_named nm). }
  assert (forall t, t <> CMD_UNKNOWN -> parse_switch mem cend s1 ch =
    Some (Break (mk_fsm SW_REQ_TYPE_LF (zlen pre + zlen nm) None 0 (rnarg s - 1) (r' t))) ->
    exists s', goes s s' /\ in_state s' SW_REQ_TYPE_LF (zlen args) /\ at_lf s' args /\ known s' t n texts) as Hgo.
  { intros t _ E. eexists. split; [eapply goes_trans; [exact Hg | eapply (goes_step s1 _ ch); [done | done | exact E | cbn; lia]]|].
    split; [split_and!; [done | done | cbn; lia]|]. split.
    - exists ((pre ++ nm) ++ [CR]), rest. cbn [p advance]. split_and!; [| zl | zl].
      rewrite Hm. by repeat (rewrite <- app_assoc || cbn [app]).
    - destruct Hk as (kl & Hr & Ha & Hkt & Hp). split_and!; [done | done |]. exists kl. split_and!; try done.
      cbn [p advance]. lia. }
  destruct (command_named nm) eqn:En; try (apply Hgo; [done | exact Hsw]).
  exists s1. eexists. split_and!; [exact Hg | done |]. by eapply (jumps_step s1 _ ch).
Qed.

(** A whole command: the name decides the type, and the type the keys. *)
Lemma command_verdict r nm args rest : has_memory -> mem = Format.encode (nm :: args) ++ rest ->
  cend = zlen (Format.encode (nm :: args)) -> cend <= INT_MAX -> nm <> [] ->
  HiArray.repr (keys r) [] -> HiArray.nalloc (keys r) = 1 ->
  match command_named nm with
  | CMD_UNKNOWN => rejects (mk_fsm SW_START 0 None 0 0 r)
  | t => verdict (mk_fsm SW_START 0 None 0 0 r) t (zlen args + 1) (key_places t args)
  end.
Proof.
  intros Hmem Hm Hc Hmax Hne Hr Ha.
  destruct (header_run r (nm :: args) rest Hm Hc Hmax) as (s & Hg & Hin & Hb & st & en & Hreq); [done|].
  rewrite zlen_cons, Z.add_comm in Hin, Hreq. pose proof Hb as (? & ? & _ & Hp & _). zlen_pos.
  assert (keyed s []) as Hk0.
  { exists []. rewrite Hreq. change (keys (set_narg r st en (zlen args + 1))) with (keys r). rewrite Ha, Hp.
    split_and!; [done | done | done |]. change (zlen (@nil (list bytes))) with 0. lia. }
  assert (narg (req s) = zlen args + 1) as Hn by (by rewrite Hreq).
  pose proof (name_run s nm args (zlen args + 1) [] Hmax Hin Hb Hn Hk0 Hne) as Hname.
  assert (forall t, t <> CMD_UNKNOWN ->
    (exists s', goes s s' /\ in_state s' SW_REQ_TYPE_LF (zlen args) /\ at_lf s' args /\ known s' t (zlen args + 1) []) ->
    verdict (mk_fsm SW_START 0 None 0 0 r) t (zlen args + 1) (key_places t args)) as Hgo.
  { intros t Ht (s1 & Hg1 & Hin1 & Hlf & Hk). eapply verdict_goes; [exact Hg|]. eapply verdict_goes; [exact Hg1|].
    assert (parse_switch mem cend s1 LF = Some (if redis_argz t then Goto_done s1 else
      if redis_argeval t then goto s1 SW_ARG1_LEN else goto s1 SW_KEY_LEN)) as Hsw.
    { destruct Hin1 as (Hst & _). destruct Hk as (Hty & _). unfold parse_switch. rewrite Hst.
      unfold sw_req_type_lf. by rewrite Hty. }
    destruct (redis_argz t) eqn:Ez.
    { unfold key_places. rewrite Ez. by eapply verdict_done. }
    assert (forall nx, parse_switch mem cend s1 LF = Some (goto s1 nx) ->
      (forall s2 a rs, args = a :: rs -> in_state s2 nx (zlen args) -> before s2 args -> known s2 t (zlen args + 1) [] ->
        verdict s2 t (zlen args + 1) (key_places t args)) ->
      verdict s1 t (zlen args + 1) (key_places t args)) as Hnx.
    { intros nx E Hv. eapply verdict_next; [done | done | done | exact E |]. intros s2 Hin2 Hb2 Hk2.
      destruct args as [|a rs]; [|by apply (Hv s2 a rs)]. unfold key_places. rewrite Ez. exists s2.
      split_and!; [apply goes_refl | | done]. right. destruct Hb2 as (? & ? & _ & -> & ->). cbn. zl. }
    destruct (redis_argeval t) eqn:Ee; apply (Hnx _ Hsw); intros s2 a rs -> Hin2 Hb2 Hk2.
    - by apply eval_verdict.
    - by apply key_verdict. }
  destruct (command_named nm) eqn:En; try (apply Hgo; [done | exact Hname]).
  destruct Hname as (s1 & s2 & Hg1 & Hj). exists s1, s2. split; [by eapply goes_trans | done].
Qed.

End Runs.

(** ** What the parser leaves alone *)

Definition exit_fsm (e : exit) : fsm :=
  match e with Break s | Goto_done s | Goto_enomem s | Goto_error s => s end.

(** The fields of the command the machine does not write. *)
Definition same_frame (r r' : cmd) : Prop :=
  result r' = result r /\ errstr r' = errstr r /\ text r' = text r /\ clen r' = clen r /\ id r' = id r /\
  slot_num r' = slot_num r.

Lemma switch_frame `{Memory} mem cend s ch e : parse_switch mem cend s ch = Some e ->
  same_frame (req s) (req (exit_fsm e)).
Proof.
  unfold parse_switch, sw_narg, sw_lf, sw_req_type_len, sw_key_len, sw_arg1_len, sw_arg2_len, sw_arg3_len, sw_argn_len,
    sw_len, sw_req_type, sw_key, sw_arg1, sw_arg2, sw_arg3, sw_argn, sw_skip, sw_req_type_lf, sw_key_lf, sw_arg1_lf,
    sw_arg2_lf, sw_arg3_lf, sw_argn_lf, at_cr, goto, mbind, option_bind.
  intros E. destruct (state s); repeat case_match; simplify_eq; by split_and!.
Qed.

Lemma loop_frame `{Memory} mem cend f : forall s x, parse_loop mem cend f s = Some x ->
  same_frame (req s) (req (match x with inl e => exit_fsm e | inr s' => s' end)).
Proof.
  induction f as [|f IH]; intros s x E; [done|]. cbn [parse_loop] in E. destruct (p s <? cend); [|by simplify_eq].
  destruct (rd mem (p s)) as [ch|]; [|done]. cbn [mbind option_bind] in E.
  destruct (parse_switch mem cend s ch) as [e|] eqn:Es; [|done]. cbn [mbind option_bind] in E.
  apply switch_frame in Es. destruct e as [s1|s1|s1|s1]; simplify_eq; try exact Es.
  apply IH in E. unfold same_frame in *. cbn in *. destruct_and!. split_and!; congruence.
Qed.

Lemma vscnprintf_room n : 0 <= _vscnprintf n 100 < 100.
Proof.
  unfold _vscnprintf. change (i32 100) with 100. change (i32 (100 - 1)) with 99.
  destruct (Z.leb_spec n 0); [lia|]. destruct (Z.ltb_spec n 100); lia.
Qed.

Lemma cstr_some (l : bytes) : 0 ∈ l -> is_Some (cstr l).
Proof.
  induction l as [|b l IH]; [by intros ?%not_elem_of_nil|]. intros Hin. cbn [cstr]. destruct (Z.eqb_spec b 0); [done|].
  apply elem_of_cons in Hin as [?|Hin]; [done|]. destruct (IH Hin) as [x ->]. done.
Qed.

Lemma parse_error_some `{Memory} s : malloc_ok 100 = true -> errstr (req s) = None ->
  exists msg, parse_error s = Some (set_result (req s) CMD_PARSE_ERROR (Some msg)) /\ is_Some (cstr msg).
Proof.
  intros Hmem He. unfold parse_error. rewrite He, Hmem. cbn [mbind option_bind].
  set (m := take 99 (parse_error_msg s) ++ [0]). assert (zlen m <= 100) by (unfold m; zl).
  unfold wr_bytes. rewrite decide_True by (zlen_pos; change (zlen (replicate 100 junk)) with 100; lia).
  cbn [mbind option_bind]. set (b := take _ _ ++ _).
  assert (zlen b = 100) as Hb by (unfold b; change (zlen (replicate 100 junk)) with 100 in *; zl).
  pose proof (vscnprintf_room (zlen (parse_error_msg s))). rewrite wr_is_Some by lia. cbn [mbind option_bind]. eexists. split; [done|].
  apply cstr_some. eapply list_elem_of_lookup_2, list_lookup_insert_eq. unfold zlen in Hb. lia.
Qed.

(** ** Safety on every text *)

Section Safety.
Context `{Memory} (mem : bytes) (cend : Z) (Hlen : cend <= zlen mem) (Hmax : cend <= INT_MAX).

(** A key lies inside the text and ends at a CR. *)
Definition span_ok (k : keypos) : Prop := 0 <= start k <= end_ k /\ end_ k < cend /\ rd mem (end_ k) = Some CR.

(** How far the position is ahead of the keys in a state. *)
Definition slack (st : sw) : Z := match st with SW_KEY => 2 | SW_KEY_LEN_LF => 1 | _ => 0 end.

(** The states in which a token has been started. *)
Definition may_hold_token (st : sw) : bool :=
  match st with
  | SW_NARG | SW_REQ_TYPE_LEN | SW_KEY_LEN | SW_ARG1_LEN | SW_ARG2_LEN | SW_ARG3_LEN | SW_ARGN_LEN => true
  | _ => false
  end.

Definition keys_ok (r : cmd) (q : Z) : Prop :=
  exists kl, HiArray.repr (keys r) kl /\ HiArray.nalloc (keys r) <= Z.max 1 (2 * zlen kl) /\ Forall span_ok kl /\
    2 * zlen kl <= q.

Definition machine_ok (s : fsm) : Prop :=
  0 <= p s /\ 0 <= rlen s /\ (may_hold_token (state s) = false -> token s = None) /\ keys_ok (req s) (p s - slack (state s)).

(** A way out of the switch keeps the invariant and never moves back. *)
Definition exit_ok (s : fsm) (e : exit) : Prop :=
  match e with
  | Break s' => p s <= p s' /\ machine_ok (advance s')
  | _ => keys_ok (req (exit_fsm e)) (p s)
  end.

Lemma keys_ok_mono r q q' : keys_ok r q -> q <= q' -> keys_ok r q'.
Proof. intros (kl & ? & ? & ? & ?) ?. exists kl. split_and!; try done. lia. Qed.

Lemma slack_range st : 0 <= slack st <= 2.
Proof. destruct st; cbn; lia. Qed.

Lemma machine_keys s : machine_ok s -> keys_ok (req s) (p s).
Proof. intros (_ & _ & _ & Hk). eapply keys_ok_mono; [exact Hk|]. pose proof (slack_range (state s)). lia. Qed.

(** A [break] that only changes the local variables. *)
Lemma break_ok s st q tok rl rn r' : machine_ok s -> p s <= q -> 0 <= rl -> (may_hold_token st = false -> tok = None) ->
  keys r' = keys (req s) -> slack st <= slack (state s) + 1 -> exit_ok s (Break (mk_fsm st q tok rl rn r')).
Proof.
  intros (Hp & Hr & Ht & kl & Hk) Hq Hrl Htok Hkeys Hsl. split; [done|]. unfold machine_ok. cbn. split_and!; [lia | done | done |].
  exists kl. rewrite Hkeys. destruct Hk as (? & ? & ? & ?). split_and!; try done. lia.
Qed.

Lemma error_ok s q st tok rl rn r' : machine_ok s -> keys r' = keys (req s) ->
  exit_ok s (Goto_error (mk_fsm st q tok rl rn r')).
Proof. intros Hm Hkeys. destruct (machine_keys s Hm) as (kl & ?). exists kl. cbn. by rewrite Hkeys. Qed.

Lemma goto_ok s nx : machine_ok s -> may_hold_token (state s) = false -> slack nx <= slack (state s) + 1 ->
  exit_ok s (goto s nx).
Proof.
  intros Hm Hst Hsl. pose proof Hm as (_ & ? & Ht & _). apply break_ok; auto with lia.
Qed.

Lemma label_ok s e : machine_ok s -> e = Goto_done s \/ e = Goto_error s -> exit_ok s e.
Proof. intros Hm [-> | ->]; by apply machine_keys. Qed.

Lemma add_digit_nonneg v c : 0 <= add_digit v c.
Proof. apply (uwrap_range 32). lia. Qed.

Lemma narg_ok s ch : machine_ok s -> state s = SW_START \/ state s = SW_NARG -> exit_ok s (sw_narg s ch).
Proof.
  intros Hm Hst. pose proof Hm as (_ & ? & _). assert (slack (state s) = 0) as Hs by (by destruct Hst as [-> | ->]).
  unfold sw_narg. destruct (token s) eqn:Et.
  - repeat case_match; try (apply label_ok; solve [auto]); apply break_ok; rewrite ?Hs; try done; try lia.
    destruct Hst as [E|E]; [|by rewrite E]. destruct Hm as (_ & _ & Ht & _). rewrite E in Ht. by rewrite Ht in Et.
  - case_match; [apply label_ok; auto|]. apply break_ok; rewrite ?Hs; try done; lia.
Qed.

Lemma len_ok bad nx s ch : machine_ok s -> may_hold_token (state s) = true -> slack nx <= 1 -> exit_ok s (sw_len bad nx s ch).
Proof.
  intros Hm Hst Hnx. pose proof Hm as (_ & ? & _). pose proof (slack_range (state s)). unfold sw_len.
  repeat case_match; try (apply label_ok; solve [auto]); apply break_ok; try done; try lia; try apply add_digit_nonneg;
    rewrite Hst; done.
Qed.

(** The states that look at the byte behind an argument. *)
Lemma at_cr_ok s s1 from k : machine_ok s -> req s1 = req s -> rlen s1 = rlen s -> p s <= from ->
  (forall m, from <= m < cend -> rd mem m = Some CR -> exists e, k m = Some e /\ exit_ok s e) ->
  exists e, at_cr mem cend s1 from k = Some e /\ exit_ok s e.
Proof.
  intros Hm Hreq Hrl Hfrom Hk. pose proof Hm as (? & ? & _). unfold at_cr. rewrite Hrl.
  destruct (Z.leb_spec cend (from + rlen s)).
  { eexists. split; [done|]. cbn. rewrite Hreq. by apply machine_keys. }
  destruct (rd_is_Some mem (from + rlen s)) as [c Hc]; [lia|]. rewrite Hc. cbn [mbind option_bind].
  destruct (Z.eqb_spec c CR) as [->|]; cbn [negb].
  - apply Hk; [lia | done].
  - eexists. split; [done|]. cbn. rewrite Hreq. by apply machine_keys.
Qed.

Lemma stricmp_some n : forall m, (length n <= length m)%nat -> is_Some (stricmp m n).
Proof.
  induction n as [|c n IH]; intros m Hl; [by eexists|]. destruct m as [|x m]; [simpl in Hl; lia|].
  cbn. case_match; [|by eexists]. apply IH. simpl in Hl. lia.
Qed.

Lemma lookup_some m l : Forall (fun e => zlen e.1 <= zlen m) l -> is_Some (lookup_name m l).
Proof.
  induction 1 as [|[n t] l Hn _ IH]; [by eexists|]. cbn [lookup_name fst] in *.
  destruct (stricmp_some n m) as [b Hb]; [unfold zlen in Hn; lia|]. rewrite Hb. cbn [mbind option_bind].
  destruct b; [by eexists | done].
Qed.

Lemma req_type_ok s : machine_ok s -> state s = SW_REQ_TYPE -> exists e, sw_req_type mem cend s = Some e /\ exit_ok s e.
Proof.
  intros Hm Hst. pose proof Hm as (Hp & _ & Ht & _). rewrite Hst in Ht. specialize (Ht eq_refl).
  unfold sw_req_type, from_token. rewrite Ht. apply at_cr_ok; try done. intros m Hr _.
  destruct (lookup_some (drop (Z.to_nat (p s)) mem) (names (m - p s))) as [t Et].
  { eapply Forall_impl; [apply names_ok|]. intros e [_ [_ Hle]]. rewrite zlen_drop. lia. }
  rewrite Et. cbn [mbind option_bind]. destruct t; eexists; (split; [done|]);
    first [apply error_ok; done | apply break_ok; rewrite ?Hst; try done; cbn; lia].
Qed.

Lemma key_ok s : machine_ok s -> state s = SW_KEY -> exists e, sw_key mem cend s = Some e /\ exit_ok s e.
Proof.
  intros Hm Hst. pose proof Hm as (Hp & Hrl & Ht & kl & Hr & Ha & Hs & Hn). rewrite Hst in Ht, Hn. specialize (Ht eq_refl).
  cbn [slack] in Hn. unfold sw_key, from_token. rewrite Ht. apply at_cr_ok; try done. intros m Hm1 Hcr.
  unfold INT_MAX in Hmax. zlen_pos.
  destruct (HiArray.hiarray_push malloc_ok (keys (req s))) as [[a1 i]|] eqn:E.
  2: { eexists. split; [done|]. cbn. exists kl. split_and!; try done. lia. }
  destruct (HiArray.push_full_grows malloc_ok _ kl Hr ltac:(lia) a1 i E) as (-> & Hp1 & Hp2 & Hp3 & x & Hp4).
  destruct (HiArray.put_repr _ kl a1 x (mk_keypos (p s) m None) Hr Hp1 Hp2 Hp3 Hp4) as (a2 & Hput & Hr2 & _ & Hal).
  rewrite Hput. cbn [mbind option_bind]. eexists. split; [done|]. split; [cbn; lia|].
  unfold machine_ok. cbn [p rlen token state advance]. split_and!; [lia | done | done |].
  exists (kl ++ [mk_keypos (p s) m None]). cbn [req keys set_keys slack advance p state]. rewrite Hal, zlen_app.
  change (zlen [mk_keypos (p s) m None]) with 1. split_and!; [done | | | lia].
  - unfold HiArray.hiarray_push in E. destruct Hr as (Hne & Hle & _ & Hpos & _).
    destruct (Z.eqb_spec (HiArray.nelem (keys (req s))) (HiArray.nalloc (keys (req s)))).
    + case_match; [done|]. injection E as <- <-. cbn. rewrite uwrap_small by lia. lia.
    + injection E as <- <-. cbn. lia.
  - apply Forall_app. split; [done|]. constructor; [|done]. split_and!; try done; cbn; lia.
Qed.

Lemma skip_ok nx s : machine_ok s -> may_hold_token (state s) = false -> slack nx = 0 ->
  exists e, sw_skip mem cend nx s = Some e /\ exit_ok s e.
Proof.
  intros Hm Hst Hnx. pose proof Hm as (Hp & _ & Ht & _). specialize (Ht Hst). pose proof (slack_range (state s)).
  unfold sw_skip. apply at_cr_ok; try done. intros m Hr _. eexists. split; [done|]. apply break_ok; try done; lia.
Qed.

Lemma arg2_ok s : machine_ok s -> state s = SW_ARG2 -> exists e, sw_arg2 mem cend s = Some e /\ exit_ok s e.
Proof.
  intros Hm Hst. pose proof Hm as (Hp & _ & Ht & _). rewrite Hst in Ht. specialize (Ht eq_refl). unfold sw_arg2. rewrite Ht.
  destruct (redis_argeval (ctype (req s))) eqn:Ee.
  - apply at_cr_ok; try done. intros m Hr _. cbn [p with_token] in Hr. cbn [req with_token]. rewrite Ee. cbn [token with_token mbind option_bind].
    repeat case_match; eexists; (split; [done|]);
      first [apply error_ok; done | apply break_ok; rewrite ?Hst; try done; cbn; lia].
  - apply at_cr_ok; try done. intros m Hr _. cbn beta zeta. rewrite Ee. eexists. split; [done|].
    apply break_ok; rewrite ?Hst, ?Ht; try done; cbn; lia.
Qed.

(** One round of the loop is defined and keeps the invariant. *)
Lemma switch_ok s ch : machine_ok s -> exists e, parse_switch mem cend s ch = Some e /\ exit_ok s e.
Proof.
  intros Hm. unfold parse_switch. destruct (state s) eqn:Est.
  all: try (apply req_type_ok; done); try (apply key_ok; done); try (apply arg2_ok; done);
    try (apply skip_ok; by rewrite ?Est).
  all: eexists; (split; [reflexivity|]).
  1-2: apply narg_ok; auto.
  all: try (apply len_ok; rewrite ?Est; try done; cbn; lia).
  all: try (unfold sw_lf; case_match; [apply goto_ok; rewrite ?Est; try done; cbn; lia | apply label_ok; by auto]).
  all: try (unfold sw_req_type_lf, sw_key_lf, sw_arg1_lf, sw_arg2_lf, sw_arg3_lf, sw_argn_lf; repeat case_match;
    first [apply label_ok; by auto | apply goto_ok; rewrite ?Est; try done; cbn; lia]).
  destruct s as [st q tok rl rn r]. pose proof Hm as (_ & ? & Ht & _). cbn in Est, Ht. subst st.
  apply break_ok; try done; cbn in *; lia.
Qed.

Lemma loop_ok f : forall s, machine_ok s -> (Z.to_nat (cend - p s) < f)%nat ->
  exists x, parse_loop mem cend f s = Some x /\ (forall s', x <> inl (Break s')) /\
    exists q, keys_ok (req (match x with inl e => exit_fsm e | inr s' => s' end)) q.
Proof.
  induction f as [|f IH]; intros s Hm Hf; [lia|]. cbn [parse_loop]. pose proof Hm as (Hp & _).
  destruct (Z.ltb_spec (p s) cend).
  2: { eexists. split_and!; [done | done |]. exists (p s). by apply machine_keys. }
  destruct (rd_is_Some mem (p s)) as [ch Hch]; [lia|]. rewrite Hch. cbn [mbind option_bind].
  destruct (switch_ok s ch Hm) as (e & -> & He). cbn [mbind option_bind].
  destruct e as [s'|s'|s'|s']; [|by eexists; split_and!; [done | done | eexists]..].
  destruct He as [Hle Hm']. apply IH; [done|]. cbn. lia.
Qed.

End Safety.

(** ** The results *)

Section Results.
Context `{Memory}.

(** A command as [command_get] returns it, before its text is set. *)
Definition fresh_cmd (r : cmd) : Prop :=
  result r = CMD_PARSE_OK /\ errstr r = None /\ HiArray.repr (keys r) [] /\ HiArray.nalloc (keys r) = 1.

Definition set_text (r : cmd) (txt : bytes) (l : Z) : cmd :=
  mk_cmd (id r) (result r) (errstr r) (ctype r) (Some txt) l (keys r) (narg_start r) (narg_end r) (narg r)
    (quit r) (noforward r) (slot_num r).

Lemma command_get_fresh n r n' : command_get n = (Some r, n') -> fresh_cmd r /\ id r = u64 (n + 1) /\ slot_num r = -1.
Proof.
  unfold command_get. destruct (malloc_ok cmd_size); cbn [negb]; [|done].
  destruct (HiArray.hiarray_create malloc_ok 1 keypos_size) as [a|] eqn:E; [|done]. intros [= <- <-].
  split_and!; try done. split_and!; try done.
  - by eapply (HiArray.repr_create malloc_ok 1 keypos_size).
  - unfold HiArray.hiarray_create in E. repeat case_match; simplify_eq. done.
Qed.

(** The command that a name and its arguments stand for: the type and the keys, [None] for
    a name or a shape that is not known. *)
Definition command_of (nm : bytes) (args : list bytes) : option (cmd_type * list bytes) :=
  match command_named nm with
  | CMD_UNKNOWN => None
  | t => ks ← key_args t args; Some (t, ks)
  end.

Lemma located_text mem k args : located mem k args -> key_text mem k = hd [] args.
Proof.
  intros (a & args' & pre & rest & -> & -> & Hs & He). unfold key_text. rewrite Hs, He. apply slice_at.
Qed.

Lemma located_texts mem kl sufs : Forall2 (located mem) kl sufs -> map (key_text mem) kl = map (hd []) sufs.
Proof. induction 1 as [|k suf kl sufs Hl _ IH]; [done|]. cbn [map]. by rewrite IH, (located_text _ _ _ Hl). Qed.

(** What the parser reports for it. *)
Definition parsed_as (mem : bytes) (n : Z) (r' : cmd) (c : option (cmd_type * list bytes)) : Prop :=
  match c with
  | None => result r' = CMD_PARSE_ERROR
  | Some (t, ks) =>
      result r' = CMD_PARSE_OK /\ ctype r' = t /\ narg r' = n /\
      exists kl, HiArray.repr (keys r') kl /\ map (key_text mem) kl = ks
  end.

Lemma rejects_parse r mem : has_memory -> text r = Some mem -> errstr r = None ->
  rejects mem (clen r) (mk_fsm SW_START 0 None 0 0 r) ->
  exists r', redis_parse_cmd r = Some r' /\ text r' = text r /\ clen r' = clen r /\ slot_num r' = slot_num r /\
    result r' = CMD_PARSE_ERROR /\ is_Some (errstr r' ≫= cstr).
Proof.
  intros Hmem Ht He (s & s' & Hg & Hlt & Hj). unfold redis_parse_cmd. rewrite Ht. change (default [] (Some mem)) with mem.
  assert (parse_loop mem (clen r) (S (Z.to_nat (clen r))) (mk_fsm SW_START 0 None 0 0 r) = Some (inl (Goto_error s'))) as El
    by (eapply goes_jumps; [done | done | done | cbn; lia]).
  rewrite El. cbn [mbind option_bind]. apply loop_frame in El as (_ & Hee & Htx & Hcl & _ & Hsl). cbn in Hee, Htx, Hcl, Hsl.
  destruct (parse_error_some s' (Hmem 100)) as (msg & -> & Hmsg); [congruence|]. eexists. split; [done|]. split_and!; cbn; congruence || done.
Qed.

(** What the parser reports, with the places of the keys. *)
Definition parsed_at (mem : bytes) (n : Z) (r r' : cmd) (t : cmd_type) (places : option (list (list bytes))) : Prop :=
  text r' = text r /\ clen r' = clen r /\ slot_num r' = slot_num r /\
  match places with
  | None => result r' = CMD_PARSE_ERROR /\ is_Some (errstr r' ≫= cstr)
  | Some sufs => result r' = CMD_PARSE_OK /\ ctype r' = t /\ narg r' = n /\
      exists kl, HiArray.repr (keys r') kl /\ Forall2 (located mem) kl sufs
  end.

Lemma accepts_parse r mem t n ks : text r = Some mem -> result r = CMD_PARSE_OK ->
  accepts mem (clen r) (mk_fsm SW_START 0 None 0 0 r) t n ks ->
  exists r', redis_parse_cmd r = Some r' /\ parsed_at mem n r r' t (Some ks).
Proof.
  intros Ht Hr (s & Hg & Hend & Hty & Hn & kl & Hrep & _ & Hk & _). unfold redis_parse_cmd. rewrite Ht. change (default [] (Some mem)) with mem.
  destruct Hend as [[Hlt Hj] | Hp].
  - assert (parse_loop mem (clen r) (S (Z.to_nat (clen r))) (mk_fsm SW_START 0 None 0 0 r) = Some (inl (Goto_done s))) as El
      by (eapply goes_jumps; [done | done | done | cbn; lia]).
    rewrite El. cbn [mbind option_bind]. apply loop_frame in El as (_ & _ & Htx & Hcl & _ & Hsl). cbn in Htx, Hcl, Hsl.
    eexists. split; [done|]. split_and!; try done. by exists kl.
  - assert (parse_loop mem (clen r) (S (Z.to_nat (clen r))) (mk_fsm SW_START 0 None 0 0 r) = Some (inr s)) as El
      by (eapply goes_end; [done | done | cbn; lia]).
    rewrite El. cbn [mbind option_bind]. apply loop_frame in El as (Hres & _ & Htx & Hcl & _ & Hsl). cbn in Hres, Htx, Hcl, Hsl.
    eexists. split; [done|]. split_and!; try done; [congruence|]. by exists kl.
Qed.

(** The outcome for a name and its arguments. *)
Definition places_of (nm : bytes) (args : list bytes) : option (list (list bytes)) :=
  match command_named nm with CMD_UNKNOWN => None | t => key_places t args end.

Lemma parse_places r nm args rest : has_memory -> fresh_cmd r -> nm <> [] ->
  text r = Some (Format.encode (nm :: args) ++ rest) -> clen r = zlen (Format.encode (nm :: args)) -> clen r <= INT_MAX ->
  exists r', redis_parse_cmd r = Some r' /\
    parsed_at (Format.encode (nm :: args) ++ rest) (zlen args + 1) r r' (command_named nm) (places_of nm args).
Proof.
  intros Hmem (Hres & He & Hrep & Hal) Hne Ht Hc Hmax.
  pose proof (command_verdict (Format.encode (nm :: args) ++ rest) (clen r) r nm args rest Hmem eq_refl Hc Hmax Hne Hrep Hal) as Hv.
  assert (forall t, verdict (Format.encode (nm :: args) ++ rest) (clen r) (mk_fsm SW_START 0 None 0 0 r) t (zlen args + 1) (key_places t args) ->
    exists r', redis_parse_cmd r = Some r' /\ parsed_at (Format.encode (nm :: args) ++ rest) (zlen args + 1) r r' t (key_places t args)) as Hgo.
  { intros t Hvt. destruct (key_places t args) as [ks|]; cbn [verdict] in *.
    - by apply accepts_parse.
    - by apply (rejects_parse r _ Hmem Ht). }
  unfold places_of. destruct (command_named nm); try (apply Hgo; exact Hv).
  by apply (rejects_parse r _ Hmem Ht).
Qed.

Lemma parsed_at_as mem n r r' nm args : parsed_at mem n r r' (command_named nm) (places_of nm args) ->
  parsed_as mem n r' (command_of nm args).
Proof.
  intros (_ & _ & _ & Hp). unfold command_of, places_of in *.
  assert (forall t, match key_places t args with
    | None => result r' = CMD_PARSE_ERROR /\ is_Some (errstr r' ≫= cstr)
    | Some sufs => result r' = CMD_PARSE_OK /\ ctype r' = t /\ narg r' = n /\
        exists kl, HiArray.repr (keys r') kl /\ Forall2 (located mem) kl sufs
    end -> parsed_as mem n r' (ks ← key_args t args; Some (t, ks))) as Hgo.
  { intros t Ht. rewrite key_places_args. destruct (key_places t args) as [sufs|]; cbn [fmap option_fmap option_map mbind option_bind parsed_as]; [|by destruct Ht].
    destruct Ht as (? & ? & ? & kl & Hr & Hl). split_and!; try done. exists kl. split; [done | by apply located_texts]. }
  destruct (command_named nm); try (by apply Hgo). by destruct Hp.
Qed.

Lemma parse_command r nm args rest : has_memory -> fresh_cmd r -> nm <> [] ->
  text r = Some (Format.encode (nm :: args) ++ rest) -> clen r = zlen (Format.encode (nm :: args)) -> clen r <= INT_MAX ->
  exists r', redis_parse_cmd r = Some r' /\
    parsed_as (Format.encode (nm :: args) ++ rest) (zlen args + 1) r' (command_of nm args).
Proof.
  intros Hmem Hf Hne Ht Hc Hmax. destruct (parse_places r nm args rest Hmem Hf Hne Ht Hc Hmax) as (r' & E & Hp).
  exists r'. split; [done | by eapply parsed_at_as].
Qed.

(** C26: [redis_parse_cmd] on the text of a command with a non-empty name decides exactly as
    the specification: the name is looked up in any mixture of cases, the arguments are
    accepted or refused by the class of the command as [key_args] says (which accepts every
    command without arguments, and MSET with one key), and on success the keys are the
    spans of exactly the key arguments (all of MGET's and DEL's, every other one of MSET's,
    the first key of EVAL's), in order. Every other command is reported as an error. *)
Theorem redis_parse_cmd_encoded (r : cmd) (nm : bytes) (args : list bytes) (rest : bytes)
    (Hmem : has_memory) (Hfresh : fresh_cmd r) (Hne : nm <> [])
    (Htext : text r = Some (Format.encode (nm :: args) ++ rest))
    (Hclen : clen r = zlen (Format.encode (nm :: args))) (Hmax : clen r <= INT_MAX) :
  exists r', redis_parse_cmd r = Some r' /\
    parsed_as (Format.encode (nm :: args) ++ rest) (zlen args + 1) r' (command_of nm args).
Proof. by apply parse_command. Qed.

(** C28: what [redisFormatCommandArgv] builds, [redis_parse_cmd] understands: formatting an
    argument vector and parsing the result in a new command gives the type and the keys of
    the arguments. *)
Theorem format_then_parse (n n' : Z) (r : cmd) (argv : list bytes) (argvlen : option (list Z)) (nm : bytes) (args : list bytes)
    (Hmem : has_memory) (Hget : command_get n = (Some r, n')) (Hne : nm <> [])
    (Hpass : Format.passed argv argvlen (nm :: args)) (Hmax : zlen (Format.encode (nm :: args)) < INT_MAX) :
  exists l txt r', Format.redisFormatCommandArgv argv argvlen = Some (Some (l, txt)) /\
    redis_parse_cmd (set_text r txt l) = Some r' /\ parsed_as txt (zlen argv) r' (command_of nm args).
Proof.
  apply command_get_fresh in Hget as ((Hr & He & Hk & Ha) & _).
  rewrite (Format.redisFormatCommandArgv_text argv argvlen (nm :: args)), Hmem by done.
  rewrite (Format.passed_length _ _ _ Hpass), zlen_cons, Z.add_comm.
  destruct (parse_command (set_text r (Format.encode (nm :: args) ++ [0]) (zlen (Format.encode (nm :: args)))) nm args [0])
    as (r' & E & Hp); try done; [cbn; lia|]. by eexists _, _, r'.
Qed.

(** C27: on any text whatsoever the parser terminates without reading outside of it, reports
    one of its three results, and every key it recorded lies inside the text and ends at a
    CR, also when the text is malformed or memory runs out for the keys. *)
Theorem redis_parse_cmd_safe (r : cmd) (mem : bytes)
    (Hfresh : fresh_cmd r) (Herr : malloc_ok 100 = true) (Htext : text r = Some mem)
    (Hclen : 0 <= clen r <= zlen mem) (Hmax : clen r <= INT_MAX) :
  exists r' kl, redis_parse_cmd r = Some r' /\
    (result r' = CMD_PARSE_OK \/ result r' = CMD_PARSE_ENOMEM \/ result r' = CMD_PARSE_ERROR) /\
    HiArray.repr (keys r') kl /\ Forall (span_ok mem (clen r)) kl.
Proof.
  destruct Hfresh as (Hres & He & Hrep & Hal). unfold redis_parse_cmd. rewrite Htext. change (default [] (Some mem)) with mem.
  destruct (loop_ok mem (clen r) ltac:(lia) Hmax (S (Z.to_nat (clen r))) (mk_fsm SW_START 0 None 0 0 r))
    as (x & El & Hnb & q & kl & Hkl & _ & Hsp & _).
  { unfold machine_ok. cbn. split_and!; try done. exists []. rewrite Hal. by split_and!. }
  { cbn. lia. }
  rewrite El. cbn [mbind option_bind]. apply loop_frame in El. cbn in El. destruct El as (Hr & Hee & _).
  destruct x as [[s|s|s|s]|s]; cbn [exit_fsm] in *; [by destruct (Hnb s)|..].
  - eexists _, kl. split_and!; try done. by left.
  - eexists _, kl. split_and!; try done. by right; left.
  - destruct (parse_error_some s Herr) as (msg & -> & _); [congruence|]. eexists _, kl. split_and!; try done. by right; right.
  - eexists _, kl. split_and!; try done. left. congruence.
Qed.

End Results.

(** ** Concrete commands *)

#[local] Existing Instance demo_memory.

Definition demo_cmd : cmd :=
  mk_cmd 1 CMD_PARSE_OK None CMD_UNKNOWN None 0 (HiArray.mk_hiarray 0 [None] keypos_size 1) None None 0 false false (-1).

Lemma demo_get : command_get 0 = (Some demo_cmd, 1).
Proof. done. Qed.

Lemma demo_fresh txt l : fresh_cmd (set_text demo_cmd txt l).
Proof. split_and!; try done. Qed.

(** A text that stops in the middle of a command leaves the result at [CMD_PARSE_OK],
    with the keys found so far: here a GET without its key. *)
Theorem truncated_command_ok :
  match redis_parse_cmd (set_text demo_cmd (bstr "*2" ++ CRLF ++ bstr "$3" ++ CRLF ++ bstr "GET" ++ CRLF) 13) with
  | Some r' => result r' = CMD_PARSE_OK /\ ctype r' = CMD_REQ_REDIS_GET /\ HiArray.nelem (keys r') = 0
  | None => False
  end.
Proof. by vm_compute. Qed.

(** The classes are not checked when there are no arguments, nor is a single pair: GET without a
    key and MSET with a key and no value are accepted. *)
Theorem missing_arguments_ok :
  command_of (bstr "GET") [] = Some (CMD_REQ_REDIS_GET, []) /\ command_of (bstr "MSET") [bstr "k"] = Some (CMD_REQ_REDIS_MSET, [bstr "k"]) /\
  match redis_parse_cmd (set_text demo_cmd (Format.encode [bstr "GET"]) (zlen (Format.encode [bstr "GET"]))),
        redis_parse_cmd (set_text demo_cmd (Format.encode [bstr "MSET"; bstr "k"]) (zlen (Format.encode [bstr "MSET"; bstr "k"]))) with
  | Some r1, Some r2 => result r1 = CMD_PARSE_OK /\ HiArray.nelem (keys r1) = 0 /\ result r2 = CMD_PARSE_OK /\ HiArray.nelem (keys r2) = 1
  | _, _ => False
  end.
Proof. by vm_compute. Qed.

Definition demo_args : list bytes := [bstr "k1"; bstr "v"; []; [13; 10]].

Lemma redis_parse_cmd_encoded_witness :
  command_of (bstr "mSeT") demo_args = Some (CMD_REQ_REDIS_MSET, [bstr "k1"; []]) /\
  exists r', redis_parse_cmd (set_text demo_cmd (Format.encode (bstr "mSeT" :: demo_args) ++ [0]) 43) = Some r' /\
    parsed_as (Format.encode (bstr "mSeT" :: demo_args) ++ [0]) 5 r' (command_of (bstr "mSeT") demo_args).
Proof.
  split; [reflexivity|].
  exact (redis_parse_cmd_encoded (set_text demo_cmd (Format.encode (bstr "mSeT" :: demo_args) ++ [0]) 43) (bstr "mSeT")
    demo_args [0] demo_has_memory (demo_fresh _ _) ltac:(done) eq_refl eq_refl ltac:(done)).
Defined.

Lemma format_then_parse_witness :
  exists l txt r', Format.redisFormatCommandArgv [bstr "del" ++ [0]; bstr "x" ++ [0]; bstr "yz" ++ [0]] None = Some (Some (l, txt)) /\
    redis_parse_cmd (set_text demo_cmd txt l) = Some r' /\ parsed_as txt 3 r' (command_of (bstr "del") [bstr "x"; bstr "yz"]).
Proof.
  refine (format_then_parse 0 1 demo_cmd _ None (bstr "del") [bstr "x"; bstr "yz"] demo_has_memory demo_get _ _ _);
    [done | | done].
  repeat constructor; (by eexists) || (vm_compute; set_solver).
Defined.

Lemma redis_parse_cmd_safe_witness :
  exists r' kl, redis_parse_cmd (set_text demo_cmd (bstr "*2" ++ CRLF ++ bstr "$3" ++ CRLF ++ bstr "GET$") 12) = Some r' /\
    (result r' = CMD_PARSE_OK \/ result r' = CMD_PARSE_ENOMEM \/ result r' = CMD_PARSE_ERROR) /\
    HiArray.repr (keys r') kl /\ Forall (span_ok (bstr "*2" ++ CRLF ++ bstr "$3" ++ CRLF ++ bstr "GET$") 12) kl.
Proof.
  exact (redis_parse_cmd_safe (set_text demo_cmd (bstr "*2" ++ CRLF ++ bstr "$3" ++ CRLF ++ bstr "GET$") 12)
    (bstr "*2" ++ CRLF ++ bstr "$3" ++ CRLF ++ bstr "GET$") (demo_fresh _ _) eq_refl eq_refl ltac:(done) ltac:(done)).
Defined.

End Command.
