(* ===== verification/Reply.v ===== *)
(** Reply objects, hiredis.c: the default functions of the reader on an explicit heap of
    blocks, the trees of replies they build and release, and the proofs that what a server
    sends is rebuilt exactly, and that no block leaks whatever the input. *)
From S2P Require Import Prelude Sds Read Format.
Import Read.

Open Scope Z_scope.

Module Reply.

(** ** The heap *)

Abbreviation loc := positive.

(** [redisReply] of hiredis.h; the pointers are locations. *)
Record redisReply := mk_reply {
  rtype : Z;
  integer : Z;
  rlen : Z;
  str : option loc;
  relements : Z;
  element : option loc;
}.

(** What an allocation holds: an object, characters, or a vector of pointers. *)
Inductive block :=
| BReply (r : redisReply)
| BChars (b : bytes)
| BPtrs (ps : list (option loc)).

Abbreviation heap := (gmap loc block).

(** The functions return the heap and the object, [None] inside for NULL. *)
Abbreviation created := (option (heap * option (vptr loc))).

Section Ops.
Context `{Memory}.

(** [malloc] or [calloc] of [n] bytes, filled by the caller with [b]. *)
Definition alloc (n : Z) (b : block) (h : heap) : option (loc * heap) :=
  if malloc_ok n then let l := fresh (dom h) in Some (l, <[l := b]> h) else None.

(** [free] of a block that is allocated. *)
Definition free_block (l : loc) (h : heap) : option heap :=
  match h !! l with Some _ => Some (delete l h) | None => None end.

Definition load_reply (h : heap) (l : loc) : option redisReply :=
  match h !! l with Some (BReply r) => Some r | _ => None end.

Definition load_ptrs (h : heap) (l : loc) : option (list (option loc)) :=
  match h !! l with Some (BPtrs ps) => Some ps | _ => None end.

(** [sizeof(redisReply)]. *)
Definition reply_size : Z := 48.

Definition createReplyObject (type : Z) (h : heap) : option (loc * heap) :=
  alloc reply_size (BReply (mk_reply type 0 0 None 0 None)) h.

(** The loop over the elements. *)
Fixpoint free_elements (free : loc -> heap -> option heap) (ps : list (option loc)) (h : heap) : option heap :=
  match ps with
  | [] => Some h
  | None :: ps' => free_elements free ps' h
  | Some q :: ps' => h' ← free q h; free_elements free ps' h'
  end.

(** [None] is an invalid access or an invalid [free]; the nesting is bounded by the blocks
    of the heap. *)
Fixpoint free_object (fuel : nat) (l : loc) (h : heap) : option heap :=
  match fuel with
  | O => None
  | S f =>
      r ← load_reply h l;
      h ← (if rtype r =? REDIS_REPLY_ARRAY then
             match element r with
             | None => Some h
             | Some e =>
                 ps ← load_ptrs h e;
                 if zlen ps <? relements r then None
                 else h ← free_elements (free_object f) (take (Z.to_nat (relements r)) ps) h; free_block e h
             end
           else if (rtype r =? REDIS_REPLY_ERROR) || (rtype r =? REDIS_REPLY_STATUS) || (rtype r =? REDIS_REPLY_STRING) then
             match str r with None => Some h | Some b => free_block b h end
           else Some h);
      free_block l h
  end.

Definition freeReplyObject (reply : option loc) (h : heap) : option heap :=
  match reply with None => Some h | Some l => free_object (S (size h)) l h end.

(** [parent->element[task->idx] = r], with the assertion on the type of the parent. *)
Definition set_parent (t : redisReadTask loc) (par : option (redisReadTask loc)) (r : loc) (h : heap) : option heap :=
  match par with
  | None => Some h
  | Some pt =>
      match obj pt with
      | Some (Obj pl) =>
          pr ← load_reply h pl;
          if negb (rtype pr =? REDIS_REPLY_ARRAY) then None
          else
            e ← element pr;
            ps ← load_ptrs h e;
            ps ← wr ps (idx t) (Some r);
            Some (<[e := BPtrs ps]> h)
      | _ => None
      end
  end.

Definition linked (t : redisReadTask loc) (par : option (redisReadTask loc)) (r : loc) (h : heap) : created :=
  h ← set_parent t par r h; Some (h, Some (Obj r)).

Definition createStringObject (t : redisReadTask loc) (par : option (redisReadTask loc)) (s : bytes) (h : heap) : created :=
  match createReplyObject (type t) h with
  | None => Some (h, None)
  | Some (r, h) =>
      match alloc (u64 (zlen s + 1)) (BChars (s ++ [0])) h with
      | None => h ← freeReplyObject (Some r) h; Some (h, None)
      | Some (b, h) =>
          if negb ((type t =? REDIS_REPLY_ERROR) || (type t =? REDIS_REPLY_STATUS) || (type t =? REDIS_REPLY_STRING)) then None
          else linked t par r (<[r := BReply (mk_reply (type t) 0 (i32 (zlen s)) (Some b) 0 None)]> h)
      end
  end.

Definition createArrayObject (t : redisReadTask loc) (par : option (redisReadTask loc)) (n : Z) (h : heap) : created :=
  match createReplyObject REDIS_REPLY_ARRAY h with
  | None => Some (h, None)
  | Some (r, h) =>
      if 0 <? n then
        match alloc (u64 (n * 8)) (BPtrs (replicate (Z.to_nat n) None)) h with
        | None => h ← freeReplyObject (Some r) h; Some (h, None)
        | Some (e, h) => linked t par r (<[r := BReply (mk_reply REDIS_REPLY_ARRAY 0 0 None (u64 n) (Some e))]> h)
        end
      else linked t par r (<[r := BReply (mk_reply REDIS_REPLY_ARRAY 0 0 None (u64 n) None)]> h)
  end.

Definition createIntegerObject (t : redisReadTask loc) (par : option (redisReadTask loc)) (v : Z) (h : heap) : created :=
  match createReplyObject REDIS_REPLY_INTEGER h with
  | None => Some (h, None)
  | Some (r, h) => linked t par r (<[r := BReply (mk_reply REDIS_REPLY_INTEGER v 0 None 0 None)]> h)
  end.

Definition createNilObject (t : redisReadTask loc) (par : option (redisReadTask loc)) (h : heap) : created :=
  match createReplyObject REDIS_REPLY_NIL h with
  | None => Some (h, None)
  | Some (r, h) => linked t par r h
  end.

Definition free_vptr (o : vptr loc) (h : heap) : option heap :=
  match o with Obj l => freeReplyObject (Some l) h | Cast _ => None end.

Definition defaultFunctions : redisReplyObjectFunctions loc heap := {|
  createString := Some createStringObject;
  createArray := Some createArrayObject;
  createInteger := Some createIntegerObject;
  createNil := Some createNilObject;
  freeObject := Some free_vptr;
|}.

(** [redisReaderCreate]. *)
Definition redisReaderCreate (calloc_ok : bool) : option (option (redisReader loc)) :=
  redisReaderCreateWithFunctions calloc_ok.

End Ops.

(** ** Trees of replies *)

(** What a reply stands for. An array has its announced number of elements and the elements
    themselves, none when that number is not positive; a hole is an element not read yet. *)
#[warnings="-register-all"]
Inductive value :=
| VString (ty : Z) (s : bytes)
| VInt (z : Z)
| VNil
| VArray (n : Z) (vs : list value)
| VHole.

Definition string_type (ty : Z) : Prop :=
  ty = REDIS_REPLY_STRING \/ ty = REDIS_REPLY_STATUS \/ ty = REDIS_REPLY_ERROR.

Definition string_reply (ty : Z) (s : bytes) (b : loc) : block := BReply (mk_reply ty 0 (i32 (zlen s)) (Some b) 0 None).
Definition array_reply (n : Z) (e : option loc) : block := BReply (mk_reply REDIS_REPLY_ARRAY 0 0 None (u64 n) e).
Definition int_reply (z : Z) : block := BReply (mk_reply REDIS_REPLY_INTEGER z 0 None 0 None).
Definition nil_reply : block := BReply (mk_reply REDIS_REPLY_NIL 0 0 None 0 None).

(** [tree v l m]: the blocks of [m], and no others, make up the reply [v] at [l]. *)
Inductive tree : value -> loc -> heap -> Prop :=
| tree_int z l : tree (VInt z) l {[l := int_reply z]}
| tree_nil l : tree VNil l {[l := nil_reply]}
| tree_string ty s l b : string_type ty -> l <> b -> tree (VString ty s) l (<[l := string_reply ty s b]> {[b := BChars (s ++ [0])]})
| tree_empty n l : n <= 0 -> tree (VArray n []) l {[l := array_reply n None]}
| tree_array vs l e ps m : 0 < zlen vs <= INT_MAX -> trees vs ps m -> l <> e -> m !! l = None -> m !! e = None ->
    tree (VArray (zlen vs) vs) l (<[l := array_reply (zlen vs) (Some e)]> (<[e := BPtrs ps]> m))
with trees : list value -> list (option loc) -> heap -> Prop :=
| trees_nil : trees [] [] ∅
| trees_hole vs ps m : trees vs ps m -> trees (VHole :: vs) (None :: ps) m
| trees_cons v vs l ps m1 m2 : tree v l m1 -> trees vs ps m2 -> m1 ##ₘ m2 -> trees (v :: vs) (Some l :: ps) (m1 ∪ m2).

Scheme tree_mut := Induction for tree Sort Prop with trees_mut := Induction for trees Sort Prop.
Combined Scheme tree_trees_ind from tree_mut, trees_mut.

Lemma trees_length vs ps m : trees vs ps m -> length ps = length vs.
Proof. induction 1; simpl; congruence. Qed.

Lemma trees_app vs1 ps1 m1 vs2 ps2 m2 : trees vs1 ps1 m1 -> trees vs2 ps2 m2 -> m1 ##ₘ m2 ->
  trees (vs1 ++ vs2) (ps1 ++ ps2) (m1 ∪ m2).
Proof.
  intros H1 H2. induction H1 as [|vs ps m _ IH|v vs l ps ma mb Ht _ IH Hd]; intros Hdis; cbn [app].
  - by rewrite (left_id_L ∅ (∪)).
  - constructor. by apply IH.
  - apply map_disjoint_union_l in Hdis as [Hda Hdb]. rewrite <- (assoc_L (∪)). constructor; [done | by apply IH |].
    apply map_disjoint_union_r. done.
Qed.

Lemma trees_holes k : trees (replicate k VHole) (replicate k None) ∅.
Proof. induction k; cbn; by constructor. Qed.

Lemma trees_one v l m : tree v l m -> trees [v] [Some l] m.
Proof. intros Ht. rewrite <- (right_id_L ∅ (∪) m). constructor; [done | constructor | apply map_disjoint_empty_r]. Qed.

(** *** Blocks beside others *)

Lemma union_insert_out (l : loc) (x : block) (m h : heap) : m !! l = None ->
  <[l := x]> m ∪ h = m ∪ <[l := x]> h.
Proof. intros Hm. by rewrite <- insert_union_l, insert_union_r. Qed.

Lemma free_block_insert l x (h : heap) : h !! l = None -> free_block l (<[l := x]> h) = Some h.
Proof. intros Hh. unfold free_block. by rewrite lookup_insert_eq, delete_insert_id. Qed.

Lemma load_reply_insert l r (h : heap) : load_reply (<[l := BReply r]> h) l = Some r.
Proof. unfold load_reply. by rewrite lookup_insert_eq. Qed.

Lemma size_insert (l : loc) (x : block) (m : heap) : m !! l = None -> size (<[l := x]> m) = S (size m).
Proof. apply map_size_insert_None. Qed.

(** *** Release *)

(** Releasing an object without children. *)
Lemma free_leaf f l r (h : heap) : h !! l = None -> rtype r <> REDIS_REPLY_ARRAY \/ element r = None -> str r = None ->
  free_object (S f) l (<[l := BReply r]> h) = Some h.
Proof.
  intros Hh Ht Hs. cbn [free_object]. rewrite load_reply_insert. cbn [mbind option_bind]. rewrite Hs.
  destruct (Z.eqb_spec (rtype r) REDIS_REPLY_ARRAY); [destruct Ht as [?| ->]; [done|]|];
    [|destruct (_ || _)]; cbn [mbind option_bind]; by apply free_block_insert.
Qed.

Lemma free_tree_both :
  (forall v l m, tree v l m -> forall f h, m ##ₘ h -> (size m <= f)%nat -> free_object f l (m ∪ h) = Some h) /\
  (forall vs ps m, trees vs ps m -> forall f h, m ##ₘ h -> (size m <= f)%nat ->
    free_elements (free_object f) ps (m ∪ h) = Some h).
Proof.
  apply (tree_trees_ind (fun v l m _ => forall f h, m ##ₘ h -> (size m <= f)%nat -> free_object f l (m ∪ h) = Some h)
    (fun vs ps m _ => forall f h, m ##ₘ h -> (size m <= f)%nat -> free_elements (free_object f) ps (m ∪ h) = Some h)).
  - intros z l f h Hd Hf. rewrite map_size_singleton in Hf. destruct f as [|f]; [lia|].
    apply map_disjoint_singleton_l in Hd. rewrite <- insert_union_singleton_l. apply free_leaf; [done | by left | done].
  - intros l f h Hd Hf. rewrite map_size_singleton in Hf. destruct f as [|f]; [lia|].
    apply map_disjoint_singleton_l in Hd. rewrite <- insert_union_singleton_l. apply free_leaf; [done | by left | done].
  - intros ty s l b Hty Hne f h Hd Hf. rewrite size_insert, map_size_singleton in Hf by (by apply lookup_singleton_ne).
    destruct f as [|f]; [lia|]. apply map_disjoint_insert_l in Hd as [Hl Hd]. apply map_disjoint_singleton_l in Hd.
    rewrite <- insert_union_l, <- insert_union_singleton_l. unfold string_reply.
    cbn [free_object]. rewrite load_reply_insert. cbn [mbind option_bind rtype].
    assert ((ty =? REDIS_REPLY_ARRAY) = false) as -> by (by destruct Hty as [-> | [-> | ->]]).
    assert ((ty =? REDIS_REPLY_ERROR) || (ty =? REDIS_REPLY_STATUS) || (ty =? REDIS_REPLY_STRING) = true) as ->
      by (by destruct Hty as [-> | [-> | ->]]).
    cbn [str]. rewrite insert_insert_ne, free_block_insert by (done || rewrite lookup_insert_ne; done).
    cbn [mbind option_bind]. by apply free_block_insert.
  - intros n l _ f h Hd Hf. rewrite map_size_singleton in Hf. destruct f as [|f]; [lia|].
    apply map_disjoint_singleton_l in Hd. rewrite <- insert_union_singleton_l. apply free_leaf; [done | by right | done].
  - intros vs l e ps m Hn Ht IH Hne Hl He f h Hd Hf. pose proof (trees_length _ _ _ Ht) as Hlen.
    rewrite !size_insert in Hf by (try (rewrite lookup_insert_ne by done); done). destruct f as [|f]; [lia|].
    apply map_disjoint_insert_l in Hd as [Hhl Hd]. apply map_disjoint_insert_l in Hd as [Hhe Hd].
    rewrite <- insert_union_l, union_insert_out by done. unfold array_reply. cbn [free_object]. rewrite load_reply_insert.
    cbn [mbind option_bind rtype]. rewrite Z.eqb_refl. cbn [element].
    unfold load_ptrs. rewrite lookup_insert_ne, lookup_union_r, lookup_insert_eq by done. cbn [mbind option_bind relements].
    unfold INT_MAX in Hn. rewrite uwrap_small by lia. rewrite (proj2 (Z.ltb_ge _ _)) by (unfold zlen; lia).
    rewrite take_ge by (unfold zlen; lia). rewrite insert_union_r by done.
    rewrite IH; [| |lia].
    2: { apply map_disjoint_insert_r. split; [done|]. apply map_disjoint_insert_r. done. }
    cbn [mbind option_bind]. rewrite insert_insert_ne, free_block_insert by (done || rewrite lookup_insert_ne; done).
    cbn [mbind option_bind]. by apply free_block_insert.
  - intros f h _ _. cbn. by rewrite (left_id_L ∅ (∪)).
  - intros vs ps m _ IH f h Hd Hf. cbn [free_elements]. by apply IH.
  - intros v vs l ps m1 m2 _ IH1 _ IH2 Hdis f h Hd Hf. rewrite map_size_disj_union in Hf by done.
    apply map_disjoint_union_l in Hd as [Hd1 Hd2]. cbn [free_elements].
    rewrite <- (assoc_L (∪)), IH1; [| by apply map_disjoint_union_r | lia]. cbn [mbind option_bind]. apply IH2; [done | lia].
Qed.

(** [freeReplyObject] releases exactly the blocks of the tree. *)
Lemma freeReplyObject_tree v l m h : tree v l m -> m ##ₘ h -> freeReplyObject (Some l) (m ∪ h) = Some h.
Proof.
  intros Ht Hd. cbn [freeReplyObject]. apply (proj1 free_tree_both v l m Ht); [done|].
  rewrite map_size_disj_union by done. lia.
Qed.

(** ** Creation *)

Section Own.
Context `{Memory}.

Abbreviation rtask := (redisReadTask loc).

Lemma alloc_some n b h l h' : alloc n b h = Some (l, h') -> h !! l = None /\ h' = <[l := b]> h.
Proof.
  unfold alloc. destruct (malloc_ok n); [|done]. intros [= <- <-]. split; [|done].
  apply not_elem_of_dom, is_fresh.
Qed.

Lemma alloc_none n b h : alloc n b h = None -> exists k, malloc_ok k = false.
Proof. unfold alloc. destruct (malloc_ok n) eqn:E; [done|]. by exists n. Qed.

(** A link to a new object is made beside blocks that are not touched. *)
Lemma set_parent_frame t par r (m h h' : heap) : set_parent t par r h = Some h' -> m ##ₘ h ->
  set_parent t par r (m ∪ h) = Some (m ∪ h') /\ m ##ₘ h'.
Proof.
  unfold set_parent. destruct par as [pt|]; [|intros [= <-]; done]. destruct (obj pt) as [[|pl]|]; [done | | done].
  unfold load_reply, load_ptrs. intros E Hd. destruct (h !! pl) as [[pr| |]|] eqn:Epl; cbn [mbind option_bind] in E; try done.
  rewrite (lookup_union_Some_r m h pl _ Hd Epl). cbn [mbind option_bind].
  destruct (negb _); [done|]. destruct (element pr) as [e|]; [|done]. cbn [mbind option_bind] in E |- *.
  destruct (h !! e) as [[| |ps]|] eqn:Ee; cbn [mbind option_bind] in E; try done.
  rewrite (lookup_union_Some_r m h e _ Hd Ee). cbn [mbind option_bind].
  destruct (wr ps (idx t) (Some r)) as [ps'|]; [|done]. cbn [mbind option_bind] in E |- *. injection E as <-.
  assert (m !! e = None) as Hm by (eapply map_disjoint_Some_r; eauto).
  split; [by rewrite insert_union_r | by apply map_disjoint_insert_r].
Qed.

(** A creation function either builds the tree of [v] beside the heap and links it, or finds
    no memory and leaves the heap as it was. *)
Definition created_ok (t : rtask) (par : option rtask) (h : heap) (v : value) (c : created) : Prop :=
  match c with
  | Some (h1, None) => h1 = h /\ exists n, malloc_ok n = false
  | Some (h1, Some (Obj r)) =>
      exists m h', tree v r m /\ m ##ₘ h /\ m ##ₘ h' /\ set_parent t par r h = Some h' /\ h1 = m ∪ h'
  | _ => False
  end.

(** The task can be linked to its parent. *)
Definition can_link (t : rtask) (par : option rtask) (h : heap) : Prop := forall r, is_Some (set_parent t par r h).

Lemma linked_ok t par r m h v : tree v r m -> m ##ₘ h -> can_link t par h -> created_ok t par h v (linked t par r (m ∪ h)).
Proof.
  intros Ht Hd Hl. destruct (Hl r) as [h' Hh]. destruct (set_parent_frame t par r m h h' Hh Hd) as [E Hd'].
  unfold linked. rewrite E. cbn. by exists m, h'.
Qed.

Lemma createReply_none ty h : createReplyObject ty h = None -> exists n, malloc_ok n = false.
Proof. apply alloc_none. Qed.

Lemma createReply_some ty h r h' : createReplyObject ty h = Some (r, h') ->
  h !! r = None /\ h' = <[r := BReply (mk_reply ty 0 0 None 0 None)]> h.
Proof. apply alloc_some. Qed.

(** Giving back an object just created. *)
Lemma free_new r ty (h : heap) : h !! r = None ->
  freeReplyObject (Some r) (<[r := BReply (mk_reply ty 0 0 None 0 None)]> h) = Some h.
Proof. intros Hr. cbn [freeReplyObject]. apply free_leaf; [done | by right | done]. Qed.

Lemma createString_ok t par s h : string_type (type t) -> can_link t par h ->
  created_ok t par h (VString (type t) s) (createStringObject t par s h).
Proof.
  intros Hty Hl. unfold createStringObject.
  destruct (createReplyObject (type t) h) as [[r h1]|] eqn:E1; [|split; [done | by eapply createReply_none]].
  apply createReply_some in E1 as [Hr ->].
  destruct (alloc _ _ _) as [[b h2]|] eqn:E2.
  2: { rewrite free_new by done. split; [done | by eapply alloc_none]. }
  apply alloc_some in E2 as [Hb ->]. rewrite lookup_insert_None in Hb. destruct Hb as [Hb Hne].
  assert ((type t =? REDIS_REPLY_ERROR) || (type t =? REDIS_REPLY_STATUS) || (type t =? REDIS_REPLY_STRING) = true) as ->
    by (by destruct Hty as [-> | [-> | ->]]).
  cbn [negb]. rewrite insert_insert_ne, insert_insert_eq by done.
  replace (<[b := BChars (s ++ [0])]> (<[r := BReply (mk_reply (type t) 0 (i32 (zlen s)) (Some b) 0 None)]> h))
    with (<[r := string_reply (type t) s b]> {[b := BChars (s ++ [0])]} ∪ h).
  2: { rewrite <- insert_union_l, <- insert_union_singleton_l, insert_insert_ne by done. done. }
  apply linked_ok; [by constructor | | done].
  apply map_disjoint_insert_l. split; [done|]. by apply map_disjoint_singleton_l.
Qed.

Lemma createInteger_ok t par v h : can_link t par h -> created_ok t par h (VInt v) (createIntegerObject t par v h).
Proof.
  intros Hl. unfold createIntegerObject.
  destruct (createReplyObject REDIS_REPLY_INTEGER h) as [[r h1]|] eqn:E1; [|split; [done | by eapply createReply_none]].
  apply createReply_some in E1 as [Hr ->]. rewrite insert_insert_eq, insert_union_singleton_l.
  apply linked_ok; [by constructor | by apply map_disjoint_singleton_l | done].
Qed.

Lemma createNil_ok t par h : can_link t par h -> created_ok t par h VNil (createNilObject t par h).
Proof.
  intros Hl. unfold createNilObject.
  destruct (createReplyObject REDIS_REPLY_NIL h) as [[r h1]|] eqn:E1; [|split; [done | by eapply createReply_none]].
  apply createReply_some in E1 as [Hr ->]. rewrite insert_union_singleton_l.
  apply linked_ok; [by constructor | by apply map_disjoint_singleton_l | done].
Qed.

Lemma createEmpty_ok t par n h : n <= 0 -> can_link t par h -> created_ok t par h (VArray n []) (createArrayObject t par n h).
Proof.
  intros Hn Hl. unfold createArrayObject.
  destruct (createReplyObject REDIS_REPLY_ARRAY h) as [[r h1]|] eqn:E1; [|split; [done | by eapply createReply_none]].
  apply createReply_some in E1 as [Hr ->]. rewrite (proj2 (Z.ltb_ge _ _)) by lia. rewrite insert_insert_eq, insert_union_singleton_l.
  apply linked_ok; [by constructor | by apply map_disjoint_singleton_l | done].
Qed.

(** A new array: the vector of its elements is all holes. *)
Lemma createArray_ok t par n h : 0 < n <= INT_MAX -> can_link t par h ->
  match createArrayObject t par n h with
  | Some (h1, None) => h1 = h /\ exists k, malloc_ok k = false
  | Some (h1, Some (Obj r)) => exists e h', r <> e /\ h !! r = None /\ h !! e = None /\ set_parent t par r h = Some h' /\
      h' !! r = None /\ h' !! e = None /\
      h1 = <[r := array_reply n (Some e)]> (<[e := BPtrs (replicate (Z.to_nat n) None)]> h')
  | _ => False
  end.
Proof.
  intros Hn Hl. unfold createArrayObject.
  destruct (createReplyObject REDIS_REPLY_ARRAY h) as [[r h1]|] eqn:E1; [|split; [done | by eapply createReply_none]].
  apply createReply_some in E1 as [Hr ->]. rewrite (proj2 (Z.ltb_lt _ _)) by lia.
  destruct (alloc _ _ _) as [[e h2]|] eqn:E2.
  2: { rewrite free_new by done. split; [done | by eapply alloc_none]. }
  apply alloc_some in E2 as [He ->]. rewrite lookup_insert_None in He. destruct He as [He Hne].
  rewrite insert_insert_ne, insert_insert_eq by done. set (m := <[r := array_reply n (Some e)]> {[e := BPtrs (replicate (Z.to_nat n) None)]} : heap).
  replace (<[e := _]> (<[r := _]> h)) with (m ∪ h).
  2: { unfold m. rewrite <- insert_union_l, <- insert_union_singleton_l, insert_insert_ne by done. done. }
  assert (m ##ₘ h) as Hd by (apply map_disjoint_insert_l; split; [done | by apply map_disjoint_singleton_l]).
  destruct (Hl r) as [h' Hh]. destruct (set_parent_frame t par r m h h' Hh Hd) as [E Hd'].
  unfold linked. rewrite E. cbn. exists e, h'. apply map_disjoint_insert_l in Hd' as [Hd1 Hd2]. apply map_disjoint_singleton_l in Hd2.
  split_and!; try done. unfold m. by rewrite <- insert_union_l, <- insert_union_singleton_l.
Qed.

(** ** Replies under construction *)

(** The blocks of an array in progress: its elements [vs] are complete, the slot behind them
    holds [s], and [k] more are empty. *)
Definition frame (l e : loc) (ps : list (option loc)) (s : option loc) (k : nat) (m : heap) : heap :=
  <[l := array_reply (zlen ps + 1 + Z.of_nat k) (Some e)]> (<[e := BPtrs (ps ++ s :: replicate k None)]> m).

(** [ctx rest i s m]: the tasks [rest] under the current one are arrays in progress, whose
    blocks are [m]; the current task has index [i] in its parent, where the slot holds [s]. *)
Inductive ctx : list rtask -> Z -> option loc -> heap -> Prop :=
| ctx_root i s : ctx [] i s ∅
| ctx_frame t rest s l e vs ps k m m' :
    obj t = Some (Obj l) -> type t = REDIS_REPLY_ARRAY -> elements t = zlen ps + 1 + Z.of_nat k -> elements t <= INT_MAX ->
    trees vs ps m -> l <> e -> m !! l = None -> m !! e = None ->
    ctx rest (idx t) (Some l) m' -> frame l e ps s k m ##ₘ m' ->
    ctx (t :: rest) (zlen ps) s (frame l e ps s k m ∪ m').

(** The object at the bottom of the stack. *)
Fixpoint root_of (rest : list rtask) : option (vptr loc) :=
  match rest with
  | [] => None
  | [t] => obj t
  | _ :: rest' => root_of rest'
  end.

(** A frame whose slot is filled is a tree. *)
Lemma frame_tree l e vs ps s k m v ms : trees vs ps m -> trees [v] [s] ms -> m ##ₘ ms -> l <> e ->
  m !! l = None -> m !! e = None -> ms !! l = None -> ms !! e = None -> zlen ps + 1 + Z.of_nat k <= INT_MAX ->
  tree (VArray (zlen ps + 1 + Z.of_nat k) (vs ++ v :: replicate k VHole)) l (frame l e ps s k m ∪ ms).
Proof.
  intros Ht Hs Hd Hne Hl He Hsl Hse Hmax. pose proof (trees_length _ _ _ Ht) as Hlen.
  assert (zlen ps + 1 + Z.of_nat k = zlen (vs ++ v :: replicate k VHole)) as E.
  { autorewrite with hivip. unfold zlen. lia. }
  unfold frame. rewrite <- !insert_union_l, E. constructor; try done.
  - rewrite <- E. zlen_pos. lia.
  - apply trees_app; [done | | done]. change (v :: replicate k VHole) with ([v] ++ replicate k VHole).
    change (s :: replicate k None) with ([s] ++ replicate k (@None loc)). rewrite <- (right_id_L ∅ (∪) ms).
    apply trees_app; [done | apply trees_holes | apply map_disjoint_empty_r].
  - by apply lookup_union_None.
  - by apply lookup_union_None.
Qed.

Lemma frame_disjoint l e ps s k m h : frame l e ps s k m ##ₘ h <-> h !! l = None /\ h !! e = None /\ m ##ₘ h.
Proof.
  unfold frame. split.
  - intros [? [? ?]%map_disjoint_insert_l]%map_disjoint_insert_l. done.
  - intros (? & ? & ?). apply map_disjoint_insert_l. split; [done|]. by apply map_disjoint_insert_l.
Qed.

(** The whole construction is one tree, with holes where elements are missing. *)
Lemma ctx_tree rest i s m : ctx rest i s m -> rest <> [] -> forall v ms, trees [v] [s] ms -> ms ##ₘ m ->
  exists l v', root_of rest = Some (Obj l) /\ tree v' l (ms ∪ m).
Proof.
  induction 1 as [|t rest s l e vs ps k m m' Hobj Hty Hel Hmax Ht Hne Hl He Hctx IH Hd]; intros Hnn v ms Hs Hds; [done|].
  apply map_disjoint_union_r in Hds as [Hds1 Hds2]. apply symmetry, frame_disjoint in Hds1 as (Hsl & Hse & Hdm).
  assert (tree (VArray (zlen ps + 1 + Z.of_nat k) (vs ++ v :: replicate k VHole)) l (ms ∪ frame l e ps s k m)) as Hf.
  { rewrite map_union_comm; [apply frame_tree; try done; lia | by apply symmetry, frame_disjoint]. }
  destruct rest as [|t2 rest].
  - inversion Hctx. subst. exists l. eexists. split; [done|]. by rewrite (right_id_L ∅ (∪)).
  - rewrite (assoc_L (∪)). eapply (IH ltac:(done)); [apply trees_one; exact Hf|].
    by apply map_disjoint_union_l.
Qed.

(** What is in progress can be abandoned. *)
Lemma ctx_hole rest i m : ctx rest i None m -> rest <> [] -> exists l v, root_of rest = Some (Obj l) /\ tree v l m.
Proof.
  intros Hc Hne. destruct (ctx_tree rest i None m Hc Hne VHole ∅) as (l & v & ? & Ht).
  - repeat constructor.
  - apply map_disjoint_empty_l.
  - exists l, v. by rewrite (left_id_L ∅ (∪)) in Ht.
Qed.

(** The slot of a frame can be filled through its parent task, and nothing else changes. *)
Lemma frame_link t pt l e ps k m h r : obj pt = Some (Obj l) -> idx t = zlen ps -> l <> e ->
  set_parent t (Some pt) r (frame l e ps None k m ∪ h) = Some (frame l e ps (Some r) k m ∪ h).
Proof.
  intros Hobj Hi Hne. cbn [set_parent]. rewrite Hobj. unfold frame, array_reply.
  rewrite <- !insert_union_l, load_reply_insert.
  cbn [mbind option_bind rtype element]. rewrite Z.eqb_refl. cbn [negb]. unfold load_ptrs.
  rewrite lookup_insert_ne, lookup_insert_eq by done. cbn [mbind option_bind].
  rewrite (wr_at ps (replicate k None) None (Some r)) by done. cbn [mbind option_bind].
  by rewrite insert_insert_ne, insert_insert_eq by done.
Qed.

(** A filled slot joins the complete elements. *)
Lemma frame_next l e ps r k m mr : mr !! l = None -> mr !! e = None -> m ##ₘ mr ->
  mr ∪ frame l e ps (Some r) (S k) m = frame l e (ps ++ [Some r]) None k (m ∪ mr).
Proof.
  intros Hl He Hd. rewrite (map_union_comm mr) by (apply symmetry, frame_disjoint; done). unfold frame.
  rewrite <- !insert_union_l, <- app_assoc.
  by assert (zlen (ps ++ [Some r]) + 1 + Z.of_nat k = zlen ps + 1 + Z.of_nat (S k)) as -> by zl.
Qed.

(** The slot of the current task can be filled. *)
Lemma ctx_link rest t m r : ctx rest (idx t) None m -> exists m', ctx rest (idx t) (Some r) m' /\
  forall h, m ##ₘ h -> m' ##ₘ h /\ set_parent t (head rest) r (m ∪ h) = Some (m' ∪ h).
Proof.
  intros Hc. inversion Hc as [|pt rest' s l e vs ps k m1 m2 Hobj Hty Hel Hmax Ht Hne Hl He Hctx Hd]; subst.
  { exists ∅. split; [constructor|]. intros h _. split; [apply map_disjoint_empty_l | done]. }
  apply frame_disjoint in Hd as (H2l & H2e & Hd).
  exists (frame l e ps (Some r) k m1 ∪ m2). split.
  { eapply ctx_frame; try done. by apply frame_disjoint. }
  intros h [Hdf Hd2]%map_disjoint_union_l. apply frame_disjoint in Hdf as (Hhl & Hhe & Hdm). split.
  { apply map_disjoint_union_l. split; [by apply frame_disjoint | done]. }
  cbn [head]. rewrite <- !(assoc_L (∪)). by apply frame_link.
Qed.

(** The state of the parser owns the blocks [m]: those of the arrays in progress, and none
    when the reply is just beginning. *)
Definition owns (st : list rtask) (rep : option (vptr loc)) (m : heap) : Prop :=
  match st with
  | [] => exists l v, rep = Some (Obj l) /\ tree v l m
  | cur :: rest => type cur = -1 /\ ctx rest (idx cur) None m /\ rep = root_of rest
  end.

Lemma anext_cons (cur t : rtask) rest : anext (cur :: t :: rest) =
  if negb (type t =? REDIS_REPLY_ARRAY) then None
  else if idx cur =? i32 (elements t - 1) then anext (t :: rest)
  else if negb (idx cur <? elements t) then None
  else Some (mk_task (-1) (-1) (i32 (idx cur + 1)) (obj cur) (parent cur) :: t :: rest).
Proof. done. Qed.

(** Completing the current element: the next one is begun, or an array is finished, and
    perhaps those around it. *)
Lemma anext_owns rest : forall cur r v mr m, ctx rest (idx cur) (Some r) m -> tree v r mr -> mr ##ₘ m ->
  exists st, anext (cur :: rest) = Some st /\
    owns st (match rest with [] => Some (Obj r) | _ => root_of rest end) (mr ∪ m).
Proof.
  induction rest as [|t rest IH]; intros cur r v mr m Hc Ht Hd.
  { inversion Hc. subst. exists []. split; [done|]. exists r, v. by rewrite (right_id_L ∅ (∪)). }
  inversion Hc as [|t' rest' s l e vs ps k m1 m2 Hobj Hty Hel Hmax Hts Hne Hl He Hctx Hdf]; subst.
  apply map_disjoint_union_r in Hd as [Hd1 Hd2]. apply symmetry, frame_disjoint in Hd1 as (Hrl & Hre & Hdm).
  apply frame_disjoint in Hdf as (H2l & H2e & Hd12). rewrite (assoc_L (∪)).
  rewrite anext_cons, Hty, Z.eqb_refl, Hel. cbn [negb]. unfold INT_MAX in Hmax. zlen_pos.
  rewrite i32_small by (unfold INT_MIN, INT_MAX; lia). destruct k as [|k].
  - rewrite (proj2 (Z.eqb_eq _ _)) by lia.
    destruct (IH t l (VArray (zlen ps + 1 + Z.of_nat 0) (vs ++ v :: replicate 0 VHole)) (mr ∪ frame l e ps (Some r) 0 m1) m2)
      as (st & -> & Hown); [done | | |].
    + rewrite map_union_comm by (by apply symmetry, frame_disjoint).
      apply frame_tree; try done; [by apply trees_one | unfold INT_MAX; lia].
    + apply map_disjoint_union_l. split; [done | by apply frame_disjoint].
    + exists st. split; [done|]. destruct rest as [|t2 rest]; [cbn in Hown |- *; by rewrite Hobj | exact Hown].
  - rewrite (proj2 (Z.eqb_neq _ _)), (proj2 (Z.ltb_lt _ _)) by lia. cbn [negb]. eexists. split; [done|].
    split; [done|]. split; [|done]. cbn [idx]. rewrite i32_small by (unfold INT_MIN, INT_MAX; lia).
    replace (idx cur + 1) with (zlen (ps ++ [Some r])) by zl.
    rewrite frame_next by done. eapply ctx_frame; try done; try zl.
    + apply trees_app; [done | by apply trees_one | done].
    + by apply lookup_union_None.
    + by apply lookup_union_None.
    + apply frame_disjoint. split_and!; try done. by apply map_disjoint_union_l.
Qed.

(** A step keeps the ownership, beside the blocks [h] of others; a failure leaves what
    the error path can release. *)
Definition step_owns (o : option (outcome (W := heap) (Ob := loc))) (rep : option (vptr loc)) (h : heap) (m : heap) : Prop :=
  match o with
  | None => False
  | Some (Next st rep' inp w) => exists m', m' ##ₘ h /\ w = m' ∪ h /\ owns st rep' m'
  | Some (Starve st inp) => True
  | Some (Fail ty msg w) => w = m ∪ h
  end.

Lemma finish_owns cur rest rep inp c v m h : ctx rest (idx cur) None m -> rep = root_of rest -> m ##ₘ h ->
  created_ok cur (head rest) (m ∪ h) v c -> step_owns (finish cur rest rep inp c) rep h m.
Proof.
  intros Hc Hrep Hd Hcr. destruct c as [[w [[z|r]|]]|]; [done | | | done].
  - destruct Hcr as (mr & h' & Ht & Hd1 & Hd2 & Hset & ->).
    destruct (ctx_link rest cur m r Hc) as (m' & Hc' & Hlink). destruct (Hlink h Hd) as [Hd' Hset'].
    rewrite Hset in Hset'. injection Hset' as ->. apply map_disjoint_union_r in Hd2 as [Hdm Hdh].
    destruct (anext_owns rest cur r v mr m' Hc' Ht Hdm) as (st & E & Hown).
    unfold finish. cbn [mbind option_bind]. rewrite E. cbn [mbind option_bind step_owns].
    exists (mr ∪ m'). split_and!; [by apply map_disjoint_union_l | by rewrite (assoc_L (∪)) |].
    rewrite Hrep. destruct rest; exact Hown.
  - by destruct Hcr as [-> _].
Qed.

Lemma can_link_ctx rest cur m h : ctx rest (idx cur) None m -> m ##ₘ h -> can_link cur (head rest) (m ∪ h).
Proof. intros Hc Hd r. destruct (ctx_link rest cur m r Hc) as (m' & _ & Hl). destruct (Hl h Hd) as [_ ->]. by eexists. Qed.

(** A new array without a push of its elements, whatever its announced size. *)
Lemma createArray_any t par n h : n <= INT_MAX -> can_link t par h ->
  exists v, created_ok t par h v (createArrayObject t par n h).
Proof.
  intros Hmax Hl. destruct (Z.leb_spec n 0); [eexists; by apply createEmpty_ok|].
  pose proof (createArray_ok t par n h ltac:(lia) Hl) as Hc. exists (VArray n (replicate (Z.to_nat n) VHole)).
  destruct (createArrayObject t par n h) as [[h1 [[z|r]|]]|]; try done.
  destruct Hc as (e & h' & Hne & Hr & He & Hset & Hr' & He' & ->).
  assert (zlen (replicate (Z.to_nat n) VHole) = n) as Hz by zl.
  pose proof (tree_array _ r e _ ∅ ltac:(rewrite Hz; lia) (trees_holes (Z.to_nat n)) Hne (lookup_empty _) (lookup_empty _)) as Ht.
  rewrite Hz in Ht. eexists _, h'. split_and!; [exact Ht | | | done |].
  - apply map_disjoint_insert_l. split; [done|]. apply map_disjoint_insert_l. split; [done | apply map_disjoint_empty_l].
  - apply map_disjoint_insert_l. split; [done|]. apply map_disjoint_insert_l. split; [done | apply map_disjoint_empty_l].
  - by rewrite <- !insert_union_l, (left_id_L ∅ (∪)).
Qed.

(** Beginning an array: its frame is added to those in progress. *)
Lemma push_owns cur rest rep inp k m h : ctx rest (idx cur) None m -> rep = root_of rest -> m ##ₘ h ->
  type cur = REDIS_REPLY_ARRAY -> 0 < k <= INT_MAX ->
  step_owns ('(w, o) ← createArrayObject cur (head rest) k (m ∪ h);
    match o with
    | None => Some (Fail REDIS_ERR_OOM oom_msg w)
    | Some o => Some (Next (mk_task (-1) (-1) 0 None (Some (zlen rest)) ::
                  mk_task (type cur) k (idx cur) (Some o) (parent cur) :: rest) (root_reply rest rep o) inp w)
    end) rep h m.
Proof.
  intros Hc Hrep Hd Hty Hk.
  pose proof (createArray_ok cur (head rest) k (m ∪ h) Hk (can_link_ctx rest cur m h Hc Hd)) as Hcr.
  destruct (createArrayObject cur (head rest) k (m ∪ h)) as [[w [[z|r]|]]|]; cbn [mbind option_bind step_owns] in *; try done.
  2: { by destruct Hcr as [-> _]. }
  destruct Hcr as (e & h' & Hne & Hr & He & Hset & Hr' & He' & ->).
  destruct (ctx_link rest cur m r Hc) as (m' & Hc' & Hlink). destruct (Hlink h Hd) as [Hd' Hset'].
  rewrite Hset in Hset'. injection Hset' as ->. apply lookup_union_None in Hr as [_ Hrh], He as [_ Heh].
  apply lookup_union_None in Hr' as [Hrm _], He' as [Hem _].
  assert (Z.to_nat k = S (Z.to_nat (k - 1))) as Hnat by lia.
  exists (frame r e [] None (Z.to_nat (k - 1)) ∅ ∪ m'). split_and!.
  - apply map_disjoint_union_l. split; [|done]. apply frame_disjoint. split_and!; try done. apply map_disjoint_empty_l.
  - unfold frame. cbn [app]. change (zlen (@nil (option loc))) with 0. rewrite Hnat. cbn [replicate].
    replace (0 + 1 + Z.of_nat (Z.to_nat (k - 1))) with k by lia.
    by rewrite <- !insert_union_l, (left_id_L ∅ (∪)).
  - split; [done|]. split.
    + change (ctx (mk_task (type cur) k (idx cur) (Some (Obj r)) (parent cur) :: rest) (zlen (@nil (option loc))) None
        (frame r e [] None (Z.to_nat (k - 1)) ∅ ∪ m')).
      eapply (ctx_frame _ rest None r e [] [] (Z.to_nat (k - 1)) ∅ m'); try done;
        [cbn [elements]; change (zlen (@nil (option loc))) with 0; lia | cbn [elements]; lia | constructor |].
      apply frame_disjoint. split_and!; try done. apply map_disjoint_empty_l.
    + rewrite Hrep. by destruct rest.
Qed.

Abbreviation dfn := (Some defaultFunctions).

Lemma astep_owns st rep inp m h : owns st rep m -> st <> [] -> m ##ₘ h -> counts_ok inp ->
  step_owns (astep dfn st rep inp (m ∪ h)) rep h m.
Proof.
  intros Hown Hne Hd Hcnt. destruct st as [|cur rest]; [done|]. destruct Hown as (Hty & Hc & Hrep). cbn [astep].
  rewrite Hty. cbn [Z.ltb Z.compare]. destruct inp as [|c inp]; [done|]. destruct (type_of_byte c) as [ty|] eqn:Ec; [|done].
  assert (forall n, find_crlf inp = Some n -> is_Some (readLongLong inp)) as Hrll
    by (intros n Hn; by destruct (readLongLong_app inp [] n Hn)).
  pose proof (can_link_ctx rest (set_type cur ty) m h Hc Hd) as Hlink.
  assert (forall inp' v c', created_ok (set_type cur ty) (head rest) (m ∪ h) v c' ->
    step_owns (finish (set_type cur ty) rest rep inp' c') rep h m) as Hfin by (intros; by eapply finish_owns).
  apply type_of_byte_spec in Ec as Hkind. unfold atyped.
  destruct Hkind as [Hline | [Hstr | [Harr Hc42]]].
  - assert ((type (set_type cur ty) =? REDIS_REPLY_ERROR) || (type (set_type cur ty) =? REDIS_REPLY_STATUS) ||
      (type (set_type cur ty) =? REDIS_REPLY_INTEGER) = true) as -> by (cbn; by destruct Hline as [-> | [-> | ->]]).
    unfold aline. destruct (find_crlf inp) as [n|] eqn:En; [|done]. destruct (Hrll n eq_refl) as [v ->].
    cbn [mbind option_bind fn_of create defaultFunctions createInteger createString].
    destruct (Z.eqb_spec (type (set_type cur ty)) REDIS_REPLY_INTEGER) as [|Hni]; eapply Hfin; [by apply createInteger_ok|].
    apply createString_ok; [|done]. unfold string_type. cbn in *. destruct Hline as [-> | [-> | ->]]; [auto | auto | done].
  - subst ty. cbn [type set_type]. cbn [Z.eqb Pos.eqb orb REDIS_REPLY_ERROR REDIS_REPLY_STATUS REDIS_REPLY_INTEGER REDIS_REPLY_STRING].
    unfold abulk. destruct (find_crlf inp) as [n|] eqn:En; [|done]. destruct (Hrll n eq_refl) as [v ->].
    cbn [mbind option_bind fn_of create defaultFunctions createNil createString].
    destruct (v <? 0); [eapply Hfin; by apply createNil_ok|]. destruct (_ <=? _); [|done].
    eapply Hfin. apply createString_ok; [by left | done].
  - subst ty c. cbn [type set_type]. cbn [Z.eqb Pos.eqb orb REDIS_REPLY_ERROR REDIS_REPLY_STATUS REDIS_REPLY_INTEGER REDIS_REPLY_STRING REDIS_REPLY_ARRAY].
    unfold amulti. destruct (_ =? 8); [done|]. destruct (find_crlf inp) as [n|] eqn:En; [|done].
    destruct (Hrll n eq_refl) as [v Hv]. rewrite Hv. pose proof (Hcnt [] inp v eq_refl Hv) as Hmax.
    cbn [mbind option_bind fn_of create defaultFunctions createNil createArray].
    destruct (v =? -1); [eapply Hfin; by apply createNil_ok|]. unfold INT_MAX in Hmax.
    destruct (Z.ltb_spec 0 v).
    + rewrite i32_small by (unfold INT_MIN, INT_MAX; lia).
      by apply (push_owns (set_type cur REDIS_REPLY_ARRAY)).
    + pose proof (swrap_range 32 v ltac:(lia)).
      destruct (createArray_any (set_type cur REDIS_REPLY_ARRAY) (head rest) (i32 v) (m ∪ h)) as [x Hx];
        [unfold INT_MAX; lia | done |]. by eapply Hfin.
Qed.

(** What is left of the input is a part of it. *)
Lemma atyped_suffix cur rest rep inp (w : heap) st rep' inp' w' :
  atyped dfn cur rest rep inp w = Some (Next st rep' inp' w') -> exists k, inp' = drop k inp.
Proof.
  unfold atyped. destruct (_ || _); [|destruct (_ =? _); [|destruct (_ =? _); [|done]]].
  - unfold aline. destruct (find_crlf inp) as [n|]; [|done]. intros ->%finish_consumes. by eexists.
  - unfold abulk. destruct (find_crlf inp) as [n|]; [|done].
    destruct (readLongLong inp) as [l|]; [|done]. cbn [mbind option_bind].
    destruct (l <? 0); [intros ->%finish_consumes; by eexists|].
    destruct (_ <=? _); [|done]. intros ->%finish_consumes. by eexists.
  - unfold amulti. destruct (_ =? 8); [done|]. destruct (find_crlf inp) as [n|]; [|done].
    destruct (readLongLong inp) as [l|]; [|done]. cbn [mbind option_bind].
    destruct (l =? -1); [intros ->%finish_consumes; by eexists|].
    destruct (0 <? l); [|intros ->%finish_consumes; by eexists].
    destruct (create _ _ _ _) as [[? [o|]]|]; cbn [mbind option_bind]; [|done..]. intros [= _ _ <- _]. by eexists.
Qed.

Lemma astep_counts st rep inp (w : heap) st' rep' inp' w' : counts_ok inp ->
  astep dfn st rep inp w = Some (Next st' rep' inp' w') -> counts_ok inp'.
Proof.
  intros Hc. destruct st as [|cur rest]; [done|]. cbn [astep]. destruct (type cur <? 0).
  - destruct inp as [|c inp]; [done|]. destruct (type_of_byte c); [|done]. intros [k ->]%atyped_suffix.
    apply counts_ok_drop. apply (counts_ok_drop (c :: inp) 1 Hc).
  - intros [k ->]%atyped_suffix. by apply counts_ok_drop.
Qed.

(** The replies handed out are trees of their own, made of the blocks [m]. *)
Definition replies (outs : list (vptr loc)) (vs : list value) (m : heap) : Prop :=
  exists ls, outs = map Obj ls /\ trees vs (map Some ls) m.

(** What the heap holds in the end: the replies handed out, the one in progress, and the
    blocks [h] there were before; nothing else. *)
Definition accounted (outs : list (vptr loc)) (d : pstate (Ob := loc) (W := heap)) (h : heap) : Prop :=
  exists vs mo, replies outs vs mo /\ mo ##ₘ h /\
  match d with
  | Dead _ _ w => w = mo ∪ h
  | Live _ rep _ w =>
      exists mp, mp ##ₘ mo ∪ h /\ w = mp ∪ (mo ∪ h) /\
        match rep with None => mp = ∅ | Some (Obj l) => exists v, tree v l mp | Some (Cast _) => False end
  end.

Lemma accounted_cons l v m outs d h : tree v l m -> m ##ₘ h -> accounted outs d (m ∪ h) -> accounted (Obj l :: outs) d h.
Proof.
  intros Ht Hd (vs & mo & (ls & -> & Hts) & Hdo & Hw). apply map_disjoint_union_r in Hdo as [Hdm Hdh].
  exists (v :: vs), (m ∪ mo). split_and!.
  - exists (l :: ls). split; [done|]. by constructor.
  - by apply map_disjoint_union_l.
  - assert (mo ∪ (m ∪ h) = (m ∪ mo) ∪ h) as E by (by rewrite (assoc_L (∪)), (map_union_comm mo m)).
    rewrite E in Hw. exact Hw.
Qed.

Lemma owns_rest cur rest rep m : owns (cur :: rest) rep m ->
  match rep with None => m = ∅ | Some (Obj l) => exists v, tree v l m | Some (Cast _) => False end.
Proof.
  intros (_ & Hc & ->). destruct rest as [|t rest]; [by inversion Hc|].
  destruct (ctx_hole _ _ _ Hc ltac:(done)) as (l & v & -> & Ht). eauto.
Qed.

Lemma accounted_free rep m h : m ##ₘ h ->
  match rep with None => m = ∅ | Some (Obj l) => exists v, tree v l m | Some (Cast _) => False end ->
  free_reply dfn rep (m ∪ h) = Some h.
Proof.
  intros Hd Hr. unfold free_reply. cbn [fn_of mbind option_bind defaultFunctions freeObject].
  destruct rep as [[z|l]|]; [done | | by rewrite Hr, (left_id_L ∅ (∪))].
  destruct Hr as [v Ht]. by apply (freeReplyObject_tree v).
Qed.

Lemma accounted_nil d h : match d with
    | Dead _ _ w => w = h
    | Live _ rep _ w => exists mp, mp ##ₘ h /\ w = mp ∪ h /\
        match rep with None => mp = ∅ | Some (Obj l) => exists v, tree v l mp | Some (Cast _) => False end
    end -> accounted [] d h.
Proof.
  intros Hd. exists [], ∅. split; [by exists []; split; [|constructor]|]. rewrite !(left_id_L ∅ (∪)).
  split; [apply map_disjoint_empty_l | exact Hd].
Qed.

(** Whatever the server sends and whenever memory runs out, the parser is defined and the
    heap is accounted for. *)
Lemma pump_accounted f : forall st rep inp m h, owns st rep m -> st <> [] -> m ##ₘ h -> counts_ok inp ->
  (length inp < f)%nat -> exists outs d, pump dfn f st rep inp (m ∪ h) = Some (outs, d) /\ accounted outs d h.
Proof.
  induction f as [|f IH]; intros st rep inp m h Hown Hne Hd Hc Hf; [lia|]. cbn [pump].
  pose proof (astep_owns st rep inp m h Hown Hne Hd Hc) as Hs.
  destruct st as [|cur rest]; [done|]. pose proof (owns_rest cur rest rep m Hown) as Hrest.
  destruct (astep dfn (cur :: rest) rep inp (m ∪ h)) as [[st' inp'|st' rep' inp' w'|ty msg w']|] eqn:Ea;
    cbn [mbind option_bind step_owns] in *; [| | |done].
  - eexists _, _. split; [done|]. apply accounted_nil. by exists m.
  - destruct Hs as (m' & Hd' & -> & Hown'). pose proof (astep_counts _ _ _ _ _ _ _ _ Hc Ea) as Hc'.
    apply astep_consumes in Ea. destruct st' as [|cur' rest'].
    + destruct Hown' as (l & v & -> & Ht).
      destruct (IH [root_task] None inp' ∅ (m' ∪ h)) as (outs & d & E & Ha); try done.
      { split; [done|]. split; [constructor | done]. }
      { apply map_disjoint_empty_l. }
      { lia. }
      rewrite (left_id_L ∅ (∪)) in E. rewrite E. cbn [mbind option_bind].
      eexists _, _. split; [done|]. by eapply accounted_cons.
    + apply IH; try done. lia.
  - subst w'. rewrite (accounted_free rep m h Hd Hrest). cbn [mbind option_bind].
    eexists _, _. split; [done|]. by apply accounted_nil.
Qed.


(** *** Releasing everything *)

(** The client gives back the replies it was handed, in order. *)
Fixpoint release (outs : list (vptr loc)) (h : heap) : option heap :=
  match outs with
  | [] => Some h
  | o :: outs' => h' ← free_vptr o h; release outs' h'
  end.

Lemma release_trees vs ls : forall m h, trees vs (map Some ls) m -> m ##ₘ h -> release (map Obj ls) (m ∪ h) = Some h.
Proof.
  revert vs. induction ls as [|l ls IH]; intros vs m h Ht Hd; inversion Ht; subst; cbn [map release].
  - by rewrite (left_id_L ∅ (∪)).
  - apply map_disjoint_union_l in Hd as [Hd1 Hd2]. cbn [free_vptr]. rewrite <- (assoc_L (∪)).
    erewrite freeReplyObject_tree; [| done | by apply map_disjoint_union_r]. cbn [mbind option_bind]. by eapply IH.
Qed.

Lemma release_replies outs vs m h : replies outs vs m -> m ##ₘ h -> release outs (m ∪ h) = Some h.
Proof. intros (ls & -> & Ht) Hd. by eapply release_trees. Qed.

(** The heap after the parser stopped, and after the reply in progress was given back. *)
Definition settled (d : pstate (Ob := loc) (W := heap)) : option heap :=
  match d with Live _ rep _ w => free_reply dfn rep w | Dead _ _ w => Some w end.

Lemma accounted_settled outs d h : accounted outs d h -> exists vs mo,
  replies outs vs mo /\ mo ##ₘ h /\ settled d = Some (mo ∪ h).
Proof.
  intros (vs & mo & Hr & Hd & Hw). exists vs, mo. split_and!; try done.
  destruct d as [st rep inp w|ty msg w]; cbn [settled]; [|by subst].
  destruct Hw as (mp & Hdp & -> & Hrep). by apply accounted_free.
Qed.

Lemma parser_accounted inp h : counts_ok inp ->
  exists outs d, pump_all dfn [root_task] None inp h = Some (outs, d) /\ accounted outs d h.
Proof.
  intros Hc. destruct (pump_accounted (S (length inp)) [root_task] None inp ∅ h) as (outs & d & E & Ha); try done; try lia.
  - split; [done|]. split; [constructor | done].
  - apply map_disjoint_empty_l.
  - rewrite (left_id_L ∅ (∪)) in E. eauto.
Qed.

(** Whatever the server sends, whatever allocations fail and wherever the input stops,
    the parser with the default reply functions makes no invalid access, and every block it
    allocated belongs to a reply it handed out or to the one in progress: giving back both
    leaves the heap as it was. *)
Theorem parser_no_leak (inp : bytes) (h : heap) (Hcounts : counts_ok inp) :
  exists outs d w, pump_all dfn [root_task] None inp h = Some (outs, d) /\ settled d = Some w /\
    release outs w = Some h.
Proof.
  destruct (parser_accounted inp h Hcounts) as (outs & d & E & Ha).
  destruct (accounted_settled _ _ _ Ha) as (vs & mo & Hr & Hd & Hs).
  exists outs, d, (mo ∪ h). split_and!; try done. by eapply release_replies.
Qed.

(** C22: the same of the code: a reader of [redisReaderCreate], fed any input whose array
    headers fit an [int], valid or not, in any pieces and as long as memory can be allocated,
    hands out replies such that [redisReaderFree] on the reader and [freeReplyObject] on each
    of them release exactly what was allocated. *)
Theorem reader_no_leak (r : redisReader loc) (chunks : list bytes) (h : heap)
    (Hmem : has_memory) (Hnew : redisReaderCreate true = Some (Some r))
    (Hfit : Sds.fits (zlen (concat chunks))) (Hcounts : counts_ok (concat chunks)) :
  exists outs r' w w', consume dfn r chunks h = Some (outs, r', w) /\
    redisReaderFree dfn r' w = Some w' /\ release outs w' = Some h.
Proof.
  destruct (parser_accounted (concat chunks) h Hcounts) as (outs & d & E & Ha).
  destruct (accounted_settled _ _ _ Ha) as (vs & mo & Hr & Hd & Hs).
  pose proof (consume_spec dfn r chunks h Hmem Hnew Hfit) as Ho. rewrite E in Ho.
  destruct (consume dfn r chunks h) as [[[outs' r'] w]|]; [|by destruct d].
  exists outs, r', w, (mo ∪ h). split_and!; [| | by eapply release_replies];
    destruct d; cbn in Ho, Hs; injection Ho; congruence.
Qed.

(** ** What a server sends *)

(** The protocol's text of a value: the bytes that stand for it on the wire. *)
Fixpoint resp (v : value) : bytes :=
  match v with
  | VString ty s =>
      if ty =? REDIS_REPLY_STRING then 36 :: dec (zlen s) ++ CRLF ++ s ++ CRLF
      else (if ty =? REDIS_REPLY_STATUS then 43 else 45) :: s ++ CRLF
  | VInt z => 58 :: sdec z ++ CRLF
  | VNil => bstr "$-1" ++ CRLF
  | VArray n vs => 42 :: dec n ++ CRLF ++ flat_map resp vs
  | VHole => []
  end.

(** Values that the protocol can express, with arrays at most [room] deep: the text of a
    status or an error holds no line end, numbers and sizes fit their C types. *)
Fixpoint sendable (room : nat) (v : value) : Prop :=
  match v with
  | VString ty s =>
      if ty =? REDIS_REPLY_STRING then zlen s <= INT_MAX
      else (ty = REDIS_REPLY_STATUS \/ ty = REDIS_REPLY_ERROR) /\ find_crlf s = None
  | VInt z => Z.abs z <= LONG_MAX
  | VNil => True
  | VArray n vs =>
      n = zlen vs /\ n <= INT_MAX /\
      match room with O => False | S k => Forall (sendable k) vs end
  | VHole => False
  end.

Lemma find_crlf_line s k : find_crlf s = None -> find_crlf (s ++ CRLF ++ k) = Some (zlen s).
Proof.
  induction s as [|c s IH]; [done|]. cbn [find_crlf app]. destruct (_ && _) eqn:E; [done|]. intros Hn.
  rewrite IH by (by destruct (find_crlf s)). rewrite zlen_cons.
  assert ((c =? CR) && match s ++ CRLF ++ k with d :: _ => d =? LF | [] => false end = false) as ->.
  { destruct s as [|d s]; [|exact E]. destruct (c =? CR); done. }
  cbn. f_equal. lia.
Qed.

Lemma find_crlf_no_CR s : CR ∉ s -> find_crlf s = None.
Proof.
  intros Hs. pose proof (find_crlf_skip s [] Hs) as E. by rewrite app_nil_r in E.
Qed.

(** The digits of a number, read back. *)
Lemma rll_dec n mult k : 0 <= n <= LONG_MAX -> mult = 1 \/ mult = -1 ->
  rll_loop (dec n ++ CR :: k) mult 0 = Some (mult * n).
Proof.
  intros Hn Hm.
  assert (forall n, 0 <= n -> n <= LONG_MAX -> forall k, rll_loop (dec n ++ k) mult 0 = rll_loop k mult n) as Hgo.
  { clear n k Hn. apply (dec_ind (fun n => n <= LONG_MAX -> forall k, rll_loop (dec n ++ k) mult 0 = rll_loop k mult n)).
    - intros n Hn _ k. rewrite dec_small by done. cbn [app rll_loop]. unfold CR, is_digit.
      rewrite (proj2 (Z.eqb_neq _ _)), (proj2 (Z.leb_le 48 _)), (proj2 (Z.leb_le _ 57)) by lia. cbn [andb].
      f_equal. change (i64 (0 * 10)) with 0. rewrite i64_small; unfold LONG_MIN, LONG_MAX; lia.
    - intros n Hn IH Hmax k. pose proof (Z.div_mod n 10). pose proof (Z.mod_pos_bound n 10).
      rewrite dec_step, <- app_assoc by done. rewrite IH by lia. cbn [app rll_loop]. unfold CR, is_digit.
      rewrite (proj2 (Z.eqb_neq _ _)), (proj2 (Z.leb_le 48 _)), (proj2 (Z.leb_le _ 57)) by lia. cbn [andb].
      f_equal. unfold LONG_MAX in Hmax. rewrite !i64_small; unfold LONG_MIN, LONG_MAX; try lia;
      rewrite i64_small; unfold LONG_MIN, LONG_MAX; lia. }
  rewrite Hgo by lia. cbn [rll_loop]. rewrite Z.eqb_refl. rewrite i64_small; [done|]. unfold LONG_MIN, LONG_MAX in *. lia.
Qed.

Lemma readLongLong_dec n k : 0 <= n <= LONG_MAX -> readLongLong (dec n ++ CRLF ++ k) = Some n.
Proof.
  intros Hn. assert (rll_loop (dec n ++ CRLF ++ k) 1 0 = Some n) as E.
  { change (CRLF ++ k) with (CR :: LF :: k). rewrite rll_dec by auto. f_equal. lia. }
  pose proof (dec_digits n ltac:(lia)) as Hd. pose proof (dec_not_nil n ltac:(lia)) as Hne.
  destruct (dec n) as [|c l]; [done|]. inversion Hd as [|? ? Hc _]; subst. unfold is_digit in Hc.
  cbn [app] in E |- *. unfold readLongLong. destruct (decide (c = 45)) as [->|]; [done|]. destruct (decide (c = 43)) as [->|]; [done|].
  repeat case_match; done.
Qed.

Lemma readLongLong_sdec z k : Z.abs z <= LONG_MAX -> readLongLong (sdec z ++ CRLF ++ k) = Some z.
Proof.
  intros Hz. unfold sdec. destruct (Z.ltb_spec z 0); [|apply readLongLong_dec; lia].
  cbn [app readLongLong]. change (CRLF ++ k) with (CR :: LF :: k). rewrite rll_dec by (lia || auto). f_equal. lia.
Qed.

Lemma sdec_no_CR z : CR ∉ sdec z.
Proof.
  unfold sdec. destruct (Z.ltb_spec z 0); [|by apply dec_no_CR].
  rewrite not_elem_of_cons. split; [done | apply dec_no_CR; lia].
Qed.

(** *** Reading it back *)

(** The parser goes on from a state between two items. *)
Definition cont (st : list rtask) (rep : option (vptr loc)) (inp : bytes) (w : heap) :
    option (list (vptr loc) * pstate (Ob := loc) (W := heap)) :=
  match st, rep with
  | [], None => None
  | [], Some v => '(outs, d) ← pump_all dfn [root_task] None inp w; Some (v :: outs, d)
  | _ :: _, _ => pump_all dfn st rep inp w
  end.

Lemma pump_all_step st rep inp w st' rep' inp' w' : astep dfn st rep inp w = Some (Next st' rep' inp' w') ->
  pump_all dfn st rep inp w = cont st' rep' inp' w'.
Proof.
  intros E. pose proof (astep_consumes _ _ _ _ _ _ _ _ _ E) as Hl.
  unfold pump_all at 1. cbn [pump]. rewrite E. cbn [mbind option_bind]. unfold cont, pump_all.
  destruct st' as [|t st'].
  - destruct rep'; [|done]. by rewrite (pump_fuel _ (length inp) (S (length inp'))) by lia.
  - by rewrite (pump_fuel _ (length inp) (S (length inp'))) by lia.
Qed.

(** The item of the task [cur] is complete, its object is at [r]. *)
Definition after (cur : rtask) (rest : list rtask) rep (r : loc) (inp : bytes) (w : heap) :=
  st ← anext (cur :: rest); cont st (root_reply rest rep (Obj r)) inp w.

(** The input [t] in front of [k] is read as the item [v] of the task [cur]: its tree is built
    beside the heap, linked to its parent, and the parser goes on with [k]. *)
Definition reads (v : value) (cur : rtask) (rest : list rtask) rep (t k : bytes) (w : heap) : Prop :=
  exists cur' r m w', idx cur' = idx cur /\ tree v r m /\ m ##ₘ w' /\
    set_parent cur (head rest) r w = Some w' /\
    pump_all dfn (cur :: rest) rep (t ++ k) w = after cur' rest rep r k (m ∪ w').

Hypothesis Hmem : has_memory.

(** Items that are complete at once. *)
Lemma reads_leaf v cur rest rep t k w cur' c :
  idx cur' = idx cur -> created_ok cur' (head rest) w v c ->
  astep dfn (cur :: rest) rep (t ++ k) w = finish cur' rest rep k c -> is_Some (anext (cur' :: rest)) ->
  reads v cur rest rep t k w.
Proof.
  intros Hi Hc E [st Hst]. destruct c as [[w1 [[z|r]|]]|]; try done.
  2: { destruct Hc as [_ [n Hn]]. by rewrite Hmem in Hn. }
  destruct Hc as (m & w' & Ht & Hd & Hd' & Hset & ->). unfold finish in E. cbn [mbind option_bind] in E. rewrite Hst in E.
  exists cur', r, m, w'. split_and!; try done.
  - unfold set_parent in *. by rewrite <- Hi.
  - unfold after. rewrite Hst. by apply pump_all_step.
Qed.

(** The current task has a place in its parent. *)
Definition placed (cur : rtask) (rest : list rtask) (w : heap) : Prop :=
  type cur = -1 /\ can_link cur (head rest) w /\ forall cur', idx cur' = idx cur -> is_Some (anext (cur' :: rest)).

Lemma can_link_idx t t' par w : idx t' = idx t -> can_link t par w -> can_link t' par w.
Proof. intros Hi Hl r. destruct (Hl r) as [w' E]. exists w'. unfold set_parent in *. by rewrite Hi. Qed.

Lemma reads_line v cur rest rep c ty s k w : placed cur rest w -> type_of_byte c = Some ty -> find_crlf s = None ->
  ((ty = REDIS_REPLY_STATUS \/ ty = REDIS_REPLY_ERROR) /\ v = VString ty s \/
   ty = REDIS_REPLY_INTEGER /\ exists z, v = VInt z /\ readLongLong (s ++ CRLF ++ k) = Some z) ->
  reads v cur rest rep (c :: s ++ CRLF) k w.
Proof.
  intros (Hty & Hl & Ha) Hc Hs Hv.
  assert (can_link (set_type cur ty) (head rest) w) as Hl' by (by eapply can_link_idx).
  eapply (reads_leaf v cur rest rep _ k w (set_type cur ty) (if ty =? REDIS_REPLY_INTEGER then
    z ← readLongLong (s ++ CRLF ++ k); createIntegerObject (set_type cur ty) (head rest) z w
    else createStringObject (set_type cur ty) (head rest) s w)); [done | | | by apply Ha].
  - destruct Hv as [[Hty2 ->]|[-> (z & -> & ->)]].
    + rewrite (proj2 (Z.eqb_neq _ _)) by (by destruct Hty2 as [-> | ->]).
      apply (createString_ok (set_type cur ty)); [|done]. right. exact Hty2.
    + by apply createInteger_ok.
  - cbn [app astep]. rewrite Hty, Hc. cbn [Z.ltb Z.compare]. unfold atyped. cbn [type set_type].
    assert ((ty =? REDIS_REPLY_ERROR) || (ty =? REDIS_REPLY_STATUS) || (ty =? REDIS_REPLY_INTEGER) = true) as ->
      by (by destruct Hv as [[[-> | ->] _]|[-> _]]).
    unfold aline. rewrite <- app_assoc, find_crlf_line by done. cbn [type set_type].
    rewrite drop_app_ge, (take_app_exact s) by (unfold zlen; lia).
    replace (Z.to_nat (zlen s + 2) - length s)%nat with 2%nat by (unfold zlen; lia).
    destruct (ty =? REDIS_REPLY_INTEGER); [|done]. by destruct (readLongLong _).
Qed.

Lemma reads_bulk cur rest rep s k w : placed cur rest w -> zlen s <= INT_MAX ->
  reads (VString REDIS_REPLY_STRING s) cur rest rep (36 :: dec (zlen s) ++ CRLF ++ s ++ CRLF) k w.
Proof.
  intros (Hty & Hl & Ha) Hs. set (cur' := set_type cur REDIS_REPLY_STRING).
  eapply (reads_leaf _ cur rest rep _ k w cur' (createStringObject cur' (head rest) s w)); [done | | | by apply Ha].
  { apply (createString_ok cur'); [by left | by eapply can_link_idx]. }
  cbn [app astep]. rewrite Hty. cbn [Z.ltb Z.compare type_of_byte Z.eqb Pos.eqb]. fold cur'. unfold atyped.
  change (type cur') with REDIS_REPLY_STRING.
  cbn [Z.eqb Pos.eqb orb REDIS_REPLY_ERROR REDIS_REPLY_STATUS REDIS_REPLY_INTEGER REDIS_REPLY_STRING].
  unfold abulk. rewrite <- app_assoc, <- (app_assoc CRLF). pose proof (zlen_nonneg s) as Hp. unfold INT_MAX in Hs.
  rewrite find_crlf_line by (apply find_crlf_no_CR, dec_no_CR; lia). rewrite readLongLong_dec by (unfold LONG_MAX; lia).
  cbn [mbind option_bind]. rewrite (proj2 (Z.ltb_ge _ _)) by lia. rewrite (proj2 (Z.leb_le _ _)) by (unfold CRLF; zl).
  rewrite !(drop_app_ge (dec (zlen s))) by (unfold zlen; lia).
  replace (Z.to_nat (zlen (dec (zlen s)) + 2) - length (dec (zlen s)))%nat with 2%nat by (unfold zlen; lia).
  replace (Z.to_nat (zlen (dec (zlen s)) + 2 + zlen s + 2) - length (dec (zlen s)))%nat
    with (2 + (length s + 2))%nat by (unfold zlen; lia).
  rewrite <- app_assoc. change (drop 2 (CRLF ++ ?x)) with x. rewrite take_app_exact by (unfold zlen; lia).
  change (drop (2 + ?n) (CRLF ++ ?x)) with (drop n x). rewrite drop_app_ge by lia.
  by rewrite (Nat.add_comm (length s)), Nat.add_sub.
Qed.

Lemma reads_nil cur rest rep k w : placed cur rest w -> reads VNil cur rest rep (bstr "$-1" ++ CRLF) k w.
Proof.
  intros (Hty & Hl & Ha). set (cur' := set_type cur REDIS_REPLY_STRING).
  eapply (reads_leaf _ cur rest rep _ k w cur' (createNilObject cur' (head rest) w)); [done | | | by apply Ha].
  { apply createNil_ok. by eapply can_link_idx. }
  cbn [app astep bstr map String.list_ascii_of_string]. rewrite Hty. done.
Qed.

(** The header of an array. *)
Lemma astep_header cur rest rep n k w : type cur = -1 -> 0 <= n <= INT_MAX -> zlen rest < 8 ->
  astep dfn (cur :: rest) rep (42 :: dec n ++ CRLF ++ k) w =
  let cur' := set_type cur REDIS_REPLY_ARRAY in
  if 0 <? n then
    '(w, o) ← createArrayObject cur' (head rest) n w;
    match o with
    | None => Some (Fail REDIS_ERR_OOM oom_msg w)
    | Some o => Some (Next (mk_task (-1) (-1) 0 None (Some (zlen rest)) ::
                  mk_task REDIS_REPLY_ARRAY n (idx cur) (Some o) (parent cur) :: rest) (root_reply rest rep o) k w)
    end
  else finish cur' rest rep k (createArrayObject cur' (head rest) n w).
Proof.
  intros Hty Hn Hr. cbn [app astep]. rewrite Hty. cbn [Z.ltb Z.compare type_of_byte Z.eqb Pos.eqb]. unfold atyped.
  cbn [type set_type Z.eqb Pos.eqb orb REDIS_REPLY_ERROR REDIS_REPLY_STATUS REDIS_REPLY_INTEGER REDIS_REPLY_STRING REDIS_REPLY_ARRAY].
  unfold amulti. rewrite (proj2 (Z.eqb_neq _ _)) by lia. unfold INT_MAX in Hn.
  rewrite find_crlf_line by (apply find_crlf_no_CR, dec_no_CR; lia). rewrite readLongLong_dec by (unfold LONG_MAX; lia).
  cbn [mbind option_bind]. rewrite (proj2 (Z.eqb_neq _ _)) by lia. rewrite i32_small by (unfold INT_MIN, INT_MAX; lia).
  rewrite drop_app_ge by (unfold zlen; lia).
  replace (Z.to_nat (zlen (dec n) + 2) - length (dec n))%nat with 2%nat by (unfold zlen; lia). done.
Qed.

Lemma reads_empty cur rest rep k w : placed cur rest w -> zlen rest < 8 ->
  reads (VArray 0 []) cur rest rep (42 :: dec 0 ++ CRLF) k w.
Proof.
  intros (Hty & Hl & Ha) Hr. set (cur' := set_type cur REDIS_REPLY_ARRAY).
  eapply (reads_leaf _ cur rest rep _ k w cur' (createArrayObject cur' (head rest) 0 w)); [done | | | by apply Ha].
  { apply createEmpty_ok; [done | by eapply can_link_idx]. }
  cbn [app]. rewrite <- app_assoc. rewrite astep_header by (done || lia). done.
Qed.

(** The elements that are left, one by one. *)
Lemma reads_elems l e pt rest rep vs :
  obj pt = Some (Obj l) -> type pt = REDIS_REPLY_ARRAY -> elements pt <= INT_MAX -> l <> e ->
  Forall (fun v => forall cur k w, placed cur (pt :: rest) w -> reads v cur (pt :: rest) rep (resp v) k w) vs ->
  forall cur vs0 ps m w k, vs <> [] -> type cur = -1 -> idx cur = zlen ps -> elements pt = zlen ps + zlen vs ->
  is_Some (anext (pt :: rest)) -> trees vs0 ps m -> m !! l = None -> m !! e = None -> w !! l = None -> w !! e = None -> m ##ₘ w ->
  exists m', tree (VArray (elements pt) (vs0 ++ vs)) l m' /\ m' ##ₘ w /\
    pump_all dfn (cur :: pt :: rest) rep (flat_map resp vs ++ k) (frame l e ps None (length vs - 1) m ∪ w) =
    (st ← anext (pt :: rest); cont st rep k (m' ∪ w)).
Proof.
  intros Hobj Hpt Hmax Hne Hall. unfold INT_MAX in Hmax.
  induction Hall as [|v vs Hv Hall IH]; intros cur vs0 ps m w k Hnn Hty Hi Hel Hnx Ht Hml Hme Hwl Hwe Hd; [done|].
  cbn [flat_map length]. rewrite Nat.sub_succ, Nat.sub_0_r, <- app_assoc. rewrite zlen_cons in Hel. pose proof (zlen_nonneg ps) as Hps.
  assert (zlen vs = Z.of_nat (length vs)) as Hzl by done.
  assert (forall cur', idx cur' = idx cur -> anext (cur' :: pt :: rest) = if decide (vs = []) then anext (pt :: rest) else
    Some (mk_task (-1) (-1) (zlen ps + 1) (obj cur') (parent cur') :: pt :: rest)) as Hanext.
  { intros cur' Hi'. rewrite anext_cons, Hpt, Z.eqb_refl, Hi', Hi, Hel. cbn [negb].
    rewrite i32_small by (unfold INT_MIN, INT_MAX; lia). destruct (decide (vs = [])) as [-> |Hvs].
    - by rewrite (proj2 (Z.eqb_eq _ _)) by (zl).
    - assert (length vs <> 0%nat) by (by destruct vs). rewrite (proj2 (Z.eqb_neq _ _)), (proj2 (Z.ltb_lt _ _)) by lia.
      cbn [negb]. by rewrite i32_small by (unfold INT_MIN, INT_MAX; lia). }
  destruct (Hv cur (flat_map resp vs ++ k) (frame l e ps None (length vs) m ∪ w)) as (cur' & r & mr & w' & Hi' & Htr & Hdr' & Hset & ->).
  { split; [done|]. split; [intros r; cbn [head]; by rewrite (frame_link _ _ l e ps) by done|].
    intros cur' Hi'. rewrite Hanext by done. by destruct (decide (vs = [])). }
  cbn [head] in Hset. rewrite (frame_link _ _ l e ps) in Hset by done. injection Hset as <-.
  unfold after. rewrite Hanext by done. cbn [root_reply].
  apply map_disjoint_union_r in Hdr' as [Hdf Hdw]. apply symmetry, frame_disjoint in Hdf as (Hrl & Hre & Hdm).
  rewrite (assoc_L (∪)). destruct (decide (vs = [])) as [-> |Hvs].
  - eexists. split_and!; [| |done].
    + rewrite map_union_comm by (by apply symmetry, frame_disjoint). rewrite Hel, zlen_nil.
      replace (zlen ps + (1 + 0)) with (zlen ps + 1 + Z.of_nat 0) by lia.
      apply (frame_tree l e vs0 ps (Some r) 0 m v mr); try done; [by apply trees_one | unfold INT_MAX; rewrite zlen_nil in *; lia].
    + apply map_disjoint_union_l. split; [done | by apply frame_disjoint].
  - cbn [mbind option_bind cont]. destruct (length vs) as [|j] eqn:Hj; [by destruct vs|].
    rewrite frame_next by done.
    destruct (IH (mk_task (-1) (-1) (zlen ps + 1) (obj cur') (parent cur')) (vs0 ++ [v]) (ps ++ [Some r]) (m ∪ mr) w k)
      as (m' & Htm & Hdm' & E); try done; [cbn [idx]; zl | zl | | | | |].
    + apply trees_app; [done | by apply trees_one | done].
    + by apply lookup_union_None.
    + by apply lookup_union_None.
    + by apply map_disjoint_union_l.
    + rewrite Nat.sub_succ, Nat.sub_0_r in E. exists m'. rewrite <- app_assoc in Htm. done.
Qed.

Lemma value_ind' (P : value -> Prop) : (forall ty s, P (VString ty s)) -> (forall z, P (VInt z)) -> P VNil ->
  (forall n vs, Forall P vs -> P (VArray n vs)) -> P VHole -> forall v, P v.
Proof.
  intros Hs Hi Hn Ha Hh. fix IH 1. intros [ty s|z| |n vs|]; [apply Hs | apply Hi | exact Hn | | exact Hh].
  apply Ha. induction vs as [|v vs IHvs]; constructor; [apply IH | exact IHvs].
Qed.

Lemma reads_array cur rest rep vs k w : placed cur rest w -> zlen rest < 8 -> zlen vs <= INT_MAX -> vs <> [] ->
  Forall (fun v => forall pt rep' cur' k' w', placed cur' (pt :: rest) w' -> reads v cur' (pt :: rest) rep' (resp v) k' w') vs ->
  reads (VArray (zlen vs) vs) cur rest rep (42 :: dec (zlen vs) ++ CRLF ++ flat_map resp vs) k w.
Proof.
  intros (Hty & Hl & Ha) Hr Hmax Hne Hall. unfold INT_MAX in Hmax. set (cur' := set_type cur REDIS_REPLY_ARRAY).
  assert (0 < zlen vs) as Hpos by (destruct vs; [done | zl]).
  pose proof (createArray_ok cur' (head rest) (zlen vs) w ltac:(unfold INT_MAX; lia) (can_link_idx cur cur' (head rest) w eq_refl Hl)) as Hc.
  pose proof (astep_header cur rest rep (zlen vs) (flat_map resp vs ++ k) w Hty ltac:(unfold INT_MAX; lia) Hr) as E.
  cbn zeta in E. rewrite (proj2 (Z.ltb_lt _ _)) in E by done. fold cur' in E.
  destruct (createArrayObject cur' (head rest) (zlen vs) w) as [[w1 [[z|l]|]]|]; try done.
  2: { destruct Hc as [_ [j Hj]]. by rewrite Hmem in Hj. }
  destruct Hc as (e & w' & Hle & Hwl & Hwe & Hset & Hwl' & Hwe' & ->). cbn [mbind option_bind] in E.
  set (pt := mk_task REDIS_REPLY_ARRAY (zlen vs) (idx cur) (Some (Obj l)) (parent cur)) in *.
  destruct (reads_elems l e pt rest (root_reply rest rep (Obj l)) vs eq_refl eq_refl ltac:(unfold INT_MAX; simpl; lia) Hle
    ltac:(eapply Forall_impl; [exact Hall | auto]) (mk_task (-1) (-1) 0 None (Some (zlen rest))) [] [] ∅ w' k) as (m & Ht & Hd & Ep);
    try done; [by apply Ha | constructor | apply map_disjoint_empty_l |].
  exists pt, l, m, w'. split_and!; try done. change ((42 :: dec (zlen vs) ++ CRLF ++ flat_map resp vs) ++ k) with (42 :: (dec (zlen vs) ++ CRLF ++ flat_map resp vs) ++ k).
  rewrite <- !app_assoc. rewrite (pump_all_step _ _ _ _ _ _ _ _ E). cbn [cont].
  unfold after. rewrite <- Ep. unfold frame. cbn [app]. rewrite <- !insert_union_l, (left_id_L ∅ (∪)).
  replace (Z.to_nat (zlen vs)) with (S (length vs - 1)) by (unfold zlen in *; lia).
  change (zlen (@nil (option loc))) with 0.
  by replace (0 + 1 + Z.of_nat (length vs - 1)) with (zlen vs) by (unfold zlen in *; lia).
Qed.

(** Every value that can be sent is read back. *)
Lemma reads_value v : forall room cur rest rep k w, sendable room v -> (Z.of_nat room + zlen rest <= 8) ->
  placed cur rest w -> reads v cur rest rep (resp v) k w.
Proof.
  induction v as [ty s|z| |n vs IH|] using value_ind'; intros room cur rest rep k w Hs Hr Hp; cbn [resp]; cycle 4.
  { by destruct room. }
  all: destruct room as [|room]; cbn [sendable] in Hs.
  all: try (destruct (Z.eqb_spec ty REDIS_REPLY_STRING) as [-> |]; [by apply reads_bulk|]; destruct Hs as [Hty Hs];
    apply (reads_line _ cur rest rep _ ty); [done | by destruct Hty as [-> | ->] | done | by left; split]).
  all: try (apply (reads_line _ cur rest rep 58 REDIS_REPLY_INTEGER); [done | done | apply find_crlf_no_CR, sdec_no_CR |];
    right; split; [done|]; exists z; split; [done | by apply readLongLong_sdec]).
  all: try (by apply reads_nil).
  { by destruct Hs as (_ & _ & []). }
  destruct Hs as (-> & Hmax & Hall). destruct (decide (vs = [])) as [-> |Hne].
  { cbn [flat_map]. rewrite app_nil_r. apply reads_empty; [done | lia]. }
  apply reads_array; try done; [lia|]. apply Forall_forall. intros v Hv pt rep' cur' k' w' Hp'.
  rewrite Forall_forall in IH, Hall. eapply (IH v Hv room); [by apply Hall | zl | done].
Qed.

Lemma pump_values vs : forall h, Forall (sendable 8) vs -> exists ls m,
  pump_all dfn [root_task] None (flat_map resp vs) h = Some (map Obj ls, Live [root_task] None [] (m ∪ h)) /\
  trees vs (map Some ls) m /\ m ##ₘ h.
Proof.
  induction vs as [|v vs IH]; intros h Hall.
  { exists [], ∅. split_and!; [by rewrite (left_id_L ∅ (∪)) | constructor | apply map_disjoint_empty_l]. }
  inversion Hall as [|? ? Hv Hvs]; subst. cbn [flat_map].
  destruct (reads_value v 8 root_task [] None (flat_map resp vs) h Hv ltac:(done)) as (cur' & r & m & w' & _ & Ht & Hd & Hset & ->).
  { split; [done|]. split; [by eexists|]. by eexists. }
  injection Hset as <-. unfold after. cbn [anext mbind option_bind cont root_reply].
  destruct (IH (m ∪ h) Hvs) as (ls & m2 & -> & Hts & Hd2). cbn [mbind option_bind].
  apply map_disjoint_union_r in Hd2 as [Hd2m Hd2h]. exists (r :: ls), (m ∪ m2). split_and!.
  - cbn [map]. do 2 f_equal. by rewrite (assoc_L (∪)), (map_union_comm m2 m).
  - by constructor.
  - by apply map_disjoint_union_l.
Qed.

Lemma consume_values r vs chunks h : redisReaderCreate true = Some (Some r) -> Sds.fits (zlen (concat chunks)) ->
  Forall (sendable 8) vs -> concat chunks = flat_map resp vs ->
  exists outs r' m, consume dfn r chunks h = Some (outs, r', m ∪ h) /\ err r' = 0 /\ replies outs vs m /\ m ##ₘ h.
Proof.
  intros Hnew Hfit Hvs Heq. destruct (pump_values vs h Hvs) as (ls & m & E & Ht & Hd).
  pose proof (consume_spec dfn r chunks h Hmem Hnew Hfit) as Ho. rewrite Heq, E in Ho.
  destruct (consume dfn r chunks h) as [[[outs' r'] w]|]; [|done].
  cbn [observe aobserve mbind option_bind] in Ho. injection Ho as -> He _ -> _.
  exists (map Obj ls), r', m. split_and!; try done. by exists ls.
Qed.

(** C2: what a server sends is what the client gets: a reader of [redisReaderCreate], fed the
    text of any sequence of replies cut into any pieces, hands out one object per reply, whose
    tree of heap blocks holds exactly the values sent, and touches no other block. The replies
    are those of [sendable]: arrays nested no deeper than the task array of the reader, and
    no null arrays. *)
Theorem reply_roundtrip (r : redisReader loc) (vs : list value) (chunks : list bytes) (h : heap)
    (Hnew : redisReaderCreate true = Some (Some r)) (Hfit : Sds.fits (zlen (concat chunks)))
    (Hsend : Forall (sendable 8) vs) (Heq : concat chunks = flat_map resp vs) :
  exists outs r' m, consume dfn r chunks h = Some (outs, r', m ∪ h) /\ err r' = 0 /\
    replies outs vs m /\ m ##ₘ h.
Proof. by apply consume_values. Qed.

(** The argument vector as the array of strings it is on the wire. *)
Definition args_value (strs : list bytes) : value := VArray (zlen strs) (map (VString REDIS_REPLY_STRING) strs).

Lemma resp_args strs : resp (args_value strs) = Format.encode strs.
Proof.
  cbn [resp args_value]. unfold Format.encode. do 3 f_equal.
  induction strs as [|s strs IH]; [done|]. cbn [map flat_map]. by rewrite IH.
Qed.

Lemma zlen_member (s : bytes) strs : s ∈ strs -> zlen s <= zlen (Format.encode strs).
Proof.
  intros Hs. rewrite Format.zlen_encode. apply list_elem_of_split in Hs as (a & b & ->).
  rewrite flat_map_app. cbn [flat_map]. unfold Format.bulk. zl.
Qed.

Lemma sendable_args strs : zlen (Format.encode strs) <= INT_MAX -> sendable 8 (args_value strs).
Proof.
  intros Hmax. cbn [sendable args_value]. split; [by rewrite zlen_map|]. split.
  - pose proof (Format.zlen_encode strs). pose proof (Format.zlen_strs strs). zl.
  - apply Forall_map, Forall_forall. intros s Hs. cbn. pose proof (zlen_member s strs Hs). lia.
Qed.

(** C29: the two halves of the client agree on the protocol: the text
    [redisFormatCommandArgv] writes for an argument vector, read by the reader in any pieces,
    comes back as one array of strings holding the arguments, binary ones included. *)
Theorem format_then_read (r : redisReader loc) (argv : list bytes) (argvlen : option (list Z)) (strs : list bytes)
    (n : Z) (cmd : bytes) (chunks : list bytes) (h : heap)
    (Hpass : Format.passed argv argvlen strs) (Hmax : Sds.fits (zlen (Format.encode strs)))
    (Hfmt : Format.redisFormatCommandArgv argv argvlen = Some (Some (n, cmd)))
    (Hnew : redisReaderCreate true = Some (Some r)) (Hsent : concat chunks = take (Z.to_nat n) cmd) :
  exists out r' m, consume dfn r chunks h = Some ([Obj out], r', m ∪ h) /\ err r' = 0 /\
    tree (args_value strs) out m /\ m ##ₘ h.
Proof.
  assert (zlen (Format.encode strs) < INT_MAX) as Hlt by (unfold Sds.fits, Sds.SDS_MAX_PREALLOC in Hmax; lia).
  rewrite (Format.redisFormatCommandArgv_text _ _ _ Hpass Hlt), Hmem in Hfmt.
  assert (n = zlen (Format.encode strs)) as -> by congruence. assert (cmd = Format.encode strs ++ [0]) as -> by congruence.
  rewrite take_app_exact in Hsent by (unfold zlen; lia).
  destruct (consume_values r [args_value strs] chunks h Hnew) as (outs & r' & m & E & He & (ls & -> & Ht) & Hd).
  - by rewrite Hsent.
  - constructor; [apply sendable_args; lia | constructor].
  - cbn [flat_map]. by rewrite app_nil_r, resp_args.
  - inversion Ht as [| |? ? l ps m1 m2 Htr Hnil Hdd Hv Hls]; subst. inversion Hnil; subst. destruct ls as [|l' [|]]; [done| |done].
    injection Hls as ->. exists l', r', m1. rewrite (right_id_L ∅ (∪)) in *. done.
Qed.

End Own.

(** C30: [freeReplyObject] releases exactly the blocks of the reply it is given, whatever its
    nesting: every block once, none of the other blocks [h], and the recursion ends. *)
Theorem freeReplyObject_exact (v : value) (l : loc) (m h : heap) (Htree : tree v l m) (Hsep : m ##ₘ h) :
  freeReplyObject (Some l) (m ∪ h) = Some h.
Proof. by apply (freeReplyObject_tree v). Qed.

(** ** Demonstrations *)

#[local] Existing Instance demo_memory.

Definition demo_reader_heap : redisReader loc :=
  mk_reader 0 [] (Some (Sds.mk_sds 0 0 [0])) 0 0 REDIS_READER_MAX_BUF (replicate 9 (mk_task 0 0 0 None None)) (-1) None.

Lemma demo_reader_create : redisReaderCreate true = Some (Some demo_reader_heap).
Proof. reflexivity. Qed.

Definition demo_values : list value :=
  [VArray 3 [VString REDIS_REPLY_STRING [0; 13; 10; 255]; VArray 2 [VInt (-42); VNil]; VArray 0 []];
   VString REDIS_REPLY_STATUS (bstr "OK"); VString REDIS_REPLY_ERROR (bstr "ERR no")].

(** The text of the demonstration values, cut in the middle of a length. *)
Definition demo_pieces : list bytes := [take 6 (flat_map resp demo_values); drop 6 (flat_map resp demo_values)].

Lemma demo_sendable : Forall (sendable 8) demo_values.
Proof.
  unfold demo_values. repeat (apply Forall_cons; split); [| | | constructor].
  - split_and!; [done..|]. repeat (apply Forall_cons; split); [done | | | constructor].
    + split_and!; [done..|]. repeat (apply Forall_cons; split); [done | done | constructor].
    + split_and!; [done..|]. constructor.
  - split; [by left | done].
  - split; [by right | done].
Qed.

Lemma reply_roundtrip_witness : exists outs r' m,
  consume (Some defaultFunctions) demo_reader_heap demo_pieces ∅ = Some (outs, r', m ∪ ∅) /\ err r' = 0 /\
  replies outs demo_values m /\ m ##ₘ ∅.
Proof.
  apply (reply_roundtrip demo_has_memory demo_reader_heap demo_values demo_pieces ∅ demo_reader_create).
  - done.
  - exact demo_sendable.
  - unfold demo_pieces. cbn [concat]. by rewrite app_nil_r, take_drop.
Defined.

Lemma format_then_read_witness : exists out r' m,
  consume (Some defaultFunctions) demo_reader_heap [Format.encode [bstr "GET"; [0; 13; 10]]] ∅ = Some ([Obj out], r', m ∪ ∅) /\
  err r' = 0 /\ tree (args_value [bstr "GET"; [0; 13; 10]]) out m /\ m ##ₘ ∅.
Proof.
  apply (format_then_read demo_has_memory demo_reader_heap _ _ [bstr "GET"; [0; 13; 10]] 22
    (Format.encode [bstr "GET"; [0; 13; 10]] ++ [0]) _ ∅ Format.demo_passed).
  - done.
  - vm_compute. reflexivity.
  - exact demo_reader_create.
  - vm_compute. reflexivity.
Defined.

(** An input that stops inside a nested array. *)
Definition demo_input : bytes := bstr "*2" ++ CRLF ++ bstr "*1" ++ CRLF ++ bstr ":".

Lemma demo_counts : counts_ok demo_input.
Proof.
  intros a b v E Hv. unfold demo_input in E. vm_compute in E.
  do 9 (destruct a as [|? a]; [injection E; intros; try discriminate; subst; vm_compute in Hv; injection Hv as <-; done|];
    injection E as <- E).
  by destruct a.
Qed.

(** An allocator that refuses the vector of the inner array. *)
Definition tight_memory : Memory := {| malloc_ok := fun n => negb (n =? 8); junk := 255 |}.

Lemma parser_no_leak_witness : exists outs d w,
  pump_all (Some (@defaultFunctions tight_memory)) [root_task] None demo_input ∅ = Some (outs, d) /\
  @settled tight_memory d = Some w /\ release outs w = Some ∅.
Proof. exact (@parser_no_leak tight_memory demo_input ∅ demo_counts). Defined.

Lemma reader_no_leak_witness : exists outs r' w w',
  consume (Some defaultFunctions) demo_reader_heap [take 5 demo_input; drop 5 demo_input] ∅ = Some (outs, r', w) /\
  redisReaderFree (Some defaultFunctions) r' w = Some w' /\ release outs w' = Some ∅.
Proof.
  apply (reader_no_leak demo_reader_heap _ ∅ demo_has_memory demo_reader_create); [done | exact demo_counts].
Defined.

Lemma freeReplyObject_exact_witness :
  freeReplyObject (Some 1%positive) (<[1%positive := string_reply REDIS_REPLY_STATUS [79] 2]> {[2%positive := BChars [79; 0]]} ∪
    {[3%positive := nil_reply]}) = Some {[3%positive := nil_reply]}.
Proof.
  apply (freeReplyObject_exact (VString REDIS_REPLY_STATUS [79])).
  - apply tree_string; [right; by left | done].
  - apply map_disjoint_insert_l. split; [done|]. by apply map_disjoint_singleton_l.
Defined.

End Reply.
