(* ===== verification/Frag.v ===== *)
(** Commands with several keys, hircluster.c: a command is cut into one command per hash
    slot of its keys ([command_pre_fragment], [command_format_by_slot]). *)
From S2P Require Import Prelude Crc16 HiUtil HiArray Format Command Sds Read.
Import HiUtil Command.

Open Scope Z_scope.

Module Frag.

Definition REDIS_CLUSTER_SLOTS : Z := 16384.

(** The [err] and [errstr] fields of the cluster context. *)
Abbreviation cerror := (Z * bytes)%type.

(** [__redisClusterSetError] with a text: at most 127 bytes of it are kept. *)
Definition set_error (type : Z) (str : bytes) : cerror := (type, take 127 str).

Definition oom_error : cerror := set_error Read.REDIS_ERR_OOM (bstr "Out of memory").

(** The bytes at a span of the text; [None] is an access outside of it. *)
Definition span (mem : bytes) (from to : Z) : option bytes :=
  if decide (0 <= from /\ from <= to /\ to <= zlen mem)
  then Some (take (Z.to_nat (to - from)) (drop (Z.to_nat from) mem)) else None.

Definition with_clen (r : cmd) (n : Z) : cmd :=
  mk_cmd (id r) (result r) (errstr r) (ctype r) (text r) n (keys r) (narg_start r) (narg_end r) (narg r)
    (quit r) (noforward r) (slot_num r).
Definition with_slot (r : cmd) (s : Z) : cmd :=
  mk_cmd (id r) (result r) (errstr r) (ctype r) (text r) (clen r) (keys r) (narg_start r) (narg_end r) (narg r)
    (quit r) (noforward r) s.
Definition with_type (r : cmd) (t : cmd_type) : cmd :=
  mk_cmd (id r) (result r) (errstr r) t (text r) (clen r) (keys r) (narg_start r) (narg_end r) (narg r)
    (quit r) (noforward r) (slot_num r).

Section Ops.
Context `{Memory}.

(** ** Distributing the keys *)

(** The local state of [command_pre_fragment]: the commands allocated so far ([subs] and
    [seq] point into them by index), the array [sub_commands] indexed by slot, the array
    [frag_seq] of the command, the variable [slot_num], and the counter behind
    [command_get]. *)
Record frag := mk_frag {
  store : list cmd;
  subs : list (option nat);
  seq : list (option nat);
  slot : Z;
  ids : Z;
}.

(** The [done] label is reached from this state with this [slot_num], after this error was
    set. *)
Abbreviation stop := (frag * Z * option cerror)%type.

(** [while(!isdigit( *p)) p++]. *)
Fixpoint skip_to_digit (l : bytes) (p : Z) : option (bytes * Z) :=
  match l with
  | [] => None
  | c :: l' => if is_digit c then Some (l, p) else skip_to_digit l' (p + 1)
  end.

(** [for (; isdigit( *p); p++) len = len * 10 + ...]. *)
Fixpoint read_len (l : bytes) (len p : Z) : option (Z * Z) :=
  match l with
  | [] => None
  | c :: l' => if is_digit c then read_len l' (u32 (len * 10 + (c - 48))) (p + 1) else Some (len, p)
  end.

(** What follows the key of a pair, up to the end of its value. *)
Definition remain (mem : bytes) (end_ : Z) : option Z :=
  '(l, p) ← skip_to_digit (drop (Z.to_nat (end_ + 1)) mem) (end_ + 1);
  '(len, p) ← read_len l 0 p;
  Some (u32 (u32 (len + 4) + (p - end_))).

Definition is_mset (t : cmd_type) : bool := match t with CMD_REQ_REDIS_MSET => true | _ => false end.

(** The command for a slot, created when its first key is met. *)
Definition sub_for (slot_num : Z) (st : frag) : option ((nat * frag) + stop) :=
  cell ← rd (subs st) slot_num;
  match cell with
  | Some q => Some (inl (q, st))
  | None =>
      match command_get (ids st) with
      | (None, i) => Some (inr (mk_frag (store st) (subs st) (seq st) slot_num i, -1, Some oom_error))
      | (Some c, i) =>
          let q := length (store st) in
          subs ← wr (subs st) slot_num (Some q);
          Some (inl (q, mk_frag (store st ++ [c]) subs (seq st) slot_num i))
      end
  end.

(** One round of the loop over the keys. *)
Definition frag_key (mem : bytes) (t : cmd_type) (i : Z) (kp : keypos) (st : frag) : option (frag + stop) :=
  key ← span mem (start kp) (end_ kp);
  let slot_num := Crc16.keyHashSlot key in
  if (slot_num <? 0) || (REDIS_CLUSTER_SLOTS <=? slot_num) then
    Some (inr (st, slot_num, Some (set_error Read.REDIS_ERR_OTHER (bstr "keyHashSlot return error"))))
  else
    r ← sub_for slot_num st;
    match r with
    | inr e => Some (inr e)
    | inl (q, st) =>
        seq ← wr (seq st) i (Some q);
        sub ← store st !! q;
        let sub := set_narg sub (narg_start sub) (narg_end sub) (u32 (narg sub + 1)) in
        match HiArray.hiarray_push malloc_ok (keys sub) with
        | None => Some (inr (mk_frag (<[q := sub]> (store st)) (subs st) seq slot_num (ids st), -1, Some oom_error))
        | Some (ks, j) =>
            let key_len := u32 (end_ kp - start kp) in
            let sub := with_clen sub (u32 (clen sub + u32 (key_len + _uint_len key_len))) in
            let sub := with_slot sub slot_num in
            rem ← (if is_mset t then Some <$> remain mem (end_ kp) else Some None);
            let sub := match rem with None => sub | Some len => with_clen sub (u32 (clen sub + len)) end in
            ks ← HiArray.hiarray_put ks j (mk_keypos (start kp) (end_ kp) rem);
            Some (inl (mk_frag (<[q := set_keys sub ks]> (store st)) (subs st) seq slot_num (ids st)))
        end
    end.

(** The loop over the keys. *)
Fixpoint frag_keys (mem : bytes) (t : cmd_type) (i : Z) (kps : list keypos) (st : frag) : option (frag + stop) :=
  match kps with
  | [] => Some (inl st)
  | kp :: kps' =>
      r ← frag_key mem t i kp st;
      match r with
      | inr e => Some (inr e)
      | inl st => frag_keys mem t (i + 1) kps' st
      end
  end.

(** ** Writing the commands *)

(** What differs between the three branches: the bytes around each key that the lengths do
    not count yet, the number of arguments for so many keys, the length of the header, the
    header behind the number, and whether the value is copied with the key. *)
Record branch := mk_branch { per_key : Z; nargs : Z -> Z; head_len : Z; head : bytes; values : bool }.

Definition branch_mget : branch :=
  mk_branch 5 (fun n => u32 (n + 1)) 13 (CRLF ++ bstr "$4" ++ CRLF ++ bstr "mget" ++ CRLF) false.
Definition branch_del : branch :=
  mk_branch 5 (fun n => u32 (n + 1)) 12 (CRLF ++ bstr "$3" ++ CRLF ++ bstr "del" ++ CRLF) false.
Definition branch_mset : branch :=
  mk_branch 3 (fun n => u32 (u32 (n * 2) + 1)) 13 (CRLF ++ bstr "$4" ++ CRLF ++ bstr "mset" ++ CRLF) true.

(** The others do not get here: they have at most one key. *)
Definition branch_of (t : cmd_type) : option branch :=
  match t with
  | CMD_REQ_REDIS_MGET => Some branch_mget
  | CMD_REQ_REDIS_DEL => Some branch_del
  | CMD_REQ_REDIS_MSET => Some branch_mset
  | _ => None
  end.

(** [memcpy] to the command at [idx], which advances. *)
Definition put (buf : bytes) (idx : Z) (src : bytes) : option (bytes * Z) :=
  buf ← wr_bytes buf idx src; Some (buf, u32 (idx + zlen src)).

(** [hi_itoa(num_str, n)] and the text it left, [num_str_len] bytes of it. *)
Definition number (num_str : bytes) (n : Z) : option (bytes * bytes) :=
  num_str ← _hi_itoa num_str (i32 n);
  s ← cstr num_str;
  Some (num_str, take (Z.to_nat (u8 (zlen s))) s).

(** One key, with its value in an MSET. *)
Definition put_key (b : branch) (mem : bytes) (kp : keypos) (num_str buf : bytes) (idx : Z) : option (bytes * bytes * Z) :=
  let key_len := u32 (end_ kp - start kp) in
  '(num_str, n) ← number num_str key_len;
  '(buf, idx) ← put buf idx [36];
  '(buf, idx) ← put buf idx n;
  '(buf, idx) ← put buf idx CRLF;
  rem ← (if values b then remain_len kp else Some 0);
  src ← span mem (start kp) (start kp + u32 (key_len + rem));
  '(buf, idx) ← put buf idx src;
  '(buf, idx) ← (if values b then Some (buf, idx) else put buf idx CRLF);
  Some (num_str, buf, idx).

Fixpoint put_keys (b : branch) (mem : bytes) (kps : list keypos) (num_str buf : bytes) (idx : Z) : option (bytes * bytes) :=
  match kps with
  | [] => Some (num_str, buf)
  | kp :: kps' => '(num_str, buf, idx) ← put_key b mem kp num_str buf idx; put_keys b mem kps' num_str buf idx
  end.

(** The keys of a command, read one by one with [hiarray_get]. *)
Definition key_list (r : cmd) : option (list keypos) :=
  mapM (HiArray.hiarray_get (keys r)) (seqZ 0 (HiArray.hiarray_n (keys r))).

(** The text of one part; [num_str] is a buffer on the stack that keeps its contents. *)
Definition frag_write (mem : bytes) (t : cmd_type) (sub : cmd) (num_str : bytes) : option ((cmd * bytes) + cerror) :=
  b ← branch_of t;
  let sub := with_clen sub (u32 (clen sub + u32 (per_key b * narg sub))) in
  let sub := set_narg sub (narg_start sub) (narg_end sub) (nargs b (narg sub)) in
  '(num_str, n) ← number num_str (narg sub);
  let sub := with_clen sub (u32 (clen sub + (head_len b + zlen n))) in
  if negb (malloc_ok (clen sub)) then Some (inr oom_error)
  else
    let buf := replicate (Z.to_nat (clen sub)) 0 in
    '(buf, idx) ← put buf 0 [42];
    '(buf, idx) ← put buf idx n;
    '(buf, idx) ← put buf idx (head b);
    kps ← key_list sub;
    '(num_str, buf) ← put_keys b mem kps num_str buf idx;
    Some (inl (with_type (set_text sub buf (clen sub)) t, num_str)).

(** [sizeof(listNode)]; [listAddNodeTail] on a sequence: without memory it does nothing, and
    the caller does not test for that. *)
Definition node_size : Z := 24.
Definition add_tail (l : list nat) (q : nat) : list nat := if malloc_ok node_size then l ++ [q] else l.

(** The loop over the slots. *)
Fixpoint frag_writes (mem : bytes) (t : cmd_type) (cells : list (option nat)) (num_str : bytes) (store : list cmd)
    (commands : list nat) : option (list cmd * list nat * option cerror) :=
  match cells with
  | [] => Some (store, commands, None)
  | None :: cells' => frag_writes mem t cells' num_str store commands
  | Some q :: cells' =>
      sub ← store !! q;
      r ← frag_write mem t sub num_str;
      match r with
      | inr e => Some (store, commands, Some e)
      | inl (sub, num_str) => frag_writes mem t cells' num_str (<[q := sub]> store) (add_tail commands q)
      end
  end.

(** [sizeof] of a pointer. *)
Definition ptr_size : Z := 8.

(** What [command_pre_fragment] leaves behind: its result, the error of the context, the
    command, its [frag_seq], the list [commands] and the memory they point into. *)
Record fragmented := mk_fragmented {
  fslot : Z;
  ferror : option cerror;
  fcmd : cmd;
  fseq : option (list (option nat));
  fcommands : list nat;
  fstore : list cmd;
  fids : Z;
}.

(** The [done] label: a single part is dropped, the command itself is sent. *)
Definition fragment_done (r : cmd) (slot_num : Z) (e : option cerror) (fs : option (list (option nat)))
    (commands : list nat) (st : list cmd) (i : Z) : fragmented :=
  if (0 <=? slot_num) && (zlen commands =? 1)
  then mk_fragmented slot_num e (with_slot r slot_num) None [] st i
  else mk_fragmented slot_num e r fs commands st i.

Definition command_pre_fragment (r : cmd) (i : Z) : option fragmented :=
  let key_count := HiArray.hiarray_n (keys r) in
  if negb (malloc_ok (REDIS_CLUSTER_SLOTS * ptr_size)) then Some (fragment_done r (-1) (Some oom_error) None [] [] i)
  else if negb (malloc_ok (u64 (key_count * ptr_size))) then Some (fragment_done r (-1) (Some oom_error) None [] [] i)
  else
    let mem := default [] (text r) in
    kps ← key_list r;
    let seq0 := replicate (Z.to_nat key_count) None in
    x ← frag_keys mem (ctype r) 0 kps (mk_frag [] (replicate (Z.to_nat REDIS_CLUSTER_SLOTS) None) seq0 (-1) i);
    match x with
    | inr (st, s, e) => Some (fragment_done r s e (Some (seq st)) [] (store st) (ids st))
    | inl st =>
        '(store, commands, e) ← frag_writes mem (ctype r) (subs st) (replicate 12 junk) (store st) [];
        let s := match e with None => slot st | Some _ => -1 end in
        Some (fragment_done r s e (Some (seq st)) commands store (ids st))
    end.

(** [command_format_by_slot], on a context and a list that are not NULL. *)
Definition command_format_by_slot (r : cmd) (i : Z) : option fragmented :=
  match text r with
  | None => Some (mk_fragmented (-1) None r None [] [] i)
  | Some mem =>
      if clen r <=? 0 then Some (mk_fragmented (-1) None r None [] [] i)
      else
        r ← redis_parse_cmd r;
        let failed ty msg := Some (mk_fragmented (-1) (Some (set_error ty msg)) r None [] [] i) in
        match result r with
        | CMD_PARSE_ENOMEM => failed Read.REDIS_ERR_PROTOCOL (bstr "Parse command error: out of memory")
        | CMD_PARSE_OK =>
            let key_count := i32 (HiArray.hiarray_n (keys r)) in
            if key_count <=? 0 then
              failed Read.REDIS_ERR_OTHER (bstr "No keys in command(must have keys for redis cluster mode)")
            else if key_count =? 1 then
              kp ← HiArray.hiarray_get (keys r) 0;
              key ← span mem (start kp) (end_ kp);
              let slot_num := Crc16.keyHashSlot key in
              Some (mk_fragmented slot_num None (with_slot r slot_num) None [] [] i)
            else command_pre_fragment r i
        | _ => msg ← (errstr r ≫= cstr); failed Read.REDIS_ERR_PROTOCOL msg
        end
  end.

(** [slot_get_by_command]: the slot of the last key. *)
Fixpoint last_slot (mem : bytes) (kps : list keypos) (slot_num : Z) : option Z :=
  match kps with
  | [] => Some slot_num
  | kp :: kps' => key ← span mem (start kp) (end_ kp); last_slot mem kps' (Crc16.keyHashSlot key)
  end.

Definition slot_get_by_command (txt : option bytes) (len i : Z) : option (Z * option cerror * Z) :=
  match txt with
  | None => Some (-1, None, i)
  | Some mem =>
      if len <=? 0 then Some (-1, None, i)
      else
        match command_get i with
        | (None, i) => Some (-1, Some oom_error, i)
        | (Some r, i) =>
            r ← redis_parse_cmd (set_text r mem (u32 len));
            match result r with
            | CMD_PARSE_OK =>
                let key_count := i32 (HiArray.hiarray_n (keys r)) in
                if key_count <=? 0 then
                  Some (-1, Some (set_error Read.REDIS_ERR_OTHER
                    (bstr "no keys in command(must have keys for redis cluster mode)")), i)
                else kps ← key_list r; s ← last_slot mem kps (-1); Some (s, None, i)
            | _ => Some (-1, Some (set_error Read.REDIS_ERR_PROTOCOL (bstr "parse command error")), i)
            end
        end
  end.

End Ops.

(** ** Specification *)

(** The arguments in the groups that belong to one key. *)
Fixpoint pairs (args : list bytes) : list (list bytes) :=
  match args with
  | k :: v :: args' => [k; v] :: pairs args'
  | _ => []
  end.

Definition items (t : cmd_type) (args : list bytes) : list (list bytes) :=
  if is_mset t then pairs args else map (fun k => [k]) args.

(** The slot of an item: that of its key. *)
Definition item_slot (a : list bytes) : Z := Crc16.keyHashSlot (hd [] a).

(** The items of one slot, in the order of the command. *)
Definition group (s : Z) (l : list (list bytes)) : list (list bytes) := List.filter (fun a => item_slot a =? s) l.

Definition has_items (l : list (list bytes)) (s : Z) : bool := match group s l with [] => false | _ => true end.

(** The slots that are met, in increasing order. *)
Definition slots_from (l : list (list bytes)) (s n : Z) : list Z := List.filter (has_items l) (seqZ s n).

Definition slots_of (l : list (list bytes)) : list Z := slots_from l 0 REDIS_CLUSTER_SLOTS.

(** The name the parts are sent with. *)
Definition verb (t : cmd_type) : bytes :=
  match t with
  | CMD_REQ_REDIS_MGET => bstr "mget"
  | CMD_REQ_REDIS_DEL => bstr "del"
  | CMD_REQ_REDIS_MSET => bstr "mset"
  | _ => []
  end.

(** The part for a slot: the command with the items of that slot. *)
Definition part (t : cmd_type) (l : list (list bytes)) (s : Z) : Z * bytes :=
  (s, Format.encode (verb t :: concat (group s l))).

Lemma group_app s l1 l2 : group s (l1 ++ l2) = group s l1 ++ group s l2.
Proof. apply List.filter_app. Qed.

Lemma group_snoc s l a : group s (l ++ [a]) = if item_slot a =? s then group s l ++ [a] else group s l.
Proof. rewrite group_app. cbn. destruct (item_slot a =? s); [done | apply app_nil_r]. Qed.

(** ** Where the items are in the text *)

Section Pre.
Context `{Memory} (Hmem : has_memory) (mem : bytes) (t : cmd_type).

(** What stands behind the key of an item, and the span of the item. *)
Definition tail_of (a : list bytes) : bytes := match a with [_; v] => CRLF ++ Format.bulk v | _ => [] end.

(** The key position as it is recorded in a part. *)
Definition filled (kp : keypos) (a : list bytes) : keypos :=
  mk_keypos (start kp) (end_ kp) (if is_mset t then Some (zlen (tail_of a)) else None).

(** The item [a] stands at [kp]. *)
Definition at_item (kp : keypos) (a : list bytes) : Prop :=
  exists k pre rest, mem = pre ++ k ++ tail_of a ++ rest /\ start kp = zlen pre /\ end_ kp = zlen pre + zlen k /\
    (if is_mset t then exists v, a = [k; v] /\ zlen v <= INT_MAX else a = [k]) /\ zlen (pre ++ k ++ tail_of a) <= INT_MAX.

Lemma span_at (pre m rest : bytes) a b : a = zlen pre -> b = zlen pre + zlen m -> span (pre ++ m ++ rest) a b = Some m.
Proof.
  intros -> ->. unfold span. rewrite decide_True by zl. f_equal. rewrite drop_app_exact by (unfold zlen; lia).
  apply take_app_exact. unfold zlen. lia.
Qed.

Lemma at_item_key kp a : at_item kp a -> span mem (start kp) (end_ kp) = Some (hd [] a) /\ end_ kp - start kp = zlen (hd [] a) /\
  0 <= zlen (hd [] a) <= INT_MAX.
Proof.
  intros (k & pre & rest & Hm & Hs & He & Ha & Hmax).
  assert (hd [] a = k) as -> by (destruct (is_mset t); [destruct Ha as (v & -> & _)|subst a]; done).
  rewrite Hm. rewrite (span_at pre k) by done. split_and!; try done; [lia | zl | zl].
Qed.

Lemma skip_digits (d : bytes) (l r : bytes) p : Forall (fun c => is_digit c = false) d ->
  (exists c l', l = c :: l' /\ is_digit c = true) -> skip_to_digit (d ++ l ++ r) p = Some (l ++ r, p + zlen d).
Proof.
  intros Hd (c & l' & -> & Hc). revert p. induction Hd as [|x d Hx _ IH]; intros p; cbn [app skip_to_digit].
  - rewrite Hc. f_equal. f_equal. zl.
  - rewrite Hx, IH. f_equal. f_equal. zl.
Qed.

Lemma read_len_digits ds : forall c rest len p, Forall (fun b => is_digit b = true) ds -> is_digit c = false ->
  0 <= len -> undec_from len ds < 2 ^ 32 -> read_len (ds ++ c :: rest) len p = Some (undec_from len ds, p + zlen ds).
Proof.
  induction ds as [|d ds IH]; intros c rest len p Hd Hc Hl Hmax; cbn [app read_len].
  - rewrite Hc. f_equal. f_equal. zl.
  - inversion_clear Hd as [|? ? Hd1 Hd2]. rewrite Hd1. unfold undec_from in *. cbn [foldl] in *.
    assert (0 <= d - 48) by (unfold is_digit in Hd1; lia).
    pose proof (undec_from_ge ds (len * 10 + (d - 48)) ltac:(lia) Hd2) as Hge. unfold undec_from in Hge.
    rewrite uwrap_small by lia. rewrite IH by (done || lia). f_equal. f_equal. zl.
Qed.

(** The length that [remain_len] gets. *)
Lemma remain_at (pre k v rest : bytes) e : e = zlen pre + zlen k -> zlen v <= INT_MAX -> zlen (pre ++ k ++ tail_of [k; v]) <= INT_MAX ->
  remain (pre ++ k ++ tail_of [k; v] ++ rest) e = Some (zlen (tail_of [k; v])).
Proof.
  intros -> Hv Hmax. unfold remain. cbn [tail_of]. unfold Format.bulk, CRLF.
  replace (drop _ _) with ([LF; 36] ++ dec (zlen v) ++ CR :: LF :: v ++ CR :: LF :: rest).
  2: { rewrite (app_assoc pre k). rewrite drop_app_ge by (rewrite length_app; unfold zlen; lia).
       replace (Z.to_nat (zlen pre + zlen k + 1) - length (pre ++ k))%nat with 1%nat by (rewrite length_app; unfold zlen; lia).
       cbn [drop app]. by repeat (rewrite <- app_assoc || cbn [app]). }
  pose proof (dec_digits (zlen v) ltac:(zlen_pos; lia)) as Hd. pose proof (dec_not_nil (zlen v) ltac:(zlen_pos; lia)) as Hne.
  rewrite skip_digits; [|by repeat constructor|]. 2: { destruct (dec (zlen v)) as [|c l]; [done|]. inversion_clear Hd. eauto. }
  cbn [mbind option_bind]. unfold INT_MAX in *. pose proof (undec_dec (zlen v) ltac:(zlen_pos; lia)) as Hu. unfold undec in Hu.
  rewrite read_len_digits; [|done | done | lia | rewrite Hu; lia]. cbn [mbind option_bind]. rewrite Hu.
  cbn [tail_of] in Hmax. unfold Format.bulk, CRLF in Hmax. autorewrite with hivip in Hmax. zlen_pos.
  f_equal. rewrite (uwrap_small 32 (zlen v + 4)) by lia. rewrite uwrap_small; [|zl]. zl.
Qed.

(** ** Distribution *)

(** The bytes that the first loop counts for an item. *)
Definition counted (a : list bytes) : Z := zlen (hd [] a) + zlen (dec (zlen (hd [] a))) + zlen (tail_of a).

Fixpoint total (f : list bytes -> Z) (l : list (list bytes)) : Z := match l with [] => 0 | a :: l' => f a + total f l' end.

Lemma total_app f l k : total f (l ++ k) = total f l + total f k.
Proof. induction l as [|a l IH]; cbn [app total]; lia. Qed.

Lemma counted_pos a : 0 <= counted a.
Proof. unfold counted. zlen_pos. lia. Qed.

Lemma total_nonneg l : 0 <= total counted l.
Proof. induction l as [|a l IH]; cbn [total]; [done|]. pose proof (counted_pos a). lia. Qed.

Lemma total_group s l : total counted (group s l) <= total counted l.
Proof.
  induction l as [|a l IH]; [done|]. cbn [group List.filter]. pose proof (counted_pos a).
  fold (group s l). destruct (item_slot a =? s); cbn [total] in *; lia.
Qed.

Lemma filter_zlen {A} (f : A -> bool) (l : list A) : zlen (List.filter f l) <= zlen l.
Proof. induction l as [|x l IH]; [done|]. cbn [List.filter]. destruct (f x); rewrite ?zlen_cons; zlen_pos; lia. Qed.

(** The part of a slot after the items [g] were added to it. *)
Definition holds_items (s : Z) (g : list (keypos * list bytes)) (c : cmd) : Prop :=
  HiArray.repr (keys c) (map (fun e => filled e.1 e.2) g) /\ HiArray.nalloc (keys c) <= Z.max 1 (2 * zlen g) /\
  narg c = zlen g /\ clen c = total counted (map snd g) /\ slot_num c = s.

(** The entries of a slot. *)
Definition egroup (s : Z) (l : list (keypos * list bytes)) : list (keypos * list bytes) :=
  List.filter (fun e => item_slot e.2 =? s) l.

Lemma egroup_snd s l : map snd (egroup s l) = group s (map snd l).
Proof.
  induction l as [|e l IH]; [done|]. cbn [egroup group List.filter map]. fold (egroup s l) (group s (map snd l)).
  destruct (item_slot e.2 =? s); cbn [map]; by rewrite IH.
Qed.

Lemma egroup_snoc s l e : egroup s (l ++ [e]) = if item_slot e.2 =? s then egroup s l ++ [e] else egroup s l.
Proof. unfold egroup. rewrite List.filter_app. cbn. destruct (item_slot e.2 =? s); [done | apply app_nil_r]. Qed.

Lemma egroup_length s l : zlen (egroup s l) <= zlen l.
Proof. apply filter_zlen. Qed.

(** The state after the entries [l] were distributed. *)
Record spread (l : list (keypos * list bytes)) (n : Z) (st : frag) : Prop := {
  spread_len : zlen (subs st) = REDIS_CLUSTER_SLOTS;
  spread_sub : forall s, 0 <= s < REDIS_CLUSTER_SLOTS ->
    match egroup s l with
    | [] => rd (subs st) s = Some None
    | g => exists q c, rd (subs st) s = Some (Some q) /\ store st !! q = Some c /\ holds_items s g c
    end;
  spread_seq : zlen (seq st) = n /\
    forall i e, rd l i = Some e -> exists q, rd (seq st) i = Some (Some q) /\ rd (subs st) (item_slot e.2) = Some (Some q);
  spread_slot : slot st = match last l with Some e => item_slot e.2 | None => -1 end;
}.

Lemma item_slot_range a : 0 <= item_slot a < REDIS_CLUSTER_SLOTS.
Proof. apply Crc16.keyHashSlot_range. Qed.

Lemma rd_insert_ne {A} (l : list A) i j x : i <> j -> 0 <= i -> 0 <= j -> rd (<[Z.to_nat i := x]> l) j = rd l j.
Proof. intros. unfold rd. rewrite !decide_True by done. apply list_lookup_insert_ne. lia. Qed.

Lemma rd_insert_eq {A} (l : list A) i x : 0 <= i < zlen l -> rd (<[Z.to_nat i := x]> l) i = Some x.
Proof. intros. unfold rd. rewrite decide_True by lia. apply list_lookup_insert_eq. unfold zlen in *. lia. Qed.

(** The part a new item goes to: the one its slot has, or a new one. *)
Lemma sub_for_spec l n st a : spread l n st -> exists q st1 c,
  sub_for (item_slot a) st = Some (inl (q, st1)) /\ rd (subs st1) (item_slot a) = Some (Some q) /\ store st1 !! q = Some c /\
  HiArray.repr (keys c) (map (fun e => filled e.1 e.2) (egroup (item_slot a) l)) /\
  HiArray.nalloc (keys c) <= Z.max 1 (2 * zlen (egroup (item_slot a) l)) /\
  narg c = zlen (egroup (item_slot a) l) /\ clen c = total counted (map snd (egroup (item_slot a) l)) /\
  zlen (subs st1) = REDIS_CLUSTER_SLOTS /\ seq st1 = seq st /\
  (forall s q', s <> item_slot a -> rd (subs st1) s = Some q' <-> rd (subs st) s = Some q') /\
  (forall s x, rd (subs st) s = Some (Some x) -> rd (subs st1) s = Some (Some x)) /\
  (forall q' c', store st !! q' = Some c' -> store st1 !! q' = Some c') /\
  (forall s q', s <> item_slot a -> 0 <= s < REDIS_CLUSTER_SLOTS -> rd (subs st) s = Some (Some q') -> q' <> q).
Proof.
  intros [Hlen Hsub [Hseq _] _]. pose proof (item_slot_range a) as Hr. unfold sub_for.
  pose proof (Hsub _ Hr) as Hs. destruct (egroup (item_slot a) l) as [|e g] eqn:Eg.
  - rewrite Hs. cbn [mbind option_bind]. unfold command_get. rewrite Hmem. unfold HiArray.hiarray_create. rewrite !Hmem. cbn [negb].
    rewrite wr_is_Some by lia. cbn [mbind option_bind].
    eexists _, _, _. split; [done|]. cbn [store subs seq]. split_and!.
    + apply rd_insert_eq. lia.
    + rewrite lookup_app_r, Nat.sub_diag by done. done.
    + cbn. split_and!; try done; lia.
    + done.
    + done.
    + done.
    + by rewrite zlen_insert.
    + done.
    + intros s q' Hne. destruct (decide (0 <= s)) as [H0|H0]; [by rewrite rd_insert_ne by lia|].
      unfold rd. by rewrite !decide_False by done.
    + intros s x Hx. destruct (decide (s = item_slot a)) as [-> |Hne]; [congruence|].
      pose proof (rd_Some _ _ _ Hx). by rewrite rd_insert_ne by lia.
    + intros q' c' Hq. by apply lookup_app_l_Some.
    + intros s q' Hne Hrs Hq ->. pose proof (Hsub s Hrs) as Hss. destruct (egroup s l); [congruence|].
      destruct Hss as (q & c & Hq' & Hc & _). rewrite Hq in Hq'. injection Hq' as <-. apply lookup_lt_Some in Hc. lia.
  - destruct Hs as (q & c & Hq & Hc & Hk & Ha & Hn & Hcl & Hsl). rewrite Hq. cbn [mbind option_bind].
    exists q, st, c. split_and!; try done. intros s q' Hne Hrs Hq' ->. pose proof (Hsub s Hrs) as Hss.
    destruct (egroup s l); [congruence|]. destruct Hss as (q2 & c2 & Hq2 & Hc2 & _ & _ & _ & _ & Hsl2). congruence.
Qed.

(** One more item. *)
Lemma frag_key_spec l n st kp a : spread l n st -> zlen l < n -> at_item kp a ->
  total counted (map snd (l ++ [(kp, a)])) <= INT_MAX -> 2 * zlen l < 2 ^ 31 ->
  exists st', frag_key mem t (zlen l) kp st = Some (inl st') /\ spread (l ++ [(kp, a)]) n st'.
Proof.
  intros Hsp Hn Hat Htot Hbig. destruct (at_item_key kp a Hat) as (Hspan & Hkl & Hkr).
  destruct (sub_for_spec l n st a Hsp) as (q & st1 & c & Esub & Hq & Hc & Hk & Hal & Hna & Hcl & Hlen1 & Hseq1 & Hother & Hkeep & Hst & Hne).
  pose proof (item_slot_range a) as Hr. unfold INT_MAX in Hkr, Htot.
  assert (0 <= total counted (map snd (egroup (item_slot a) l)) /\
    total counted (map snd (egroup (item_slot a) l)) + counted a <= INT_MAX) as Hcnt.
  { rewrite map_app, total_app in Htot. cbn [map total snd] in Htot. rewrite egroup_snd.
    pose proof (total_group (item_slot a) (map snd l)). pose proof (total_nonneg (group (item_slot a) (map snd l))).
    unfold INT_MAX. lia. }
  pose proof (egroup_length (item_slot a) l) as Heg. pose proof (zlen_nonneg (egroup (item_slot a) l)) as Heg0.
  unfold frag_key. rewrite Hspan. cbn [mbind option_bind]. fold (item_slot a).
  rewrite (proj2 (Z.ltb_ge (item_slot a) 0)), (proj2 (Z.leb_gt REDIS_CLUSTER_SLOTS (item_slot a))) by lia. cbn [orb].
  rewrite Esub. cbn [mbind option_bind]. destruct Hsp as [Hlen Hsub [Hseqlen Hseq] _].
  rewrite Hseq1, wr_is_Some by (zlen_pos; lia). cbn [mbind option_bind]. rewrite Hc. cbn [mbind option_bind keys set_narg narg clen].
  assert (2 * zlen (map (fun e : keypos * list bytes => filled e.1 e.2) (egroup (item_slot a) l)) < 2 ^ 31) as Hb2 by (rewrite zlen_map; lia).
  rewrite <- (zlen_map (fun e : keypos * list bytes => filled e.1 e.2)) in Hal.
  destruct (push_key (keys c) _ (filled kp a) Hmem Hk Hal Hb2) as (a1 & j & a2 & Epush & Eput & Hrep2 & Hal2).
  rewrite Epush, Hkl, (uwrap_small 32 (zlen (hd [] a))) by lia.
  assert ((if is_mset t then Some <$> remain mem (end_ kp) else Some None) = Some (remain_len (filled kp a))) as ->.
  { unfold filled. cbn [remain_len]. destruct (is_mset t) eqn:Et; [|done].
    destruct Hat as (k & pre & rest & Hm & _ & He & Ha & Hmax). rewrite Et in Ha. destruct Ha as (v & -> & Hv).
    rewrite Hm. by rewrite (remain_at pre k v rest) by done. }
  cbn [mbind option_bind]. change (mk_keypos (start kp) (end_ kp) (remain_len (filled kp a))) with (filled kp a).
  rewrite Eput. cbn [mbind option_bind]. eexists. split; [done|].
  assert (counted a = zlen (hd [] a) + zlen (dec (zlen (hd [] a))) + zlen (tail_of a)) as Hca by done.
  pose proof (zlen_nonneg (tail_of a)). pose proof (zlen_nonneg (dec (zlen (hd [] a)))).
  rewrite uint_len_dec by (unfold UINT32_MAX; lia). unfold INT_MAX in Hcnt.
  rewrite (uwrap_small 32 (zlen (hd [] a) + _)) by lia. rewrite Hcl.
  rewrite (uwrap_small 32 (total counted _ + _)) by lia.
  set (c' := set_keys _ a2).
  assert (holds_items (item_slot a) (egroup (item_slot a) l ++ [(kp, a)]) c') as Hh.
  { split_and!.
    - change (keys c') with a2. by rewrite map_app.
    - change (keys c') with a2. rewrite zlen_app in Hal2. rewrite zlen_map in Hal2. rewrite zlen_app. exact Hal2.
    - assert (narg c' = u32 (narg c + 1)) as -> by (unfold c'; by destruct (remain_len _)).
      rewrite Hna, uwrap_small by lia. zl.
    - rewrite map_app, total_app. cbn [map snd total]. rewrite Hca. unfold c', filled. cbn [remain_len].
      destruct (is_mset t) eqn:Et; cbn [clen set_keys with_clen with_slot].
      + rewrite uwrap_small by (unfold INT_MAX in *; lia). lia.
      + destruct Hat as (k & _ & _ & _ & _ & _ & Ha & _). rewrite Et in Ha. subst a. cbn [tail_of hd]. rewrite zlen_nil. lia.
    - unfold c'. by destruct (remain_len _). }
  split; cbn [subs store seq slot].
  - done.
  - intros s Hs. rewrite egroup_snoc. cbn [snd]. destruct (Z.eqb_spec (item_slot a) s) as [<- |Hns].
    + destruct (egroup (item_slot a) l ++ [(kp, a)]) eqn:E; [by destruct (egroup (item_slot a) l)|]. rewrite <- E in Hh |- *.
      exists q, c'. split_and!; try done. apply list_lookup_insert_eq. by eapply lookup_lt_Some.
    + pose proof (Hsub s Hs) as Hss. destruct (egroup s l) as [|e g]; [by apply Hother|].
      destruct Hss as (q' & c2 & Hq' & Hc2 & Hh2). exists q', c2. split_and!; [by apply Hother | | done].
      rewrite list_lookup_insert_ne; [by apply Hst|]. intros <-. by apply (Hne s q); [congruence | done..].
  - split; [by rewrite zlen_insert|]. intros i e Hi. apply rd_Some in Hi as Hib. rewrite zlen_app in Hib. change (zlen [(kp, a)]) with 1 in Hib.
    destruct (decide (i = zlen l)) as [-> |Hni].
    + rewrite rd_at in Hi by done. injection Hi as <-. exists q. split; [|done]. apply rd_insert_eq. lia.
    + rewrite rd_app_l in Hi by lia. destruct (Hseq i e Hi) as (q' & Hq1 & Hq2). exists q'.
      split; [|by apply Hkeep]. rewrite rd_insert_ne by lia. exact Hq1.
  - by rewrite last_snoc.
Qed.

Lemma frag_keys_spec es : forall l n st, spread l n st -> n = zlen (l ++ es) ->
  Forall (fun e => at_item e.1 e.2) es -> total counted (map snd (l ++ es)) <= INT_MAX -> 2 * zlen (l ++ es) < 2 ^ 31 ->
  exists st', frag_keys mem t (zlen l) (map fst es) st = Some (inl st') /\ spread (l ++ es) n st'.
Proof.
  induction es as [|[kp a] es IH]; intros l n st Hsp Hn Hall Htot Hbig; cbn [map frag_keys].
  { exists st. by rewrite app_nil_r. }
  inversion_clear Hall as [|? ? Hat Hes]. pose proof (total_nonneg (map snd es)).
  assert (l ++ (kp, a) :: es = (l ++ [(kp, a)]) ++ es) as E by (by rewrite <- app_assoc). rewrite E in *.
  destruct (frag_key_spec l n st kp a Hsp) as (st1 & E1 & Hsp1); [zl | done | | zl |].
  { rewrite map_app, total_app in Htot. lia. }
  cbn [fst]. rewrite E1. cbn [mbind option_bind].
  destruct (IH (l ++ [(kp, a)]) n st1 Hsp1) as (st2 & E2 & Hsp2); try done.
  exists st2. rewrite zlen_app in E2. change (zlen [(kp, a)]) with 1 in E2. done.
Qed.

Lemma spread_init n i : 0 <= n ->
  spread [] n (mk_frag [] (replicate (Z.to_nat REDIS_CLUSTER_SLOTS) None) (replicate (Z.to_nat n) None) (-1) i).
Proof.
  intros Hn. split; cbn [subs seq slot].
  - by rewrite zlen_replicate.
  - intros s Hs. cbn [egroup List.filter]. unfold rd. rewrite decide_True by lia. apply lookup_replicate. split; [done | lia].
  - split; [zl|]. intros j e Hj. apply rd_Some in Hj. zl.
  - done.
Qed.

(** ** The texts of the parts *)

(** A buffer of [n] bytes of which [txt] is written. *)
Definition blank (txt : bytes) (n : Z) : bytes := txt ++ replicate (Z.to_nat (n - zlen txt)) 0.

Lemma put_spec txt n src : zlen (txt ++ src) <= n < 2 ^ 32 ->
  put (blank txt n) (zlen txt) src = Some (blank (txt ++ src) n, zlen (txt ++ src)).
Proof.
  intros Hn. rewrite zlen_app in Hn. zlen_pos. unfold put, wr_bytes, blank.
  rewrite decide_True by zl. cbn [mbind option_bind]. rewrite uwrap_small by lia. do 2 f_equal; [|zl].
  rewrite take_app_exact by (unfold zlen; lia). rewrite drop_app_ge by (unfold zlen; lia). rewrite drop_replicate, <- app_assoc.
  do 3 f_equal. rewrite zlen_app. unfold zlen in *. lia.
Qed.

Lemma put_start n src : zlen src <= n < 2 ^ 32 -> put (blank [] n) 0 src = Some (blank src n, zlen src).
Proof. apply (put_spec [] n src). Qed.

Lemma cstr_digits ds rest : Forall (fun b => is_digit b = true) ds -> cstr (ds ++ 0 :: rest) = Some ds.
Proof.
  induction 1 as [|d ds Hd _ IH]; [done|]. cbn [app cstr]. unfold is_digit in Hd.
  rewrite (proj2 (Z.eqb_neq d 0)) by lia. by rewrite IH.
Qed.

Lemma number_spec num_str n : zlen num_str = 12 -> 0 < n <= INT_MAX ->
  exists num_str', number num_str n = Some (num_str', dec n) /\ zlen num_str' = 12.
Proof.
  intros Hl Hn. assert (zlen (dec n) <= 10) as Hd by (apply dec_length_pow; unfold INT_MAX in *; lia).
  unfold number. rewrite i32_small by (unfold INT_MIN, INT_MAX in *; lia). rewrite hi_itoa_dec by (done || lia).
  cbn [mbind option_bind]. rewrite cstr_digits by (apply dec_digits; lia). cbn [mbind option_bind]. zlen_pos.
  rewrite uwrap_small by lia. rewrite take_ge by (unfold zlen; lia). eexists. split; [done|].
  rewrite zlen_app, zlen_cons, zlen_drop. unfold zlen in *. lia.
Qed.

Lemma flat_bulk_concat l : flat_map Format.bulk (concat l) = flat_map (flat_map Format.bulk) l.
Proof. induction l as [|a l IH]; [done|]. cbn [concat flat_map]. by rewrite List.flat_map_app, IH. Qed.

(** The items that the branch for [t] writes. *)
Definition writes (b : branch) : Prop := branch_of t = Some b /\ values b = is_mset t.

Lemma branch_writes b : branch_of t = Some b -> writes b.
Proof. intros Hb. split; [done|]. destruct t; try done; by injection Hb as <-. Qed.

Lemma put_key_spec b kp a num_str txt n : writes b -> at_item kp a -> hd [] a <> [] -> zlen num_str = 12 ->
  zlen (txt ++ flat_map Format.bulk a) <= n < 2 ^ 32 ->
  exists num_str', put_key b mem (filled kp a) num_str (blank txt n) (zlen txt) =
    Some (num_str', blank (txt ++ flat_map Format.bulk a) n, zlen (txt ++ flat_map Format.bulk a)) /\ zlen num_str' = 12.
Proof.
  intros [_ Hv] Hat Hne Hnum Hn. destruct (at_item_key kp a Hat) as (_ & Hkl & Hkr).
  assert (0 < zlen (hd [] a)) as Hpos by (destruct (hd [] a); [done | rewrite zlen_cons; zlen_pos; lia]).
  destruct Hat as (k & pre & rest & Hm & Hs & He & Ha & Hmax).
  assert (hd [] a = k /\ flat_map Format.bulk a = (36 :: dec (zlen k)) ++ CRLF ++ (k ++ tail_of a) ++ (if is_mset t then [] else CRLF)) as [Hk Htxt].
  { destruct (is_mset t); [destruct Ha as (v & -> & _)|subst a]; (split; [done|]); cbn [flat_map tail_of]; unfold Format.bulk;
      cbn [app]; rewrite ?app_nil_r; by repeat (rewrite <- app_assoc || cbn [app]). }
  rewrite Hk in *. rewrite Htxt in Hn |- *. unfold put_key. cbn [start end_ filled remain_len].
  rewrite Hkl, (uwrap_small 32 (zlen k)) by (unfold INT_MAX in *; lia).
  destruct (number_spec num_str (zlen k) Hnum ltac:(lia)) as (num' & -> & Hnum'). cbn [mbind option_bind].
  unfold CRLF in *. autorewrite with hivip in Hn. zlen_pos.
  rewrite put_spec by zl. cbn [mbind option_bind]. rewrite put_spec by zl. cbn [mbind option_bind].
  rewrite put_spec by zl. cbn [mbind option_bind]. rewrite Hv, Hs.
  replace (if is_mset t then if is_mset t then Some (zlen (tail_of a)) else None else Some 0) with (Some (zlen (tail_of a))).
  2: { destruct (is_mset t); [done|]. subst a. done. }
  cbn [mbind option_bind]. unfold INT_MAX in *. autorewrite with hivip in Hmax. rewrite (uwrap_small 32 (zlen k + _)) by lia.
  rewrite Hm, (app_assoc k), (span_at pre (k ++ tail_of a)) by zl. cbn [mbind option_bind].
  destruct (is_mset t); autorewrite with hivip in Hn.
  - rewrite put_spec by zl. cbn [mbind option_bind]. exists num'. split; [|done]. rewrite app_nil_r.
    do 2 f_equal; [f_equal|]; by repeat (rewrite <- app_assoc || cbn [app]).
  - rewrite put_spec by zl. cbn [mbind option_bind]. rewrite put_spec by zl. cbn [mbind option_bind]. exists num'. split; [|done].
    do 2 f_equal; [f_equal|]; by repeat (rewrite <- app_assoc || cbn [app]).
Qed.

Lemma put_keys_spec b es : writes b -> forall num_str txt n,
  Forall (fun e => at_item e.1 e.2 /\ hd [] e.2 <> []) es -> zlen num_str = 12 ->
  zlen (txt ++ flat_map Format.bulk (concat (map snd es))) <= n < 2 ^ 32 ->
  exists num_str', put_keys b mem (map (fun e => filled e.1 e.2) es) num_str (blank txt n) (zlen txt) =
    Some (num_str', blank (txt ++ flat_map Format.bulk (concat (map snd es))) n) /\ zlen num_str' = 12.
Proof.
  intros Hb. induction es as [|[kp a] es IH]; intros num_str txt n Hall Hnum Hn; cbn [map put_keys].
  { exists num_str. cbn [concat flat_map]. by rewrite app_nil_r. }
  inversion_clear Hall as [|? ? [Hat Hne] Hes]. cbn [fst snd] in *. cbn [map concat snd] in Hn |- *.
  rewrite List.flat_map_app, app_assoc in Hn |- *.
  destruct (put_key_spec b kp a num_str txt n Hb Hat Hne Hnum) as (num1 & -> & Hnum1); [zl|].
  cbn [mbind option_bind]. by apply IH.
Qed.

Definition shaped (a : list bytes) : Prop := if is_mset t then exists k v, a = [k; v] else exists k, a = [k].

Lemma at_item_shaped kp a : at_item kp a -> shaped a.
Proof. intros (k & _ & _ & _ & _ & _ & Ha & _). unfold shaped. destruct (is_mset t); [destruct Ha as (v & -> & _)|]; eauto. Qed.

Lemma branch_lengths b l : branch_of t = Some b -> Forall shaped l ->
  zlen (flat_map Format.bulk (concat l)) = total counted l + per_key b * zlen l /\
  (zlen l < 2 ^ 30 -> nargs b (zlen l) = zlen (verb t :: concat l)) /\
  (head b = CRLF ++ Format.bulk (verb t) /\ 1 + zlen (head b) = head_len b).
Proof.
  intros Hb Hs. assert (is_mset t = true /\ b = branch_mset \/ is_mset t = false /\ (b = branch_mget \/ b = branch_del)) as Hcase
    by (destruct t; try done; injection Hb as <-; auto).
  split; [|split].
  - induction Hs as [|a l Ha _ IH]; [change (0 = 0 + per_key b * 0); lia|]. cbn [concat total]. rewrite List.flat_map_app, zlen_app, IH, zlen_cons.
    unfold shaped in Ha. unfold counted. destruct Hcase as [[Et ->]|[Et Hb']]; rewrite Et in Ha.
    + destruct Ha as (k & v & ->). cbn [flat_map hd tail_of per_key branch_mset]. unfold Format.bulk, CRLF. zl.
    + destruct Ha as (k & ->). cbn [flat_map hd tail_of]. unfold Format.bulk, CRLF.
      assert (per_key b = 5) as -> by (by destruct Hb' as [-> | ->]). zl.
  - intros Hl. zlen_pos. rewrite zlen_cons. destruct Hcase as [[Et ->]|[Et Hb']].
    + assert (zlen (concat l) = 2 * zlen l) as ->.
      { clear Hl. induction Hs as [|a l Ha _ IH]; [done|]. unfold shaped in Ha. rewrite Et in Ha. destruct Ha as (k & v & ->).
        cbn [concat]. zlen_pos. rewrite zlen_app, IH by lia. zl. }
      cbn [nargs branch_mset]. rewrite (uwrap_small 32 (zlen l * 2)), uwrap_small by lia. lia.
    + assert (zlen (concat l) = zlen l) as ->.
      { clear Hl. induction Hs as [|a l Ha _ IH]; [done|]. unfold shaped in Ha. rewrite Et in Ha. destruct Ha as (k & ->).
        cbn [concat]. zlen_pos. rewrite zlen_app, IH by lia. zl. }
      assert (nargs b (zlen l) = u32 (zlen l + 1)) as -> by (by destruct Hb' as [-> | ->]). rewrite uwrap_small; lia.
  - destruct t; try done; by injection Hb as <-.
Qed.

Lemma key_list_repr r kl : HiArray.repr (keys r) kl -> key_list r = Some kl.
Proof. apply HiArray.read_repr. Qed.

(** A finished part. *)
Definition written (s : Z) (l : list (list bytes)) (c : cmd) : Prop :=
  slot_num c = s /\ text c = Some (Format.encode (verb t :: concat l)) /\
  clen c = zlen (Format.encode (verb t :: concat l)) /\ ctype c = t.

Lemma frag_write_spec b s g c num_str : branch_of t = Some b -> holds_items s g c ->
  Forall (fun e => at_item e.1 e.2 /\ hd [] e.2 <> []) g -> zlen num_str = 12 ->
  zlen (Format.encode (verb t :: concat (map snd g))) <= INT_MAX ->
  exists c' num_str', frag_write mem t c num_str = Some (inl (c', num_str')) /\ written s (map snd g) c' /\ zlen num_str' = 12.
Proof.
  intros Hb (Hk & _ & Hna & Hcl & Hs) Hall Hnum Hmax. pose proof (Format.zlen_encode (verb t :: concat (map snd g))) as Hen.
  assert (Forall shaped (map snd g)) as Hsh.
  { apply Forall_map. eapply Forall_impl; [exact Hall|]. intros e [Hat _]. by eapply at_item_shaped. }
  destruct (branch_lengths b (map snd g) Hb Hsh) as (Hlen & Hargs & Hhead & Hhl). rewrite zlen_map in *.
  pose proof (Format.zlen_strs (verb t :: concat (map snd g))) as Hst. unfold INT_MAX in Hmax.
  pose proof (total_nonneg (map snd g)) as Ht0. pose proof (zlen_nonneg g) as Hg0.
  assert (zlen g <= zlen (concat (map snd g))) as Hgc.
  { clear -Hsh. induction g as [|e g IH]; [done|]. cbn [map concat] in *. inversion_clear Hsh as [|? ? He Hg]. specialize (IH Hg).
    unfold shaped in He. rewrite zlen_cons, zlen_app. destruct (is_mset t); [destruct He as (k & v & ->)|destruct He as (k & ->)]; zl. }
  rewrite Format.flat_bulk_cons, Format.zlen_bulk, Hlen in Hen, Hst. rewrite zlen_cons in Hst, Hargs.
  pose proof (zlen_nonneg (verb t)) as Hvb. pose proof (dec_length_pos (zlen (verb t)) Hvb) as Hdv.
  pose proof (dec_length_pos (1 + zlen (concat (map snd g))) ltac:(lia)) as Hdn. rewrite zlen_cons in Hen.
  assert (3 * zlen g <= per_key b * zlen g) as Hpk by (assert (3 <= per_key b) by (destruct t; try done; injection Hb as <-; done); nia).
  unfold frag_write. rewrite Hb. cbn [mbind option_bind clen narg with_clen set_narg keys].
  rewrite Hna, Hcl, Hargs by lia. rewrite (uwrap_small 32 (per_key b * zlen g)) by lia. rewrite (uwrap_small 32 (total counted _ + _)) by lia.
  destruct (number_spec num_str (1 + zlen (concat (map snd g))) Hnum ltac:(unfold INT_MAX; lia)) as (num1 & -> & Hnum1).
  cbn [mbind option_bind]. rewrite Hmem. cbn [negb].
  rewrite Hhead, zlen_app in Hhl. change (zlen CRLF) with 2 in Hhl. rewrite Format.zlen_bulk in Hhl.
  set (N := zlen (Format.encode (verb t :: concat (map snd g)))) in *.
  replace (u32 _) with N by (rewrite uwrap_small; lia).
  assert (replicate (Z.to_nat N) 0 = blank [] N) as -> by (unfold blank; change (zlen (@nil Z)) with 0; by rewrite Z.sub_0_r).
  unfold CRLF in *. rewrite put_start by zl. cbn [mbind option_bind].
  rewrite put_spec by zl. cbn [mbind option_bind]. rewrite Hhead. pose proof (Format.zlen_bulk (verb t)) as Hvl.
  rewrite put_spec by zl. cbn [mbind option_bind].
  rewrite (key_list_repr _ (map (fun e => filled e.1 e.2) g)) by exact Hk. cbn [mbind option_bind].
  set (txt := ([42] ++ dec (1 + zlen (concat (map snd g)))) ++ [CR; LF] ++ Format.bulk (verb t)).
  assert (txt ++ flat_map Format.bulk (concat (map snd g)) = Format.encode (verb t :: concat (map snd g))) as Etxt.
  { unfold txt, Format.encode. cbn [flat_map]. rewrite zlen_cons. unfold CRLF. by repeat (rewrite <- app_assoc || cbn [app]). }
  destruct (put_keys_spec b g (branch_writes b Hb) num1 txt N Hall Hnum1) as (num2 & -> & Hnum2); [rewrite Etxt; fold N; lia|].
  cbn [mbind option_bind]. rewrite Etxt. unfold blank. fold N. rewrite Z.sub_diag. cbn [Z.to_nat replicate]. rewrite app_nil_r.
  eexists _, num2. split; [done|]. split; [|done]. split_and!; done.
Qed.

(** ** All the parts *)

Lemma zip_Forall {A B} (R : A -> B -> Prop) l k : Forall2 R l k -> Forall (fun e => R e.1 e.2) (zip l k).
Proof. induction 1; cbn [zip zip_with]; by constructor. Qed.

Lemma has_items_egroup s es : has_items (map snd es) s = match egroup s es with [] => false | _ => true end.
Proof. unfold has_items. rewrite <- egroup_snd. by destruct (egroup s es). Qed.

Lemma egroup_Forall (P : keypos * list bytes -> Prop) s es : Forall P es -> Forall P (egroup s es).
Proof. rewrite !Forall_forall. intros Hp e He. apply Hp. apply list_elem_of_In in He. apply filter_In in He as [He _]. by apply list_elem_of_In. Qed.

(** The part at [q] is that of the slot [s]. *)
Definition part_at (store : list cmd) (l : list (list bytes)) (s : Z) (q : nat) : Prop :=
  exists c, store !! q = Some c /\ written s (group s l) c.

Section Writes.
Context (b : branch) (es : list (keypos * list bytes)) (n : Z) (st : frag).
Context (Hb : branch_of t = Some b) (Hsp : spread es n st).
Context (Hall : Forall (fun e => at_item e.1 e.2 /\ hd [] e.2 <> []) es).
Context (Hmax : forall s, zlen (Format.encode (verb t :: concat (group s (map snd es)))) <= INT_MAX).

Lemma subs_inj s s' q : rd (subs st) s = Some (Some q) -> rd (subs st) s' = Some (Some q) -> s = s'.
Proof.
  intros Hs Hs'. destruct Hsp as [Hlen Hsub _ _]. apply rd_Some in Hs as Hr, Hs' as Hr'. rewrite Hlen in Hr, Hr'.
  pose proof (Hsub s Hr) as H1. pose proof (Hsub s' Hr') as H2.
  destruct (egroup s es); [congruence|]. destruct (egroup s' es); [congruence|].
  destruct H1 as (q1 & c1 & E1 & Hc1 & _ & _ & _ & _ & Hn1), H2 as (q2 & c2 & E2 & Hc2 & _ & _ & _ & _ & Hn2). congruence.
Qed.

Lemma frag_writes_spec cells : forall s num_str store' commands, 0 <= s -> s + zlen cells = REDIS_CLUSTER_SLOTS ->
  cells = drop (Z.to_nat s) (subs st) -> zlen num_str = 12 ->
  (forall s' q, s <= s' -> rd (subs st) s' = Some (Some q) -> store' !! q = store st !! q) ->
  exists store2 qs, frag_writes mem t cells num_str store' commands = Some (store2, commands ++ qs, None) /\
    Forall2 (fun s' q => rd (subs st) s' = Some (Some q) /\ part_at store2 (map snd es) s' q)
      (slots_from (map snd es) s (zlen cells)) qs /\
    (forall s' q, s' < s -> rd (subs st) s' = Some (Some q) -> store2 !! q = store' !! q).
Proof.
  induction cells as [|x cells IH]; intros s num_str store' commands Hs0 Hlen Hcells Hnum Hsame; cbn [frag_writes].
  { exists store', []. rewrite app_nil_r. split_and!; [done | constructor | done]. }
  rewrite zlen_cons in Hlen. pose proof (zlen_nonneg cells) as Hc0.
  assert (rd (subs st) s = Some x) as Hx.
  { unfold rd. rewrite decide_True by done. replace (Z.to_nat s) with (Z.to_nat s + 0)%nat by lia.
    rewrite <- lookup_drop, <- Hcells. done. }
  assert (cells = drop (Z.to_nat (s + 1)) (subs st)) as Hcells'.
  { replace (Z.to_nat (s + 1)) with (Z.to_nat s + 1)%nat by lia. by rewrite <- drop_drop, <- Hcells. }
  unfold slots_from in *. replace (seqZ s (zlen (x :: cells))) with (s :: seqZ (s + 1) (zlen cells)).
  2: { rewrite zlen_cons, (seqZ_cons s) by lia. by replace (Z.pred (1 + zlen cells)) with (zlen cells) by lia. }
  cbn [List.filter]. rewrite has_items_egroup. pose proof (spread_sub _ _ _ Hsp s ltac:(lia)) as Hsub.
  destruct x as [q|].
  - destruct (egroup s es) as [|e g] eqn:Eg; [congruence|]. destruct Hsub as (q0 & c & Hq0 & Hc & Hh).
    rewrite Hx in Hq0. injection Hq0 as <-. rewrite (Hsame s q) by (done || lia). rewrite Hc. cbn [mbind option_bind].
    rewrite <- Eg in Hh.
    destruct (frag_write_spec b s (egroup s es) c num_str Hb Hh) as (c' & num1 & -> & Hw & Hnum1).
    { by apply egroup_Forall. }
    { done. }
    { rewrite egroup_snd. apply Hmax. }
    cbn [mbind option_bind]. unfold add_tail. rewrite Hmem.
    destruct (IH (s + 1) num1 (<[q := c']> store') (commands ++ [q])) as (store2 & qs & E & Hf & Hframe); try done; try lia.
    { intros s' q' Hs' Hq'. rewrite list_lookup_insert_ne; [apply (Hsame s'); [lia | done]|].
      intros <-. pose proof (subs_inj s s' q Hx Hq'). lia. }
    exists store2, (q :: qs). rewrite E, <- app_assoc. split_and!; [done | | ].
    + constructor; [|done]. split; [done|]. exists c'. rewrite egroup_snd in Hw. split; [|done].
      rewrite (Hframe s q) by (done || lia). apply list_lookup_insert_eq. rewrite <- (Hsame s q) in Hc by (done || lia).
      by eapply lookup_lt_Some.
    + intros s' q' Hs' Hq'. rewrite (Hframe s' q') by (done || lia). apply list_lookup_insert_ne.
      intros <-. pose proof (subs_inj s s' q Hx Hq'). lia.
  - destruct (egroup s es) as [|e g]; [|destruct Hsub as (? & ? & ? & _); congruence].
    destruct (IH (s + 1) num_str store' commands) as (store2 & qs & E & Hf & Hframe); try done; try lia.
    { intros s' q' Hs'. apply Hsame. lia. }
    exists store2, qs. split_and!; try done. intros s' q' Hs'. apply Hframe. lia.
Qed.

End Writes.

(** The whole of [command_pre_fragment]. *)
Lemma pre_fragment_spec b r kl l i : branch_of t = Some b -> text r = Some mem -> ctype r = t -> HiArray.repr (keys r) kl ->
  Forall2 at_item kl l -> Forall (fun a => hd [] a <> []) l -> l <> [] -> total counted l <= INT_MAX -> 2 * zlen l < 2 ^ 31 ->
  (forall s, zlen (Format.encode (verb t :: concat (group s l))) <= INT_MAX) ->
  exists f, command_pre_fragment r i = Some f /\ ferror f = None /\ fslot f = default (-1) (item_slot <$> last l) /\
    if zlen (slots_of l) =? 1 then fcommands f = [] /\ fseq f = None /\ fcmd f = with_slot r (fslot f)
    else fcmd f = r /\ Forall2 (part_at (fstore f) l) (slots_of l) (fcommands f) /\
      exists sq, fseq f = Some sq /\ Forall2 (fun a x => exists j q, x = Some q /\ slots_of l !! j = Some (item_slot a) /\
        fcommands f !! j = Some q) l sq.
Proof.
  unfold slots_of. intros Hb Ht Hct Hr Hat Hne Hnn Htot Hbig Hmax. pose proof Hr as (Hnel & Hal & _).
  assert (length kl = length l) as Hll by (by eapply Forall2_length).
  set (es := zip kl l). assert (map fst es = kl) as Hfst by (apply fst_zip; lia). assert (map snd es = l) as Hsnd by (apply snd_zip; lia).
  assert (Forall (fun e => at_item e.1 e.2) es) as Hats by (by apply zip_Forall).
  assert (Forall (fun e => at_item e.1 e.2 /\ hd [] e.2 <> []) es) as Hboth.
  { apply Forall_and. split; [done|]. apply (Forall_map snd (fun a => hd [] a <> [])). unfold fmap, list_fmap. fold (map (snd (A := keypos) (B := list bytes)) es). by rewrite Hsnd. }
  assert (zlen es = zlen l) as Hzes by (rewrite <- Hsnd; by rewrite zlen_map).
  assert (HiArray.hiarray_n (keys r) = zlen l) as Hn by (unfold HiArray.hiarray_n; rewrite Hnel; unfold zlen; lia).
  unfold command_pre_fragment. rewrite !Hmem. cbn [negb]. rewrite Ht, (key_list_repr r kl Hr), Hn. change (default [] (Some mem)) with mem.
  cbn [mbind option_bind]. pose proof (zlen_nonneg l) as Hl0.
  destruct (frag_keys_spec es [] (zlen l) _ (spread_init (zlen l) i Hl0)) as (st & E & Hsp); cbn [app]; rewrite ?Hsnd; try done; try lia.
  change (zlen (@nil (keypos * list bytes))) with 0 in E. rewrite Hfst in E. rewrite Hct, E. cbn [mbind option_bind app] in *.
  destruct (frag_writes_spec b es (zlen l) st Hb Hsp Hboth ltac:(by rewrite Hsnd) (subs st) 0 (replicate 12 junk) (store st) [])
    as (store2 & qs & -> & Hf & _); try done.
  { rewrite (spread_len _ _ _ Hsp). done. }
  rewrite Hsnd, (spread_len _ _ _ Hsp) in Hf. cbn [mbind option_bind app].
  assert (zlen qs = zlen (slots_from l 0 REDIS_CLUSTER_SLOTS)) as Hqs by (unfold zlen; f_equal; symmetry; by eapply Forall2_length).
  assert (slot st = default (-1) (item_slot <$> last l)) as Hslot.
  { rewrite (spread_slot _ _ _ Hsp), <- Hsnd. change (map snd es) with (snd <$> es). rewrite fmap_last. by destruct (last es). }
  assert (0 <= slot st) as Hs0.
  { rewrite Hslot. destruct (last l) eqn:El; [apply item_slot_range|]. by apply last_None in El. }
  eexists. split; [done|]. unfold fragment_done. rewrite (proj2 (Z.leb_le _ _)) by done. cbn [andb]. rewrite Hqs.
  destruct (zlen (slots_from l 0 REDIS_CLUSTER_SLOTS) =? 1); cbn [ferror fslot fcommands fseq fcmd fstore]; split_and!; try done.
  - eapply Forall2_impl; [exact Hf|]. by intros s q [_ Hp].
  - exists (seq st). split; [done|]. destruct (spread_seq _ _ _ Hsp) as [Hsl Hsq]. rewrite <- Hsnd.
    apply Forall2_same_length_lookup. rewrite length_map. split; [unfold zlen in *; lia|].
    intros j a x Ha Hx. apply list_lookup_fmap_Some in Ha as (e & -> & He).
    destruct (Hsq (Z.of_nat j) e) as (q & Hq1 & Hq2); [unfold rd; rewrite decide_True by lia; by rewrite Nat2Z.id|].
    unfold rd in Hq1. rewrite decide_True, Nat2Z.id, Hx in Hq1 by lia. injection Hq1 as ->.
    assert (item_slot e.2 ∈ slots_from l 0 REDIS_CLUSTER_SLOTS) as Hin.
    { apply list_elem_of_In, filter_In. split; [apply list_elem_of_In, elem_of_seqZ; pose proof (item_slot_range e.2); lia|].
      rewrite <- Hsnd, has_items_egroup. pose proof (spread_sub _ _ _ Hsp _ (item_slot_range e.2)) as Hsub.
      destruct (egroup (item_slot e.2) es); [congruence | done]. }
    apply list_elem_of_lookup in Hin as [k Hk]. destruct (Forall2_lookup_l _ _ _ _ _ Hf Hk) as (q' & Hq' & Hrd & _).
    exists k, q. split_and!; [done | by rewrite Hsnd |]. congruence.
Qed.

End Pre.

(** ** From the text of a command *)

Lemma dec_bound n : 0 <= n -> n < 10 ^ zlen (dec n).
Proof.
  apply (dec_ind (fun n => n < 10 ^ zlen (dec n))); clear n.
  - intros n Hn. rewrite dec_small by done. change (10 ^ zlen [48 + n]) with 10. lia.
  - intros n Hn IH. rewrite dec_step, zlen_app by done. change (zlen [48 + n mod 10]) with 1.
    rewrite Z.pow_add_r by (zlen_pos; lia). pose proof (Z.div_mod n 10). pose proof (Z.mod_pos_bound n 10). lia.
Qed.

Lemma dec_mono m n : 0 <= m <= n -> zlen (dec m) <= zlen (dec n).
Proof.
  intros Hm. pose proof (dec_bound n ltac:(lia)). pose proof (dec_length_pos n ltac:(lia)).
  apply dec_length_pow; lia.
Qed.

(** The commands with several keys. *)
Definition vector_type (t : cmd_type) : Prop := t = CMD_REQ_REDIS_MGET \/ t = CMD_REQ_REDIS_DEL \/ t = CMD_REQ_REDIS_MSET.

Lemma vector_places t args p1 p2 ps : key_places t args = Some (p1 :: p2 :: ps) ->
  vector_type t /\ concat (items t args) = args /\ key_places t args = Some (if is_mset t then pair_tails args else tails args).
Proof.
  assert (concat (map (fun k : bytes => [k]) args) = args) as Hs by (induction args as [|a args IH]; [done | cbn; by rewrite IH]).
  unfold key_places, vector_type, items. intros E.
  destruct (redis_argx t) eqn:Ex.
  { destruct t; try done; (split; [auto|]; split; [exact Hs|]); destruct args; try done; exact E. }
  destruct (redis_argkvx t) eqn:Ekv; [|repeat case_match; simplify_eq; done].
  destruct t; try done. split; [auto|]. cbn in E |- *. destruct args as [|a args]; [done|].
  destruct ((zlen (a :: args) =? 1) || Z.even (zlen (a :: args))) eqn:Ev; [|done]. split; [|done].
  destruct (Z.eqb_spec (zlen (a :: args)) 1) as [E1|_]; [destruct args; [done | zl]|]. cbn [orb] in Ev.
  destruct (even_pairs (a :: args) Ev ltac:(done)) as [m Hm]. clear -Hm. revert Hm. generalize (a :: args). clear.
  induction m as [|m IH]; intros [|x [|y l]] Hl; try (simpl in Hl; lia); cbn [pairs concat app].
  - destruct l; [done | simpl in Hl; lia].
  - rewrite IH; [done|]. simpl in Hl. lia.
Qed.

Lemma named_length t nm : command_named nm = t -> vector_type t -> zlen nm = zlen (verb t).
Proof.
  intros Hn Hv. assert (forall l, named_in nm l = t -> t <> CMD_UNKNOWN -> (map lower nm, t) ∈ l) as Hin.
  { induction l as [|[n t'] l IH]; cbn [named_in]; [congruence|]. case_bool_decide as E; intros Ht Hne.
    - subst n t'. by left.
    - right. by apply IH. }
  specialize (Hin command_names Hn ltac:(by destruct Hv as [-> | [-> | ->]])).
  assert (Forall (fun e : bytes * cmd_type => match e.2 with
    | CMD_REQ_REDIS_MGET | CMD_REQ_REDIS_DEL | CMD_REQ_REDIS_MSET => zlen e.1 = zlen (verb e.2) | _ => True end) command_names)
    as HF by (repeat constructor).
  rewrite Forall_forall in HF. specialize (HF _ Hin). cbn [fst snd] in HF. rewrite zlen_map in HF.
  by destruct Hv as [-> | [-> | ->]].
Qed.

Lemma vector_branch t : vector_type t -> exists b, branch_of t = Some b.
Proof. intros [-> | [-> | ->]]; by eexists. Qed.

Lemma zlen_tail_le (l k : bytes) : zlen l <= zlen (l ++ k).
Proof. zl. Qed.

Lemma items_located mem t args kl : zlen mem <= INT_MAX -> vector_type t -> concat (items t args) = args ->
  Forall2 (located mem) kl (if is_mset t then pair_tails args else tails args) -> Forall2 (at_item mem t) kl (items t args).
Proof.
  intros Hmax _ Hcat Hl. unfold items in *. destruct (is_mset t) eqn:Et.
  - assert (exists n, length args <= n)%nat as [n Hn] by eauto. revert kl args Hn Hcat Hl.
    induction n as [|n IH]; intros kl args Hn Hcat Hl.
    all: destruct args as [|k [|v args]]; cbn [pair_tails pairs] in *; try done; try (simpl in Hn; lia).
    all: try (by inversion Hl).
    apply Forall2_cons_inv_r in Hl as (kp & kl' & (a & args' & pre & rest & [= <- <-] & Hm & Hs & He) & Hl & ->).
    constructor; [|apply IH; [simpl in Hn; lia | cbn [concat app] in Hcat; congruence | done]].
    exists k, pre, (flat_map Format.bulk args ++ rest). rewrite Et. cbn [tail_of].
    assert (mem = (pre ++ k ++ CRLF ++ Format.bulk v) ++ flat_map Format.bulk args ++ rest) as Hm'.
    { rewrite Hm. unfold CRLF. cbn [flat_map]. by repeat (rewrite <- app_assoc || cbn [app]). }
    split_and!; [by rewrite Hm'; repeat (rewrite <- app_assoc) | done | done | |].
    + exists v. split; [done|]. rewrite Hm' in Hmax. unfold Format.bulk in Hmax. zl.
    + rewrite Hm' in Hmax. eapply Z.le_trans; [apply zlen_tail_le | exact Hmax].
  - clear Hcat. revert args Hl. induction kl as [|kp kl IH]; intros args Hl.
    { by apply Forall2_nil_inv_l in Hl; destruct args; [constructor|]. }
    destruct args as [|k args]; [by inversion Hl|]. cbn [tails map] in *. inversion Hl as [|? ? ? ? Hk Hl']; subst.
    constructor; [|by apply IH]. destruct Hk as (a & args' & pre & rest & [= <- <-] & Hm & Hs & He).
    exists k, pre, (CR :: LF :: flat_map Format.bulk args ++ rest). rewrite Et. cbn [tail_of]. split_and!; try done.
    rewrite app_nil_r. rewrite Hm, app_assoc in Hmax. eapply Z.le_trans; [apply zlen_tail_le | exact Hmax].
Qed.

(** ** Nothing is lost *)

Lemma group_cons s a l : group s (a :: l) = if item_slot a =? s then a :: group s l else group s l.
Proof. done. Qed.

Lemma groups_cons a l ss : NoDup ss -> item_slot a ∈ ss ->
  concat (map (fun s => group s (a :: l)) ss) ≡ₚ a :: concat (map (fun s => group s l) ss).
Proof.
  induction 1 as [|s ss Hs _ IH]; intros Hin; [by apply not_elem_of_nil in Hin|]. cbn [map concat]. rewrite group_cons.
  destruct (Z.eqb_spec (item_slot a) s) as [E|E].
  - cbn [app]. constructor. apply Permutation_app_head. assert (forall ss', s ∉ ss' -> concat (map (fun s => group s (a :: l)) ss') =
      concat (map (fun s => group s l) ss')) as Hout; [|by rewrite Hout].
    intros ss'. induction ss' as [|s' ss' IH']; [done|]. intros [Hne Hn]%not_elem_of_cons. cbn [map concat]. rewrite group_cons, (proj2 (Z.eqb_neq _ _)) by congruence. by rewrite IH'.
  - apply elem_of_cons in Hin as [?|Hin]; [congruence|]. rewrite (IH Hin). by rewrite Permutation_middle.
Qed.

Lemma groups_all l ss : NoDup ss -> Forall (fun a => item_slot a ∈ ss) l ->
  concat (map (fun s => group s l) ss) ≡ₚ l.
Proof.
  intros Hnd. induction l as [|a l IH]; intros Hall.
  - clear. induction ss as [|s ss IH]; [done|]. exact IH.
  - inversion_clear Hall as [|? ? Ha Hl]. rewrite groups_cons by done. by rewrite IH.
Qed.

(** The parts together hold the items, each once. *)
Lemma parts_complete l : concat (map (fun s => group s l) (slots_of l)) ≡ₚ l.
Proof.
  unfold slots_of, slots_from. transitivity (concat (map (fun s => group s l) (seqZ 0 REDIS_CLUSTER_SLOTS))).
  - generalize (seqZ 0 REDIS_CLUSTER_SLOTS). intros ss. induction ss as [|s ss IH]; [done|]. cbn [List.filter map concat].
    unfold has_items at 1. destruct (group s l) eqn:E; cbn [map concat app]; [exact IH|]. rewrite E. by rewrite IH.
  - apply groups_all; [apply NoDup_seqZ|]. apply Forall_forall. intros a _. apply elem_of_seqZ.
    pose proof (item_slot_range a). lia.
Qed.

Lemma group_smaller s l : zlen (concat (group s l)) <= zlen (concat l) /\
  zlen (flat_map Format.bulk (concat (group s l))) <= zlen (flat_map Format.bulk (concat l)).
Proof.
  induction l as [|a l [IH1 IH2]]; [done|]. cbn [group List.filter concat]. fold (group s l).
  rewrite zlen_app, List.flat_map_app, zlen_app.
  destruct (item_slot a =? s); cbn [concat]; rewrite ?List.flat_map_app, ?zlen_app; zlen_pos; lia.
Qed.

Lemma part_smaller t nm args s : command_named nm = t -> vector_type t -> concat (items t args) = args ->
  zlen (Format.encode (verb t :: concat (group s (items t args)))) <= zlen (Format.encode (nm :: args)).
Proof.
  intros Hn Hv Hcat. pose proof (named_length t nm Hn Hv) as Hl. pose proof (group_smaller s (items t args)) as [H1 H2].
  rewrite Hcat in H1, H2. rewrite !Format.zlen_encode, !Format.flat_bulk_cons, !Format.zlen_bulk, !zlen_cons, Hl.
  pose proof (zlen_nonneg (concat (group s (items t args)))).
  pose proof (dec_mono (1 + zlen (concat (group s (items t args)))) (1 + zlen args) ltac:(lia)). lia.
Qed.

(** The texts of the parts and the slots they are sent to. *)
Definition parts_of (f : fragmented) : option (list (Z * bytes)) :=
  mapM (fun q => c ← fstore f !! q; b ← text c; if clen c =? zlen b then Some (slot_num c, b) else None) (fcommands f).

Lemma parts_of_spec t f l : Forall2 (part_at t (fstore f) l) (slots_of l) (fcommands f) ->
  parts_of f = Some (map (part t l) (slots_of l)).
Proof.
  intros Hf. apply mapM_Some. generalize dependent (fcommands f). induction (slots_of l) as [|s ss IH]; intros qs Hf.
  - inversion Hf. constructor.
  - inversion Hf as [|? q ? qs' (c & Hc & Hs & Ht & Hcl & _) Hf']; subst. cbn [map]. constructor; [|by apply IH].
    rewrite Hc. cbn [mbind option_bind]. rewrite Ht. cbn [mbind option_bind]. by rewrite Hcl, Z.eqb_refl.
Qed.

(** The keys of the command point to their parts. *)
Definition seq_ok (f : fragmented) (l : list (list bytes)) : Prop :=
  exists sq, fseq f = Some sq /\ Forall2 (fun a x => exists j q, x = Some q /\ slots_of l !! j = Some (item_slot a) /\
    fcommands f !! j = Some q) l sq.

(** What [command_format_by_slot] does with a command: an error for a command it cannot
    send, the slot of the keys when there is only one, and otherwise the parts, in the order
    of their slots. *)
Definition formatted (f : fragmented) (t : cmd_type) (args : list bytes) (r : cmd) (ks : list bytes) : Prop :=
  match ks with
  | [] => fslot f = -1 /\ is_Some (ferror f) /\ fcommands f = []
  | [k] => fslot f = Crc16.keyHashSlot k /\ ferror f = None /\ fcommands f = [] /\ slot_num (fcmd f) = Crc16.keyHashSlot k /\
      text (fcmd f) = text r /\ clen (fcmd f) = clen r
  | _ =>
      let l := items t args in
      vector_type t /\ concat l = args /\ map (hd []) l = ks /\ ferror f = None /\
      text (fcmd f) = text r /\ clen (fcmd f) = clen r /\ ctype (fcmd f) = t /\
      if zlen (slots_of l) =? 1
      then fcommands f = [] /\ slot_num (fcmd f) = fslot f /\ slots_of l = [fslot f]
      else slot_num (fcmd f) = slot_num r /\ 0 <= fslot f < REDIS_CLUSTER_SLOTS /\
        parts_of f = Some (map (part t l) (slots_of l)) /\ seq_ok f l /\ concat (map (fun s => group s l) (slots_of l)) ≡ₚ l
  end.

Lemma slot_listed l a : a ∈ l -> item_slot a ∈ slots_of l.
Proof.
  intros Ha. apply list_elem_of_In, filter_In. split.
  { apply list_elem_of_In, elem_of_seqZ. pose proof (item_slot_range a). lia. }
  unfold has_items. assert (In a (group (item_slot a) l)) as Hin
    by (apply filter_In; split; [by apply list_elem_of_In | apply Z.eqb_refl]).
  by destruct (group (item_slot a) l).
Qed.

Section Format.
Context `{Memory}.

Lemma format_by_slot_vector r r' nm args rest i p1 p2 ps : has_memory -> nm <> [] ->
  text r = Some (Format.encode (nm :: args) ++ rest) -> clen r = zlen (Format.encode (nm :: args)) ->
  zlen (Format.encode (nm :: args) ++ rest) <= INT_MAX ->
  redis_parse_cmd r = Some r' -> key_places (command_named nm) args = Some (p1 :: p2 :: ps) ->
  parsed_at (Format.encode (nm :: args) ++ rest) (zlen args + 1) r r' (command_named nm) (Some (p1 :: p2 :: ps)) ->
  Forall (fun k => k <> []) (map (hd []) (p1 :: p2 :: ps)) ->
  exists f, command_pre_fragment r' i = Some f /\ formatted f (command_named nm) args r (map (hd []) (p1 :: p2 :: ps)).
Proof.
  intros Hmem Hne Ht Hc Hmax Hp Hpl (Htx & Hcl & Hsl & Hres & Hct & Hna & kl & Hr & Hloc) Hke.
  destruct (vector_places _ _ _ _ _ Hpl) as (Hv & Hcat & Hpl'). rewrite Hpl in Hpl'. injection Hpl' as Hpl'.
  set (t := command_named nm) in *. set (l := items t args).
  assert (map (hd []) l = map (hd []) (p1 :: p2 :: ps)) as Hheads.
  { rewrite Hpl'. unfold l, items. destruct (is_mset t) eqn:Et.
    - rewrite pair_tails_heads. assert (exists n, length args <= n)%nat as [n Hn] by eauto. clear -Hcat Hn Et.
      unfold items in Hcat. rewrite Et in Hcat. revert args Hn Hcat.
      induction n as [|n IH]; intros [|k [|v args]] Hn Hcat; try done; try (simpl in Hn; lia).
      cbn [pairs map hd pair_keys]. f_equal. apply IH; [simpl in Hn; lia|]. cbn in Hcat. congruence.
    - rewrite tails_heads, map_map. cbn [hd]. apply map_id. }
  assert (Forall2 (at_item (Format.encode (nm :: args) ++ rest) t) kl l) as Hat.
  { apply items_located; try done. rewrite Hpl' in Hloc. done. }
  assert (2 <= zlen l) as Hl2.
  { rewrite <- (zlen_map (hd [])), Hheads, zlen_map, !zlen_cons. zlen_pos. lia. }
  destruct (vector_branch t Hv) as [b Hb].
  assert (Forall (shaped t) l) as Hsh.
  { clear -Hat. induction Hat as [|kp a kl l Ha _ IH]; constructor; [by eapply at_item_shaped | done]. }
  destruct (branch_lengths t b l Hb Hsh) as (Hlen & _ & _). change (concat l = args) in Hcat. rewrite Hcat in Hlen.
  pose proof (Format.zlen_encode (nm :: args)) as Hen. rewrite Format.flat_bulk_cons, Hlen in Hen.
  rewrite zlen_app in Hmax. unfold INT_MAX in Hmax. pose proof (total_nonneg l). zlen_pos.
  assert (3 * zlen l <= per_key b * zlen l) by (assert (3 <= per_key b) by (destruct Hv as [Hv | [Hv | Hv]]; rewrite Hv in Hb; injection Hb as <-; done); nia).
  destruct (pre_fragment_spec Hmem (Format.encode (nm :: args) ++ rest) t b r' kl l i) as (f & E & Hfe & Hfs & Hf);
    try done; try (unfold INT_MAX; lia); try congruence.
  { apply (Forall_map (hd []) (fun k => k <> [])). unfold fmap, list_fmap. fold (map (hd (@nil Z)) l). by rewrite Hheads. }
  { intros ->. change (zlen (@nil (list bytes))) with 0 in *. lia. }
  { intros s. eapply Z.le_trans; [by apply part_smaller|]. unfold INT_MAX. lia. }
  exists f. split; [done|]. cbn [map formatted]. fold l.
  assert (exists a, last l = Some a /\ a ∈ l) as (a & Hla & Hin).
  { destruct (last l) as [a|] eqn:El; [exists a; split; [done | by apply last_Some_elem_of]|]. apply last_None in El. rewrite El in Hl2. done. }
  rewrite Hla in Hfs. change (fslot f = item_slot a) in Hfs.
  apply slot_listed in Hin. destruct (Z.eqb_spec (zlen (slots_of l)) 1) as [E1|E1].
  - destruct Hf as (Hf1 & _ & Hf3). rewrite Hf3. cbn [text clen ctype slot_num with_slot].
    destruct (slots_of l) as [|s [|? ?]] eqn:Es; [done | | rewrite !zlen_cons in E1; zlen_pos; lia].
    apply list_elem_of_singleton in Hin as Hsa. rewrite Hfs, Hsa. split_and!; try done; congruence.
  - destruct Hf as (Hf1 & Hf2 & Hf3). rewrite Hf1. pose proof (item_slot_range a). split_and!; try done; try congruence; try (rewrite Hfs; lia).
    + by apply parts_of_spec.
    + apply parts_complete.
Qed.

Lemma places_length t args places : key_places t args = Some places -> zlen places <= zlen args.
Proof.
  assert (forall args, zlen (tails args) = zlen args) as Ht
    by (clear; intros args; induction args as [|a args IH]; [done | cbn [tails]; rewrite !zlen_cons, IH; done]).
  assert (forall n args, (length args <= n)%nat -> zlen (pair_tails args) <= zlen args) as Hp.
  { clear. induction n as [|n IH]; intros [|k [|v args]] Hn; try done; try (simpl in Hn; lia).
    cbn [pair_tails]. rewrite !zlen_cons. specialize (IH args ltac:(simpl in Hn; lia)). lia. }
  specialize (Hp (length args) args ltac:(done)). pose proof (zlen_nonneg args) as H0.
  unfold key_places. intros E. repeat case_match; simplify_eq; try done; rewrite ?Ht; zl.
Qed.

(** The result for the text of any command. *)
Lemma format_by_slot_text r nm args rest i : has_memory -> fresh_cmd r -> nm <> [] ->
  text r = Some (Format.encode (nm :: args) ++ rest) -> clen r = zlen (Format.encode (nm :: args)) ->
  zlen (Format.encode (nm :: args) ++ rest) <= INT_MAX ->
  (forall t ks, command_of nm args = Some (t, ks) -> Forall (fun k => k <> []) ks) ->
  exists f, command_format_by_slot r i = Some f /\
    match command_of nm args with
    | None => formatted f CMD_UNKNOWN args r []
    | Some (t, ks) => formatted f t args r ks
    end.
Proof.
  intros Hmem Hf Hne Ht Hc Hmax Hke. pose proof (zlen_tail_le (Format.encode (nm :: args)) rest) as Hle.
  destruct (parse_places r nm args rest Hmem Hf Hne Ht Hc ltac:(lia)) as (r' & Ep & Hp).
  assert (0 < clen r) as Hcpos.
  { rewrite Hc, Format.zlen_encode. pose proof (dec_length_pos (zlen (nm :: args)) ltac:(zlen_pos; lia)). zlen_pos. lia. }
  assert (command_of nm args = ks ← (map (hd []) <$> places_of nm args); Some (command_named nm, ks)) as Hco.
  { unfold command_of, places_of. pose proof (fun t => key_places_args t args) as Hkp.
    destruct (command_named nm); rewrite ?Hkp; reflexivity. }
  unfold command_format_by_slot. rewrite Ht, (proj2 (Z.leb_gt _ _)), Ep by done. cbn [mbind option_bind].
  rewrite Hco in Hke |- *. destruct (places_of nm args) as [places|] eqn:Epl; cbn [fmap option_fmap option_map mbind option_bind] in *.
  2: { destruct Hp as (_ & _ & _ & Hres & [msg Hmsg]). rewrite Hres, Hmsg. cbn [mbind option_bind]. eexists. split; [done|].
       split_and!; by try eexists. }
  assert (key_places (command_named nm) args = Some places) as Hpl by (unfold places_of in Epl; by destruct (command_named nm)).
  pose proof Hp as (Htx & Hcl & Hsl & Hres & Hct & Hna & kl & Hr & Hloc). rewrite Hres.
  assert (zlen kl = zlen places) as Hzk by (unfold zlen; f_equal; by eapply Forall2_length).
  assert (zlen places < 2 ^ 31) as Hbig.
  { apply places_length in Hpl. rewrite Format.zlen_encode in Hle. pose proof (Format.zlen_strs (nm :: args)) as Hst.
    rewrite zlen_cons in Hst. unfold INT_MAX in Hmax. zlen_pos. lia. }
  unfold HiArray.hiarray_n. rewrite (proj1 Hr), Hzk, i32_small by (unfold INT_MIN, INT_MAX; zlen_pos; lia).
  destruct places as [|p1 [|p2 ps]].
  - eexists. split; [done|]. split_and!; by try eexists.
  - cbn [map]. change (zlen [p1]) with 1. cbn [Z.leb Z.compare Z.eqb Pos.eqb].
    apply Forall2_cons_inv_r in Hloc as (kp & kl' & Hk & Hnil & ->). apply Forall2_nil_inv_r in Hnil as ->.
    rewrite (HiArray.repr_lookup _ [kp] 0 kp Hr) by done. cbn [mbind option_bind].
    destruct Hk as (k & args' & pre & rest' & -> & Hm & Hs & He). rewrite Hm, (span_at pre k) by done.
    cbn [mbind option_bind hd]. eexists. split; [done|]. split_and!; done || congruence.
  - rewrite (proj2 (Z.leb_gt _ _)), (proj2 (Z.eqb_neq _ _)) by (rewrite !zlen_cons; zlen_pos; lia).
    apply (format_by_slot_vector r r' nm args rest i p1 p2 ps); try done. by eapply Hke.
Qed.

(** C25: a command is cut up as it should be: [command_format_by_slot] on the text of any
    command without an empty key ([empty_key_overrun] shows what an empty key does) reports an error when the command cannot be parsed or has no key, gives the slot
    of the key or of the keys when that is one slot, and otherwise builds, in the order of
    the slots, exactly the texts of the MGET, DEL or MSET commands with the items of each
    slot; no item is lost, doubled or put elsewhere, and every key points to its part. *)
Theorem format_by_slot_spec (r : cmd) (nm : bytes) (args : list bytes) (rest : bytes) (i : Z)
    (Hmem : has_memory) (Hfresh : fresh_cmd r) (Hname : nm <> [])
    (Htext : text r = Some (Format.encode (nm :: args) ++ rest)) (Hclen : clen r = zlen (Format.encode (nm :: args)))
    (Hmax : zlen (Format.encode (nm :: args) ++ rest) <= INT_MAX)
    (Hkeys : forall t ks, command_of nm args = Some (t, ks) -> Forall (fun k => k <> []) ks) :
  exists f, command_format_by_slot r i = Some f /\
    match command_of nm args with
    | None => formatted f CMD_UNKNOWN args r []
    | Some (t, ks) => formatted f t args r ks
    end.
Proof. by apply (format_by_slot_text r nm args rest i). Qed.

End Format.

(** ** Concrete commands *)

#[local] Existing Instance demo_memory.

(** A command with the text of these arguments. *)
Definition demo_vector (args : list bytes) : cmd := set_text demo_cmd (Format.encode args ++ [0]) (zlen (Format.encode args)).

Lemma format_by_slot_spec_witness :
  map Crc16.keyHashSlot [bstr "{a}1"; bstr "b"; bstr "{a}2"] = [15495; 3300; 15495] /\
  exists f, command_format_by_slot (demo_vector [bstr "MSET"; bstr "{a}1"; bstr "x"; bstr "b"; []; bstr "{a}2"; bstr "y"]) 1 = Some f /\
    match command_of (bstr "MSET") [bstr "{a}1"; bstr "x"; bstr "b"; []; bstr "{a}2"; bstr "y"] with
    | None => formatted f CMD_UNKNOWN [bstr "{a}1"; bstr "x"; bstr "b"; []; bstr "{a}2"; bstr "y"]
        (demo_vector [bstr "MSET"; bstr "{a}1"; bstr "x"; bstr "b"; []; bstr "{a}2"; bstr "y"]) []
    | Some (t, ks) => formatted f t [bstr "{a}1"; bstr "x"; bstr "b"; []; bstr "{a}2"; bstr "y"]
        (demo_vector [bstr "MSET"; bstr "{a}1"; bstr "x"; bstr "b"; []; bstr "{a}2"; bstr "y"]) ks
    end.
Proof.
  split; [vm_compute; reflexivity|].
  apply (format_by_slot_spec (demo_vector [bstr "MSET"; bstr "{a}1"; bstr "x"; bstr "b"; []; bstr "{a}2"; bstr "y"]) (bstr "MSET") _ [0]
    1 demo_has_memory (demo_fresh _ _)); try done.
  intros t ks E. injection E as _ <-. by repeat constructor.
Defined.

(** An empty key in a part overruns the buffer of the part: the length of the empty key
    is printed as the digits of the number printed before it, because [hi_itoa] stores
    nothing for 0 ("{fHh}abcdef" and "" are keys of slot 0). *)
Theorem empty_key_overrun :
  map Crc16.keyHashSlot [bstr "{fHh}abcdef"; []; bstr "b"] = [0; 0; 3300] /\
  command_format_by_slot (demo_vector [bstr "MGET"; bstr "{fHh}abcdef"; []; bstr "b"]) 1 = None.
Proof. vm_compute. by split. Qed.

End Frag.
