(* ===== verification/Gather.v ===== *)
(** The replies to the parts of a command with several keys are put together again,
    hircluster.c ([command_post_fragment]). *)
From S2P Require Import Prelude HiUtil Format Command Sds Read Reply Frag.
Import HiUtil Command Reply.

Open Scope Z_scope.

Module Gather.

Import Frag.

Section Ops.
Context `{Memory}.

Definition REDIS_STATUS_OK : bytes := bstr "OK".

(** [strcmp(reply->str, REDIS_STATUS_OK) == 0]. *)
Definition str_is_ok (h : heap) (r : redisReply) : option bool :=
  b ← str r;
  match h !! b with
  | Some (BChars cs) => s ← cstr cs; Some (bool_decide (s = REDIS_STATUS_OK))
  | _ => None
  end.

(** What [command_post_fragment] returns early: a reply and an error. *)
Abbreviation early := (option loc * option cerror)%type.

Definition type_error (msg : string) : early := (None, Some (set_error Read.REDIS_ERR_OTHER (bstr msg))).

(** The loop over the parts: their replies must have the type the command gives. *)
Fixpoint check_parts (t : cmd_type) (h : heap) (replies : list (option loc)) (count : Z) : option (Z + early) :=
  match replies with
  | [] => Some (inl count)
  | None :: _ => Some (inr (None, None))
  | Some l :: replies' =>
      r ← load_reply h l;
      if rtype r =? Read.REDIS_REPLY_ERROR then Some (inr (Some l, None))
      else
        match t with
        | CMD_REQ_REDIS_MGET =>
            if negb (rtype r =? Read.REDIS_REPLY_ARRAY)
            then Some (inr (type_error "reply type is error(here only can be array)"))
            else check_parts t h replies' count
        | CMD_REQ_REDIS_DEL =>
            if negb (rtype r =? Read.REDIS_REPLY_INTEGER)
            then Some (inr (type_error "reply type is error(here only can be integer)"))
            else check_parts t h replies' (i64 (count + integer r))
        | CMD_REQ_REDIS_MSET =>
            ok ← (if negb (rtype r =? Read.REDIS_REPLY_STATUS) || negb (rlen r =? 2) then Some false else str_is_ok h r);
            if negb ok then Some (inr (type_error "reply type is error(here only can be status and ok)"))
            else check_parts t h replies' count
        | _ => None
        end
  end.

(** [reply->element[i] = x]. *)
Definition set_element (e : loc) (i : Z) (x : option loc) (h : heap) : option heap :=
  ps ← load_ptrs h e; ps ← wr ps i x; Some (<[e := BPtrs ps]> h).

(** The loop over the keys of an MGET, from the last to the first: [seq] are the replies of
    the parts of the keys, [i] the index of the first of them. A part gives its last element
    and forgets it. *)
Fixpoint gather (reply e : loc) (seq : list (option loc)) (i : Z) (h : heap) : option (heap + (heap * cerror)) :=
  match seq with
  | [] => Some (inl h)
  | sub :: seq' =>
      let fail msg h := h ← freeReplyObject (Some reply) h; Some (inr (h, set_error Read.REDIS_ERR_OTHER (bstr msg))) in
      match sub with
      | None => fail "sub reply is null" h
      | Some l =>
          r ← load_reply h l;
          if rtype r =? Read.REDIS_REPLY_STRING then
            h ← set_element e i (Some l) h; gather reply e seq' (i - 1) h
          else if rtype r =? Read.REDIS_REPLY_ARRAY then
            if relements r =? 0 then fail "sub reply elements error" h
            else
              v ← element r;
              ps ← load_ptrs h v;
              x ← rd ps (relements r - 1);
              h ← set_element e i x h;
              gather reply e seq' (i - 1)
                (<[l := BReply (mk_reply (rtype r) (integer r) (rlen r) (str r) (relements r - 1) (element r))]> h)
          else gather reply e seq' (i - 1) h
      end
  end.

(** [sizeof(listIter)]: the iterator over the parts is used untested, and never released. *)
Definition iter_size : Z := 16.

(** [command_post_fragment]: [replies] are the replies of the parts in the order of the
    list, [seq] those of the parts of the keys. The vector of the elements is allocated with
    room for as many objects; only as many pointers are used. *)
Definition command_post_fragment (t : cmd_type) (replies seq : list (option loc)) (h : heap) :
    option (heap * option loc * option cerror) :=
  x ← (if malloc_ok iter_size then check_parts t h replies 0 else None);
  match x with
  | inr (rep, e) => Some (h, rep, e)
  | inl count =>
      match createReplyObject 0 h with
      | None => Some (h, None, Some oom_error)
      | Some (r, h) =>
          match t with
          | CMD_REQ_REDIS_MGET =>
              let key_count := zlen seq in
              let h := <[r := BReply (mk_reply Read.REDIS_REPLY_ARRAY 0 0 None key_count None)]> h in
              match alloc (u64 (key_count * reply_size)) (BPtrs (replicate (length seq) None)) h with
              | None => h ← freeReplyObject (Some r) h; Some (h, None, Some oom_error)
              | Some (e, h) =>
                  let h := <[r := BReply (mk_reply Read.REDIS_REPLY_ARRAY 0 0 None key_count (Some e))]> h in
                  y ← gather r e (rev seq) (key_count - 1) h;
                  match y with
                  | inr (h, e) => Some (h, None, Some e)
                  | inl h => Some (h, Some r, None)
                  end
              end
          | CMD_REQ_REDIS_DEL =>
              Some (<[r := BReply (mk_reply Read.REDIS_REPLY_INTEGER count 0 None 0 None)]> h, Some r, None)
          | CMD_REQ_REDIS_MSET =>
              let h := <[r := BReply (mk_reply Read.REDIS_REPLY_STATUS 0 0 None 0 None)]> h in
              match alloc (u64 (3 * 8)) (BChars (REDIS_STATUS_OK ++ 0 :: replicate 21 junk)) h with
              | None => h ← freeReplyObject (Some r) h; Some (h, None, Some oom_error)
              | Some (b, h) =>
                  Some (<[r := BReply (mk_reply Read.REDIS_REPLY_STATUS 0 2 (Some b) 0 None)]> h, Some r, None)
              end
          | _ => None
          end
      end
  end.

End Ops.

(** ** Heaps in pieces *)

Fixpoint uni (ms : list heap) : heap := match ms with [] => ∅ | m :: ms' => m ∪ uni ms' end.

(** The pieces are disjoint. *)
Fixpoint apart (ms : list heap) : Prop := match ms with [] => True | m :: ms' => m ##ₘ uni ms' /\ apart ms' end.

Lemma uni_disjoint (m : heap) ms : m ##ₘ uni ms <-> Forall (fun m' => m ##ₘ m') ms.
Proof.
  induction ms as [|m' ms IH]; cbn [uni]; [split; [constructor | intros _; apply map_disjoint_empty_r]|].
  by rewrite map_disjoint_union_r, IH, Forall_cons.
Qed.

Lemma pieces_perm ms ms' : ms ≡ₚ ms' -> apart ms -> apart ms' /\ uni ms = uni ms'.
Proof.
  induction 1 as [|m ms ms' Hp IH|m1 m2 ms|ms1 ms2 ms3 _ IH1 _ IH2]; cbn [apart uni].
  - done.
  - intros [Hd Ha]. destruct (IH Ha) as [Ha' ->]. rewrite uni_disjoint in Hd |- *. split; [split; [by rewrite <- Hp | done] | done].
  - intros (Hd1 & Hd2 & Ha). apply map_disjoint_union_r in Hd1 as [H12 Hd1].
    split; [split_and!; [by apply map_disjoint_union_r | done | done]|].
    by rewrite !(assoc_L (∪)), (map_union_comm m2 m1).
  - intros Ha. destruct (IH1 Ha) as [Ha2 ->]. by apply IH2.
Qed.

(** A block of a piece. *)
Lemma piece_lookup (m : heap) ms ms' l b : apart (ms ++ m :: ms') -> m !! l = Some b -> uni (ms ++ m :: ms') !! l = Some b.
Proof.
  intros Ha Hl. destruct (pieces_perm _ (m :: ms ++ ms') (symmetry (Permutation_middle _ _ _)) Ha) as [_ ->].
  cbn [uni]. by apply lookup_union_Some_l.
Qed.

Lemma piece_update (m : heap) ms ms' l b : is_Some (m !! l) -> apart (ms ++ m :: ms') ->
  <[l := b]> (uni (ms ++ m :: ms')) = uni (ms ++ <[l := b]> m :: ms') /\ apart (ms ++ <[l := b]> m :: ms').
Proof.
  intros [b0 Hl] Ha. destruct (pieces_perm _ (m :: ms ++ ms') (symmetry (Permutation_middle _ _ _)) Ha) as [[Hd Ha'] ->].
  assert (apart (<[l := b]> m :: ms ++ ms')) as Hn.
  { split; [|done]. apply map_disjoint_insert_l. split; [by eapply map_disjoint_Some_l | done]. }
  destruct (pieces_perm _ (ms ++ <[l := b]> m :: ms') (Permutation_middle _ _ _) Hn) as [Hn' <-].
  split; [|done]. cbn [uni]. by rewrite insert_union_l.
Qed.

(** A piece cut in two. *)
Lemma piece_split (m1 m2 : heap) ms : m1 ##ₘ m2 -> apart (m1 ∪ m2 :: ms) <-> apart (m1 :: m2 :: ms).
Proof.
  intros H12. cbn [apart uni]. rewrite map_disjoint_union_l, map_disjoint_union_r. tauto.
Qed.

Lemma uni_split (m1 m2 : heap) ms : uni (m1 ∪ m2 :: ms) = uni (m1 :: m2 :: ms).
Proof. cbn [uni]. by rewrite (assoc_L (∪)). Qed.

(** ** The parts of an MGET *)

(** The reply of a part that still has to give the values [vs]. *)
Definition array_left (n : Z) (e : loc) : redisReply := mk_reply Read.REDIS_REPLY_ARRAY 0 0 None n (Some e).

Definition left_with (l e : loc) (ps : list (option loc)) (n : Z) (m : heap) : heap :=
  <[l := BReply (array_left n e)]> (<[e := BPtrs ps]> m).

Definition part_reply (l : loc) (vs : list value) (M : heap) : Prop :=
  exists e ls junk m, trees vs (map Some ls) m /\ l <> e /\ m !! l = None /\ m !! e = None /\
    M = left_with l e (map Some ls ++ junk) (zlen vs) m.

Definition whole (v : value) : Prop := v <> VHole.

Lemma trees_whole vs ps m : trees vs ps m -> Forall whole vs -> exists ls, ps = map Some ls.
Proof.
  induction 1 as [|vs ps m _ IH|v vs l ps m1 m2 _ _ IH _]; intros Hw.
  - by exists [].
  - by inversion Hw.
  - inversion_clear Hw as [|? ? _ Hvs]. destruct (IH Hvs) as [ls ->]. by exists (l :: ls).
Qed.

Lemma tree_part l vs M : tree (VArray (zlen vs) vs) l M -> vs <> [] -> Forall whole vs -> part_reply l vs M.
Proof.
  intros Ht Hne Hw. inversion Ht as [| | |? ? Hn|vs' l' e ps m Hn Hts Hle Hml Hme]; subst; [done|].
  destruct (trees_whole _ _ _ Hts Hw) as [ls ->]. exists e, ls, [], m. split_and!; try done.
  rewrite app_nil_r. unfold left_with, array_left, array_reply. unfold INT_MAX in Hn. by rewrite uwrap_small by lia.
Qed.

Lemma trees_snoc_inv vs v ps m : trees (vs ++ [v]) ps m -> whole v -> exists ps' l m1 m2,
  ps = ps' ++ [Some l] /\ trees vs ps' m1 /\ tree v l m2 /\ m1 ##ₘ m2 /\ m = m1 ∪ m2.
Proof.
  revert ps m. induction vs as [|x vs IH]; intros ps m Ht Hw; inversion Ht as [|? ps0 ? Ht0|? ? l ps0 m1 m2 Hv Hts Hd]; subst.
  - done.
  - inversion Hts; subst. exists [], l, ∅, m1. split_and!; [done | constructor | done | apply map_disjoint_empty_l |].
    by rewrite (left_id_L ∅ (∪)), (right_id_L ∅ (∪)).
  - destruct (IH ps0 m Ht0 Hw) as (ps' & l & m1 & m2 & -> & Hts & Hv & Hd & ->).
    exists (None :: ps'), l, m1, m2. split_and!; try done. by constructor.
  - destruct (IH ps0 m2 Hts Hw) as (ps' & l' & m3 & m4 & -> & Hts' & Hv' & Hd' & ->).
    apply map_disjoint_union_r in Hd as [Hd1 Hd2].
    exists (Some l :: ps'), l', (m1 ∪ m3), m4. split_and!; try done; [by constructor | by apply map_disjoint_union_l |].
    by rewrite (assoc_L (∪)).
Qed.

(** The last value of a part is taken from it. *)
Lemma part_pop l vs v M : part_reply l (vs ++ [v]) M -> whole v -> exists e ps lv mv M',
  M !! l = Some (BReply (array_left (zlen vs + 1) e)) /\ M !! e = Some (BPtrs ps) /\ rd ps (zlen vs) = Some (Some lv) /\
  tree v lv mv /\ mv ##ₘ M' /\ <[l := BReply (array_left (zlen vs) e)]> M = mv ∪ M' /\ part_reply l vs M'.
Proof.
  intros (e & ls & junk & m & Ht & Hle & Hml & Hme & ->) Hw. pose proof (trees_length _ _ _ Ht) as Hlen.
  destruct (trees_snoc_inv _ _ _ _ Ht Hw) as (ps' & lv & m1 & m2 & Eps & Ht1 & Hv & Hd & ->).
  apply map_eq_app in Eps as (ls1 & ls2 & -> & <- & Els). destruct ls2 as [|? [|]]; try done. injection Els as ->.
  apply lookup_union_None in Hml as [Hml1 Hml2], Hme as [Hme1 Hme2]. pose proof (trees_length _ _ _ Ht1) as Hlen1.
  assert (zlen (vs ++ [v]) = zlen vs + 1) as Hz by zl. rewrite Hz.
  exists e, (map Some (ls1 ++ [lv]) ++ junk), lv, m2, (left_with l e (map Some (ls1 ++ [lv]) ++ junk) (zlen vs) m1).
  unfold left_with. split_and!; try done.
  - by rewrite lookup_insert_eq.
  - by rewrite lookup_insert_ne, lookup_insert_eq by done.
  - rewrite map_app, <- app_assoc. apply rd_at. unfold zlen. lia.
  - apply map_disjoint_insert_r. split; [done|]. by apply map_disjoint_insert_r.
  - rewrite insert_insert_eq. rewrite (map_union_comm m1 m2) by done. by rewrite !insert_union_r.
  - exists e, ls1, (Some lv :: junk), m1. split_and!; try done. by rewrite map_app, <- app_assoc.
Qed.

(** A part that has given all its values. *)
Lemma part_free l M h : part_reply l [] M -> M ##ₘ h -> freeReplyObject (Some l) (M ∪ h) = Some h.
Proof.
  intros (e & ls & junk & m & Ht & Hle & _ & _ & ->) Hd. inversion Ht; subst. unfold left_with in *.
  apply map_disjoint_insert_l in Hd as [Hl Hd]. apply map_disjoint_insert_l in Hd as [He _].
  rewrite <- !insert_union_l, (left_id_L ∅ (∪)). cbn [freeReplyObject].
  generalize (size (<[l := BReply (array_left (zlen (@nil value)) e)]> (<[e := BPtrs ([] ++ junk)]> h))). intros f. cbn [free_object].
  rewrite load_reply_insert. unfold array_left. cbn [mbind option_bind rtype]. rewrite Z.eqb_refl. cbn [element].
  unfold load_ptrs. rewrite lookup_insert_ne, lookup_insert_eq by done. cbn [mbind option_bind relements].
  rewrite (proj2 (Z.ltb_ge _ _)) by (zlen_pos; change (zlen (@nil value)) with 0; lia). change (zlen (@nil value)) with 0.
  change (Z.to_nat 0) with 0%nat. rewrite take_0. cbn [free_elements mbind option_bind].
  rewrite insert_insert_ne, free_block_insert by (done || rewrite lookup_insert_ne; done). cbn [mbind option_bind].
  by apply free_block_insert.
Qed.

(** ** Collecting the values *)

(** The values of the keys that belong to part [j], when [idx] are the parts of the keys. *)
Fixpoint collect (j : nat) (idx : list nat) (vals : list value) : list value :=
  match idx, vals with
  | j' :: idx', v :: vals' => if decide (j' = j) then v :: collect j idx' vals' else collect j idx' vals'
  | _, _ => []
  end.

Lemma collect_snoc j idx vals j0 v : length idx = length vals ->
  collect j (idx ++ [j0]) (vals ++ [v]) = collect j idx vals ++ (if decide (j0 = j) then [v] else []).
Proof.
  revert vals. induction idx as [|j' idx IH]; intros [|x vals] Hl; try done; cbn [collect app].
  rewrite IH by (simpl in Hl; lia). by destruct (decide (j' = j)).
Qed.

(** The parts still hold the values of these keys. *)
Definition holding (ls : list loc) (hs : list heap) (idx : list nat) (vals : list value) : Prop :=
  length ls = length hs /\
  forall j l M, ls !! j = Some l -> hs !! j = Some M -> part_reply l (collect j idx vals) M.

(** The reply under construction: [n] elements are missing, the others are set. *)
Definition making (r e : loc) (kc : Z) (n : nat) (ld : list loc) : heap :=
  <[r := BReply (array_left kc e)]> {[e := BPtrs (replicate n None ++ map Some ld)]}.

Lemma wr_hole n (ld : list loc) lv : wr (replicate (S n) None ++ map Some ld) (Z.of_nat n) (Some lv) =
  Some (replicate n None ++ map Some (lv :: ld)).
Proof.
  replace (replicate (S n) (@None loc)) with (replicate n (@None loc) ++ [None]).
  2:{ change [None] with (replicate 1 (@None loc)). rewrite <- replicate_add. f_equal. lia. }
  rewrite <- app_assoc. cbn [app map]. rewrite wr_at; [done|]. unfold zlen. by rewrite length_replicate.
Qed.

Lemma making_set r e kc n ld lv ms ms' : r <> e -> apart (ms ++ making r e kc (S n) ld :: ms') ->
  set_element e (Z.of_nat n) (Some lv) (uni (ms ++ making r e kc (S n) ld :: ms')) =
    Some (uni (ms ++ making r e kc n (lv :: ld) :: ms')) /\ apart (ms ++ making r e kc n (lv :: ld) :: ms').
Proof.
  intros Hre Ha. assert (making r e kc (S n) ld !! e = Some (BPtrs (replicate (S n) None ++ map Some ld))) as He.
  { unfold making. by rewrite lookup_insert_ne, lookup_singleton_eq by done. }
  unfold set_element, load_ptrs. rewrite (piece_lookup _ _ _ _ _ Ha He). cbn [mbind option_bind]. rewrite wr_hole. cbn [mbind option_bind].
  destruct (piece_update _ _ _ e (BPtrs (replicate n None ++ map Some (lv :: ld))) ltac:(rewrite He; eauto) Ha) as [-> Ha'].
  assert (<[e := BPtrs (replicate n None ++ map Some (lv :: ld))]> (making r e kc (S n) ld) = making r e kc n (lv :: ld)) as <-; [|done].
  unfold making. by rewrite insert_insert_ne, insert_singleton_eq by done.
Qed.

(** One round, on the part of a key. *)
Lemma gather_array reply e seq i h l n v ps x : h !! l = Some (BReply (array_left n v)) -> n <> 0 -> h !! v = Some (BPtrs ps) ->
  rd ps (n - 1) = Some x ->
  gather reply e (Some l :: seq) i h =
    h ← set_element e i x h; gather reply e seq (i - 1) (<[l := BReply (array_left (n - 1) v)]> h).
Proof.
  intros Hl Hn Hv Hx. cbn [gather]. unfold load_reply, load_ptrs. rewrite Hl. cbn [mbind option_bind array_left rtype relements].
  rewrite Z.eqb_refl, (proj2 (Z.eqb_neq n 0)) by done. change (_ =? Read.REDIS_REPLY_STRING) with false.
  unfold array_left. cbn [element mbind option_bind]. rewrite Hv. cbn [mbind option_bind relements]. by rewrite Hx.
Qed.

(** Part [j0] gives its last value, the value of the last key. *)
Lemma holding_pop ls hs idx vals j0 v l0 : holding ls hs (idx ++ [j0]) (vals ++ [v]) -> length idx = length vals -> whole v ->
  ls !! j0 = Some l0 -> exists h1 M h2 e ps lv mv M', let n := zlen (collect j0 idx vals) in
  hs = h1 ++ M :: h2 /\ M !! l0 = Some (BReply (array_left (n + 1) e)) /\ M !! e = Some (BPtrs ps) /\
  rd ps n = Some (Some lv) /\ tree v lv mv /\ mv ##ₘ M' /\ <[l0 := BReply (array_left n e)]> M = mv ∪ M' /\
  holding ls (h1 ++ M' :: h2) idx vals.
Proof.
  intros [Hlen Hh] Hlv Hw Hl0. assert (exists M, hs !! j0 = Some M) as [M HM].
  { apply lookup_lt_is_Some_2. rewrite <- Hlen. by eapply lookup_lt_Some. }
  pose proof (Hh _ _ _ Hl0 HM) as Hp. rewrite collect_snoc, decide_True in Hp by done.
  destruct (part_pop _ _ _ _ Hp Hw) as (e & ps & lv & mv & M' & H1 & H2 & H3 & H4 & H5 & H6 & H7).
  destruct (list_elem_of_split_length _ _ _ HM) as (h1 & h2 & Ehs & Ej).
  exists h1, M, h2, e, ps, lv, mv, M'. split_and!; try done. split.
  - rewrite Hlen, Ehs, !length_app. done.
  - intros j l N Hl HN. destruct (decide (j = j0)) as [->|Hne].
    + rewrite Ej in HN at 1. rewrite list_lookup_middle in HN by done. injection HN as <-. congruence.
    + assert (hs !! j = Some N) as HN'.
      { rewrite Ehs. rewrite Ej in Hne. destruct (decide (j < length h1)%nat).
        - rewrite lookup_app_l in HN |- * by lia. done.
        - rewrite lookup_app_r in HN |- * by lia. destruct (j - length h1)%nat eqn:E; [lia | done]. }
      specialize (Hh _ _ _ Hl HN'). rewrite collect_snoc, decide_False, app_nil_r in Hh by congruence. done.
Qed.

(** A value goes from its part to the values. *)
Lemma regroup (A md h0 mv M' : heap) h1 h2 : mv ##ₘ M' -> apart (A :: md :: h0 :: h1 ++ (mv ∪ M') :: h2) ->
  apart (A :: mv ∪ md :: h0 :: h1 ++ M' :: h2) /\ mv ##ₘ md /\
  uni (A :: md :: h0 :: h1 ++ (mv ∪ M') :: h2) = uni (A :: mv ∪ md :: h0 :: h1 ++ M' :: h2).
Proof.
  intros Hmv Ha. assert (A :: md :: h0 :: h1 ++ (mv ∪ M') :: h2 ≡ₚ mv ∪ M' :: A :: md :: h0 :: h1 ++ h2) as Hp by solve_Permutation.
  destruct (pieces_perm _ _ Hp Ha) as [Ha1 ->]. rewrite piece_split in Ha1 by done. rewrite uni_split. clear Hp.
  assert (mv :: M' :: A :: md :: h0 :: h1 ++ h2 ≡ₚ mv :: md :: A :: h0 :: h1 ++ M' :: h2) as Hp by solve_Permutation.
  destruct (pieces_perm _ _ Hp Ha1) as [Ha2 ->]. clear Hp.
  assert (mv ##ₘ md) as Hd by (destruct Ha2 as [Hx _]; cbn [uni] in Hx; by apply map_disjoint_union_r in Hx as [? _]).
  rewrite <- uni_split. rewrite <- piece_split in Ha2 by done.
  assert (mv ∪ md :: A :: h0 :: h1 ++ M' :: h2 ≡ₚ A :: mv ∪ md :: h0 :: h1 ++ M' :: h2) as Hp by solve_Permutation.
  by destruct (pieces_perm _ _ Hp Ha2) as [Ha3 ->].
Qed.

(** The state of the loop: the reply, the values it has, the rest of the heap, the parts. *)
Definition pieces (r e : loc) (kc : Z) (n : nat) (ld : list loc) (md h0 : heap) (hs : list heap) : list heap :=
  making r e kc n ld :: md :: h0 :: hs.

Lemma gather_spec r e kc ls h0 (Hre : r <> e) idx : forall vals dv ld md hs, length idx = length vals -> Forall whole vals ->
  Forall (fun j => is_Some (ls !! j)) idx -> holding ls hs idx vals -> trees dv (map Some ld) md ->
  apart (pieces r e kc (length idx) ld md h0 hs) ->
  exists ld' md' hs', gather r e (rev (map (fun j => ls !! j) idx)) (zlen idx - 1) (uni (pieces r e kc (length idx) ld md h0 hs)) =
      Some (inl (uni (pieces r e kc 0 ld' md' h0 hs'))) /\
    trees (vals ++ dv) (map Some ld') md' /\ holding ls hs' [] [] /\ apart (pieces r e kc 0 ld' md' h0 hs').
Proof.
  induction idx as [|j0 idx IH] using rev_ind; intros vals dv ld md hs Hlen Hw Hin Hh Hd Ha.
  - destruct vals; [|done]. by exists ld, md, hs.
  - destruct vals as [|v vals _] using rev_ind; [rewrite length_app in Hlen; simpl in Hlen; lia|].
    rewrite !length_app in Hlen. simpl in Hlen. apply Forall_app in Hw as [Hw Hv]. apply Forall_inv in Hv.
    apply Forall_app in Hin as [Hin Hj]. apply Forall_inv in Hj as [l0 Hl0].
    destruct (holding_pop _ _ _ _ _ _ _ Hh ltac:(lia) Hv Hl0) as (h1 & M & h2 & e0 & ps & lv & mv & M' & -> & HM & He & Hps & Hlv & Hmv & Hup & Hh').
    rewrite map_app, rev_app_distr. cbn [map rev app]. rewrite Hl0.
    set (n := zlen (collect j0 idx vals)) in *. assert (0 <= n) by apply zlen_nonneg.
    rewrite length_app, zlen_app in *. change (zlen [j0]) with 1. replace (length idx + length [j0])%nat with (S (length idx)) in * by (simpl; lia).
    replace (zlen idx + 1 - 1) with (Z.of_nat (length idx)) by (unfold zlen; lia).
    assert (apart ((making r e kc (S (length idx)) ld :: md :: h0 :: h1) ++ M :: h2)) as Ha0 by done.
    change (uni (pieces r e kc (S (length idx)) ld md h0 (h1 ++ M :: h2))) with
      (uni ((making r e kc (S (length idx)) ld :: md :: h0 :: h1) ++ M :: h2)).
    rewrite (gather_array _ _ _ _ _ _ _ _ _ _ (piece_lookup _ _ _ _ _ Ha0 HM) ltac:(lia) (piece_lookup _ _ _ _ _ Ha0 He)
      ltac:(by rewrite Z.add_simpl_r)).
    destruct (making_set r e kc (length idx) ld lv [] (md :: h0 :: h1 ++ M :: h2) Hre Ha0) as [Hs Ha1].
    cbn [app] in Hs, Ha1 |- *. rewrite Hs. cbn [mbind option_bind].
    destruct (piece_update M (making r e kc (length idx) (lv :: ld) :: md :: h0 :: h1) h2 l0 (BReply (array_left n e0)) ltac:(rewrite HM; eauto) Ha1) as [Hu Ha2].
    cbn [app] in Hu, Ha2. rewrite Z.add_simpl_r, Hu. clear Hu Hs.
    rewrite Hup in Ha2 |- *.
    destruct (regroup _ _ _ _ _ _ _ Hmv Ha2) as (Ha3 & Hdd & ->).
    destruct (IH vals (v :: dv) (lv :: ld) (mv ∪ md) (h1 ++ M' :: h2)) as (ld' & md' & hs' & E & Ht & Hh3 & Ha6); try done; try lia.
    { cbn [map]. by constructor. }
    exists ld', md', hs'. unfold zlen in E. rewrite <- app_assoc. done.
Qed.

Lemma check_arrays (h : heap) ls c : Forall (fun l => exists n e, h !! l = Some (BReply (array_left n e))) ls ->
  check_parts CMD_REQ_REDIS_MGET h (map Some ls) c = Some (inl c).
Proof.
  induction 1 as [|l ls (n & e & Hl) _ IH]; [done|]. cbn [map check_parts]. unfold load_reply. rewrite Hl.
  cbn [mbind option_bind array_left rtype]. by rewrite Z.eqb_refl, IH.
Qed.

(** The parts of a command, released after their replies were put together. *)
Fixpoint free_parts (ls : list loc) (h : heap) : option heap :=
  match ls with [] => Some h | l :: ls' => h ← freeReplyObject (Some l) h; free_parts ls' h end.

Lemma free_parts_spec ls hs m : holding ls hs [] [] -> apart (hs ++ [m]) -> free_parts ls (uni (hs ++ [m])) = Some m.
Proof.
  revert hs. induction ls as [|l ls IH]; intros [|M hs] [Hlen Hh] Ha; try done; cbn [app uni apart free_parts] in *.
  - by rewrite (right_id_L ∅ (∪)).
  - destruct Ha as [Hd Ha]. rewrite (part_free l M) by (done || by apply (Hh 0%nat)). cbn [mbind option_bind].
    apply IH; [|done]. split; [simpl in Hlen; lia|]. intros j l' M' Hl HM. by apply (Hh (S j)).
Qed.

Lemma making_tree r e vals ld md : r <> e -> 0 < zlen vals <= INT_MAX -> trees vals (map Some ld) md ->
  making r e (zlen vals) 0 ld ##ₘ md -> tree (VArray (zlen vals) vals) r (making r e (zlen vals) 0 ld ∪ md).
Proof.
  intros Hre Hz Ht Hd. unfold making in *. cbn [replicate app] in *.
  apply map_disjoint_insert_l in Hd as [Hr Hd]. apply map_disjoint_singleton_l in Hd as He.
  rewrite <- insert_union_l, <- insert_union_singleton_l. unfold INT_MAX in Hz.
  replace (BReply (array_left (zlen vals) e)) with (array_reply (zlen vals) (Some e)) by (unfold array_reply, array_left; by rewrite uwrap_small by lia).
  by constructor.
Qed.

(** The replies of the parts of an MGET. *)
Definition part_replies (ls : list loc) (hs : list heap) (idx : list nat) (vals : list value) : Prop :=
  length ls = length hs /\ Forall (fun j => is_Some (ls !! j)) idx /\
  forall j l M, ls !! j = Some l -> hs !! j = Some M ->
    collect j idx vals <> [] /\ tree (VArray (zlen (collect j idx vals)) (collect j idx vals)) l M.

Lemma collect_whole j idx vals : Forall whole vals -> Forall whole (collect j idx vals).
Proof.
  intros Hw. revert idx. induction Hw as [|v vals Hv _ IH]; intros [|j' idx]; try constructor. cbn [collect].
  destruct (decide (j' = j)); [constructor|]; auto.
Qed.

Lemma replies_holding ls hs idx vals : part_replies ls hs idx vals -> Forall whole vals -> holding ls hs idx vals.
Proof.
  intros (Hlen & _ & Hp) Hw. split; [done|]. intros j l M Hl HM. destruct (Hp _ _ _ Hl HM) as [Hne Ht].
  apply tree_part; [done | done |]. by apply collect_whole.
Qed.

(** The new reply beside the replies of the parts. *)
Lemma new_pieces r e kc n (h0 : heap) hs : r <> e -> uni (h0 :: hs) !! r = None -> uni (h0 :: hs) !! e = None -> apart (h0 :: hs) ->
  apart (pieces r e kc n [] ∅ h0 hs) /\
  <[r := BReply (array_left kc e)]> (<[e := BPtrs (replicate n None)]> (uni (h0 :: hs))) = uni (pieces r e kc n [] ∅ h0 hs).
Proof.
  intros Hre Hr He Ha. unfold pieces, making. cbn [map]. rewrite app_nil_r. cbn [uni] in *. rewrite (left_id_L ∅ (∪)). split.
  - cbn [apart uni]. rewrite (left_id_L ∅ (∪)). split_and!; try apply Ha; [|apply map_disjoint_empty_l].
    apply map_disjoint_insert_l. split; [done|]. by apply map_disjoint_singleton_l.
  - by rewrite <- insert_union_l, <- insert_union_singleton_l.
Qed.

(** All but the parts, which come first. *)
Lemma pieces_back A (md h0 : heap) hs : apart (A :: md :: h0 :: hs) ->
  uni (A :: md :: h0 :: hs) = uni (hs ++ [(A ∪ md) ∪ h0]) /\ apart (hs ++ [(A ∪ md) ∪ h0]) /\ A ##ₘ md /\ (A ∪ md) ##ₘ h0.
Proof.
  intros Ha. assert (A ##ₘ md) as H1 by (destruct Ha as [Hx _]; cbn [uni] in Hx; by apply map_disjoint_union_r in Hx as [? _]).
  rewrite <- uni_split. rewrite <- piece_split in Ha by done.
  assert (A ∪ md ##ₘ h0) as H2 by (destruct Ha as [Hx _]; cbn [uni] in Hx; by apply map_disjoint_union_r in Hx as [? _]).
  rewrite <- uni_split. rewrite <- piece_split in Ha by done.
  assert ((A ∪ md) ∪ h0 :: hs ≡ₚ hs ++ [(A ∪ md) ∪ h0]) as Hp by solve_Permutation.
  by destruct (pieces_perm _ _ Hp Ha) as [? ->].
Qed.

Section Post.
Context `{Memory}.

Lemma post_mget (h0 : heap) (ls : list loc) (hs : list heap) (idx : list nat) (vals : list value) :
  has_memory -> length idx = length vals -> 0 < zlen vals <= INT_MAX -> Forall whole vals -> part_replies ls hs idx vals -> apart (h0 :: hs) ->
  exists h r m, command_post_fragment CMD_REQ_REDIS_MGET (map Some ls) (map (fun j => ls !! j) idx) (uni (h0 :: hs)) = Some (h, Some r, None) /\
    tree (VArray (zlen vals) vals) r m /\ m ##ₘ h0 /\ free_parts ls h = Some (m ∪ h0).
Proof.
  intros Hmem Hlen Hn Hwhole Hparts Hsep.
  pose proof (replies_holding _ _ _ _ Hparts Hwhole) as Hh. destruct Hparts as (Hll & Hin & _).
  unfold command_post_fragment. rewrite Hmem, check_arrays; cbn [mbind option_bind].
  2:{ apply Forall_lookup_2. intros j l Hl. assert (exists M, hs !! j = Some M) as [M HM]
        by (apply lookup_lt_is_Some_2; rewrite <- Hll; by eapply lookup_lt_Some).
      destruct Hh as [_ Hh]. destruct (Hh _ _ _ Hl HM) as (e & ps & jk & m & _ & _ & _ & _ & HMe).
      destruct (list_elem_of_split_length _ _ _ HM) as (h1 & h2 & -> & _).
      exists (zlen (collect j idx vals)), e. apply (piece_lookup M (h0 :: h1) h2 _ _ Hsep). rewrite HMe. unfold left_with. by rewrite lookup_insert_eq. }
  unfold createReplyObject, alloc. rewrite Hmem. set (r := fresh (dom (uni (h0 :: hs)))). set (h := uni (h0 :: hs)).
  assert (h !! r = None) as Hr by (apply not_elem_of_dom, is_fresh). rewrite Hmem, insert_insert_eq.
  match goal with |- context [fresh (dom ?hh)] => set (e := fresh (dom hh)); assert (hh !! e = None) as He by (apply not_elem_of_dom, is_fresh) end.
  apply lookup_insert_None in He as [He Hre]. rewrite (insert_insert_ne h e r), insert_insert_eq by done. clearbody r e.
  rewrite length_map, zlen_map. replace (zlen idx) with (zlen vals) by (unfold zlen; lia).
  destruct (new_pieces r e (zlen vals) (length idx) h0 hs ltac:(done) Hr He Hsep) as [Ha Eh].
  unfold array_left in Eh at 1. fold h in Eh. rewrite Eh.
  destruct (gather_spec r e (zlen vals) ls h0 Hre idx vals [] [] ∅ hs Hlen Hwhole Hin Hh trees_nil Ha)
    as (ld & md & hs' & E & Ht & Hh' & Ha'). replace (zlen idx - 1) with (zlen vals - 1) in E by (unfold zlen; lia). rewrite E.
  cbn [mbind option_bind]. rewrite app_nil_r in Ht. set (A := making r e (zlen vals) 0 ld) in *.
  destruct (pieces_back _ _ _ _ Ha') as (Hu & Ha2 & Hd1 & Hd2). eexists _, r, (A ∪ md). split_and!; [done | by apply making_tree | done |].
  unfold pieces. rewrite Hu. by apply free_parts_spec.
Qed.

(** The replies to the parts of an MGET are put together in the order of the keys:
    [command_post_fragment] returns one array that has the value of every key at the place of
    the key, and when the replies of the parts are released afterwards, exactly that array
    is left and none of its values was released with them. *)
Theorem post_fragment_mget (h0 : heap) (ls : list loc) (hs : list heap) (idx : list nat) (vals : list value)
    (Hmem : has_memory) (Hlen : length idx = length vals) (Hn : 0 < zlen vals <= INT_MAX) (Hwhole : Forall whole vals)
    (Hparts : part_replies ls hs idx vals) (Hsep : apart (h0 :: hs)) :
  exists h r m, command_post_fragment CMD_REQ_REDIS_MGET (map Some ls) (map (fun j => ls !! j) idx) (uni (h0 :: hs)) = Some (h, Some r, None) /\
    tree (VArray (zlen vals) vals) r m /\ m ##ₘ h0 /\ free_parts ls h = Some (m ∪ h0).
Proof. by apply post_mget. Qed.

(** The sum of the counters, at the width of the counter. *)
Definition total_count (zs : list Z) (c : Z) : Z := fold_left (fun c z => i64 (c + z)) zs c.

Lemma i64_add_l a b : i64 (i64 a + b) = i64 (a + b).
Proof.
  unfold swrap. f_equal. replace ((a + 2 ^ (64 - 1)) mod 2 ^ 64 - 2 ^ (64 - 1) + b + 2 ^ (64 - 1)) with ((a + 2 ^ (64 - 1)) mod 2 ^ 64 + b) by lia.
  rewrite Z.add_mod_idemp_l by lia. f_equal. lia.
Qed.

Lemma total_count_sum zs c : c = i64 c -> total_count zs c = i64 (c + foldr Z.add 0 zs).
Proof.
  revert c. induction zs as [|z zs IH]; intros c Hc; cbn [total_count fold_left foldr]; [by rewrite Z.add_0_r|].
  fold (total_count zs (i64 (c + z))). rewrite IH.
  - by rewrite i64_add_l, Z.add_assoc.
  - pose proof (i64_add_l (c + z) 0) as E. by rewrite !Z.add_0_r in E.
Qed.

Lemma check_ints (h : heap) ls zs c : Forall2 (fun l z => h !! l = Some (int_reply z)) ls zs ->
  check_parts CMD_REQ_REDIS_DEL h (map Some ls) c = Some (inl (total_count zs c)).
Proof.
  intros Hf. revert c. induction Hf as [|l z ls zs Hl _ IH]; intros c; [done|]. cbn [map check_parts total_count fold_left].
  unfold load_reply. rewrite Hl. cbn [mbind option_bind int_reply rtype integer]. change (_ =? Read.REDIS_REPLY_ERROR) with false.
  by rewrite Z.eqb_refl, IH.
Qed.

(** A reply "+OK". *)
Definition ok_reply (h : heap) (l : loc) : Prop :=
  exists b cs, h !! l = Some (string_reply Read.REDIS_REPLY_STATUS REDIS_STATUS_OK b) /\ h !! b = Some (BChars (REDIS_STATUS_OK ++ 0 :: cs)).

Lemma check_oks (h : heap) ls c : Forall (ok_reply h) ls -> check_parts CMD_REQ_REDIS_MSET h (map Some ls) c = Some (inl c).
Proof.
  induction 1 as [|l ls (b & cs & Hl & Hb) _ IH]; [done|]. cbn [map check_parts]. unfold load_reply. rewrite Hl.
  cbn [mbind option_bind string_reply rtype rlen]. change (_ =? Read.REDIS_REPLY_ERROR) with false.
  change (negb _ || negb _) with false. unfold str_is_ok. cbn [string_reply str mbind option_bind]. rewrite Hb.
  change (cstr (REDIS_STATUS_OK ++ 0 :: cs)) with (Some REDIS_STATUS_OK). cbn [mbind option_bind].
  rewrite bool_decide_true by done. cbn [negb]. apply IH.
Qed.

(** The counters of the parts of a DEL are added at 64 bits into a new integer reply,
    and nothing else changes. *)
Theorem post_fragment_del (h : heap) (ls : list loc) (zs : list Z) (seq : list (option loc))
    (Hmem : has_memory) (Hparts : Forall2 (fun l z => h !! l = Some (int_reply z)) ls zs) :
  exists r m, command_post_fragment CMD_REQ_REDIS_DEL (map Some ls) seq h = Some (m ∪ h, Some r, None) /\ m ##ₘ h /\
    tree (VInt (i64 (foldr Z.add 0 zs))) r m.
Proof.
  unfold command_post_fragment. rewrite Hmem, (check_ints h ls zs) by done. cbn [mbind option_bind].
  unfold createReplyObject, alloc. rewrite Hmem, insert_insert_eq, total_count_sum by done.
  exists (fresh (dom h)), {[fresh (dom h) := int_reply (i64 (0 + foldr Z.add 0 zs))]}. rewrite <- insert_union_singleton_l. split_and!; [done | | constructor].
  apply map_disjoint_singleton_l. apply not_elem_of_dom, is_fresh.
Qed.

(** When every part of an MSET was answered "+OK" the reply is a new "+OK", nothing else
    changes, and the reply is released without a trace. *)
Theorem post_fragment_mset (h : heap) (ls : list loc) (seq : list (option loc))
    (Hmem : has_memory) (Hparts : Forall (ok_reply h) ls) :
  exists r h', command_post_fragment CMD_REQ_REDIS_MSET (map Some ls) seq h = Some (h', Some r, None) /\ h ⊆ h' /\
    ok_reply h' r /\ freeReplyObject (Some r) h' = Some h.
Proof.
  unfold command_post_fragment. rewrite Hmem, check_oks by done. cbn [mbind option_bind].
  unfold createReplyObject, alloc. rewrite Hmem, insert_insert_eq, Hmem. set (r := fresh (dom h)).
  assert (h !! r = None) as Hr by (apply not_elem_of_dom, is_fresh).
  match goal with |- context [fresh (dom ?hh)] => set (b := fresh (dom hh)); assert (hh !! b = None) as Hb by (apply not_elem_of_dom, is_fresh) end.
  apply lookup_insert_None in Hb as [Hb Hrb]. rewrite (insert_insert_ne h b r), insert_insert_eq by done. clearbody r b.
  eexists r, _. split_and!; [done | | |].
  - apply insert_subseteq_r; [done|]. by apply insert_subseteq.
  - exists b, (replicate 21 junk). by rewrite lookup_insert_eq, lookup_insert_ne, lookup_insert_eq by done.
  - cbn [freeReplyObject free_object]. rewrite load_reply_insert. cbn [mbind option_bind rtype].
    change (_ =? Read.REDIS_REPLY_ARRAY) with false. change (_ || _) with true. cbn iota. cbn [str].
    rewrite insert_insert_ne, free_block_insert by (done || by rewrite lookup_insert_ne). cbn [mbind option_bind]. by apply free_block_insert.
Qed.

(** The type of the reply to a part. *)
Definition expected (t : cmd_type) : Z :=
  match t with
  | CMD_REQ_REDIS_MGET => Read.REDIS_REPLY_ARRAY
  | CMD_REQ_REDIS_DEL => Read.REDIS_REPLY_INTEGER
  | _ => Read.REDIS_REPLY_STATUS
  end.

(** A reply that lets the loop go on. *)
Definition accepted (t : cmd_type) (h : heap) (x : option loc) : Prop :=
  exists l r, x = Some l /\ h !! l = Some (BReply r) /\ rtype r = expected t /\ (t = CMD_REQ_REDIS_MSET -> ok_reply h l).

Lemma check_accepted t h pre post c : vector_type t -> Forall (accepted t h) pre ->
  exists c', check_parts t h (pre ++ post) c = check_parts t h post c'.
Proof.
  intros Ht Hp. revert c. induction Hp as [|x pre (l & r & -> & Hl & Hr & Hok) _ IH]; intros c; [by exists c|].
  cbn [app check_parts]. unfold load_reply. rewrite Hl. cbn [mbind option_bind]. rewrite Hr.
  destruct Ht as [-> | [-> | ->]]; cbn [expected].
  - apply IH.
  - apply IH.
  - destruct (Hok eq_refl) as (b & cs & Hl' & Hb). rewrite Hl in Hl'. injection Hl' as ->. unfold str_is_ok.
    cbn [str rlen mbind option_bind]. rewrite Hb. apply IH.
Qed.

(** The first part whose reply is not the expected one decides: without a reply NULL is
    returned, an error reply is returned itself and not copied, and a reply of another type
    sets an error; no block is allocated or released. *)
Theorem post_fragment_error (t : cmd_type) (h : heap) (pre post seq : list (option loc)) (x : option loc)
    (Hmem : has_memory) (Ht : vector_type t) (Hpre : Forall (accepted t h) pre) :
  match x with
  | None => command_post_fragment t (pre ++ x :: post) seq h = Some (h, None, None)
  | Some l => forall r, h !! l = Some (BReply r) ->
      (rtype r = Read.REDIS_REPLY_ERROR -> command_post_fragment t (pre ++ x :: post) seq h = Some (h, Some l, None)) /\
      (rtype r <> Read.REDIS_REPLY_ERROR -> rtype r <> expected t -> exists msg,
        command_post_fragment t (pre ++ x :: post) seq h = Some (h, None, Some (Read.REDIS_ERR_OTHER, msg)))
  end.
Proof.
  unfold command_post_fragment. rewrite Hmem. destruct (check_accepted t h pre (x :: post) 0 Ht Hpre) as [c ->].
  destruct x as [l|]; [|done]. intros r Hl. cbn [check_parts]. unfold load_reply. rewrite Hl. cbn [mbind option_bind]. split.
  - intros ->. done.
  - intros He Hne. rewrite (proj2 (Z.eqb_neq _ _)) by done.
    destruct Ht as [-> | [-> | ->]]; cbn [expected] in Hne; rewrite (proj2 (Z.eqb_neq _ _)) by done; cbn [negb orb mbind option_bind]; eexists; done.
Qed.

(** ** From the command to its reply *)

Lemma slots_NoDup l : NoDup (slots_of l).
Proof. apply NoDup_ListNoDup, List.NoDup_filter, NoDup_ListNoDup, NoDup_seqZ. Qed.

Lemma from_has_items l a n s : s ∈ slots_from l a n -> has_items l s = true.
Proof. unfold slots_from. intros Hs. apply list_elem_of_In, filter_In in Hs. apply Hs. Qed.

(** The parts of the keys, as places in the list of the slots. *)
Lemma seq_places (ss : list Z) (fc : list nat) l sq :
  Forall2 (fun a x => exists j q, x = Some q /\ ss !! j = Some (item_slot a) /\ fc !! j = Some q) l sq ->
  exists idx, Forall2 (fun a j => ss !! j = Some (item_slot a)) l idx /\ sq = map (fun j => fc !! j) idx.
Proof.
  induction 1 as [|a x l sq (j & q & -> & Hj & Hq) _ (idx & Hf & ->)]; [by exists []|].
  exists (j :: idx). split; [by constructor|]. cbn [map]. by rewrite Hq.
Qed.

(** What part [j] has to answer are the values of the keys of its slot. *)
Lemma collect_group (answer : bytes -> value) (ss : list Z) j s l idx : NoDup ss -> ss !! j = Some s ->
  Forall2 (fun a j => ss !! j = Some (item_slot a)) l idx ->
  collect j idx (map (fun a => answer (hd [] a)) l) = map (fun a => answer (hd [] a)) (group s l).
Proof.
  intros Hnd Hj. induction 1 as [|a j' l idx Ha _ IH]; [done|]. cbn [map collect group List.filter]. fold (group s l).
  destruct (decide (j' = j)) as [->|Hne].
  - rewrite Ha in Hj. injection Hj as ->. rewrite Z.eqb_refl. cbn [map]. by rewrite IH.
  - rewrite (proj2 (Z.eqb_neq _ _)), IH; [done|]. intros E. apply Hne. subst s. exact (NoDup_lookup ss j' j _ Hnd Ha Hj).
Qed.

Lemma group_singles s (args : list bytes) : concat (group s (map (fun k => [k]) args)) = map (hd []) (group s (map (fun k => [k]) args)).
Proof.
  induction args as [|k args IH]; [done|]. cbn [map group List.filter]. fold (group s (map (fun k : bytes => [k]) args)).
  destruct (item_slot [k] =? s); cbn [concat map app hd]; by rewrite IH.
Qed.

(** A server that knows the values of the keys has answered the text of a part. *)
Definition answered (answer : bytes -> value) (p : Z * bytes) (l : loc) (M : heap) : Prop :=
  forall ks, p.2 = Format.encode (bstr "mget" :: ks) -> tree (VArray (zlen ks) (map answer ks)) l M.

Definition all_answered (answer : bytes -> value) (ps : list (Z * bytes)) (ls : list loc) (hs : list heap) : Prop :=
  length ls = length ps /\ length hs = length ps /\
  forall j p l M, ps !! j = Some p -> ls !! j = Some l -> hs !! j = Some M -> answered answer p l M.

Lemma answered_parts answer args ls hs idx (ss : list Z) (l := map (fun k => [k]) args) :
  NoDup ss -> (forall s, s ∈ ss -> has_items l s = true) -> all_answered answer (map (part CMD_REQ_REDIS_MGET l) ss) ls hs ->
  Forall2 (fun a j => ss !! j = Some (item_slot a)) l idx -> part_replies ls hs idx (map answer args).
Proof.
  intros Hnd Hhas (Hl & Hh & Ha) Hidx. rewrite length_map in Hl, Hh. split_and!; [lia | |].
  - clear Ha Hhas. induction Hidx as [|a j l' idx Hj _ IH]; [constructor|]. constructor; [|done].
    apply lookup_lt_is_Some_2. rewrite Hl. by eapply lookup_lt_Some.
  - intros j lo M Hlo HM. assert (exists s, ss !! j = Some s) as [s Hs].
    { apply lookup_lt_is_Some_2. rewrite <- Hl. by eapply lookup_lt_Some. }
    replace (map answer args) with (map (fun a => answer (hd [] a)) l) by (unfold l; by rewrite map_map).
    rewrite (collect_group answer _ _ s _ _ Hnd Hs Hidx). split.
    + assert (has_items l s = true) as Hi by (apply Hhas; by eapply list_elem_of_lookup_2).
      unfold has_items in Hi. by destruct (group s l).
    + rewrite <- (map_map (hd []) answer), zlen_map. unfold l. rewrite <- group_singles. fold l.
      apply (Ha j (part CMD_REQ_REDIS_MGET l s) lo M); [|done..|done].
      by rewrite list_lookup_fmap, Hs.
Qed.

Lemma encode_args nm args : zlen args <= zlen (Format.encode (nm :: args)).
Proof.
  rewrite Format.zlen_encode, Format.flat_bulk_cons. enough (zlen args <= zlen (flat_map Format.bulk args)) by (zlen_pos; lia).
  induction args as [|a args IH]; [done|]. rewrite Format.flat_bulk_cons, Format.zlen_bulk, zlen_cons. zlen_pos. lia.
Qed.

(** The parts of an MGET over several slots, and what becomes of their replies. *)
Lemma mget_whole (c : cmd) (nm : bytes) (args : list bytes) (rest : bytes) (i : Z) (answer : bytes -> value)
    (Hmem : has_memory) (Hfresh : fresh_cmd c) (Hname : command_named nm = CMD_REQ_REDIS_MGET)
    (Htext : text c = Some (Format.encode (nm :: args) ++ rest)) (Hclen : clen c = zlen (Format.encode (nm :: args)))
    (Hmax : zlen (Format.encode (nm :: args) ++ rest) <= INT_MAX)
    (Hkeys : Forall (fun k => k <> []) args) (Hwhole : forall k, whole (answer k))
    (Hslots : zlen (slots_of (items CMD_REQ_REDIS_MGET args)) <> 1) (Hargs : 1 < zlen args) :
  exists f sq, command_format_by_slot c i = Some f /\ ferror f = None /\ 0 <= fslot f < REDIS_CLUSTER_SLOTS /\ ctype (fcmd f) = CMD_REQ_REDIS_MGET /\
    fseq f = Some sq /\ parts_of f = Some (map (part CMD_REQ_REDIS_MGET (items CMD_REQ_REDIS_MGET args)) (slots_of (items CMD_REQ_REDIS_MGET args))) /\
    forall (reply : nat -> option loc) (h0 : heap) (ls : list loc) (hs : list heap),
      map reply (fcommands f) = map Some ls ->
      all_answered answer (map (part CMD_REQ_REDIS_MGET (items CMD_REQ_REDIS_MGET args)) (slots_of (items CMD_REQ_REDIS_MGET args))) ls hs ->
      apart (h0 :: hs) ->
      exists h r m, command_post_fragment CMD_REQ_REDIS_MGET (map reply (fcommands f)) (map (fun x => x ≫= reply) sq) (uni (h0 :: hs)) =
          Some (h, Some r, None) /\
        tree (VArray (zlen args) (map answer args)) r m /\ m ##ₘ h0 /\ free_parts ls h = Some (m ∪ h0).
Proof.
  assert (command_of nm args = Some (CMD_REQ_REDIS_MGET, args)) as Hco.
  { unfold command_of. rewrite Hname. by destruct args. }
  destruct (format_by_slot_text c nm args rest i Hmem Hfresh) as (f & E & Hf); try done.
  { intros ->. done. }
  { intros t ks Ek. rewrite Hco in Ek. by injection Ek as <- <-. }
  rewrite Hco in Hf. unfold formatted in Hf. destruct args as [|k1 [|k2 args']] eqn:Ea; [done | done |]. rewrite <- Ea in *.
  destruct Hf as (_ & _ & _ & He & _ & _ & Hct & Hf). rewrite (proj2 (Z.eqb_neq _ _)) in Hf by done.
  destruct Hf as (_ & Hfs & Hps & (sq & Hsq & Hseq) & _). exists f, sq.
  split_and!; try done; [apply Hfs..|]. intros reply h0 ls hs Hrep Hans Ha.
  destruct (seq_places _ _ _ _ Hseq) as (idx & Hidx & ->). rewrite Hrep, map_map.
  rewrite (map_ext (fun j : nat => fcommands f !! j ≫= reply) (fun j : nat => ls !! j)).
  2:{ intros j. pose proof (f_equal (fun l => l !! j) Hrep) as Hj. cbn beta in Hj. rewrite !list_lookup_fmap in Hj.
      destruct (fcommands f !! j), (ls !! j); try done. cbn in *. congruence. }
  rewrite <- (zlen_map answer). apply post_mget; try done.
  - rewrite length_map. apply Forall2_length in Hidx. unfold items in Hidx. cbn [is_mset] in Hidx. by rewrite length_map in Hidx.
  - rewrite zlen_map. split; [lia|]. pose proof (Format.zlen_encode (nm :: args)). 
    enough (zlen args <= zlen (Format.encode (nm :: args))) by (rewrite zlen_app in Hmax; zlen_pos; lia).
    apply encode_args.
  - apply Forall_map, Forall_true. apply Hwhole.
  - apply (answered_parts answer args ls hs idx _ (slots_NoDup _) (from_has_items _ _ _)); done.
Qed.

(** C23: an MGET of keys that are not empty and lie in several slots answers like an MGET: cut up, answered part by part by
    servers that know the values of their keys, and put together again, it gives the values
    of all keys in the order of the command; the replies of the parts can be released. *)
Theorem mget_end_to_end (c : cmd) (nm : bytes) (args : list bytes) (rest : bytes) (i : Z) (answer : bytes -> value)
    (Hmem : has_memory) (Hfresh : fresh_cmd c) (Hname : command_named nm = CMD_REQ_REDIS_MGET)
    (Htext : text c = Some (Format.encode (nm :: args) ++ rest)) (Hclen : clen c = zlen (Format.encode (nm :: args)))
    (Hmax : zlen (Format.encode (nm :: args) ++ rest) <= INT_MAX)
    (Hkeys : Forall (fun k => k <> []) args) (Hwhole : forall k, whole (answer k))
    (Hslots : zlen (slots_of (items CMD_REQ_REDIS_MGET args)) <> 1) (Hargs : 1 < zlen args) :
  exists f sq ps, command_format_by_slot c i = Some f /\ ferror f = None /\ fseq f = Some sq /\ parts_of f = Some ps /\
    forall (reply : nat -> option loc) (h0 : heap) (ls : list loc) (hs : list heap),
      map reply (fcommands f) = map Some ls -> all_answered answer ps ls hs -> apart (h0 :: hs) ->
      exists h r m, command_post_fragment CMD_REQ_REDIS_MGET (map reply (fcommands f)) (map (fun x => x ≫= reply) sq) (uni (h0 :: hs)) =
          Some (h, Some r, None) /\
        tree (VArray (zlen args) (map answer args)) r m /\ m ##ₘ h0 /\ free_parts ls h = Some (m ∪ h0).
Proof.
  destruct (mget_whole c nm args rest i answer Hmem Hfresh Hname Htext Hclen Hmax Hkeys Hwhole Hslots Hargs) as (f & sq & E & He & _ & _ & Hs & Hp & Hr).
  by exists f, sq, (map (part CMD_REQ_REDIS_MGET (items CMD_REQ_REDIS_MGET args)) (slots_of (items CMD_REQ_REDIS_MGET args))).
Qed.

Lemma two_slots l a b : a ∈ l -> b ∈ l -> item_slot a <> item_slot b -> zlen (slots_of l) <> 1.
Proof.
  intros Ha Hb Hne Hl. apply slot_listed in Ha, Hb. destruct (slots_of l) as [|s [|? ?]]; [done | | rewrite !zlen_cons in Hl; zlen_pos; lia].
  apply list_elem_of_singleton in Ha, Hb. congruence.
Qed.

End Post.

(** ** Concrete replies *)

#[local] Existing Instance demo_memory.

(** An array of integers, in consecutive blocks. *)
Definition demo_ints (l : loc) (zs : list Z) : heap :=
  let elems := imap (fun i z => ((l + 1 + Pos.of_succ_nat i)%positive, z)) zs in
  <[l := array_reply (zlen zs) (Some (l + 1)%positive)]> (<[(l + 1)%positive := BPtrs (map (fun x => Some x.1) elems)]>
    (foldr (fun x m => {[x.1 := int_reply x.2]} ∪ m) ∅ elems)).

Ltac disjoint := apply map_disjoint_dom; refine (bool_decide_unpack _ _); vm_compute; exact I.

Lemma demo_one l z : tree (VArray 1 [VInt z]) l (demo_ints l [z]).
Proof.
  apply (tree_array [VInt z]); [vm_compute; split; [done | intros E; discriminate E] | | lia | |].
  - cbn. constructor; [constructor | constructor | apply map_disjoint_empty_r].
  - cbn. rewrite (right_id_L ∅ (∪)). apply lookup_insert_None. split; [done | lia].
  - cbn. rewrite (right_id_L ∅ (∪)). apply lookup_insert_None. split; [done | lia].
Qed.

Lemma demo_two : tree (VArray 2 [VInt 7; VInt 8]) 10 (demo_ints 10 [7; 8]).
Proof.
  apply (tree_array [VInt 7; VInt 8]); [vm_compute; split; [done | intros E; discriminate E] | | lia | done | done].
  cbn. constructor; [constructor | constructor; [constructor | constructor | apply map_disjoint_empty_r] | disjoint].
Qed.

Lemma demo_replies : part_replies [2%positive; 10%positive] [demo_ints 2 [5]; demo_ints 10 [7; 8]] [1%nat; 0%nat; 1%nat] [VInt 7; VInt 5; VInt 8].
Proof.
  split_and!; [done | repeat constructor; eauto |]. intros [|[|j]] l M Hl HM; [| |done]; injection Hl as <-; injection HM as <-; (split; [done|]).
  - apply demo_one.
  - apply demo_two.
Qed.

Lemma demo_apart : apart [{[1%positive := nil_reply]}; demo_ints 2 [5]; demo_ints 10 [7; 8]].
Proof. cbn [apart uni]. split_and!; [disjoint | disjoint | disjoint | done]. Qed.

Lemma post_fragment_mget_witness :
  exists h r m, command_post_fragment CMD_REQ_REDIS_MGET (map Some [2; 10]%positive) (map (fun j => [2; 10]%positive !! j) [1; 0; 1]%nat)
      (uni [{[1%positive := nil_reply]}; demo_ints 2 [5]; demo_ints 10 [7; 8]]) = Some (h, Some r, None) /\
    tree (VArray (zlen [VInt 7; VInt 5; VInt 8]) [VInt 7; VInt 5; VInt 8]) r m /\ m ##ₘ {[1%positive := nil_reply]} /\
    free_parts [2; 10]%positive h = Some (m ∪ {[1%positive := nil_reply]}).
Proof.
  apply (post_fragment_mget {[1%positive := nil_reply]} [2; 10]%positive [demo_ints 2 [5]; demo_ints 10 [7; 8]] [1; 0; 1]%nat
    [VInt 7; VInt 5; VInt 8] demo_has_memory eq_refl); [vm_compute; split; [done | intros E; discriminate E] | by repeat constructor | exact demo_replies | exact demo_apart].
Defined.

Lemma post_fragment_del_witness :
  exists r m, command_post_fragment CMD_REQ_REDIS_DEL (map Some [1; 2]%positive) [] {[1%positive := int_reply 3; 2%positive := int_reply 4]} =
      Some (m ∪ {[1%positive := int_reply 3; 2%positive := int_reply 4]}, Some r, None) /\
    m ##ₘ {[1%positive := int_reply 3; 2%positive := int_reply 4]} /\ tree (VInt (i64 (foldr Z.add 0 [3; 4]))) r m.
Proof.
  apply (post_fragment_del _ _ [3; 4] [] demo_has_memory). by repeat constructor.
Defined.

Definition demo_ok : heap :=
  {[1%positive := string_reply Read.REDIS_REPLY_STATUS REDIS_STATUS_OK 2%positive; 2%positive := BChars (REDIS_STATUS_OK ++ [0])]}.

Lemma post_fragment_mset_witness :
  exists r h', command_post_fragment CMD_REQ_REDIS_MSET (map Some [1; 1]%positive) [] demo_ok = Some (h', Some r, None) /\ demo_ok ⊆ h' /\
    ok_reply h' r /\ freeReplyObject (Some r) h' = Some demo_ok.
Proof.
  apply (post_fragment_mset demo_ok [1; 1]%positive [] demo_has_memory). repeat constructor; exists 2%positive, []; done.
Defined.

Lemma post_fragment_error_witness :
  command_post_fragment CMD_REQ_REDIS_MSET ([Some 1%positive] ++ None :: []) [] demo_ok = Some (demo_ok, None, None).
Proof.
  apply (post_fragment_error CMD_REQ_REDIS_MSET demo_ok [Some 1%positive] [] [] None demo_has_memory); [by right; right|].
  repeat constructor. eexists 1%positive, _. split_and!; try done. intros _. by exists 2%positive, [].
Defined.

Lemma mget_end_to_end_witness :
  exists f sq ps, command_format_by_slot (demo_vector [bstr "mGet"; bstr "a"; bstr "b"]) 1 = Some f /\ ferror f = None /\ fseq f = Some sq /\
    parts_of f = Some ps /\
    forall (reply : nat -> option loc) (h0 : heap) (ls : list loc) (hs : list heap),
      map reply (fcommands f) = map Some ls -> all_answered (fun k => VInt (zlen k)) ps ls hs -> apart (h0 :: hs) ->
      exists h r m, command_post_fragment CMD_REQ_REDIS_MGET (map reply (fcommands f)) (map (fun x => x ≫= reply) sq) (uni (h0 :: hs)) =
          Some (h, Some r, None) /\
        tree (VArray (zlen [bstr "a"; bstr "b"]) (map (fun k => VInt (zlen k)) [bstr "a"; bstr "b"])) r m /\ m ##ₘ h0 /\
        free_parts ls h = Some (m ∪ h0).
Proof.
  apply (mget_end_to_end _ (bstr "mGet") _ [0] 1 (fun k => VInt (zlen k)) demo_has_memory (demo_fresh _ _) eq_refl eq_refl eq_refl).
  - vm_compute. intros E. discriminate E.
  - by repeat constructor.
  - done.
  - apply (two_slots _ [bstr "a"] [bstr "b"]); [left | right; left | vm_compute; intros E; discriminate E].
  - done.
Defined.

End Gather.
