(* ===== verification/Route.v ===== *)
(** The routing table of a cluster, hircluster.c: the nodes and slot regions read from the
    reply to CLUSTER SLOTS ([parse_cluster_slots]), the table of slots built from them (the
    second half of [cluster_update_route_by_addr]), the lookups in the table and in the sorted
    array of regions, and the proofs that a slot is routed to the node that announced it. *)
From stdpp Require Import sorting.
From S2P Require Import Prelude Crc16 HiUtil HiArray AdList Dict Sds Read Reply Frag.
Import HiUtil Reply.

Open Scope Z_scope.

Module Route.

Import Frag.

Definition REDIS_ROLE_NULL : Z := 0.
Definition REDIS_ROLE_MASTER : Z := 1.
Definition REDIS_ROLE_SLAVE : Z := 2.
Definition HIRCLUSTER_FLAG_ADD_SLAVE : Z := 4096.

(** A node is named by its place in the memory of nodes. *)
Abbreviation nodeptr := nat.

(** [cluster_slot]. *)
Record cluster_slot := mk_slot { sstart : Z; send : Z; snode : option nodeptr }.

(** [copen_slot]: a slot that is moved to or from another node. *)
Record copen_slot := mk_open_slot { slot_num : Z; migrate : Z; remote_name : option bytes; onode : nodeptr }.

(** [cluster_node]; a connection is named by its place in the memory of connections. The
    asynchronous connection, the failure count and the user's data are not used here. *)
Record cluster_node := mk_node {
  name : option bytes;
  addr : bytes;
  host : option bytes;
  port : Z;
  role : Z;
  myself : Z;
  con : option nat;
  slots : option (list cluster_slot);
  slaves : option (list nodeptr);
  migrating : option (HiArray.hiarray copen_slot);
  importing : option (HiArray.hiarray copen_slot);
}.

Definition with_slots (n : cluster_node) (l : list cluster_slot) : cluster_node :=
  mk_node (name n) (addr n) (host n) (port n) (role n) (myself n) (con n) (Some l) (slaves n) (migrating n) (importing n).
Definition with_slaves (n : cluster_node) (l : option (list nodeptr)) : cluster_node :=
  mk_node (name n) (addr n) (host n) (port n) (role n) (myself n) (con n) (slots n) l (migrating n) (importing n).

(** A new node: [cluster_node_init], and the fields that are set when it is created. *)
Definition node_init (name : option bytes) (addr : bytes) (host : option bytes) (port role : Z) (slots : option (list cluster_slot)) : cluster_node :=
  mk_node name addr host port role 0 None slots None None None.

(** [clusterNodesDictType]: keys are compared by content and hashed by [dictGenHashFunction]. *)
#[export] Instance clusterNodesDictType : Dict.dictType bytes nodeptr := {|
  Dict.hashFunction := Dict.dictGenHashFunction;
  Dict.keyDup := None;
  Dict.valDup := None;
  Dict.keyCompare := Some (fun a b => if zlen a =? zlen b then bool_decide (a = b) else false);
  Dict.has_keyDestructor := true;
  Dict.has_valDestructor := true;
|}.

Abbreviation nodes_dict := (Dict.dict bytes nodeptr).

(** The memory of nodes, the array of regions and the table of the context. *)
Abbreviation nodes_mem := (list cluster_node).
Abbreviation slot_array := (HiArray.hiarray cluster_slot).
Abbreviation slot_table := (list (option nodeptr)).

(** ** Errors *)

(** A computation fails with the error it set, or with none when it set none. *)
Abbreviation res A := (option (A + option cerror)).

Definition rbind {A B} (x : res A) (k : A -> res B) : res B :=
  match x with
  | None => None
  | Some (inr e) => Some (inr e)
  | Some (inl a) => k a
  end.
Notation "'let*' x := e 'in' k" := (rbind e (fun x => k)) (at level 10, x strict pattern, k at level 200).

Definition ret {A} (a : A) : res A := Some (inl a).
Definition fail {A} (type : Z) (msg : bytes) : res A := Some (inr (Some (set_error type msg))).
Definition check (ok : bool) (type : Z) (msg : bytes) : res unit := if ok then ret tt else fail type msg.

(** Undefined behaviour passes through. *)
Definition lift {A} (x : option A) : res A := match x with Some a => ret a | None => None end.

Section Ops.
Context `{Memory}.

(** The sizes that are allocated. *)
Definition slot_size : Z := 16.
Definition cluster_node_size : Z := 96.
Definition list_size : Z := 48.
Definition iter_size : Z := 16.

(** ** Nodes and regions *)

(** [cluster_slot_create] without a node. *)
Definition cluster_slot_create : option cluster_slot :=
  if malloc_ok slot_size then Some (mk_slot 0 0 None) else None.

(** [cluster_slot_ref_node]; [listAddNodeTail] without memory does nothing, untested. *)
Definition cluster_slot_ref_node (slot : cluster_slot) (p : nodeptr) (mem : nodes_mem) : option (nodes_mem * bool) :=
  n ← mem !! p;
  if negb (role n =? REDIS_ROLE_MASTER) then Some (mem, false)
  else
    match (match slots n with Some l => Some l | None => if malloc_ok list_size then Some [] else None end) with
    | None => Some (mem, false)
    | Some l =>
        let slot := mk_slot (sstart slot) (send slot) (Some p) in
        Some (<[p := with_slots n (if malloc_ok node_size then l ++ [slot] else l)]> mem, true)
    end.

(** [sdsnewlen(elem->str, elem->len)]. *)
Definition sds_of (s : bytes) : option (option Sds.sds) := Sds.sdsnewlen (Some (s ++ [0])) (u64 (i32 (zlen s))).

(** The bytes of a string. *)
Definition sds_text (s : Sds.sds) : bytes := take (Z.to_nat (Sds.sdslen s)) (Sds.buf s).

(** The text of the address, built with [sdsnewlen] and [sdscatfmt]: the port is a
    [long long] and the directive takes an [int]. *)
Definition addr_text (ip : bytes) (port : Z) : option bytes :=
  s ← mjoin (sds_of ip);
  s ← Sds.sdscatfmt s (bstr ":%i") [Sds.ArgInt (i32 port)];
  Some (sds_text s).

Definition slots_error (msg : string) : bytes := bstr "Command(cluster slots) reply error: " ++ bstr msg.

(** The fields of a reply that are read; a hole is a NULL pointer. *)
Definition vtype (v : value) : option Z :=
  match v with
  | VString ty _ => Some ty
  | VInt _ => Some Read.REDIS_REPLY_INTEGER
  | VNil => Some Read.REDIS_REPLY_NIL
  | VArray _ _ => Some Read.REDIS_REPLY_ARRAY
  | VHole => None
  end.

Definition is_type (ty : Z) (v : value) : option bool := t ← vtype v; Some (t =? ty).

Definition elements (v : value) : Z := match v with VArray n _ => u64 n | _ => 0 end.

(** [reply->element[i]]. *)
Definition element_at (v : value) (i : Z) : option value :=
  match v with VArray _ vs => rd vs i | _ => None end.

Definition vint (v : value) : Z := match v with VInt z => z | _ => 0 end.
Definition vstr (v : value) : bytes := match v with VString _ s => s | _ => [] end.

(** [node_get_with_slots]: the new node is the last one of the memory. When the list of
    regions cannot be allocated the node is freed twice. *)
Definition node_get_with_slots (host_elem port_elem : value) (role : Z) (mem : nodes_mem) : res (nodes_mem * nodeptr) :=
  match host_elem, port_elem with
  | VHole, _ | _, VHole => Some (inr None)
  | _, _ =>
      let* hs := lift (is_type Read.REDIS_REPLY_STRING host_elem) in
      let* _ := check (hs && negb (i32 (zlen (vstr host_elem)) <=? 0)) Read.REDIS_ERR_OTHER (slots_error "node ip is not string.") in
      let* pi := lift (is_type Read.REDIS_REPLY_INTEGER port_elem) in
      let* _ := check (pi && negb (vint port_elem <=? 0)) Read.REDIS_ERR_OTHER (slots_error "node port is not integer.") in
      let* _ := check (negb (hi_valid_port (i32 (vint port_elem)) =? 0)) Read.REDIS_ERR_OTHER (slots_error "node port is not valid.") in
      let* _ := check (malloc_ok cluster_node_size) Read.REDIS_ERR_OOM (bstr "Out of memory") in
      let* l := (if role =? REDIS_ROLE_MASTER then if malloc_ok list_size then ret (Some []) else None else ret None) in
      let* a := lift (addr_text (vstr host_elem) (vint port_elem)) in
      let* h := lift (sds_of (vstr host_elem)) in
      ret (mem ++ [node_init None a (sds_text <$> h) (i32 (vint port_elem)) role l], length mem)
  end.

(** ** CLUSTER SLOTS *)

(** The locals of [parse_cluster_slots] that live through the loops. *)
Record parse := mk_parse { pnodes : nodes_dict; pmem : nodes_mem; pmaster : option nodeptr }.

(** The copy of the address that becomes the key. *)
Definition key_copy (a : bytes) : option bytes := s ← mjoin (Sds.sdsnewlen (Some (a ++ [0])) (zlen a)); Some (sds_text s).

Definition ref_or_fail (slot : cluster_slot) (p : nodeptr) (st : parse) : res parse :=
  let* (mem, ok) := lift (cluster_slot_ref_node slot p (pmem st)) in
  let* _ := check ok Read.REDIS_ERR_OOM (bstr "Slot ref node failed: out of memory.") in
  ret (mk_parse (pnodes st) mem (Some p)).

(** The master of a region; the flag says whether the loop is left. *)
Definition parse_master (ip port : value) (slot : cluster_slot) (st : parse) : res (parse * bool) :=
  let* address := lift (addr_text (vstr ip) (vint port)) in
  let* den := lift (Dict.dictFind (pnodes st) address) in
  match den with
  | Some (_, p) => let* st := ref_or_fail slot p st in ret (st, true)
  | None =>
      let* (mem, p) := node_get_with_slots ip port REDIS_ROLE_MASTER (pmem st) in
      let* n := lift (mem !! p) in
      let* k := lift (key_copy (addr n)) in
      let* (nodes, r) := lift (Dict.dictAdd malloc_ok (pnodes st) k p) in
      let* _ := check (r =? Dict.DICT_OK) Read.REDIS_ERR_OTHER (bstr "The address already exists in the nodes") in
      let* st := ref_or_fail slot p (mk_parse nodes mem (Some p)) in
      ret (st, false)
  end.

(** A slave of a region. *)
Definition parse_slave (ip port : value) (st : parse) : res parse :=
  let* (mem, p) := node_get_with_slots ip port REDIS_ROLE_SLAVE (pmem st) in
  let* m := lift (pmaster st) in
  let* n := lift (mem !! m) in
  let* l := (match slaves n with
             | Some l => ret l
             | None => let* _ := check (malloc_ok list_size) Read.REDIS_ERR_OOM (bstr "Out of memory") in ret []
             end) in
  ret (mk_parse (pnodes st) (<[m := with_slaves n (Some (if malloc_ok node_size then l ++ [p] else l))]> mem) (pmaster st)).

(** An element behind the bounds: a node. *)
Definition parse_node (flags idx : Z) (v : value) (slot : cluster_slot) (st : parse) : res (parse * bool) :=
  let* arr := lift (is_type Read.REDIS_REPLY_ARRAY v) in
  let* _ := check (arr && (elements v =? 3)) Read.REDIS_ERR_OTHER (slots_error "nodes sub_reply is not an correct array.") in
  let* ip := lift (element_at v 0) in
  let* port := lift (element_at v 1) in
  let* ok := (match ip, port with
              | VHole, _ | _, VHole => ret false
              | _, _ => lift (a ← is_type Read.REDIS_REPLY_STRING ip; b ← is_type Read.REDIS_REPLY_INTEGER port; Some (a && b))
              end) in
  let* _ := check ok Read.REDIS_ERR_OTHER (slots_error "master ip or port is not correct.") in
  if idx =? 2 then parse_master ip port slot st
  else if negb (Z.land flags HIRCLUSTER_FLAG_ADD_SLAVE =? 0) then let* st := parse_slave ip port st in ret (st, false)
  else ret (st, false).

(** The loop over the elements of a region; [n] is its number of elements. *)
Fixpoint parse_region (flags : Z) (vs : list value) (idx n : Z) (slot : cluster_slot) (st : parse) : res parse :=
  match vs with
  | [] => if idx <? n then None else ret st
  | v :: vs' =>
      if n <=? idx then ret st
      else if idx =? 0 then
        let* ok := lift (is_type Read.REDIS_REPLY_INTEGER v) in
        let* _ := check ok Read.REDIS_ERR_OTHER (slots_error "slot begin is not an integer.") in
        parse_region flags vs' (idx + 1) n (mk_slot (u32 (i32 (vint v))) (send slot) (snode slot)) st
      else if idx =? 1 then
        let* ok := lift (is_type Read.REDIS_REPLY_INTEGER v) in
        let* _ := check ok Read.REDIS_ERR_OTHER (slots_error "slot end is not an integer.") in
        let slot := mk_slot (sstart slot) (u32 (i32 (vint v))) (snode slot) in
        let* _ := check (negb (send slot <? sstart slot)) Read.REDIS_ERR_OTHER (slots_error "slot begin is bigger than slot end.") in
        parse_region flags vs' (idx + 1) n slot st
      else
        let* (st, stop) := parse_node flags idx v slot st in
        if (stop : bool) then ret st else parse_region flags vs' (idx + 1) n slot st
  end.

(** The loop over the regions. *)
Fixpoint parse_regions (flags : Z) (vs : list value) (i n : Z) (st : parse) : res parse :=
  match vs with
  | [] => if i <? n then None else ret st
  | v :: vs' =>
      if n <=? i then ret st
      else
        let* arr := lift (is_type Read.REDIS_REPLY_ARRAY v) in
        let* _ := check (arr && negb (elements v <? 3)) Read.REDIS_ERR_OTHER (slots_error "first sub_reply is not an array.") in
        match cluster_slot_create with
        | None => fail Read.REDIS_ERR_OOM (bstr "Slot create failed: out of memory.")
        | Some slot =>
            let* st := parse_region flags (match v with VArray _ l => l | _ => [] end) 0 (elements v) slot st in
            parse_regions flags vs' (u32 (i + 1)) n st
        end
  end.

(** [parse_cluster_slots] on a reply that is not NULL: the dictionary of the masters and the
    memory of the nodes. What the error path releases is not tracked. *)
Definition parse_cluster_slots (reply : value) (flags : Z) : res (nodes_dict * nodes_mem) :=
  match Dict.dictCreate malloc_ok with
  | None => fail Read.REDIS_ERR_OOM (bstr "out of memory")
  | Some nodes =>
      let* arr := lift (is_type Read.REDIS_REPLY_ARRAY reply) in
      let* _ := check (arr && negb (elements reply <=? 0)) Read.REDIS_ERR_OTHER (slots_error "reply is not an array.") in
      let* st := parse_regions flags (match reply with VArray _ l => l | _ => [] end) 0 (elements reply) (mk_parse nodes [] None) in
      ret (pnodes st, pmem st)
  end.

(** ** The table *)

(** The regions of one master are pushed on the array, untested. *)
Fixpoint push_slots (l : list cluster_slot) (a : slot_array) : res slot_array :=
  match l with
  | [] => ret a
  | s :: l' =>
      let* _ := check (negb ((send s <? sstart s) || (REDIS_CLUSTER_SLOTS <=? send s))) Read.REDIS_ERR_OTHER
                  (bstr "Slot region for node is error") in
      let* (a, i) := lift (HiArray.hiarray_push malloc_ok a) in
      let* a := lift (HiArray.hiarray_put a i s) in
      push_slots l' a
  end.

(** The loop over the dictionary; [fuel] bounds the number of its entries. The iterator over
    the regions of the previous master was released but is not forgotten ([released]), and
    the error path releases it again. *)
Fixpoint push_nodes (fuel : nat) (nodes : nodes_dict) (it : Dict.dictIterator bytes nodeptr) (mem : nodes_mem) (released : bool) (a : slot_array) :
    res slot_array :=
  match fuel with
  | O => None
  | S f =>
      let* (e, it) := lift (Dict.dictNext nodes it) in
      match e with
      | None => ret a
      | Some (_, p) =>
          let* n := lift (mem !! p) in
          let* _ := (if role n =? REDIS_ROLE_MASTER then ret tt
                     else if released then None else fail Read.REDIS_ERR_OOM (bstr "Node role must be master")) in
          match slots n with
          | None => push_nodes f nodes it mem released a
          | Some l =>
              let* _ := check (malloc_ok iter_size) Read.REDIS_ERR_OOM (bstr "List get iterator failed: out of memory") in
              let* a := push_slots l a in
              push_nodes f nodes it mem true a
          end
      end
  end.

(** [for(k = start; k <= end; k ++)], [count] rounds. *)
Fixpoint fill_slot (count : nat) (k : Z) (p : option nodeptr) (t : slot_table) : res slot_table :=
  match count with
  | O => ret t
  | S c =>
      let* x := lift (rd t k) in
      match x with
      | Some _ => fail Read.REDIS_ERR_OTHER (bstr "Diffent node hold a same slot")
      | None => let* t := lift (wr t k p) in fill_slot c (k + 1) p t
      end
  end.

Fixpoint fill_table (l : list cluster_slot) (t : slot_table) : res slot_table :=
  match l with
  | [] => ret t
  | s :: l' => let* t := fill_slot (Z.to_nat (send s - sstart s + 1)) (sstart s) (snode s) t in fill_table l' t
  end.

(** The elements of the array, read one by one with [hiarray_get]. *)
Definition slot_list (a : slot_array) : option (list cluster_slot) :=
  mapM (HiArray.hiarray_get a) (seqZ 0 (HiArray.hiarray_n a)).

(** From the nodes to the array and the table, over the C library's [qsort] with
    [cluster_slot_start_cmp]. The iterator over the dictionary is released before the table is
    filled; when a slot is found twice, the error path releases it again. *)
Definition build_route (qsort : list (option cluster_slot) -> list (option cluster_slot)) (nodes : nodes_dict) (mem : nodes_mem) :
    res (slot_array * slot_table) :=
  match HiArray.hiarray_create malloc_ok (Dict.used nodes) 8 with
  | None => fail Read.REDIS_ERR_OTHER (bstr "Slots array create failed: out of memory")
  | Some a =>
      match Dict.dictGetIterator (K := bytes) (V := nodeptr) malloc_ok with
      | None => fail Read.REDIS_ERR_OOM (bstr "Dict get iterator failed: out of memory")
      | Some it =>
          let* a := push_nodes (S (Z.to_nat (Dict.used nodes))) nodes it mem false a in
          let a := HiArray.hiarray_sort qsort a in
          let* l := lift (slot_list a) in
          match fill_table l (replicate (Z.to_nat REDIS_CLUSTER_SLOTS) None) with
          | Some (inl t) => ret (a, t)
          | _ => None
          end
      end
  end.

(** ** Lookups *)

Definition node_get_by_table (t : slot_table) (slot_num : Z) : option (option nodeptr) :=
  if REDIS_CLUSTER_SLOTS <=? slot_num then Some None else rd t slot_num.

(** The search; the difference of the bounds halves, 33 rounds are enough for 32 bits. *)
Fixpoint search (fuel : nat) (a : slot_array) (slot_num start end_ : Z) : option (option nodeptr) :=
  match fuel with
  | O => None
  | S f =>
      let stop := end_ <=? start in
      let middle := if stop then end_ else u32 (start + u32 (end_ - start) / 2) in
      s ← HiArray.hiarray_get a middle;
      if slot_num <? sstart s then (if stop then Some None else search f a slot_num start (u32 (middle - 1)))
      else if send s <? slot_num then (if stop then Some None else search f a slot_num (u32 (middle + 1)) end_)
      else Some (snode s)
  end.

Definition node_get_by_slot (a : option slot_array) (slot_num : Z) : option (option nodeptr) :=
  if REDIS_CLUSTER_SLOTS <=? slot_num then Some None
  else
    match a with
    | None => Some None
    | Some a => search 34 a slot_num 0 (u32 (HiArray.hiarray_n a - 1))
    end.

End Ops.

(** ** Regions *)

Definition covers (s : cluster_slot) (k : Z) : Prop := sstart s <= k <= send s.

(** A region inside of the table. *)
Definition valid (s : cluster_slot) : Prop := 0 <= sstart s <= send s /\ send s < REDIS_CLUSTER_SLOTS.

Definition separate (s s' : cluster_slot) : Prop := send s < sstart s' \/ send s' < sstart s.

(** No slot is in two regions. *)
Fixpoint disjoint (l : list cluster_slot) : Prop :=
  match l with [] => True | s :: l' => Forall (separate s) l' /\ disjoint l' end.

#[export] Instance valid_dec s : Decision (valid s).
Proof. unfold valid. apply _. Defined.
#[export] Instance separate_dec s s' : Decision (separate s s').
Proof. unfold separate. apply _. Defined.
#[export] Instance disjoint_dec l : Decision (disjoint l).
Proof. induction l as [|s l IH]; cbn [disjoint]; apply _. Defined.

(** The node of the region a slot is in. *)
Fixpoint owner (l : list cluster_slot) (k : Z) : option nodeptr :=
  match l with
  | [] => None
  | s :: l' => if decide (covers s k) then snode s else owner l' k
  end.

Lemma separate_sym s s' : separate s s' -> separate s' s.
Proof. unfold separate. tauto. Qed.

Lemma separate_covers s s' k : separate s s' -> covers s k -> covers s' k -> False.
Proof. unfold separate, covers. lia. Qed.

Lemma disjoint_perm l l' : l ≡ₚ l' -> disjoint l -> disjoint l'.
Proof.
  induction 1 as [|s l l' Hp IH|s s' l|l1 l2 l3 _ IH1 _ IH2]; cbn [disjoint].
  - done.
  - intros [Hf Hd]. split; [by rewrite <- Hp | auto].
  - rewrite !Forall_cons. intros [[Hs Hf] [Hf' Hd]]. split_and!; auto using separate_sym.
  - auto.
Qed.

#[export] Instance disjoint_proper : Proper ((≡ₚ) ==> iff) disjoint.
Proof. intros l l' Hp. split; apply disjoint_perm; [done | by symmetry]. Qed.

Lemma owner_none l k : Forall (fun s => ~ covers s k) l -> owner l k = None.
Proof. induction 1 as [|s l Hs _ IH]; cbn [owner]; [done|]. by rewrite decide_False. Qed.

(** Disjoint regions have one owner for every slot, in whatever order they are. *)
Lemma owner_in l s k : disjoint l -> s ∈ l -> covers s k -> owner l k = snode s.
Proof.
  induction l as [|s' l IH]; intros Hd Hs Hc; [by apply elem_of_nil in Hs|]. cbn [disjoint owner] in *.
  destruct Hd as [Hf Hd]. apply elem_of_cons in Hs as [->|Hs]; [by rewrite decide_True|].
  rewrite decide_False; [by apply IH|]. intros Hc'. rewrite Forall_forall in Hf.
  exact (separate_covers _ _ _ (Hf _ Hs) Hc' Hc).
Qed.

Lemma covered_dec l k : (exists s, s ∈ l /\ covers s k) \/ Forall (fun s => ~ covers s k) l.
Proof.
  induction l as [|s l IH]; [by right|]. destruct (decide (covers s k)) as [Hc|Hc].
  - left. exists s. split; [left | done].
  - destruct IH as [(s' & Hs & Hc')|IH]; [left; exists s'; split; [by right | done] | right; by constructor].
Qed.

Lemma owner_perm l l' k : l ≡ₚ l' -> disjoint l -> owner l k = owner l' k.
Proof.
  intros Hp Hd. destruct (covered_dec l k) as [(s & Hs & Hc)|Hn].
  - rewrite (owner_in l s) by done. symmetry. apply owner_in; [by eapply disjoint_perm | by rewrite <- Hp | done].
  - rewrite !owner_none; [done | by rewrite <- Hp | done].
Qed.

Lemma disjoint_app l s : disjoint l -> Forall (separate s) l -> disjoint (l ++ [s]).
Proof. intros Hd Hf. apply (disjoint_perm (s :: l)); [apply Permutation_cons_append | done]. Qed.

Lemma disjoint_split l s l' : disjoint (l ++ s :: l') -> disjoint (l ++ [s]) /\ Forall (separate s) l.
Proof.
  intros Hd. apply (disjoint_perm _ (s :: l ++ l')) in Hd as [Hf Hd]; [|symmetry; apply Permutation_middle].
  apply Forall_app in Hf as [Hf _]. split; [|done]. apply disjoint_app; [|done].
  clear Hf. induction l as [|x l IH]; [done|]. cbn [app disjoint] in *. destruct Hd as [Hf Hd].
  apply Forall_app in Hf as [Hf _]. auto.
Qed.

Lemma owner_app l l' k : owner (l ++ l') k = if decide (Exists (fun s => covers s k) l) then owner l k else owner l' k.
Proof.
  induction l as [|s l IH]; [done|]. cbn [app owner]. rewrite IH.
  destruct (decide (covers s k)) as [Hc|Hc].
  - by rewrite decide_True by (by left).
  - destruct (decide (Exists _ l)); [by rewrite decide_True by (by right)|].
    rewrite decide_False; [done|]. intros He. by apply Exists_cons in He as [|].
Qed.

(** ** Filling the table *)

(** The table of these regions. *)
Definition routes (t : slot_table) (l : list cluster_slot) : Prop :=
  zlen t = REDIS_CLUSTER_SLOTS /\ forall k, 0 <= k < REDIS_CLUSTER_SLOTS -> rd t k = Some (owner l k).

Definition named (s : cluster_slot) : Prop := is_Some (snode s).

Lemma rd_wr {A} (t t' : list A) k p j : wr t k p = Some t' -> zlen t' = zlen t /\ rd t' j = if decide (j = k) then Some p else rd t j.
Proof.
  unfold wr. case_decide as Hk; [|done]. intros E. injection E as <-. split; [unfold zlen; by rewrite length_insert|].
  unfold rd, zlen in *. destruct (decide (j = k)) as [->|Hne].
  - rewrite decide_True by lia. apply list_lookup_insert_eq. lia.
  - destruct (decide (0 <= j)); [|done]. apply list_lookup_insert_ne. lia.
Qed.

Lemma wr_in {A} (t : list A) k p : 0 <= k < zlen t -> exists t', wr t k p = Some t'.
Proof. intros Hk. unfold wr. rewrite decide_True by lia. eauto. Qed.

Lemma fill_slot_free count p : forall k t, 0 <= k -> k + Z.of_nat count <= zlen t ->
  (forall j, k <= j < k + Z.of_nat count -> rd t j = Some None) ->
  exists t', fill_slot count k p t = ret t' /\ zlen t' = zlen t /\
    forall j, rd t' j = if decide (k <= j < k + Z.of_nat count) then Some p else rd t j.
Proof.
  induction count as [|c IH]; intros k t Hk Hl Hf; cbn [fill_slot].
  - exists t. split_and!; [done..|]. intros j. by rewrite decide_False by lia.
  - rewrite Hf by lia. cbn [lift rbind ret]. destruct (wr_in t k p ltac:(lia)) as [t1 E]. rewrite E. cbn [lift rbind ret].
    destruct (rd_wr t t1 k p 0 E) as [Hz _].
    destruct (IH (k + 1) t1) as (t' & -> & Hz' & Hr); [lia | lia | |].
    + intros j Hj. destruct (rd_wr t t1 k p j E) as [_ ->]. rewrite decide_False by lia. apply Hf. lia.
    + exists t'. split_and!; [done | lia |]. intros j. rewrite Hr. destruct (rd_wr t t1 k p j E) as [_ ->].
      repeat case_decide; try done; try lia.
Qed.

Definition taken {A} : res A := fail Read.REDIS_ERR_OTHER (bstr "Diffent node hold a same slot").

Lemma fill_slot_taken count p : forall k t, 0 <= k -> k + Z.of_nat count <= zlen t ->
  (exists j q, k <= j < k + Z.of_nat count /\ rd t j = Some (Some q)) -> fill_slot count k p t = taken.
Proof.
  induction count as [|c IH]; intros k t Hk Hl (j & q & Hj & Hr); [lia|]. cbn [fill_slot].
  destruct (rd_is_Some t k ltac:(lia)) as [x Hx]. rewrite Hx. cbn [lift rbind ret]. destruct x as [y|]; [done|].
  destruct (wr_in t k p ltac:(lia)) as [t1 E]. rewrite E. cbn [lift rbind ret].
  destruct (rd_wr t t1 k p j E) as [Hz Hw]. apply IH; [lia | lia |]. exists j, q.
  destruct (decide (j = k)) as [->|]; [congruence|]. split; [lia | congruence].
Qed.

(** One region is stored if it is separate from those before it. *)
Lemma fill_slot_spec s t l : routes t l -> Forall valid l -> Forall named l -> disjoint l -> valid s ->
  let r := fill_slot (Z.to_nat (send s - sstart s + 1)) (sstart s) (snode s) t in
  if decide (Forall (separate s) l) then exists t', r = ret t' /\ routes t' (l ++ [s]) else r = taken.
Proof.
  intros [Hz Hr] Hv Hn Hd ((H1 & H2) & H3). cbn zeta. case_decide as Hs.
  - destruct (fill_slot_free (Z.to_nat (send s - sstart s + 1)) (snode s) (sstart s) t) as (t' & E & Hz' & Hr'); [lia | lia | |].
    + intros j Hj. rewrite Hr by lia. f_equal. apply owner_none. eapply Forall_impl; [exact Hs|]. intros s' Hs' Hc.
      apply (separate_covers s s' j); [done | unfold covers; lia | done].
    + exists t'. split; [done|]. split; [lia|]. intros k Hk. rewrite Hr', Hr by lia. rewrite owner_app. cbn [owner].
      assert (sstart s <= k < sstart s + Z.of_nat (Z.to_nat (send s - sstart s + 1)) <-> covers s k) as Hiff by (unfold covers; lia).
      destruct (decide (covers s k)) as [Hc|Hc].
      * rewrite decide_True by tauto. rewrite decide_False; [done|]. intros He. apply Exists_exists in He as (s' & Hin & Hc').
        rewrite Forall_forall in Hs. exact (separate_covers _ _ _ (Hs _ Hin) Hc Hc').
      * rewrite decide_False by tauto. case_decide as He; [done|]. rewrite owner_none; [done|].
        by apply Forall_Exists_neg.
  - apply fill_slot_taken; [lia | lia |]. apply not_Forall_Exists in Hs; [|apply _]. apply Exists_exists in Hs as (s' & Hin & Hns).
    rewrite Forall_forall in Hv, Hn. destruct (Hv _ Hin) as ((? & ?) & ?). destruct (Hn _ Hin) as [q Hq].
    exists (Z.max (sstart s) (sstart s')), q. unfold compose, separate in Hns. split; [lia|]. rewrite Hr by lia. f_equal.
    rewrite (owner_in l s') by (done || unfold covers; lia). done.
Qed.

Lemma fill_table_spec l : forall done t, routes t done -> Forall valid (done ++ l) -> Forall named (done ++ l) -> disjoint done ->
  if decide (disjoint (done ++ l)) then exists t', fill_table l t = ret t' /\ routes t' (done ++ l) else fill_table l t = taken.
Proof.
  induction l as [|s l IH]; intros done t Hr Hv Hn Hd; cbn [fill_table].
  - rewrite app_nil_r in *. rewrite decide_True by done. by exists t.
  - pose proof Hv as Hv'. pose proof Hn as Hn'. apply Forall_app in Hv' as [Hv1 Hv2], Hn' as [Hn1 _]. apply Forall_inv in Hv2.
    pose proof (fill_slot_spec s t done Hr Hv1 Hn1 Hd Hv2) as Hf. cbn zeta in Hf.
    replace (done ++ s :: l) with ((done ++ [s]) ++ l) in * by (by rewrite <- app_assoc).
    destruct (decide (Forall (separate s) done)) as [Hs|Hs].
    + destruct Hf as (t1 & -> & Hr1). cbn [rbind ret]. apply IH; try done. by apply disjoint_app.
    + rewrite Hf. rewrite decide_False; [done|]. intros Hx. apply Hs. rewrite <- app_assoc in Hx. by apply disjoint_split in Hx as [_ ?].
Qed.

Lemma routes_empty : routes (replicate (Z.to_nat REDIS_CLUSTER_SLOTS) None) [].
Proof.
  split; [by rewrite zlen_replicate|]. intros k Hk. unfold rd. rewrite decide_True by (unfold REDIS_CLUSTER_SLOTS in *; lia).
  apply lookup_replicate_2. unfold REDIS_CLUSTER_SLOTS in *. lia.
Qed.

(** ** Collecting the regions *)

#[export] Instance clusterNodes_laws : Dict.DictLaws clusterNodesDictType.
Proof.
  split.
  - intros k. apply Dict.dictGenHashFunction_range.
  - intros f E a b. injection E as <-. destruct (Z.eqb_spec (zlen a) (zlen b)) as [Hz|Hz]; [done|].
    symmetry. apply bool_decide_eq_false. congruence.
  - done.
Qed.

(** The regions of the nodes of some entries, in their order. *)
Definition regions_of (mem : nodes_mem) (es : list (bytes * nodeptr)) : list cluster_slot :=
  flat_map (fun e => default [] (mem !! e.2 ≫= slots)) es.

Definition all_regions (nodes : nodes_dict) (mem : nodes_mem) : list cluster_slot := regions_of mem (concat (Dict.table nodes)).

(** The entries are masters, and their regions name them. *)
Definition master_at (mem : nodes_mem) (e : bytes * nodeptr) : Prop :=
  exists n, mem !! e.2 = Some n /\ role n = REDIS_ROLE_MASTER /\
    Forall (fun s => 0 <= sstart s /\ snode s = Some e.2) (default [] (slots n)).

(** A dictionary of masters. *)
Definition masters (nodes : nodes_dict) (mem : nodes_mem) : Prop :=
  Dict.wf nodes /\ 0 < Dict.used nodes < 2 ^ 30 /\ Dict.size nodes < 2 ^ 31 /\ Forall (master_at mem) (concat (Dict.table nodes)).

Lemma regions_named mem es : Forall (master_at mem) es -> Forall (fun s => 0 <= sstart s /\ named s) (regions_of mem es).
Proof.
  induction 1 as [|e es (n & Hn & _ & Hs) _ IH]; [constructor|]. cbn [regions_of flat_map]. apply Forall_app. split; [|done].
  rewrite Hn. cbn [mbind option_bind]. eapply Forall_impl; [exact Hs|]. cbn beta. intros s [? Hx]. split; [done|]. unfold named. rewrite Hx. eauto.
Qed.

Section Build.
Context `{Memory} (Hmem : has_memory).

Definition refused {A} (r : res A) : Prop := exists e, r = Some (inr (Some e)).

Lemma push_slots_spec n l : forall a xs, Forall (fun s => 0 <= sstart s) l -> HiArray.repr a xs ->
  HiArray.nalloc a <= Z.max n (2 * zlen xs) -> n < 2 ^ 31 -> zlen xs + zlen l < 2 ^ 30 ->
  if decide (Forall valid l)
  then exists a', push_slots l a = ret a' /\ HiArray.repr a' (xs ++ l) /\ HiArray.nalloc a' <= Z.max n (2 * zlen (xs ++ l))
  else refused (push_slots l a).
Proof.
  induction l as [|s l IH]; intros a xs Hu Hr Ha Hn Hl; cbn [push_slots].
  - rewrite decide_True by constructor. exists a. by rewrite app_nil_r.
  - inversion_clear Hu as [|? ? Hs Hu']. rewrite zlen_cons in Hl. zlen_pos.
    destruct ((send s <? sstart s) || (REDIS_CLUSTER_SLOTS <=? send s)) eqn:Ev; cbn [negb].
    + rewrite decide_False; [by eexists|]. intros Hv. apply Forall_inv in Hv as ((? & ?) & ?).
      apply orb_true_iff in Ev as [Ev|Ev]; [apply Z.ltb_lt in Ev | apply Z.leb_le in Ev]; lia.
    + apply orb_false_iff in Ev as [Ev1 Ev2]. apply Z.ltb_ge in Ev1. apply Z.leb_gt in Ev2. cbn [check rbind ret].
      destruct (HiArray.push_put malloc_ok a xs s n Hmem Hr Ha ltac:(lia)) as (a1 & i & a2 & -> & Hp & Hr2 & Ha2).
      cbn [lift rbind ret]. rewrite Hp. cbn [lift rbind ret].
      specialize (IH a2 (xs ++ [s]) Hu' Hr2 Ha2 Hn ltac:(rewrite zlen_app; change (zlen [s]) with 1; lia)).
      rewrite <- app_assoc in IH. cbn [app] in IH.
      destruct (decide (Forall valid l)) as [Hv|Hv].
      * rewrite decide_True by (constructor; [split; [split|]; done | done]). done.
      * rewrite decide_False by (intros Hx; by apply Forall_cons in Hx as [_ ?]). done.
Qed.

Lemma push_nodes_spec n nodes mem f : forall it rel a xs, Dict.wf nodes -> Dict.size nodes < 2 ^ 31 -> Dict.iter_ok nodes it ->
  Forall (master_at mem) (Dict.remaining nodes it) -> (length (Dict.remaining nodes it) < f)%nat ->
  HiArray.repr a xs -> HiArray.nalloc a <= Z.max n (2 * zlen xs) -> n < 2 ^ 31 ->
  zlen xs + zlen (regions_of mem (Dict.remaining nodes it)) < 2 ^ 30 ->
  if decide (Forall valid (regions_of mem (Dict.remaining nodes it)))
  then exists a', push_nodes f nodes it mem rel a = ret a' /\ HiArray.repr a' (xs ++ regions_of mem (Dict.remaining nodes it))
  else refused (push_nodes f nodes it mem rel a).
Proof.
  induction f as [|f IH]; intros it rel a xs Hwf Hsz Hi Hm Hf Hr Ha Hn Hl; [lia|]. cbn [push_nodes].
  destruct (Dict.dictNext_spec nodes it Hwf Hsz Hi) as (r & it' & -> & Hrem). cbn [lift rbind ret]. destruct r as [[k p]|].
  2:{ rewrite Hrem. cbn [regions_of flat_map]. rewrite decide_True by constructor. exists a. by rewrite app_nil_r. }
  destruct Hrem as [Hrem Hi']. rewrite Hrem in Hm, Hf, Hl |- *. inversion_clear Hm as [|? ? (nd & Hnd & Hrole & Hss) Hm']. cbn [snd] in *.
  cbn [regions_of flat_map] in Hl |- *. cbn [snd] in Hl |- *. fold (regions_of mem (Dict.remaining nodes it')) in Hl |- *. rewrite Hnd in Hl |- *.
  cbn [lift rbind ret mbind option_bind] in Hl |- *. rewrite Hrole. cbn [Z.eqb check rbind ret]. change (REDIS_ROLE_MASTER =? REDIS_ROLE_MASTER) with true.
  cbn [check rbind ret]. rewrite zlen_app in Hl. simpl in Hf. zlen_pos.
  destruct (slots nd) as [sl|] eqn:El; cbn [from_option id] in *; [|apply IH; try done; change (zlen (@nil cluster_slot)) with 0 in Hl; lia].
  rewrite Hmem. cbn [check rbind ret].
  assert (Forall (fun s => 0 <= sstart s) sl) as Hu by (eapply Forall_impl; [exact Hss|]; cbn; tauto).
  pose proof (push_slots_spec n sl a xs Hu Hr Ha Hn ltac:(lia)) as Hp. destruct (decide (Forall valid sl)) as [Hv|Hv].
  - destruct Hp as (a' & -> & Hr' & Ha'). cbn [rbind ret].
    specialize (IH it' true a' (xs ++ sl) Hwf Hsz Hi' Hm' ltac:(lia) Hr' Ha' Hn ltac:(rewrite zlen_app; lia)).
    rewrite <- app_assoc in IH. destruct (decide (Forall valid (regions_of mem (Dict.remaining nodes it')))) as [Hv'|Hv'].
    + rewrite decide_True by (by apply Forall_app). done.
    + rewrite decide_False by (intros Hx; by apply Forall_app in Hx as [_ ?]). done.
  - destruct Hp as (e & ->). rewrite decide_False by (intros Hx; by apply Forall_app in Hx as [? _]). by exists e.
Qed.

End Build.

(** ** The route *)

(** What [qsort] with [cluster_slot_start_cmp] promises: a permutation, ordered when the
    comparison is consistent, which it is not for equal starts. *)
Definition start_le (s s' : cluster_slot) : Prop := sstart s <= sstart s'.

Definition qsort_ok (qsort : list (option cluster_slot) -> list (option cluster_slot)) : Prop :=
  forall m, exists m', qsort (map Some m) = map Some m' /\ m' ≡ₚ m /\ (NoDup (map sstart m) -> Sorted start_le m').

Lemma disjoint_starts l : Forall valid l -> disjoint l -> NoDup (map sstart l).
Proof.
  induction 1 as [|s l ((? & ?) & _) Hv IH]; [constructor|]. cbn [disjoint map]. intros [Hf Hd]. constructor; [|auto].
  rewrite list_elem_of_fmap. intros (s' & E & Hs'). rewrite Forall_forall in Hf, Hv. specialize (Hf _ Hs').
  destruct (Hv _ Hs') as ((? & ?) & _). unfold separate in Hf. lia.
Qed.

Section Route.
Context `{Memory}.

Lemma route_built qsort nodes mem : has_memory -> qsort_ok qsort -> masters nodes mem -> zlen (all_regions nodes mem) < 2 ^ 30 ->
  if decide (Forall valid (all_regions nodes mem)) then
    if decide (disjoint (all_regions nodes mem))
    then exists a t l, build_route qsort nodes mem = ret (a, t) /\ routes t (all_regions nodes mem) /\
      HiArray.repr a l /\ l ≡ₚ all_regions nodes mem /\ Sorted start_le l
    else build_route qsort nodes mem = None
  else refused (build_route qsort nodes mem).
Proof.
  intros Hmem Hq (Hwf & Hu & Hsz & Hm) Hl. unfold build_route.
  destruct (HiArray.hiarray_create malloc_ok (Dict.used nodes) 8) as [a0|] eqn:Ea.
  2:{ unfold HiArray.hiarray_create in Ea. by rewrite !Hmem in Ea. }
  pose proof (HiArray.repr_create malloc_ok (Dict.used nodes) 8 a0 ltac:(lia) Ea) as Hr0. unfold HiArray.hiarray_create in Ea. rewrite !Hmem in Ea. cbn [negb] in Ea.
  unfold Dict.dictGetIterator. rewrite Hmem. set (it := Dict.mk_iter (-1) [] []).
  assert (Dict.remaining nodes it = concat (Dict.table nodes)) as Hrem by done.
  assert (HiArray.nalloc a0 <= Z.max (Dict.used nodes) (2 * zlen (@nil cluster_slot))) as Ha0 by (injection Ea as <-; cbn; lia).
  pose proof (push_nodes_spec Hmem (Dict.used nodes) nodes mem (S (Z.to_nat (Dict.used nodes))) it false a0 [] Hwf Hsz ltac:(by right)) as Hp.
  rewrite Hrem in Hp. specialize (Hp Hm ltac:(rewrite (Dict.wf_used _ Hwf); unfold zlen; lia) Hr0 Ha0 ltac:(lia) Hl).
  fold (all_regions nodes mem) in Hp. set (rs := all_regions nodes mem) in *.
  assert (Forall (fun s => 0 <= sstart s /\ named s) rs) as Hnm by (by apply regions_named).
  destruct (decide (Forall valid rs)) as [Hv|Hv].
  2:{ destruct Hp as (e & ->). by exists e. }
  destruct Hp as (a1 & -> & Hr1). cbn [rbind ret app] in Hr1 |- *.
  destruct (HiArray.sort_repr (fun m m' => NoDup (map sstart m) -> Sorted start_le m') qsort a1 rs Hq Hr1) as (l & Hr2 & Hperm & Hsort).
  unfold slot_list. rewrite (HiArray.read_repr _ l Hr2). cbn [lift rbind ret].
  assert (Forall valid l) as Hvl by (by rewrite Hperm). assert (Forall named l) as Hnl by (rewrite Hperm; eapply Forall_impl; [exact Hnm|]; cbn; tauto).
  pose proof (fill_table_spec l [] _ routes_empty Hvl Hnl I) as Hf. cbn [app] in Hf. destruct (decide (disjoint l)) as [Hd|Hd].
  - assert (disjoint rs) as Hdr by (by eapply disjoint_perm). rewrite decide_True by done. destruct Hf as (t & -> & Hz & Ht).
    cbn [rbind ret]. exists (HiArray.hiarray_sort qsort a1), t, l. split_and!; try done; [|by apply Hsort, disjoint_starts].
    split; [done|]. intros k Hk. rewrite Ht by done. f_equal. by apply owner_perm.
  - rewrite Hf. rewrite decide_False; [done|]. intros Hx. apply Hd. by eapply disjoint_perm.
Qed.

(** *** The search *)

(** Every region ends before the next one starts. *)
Definition ordered (l : list cluster_slot) : Prop :=
  forall i j s s', (i < j)%nat -> l !! i = Some s -> l !! j = Some s' -> send s < sstart s'.

Lemma sorted_ordered l : Sorted start_le l -> Forall valid l -> disjoint l -> ordered l.
Proof.
  intros Hs Hv Hd. apply Sorted_StronglySorted in Hs; [|intros x y z; unfold start_le; lia].
  induction Hs as [|s l _ IH Hle]; [by intros i j s s' _ Hi|]. inversion_clear Hv as [|? ? ((? & ?) & _) Hv']. destruct Hd as [Hf Hd].
  intros [|i] [|j] s1 s2 Hij Hx1 Hx2; try lia; cbn in Hx1, Hx2.
  - injection Hx1 as ->. apply list_elem_of_lookup_2 in Hx2. rewrite Forall_forall in Hle, Hf, Hv'.
    specialize (Hle _ Hx2). specialize (Hf _ Hx2). destruct (Hv' _ Hx2) as ((? & ?) & _). unfold start_le, separate in *. lia.
  - apply (IH Hv' Hd i j); [lia | done | done].
Qed.

(** A comparison with a region tells on which side of it the owner of a slot is. *)
Lemma ordered_compare l (p m : nat) s s' k : ordered l -> Forall valid l -> l !! p = Some s -> l !! m = Some s' -> covers s k ->
  if decide (k < sstart s') then (p < m)%nat else if decide (send s' < k) then (m < p)%nat else s' = s.
Proof.
  intros Ho Hv Hp Hm [? ?]. assert (valid s /\ valid s') as [((? & ?) & _) ((? & ?) & _)].
  { rewrite Forall_forall in Hv. split; apply Hv; by eapply list_elem_of_lookup_2. }
  destruct (lt_eq_lt_dec p m) as [[Hlt|Heq]|Hgt].
  - pose proof (Ho p m s s' Hlt Hp Hm). rewrite decide_True by lia. done.
  - subst m. assert (s' = s) as -> by congruence. rewrite !decide_False by lia. done.
  - pose proof (Ho m p s' s Hgt Hm Hp). rewrite decide_False, decide_True by lia. done.
Qed.

Lemma search_spec a l s k (p : nat) : HiArray.repr a l -> ordered l -> Forall valid l -> l !! p = Some s -> covers s k -> zlen l < 2 ^ 31 ->
  forall f start end_, 0 <= start <= Z.of_nat p -> Z.of_nat p <= end_ < zlen l -> end_ - start + 1 <= 2 ^ Z.of_nat f ->
  search (S f) a k start end_ = Some (snode s).
Proof.
  intros Hr Ho Hv Hp Hc Hl f. induction f as [f IH] using lt_wf_ind. intros start end_ Hs He Hf. cbn [search].
  set (middle := if end_ <=? start then end_ else u32 (start + u32 (end_ - start) / 2)).
  assert (start <= middle <= end_ /\ (if end_ <=? start then middle = Z.of_nat p else middle = start + (end_ - start) / 2)) as [Hm1 Hm2].
  { unfold middle. destruct (Z.leb_spec end_ start); [lia|]. rewrite (uwrap_small 32 (end_ - start)) by lia.
    assert (0 <= (end_ - start) / 2 <= end_ - start) by (split; [apply Z.div_pos; lia | apply Z.div_le_upper_bound; lia]).
    rewrite uwrap_small by lia. lia. }
  destruct (rd_is_Some l middle ltac:(lia)) as [s' Hs']. rewrite (HiArray.repr_lookup a l middle s' Hr Hs'). cbn [mbind option_bind].
  assert (l !! Z.to_nat middle = Some s') as Hs2 by (unfold rd in Hs'; by rewrite decide_True in Hs' by lia).
  pose proof (ordered_compare l p (Z.to_nat middle) s s' k Ho Hv Hp Hs2 Hc) as Hcmp.
  clearbody middle. destruct (Z.leb_spec end_ start) as [Hst|Hst].
  - rewrite Hm2 in Hs2. rewrite Nat2Z.id in Hs2. assert (s' = s) as -> by congruence. unfold covers in Hc.
    by rewrite !(proj2 (Z.ltb_ge _ _)) by lia.
  - destruct f as [|f]; [lia|]. rewrite Nat2Z.inj_succ, Z.pow_succ_r in Hf by lia.
    pose proof (Z.div_mod (end_ - start) 2 ltac:(lia)). pose proof (Z.mod_pos_bound (end_ - start) 2 ltac:(lia)).
    destruct (Z.ltb_spec k (sstart s')) as [Hk|Hk].
    + rewrite decide_True in Hcmp by done. rewrite uwrap_small by lia. apply IH; lia.
    + rewrite decide_False in Hcmp by lia. destruct (Z.ltb_spec (send s') k) as [Hk'|Hk'].
      * rewrite decide_True in Hcmp by done. rewrite uwrap_small by lia. apply IH; lia.
      * rewrite decide_False in Hcmp by lia. by rewrite Hcmp.
Qed.


(** C35: the two lookups agree: where the table has a node, the binary search over the sorted
    regions ends and finds the same node. *)
Theorem lookups_agree (qsort : list (option cluster_slot) -> list (option cluster_slot)) (nodes : nodes_dict) (mem : nodes_mem)
    (a : slot_array) (t : slot_table) (k : Z) (p : nodeptr)
    (Hmem : has_memory) (Hqsort : qsort_ok qsort) (Hmasters : masters nodes mem) (Hfew : zlen (all_regions nodes mem) < 2 ^ 30)
    (Hbuilt : build_route qsort nodes mem = ret (a, t)) (Hk : 0 <= k < REDIS_CLUSTER_SLOTS)
    (Hnode : node_get_by_table t k = Some (Some p)) :
  node_get_by_slot (Some a) k = Some (Some p).
Proof.
  pose proof (route_built qsort nodes mem Hmem Hqsort Hmasters Hfew) as Hb. case_decide as Hv; [|by destruct Hb as (e & Hb); rewrite Hbuilt in Hb].
  case_decide as Hd; [|by rewrite Hbuilt in Hb]. destruct Hb as (a' & t' & l & E & (Hz & Ht) & Hr & Hp & Hs). rewrite Hbuilt in E. injection E as <- <-.
  unfold node_get_by_table, node_get_by_slot in *. rewrite (proj2 (Z.leb_gt _ _)) in * by lia.
  rewrite Ht in Hnode by done. injection Hnode as Hnode. rewrite (owner_perm _ l) in Hnode by done.
  assert (Forall valid l) as Hvl by (by rewrite Hp). assert (disjoint l) as Hdl by (by eapply disjoint_perm).
  destruct (covered_dec l k) as [(s & Hin & Hc)|Hn]; [|by rewrite owner_none in Hnode].
  rewrite (owner_in l s k) in Hnode by done. rewrite <- Hnode. apply list_elem_of_lookup_1 in Hin as [i Hi].
  assert (zlen l < 2 ^ 30) by (unfold zlen in *; by rewrite (Permutation_length Hp)). destruct Hr as (Hn & Hr).
  pose proof (lookup_lt_Some _ _ _ Hi). unfold HiArray.hiarray_n. rewrite Hn, uwrap_small by (unfold zlen in *; lia).
  apply (search_spec a l s k i); try done; try (unfold zlen in *; lia). by apply sorted_ordered.
Qed.

End Route.

(** ** Reading CLUSTER SLOTS *)

(** The address of a node: its host and its port. *)
Definition address (x : bytes * Z) : bytes := x.1 ++ bstr ":" ++ sdec x.2.

Definition good_addr (x : bytes * Z) : Prop := 0 < zlen x.1 <= 2 ^ 20 /\ 1 <= x.2 <= 65535.

(** A region as the server announces it: bounds, master, slaves. *)
Record region := mk_region { rstart : Z; rend : Z; rmaster : bytes * Z; rslaves : list (bytes * Z) }.

Definition good_region (r : region) : Prop :=
  0 <= rstart r <= rend r /\ rend r <= INT_MAX /\ good_addr (rmaster r) /\ Forall good_addr (rslaves r) /\ zlen (rslaves r) < 2 ^ 31.

(** Its reply; the third element of a node, its name, is not read. *)
Definition node_value (x : bytes * Z) : value := VArray 3 [VString Read.REDIS_REPLY_STRING x.1; VInt x.2; VNil].

Definition region_value (r : region) : value :=
  VArray (3 + zlen (rslaves r)) (VInt (rstart r) :: VInt (rend r) :: node_value (rmaster r) :: map node_value (rslaves r)).

Definition slots_reply (rs : list region) : value := VArray (zlen rs) (map region_value rs).

Section Parse.
Context `{Memory} (Hmem : has_memory).

Lemma port_length p : 1 <= p <= 65535 -> zlen (sdec p) <= 5.
Proof.
  intros Hp. unfold sdec. rewrite (proj2 (Z.ltb_ge _ _)) by lia. apply (dec_mono p 65535). lia.
Qed.

Lemma sds_of_spec s : zlen s <= 2 ^ 20 -> exists x, sds_of s = Some (Some x) /\ Sds.repr x s.
Proof.
  intros Hs. unfold sds_of. zlen_pos. rewrite i32_small, uwrap_small by (unfold INT_MIN, INT_MAX; lia).
  pose proof (Sds.sdsnewlen_spec (s ++ [0]) (zlen s) ltac:(unfold INT_MAX; lia) ltac:(zl)) as Hn.
  destruct (Sds.sdsnewlen (Some (s ++ [0])) (zlen s)) as [[x|]|]; [|by destruct Hn as [n Hn]; rewrite Hmem in Hn | done].
  exists x. split; [done|]. destruct Hn as [Hr _]. rewrite take_app_exact in Hr; [done|]. unfold zlen. lia.
Qed.

Lemma sds_text_repr x s : Sds.repr x s -> sds_text x = s.
Proof.
  intros Hr. unfold sds_text. rewrite (Sds.sdslen_repr x s Hr). destruct Hr as (t & -> & _). rewrite take_app_exact; [done|]. unfold zlen. lia.
Qed.

Lemma addr_text_spec x : good_addr x -> addr_text x.1 x.2 = Some (address x).
Proof.
  intros [[Hl1 Hl2] Hp]. unfold addr_text. destruct (sds_of_spec x.1 ltac:(lia)) as (s & -> & Hr). cbn [mjoin option_join mbind option_bind].
  pose proof (port_length x.2 Hp). rewrite i32_small by (unfold INT_MIN, INT_MAX; lia).
  destruct (Sds.sdscatfmt_render s x.1 (bstr ":%i") [Sds.ArgInt x.2] (bstr ":" ++ sdec x.2) Hmem Hr) as (s' & -> & Hr').
  - change (bstr ":%i") with [58; 37; 105]. change (bstr ":") with [58]. cbn [Sds.render Z.eqb Pos.eqb Sds.fmt_text mbind option_bind fmap option_fmap option_map app].
    by rewrite app_nil_r.
  - repeat constructor; cbn; unfold INT_MIN, INT_MAX; lia.
  - rewrite zlen_app. change (zlen (bstr ":")) with 1. split; zlen_pos; [lia|]. unfold INT_MAX, Sds.SDS_MAX_PREALLOC. lia.
  - cbn [mbind option_bind]. by rewrite (sds_text_repr _ _ Hr').
Qed.

Lemma address_length x : good_addr x -> zlen (address x) <= 2 ^ 20 + 6.
Proof. intros [? Hp]. unfold address. pose proof (port_length x.2 Hp). rewrite !zlen_app. change (zlen (bstr ":")) with 1. lia. Qed.

(** A copy of a text. *)
Lemma key_copy_text a : zlen a <= INT_MAX -> key_copy a = Some a.
Proof.
  intros Ha. unfold key_copy. zlen_pos.
  pose proof (Sds.sdsnewlen_spec (a ++ [0]) (zlen a) ltac:(lia) ltac:(zl)) as Hn.
  destruct (Sds.sdsnewlen _ _) as [[s|]|]; [|by destruct Hn as [n Hn]; rewrite Hmem in Hn | done]. cbn [mjoin option_join mbind option_bind].
  destruct Hn as [Hr _]. rewrite take_app_exact in Hr by (unfold zlen; lia). by rewrite (sds_text_repr _ _ Hr).
Qed.

Lemma key_copy_spec x : good_addr x -> key_copy (address x) = Some (address x).
Proof. intros Hg. pose proof (address_length x Hg). apply key_copy_text. unfold INT_MAX. lia. Qed.

(** The node of an address. *)
Definition new_node (x : bytes * Z) (role : Z) : cluster_node :=
  node_init None (address x) (Some x.1) x.2 role (if role =? REDIS_ROLE_MASTER then Some [] else None).

Lemma node_get_spec x role mem : good_addr x ->
  node_get_with_slots (VString Read.REDIS_REPLY_STRING x.1) (VInt x.2) role mem = ret (mem ++ [new_node x role], length mem).
Proof.
  intros Hg. pose proof Hg as [[Hl1 Hl2] Hp]. unfold node_get_with_slots. cbn [is_type vtype mbind option_bind lift rbind ret vstr vint].
  rewrite !Z.eqb_refl. rewrite (i32_small (zlen x.1)), (i32_small x.2) by (unfold INT_MIN, INT_MAX; lia).
  rewrite !(proj2 (Z.leb_gt _ _)) by lia. cbn [negb andb check rbind ret].
  unfold hi_valid_port. rewrite !(proj2 (Z.ltb_ge _ _)) by lia. cbn [orb Z.eqb negb check rbind ret]. rewrite !Hmem. cbn [check rbind ret].
  assert ((if role =? REDIS_ROLE_MASTER then ret (Some (@nil cluster_slot)) else ret None) = ret (if role =? REDIS_ROLE_MASTER then Some [] else None)) as ->
    by (by destruct (role =? REDIS_ROLE_MASTER)).
  cbn [rbind ret]. rewrite addr_text_spec by done. cbn [lift rbind ret].
  destruct (sds_of_spec x.1 ltac:(lia)) as (s & -> & Hr). cbn [lift rbind ret fmap option_fmap option_map]. by rewrite (sds_text_repr _ _ Hr).
Qed.


(** *** The state of the parser *)

Definition region_slot (p : nodeptr) (r : region) : cluster_slot := mk_slot (rstart r) (rend r) (Some p).

Abbreviation at_addr a := (fun r => address (rmaster r) = a).

(** The node for an address, with the regions read so far. *)
Definition master_of (ds : list region) (a : bytes) (p : nodeptr) (n : cluster_node) : Prop :=
  addr n = a /\ (exists x, good_addr x /\ host n = Some x.1 /\ port n = x.2 /\ address x = a) /\ role n = REDIS_ROLE_MASTER /\
  slots n = Some (map (region_slot p) (filter (at_addr a) ds)).

Record known (N : Z) (ds : list region) (st : parse) : Prop := {
  k_wf : Dict.wf (pnodes st);
  k_used : Dict.used (pnodes st) <= N;
  k_size : Dict.size (pnodes st) <= Z.max 8 (4 * N);
  k_nodes : forall a p, Dict.contents (pnodes st) !! a = Some p -> exists n, pmem st !! p = Some n /\ master_of ds a p n;
  k_all : forall r, r ∈ ds -> is_Some (Dict.contents (pnodes st) !! address (rmaster r));
}.

(** No address is there that was not announced. *)
Definition announced (ds : list region) : list bytes := map (fun r => address (rmaster r)) ds.
Definition only (ds : list region) (nodes : nodes_dict) : Prop := forall a, is_Some (Dict.contents nodes !! a) -> a ∈ announced ds.

Lemma only_more ds ds' nodes : only ds nodes -> only (ds ++ ds') nodes.
Proof. intros Ho a Ha. unfold announced. rewrite map_app. apply elem_of_app. left. by apply Ho. Qed.

Lemma only_insert ds r nodes nodes' p : only ds nodes -> Dict.contents nodes' = <[address (rmaster r) := p]> (Dict.contents nodes) -> only (ds ++ [r]) nodes'.
Proof.
  intros Ho Hc a [q Hq]. rewrite Hc in Hq. apply lookup_insert_Some in Hq as [[<- _]|[_ Hq]]; [|by apply (only_more ds [r] nodes Ho); exists q].
  unfold announced. rewrite map_app. apply elem_of_app. right. by left.
Qed.

Lemma known_more N N' ds st : known N ds st -> N <= N' -> known N' ds st.
Proof. intros [? ? ? ? ?] ?. split; try done; lia. Qed.

(** What the parsers keep of a node once it is there. *)
Definition same_node (n n' : cluster_node) : Prop :=
  addr n' = addr n /\ host n' = host n /\ port n' = port n /\ role n' = role n /\ slots n' = slots n.

Definition keeps (mem mem' : nodes_mem) : Prop :=
  forall p n, mem !! p = Some n -> exists n', mem' !! p = Some n' /\ same_node n n'.

#[export] Instance keeps_refl : Reflexive keeps.
Proof. intros mem p n Hn. by exists n. Qed.

#[export] Instance keeps_trans : Transitive keeps.
Proof.
  intros m1 m2 m3 H12 H23 p n Hn. destruct (H12 _ _ Hn) as (n2 & H2 & S2). destruct (H23 _ _ H2) as (n3 & H3 & S3).
  exists n3. split; [done|]. unfold same_node in *. intuition congruence.
Qed.

Lemma keeps_app mem l : keeps mem (mem ++ l).
Proof. intros p n Hn. exists n. split; [by apply lookup_app_l_Some | done]. Qed.

Lemma keeps_set mem p n n' : mem !! p = Some n -> same_node n n' -> keeps mem (<[p := n']> mem).
Proof.
  intros Hp Hs q m Hq. destruct (decide (q = p)) as [->|Hne].
  - exists n'. rewrite list_lookup_insert_eq by (by eapply lookup_lt_Some). split; [done|]. congruence.
  - exists m. by rewrite list_lookup_insert_ne.
Qed.

Lemma known_keeps N ds st mem m : known N ds st -> keeps (pmem st) mem -> known N ds (mk_parse (pnodes st) mem m).
Proof.
  intros [Hwf Hu Hs Hn Ha] Hk. split; try done. cbn [pnodes pmem]. intros a p Hp. destruct (Hn _ _ Hp) as (n & Hm & H1 & H2 & H3 & H4).
  destruct (Hk _ _ Hm) as (n' & Hm' & E1 & E2 & E3 & E4 & E5). exists n'. split; [done|]. unfold master_of. by rewrite E1, E2, E3, E4, E5.
Qed.

(** A region is added to the node of its master. *)
Lemma slot_known N ds st r p n l m : known N ds st -> Dict.contents (pnodes st) !! address (rmaster r) = Some p ->
  pmem st !! p = Some n -> slots n = Some l ->
  known N (ds ++ [r]) (mk_parse (pnodes st) (<[p := with_slots n (l ++ [region_slot p r])]> (pmem st)) m).
Proof.
  intros [Hwf Hu Hs Hn Ha] Hp Hm Hsl. split; cbn [pnodes pmem]; try done.
  - intros a p' Hp'. destruct (Hn _ _ Hp') as (n' & Hm' & Hmo'). destruct (decide (p' = p)) as [->|Hne].
    + assert (n' = n) as -> by congruence. pose proof Hmo' as (Hadd' & Hho & Hro & Hsl').
      assert (a = address (rmaster r)) as ->.
      { destruct (Hn _ _ Hp) as (n2 & Hm2 & Hadd & _). congruence. }
      eexists. rewrite list_lookup_insert_eq by (by eapply lookup_lt_Some). split; [done|]. split_and!; try done. cbn [slots with_slots].
      rewrite filter_app, filter_cons_True, filter_nil, map_app by done. cbn [map]. congruence.
    + exists n'. rewrite list_lookup_insert_ne by done. split; [done|]. destruct Hmo' as (Hadd' & ? & ? & Hsl').
      split_and!; try done. rewrite filter_app, filter_cons_False, filter_nil, app_nil_r; [done|]. congruence.
  - intros r' Hr'. apply elem_of_app in Hr' as [Hr'|Hr']; [by apply Ha|]. apply list_elem_of_singleton in Hr' as ->. rewrite Hp. eauto.
Qed.

Lemma ref_known N ds st r p slot : known N ds st -> Dict.contents (pnodes st) !! address (rmaster r) = Some p ->
  sstart slot = rstart r -> send slot = rend r ->
  exists st', ref_or_fail slot p st = ret st' /\ known N (ds ++ [r]) st' /\ pnodes st' = pnodes st /\ pmaster st' = Some p.
Proof.
  intros Hk Hp Hs1 Hs2. destruct (k_nodes _ _ _ Hk _ _ Hp) as (n & Hm & Hadd & Hho & Hro & Hsl).
  unfold ref_or_fail, cluster_slot_ref_node. rewrite Hm. cbn [mbind option_bind]. rewrite Hro, Z.eqb_refl, Hsl, Hmem. cbn [negb lift rbind ret check].
  eexists. split; [done|]. split; [|done]. rewrite Hs1, Hs2. by apply slot_known.
Qed.

(** A node is added for a new address. *)
Lemma add_known N ds st x nm : known N ds st -> N < 2 ^ 28 -> good_addr x -> Dict.contents (pnodes st) !! address x = None ->
  exists nodes, Dict.dictAdd malloc_ok (pnodes st) (address x) (length (pmem st)) = Some (nodes, Dict.DICT_OK) /\
    Dict.contents nodes = <[address x := length (pmem st)]> (Dict.contents (pnodes st)) /\
    forall m, known (N + 1) ds (mk_parse nodes (pmem st ++ [node_init nm (address x) (Some x.1) x.2 REDIS_ROLE_MASTER (Some [])]) m).
Proof.
  intros [Hwf Hu Hs Hn Ha] HN Hg Hnone.
  destruct (Dict.dictAdd_refines malloc_ok (pnodes st) (address x) (length (pmem st)) Hwf ltac:(lia) Hmem) as (h & r & E & Hw & Hr).
  pose proof (Dict.dictAdd_size malloc_ok _ _ _ _ _ Hwf ltac:(lia) Hmem E) as Hsz. rewrite Hnone in Hr. destruct Hr as (-> & Hc & Hu').
  assert (Dict.contents h = <[address x := length (pmem st)]> (Dict.contents (pnodes st))) as Hc' by exact Hc.
  exists h. split; [done|]. split; [done|]. intros m. split; cbn [pnodes pmem]; try done; try lia.
  - intros a p Hp. rewrite Hc' in Hp. apply lookup_insert_Some in Hp as [[<- <-]|[Hne Hp]].
    + eexists. rewrite list_lookup_middle by done. split; [done|]. split_and!; [done | by exists x | done |]. cbn [node_init slots].
      destruct (filter (at_addr (address x)) ds) as [|r0 l0] eqn:Ef; [done|]. exfalso.
      assert (r0 ∈ filter (at_addr (address x)) ds) as Hin by (rewrite Ef; left). apply list_elem_of_filter in Hin as [Hx Hin].
      destruct (Ha _ Hin) as [q Hq]. rewrite Hx in Hq. congruence.
    + destruct (Hn _ _ Hp) as (n & Hm & Hmo). exists n. split; [|done]. by apply lookup_app_l_Some.
  - intros r Hr. rewrite Hc'. destruct (decide (address (rmaster r) = address x)) as [->|Hne]; [rewrite lookup_insert_eq; eauto|].
    rewrite lookup_insert_ne by congruence. by apply Ha.
Qed.

(** The master to which slaves are added. *)
Definition has_master (st : parse) : Prop := exists m n, pmaster st = Some m /\ pmem st !! m = Some n.

Lemma parse_master_spec N ds st r slot : known N ds st -> N < 2 ^ 28 -> good_addr (rmaster r) -> sstart slot = rstart r -> send slot = rend r ->
  exists st' b, parse_master (VString Read.REDIS_REPLY_STRING (rmaster r).1) (VInt (rmaster r).2) slot st = ret (st', b) /\
    known (N + 1) (ds ++ [r]) st' /\ has_master st' /\ (only ds (pnodes st) -> only (ds ++ [r]) (pnodes st')).
Proof.
  intros Hk HN Hg Hs1 Hs2. unfold parse_master. cbn [vstr vint]. rewrite addr_text_spec by done. cbn [lift rbind ret].
  rewrite (Dict.dictFind_refines (pnodes st) (address (rmaster r)) (k_wf _ _ _ Hk)). cbn [lift rbind ret].
  assert (forall st' p, known (N + 1) (ds ++ [r]) st' -> Dict.contents (pnodes st') !! address (rmaster r) = Some p -> pmaster st' = Some p -> has_master st') as Hhm.
  { intros st' p Hk' Hc Hp. destruct (k_nodes _ _ _ Hk' _ _ Hc) as (n & Hn & _). by exists p, n. }
  destruct (Dict.contents (pnodes st) !! address (rmaster r)) as [p|] eqn:Ec; cbn [fmap option_fmap option_map].
  - destruct (ref_known N ds st r p slot Hk Ec Hs1 Hs2) as (st' & -> & Hk' & Hno & Hpm). cbn [rbind ret]. eexists _, _. split; [done|].
    apply (known_more _ (N + 1)) in Hk'; [|lia]. split; [done|]. split; [apply (Hhm _ p); [done | by rewrite Hno | done]|]. rewrite Hno. apply only_more.
  - rewrite node_get_spec by done. cbn [rbind ret]. rewrite list_lookup_middle by done. cbn [lift rbind ret].
    change (addr (new_node (rmaster r) REDIS_ROLE_MASTER)) with (address (rmaster r)). rewrite key_copy_spec by done. cbn [lift rbind ret].
    destruct (add_known N ds st (rmaster r) None Hk HN Hg Ec) as (nodes & -> & Hc & Hk1). cbn [lift rbind ret].
    assert (Dict.contents nodes !! address (rmaster r) = Some (length (pmem st))) as Hc1 by (by rewrite Hc, lookup_insert_eq). rewrite Z.eqb_refl. cbn [check rbind ret].
    destruct (ref_known (N + 1) ds _ r (length (pmem st)) slot (Hk1 (Some (length (pmem st)))) Hc1 Hs1 Hs2) as (st' & E & Hk' & Hno & Hpm).
    change (new_node (rmaster r) REDIS_ROLE_MASTER) with (node_init None (address (rmaster r)) (Some (rmaster r).1) (rmaster r).2 REDIS_ROLE_MASTER (Some [])).
    rewrite E. cbn [rbind ret]. eexists _, _. split; [done|]. split; [done|]. split; [apply (Hhm _ (length (pmem st))); [done | by rewrite Hno | done]|].
    rewrite Hno. intros Ho. by eapply only_insert.
Qed.

Lemma parse_slave_spec N ds st x : known N ds st -> has_master st -> good_addr x ->
  exists st', parse_slave (VString Read.REDIS_REPLY_STRING x.1) (VInt x.2) st = ret st' /\ known N ds st' /\ has_master st' /\ pnodes st' = pnodes st.
Proof.
  intros [Hwf Hu Hs Hn Ha] (m & n & Hm & Hmn) Hg. unfold parse_slave. rewrite node_get_spec by done. cbn [rbind ret]. rewrite Hm. cbn [lift rbind ret].
  assert (forall y, (pmem st ++ [y]) !! m = Some n) as Hmn' by (intros y; by apply lookup_app_l_Some). rewrite Hmn'. cbn [lift rbind ret].
  assert (exists l, (match slaves n with Some l => ret l | None => let* _ := check (malloc_ok list_size) Read.REDIS_ERR_OOM (bstr "Out of memory") in ret [] end) = ret l) as (l & ->)
    by (destruct (slaves n); [eauto|]; rewrite Hmem; cbn; eauto). cbn [rbind ret]. rewrite Hmem.
  eexists. split; [done|]. cbn [pmaster pmem pnodes]. split.
  - apply known_keeps; [by split|]. etrans; [apply (keeps_app _ [new_node x REDIS_ROLE_SLAVE])|]. by eapply keeps_set.
  - split; [|done]. eexists m, _. cbn [pmaster pmem]. split; [done|]. apply list_lookup_insert_eq. by eapply lookup_lt_Some, Hmn'.
Qed.

Lemma parse_node_value flags idx x slot st :
  parse_node flags idx (node_value x) slot st =
    if idx =? 2 then parse_master (VString Read.REDIS_REPLY_STRING x.1) (VInt x.2) slot st
    else if negb (Z.land flags HIRCLUSTER_FLAG_ADD_SLAVE =? 0)
         then let* st := parse_slave (VString Read.REDIS_REPLY_STRING x.1) (VInt x.2) st in ret (st, false)
         else ret (st, false).
Proof. reflexivity. Qed.

(** The elements of a region, one by one. *)
Lemma parse_begin flags z vs n slot st : 0 < n -> 0 <= z <= INT_MAX ->
  parse_region flags (VInt z :: vs) 0 n slot st = parse_region flags vs 1 n (mk_slot z (send slot) (snode slot)) st.
Proof.
  intros Hn Hz. cbn [parse_region]. rewrite (proj2 (Z.leb_gt _ _)) by lia. change (0 =? 0) with true. cbn iota.
  cbn [is_type vtype mbind option_bind lift rbind ret vint]. rewrite Z.eqb_refl. cbn [check rbind ret].
  unfold INT_MAX in Hz. by rewrite i32_small, uwrap_small by (unfold INT_MIN, INT_MAX; lia).
Qed.

Lemma parse_end flags z vs n slot st : 1 < n -> 0 <= z <= INT_MAX -> sstart slot <= z ->
  parse_region flags (VInt z :: vs) 1 n slot st = parse_region flags vs 2 n (mk_slot (sstart slot) z (snode slot)) st.
Proof.
  intros Hn Hz Hs. cbn [parse_region]. rewrite (proj2 (Z.leb_gt _ _)) by lia. change (1 =? 0) with false. change (1 =? 1) with true. cbn iota.
  cbn [is_type vtype mbind option_bind lift rbind ret vint]. rewrite Z.eqb_refl. cbn [check rbind ret send sstart].
  unfold INT_MAX in Hz. rewrite i32_small, uwrap_small by (unfold INT_MIN, INT_MAX; lia). by rewrite (proj2 (Z.ltb_ge _ _)) by lia.
Qed.

Lemma parse_third flags idx n x vs slot st : 2 <= idx < n ->
  parse_region flags (node_value x :: vs) idx n slot st =
    let* (st, stop) := parse_node flags idx (node_value x) slot st in
    if (stop : bool) then ret st else parse_region flags vs (idx + 1) n slot st.
Proof. intros Hi. cbn [parse_region]. by rewrite (proj2 (Z.leb_gt _ _)), !(proj2 (Z.eqb_neq _ _)) by lia. Qed.

Lemma parse_slaves_spec flags N ds slot sl : forall idx st, 3 <= idx -> known N ds st -> has_master st -> Forall good_addr sl ->
  exists st', parse_region flags (map node_value sl) idx (idx + zlen sl) slot st = ret st' /\ known N ds st' /\ pnodes st' = pnodes st.
Proof.
  induction sl as [|x sl IH]; intros idx st Hi Hk Hm Hg; cbn [map].
  - cbn [parse_region]. change (zlen (@nil (bytes * Z))) with 0. rewrite Z.add_0_r, Z.ltb_irrefl. by exists st.
  - inversion_clear Hg as [|? ? Hx Hg']. rewrite zlen_cons. zlen_pos. rewrite parse_third by lia.
    rewrite parse_node_value. rewrite (proj2 (Z.eqb_neq _ _)) by lia.
    replace (idx + (1 + zlen sl)) with (idx + 1 + zlen sl) by lia.
    destruct (negb (Z.land flags HIRCLUSTER_FLAG_ADD_SLAVE =? 0)); [|cbn [rbind ret]; apply IH; try done; lia].
    destruct (parse_slave_spec N ds st x Hk Hm Hx) as (st' & -> & Hk' & Hm' & <-). cbn [rbind ret]. apply IH; try done. lia.
Qed.

(** One region. *)
Lemma parse_region_spec flags N ds st r slot : known N ds st -> N < 2 ^ 28 -> good_region r ->
  exists st', parse_region flags (VInt (rstart r) :: VInt (rend r) :: node_value (rmaster r) :: map node_value (rslaves r)) 0
      (3 + zlen (rslaves r)) slot st = ret st' /\ known (N + 1) (ds ++ [r]) st' /\ (only ds (pnodes st) -> only (ds ++ [r]) (pnodes st')).
Proof.
  intros Hk HN ([Hx1 Hx2] & Hx3 & Hg & Hs & Hz). zlen_pos.
  rewrite parse_begin, parse_end, parse_third, parse_node_value by (cbn [sstart]; lia). cbn [Z.eqb Pos.eqb sstart snode].
  destruct (parse_master_spec N ds st r (mk_slot (rstart r) (rend r) (snode slot)) Hk HN Hg eq_refl eq_refl) as (st' & b & -> & Hk' & Hm' & Ho).
  cbn [rbind ret]. destruct b; [by exists st'|]. destruct (parse_slaves_spec flags (N + 1) (ds ++ [r]) (mk_slot (rstart r) (rend r) (snode slot)) (rslaves r) 3 st') as (st2 & E & Hk2 & En); try done.
  exists st2. by rewrite En.
Qed.

Lemma parse_regions_spec flags rs : forall i ds st, known (zlen ds) ds st -> i = zlen ds -> zlen ds + zlen rs < 2 ^ 28 -> Forall good_region rs ->
  exists st', parse_regions flags (map region_value rs) i (i + zlen rs) st = ret st' /\ known (zlen (ds ++ rs)) (ds ++ rs) st' /\
    (only ds (pnodes st) -> only (ds ++ rs) (pnodes st')).
Proof.
  induction rs as [|r rs IH]; intros i ds st Hk Hi Hz Hg; cbn [map parse_regions].
  - change (zlen (@nil region)) with 0. rewrite Z.add_0_r, Z.ltb_irrefl, app_nil_r. by exists st.
  - inversion_clear Hg as [|? ? Hr Hg']. rewrite zlen_cons in *. zlen_pos. rewrite (proj2 (Z.leb_gt _ _)) by lia.
    pose proof Hr as (_ & _ & _ & _ & Hsl). pose proof (zlen_nonneg (rslaves r)). cbn [is_type vtype region_value mbind option_bind lift rbind ret elements].
    rewrite Z.eqb_refl, uwrap_small, (proj2 (Z.ltb_ge _ _)) by lia. cbn [andb negb check rbind ret].
    unfold cluster_slot_create. rewrite Hmem.
    destruct (parse_region_spec flags (zlen ds) ds st r (mk_slot 0 0 None) Hk ltac:(lia) Hr) as (st' & -> & Hk' & Ho). cbn [rbind ret].
    rewrite uwrap_small by lia. replace (i + (1 + zlen rs)) with (i + 1 + zlen rs) by lia.
    assert (zlen (ds ++ [r]) = zlen ds + 1) as Hz1 by zl.
    destruct (IH (i + 1) (ds ++ [r]) st') as (st2 & -> & Hk2 & Ho2); try done; try lia; [by rewrite Hz1|].
    exists st2. rewrite <- app_assoc in Hk2, Ho2. split_and!; try done. intros Hd. by apply Ho2, Ho.
Qed.


End Parse.

(** ** From the reply to the route *)

Lemma flat_map_filter {E R S} (es : list E) (f : E -> R -> S) (P : E -> R -> Prop) `{forall e r, Decision (P e r)} rs (g : R -> E) :
  NoDup es -> (forall r, r ∈ rs -> g r ∈ es /\ forall e, e ∈ es -> P e r <-> e = g r) ->
  flat_map (fun e => map (f e) (filter (P e) rs)) es ≡ₚ map (fun r => f (g r) r) rs.
Proof.
  intros Hnd. induction rs as [|r rs IH]; intros Hg.
  - cbn [map]. clear. induction es as [|e es IH]; [done|]. cbn [flat_map]. by rewrite filter_nil.
  - cbn [map]. rewrite <- IH by (intros r' Hr'; apply Hg; by right). destruct (Hg r ltac:(left)) as [Hin Hiff].
    apply list_elem_of_split in Hin as (es1 & es2 & Hes). rewrite Hes in Hnd, Hiff |- *.
    apply NoDup_app in Hnd as (_ & Hn1 & Hnd2). apply NoDup_cons in Hnd2 as [Hn2 _].
    assert (forall l, (forall e, e ∈ l -> e ∈ es1 ++ g r :: es2 /\ e <> g r) ->
      flat_map (fun e => map (f e) (filter (P e) (r :: rs))) l = flat_map (fun e => map (f e) (filter (P e) rs)) l) as Hsame.
    { induction l as [|e l IHl]; intros Hl; [done|]. cbn [flat_map]. rewrite IHl by (intros e' He'; apply Hl; by right).
      destruct (Hl e ltac:(left)) as [He Hne]. rewrite filter_cons_False; [done|]. rewrite Hiff by done. done. }
    rewrite !flat_map_app. cbn [flat_map]. rewrite !Hsame.
    + rewrite filter_cons_True by (apply Hiff; [set_solver | done]). cbn [map app]. apply symmetry, Permutation_middle.
    + intros e He. split; [set_solver|]. by intros ->.
    + intros e He. split; [set_solver|]. intros ->. by apply (Hn1 (g r)); [|left].
Qed.

(** The host and the port can be read off an address. *)
Lemma address_inj x y : good_addr x -> good_addr y -> address x = address y -> x = y.
Proof.
  intros [_ Hx] [_ Hy] E. unfold address in E. change (bstr ":") with [58] in E. cbn [app] in E.
  assert (forall n, 1 <= n <= 65535 -> (58 ∉ sdec n) /\ undec (sdec n) = n) as Hd.
  { intros n Hn. unfold sdec. rewrite (proj2 (Z.ltb_ge _ _)) by lia. split; [|apply undec_dec; lia].
    intros Hin. pose proof (dec_digits n ltac:(lia)) as HF. rewrite Forall_forall in HF. by specialize (HF _ Hin). }
  assert (x.1 = y.1 /\ sdec x.2 = sdec y.2) as [E1 E2].
  { apply app_eq_app in E as (k & [[E E']|[E E']]); (destruct k as [|c k]; [rewrite app_nil_r in E; by injection E' as ->|]); injection E' as <- E'.
    - exfalso. apply (proj1 (Hd _ Hy)). rewrite E'. apply elem_of_app. right. left.
    - exfalso. apply (proj1 (Hd _ Hx)). rewrite E'. apply elem_of_app. right. left. }
  destruct x as [h p], y as [h' p']. cbn [fst snd] in *. subst h'. f_equal.
  by rewrite <- (proj2 (Hd p Hx)), E2, (proj2 (Hd p' Hy)).
Qed.

Lemma disjoint_bounds {R} (f g : R -> cluster_slot) rs : (forall r, sstart (f r) = sstart (g r) /\ send (f r) = send (g r)) ->
  disjoint (map f rs) -> disjoint (map g rs).
Proof.
  intros Hfg. induction rs as [|r rs IH]; [done|]. cbn [map disjoint]. intros [Hf Hd]. split; [|auto].
  rewrite List.Forall_map in Hf |- *. eapply Forall_impl; [exact Hf|]. cbn beta. intros r' Hs. unfold separate in *.
  destruct (Hfg r), (Hfg r'). lia.
Qed.

(** The regions of a server's reply are within the table, and have no slot twice. *)
Definition in_table (rs : list region) : Prop := Forall (fun r => rend r < REDIS_CLUSTER_SLOTS) rs.
Definition no_overlap (rs : list region) : Prop := disjoint (map (region_slot 0%nat) rs).

#[export] Instance in_table_dec rs : Decision (in_table rs).
Proof. unfold in_table. apply _. Defined.
#[export] Instance no_overlap_dec rs : Decision (no_overlap rs).
Proof. unfold no_overlap. apply _. Defined.

(** The state after the whole reply: the masters and their regions. *)
Lemma known_entry N ds st k p : known N ds st -> (k, p) ∈ concat (Dict.table (pnodes st)) <-> Dict.contents (pnodes st) !! k = Some p.
Proof. intros Hk. unfold Dict.contents. apply elem_of_list_to_map, (Dict.wf_keys _ (k_wf _ _ _ Hk)). Qed.

Lemma known_regions N ds st : known N ds st -> exists g, 
  (forall r, r ∈ ds -> Dict.contents (pnodes st) !! address (rmaster r) = Some (g r)) /\
  all_regions (pnodes st) (pmem st) ≡ₚ map (fun r => region_slot (g r) r) ds.
Proof.
  intros Hk. set (g r := default 0%nat (Dict.contents (pnodes st) !! address (rmaster r))). exists g.
  assert (forall r, r ∈ ds -> Dict.contents (pnodes st) !! address (rmaster r) = Some (g r)) as Hg.
  { intros r Hr. unfold g. by destruct (k_all _ _ _ Hk r Hr) as [p ->]. }
  split; [done|]. unfold all_regions, regions_of. set (es := concat (Dict.table (pnodes st))).
  assert (flat_map (fun e => default [] (pmem st !! e.2 ≫= slots)) es =
    flat_map (fun e : bytes * nodeptr => map (region_slot e.2) (filter (fun r => address (rmaster r) = e.1) ds)) es) as ->.
  { assert (forall e, e ∈ es -> Dict.contents (pnodes st) !! e.1 = Some e.2) as He by (intros [k p] He; by apply (known_entry N ds)).
    clearbody es. induction es as [|e es IH]; [done|]. cbn [flat_map]. rewrite IH by (intros e' He'; apply He; by right).
    destruct (k_nodes _ _ _ Hk _ _ (He e ltac:(left))) as (n & -> & _ & _ & _ & Hs). cbn [mbind option_bind]. by rewrite Hs. }
  apply (flat_map_filter es (fun e => region_slot e.2) (fun e r => address (rmaster r) = e.1) ds (fun r => (address (rmaster r), g r))).
  - apply (NoDup_fmap_1 fst). apply (Dict.wf_keys _ (k_wf _ _ _ Hk)).
  - intros r Hr. split; [by apply (known_entry N ds), Hg|]. intros [k p] He. apply (known_entry N ds) in He; [|done]. cbn [fst]. split.
    + intros <-. rewrite (Hg r Hr) in He. congruence.
    + congruence.
Qed.

Lemma known_masters N ds st : known N ds st -> ds <> [] -> N < 2 ^ 28 -> Forall good_region ds -> masters (pnodes st) (pmem st).
Proof.
  intros Hk Hne Hz Hg. pose proof Hk as [Hwf Hu Hs Hn Ha]. destruct ds as [|r0 ds0] eqn:Ed; [done|]. rewrite <- Ed in *. split_and!; try done.
  - rewrite (Dict.used_size _ Hwf). destruct (Ha r0 ltac:(rewrite Ed; left)) as [p Hp]. enough (base.size (Dict.contents (pnodes st)) <> 0%nat) by lia.
    intros H0. apply map_size_empty_iff in H0. by rewrite H0, lookup_empty in Hp.
  - lia.
  - zlen_pos. lia.
  - apply Forall_forall. intros [k p] He. apply (known_entry N ds) in He; [|done]. destruct (Hn _ _ He) as (n & Hm & _ & _ & Hro & Hsl).
    exists n. split_and!; [done | done |]. rewrite Hsl. cbn [default from_option id]. apply List.Forall_map, Forall_forall. intros r Hr.
    apply list_elem_of_filter in Hr as [_ Hr]. rewrite Forall_forall in Hg. destruct (Hg _ Hr) as ([? ?] & _). split; [cbn; lia | done].
Qed.

Section Whole.
Context `{Memory}.

(** The nodes of a reply, without an error. *)
Lemma parse_known rs flags : has_memory -> rs <> [] -> zlen rs < 2 ^ 28 -> Forall good_region rs ->
  exists st, parse_cluster_slots (slots_reply rs) flags = ret (pnodes st, pmem st) /\ known (zlen rs) rs st /\ only rs (pnodes st).
Proof.
  intros Hmem Hne Hz Hg. unfold parse_cluster_slots, Dict.dictCreate. rewrite Hmem. unfold slots_reply. cbn [is_type vtype mbind option_bind lift rbind ret elements].
  assert (0 < zlen rs) by (destruct rs; [done|]; rewrite zlen_cons; zlen_pos; lia).
  rewrite Z.eqb_refl, uwrap_small, (proj2 (Z.leb_gt _ _)) by lia. cbn [andb negb check rbind ret].
  assert (known (zlen (@nil region)) [] (mk_parse Dict.dictInit [] None)) as Hk0.
  { split; cbn [pnodes pmem]; [apply Dict.wf_init | done | cbn; lia | |].
    - intros a p Hp. done.
    - intros r Hr. by apply elem_of_nil in Hr. }
  destruct (parse_regions_spec Hmem flags rs 0 [] _ Hk0 eq_refl) as (st & E & Hk & Ho); [change (zlen (@nil region)) with 0; lia | done |].
  rewrite Z.add_0_l in E. rewrite E. cbn [rbind ret]. exists st. split_and!; try done. apply Ho. by intros a [p Hp].
Qed.

Lemma regions_in_table (g : region -> nodeptr) rs : Forall good_region rs ->
  in_table rs <-> Forall valid (map (fun r => region_slot (g r) r) rs).
Proof.
  intros Hg. unfold in_table. rewrite List.Forall_map. split; intros Hv.
  - rewrite Forall_forall in Hv, Hg |- *. intros r Hr. destruct (Hg _ Hr) as ([? ?] & _). specialize (Hv _ Hr). split; cbn; lia.
  - eapply Forall_impl; [exact Hv|]. intros r [_ ?]. done.
Qed.

Lemma regions_no_overlap (g : region -> nodeptr) rs : no_overlap rs <-> disjoint (map (fun r => region_slot (g r) r) rs).
Proof. unfold no_overlap. split; intros Hd; by eapply disjoint_bounds, Hd. Qed.

(** A node with this address and nothing else. *)
Definition node_at (mem : nodes_mem) (p : nodeptr) (x : bytes * Z) : Prop :=
  exists n, mem !! p = Some n /\ addr n = address x /\ host n = Some x.1 /\ port n = x.2 /\ role n = REDIS_ROLE_MASTER.

(** A slot of a region has the node of its master, every other slot has none. *)
Definition routed (rs : list region) (t : slot_table) (mem : nodes_mem) : Prop :=
  forall k, 0 <= k < REDIS_CLUSTER_SLOTS ->
    (forall r, r ∈ rs -> rstart r <= k <= rend r -> exists p, node_get_by_table t k = Some (Some p) /\ node_at mem p (rmaster r)) /\
    ((forall r, r ∈ rs -> ~ rstart r <= k <= rend r) -> node_get_by_table t k = Some None).

(** The node of a slot is the one that the dictionary has for the address. *)
Definition routed_in (nodes : nodes_dict) (rs : list region) (t : slot_table) : Prop :=
  forall k r, 0 <= k < REDIS_CLUSTER_SLOTS -> r ∈ rs -> rstart r <= k <= rend r ->
    exists p, node_get_by_table t k = Some (Some p) /\ Dict.contents nodes !! address (rmaster r) = Some p.

Lemma known_routes_in qsort N rs st : has_memory -> qsort_ok qsort -> known N rs st -> rs <> [] -> N < 2 ^ 28 -> zlen rs < 2 ^ 30 -> Forall good_region rs ->
  if decide (in_table rs) then
    if decide (no_overlap rs)
    then exists a t, build_route qsort (pnodes st) (pmem st) = ret (a, t) /\ routed rs t (pmem st) /\ routed_in (pnodes st) rs t
    else build_route qsort (pnodes st) (pmem st) = None
  else refused (build_route qsort (pnodes st) (pmem st)).
Proof.
  intros Hmem Hqsort Hk Hne HN Hfew Hgood.
  destruct (known_regions _ _ _ Hk) as (g & Hg & Hp). set (l := map (fun r => region_slot (g r) r) rs) in *.
  assert (zlen (all_regions (pnodes st) (pmem st)) = zlen rs) as Hz by (unfold zlen; by rewrite (Permutation_length Hp); unfold l; rewrite length_map).
  pose proof (route_built qsort _ _ Hmem Hqsort (known_masters N rs st Hk Hne HN Hgood) ltac:(lia)) as Hb.
  assert (in_table rs <-> Forall valid (all_regions (pnodes st) (pmem st))) as Hin by (rewrite (regions_in_table g rs Hgood); fold l; by rewrite Hp).
  assert (no_overlap rs <-> disjoint (all_regions (pnodes st) (pmem st))) as Hno by (rewrite (regions_no_overlap g rs); fold l; by rewrite Hp).
  destruct (decide (in_table rs)) as [Hr|Hr]; [rewrite decide_True in Hb by tauto | by rewrite decide_False in Hb by tauto].
  destruct (decide (no_overlap rs)) as [Hr'|Hr']; [rewrite decide_True in Hb by tauto | by rewrite decide_False in Hb by tauto].
  destruct Hb as (a & t & l' & Eb & (Hzt & Ht) & _). exists a, t. apply Hno in Hr' as Hd. assert (disjoint l) as Hdl by (by rewrite <- Hp).
  assert (forall k, 0 <= k < REDIS_CLUSTER_SLOTS -> node_get_by_table t k = Some (owner l k)) as Hown.
  { intros k Hkk. unfold node_get_by_table. rewrite (proj2 (Z.leb_gt _ _)) by lia. by rewrite Ht, (owner_perm _ l k). }
  assert (forall k r, r ∈ rs -> rstart r <= k <= rend r -> owner l k = Some (g r)) as Hin_l.
  { intros k r Hr0 Hc. apply (owner_in l (region_slot (g r) r) k); [done | apply list_elem_of_fmap; by exists r | done]. }
  split; [done|]. split; [|intros k r Hkk Hr0 Hc; exists (g r); rewrite Hown, (Hin_l k r) by done; split; [done | by apply Hg]].
  intros k Hkk. rewrite Hown by done. split.
  - clear Hr. intros r Hr Hc. exists (g r). rewrite (Hin_l k r) by done. split; [done|].
    destruct (k_nodes _ _ _ Hk _ _ (Hg r Hr)) as (n & Hm & Ha & (x & Hx & Hho & Hpo & Hax) & Hro & _). exists n. rewrite Forall_forall in Hgood.
    destruct (Hgood _ Hr) as (_ & _ & Hgr & _). apply address_inj in Hax as ->; done.
  - intros Hout. rewrite owner_none; [done|]. apply List.Forall_map, Forall_forall. intros r Hx. by apply Hout.
Qed.

Lemma known_routes qsort N rs st : has_memory -> qsort_ok qsort -> known N rs st -> rs <> [] -> N < 2 ^ 28 -> zlen rs < 2 ^ 30 -> Forall good_region rs ->
  if decide (in_table rs) then
    if decide (no_overlap rs)
    then exists a t, build_route qsort (pnodes st) (pmem st) = ret (a, t) /\ routed rs t (pmem st)
    else build_route qsort (pnodes st) (pmem st) = None
  else refused (build_route qsort (pnodes st) (pmem st)).
Proof.
  intros Hmem Hqsort Hk Hne HN Hfew Hgood. pose proof (known_routes_in qsort N rs st Hmem Hqsort Hk Hne HN Hfew Hgood) as Hr.
  destruct (decide (in_table rs)); [|done]. destruct (decide (no_overlap rs)); [|done]. destruct Hr as (a & t & E & Hr & _). by exists a, t.
Qed.

(** C19: a cluster's description becomes its routing table: from the reply to CLUSTER SLOTS,
    [parse_cluster_slots] and [build_route] make a table in which every slot of a region has
    the node with the host and the port of the region's master and every other slot has
    none; regions outside of the table are refused, and regions that overlap make the error
    path release an iterator twice. *)
Theorem slots_reply_routes (qsort : list (option cluster_slot) -> list (option cluster_slot)) (rs : list region) (flags : Z)
    (Hmem : has_memory) (Hqsort : qsort_ok qsort) (Hne : rs <> []) (Hfew : zlen rs < 2 ^ 28) (Hgood : Forall good_region rs) :
  exists nodes mem, parse_cluster_slots (slots_reply rs) flags = ret (nodes, mem) /\
    if decide (in_table rs) then
      if decide (no_overlap rs)
      then exists a t, build_route qsort nodes mem = ret (a, t) /\ routed rs t mem
      else build_route qsort nodes mem = None
    else refused (build_route qsort nodes mem).
Proof.
  destruct (parse_known rs flags Hmem Hne Hfew Hgood) as (st & E & Hk & _). exists (pnodes st), (pmem st). split; [done|].
  eapply known_routes; try done. lia.
Qed.

End Whole.

(** ** Concrete clusters *)

#[local] Existing Instance demo_memory.

#[export] Instance start_le_dec : RelDecision start_le.
Proof. intros s s'. unfold start_le. apply _. Defined.

(** A [qsort]: the cells are sorted by start. *)
Definition demo_qsort (l : list (option cluster_slot)) : list (option cluster_slot) := map Some (merge_sort start_le (omap id l)).

Lemma demo_qsort_ok : qsort_ok demo_qsort.
Proof.
  intros m. exists (merge_sort start_le m). unfold demo_qsort.
  assert (omap id (map Some m) = m) as -> by (induction m as [|x m IH]; [done|]; cbn; by rewrite IH). split_and!; [done | apply merge_sort_Permutation |].
  intros _. apply Sorted_merge_sort. intros x y. unfold start_le. lia.
Qed.

(** Three regions of two masters, out of order. *)
Definition demo_regions : list region :=
  [mk_region 0 5460 (bstr "10.0.0.1", 7000) [(bstr "10.0.0.2", 7001)]; mk_region 10923 16383 (bstr "10.0.0.3", 7000) [];
   mk_region 5461 10922 (bstr "10.0.0.1", 7000) []].

#[local] Instance good_addr_dec x : Decision (good_addr x).
Proof. unfold good_addr. apply _. Defined.
#[local] Instance good_region_dec r : Decision (good_region r).
Proof. unfold good_region. apply _. Defined.

(** A closed statement that a decision procedure confirms. *)
Ltac decided := refine (bool_decide_unpack _ _); vm_compute; exact I.

Lemma demo_good : Forall good_region demo_regions.
Proof. decided. Qed.

Lemma slots_reply_routes_witness :
  in_table demo_regions /\ no_overlap demo_regions /\
  exists nodes mem, parse_cluster_slots (slots_reply demo_regions) HIRCLUSTER_FLAG_ADD_SLAVE = ret (nodes, mem) /\
    if decide (in_table demo_regions) then
      if decide (no_overlap demo_regions)
      then exists a t, build_route demo_qsort nodes mem = ret (a, t) /\ routed demo_regions t mem
      else build_route demo_qsort nodes mem = None
    else refused (build_route demo_qsort nodes mem).
Proof.
  split; [decided|]. split; [decided|]. apply (slots_reply_routes demo_qsort demo_regions HIRCLUSTER_FLAG_ADD_SLAVE demo_has_memory demo_qsort_ok); [done | vm_compute; reflexivity | exact demo_good].
Defined.

(** One master with two regions. *)
Definition demo_node : cluster_node :=
  node_init None (bstr "h:7") (Some (bstr "h")) 7 REDIS_ROLE_MASTER (Some [mk_slot 20 30 (Some 0%nat); mk_slot 5 10 (Some 0%nat)]).

Definition demo_nodes : nodes_dict := Dict.mk_dict [[]; []; [(bstr "h:7", 0%nat)]; []] 4 3 1.

Lemma demo_masters : masters demo_nodes [demo_node].
Proof.
  split; [split | split; [decided | split; [decided|]]].
  - right. split; [|done]. split; [by exists 2 | done |]. intros [|[|[|[|i]]]] c Hc; cbn in Hc; simplify_eq; repeat constructor.
  - done.
  - done.
  - cbn. apply NoDup_singleton.
  - constructor; [|constructor]. exists demo_node. split_and!; try done. decided.
Qed.


Definition demo_route : slot_array * slot_table :=
  match build_route demo_qsort demo_nodes [demo_node] with Some (inl x) => x | _ => (HiArray.hiarray_null, []) end.

Lemma lookups_agree_witness : node_get_by_slot (Some demo_route.1) 7 = Some (Some 0%nat).
Proof.
  apply (lookups_agree demo_qsort demo_nodes [demo_node] demo_route.1 demo_route.2 7 0%nat demo_has_memory demo_qsort_ok demo_masters);
    vm_compute; try reflexivity. by split.
Defined.

Lemma search_outside f a k start end_ : start < end_ -> HiArray.hiarray_get a (u32 (start + u32 (end_ - start) / 2)) = None ->
  search (S f) a k start end_ = None.
Proof. intros Hlt Hg. cbn [search]. rewrite (proj2 (Z.leb_gt _ _)) by lia. by rewrite Hg. Qed.

(** The binary search underflows: for a slot below the first of several regions, which
    no node holds, [end = middle - 1] wraps around at 0 and the search reads behind the
    array. *)
Theorem node_get_by_slot_underflow :
  node_get_by_table demo_route.2 2 = Some None /\ node_get_by_slot (Some demo_route.1) 2 = None.
Proof.
  split; [vm_compute; reflexivity|].
  assert (demo_route.1 = HiArray.mk_hiarray 2 [Some (mk_slot 5 10 (Some 0%nat)); Some (mk_slot 20 30 (Some 0%nat))] 8 2) as -> by (vm_compute; reflexivity).
  change (search 33 (HiArray.mk_hiarray 2 [Some (mk_slot 5 10 (Some 0%nat)); Some (mk_slot 20 30 (Some 0%nat))] 8 2) 2 0 4294967295 = None).
  apply search_outside; [lia|]. unfold HiArray.hiarray_get. rewrite rd_None; [done|]. vm_compute. discriminate.
Qed.

End Route.
