(* ===== verification/Nodes.v ===== *)
(** The reply to CLUSTER NODES, hircluster.c ([parse_cluster_nodes]): a text with one line
    per node becomes the dictionary of the masters with their regions, their slaves and the
    slots that are being moved. *)
From S2P Require Import Prelude Crc16 HiUtil HiArray AdList Dict Sds Read Reply Frag Route.
Import HiUtil Reply.

Open Scope Z_scope.

Module Nodes.

Import Frag Route.

Definition HIRCLUSTER_FLAG_ADD_OPENSLOT : Z := 8192.
Definition IP_PORT_SEPARATOR : bytes := bstr ":".

Definition flag (flags f : Z) : bool := negb (Z.land flags f =? 0).

(** [clusterNodesRefDictType]: as [clusterNodesDictType], but the nodes are not released. *)
Definition clusterNodesRefDictType : Dict.dictType bytes nodeptr := {|
  Dict.hashFunction := Dict.dictGenHashFunction;
  Dict.keyDup := None;
  Dict.valDup := None;
  Dict.keyCompare := Some (fun a b => if zlen a =? zlen b then bool_decide (a = b) else false);
  Dict.has_keyDestructor := true;
  Dict.has_valDestructor := false;
|}.

Definition with_myself (n : cluster_node) : cluster_node :=
  mk_node (name n) (addr n) (host n) (port n) (role n) 1 (con n) (slots n) (slaves n) (migrating n) (importing n).
Definition with_migrating (n : cluster_node) (a : HiArray.hiarray copen_slot) : cluster_node :=
  mk_node (name n) (addr n) (host n) (port n) (role n) (myself n) (con n) (slots n) (slaves n) (Some a) (importing n).
Definition with_importing (n : cluster_node) (a : HiArray.hiarray copen_slot) : cluster_node :=
  mk_node (name n) (addr n) (host n) (port n) (role n) (myself n) (con n) (slots n) (slaves n) (migrating n) (Some a).

Section Ops.
Context `{Memory}.

(** [sdssplitlen], with the texts of the tokens. *)
Definition split (s : bytes) (len : Z) (sep : bytes) : option (option (list bytes)) :=
  match Sds.sdssplitlen s len sep (zlen sep) with Some r => Some (map sds_text <$> r) | None => None end.

(** The same on the text of a string, behind which there is its NUL. *)
Definition split_sds (s sep : bytes) : option (option (list bytes)) := split (s ++ [0]) (zlen s) sep.

(** [node_get_with_nodes]: the new node is the last one of the memory. When the list of
    regions cannot be allocated the node is freed twice. *)
Definition node_get_with_nodes (infos : list bytes) (role : Z) (mem : nodes_mem) : res (nodes_mem * nodeptr) :=
  if zlen infos <? 8 then Some (inr None)
  else
    let* _ := check (malloc_ok cluster_node_size) Read.REDIS_ERR_OOM (bstr "Out of memory") in
    let* l := (if role =? REDIS_ROLE_MASTER then if malloc_ok list_size then ret (Some []) else None else ret None) in
    let* nm := lift (rd infos 0) in
    let* a := lift (rd infos 1) in
    let* ip_port := lift (split_sds a IP_PORT_SEPARATOR) in
    match ip_port with
    | Some [h; p] => ret (mem ++ [node_init (Some nm) a (Some h) (_hi_atoi p) role l], length mem)
    | _ => fail Read.REDIS_ERR_OTHER (bstr "split ip port error")
    end.

(** ** Masters and slaves by name *)

(** The value of the entry of a key, stored in place. *)
Definition set_entry (d : nodes_dict) (key : bytes) (p : nodeptr) : option nodes_dict :=
  let i := Dict.bucket (T := clusterNodesRefDictType) (Dict.sizemask d) key in
  c ← rd (Dict.table d) i;
  t ← wr (Dict.table d) i (Dict.set_chain (T := clusterNodesRefDictType) key (Dict.dictSetHashVal (T := clusterNodesRefDictType) p) c);
  Some (Dict.mk_dict t (Dict.size d) (Dict.sizemask d) (Dict.used d)).

(** [listAddNodeHead] and [listAddNodeTail] without memory do nothing, untested. *)
Definition add_head (x : nodeptr) (l : list nodeptr) : list nodeptr := if malloc_ok node_size then x :: l else l.
Definition add_last (x : nodeptr) (l : list nodeptr) : list nodeptr := if malloc_ok node_size then l ++ [x] else l.

(** The list of the slaves of a node, created when there is none. *)
Definition slaves_list (n : cluster_node) : res (list nodeptr) :=
  match slaves n with
  | Some l => ret l
  | None => let* _ := check (malloc_ok list_size) Read.REDIS_ERR_OOM (bstr "Out of memory") in ret []
  end.

(** [cluster_master_slave_mapping_with_name]; the dictionary is created untested. *)
Definition cluster_master_slave_mapping_with_name (names : option nodes_dict) (p : nodeptr) (master_name : bytes) (mem : nodes_mem) :
    res (nodes_dict * nodes_mem) :=
  let* names := lift (match names with Some d => Some d | None => Dict.dictCreate malloc_ok end) in
  let* di := lift (Dict.dictFind (T := clusterNodesRefDictType) names master_name) in
  match di with
  | None =>
      let* k := lift (key_copy master_name) in
      let* (names, r) := lift (Dict.dictAdd (T := clusterNodesRefDictType) malloc_ok names k p) in
      let* _ := check (r =? Dict.DICT_OK) Read.REDIS_ERR_OTHER (bstr "the address already exists in the nodes") in
      ret (names, mem)
  | Some (_, q) =>
      let* node := lift (mem !! p) in
      let* node_old := lift (mem !! q) in
      if (role node =? REDIS_ROLE_MASTER) && (role node_old =? REDIS_ROLE_MASTER)
      then fail Read.REDIS_ERR_OTHER (bstr "two masters have the same name")
      else if (role node =? REDIS_ROLE_MASTER) && (role node_old =? REDIS_ROLE_SLAVE) then
        let* l := slaves_list node in
        let l := foldl (fun l x => add_head x l) l (default [] (slaves node_old)) in
        let mem := <[q := with_slaves node_old None]> mem in
        let mem := <[p := with_slaves node (Some (add_head q l))]> mem in
        let* names := lift (set_entry names master_name p) in
        ret (names, mem)
      else if role node =? REDIS_ROLE_SLAVE then
        let* l := slaves_list node_old in
        ret (names, <[q := with_slaves node_old (Some (add_last p l))]> mem)
      else None
  end.

(** ** Regions *)

(** [cluster_open_slot_create] and the push on one of the two arrays. *)
Definition open_slot (a : option (HiArray.hiarray copen_slot)) (num migrate : Z) (remote : bytes) (p : nodeptr) :
    res (HiArray.hiarray copen_slot) :=
  let* _ := check (malloc_ok 24) Read.REDIS_ERR_OTHER (bstr "create open slot error") in
  let* name := lift (Sds.sdsnewlen (Some (remote ++ [0])) (zlen remote)) in
  let* a := (match a with
             | Some a => ret a
             | None => match HiArray.hiarray_create malloc_ok 1 8 with
                       | Some a => ret a
                       | None => fail Read.REDIS_ERR_OTHER (bstr "create migrating array error")
                       end
             end) in
  match HiArray.hiarray_push malloc_ok a with
  | None => fail Read.REDIS_ERR_OTHER (if migrate =? 1 then bstr "Push migrating array error: out of memory"
                                       else bstr "push migrating array error: out of memory")
  | Some (a, i) => lift (HiArray.hiarray_put a i (mk_open_slot (u32 num) migrate (sds_text <$> name) p))
  end.

(** The branch for a part that is no region: "[93-<-id]" or "[93->-id]". *)
Definition parse_open (flags : Z) (toks : list bytes) (p : nodeptr) (mem : nodes_mem) : res nodes_mem :=
  match toks with
  | [a; b; c] =>
      if flag flags HIRCLUSTER_FLAG_ADD_OPENSLOT && (1 <? zlen a) && (zlen b =? 1) && (1 <? zlen c) &&
         bool_decide (take 1 a = bstr "[") && bool_decide (drop (length c - 1) c = bstr "]")
      then
        let num := _hi_atoi (drop 1 a) in
        let remote := take (length c - 1) c in
        let* n := lift (mem !! p) in
        if bool_decide (b = bstr ">") then
          let* x := open_slot (migrating n) num 1 remote p in ret (<[p := with_migrating n x]> mem)
        else if bool_decide (b = bstr "<") then
          let* x := open_slot (importing n) num 0 remote p in ret (<[p := with_importing n x]> mem)
        else ret mem
      else ret mem
  | _ => ret mem
  end.

(** [cluster_slot_create] with a node, and the bounds set behind it. *)
Definition add_region (p : nodeptr) (start end_ : Z) (mem : nodes_mem) : res nodes_mem :=
  let oom := fail Read.REDIS_ERR_OOM (bstr "Out of memory") in
  if negb (malloc_ok slot_size) then oom
  else
    let* n := lift (mem !! p) in
    if negb (role n =? REDIS_ROLE_MASTER) then None
    else
      match (match slots n with Some l => Some l | None => if malloc_ok list_size then Some [] else None end) with
      | None => oom
      | Some l => ret (<[p := with_slots n (if malloc_ok node_size then l ++ [mk_slot (u32 start) (u32 end_) (Some p)] else l)]> mem)
      end.

(** One part behind the eighth. *)
Definition parse_part (flags : Z) (part : bytes) (p : nodeptr) (mem : nodes_mem) : res nodes_mem :=
  let* toks := lift (split_sds part (bstr "-")) in
  match toks with
  | None => fail Read.REDIS_ERR_OTHER (bstr "split slot start end error(NULL)")
  | Some toks =>
      let* (start, end_, mem) :=
        (match toks with
         | [a] => ret (_hi_atoi a, _hi_atoi a, mem)
         | [a; b] => ret (_hi_atoi a, _hi_atoi b, mem)
         | _ => let* mem := parse_open flags toks p mem in ret (-1, -1, mem)
         end) in
      if (start <? 0) || (end_ <? 0) || (end_ <? start) || (REDIS_CLUSTER_SLOTS <=? end_) then ret mem
      else add_region p start end_ mem
  end.

Fixpoint parse_parts (flags : Z) (parts : list bytes) (p : nodeptr) (mem : nodes_mem) : res nodes_mem :=
  match parts with
  | [] => ret mem
  | part :: parts' => let* mem := parse_part flags part p mem in parse_parts flags parts' p mem
  end.

(** ** Lines *)

(** The locals that live through the loop. *)
Record nparse := mk_nparse { nnodes : nodes_dict; nnames : option nodes_dict; nmem : nodes_mem }.

Definition mark (me : bool) (p : nodeptr) (mem : nodes_mem) : option nodes_mem :=
  if me then n ← mem !! p; Some (<[p := with_myself n]> mem) else Some mem.

(** A master. When its name was already given to another master, the new node is released
    although the dictionary holds it, and released again with the dictionary. *)
Definition line_master (flags : Z) (part : list bytes) (me : bool) (st : nparse) : res nparse :=
  let* (mem, p) := node_get_with_nodes part REDIS_ROLE_MASTER (nmem st) in
  let* n := lift (mem !! p) in
  let* k := lift (key_copy (addr n)) in
  let* (nodes, r) := lift (Dict.dictAdd malloc_ok (nnodes st) k p) in
  let* _ := check (r =? Dict.DICT_OK) Read.REDIS_ERR_OTHER (bstr "The address already exists in the nodes") in
  let* (names, mem) :=
    (if flag flags HIRCLUSTER_FLAG_ADD_SLAVE then
       let* nm := lift (name n) in
       match cluster_master_slave_mapping_with_name (nnames st) p nm mem with
       | Some (inl (names, mem)) => ret (Some names, mem)
       | _ => None
       end
     else ret (nnames st, mem)) in
  let* mem := lift (mark me p mem) in
  let* mem := parse_parts flags (drop 8 part) p mem in
  ret (mk_nparse nodes names mem).

(** A slave. *)
Definition line_slave (part : list bytes) (me : bool) (st : nparse) : res nparse :=
  let* (mem, p) := node_get_with_nodes part REDIS_ROLE_SLAVE (nmem st) in
  let* nm := lift (rd part 3) in
  let* (names, mem) := cluster_master_slave_mapping_with_name (nnames st) p nm mem in
  let* mem := lift (mark me p mem) in
  ret (mk_nparse (nnodes st) (Some names) mem).

(** [memcmp(s, prefix, n) == 0] where the length was tested. *)
Definition starts (prefix s : bytes) : bool := bool_decide (take (length prefix) s = prefix).

Definition parse_line (flags : Z) (line : bytes) (len : Z) (st : nparse) : res nparse :=
  let* part := lift (split line len (bstr " ")) in
  let split_error := fail Read.REDIS_ERR_OTHER (bstr "split cluster nodes error") in
  match part with
  | None => split_error
  | Some part =>
      if zlen part <? 8 then split_error
      else
        let* a := lift (rd part 1) in
        if bool_decide (a = bstr ":0") then ret st
        else
          let* fl := lift (rd part 2) in
          let me := starts (bstr "myself,") fl in
          let role := if me then drop 7 fl else fl in
          if starts (bstr "master") role then line_master flags part me st
          else if flag flags HIRCLUSTER_FLAG_ADD_SLAVE && starts (bstr "slave") role then line_slave part me st
          else ret st
  end.

(** The loop over the text: after a line the next position is not looked at. *)
Fixpoint parse_text (fuel : nat) (flags : Z) (str : bytes) (end_ pos line_start : Z) (st : nparse) : res nparse :=
  match fuel with
  | O => None
  | S f =>
      if end_ <=? pos then ret st
      else
        let* c := lift (rd str pos) in
        if c =? 10 then
          let* st := parse_line flags (drop (Z.to_nat line_start) str) (pos - line_start) st in
          parse_text f flags str end_ (pos + 2) (pos + 1) st
        else parse_text f flags str end_ (pos + 1) line_start st
  end.

(** [parse_cluster_nodes]: the dictionary of the masters and the memory of the nodes. What
    the error path releases is not tracked. *)
Definition parse_cluster_nodes (str : bytes) (str_len flags : Z) : res (nodes_dict * nodes_mem) :=
  match Dict.dictCreate malloc_ok with
  | None => fail Read.REDIS_ERR_OOM (bstr "out of memory")
  | Some nodes =>
      let* st := parse_text (S (Z.to_nat str_len)) flags str str_len 0 0 (mk_nparse nodes None []) in
      ret (nnodes st, nmem st)
  end.

End Ops.

(** ** Splitting *)

Lemma join_cons (c : Z) t ts : ts <> [] -> Sds.join_bytes [c] (t :: ts) = t ++ c :: Sds.join_bytes [c] ts.
Proof. by destruct ts. Qed.

(** Tokens without the separator can be read off the text. *)
Lemma join_inj (c : Z) ts : forall ts', ts <> [] -> ts' <> [] -> Forall (fun t => c ∉ t) ts -> Forall (fun t => c ∉ t) ts' ->
  Sds.join_bytes [c] ts = Sds.join_bytes [c] ts' -> ts = ts'.
Proof.
  assert (forall a b x y : bytes, (c ∉ a) -> (c ∉ b) -> a ++ c :: x = b ++ c :: y -> a = b /\ x = y) as Hcut.
  { induction a as [|u a IH]; intros [|v b] x y Ha Hb E; cbn [app] in E; [by injection E|..]; injection E as E1 E2; subst; [set_solver..|].
    destruct (IH b x y) as [-> ->]; set_solver. }
  assert (forall (a b x : bytes), (c ∉ a) -> a <> b ++ c :: x) as Hno by (intros a b x Ha ->; apply Ha; set_solver).
  induction ts as [|t ts IH]; intros ts' Hne Hne' Hf Hf' E; [done|]. destruct ts' as [|t' ts']; [done|]. clear Hne Hne'.
  apply Forall_cons in Hf as [Ht Hf], Hf' as [Ht' Hf'].
  destruct ts as [|u ts], ts' as [|u' ts']; [by cbn in E; subst|..].
  - rewrite (join_cons c t') in E by done. by apply Hno in E.
  - symmetry in E. rewrite (join_cons c t) in E by done. by apply Hno in E.
  - rewrite !join_cons in E by done. apply Hcut in E as [-> E]; [|done..]. f_equal. by apply IH.
Qed.

Section Split.
Context `{Memory} (Hmem : has_memory).

Lemma split_tokens (c : Z) ts rest : ts <> [] -> Forall (fun t => c ∉ t) ts -> Sds.join_bytes [c] ts <> [] ->
  zlen (Sds.join_bytes [c] ts) <= INT_MAX ->
  split (Sds.join_bytes [c] ts ++ rest) (zlen (Sds.join_bytes [c] ts)) [c] = Some (Some ts).
Proof.
  intros Hne Hf Hj Hm. unfold split, Sds.sdssplitlen. set (src := Sds.join_bytes [c] ts) in *.
  assert (0 < zlen src) by (destruct src; [done|]; rewrite zlen_cons; zlen_pos; lia).
  change (zlen [c]) with 1. rewrite (proj2 (Z.ltb_ge 1 1)), (proj2 (Z.ltb_ge (zlen src) 0)) by lia. rewrite Hmem.
  rewrite (proj2 (Z.eqb_neq (zlen src) 0)) by lia. cbn [orb negb].
  destruct (Sds.split_loop_spec [c] rest Hmem ltac:(done) (S (Z.to_nat (zlen src))) [] [] src 5 [] []) as (toks & ts' & E & Hr & Hfr & Ej);
    try done; [unfold zlen; lia | intros a b _; zl |]. cbn [app] in E, Ej. change (zlen (@nil Z)) with 0 in E. change (zlen [c]) with 1 in E. change (0 + 0) with 0 in E.
  rewrite E. cbn [fmap option_fmap option_map]. do 2 f_equal.
  transitivity ts'.
  - clear -Hr. induction Hr as [|x t xs l Hx _ IH]; [done|]. cbn [map]. by rewrite (sds_text_repr _ _ Hx), IH.
  - apply (join_inj c); try done.
    + intros ->. by destruct src.
    + eapply Forall_impl; [exact Hfr|]. intros t Hs Hin. apply list_elem_of_split in Hin as (a & b & ->). by apply (Hs a b).
Qed.

Lemma split_sds_tokens (c : Z) ts : ts <> [] -> Forall (fun t => c ∉ t) ts -> Sds.join_bytes [c] ts <> [] ->
  zlen (Sds.join_bytes [c] ts) <= INT_MAX -> split_sds (Sds.join_bytes [c] ts) [c] = Some (Some ts).
Proof. apply split_tokens. Qed.

End Split.

(** ** What a server prints *)

(** A node as a server describes it: its name and address, the name of its master when it is
    a slave, further flags, four fields that are not read, the regions it holds and the
    slots it is moving, with their direction (out or in) and the other node. *)
Record node_desc := mk_desc {
  dname : bytes;
  daddr : bytes * Z;
  dmyself : bool;
  dmaster : option bytes;
  dmore : bytes;
  dmid : list bytes;
  dslots : list (Z * Z);
  dopen : list (Z * bool * bytes);
}.

Definition flags_text (d : node_desc) : bytes :=
  (if dmyself d then bstr "myself," else []) ++ (match dmaster d with None => bstr "master" | Some _ => bstr "slave" end) ++ dmore d.

Definition range_text (r : Z * Z) : bytes := if r.1 =? r.2 then dec r.1 else dec r.1 ++ bstr "-" ++ dec r.2.

Definition open_tokens (o : Z * bool * bytes) : list bytes :=
  [bstr "[" ++ dec o.1.1; if o.1.2 then bstr ">" else bstr "<"; o.2 ++ bstr "]"].

Definition open_text (o : Z * bool * bytes) : bytes := Sds.join_bytes (bstr "-") (open_tokens o).

Definition fields (d : node_desc) : list bytes :=
  [dname d; address (daddr d); flags_text d; default (bstr "-") (dmaster d)] ++ dmid d ++
  map range_text (dslots d) ++ map open_text (dopen d).

Definition line_text (d : node_desc) : bytes := Sds.join_bytes (bstr " ") (fields d).

Definition nodes_text (ds : list node_desc) : bytes := flat_map (fun d => line_text d ++ [10]) ds.

Definition clean (t : bytes) : Prop := (32 ∉ t) /\ (10 ∉ t).

Definition good_open (o : Z * bool * bytes) : Prop := 0 <= o.1.1 <= INT_MAX /\ clean o.2 /\ (45 ∉ o.2) /\ 0 < zlen o.2.

Record good_desc (d : node_desc) : Prop := {
  g_name : clean (dname d);
  g_addr : good_addr (daddr d);
  g_host : clean (daddr d).1 /\ (58 ∉ (daddr d).1);
  g_master : clean (default [] (dmaster d));
  g_more : clean (dmore d);
  g_mid : length (dmid d) = 4%nat /\ Forall clean (dmid d);
  g_slots : Forall (fun r => 0 <= r.1 <= r.2 /\ r.2 < REDIS_CLUSTER_SLOTS) (dslots d);
  g_open : Forall good_open (dopen d);
  g_line : zlen (line_text d) <= INT_MAX;
}.

Lemma dec_clean n : 0 <= n -> clean (dec n) /\ (45 ∉ dec n) /\ (58 ∉ dec n).
Proof.
  intros Hn. pose proof (dec_digits n Hn) as Hd. rewrite Forall_forall in Hd.
  split_and!; [split|..]; intros Hin; by specialize (Hd _ Hin).
Qed.

Lemma clean_app a b : clean a -> clean b -> clean (a ++ b).
Proof. intros [? ?] [? ?]. split; set_solver. Qed.

Lemma clean_bstr s : bool_decide (Forall (fun c => c <> 32 /\ c <> 10) (bstr s)) = true -> clean (bstr s).
Proof. intros Hb%bool_decide_eq_true_1. rewrite Forall_forall in Hb. split; intros Hin; by destruct (Hb _ Hin). Qed.

Lemma field_part d t : t ∈ fields d -> zlen t <= zlen (line_text d).
Proof.
  unfold line_text. generalize (fields d). induction l as [|u l IH]; [set_solver|]. intros Hin.
  destruct l as [|w l]; [apply list_elem_of_singleton in Hin as ->; done|]. change (bstr " ") with [32] in *. rewrite join_cons by done.
  rewrite zlen_app, zlen_cons. apply elem_of_cons in Hin as [->|Hin]; [zlen_pos; lia|]. specialize (IH Hin). zlen_pos. lia.
Qed.

Lemma address_sdec x : good_addr x -> address x = x.1 ++ bstr ":" ++ dec x.2.
Proof. intros [_ ?]. unfold address, sdec. by rewrite (proj2 (Z.ltb_ge _ _)) by lia. Qed.

Lemma fields_clean d : good_desc d -> Forall clean (fields d).
Proof.
  intros [H1 H2 [H3 _] H4 H5 [_ H6] H7 H8 _]. unfold fields. repeat apply Forall_app_2; [..|].
  - repeat apply Forall_cons_2; [done | | | | constructor].
    + rewrite address_sdec by done. apply clean_app; [done|]. apply clean_app; [by apply clean_bstr|]. destruct H2. apply dec_clean. lia.
    + unfold flags_text. apply clean_app; [destruct (dmyself d); [by apply clean_bstr | split; set_solver]|].
      apply clean_app; [|done]. destruct (dmaster d); by apply clean_bstr.
    + destruct (dmaster d); [done | by apply clean_bstr].
  - done.
  - apply List.Forall_map. eapply Forall_impl; [exact H7|]. intros [a b] [? _]. cbn [fst snd] in *. unfold range_text. cbn [fst snd].
    destruct (a =? b); [apply dec_clean; lia|]. apply clean_app; [apply dec_clean; lia|]. apply clean_app; [by apply clean_bstr | apply dec_clean; lia].
  - apply List.Forall_map. eapply Forall_impl; [exact H8|]. intros [[n o] id] (? & ? & _). cbn [fst snd] in *. unfold open_text, open_tokens.
    cbn [Sds.join_bytes fst snd]. rewrite <- !app_assoc.
    repeat first [apply dec_clean; lia | done | by apply clean_bstr | destruct o | apply clean_app].
Qed.

(** ** Nodes and their regions *)

(** An array of open slots, created with the first one. *)
Definition arr_ok (a : option (HiArray.hiarray copen_slot)) (l : list copen_slot) : Prop :=
  match a with None => l = [] | Some a => HiArray.repr a l /\ HiArray.nalloc a <= Z.max 1 (2 * zlen l) end.

Definition moving (o : Z * bool * bytes) (p : nodeptr) : copen_slot :=
  mk_open_slot o.1.1 (if o.1.2 then 1 else 0) (Some o.2) p.

Section Parts.
Context `{Memory} (Hmem : has_memory).

Definition desc_node (d : node_desc) (role : Z) : cluster_node :=
  node_init (Some (dname d)) (address (daddr d)) (Some (daddr d).1) (daddr d).2 role (if role =? REDIS_ROLE_MASTER then Some [] else None).

Lemma fields_count d : good_desc d -> 8 <= zlen (fields d).
Proof. intros [_ _ _ _ _ [Hm _] _ _ _]. unfold fields, zlen. rewrite !length_app, Hm. cbn [length]. lia. Qed.

Lemma node_get_nodes_spec d role mem : good_desc d ->
  node_get_with_nodes (fields d) role mem = ret (mem ++ [desc_node d role], length mem).
Proof.
  intros Hd. pose proof (fields_count d Hd). pose proof Hd as [_ Ha [_ Hc] _ _ _ _ _ _]. unfold node_get_with_nodes.
  rewrite (proj2 (Z.ltb_ge _ _)) by lia. rewrite !Hmem. cbn [check rbind ret].
  assert ((if role =? REDIS_ROLE_MASTER then ret (Some (@nil cluster_slot)) else ret None) = ret (if role =? REDIS_ROLE_MASTER then Some [] else None)) as ->
    by (by destruct (role =? REDIS_ROLE_MASTER)).
  cbn [rbind ret]. change (rd (fields d) 0) with (Some (dname d)). change (rd (fields d) 1) with (Some (address (daddr d))). cbn [lift rbind ret].
  pose proof (address_length _ Ha). rewrite (address_sdec _ Ha) in *. pose proof Ha as [[Hh _] Hp].
  change ((daddr d).1 ++ bstr ":" ++ dec (daddr d).2) with (Sds.join_bytes [58] [(daddr d).1; dec (daddr d).2]) in *.
  unfold IP_PORT_SEPARATOR. change (bstr ":") with [58]. rewrite split_sds_tokens.
  - cbn [lift rbind ret]. rewrite hi_atoi_dec by (unfold INT_MAX; lia). unfold desc_node. by rewrite address_sdec.
  - done.
  - done.
  - repeat apply Forall_cons_2; [done | apply dec_clean; lia | constructor].
  - by destruct ((daddr d).1).
  - unfold INT_MAX. lia.
Qed.

(** A region is added to the node. *)
Lemma parse_part_range flags r p mem n l : 0 <= r.1 <= r.2 -> r.2 < REDIS_CLUSTER_SLOTS -> mem !! p = Some n -> role n = REDIS_ROLE_MASTER -> slots n = Some l ->
  parse_part flags (range_text r) p mem = ret (<[p := with_slots n (l ++ [mk_slot r.1 r.2 (Some p)])]> mem).
Proof.
  destruct r as [a b]. cbn [fst snd]. unfold REDIS_CLUSTER_SLOTS. intros Hab Hb Hm Hr Hl. unfold parse_part, range_text. cbn [fst snd].
  assert (forall x, 0 <= x < 16384 -> zlen (dec x) <= 5) as Hlen by (intros x Hx; apply (dec_mono x 16384); lia).
  assert (exists toks, split_sds (if a =? b then dec a else dec a ++ bstr "-" ++ dec b) (bstr "-") = Some (Some toks) /\
    (match toks with
     | [a] => ret (_hi_atoi a, _hi_atoi a, mem)
     | [a; b] => ret (_hi_atoi a, _hi_atoi b, mem)
     | _ => let* mem := parse_open flags toks p mem in ret (-1, -1, mem)
     end) = ret (a, b, mem)) as (toks & -> & E).
  { pose proof (Hlen a ltac:(lia)). pose proof (Hlen b ltac:(lia)). change (bstr "-") with [45]. destruct (Z.eqb_spec a b) as [<-|Hne].
    - exists [dec a]. rewrite hi_atoi_dec by (unfold INT_MAX; lia). split; [|done]. apply (split_sds_tokens Hmem 45 [dec a]); try done.
      + apply Forall_cons_2; [apply dec_clean; lia | constructor].
      + apply dec_not_nil. lia.
      + cbn [Sds.join_bytes]. unfold INT_MAX. lia.
    - exists [dec a; dec b]. rewrite !hi_atoi_dec by (unfold INT_MAX; lia). split; [|done]. apply (split_sds_tokens Hmem 45 [dec a; dec b]); try done.
      + repeat apply Forall_cons_2; [apply dec_clean; lia.. | constructor].
      + cbn [Sds.join_bytes]. by destruct (dec a).
      + cbn [Sds.join_bytes]. rewrite !zlen_app. change (zlen [45]) with 1. unfold INT_MAX. lia. }
  cbn [lift rbind ret]. rewrite E. cbn [rbind ret]. unfold REDIS_CLUSTER_SLOTS.
  rewrite !(proj2 (Z.ltb_ge _ _)), (proj2 (Z.leb_gt _ _)) by lia. cbn [orb]. unfold add_region. rewrite !Hmem, Hm. cbn [negb lift rbind ret].
  rewrite Hr, Z.eqb_refl, Hl. cbn [negb]. by rewrite !uwrap_small by lia.
Qed.

(** A slot is put on one of the arrays. *)
Lemma open_slot_spec a l o p : arr_ok a l -> good_open o -> zlen o.2 <= INT_MAX -> zlen l < 2 ^ 28 ->
  exists a', open_slot a o.1.1 (if o.1.2 then 1 else 0) o.2 p = ret a' /\ arr_ok (Some a') (l ++ [moving o p]).
Proof.
  intros Ha (Hn & _) Hid Hz. unfold open_slot. rewrite Hmem. cbn [check rbind ret]. zlen_pos.
  pose proof (Sds.sdsnewlen_spec (o.2 ++ [0]) (zlen o.2) ltac:(lia) ltac:(zl)) as Hs.
  destruct (Sds.sdsnewlen _ _) as [[s|]|]; [|by destruct Hs as [k Hk]; rewrite Hmem in Hk | done]. destruct Hs as [Hs _].
  rewrite take_app_exact in Hs by (unfold zlen; lia). cbn [lift rbind ret fmap option_fmap option_map]. rewrite (sds_text_repr _ _ Hs).
  assert (exists a0, (match a with
             | Some a => ret a
             | None => match HiArray.hiarray_create malloc_ok 1 8 with
                       | Some a => ret a
                       | None => fail Read.REDIS_ERR_OTHER (bstr "create migrating array error")
                       end
             end) = ret a0 /\ HiArray.repr a0 l /\ HiArray.nalloc a0 <= Z.max 1 (2 * zlen l)) as (a0 & -> & Hr & Hal).
  { destruct a as [a|]; [by exists a|]. cbn [arr_ok] in Ha. subst l.
    destruct (HiArray.hiarray_create malloc_ok 1 8) as [a0|] eqn:Ea; [|unfold HiArray.hiarray_create in Ea; by rewrite !Hmem in Ea].
    exists a0. split; [done|]. split; [by apply (HiArray.repr_create malloc_ok 1 8)|]. unfold HiArray.hiarray_create in Ea. rewrite !Hmem in Ea. by injection Ea as <-. }
  cbn [rbind ret]. destruct (HiArray.push_put malloc_ok a0 l (moving o p) 1 Hmem Hr Hal ltac:(lia)) as (a1 & i & a2 & -> & E & Hr2 & Hal2).
  rewrite uwrap_small by (unfold INT_MAX in *; lia). unfold moving in E. rewrite E. cbn [lift]. by exists a2.
Qed.

(** A slot in motion is noted when it is asked for, and is no region. *)
Lemma parse_part_open flags o p mem n lm li : good_open o -> zlen (open_text o) <= INT_MAX -> mem !! p = Some n ->
  arr_ok (migrating n) lm -> arr_ok (importing n) li -> zlen lm < 2 ^ 28 -> zlen li < 2 ^ 28 ->
  let lm' := if flag flags HIRCLUSTER_FLAG_ADD_OPENSLOT && o.1.2 then lm ++ [moving o p] else lm in
  let li' := if flag flags HIRCLUSTER_FLAG_ADD_OPENSLOT && negb o.1.2 then li ++ [moving o p] else li in
  exists n', parse_part flags (open_text o) p mem = ret (<[p := n']> mem) /\ same_node n n' /\ slaves n' = slaves n /\ name n' = name n /\
    arr_ok (migrating n') lm' /\ arr_ok (importing n') li'.
Proof.
  intros Ho Hz Hm Hlm Hli Hzm Hzi. pose proof Ho as (Hn & Hcl & Hdash & Hid). unfold parse_part, open_text in *. change (bstr "-") with [45] in *.
  assert (zlen o.2 <= INT_MAX) as Hzid.
  { unfold open_tokens in Hz. cbn [Sds.join_bytes] in Hz. rewrite !zlen_app in Hz. zlen_pos. lia. }
  rewrite split_sds_tokens; [|done|done| |by destruct o as [[? []] ?] | done].
  2:{ unfold open_tokens. pose proof (dec_clean o.1.1 ltac:(lia)) as (_ & Hd & _).
      repeat apply Forall_cons_2; [| | |constructor]; [|destruct o.1.2|]; change (bstr "[") with [91]; try change (bstr "<") with [60];
        try change (bstr ">") with [62]; change (bstr "]") with [93]; set_solver. }
  cbn [lift rbind ret]. unfold open_tokens at 1. unfold parse_open, open_tokens.
  assert (flag flags HIRCLUSTER_FLAG_ADD_OPENSLOT && (1 <? zlen (bstr "[" ++ dec o.1.1)) && (zlen (if o.1.2 then bstr ">" else bstr "<") =? 1) &&
     (1 <? zlen (o.2 ++ bstr "]")) && bool_decide (take 1 (bstr "[" ++ dec o.1.1) = bstr "[") &&
     bool_decide (drop (length (o.2 ++ bstr "]") - 1) (o.2 ++ bstr "]") = bstr "]") = flag flags HIRCLUSTER_FLAG_ADD_OPENSLOT) as ->.
  { rewrite !zlen_app. change (zlen (bstr "[")) with 1. change (zlen (bstr "]")) with 1. pose proof (dec_length_pos o.1.1).
    rewrite !(proj2 (Z.ltb_lt _ _)) by lia. rewrite length_app. change (length (bstr "]")) with 1%nat.
    replace (length o.2 + 1 - 1)%nat with (length o.2) by lia. rewrite drop_app_length.
    change (take 1 (bstr "[" ++ dec o.1.1)) with (bstr "["). rewrite !bool_decide_true by done. by destruct (flag _ _), o.1.2. }
  change (drop 1 (bstr "[" ++ dec o.1.1)) with (dec o.1.1). rewrite hi_atoi_dec by done.
  assert (take (length (o.2 ++ bstr "]") - 1) (o.2 ++ bstr "]") = o.2) as ->.
  { rewrite length_app. change (length (bstr "]")) with 1%nat. replace (length o.2 + 1 - 1)%nat with (length o.2) by lia. apply take_app_length. }
  assert (forall n', (let* (start, end_, mem0) := (ret (-1, -1, <[p := n']> mem)) in
    if (start <? 0) || (end_ <? 0) || (end_ <? start) || (REDIS_CLUSTER_SLOTS <=? end_) then ret mem0 else add_region p start end_ mem0) = ret (<[p := n']> mem))
    as Hend by done.
  destruct (flag flags HIRCLUSTER_FLAG_ADD_OPENSLOT); cbn [andb].
  2:{ cbn [rbind ret]. exists n. by rewrite list_insert_id. }
  rewrite Hm. cbn [lift rbind ret]. destruct o.1.2 eqn:Eo; cbn [negb].
  - rewrite bool_decide_true by done. destruct (open_slot_spec (migrating n) lm o p Hlm Ho Hzid Hzm) as (a' & E & Ha'). rewrite Eo in E. rewrite E.
    cbn [rbind ret]. exists (with_migrating n a'). by split_and!.
  - rewrite bool_decide_false, bool_decide_true by done. destruct (open_slot_spec (importing n) li o p Hli Ho Hzid Hzi) as (a' & E & Ha'). rewrite Eo in E. rewrite E.
    cbn [rbind ret]. exists (with_importing n a'). by split_and!.
Qed.

End Parts.

(** ** Lines *)

Definition region_of (x : bytes * Z) (r : Z * Z) : region := mk_region r.1 r.2 x [].

Definition desc_regions (d : node_desc) : list region :=
  match dmaster d with None => map (region_of (daddr d)) (dslots d) | Some _ => [] end.

(** What stays of the nodes while regions are added to one of them. *)
Definition same_links (n n' : cluster_node) : Prop :=
  name n' = name n /\ role n' = role n /\ addr n' = addr n /\ slaves n' = slaves n.

Definition links (mem mem' : nodes_mem) : Prop :=
  length mem' = length mem /\ forall q n, mem !! q = Some n -> exists n', mem' !! q = Some n' /\ same_links n n'.

#[export] Instance links_refl : Reflexive links.
Proof. intros mem. split; [done|]. intros q n Hn. by exists n. Qed.

#[export] Instance links_trans : Transitive links.
Proof.
  intros m1 m2 m3 [L12 H12] [L23 H23]. split; [congruence|]. intros q n Hn. destruct (H12 _ _ Hn) as (n2 & H2 & S2).
  destruct (H23 _ _ H2) as (n3 & H3 & S3). exists n3. split; [done|]. unfold same_links in *. intuition congruence.
Qed.

Lemma links_set mem p n n' : mem !! p = Some n -> same_links n n' -> links mem (<[p := n']> mem).
Proof.
  intros Hp Hs. split; [apply length_insert|]. intros q m Hq. destruct (decide (q = p)) as [->|Hne].
  - exists n'. rewrite list_lookup_insert_eq by (by eapply lookup_lt_Some). split; [done|]. congruence.
  - exists m. by rewrite list_lookup_insert_ne.
Qed.

Section Lines.
Context `{Memory} (Hmem : has_memory).

Abbreviation state nodes mem := (mk_parse nodes mem None).

Lemma parse_ranges flags x more rs : forall N ds nodes mem p n, known N ds (state nodes mem) -> Dict.contents nodes !! address x = Some p ->
  mem !! p = Some n -> Forall (fun r => 0 <= r.1 <= r.2 /\ r.2 < REDIS_CLUSTER_SLOTS) rs ->
  exists mem' n', parse_parts flags (map range_text rs ++ more) p mem = parse_parts flags more p mem' /\
    known N (ds ++ map (region_of x) rs) (state nodes mem') /\ links mem mem' /\
    mem' !! p = Some n' /\ migrating n' = migrating n /\ importing n' = importing n.
Proof.
  induction rs as [|r rs IH]; intros N ds nodes mem p n Hk Hp Hn Hrs; cbn [map app parse_parts].
  { exists mem, n. rewrite app_nil_r. by split_and!. }
  apply Forall_cons in Hrs as [[Hr1 Hr2] Hrs]. destruct (k_nodes _ _ _ Hk _ _ Hp) as (n0 & Hm & Ha & Hho & Hro & Hsl). cbn [pmem] in Hm.
  assert (n0 = n) as -> by congruence. rewrite (parse_part_range Hmem flags r p mem n _ Hr1 Hr2 Hm Hro Hsl). cbn [rbind ret].
  pose proof (slot_known N ds (state nodes mem) (region_of x r) p n _ None Hk Hp Hm Hsl) as Hk'. cbn [pnodes pmem] in Hk'.
  match type of Hk' with known _ _ (state _ ?m) => set (mem1 := m) in * end.
  assert (mem1 !! p = Some (with_slots n (map (region_slot p) (filter (fun r0 => address (rmaster r0) = address x) ds) ++ [region_slot p (region_of x r)])))
    as Hm1 by (apply list_lookup_insert_eq; by eapply lookup_lt_Some).
  destruct (IH N (ds ++ [region_of x r]) nodes mem1 p _ Hk' Hp Hm1 Hrs) as (mem2 & n2 & E & Hk2 & Hl2 & Hn2 & Hmi & Him).
  exists mem2, n2. rewrite <- app_assoc in Hk2. split_and!; try done. etrans; [|exact Hl2]. by eapply links_set.
Qed.

(** The slots in motion of one direction. *)
Definition moved (flags : Z) (out : bool) (p : nodeptr) (os : list (Z * bool * bytes)) : list copen_slot :=
  if flag flags HIRCLUSTER_FLAG_ADD_OPENSLOT then map (fun o => moving o p) (filter (fun o => o.1.2 = out) os) else [].

Lemma moved_cons flags out p o os :
  moved flags out p (o :: os) = (if flag flags HIRCLUSTER_FLAG_ADD_OPENSLOT && Bool.eqb o.1.2 out then [moving o p] else []) ++ moved flags out p os.
Proof.
  unfold moved. destruct (flag _ _); [|done]. destruct (Bool.eqb_spec o.1.2 out) as [E|E]; cbn [andb].
  - by rewrite filter_cons_True.
  - by rewrite filter_cons_False.
Qed.

Lemma parse_opens flags os : forall mem p n lm li, Forall good_open os -> Forall (fun o => zlen (open_text o) <= INT_MAX) os -> mem !! p = Some n ->
  arr_ok (migrating n) lm -> arr_ok (importing n) li -> zlen lm + zlen li + zlen os < 2 ^ 28 ->
  exists mem' n', parse_parts flags (map open_text os) p mem = ret mem' /\ keeps mem mem' /\ links mem mem' /\ mem' !! p = Some n' /\
    arr_ok (migrating n') (lm ++ moved flags true p os) /\ arr_ok (importing n') (li ++ moved flags false p os).
Proof.
  induction os as [|o os IH]; intros mem p n lm li Hg Hz Hn Hlm Hli Hfew; cbn [map parse_parts].
  { exists mem, n. unfold moved. cbn [map]. rewrite !filter_nil. destruct (flag _ _); cbn [map]; rewrite !app_nil_r; by split_and!. }
  apply Forall_cons in Hg as [Ho Hg], Hz as [Hzo Hz]. rewrite zlen_cons in Hfew. zlen_pos.
  destruct (parse_part_open Hmem flags o p mem n lm li Ho Hzo Hn Hlm Hli ltac:(lia) ltac:(lia)) as (n1 & -> & Hs & Hsl & Hnm & Hlm1 & Hli1).
  cbn [rbind ret]. set (mem1 := <[p := n1]> mem).
  assert (mem1 !! p = Some n1) as Hn1 by (apply list_lookup_insert_eq; by eapply lookup_lt_Some).
  destruct (IH mem1 p n1 _ _ Hg Hz Hn1 Hlm1 Hli1) as (mem2 & n2 & E & Hk2 & Hl2 & Hn2 & Hm2 & Hi2).
  { destruct (flag _ _), o.1.2; cbn [andb negb]; rewrite ?zlen_app; try change (zlen [moving o p]) with 1; lia. }
  exists mem2, n2. split_and!; try done.
  - etrans; [by eapply keeps_set | exact Hk2].
  - etrans; [|exact Hl2]. eapply links_set; [done|]. destruct Hs as (? & ? & ? & ? & ?). by split_and!.
  - rewrite moved_cons, app_assoc. replace (Bool.eqb o.1.2 true) with o.1.2 by (by destruct o.1.2). by destruct (flag _ _), o.1.2; cbn [andb] in *; rewrite ?app_nil_r.
  - rewrite moved_cons, app_assoc. replace (Bool.eqb o.1.2 false) with (negb o.1.2) by (by destruct o.1.2). by destruct (flag _ _), o.1.2; cbn [andb negb] in *; rewrite ?app_nil_r.
Qed.

End Lines.

(** ** Names *)

#[export] Instance clusterNodesRef_laws : Dict.DictLaws clusterNodesRefDictType.
Proof. split; [apply (Dict.hash_range (T := clusterNodesDictType)) | apply (Dict.compare_eq (T := clusterNodesDictType)) | done..]. Qed.

Abbreviation names_wf := (Dict.wf (T := clusterNodesRefDictType)).

Lemma set_entry_spec d k p w : names_wf d -> Dict.contents d !! k = Some w ->
  exists d', set_entry d k p = Some d' /\ names_wf d' /\ Dict.contents d' = <[k := p]> (Dict.contents d) /\ Dict.used d' = Dict.used d /\ Dict.size d' = Dict.size d.
Proof.
  intros Hwf Hk. unfold set_entry. destruct (Dict.wf_cases d Hwf) as [(_ & Hc & _)|(Hs & Hok & Hm)]; [by rewrite Hc in Hk|].
  destruct (Dict.wf_cut d k Hwf Hok Hm) as (t1 & c & t2 & Ht & Hl & Hrd & _ & Hwr). rewrite Hrd. cbn [mbind option_bind].
  destruct (Hwr (Dict.set_chain (T := clusterNodesRefDictType) k (Dict.dictSetHashVal (T := clusterNodesRefDictType) p) c)) as [-> _]. cbn [mbind option_bind].
  destruct (Dict.update_entry d k p t1 c t2 Hwf Hok Hm ltac:(eauto) Ht) as [Hw' Hc']; [by rewrite <- Hm|]. eexists. split; [done|]. by split_and!.
Qed.

(** The name under which a node is found: that of the master. *)
Definition mkey (d : node_desc) : bytes := default (dname d) (dmaster d).

(** The addresses of the slaves of a master. *)
Definition slaves_of (k : bytes) (seen : list node_desc) : list bytes :=
  map (fun d => address (daddr d)) (filter (fun d => dmaster d = Some k) seen).

Definition maddr (mem : nodes_mem) (q : nodeptr) : option bytes := addr <$> mem !! q.

Definition lists (mem : nodes_mem) (l : list nodeptr) (k : bytes) (seen : list node_desc) : Prop :=
  map (maddr mem) l ≡ₚ map Some (slaves_of k seen).

Definition is_master (k : bytes) (d : node_desc) : Prop := dmaster d = None /\ dname d = k.

(** The node kept for a name: the master with its slaves, or the first of the slaves with the
    others. *)
Definition entry_ok (seen : list node_desc) (mem : nodes_mem) (k : bytes) (p : nodeptr) : Prop :=
  exists n, mem !! p = Some n /\
    ((role n = REDIS_ROLE_MASTER /\ Exists (is_master k) seen /\ lists mem (default [] (slaves n)) k seen) \/
     (role n = REDIS_ROLE_SLAVE /\ (~ Exists (is_master k) seen) /\ lists mem (p :: default [] (slaves n)) k seen)).

Record names_ok (seen : list node_desc) (names : nodes_dict) (mem : nodes_mem) : Prop := {
  n_wf : names_wf names;
  n_used : Dict.used names <= zlen seen;
  n_inj : forall k k' p, Dict.contents names !! k = Some p -> Dict.contents names !! k' = Some p -> k = k';
  n_entry : forall k p, Dict.contents names !! k = Some p -> entry_ok seen mem k p;
  n_all : forall d, d ∈ seen -> is_Some (Dict.contents names !! mkey d);
}.

Lemma names_init mem : names_ok [] Dict.dictInit mem.
Proof. split; try done; [apply Dict.wf_init | intros d Hd; by apply elem_of_nil in Hd]. Qed.

Lemma lists_mono mem mem' l k seen : (forall q a, maddr mem q = Some a -> maddr mem' q = Some a) -> lists mem l k seen -> lists mem' l k seen.
Proof.
  intros Hm Hl. unfold lists in *. rewrite <- Hl. apply Permutation_refl'. apply map_ext_in. intros q Hq.
  assert (maddr mem q ∈ map Some (slaves_of k seen)) as Hin by (rewrite <- Hl; apply list_elem_of_fmap; exists q; by rewrite list_elem_of_In).
  apply list_elem_of_fmap in Hin as (a & E & _). by rewrite E, (Hm _ _ E).
Qed.

Lemma maddr_keeps mem mem' q a : keeps mem mem' -> maddr mem q = Some a -> maddr mem' q = Some a.
Proof.
  unfold maddr. intros Hk E. destruct (mem !! q) as [n|] eqn:En; [|done]. destruct (Hk _ _ En) as (n' & -> & Ha & _). cbn in *. congruence.
Qed.

(** Changes that leave the names and the slaves alone. *)
Lemma entry_links seen mem mem' k p : links mem mem' -> entry_ok seen mem k p -> entry_ok seen mem' k p.
Proof.
  intros [Hlen Hl] (n & Hn & Hor). destruct (Hl _ _ Hn) as (n' & Hn' & Hnm & Hro & Had & Hsl). exists n'. split; [done|]. rewrite Hro, Hsl.
  assert (forall q a, maddr mem q = Some a -> maddr mem' q = Some a) as Hma.
  { intros q a. unfold maddr. destruct (mem !! q) as [m|] eqn:E; [|done]. destruct (Hl _ _ E) as (m' & -> & _ & _ & Ha & _). cbn. congruence. }
  destruct Hor as [(? & ? & ?)|(? & ? & ?)]; [left|right]; split_and!; try done; by eapply lists_mono.
Qed.

Lemma names_links seen names mem mem' : links mem mem' -> names_ok seen names mem -> names_ok seen names mem'.
Proof. intros Hl [? ? ? He ?]. split; try done. intros k p Hp. eapply entry_links; [done | by apply He]. Qed.

Lemma slaves_of_snoc k seen d : slaves_of k (seen ++ [d]) = slaves_of k seen ++ (if decide (dmaster d = Some k) then [address (daddr d)] else []).
Proof.
  unfold slaves_of. rewrite filter_app, map_app. f_equal. destruct (decide (dmaster d = Some k)).
  - by rewrite filter_cons_True, filter_nil.
  - by rewrite filter_cons_False, filter_nil.
Qed.

(** The other names do not notice a node. *)
Lemma entry_other seen mem mem' k p d : mkey d <> k -> keeps mem mem' -> (forall n, mem !! p = Some n -> mem' !! p = Some n) ->
  entry_ok seen mem k p -> entry_ok (seen ++ [d]) mem' k p.
Proof.
  intros Hne Hk Hp (n & Hn & Hor). exists n. split; [by apply Hp|].
  assert (Exists (is_master k) (seen ++ [d]) <-> Exists (is_master k) seen) as Hex.
  { rewrite Exists_app, Exists_cons, Exists_nil. split; [|by left]. intros [?|[[E1 E2]|[]]]; [done|]. exfalso. apply Hne. unfold mkey. by rewrite E1. }
  assert (forall l, lists mem l k seen -> lists mem' l k (seen ++ [d])) as Hlists.
  { intros l Hl. unfold lists. rewrite slaves_of_snoc, decide_False, app_nil_r.
    - by eapply lists_mono; [intros q a; by apply maddr_keeps|].
    - intros E. apply Hne. unfold mkey. by rewrite E. }
  destruct Hor as [(? & ? & ?)|(? & ? & ?)]; [left|right]; split_and!; try done; try (by apply Hlists); by rewrite Hex.
Qed.

Definition role_of (d : node_desc) : Z := match dmaster d with None => REDIS_ROLE_MASTER | Some _ => REDIS_ROLE_SLAVE end.

Section Names.
Context `{Memory} (Hmem : has_memory).

Abbreviation mapping := cluster_master_slave_mapping_with_name.
Abbreviation grown mem d := (mem ++ [desc_node d (role_of d)]).

Lemma lists_absent seen names mem k : names_ok seen names mem -> Dict.contents names !! k = None -> slaves_of k seen = [] /\ ~ Exists (is_master k) seen.
Proof.
  intros [_ _ _ _ Ha] Hk. split.
  - unfold slaves_of. destruct (filter _ seen) as [|d l] eqn:E; [done|]. exfalso.
    assert (d ∈ filter (fun d => dmaster d = Some k) seen) as Hd by (rewrite E; left). apply list_elem_of_filter in Hd as [Hm Hd].
    destruct (Ha d Hd) as [p Hp]. unfold mkey in Hp. rewrite Hm in Hp. cbn in Hp. congruence.
  - intros He. apply Exists_exists in He as (d & Hd & Hm & Hn). destruct (Ha d Hd) as [p Hp]. unfold mkey in Hp. rewrite Hm in Hp. cbn in Hp. congruence.
Qed.

Lemma maddr_new mem d : maddr (grown mem d) (length mem) = Some (address (daddr d)).
Proof. unfold maddr. by rewrite list_lookup_middle. Qed.

(** The first node of a name. *)
Lemma mapping_new seen names mem d : names_ok seen names mem -> zlen seen < 2 ^ 28 -> zlen (mkey d) <= INT_MAX -> Dict.contents names !! mkey d = None ->
  exists names', mapping (Some names) (length mem) (mkey d) (grown mem d) = ret (names', grown mem d) /\
    Dict.contents names' = <[mkey d := length mem]> (Dict.contents names) /\ names_ok (seen ++ [d]) names' (grown mem d).
Proof.
  intros Hok Hz Hk Hnone. pose proof Hok as [Hwf Hu Hi He Ha]. unfold mapping. cbn [lift rbind ret].
  rewrite (Dict.dictFind_refines names (mkey d) Hwf), Hnone. cbn [fmap option_fmap option_map lift rbind ret].
  rewrite key_copy_text by done. cbn [lift rbind ret].
  destruct (Dict.dictAdd_refines malloc_ok names (mkey d) (length mem) Hwf ltac:(lia) Hmem) as (names' & r & E & Hw & Hr).
  rewrite Hnone in Hr. destruct Hr as (-> & Hc & Hu'). change (Dict.dictSetHashVal (length mem)) with (length mem) in Hc.
  rewrite E. cbn [lift rbind ret]. rewrite Z.eqb_refl. cbn [check rbind ret]. exists names'. split; [done|]. split; [done|].
  destruct (lists_absent seen names mem _ Hok Hnone) as [Hs Hm]. split; try done.
  - rewrite zlen_app. change (zlen [d]) with 1. lia.
  - intros k k' p. rewrite Hc, !lookup_insert_Some. intros [[<- <-]|[H1 H2]] [[E1 E2]|[H3 H4]]; try done; try congruence.
    + destruct (He _ _ H4) as (n & Hn & _). apply lookup_lt_Some in Hn. lia.
    + subst. destruct (He _ _ H2) as (n & Hn & _). apply lookup_lt_Some in Hn. lia.
    + by eapply Hi.
  - intros k p. rewrite Hc, lookup_insert_Some. intros [[<- <-]|[Hne Hp]].
    + exists (desc_node d (role_of d)). rewrite list_lookup_middle by done. split; [done|]. unfold lists. rewrite slaves_of_snoc, Hs.
      unfold role_of. destruct (dmaster d) as [m|] eqn:Em; [right|left].
      * assert (mkey d = m) as -> by (unfold mkey; by rewrite Em). rewrite decide_True by done. cbn [desc_node node_init role slaves default from_option map].
        split_and!; [done| |]; [|pose proof (maddr_new mem d) as E1; unfold role_of in E1; rewrite Em in E1; by rewrite E1].
        rewrite Exists_app, Exists_cons, Exists_nil. intros [?|[[? _]|[]]]; [|congruence]. apply Hm. unfold mkey. by rewrite Em.
      * rewrite decide_False by done. cbn. split_and!; [done| |done]. apply Exists_app. right. apply Exists_cons. left. split; [done|]. unfold mkey. by rewrite Em.
    + apply entry_other with mem; [done | apply keeps_app | intros n Hn; by apply lookup_app_l_Some | by apply He].
  - intros d' Hd'. rewrite Hc. apply elem_of_app in Hd' as [Hd'|Hd'].
    + destruct (decide (mkey d' = mkey d)) as [->|]; [rewrite lookup_insert_eq; eauto|]. rewrite lookup_insert_ne by done. by apply Ha.
    + apply list_elem_of_singleton in Hd' as ->. rewrite lookup_insert_eq. eauto.
Qed.

(** A further node of a name that is known. *)
Lemma names_step seen names mem d names' mem' p' : names_ok seen names mem -> names_wf names' -> Dict.used names' = Dict.used names ->
  is_Some (Dict.contents names !! mkey d) -> Dict.contents names' = <[mkey d := p']> (Dict.contents names) ->
  (forall k, Dict.contents names !! k = Some p' -> k = mkey d) -> keeps mem mem' ->
  (forall k p n, k <> mkey d -> Dict.contents names !! k = Some p -> mem !! p = Some n -> mem' !! p = Some n) ->
  entry_ok (seen ++ [d]) mem' (mkey d) p' -> names_ok (seen ++ [d]) names' mem'.
Proof.
  intros [Hwf Hu Hi He Ha] Hwf' Hu' Hsome Hc Hfresh Hk Hother Hent. split; try done.
  - rewrite zlen_app. change (zlen [d]) with 1. lia.
  - intros k k' p. rewrite Hc, !lookup_insert_Some. intros [[<- <-]|[H1 H2]] [[E1 E2]|[H3 H4]]; try done; try congruence.
    + by apply Hfresh in H4.
    + subst. by apply Hfresh in H2.
    + by eapply Hi.
  - intros k p. rewrite Hc, lookup_insert_Some. intros [[<- <-]|[Hne Hp]]; [done|].
    apply entry_other with mem; [done | done | intros n; by eapply Hother | by apply He].
  - intros d' Hd'. rewrite Hc. destruct (decide (mkey d' = mkey d)) as [->|]; [rewrite lookup_insert_eq; eauto|]. rewrite lookup_insert_ne by done.
    apply elem_of_app in Hd' as [Hd'|Hd']; [by apply Ha|]. by apply list_elem_of_singleton in Hd' as ->.
Qed.

(** A master takes over the slaves that came before it. *)
Lemma mapping_promote seen names mem d q : names_ok seen names mem -> dmaster d = None -> (~ Exists (is_master (dname d)) seen) ->
  Dict.contents names !! mkey d = Some q ->
  exists names' mem', mapping (Some names) (length mem) (mkey d) (grown mem d) = ret (names', mem') /\
    Dict.contents names' = <[mkey d := length mem]> (Dict.contents names) /\ names_ok (seen ++ [d]) names' mem' /\ keeps (grown mem d) mem' /\
    length mem' = length (grown mem d) /\ exists n, mem' !! length mem = Some n /\ migrating n = None /\ importing n = None.
Proof.
  intros Hok Hd Hno Hq. pose proof Hok as [Hwf Hu Hi He Ha]. assert (mkey d = dname d) as Hkey by (unfold mkey; by rewrite Hd).
  destruct (He _ _ Hq) as (n & Hn & [(_ & Hx & _)|(Hro & _ & Hl)]); [by rewrite Hkey in Hx|].
  assert (q <> length mem) as Hne by (apply lookup_lt_Some in Hn; lia). unfold mapping. cbn [lift rbind ret].
  rewrite (Dict.dictFind_refines names (mkey d) Hwf), Hq. cbn [fmap option_fmap option_map lift rbind ret].
  set (x := desc_node d (role_of d)). rewrite list_lookup_middle by done. rewrite (lookup_app_l_Some mem [x] q n Hn). cbn [lift rbind ret].
  assert (role x = REDIS_ROLE_MASTER) as Hx by (unfold x, role_of; by rewrite Hd). rewrite Hx, Hro. cbn [Z.eqb Pos.eqb andb]. 
  unfold slaves_list. change (slaves x) with (@None (list nodeptr)). rewrite Hmem. cbn [check rbind ret].
  destruct (set_entry_spec names (mkey d) (length mem) q Hwf Hq) as (names' & -> & Hwf' & Hc & Hu' & _). cbn [lift rbind ret].
  assert (forall l acc, foldl (fun l x => add_head x l) acc l = rev l ++ acc) as Hfold.
  { unfold add_head. rewrite Hmem. induction l as [|y l IH]; intros acc; [done|]. cbn [foldl rev]. by rewrite IH, <- app_assoc. }
  rewrite Hfold. unfold add_head. rewrite Hmem, app_nil_r. set (sl := q :: rev (default [] (slaves n))).
  set (mem' := <[length mem := with_slaves x (Some sl)]> (<[q := with_slaves n None]> (mem ++ [x]))).
  assert ((mem ++ [x]) !! length mem = Some x) as Hlx by (by rewrite list_lookup_middle).
  assert (<[q := with_slaves n None]> (mem ++ [x]) !! length mem = Some x) as Hlx' by (by rewrite list_lookup_insert_ne).
  assert (keeps (mem ++ [x]) mem') as Hkeep.
  { etrans; [apply (keeps_set _ q n (with_slaves n None)); [by apply lookup_app_l_Some | done]|]. by eapply keeps_set. }
  assert (mem' !! length mem = Some (with_slaves x (Some sl))) as Hp by (apply list_lookup_insert_eq; by eapply lookup_lt_Some).
  exists names', mem'. split; [done|]. split; [done|]. split_and!; [| done | unfold mem'; by rewrite !length_insert | by eexists].
  apply (names_step seen names mem d names' mem' (length mem)); try done.
  - intros k Hk. destruct (He _ _ Hk) as (m & Hm & _). apply lookup_lt_Some in Hm. lia.
  - etrans; [apply (keeps_app _ [x]) | done].
  - intros k p m Hk Hp' Hm. unfold mem'. rewrite !list_lookup_insert_ne; [by apply lookup_app_l_Some | |].
    + intros <-. apply Hk. by eapply Hi.
    + intros <-. apply lookup_lt_Some in Hm. lia.
  - eexists. split; [exact Hp|]. left. split_and!; [done | apply Exists_app; right; apply Exists_cons; left; by rewrite Hkey |].
    unfold lists. rewrite slaves_of_snoc, decide_False, app_nil_r by (by rewrite Hd). cbn [with_slaves slaves default from_option].
    rewrite <- (lists_mono mem mem' (q :: default [] (slaves n)) (mkey d) seen); [|intros y a Hy; by eapply maddr_keeps, maddr_keeps, Hy; [|apply keeps_app] | done].
    apply Permutation_map. unfold sl. apply perm_skip. symmetry. apply Permutation_rev.
Qed.

(** A slave joins the others. *)
Lemma mapping_slave seen names mem d q : names_ok seen names mem -> is_Some (dmaster d) -> Dict.contents names !! mkey d = Some q ->
  exists mem', mapping (Some names) (length mem) (mkey d) (grown mem d) = ret (names, mem') /\
    names_ok (seen ++ [d]) names mem' /\ keeps (grown mem d) mem' /\ length mem' = length (grown mem d).
Proof.
  intros Hok [m Hd] Hq. pose proof Hok as [Hwf Hu Hi He Ha]. assert (mkey d = m) as Hkey by (unfold mkey; by rewrite Hd).
  destruct (He _ _ Hq) as (n & Hn & Hor).
  assert (q <> length mem) as Hne by (apply lookup_lt_Some in Hn; lia). unfold mapping. cbn [lift rbind ret].
  rewrite (Dict.dictFind_refines names (mkey d) Hwf), Hq. cbn [fmap option_fmap option_map lift rbind ret].
  set (x := desc_node d (role_of d)). rewrite list_lookup_middle by done. rewrite (lookup_app_l_Some mem [x] q n Hn). cbn [lift rbind ret].
  assert (role x = REDIS_ROLE_SLAVE) as Hx by (unfold x, role_of; by rewrite Hd). rewrite Hx. cbn [Z.eqb Pos.eqb andb].
  assert (slaves_list n = ret (default [] (slaves n))) as -> by (unfold slaves_list; destruct (slaves n); [done|]; by rewrite Hmem).
  cbn [rbind ret]. unfold add_last. rewrite Hmem. set (l := default [] (slaves n)) in *.
  set (mem' := <[q := with_slaves n (Some (l ++ [length mem]))]> (mem ++ [x])).
  assert (keeps (mem ++ [x]) mem') as Hkeep by (eapply keeps_set; [by apply lookup_app_l_Some | done]).
  assert (mem' !! q = Some (with_slaves n (Some (l ++ [length mem])))) as Hp by (apply list_lookup_insert_eq; eapply lookup_lt_Some, lookup_app_l_Some, Hn).
  assert (maddr mem' (length mem) = Some (address (daddr d))) as Hnew by (by eapply maddr_keeps, maddr_new).
  assert (forall l', lists mem l' (mkey d) seen -> lists mem' (l' ++ [length mem]) (mkey d) (seen ++ [d])) as Hls.
  { intros l' Hl'. unfold lists. rewrite slaves_of_snoc, decide_True, !map_app by (by rewrite Hkey). cbn [map]. rewrite Hnew. apply Permutation_app_tail.
    change (lists mem' l' (mkey d) seen). eapply lists_mono; [|exact Hl']. intros y a Hy. by eapply maddr_keeps, maddr_keeps, Hy; [|apply keeps_app]. }
  exists mem'. split; [done|]. split_and!; [| done | unfold mem'; by rewrite length_insert].
  apply (names_step seen names mem d names mem' q); try done.
  - by rewrite insert_id.
  - intros k Hk. by eapply Hi.
  - etrans; [apply (keeps_app _ [x]) | done].
  - intros k p n' Hk Hp' Hm. unfold mem'. rewrite list_lookup_insert_ne; [by apply lookup_app_l_Some|]. intros <-. apply Hk. by eapply Hi.
  - eexists. split; [exact Hp|]. cbn [with_slaves slaves role default from_option].
    assert (Exists (is_master (mkey d)) (seen ++ [d]) <-> Exists (is_master (mkey d)) seen) as Hex.
    { rewrite Exists_app, Exists_cons, Exists_nil. split; [|by left]. intros [?|[[E1 _]|[]]]; [done|]. congruence. }
    destruct Hor as [(? & ? & ?)|(? & ? & Hl)]; [left|right]; split_and!; try done; try (by rewrite Hex); [by apply Hls|]. by apply (Hls (q :: l)).
Qed.

End Names.

(** ** The slots in motion of the nodes that were read before *)

Definition same_open (n n' : cluster_node) : Prop := migrating n' = migrating n /\ importing n' = importing n.
Definition still (mem mem' : nodes_mem) : Prop := forall q n, mem !! q = Some n -> exists n', mem' !! q = Some n' /\ same_open n n'.

#[export] Instance still_refl : Reflexive still.
Proof. intros mem q n Hn. by exists n. Qed.

Lemma still_set mem p n n' : mem !! p = Some n -> same_open n n' -> still mem (<[p := n']> mem).
Proof.
  intros Hp Hs q m Hq. destruct (decide (q = p)) as [->|Hne].
  - exists n'. rewrite list_lookup_insert_eq by (by eapply lookup_lt_Some). split; [done|]. congruence.
  - exists m. by rewrite list_lookup_insert_ne.
Qed.

#[export] Instance still_trans : Transitive still.
Proof.
  intros m1 m2 m3 H12 H23 q n Hn. destruct (H12 _ _ Hn) as (n2 & H2 & [E1 E2]). destruct (H23 _ _ H2) as (n3 & H3 & [E3 E4]).
  exists n3. split; [done|]. split; congruence.
Qed.

Section Others.
Context `{Memory}.

(** Linking a node by name changes lists of slaves only. *)
Lemma mapping_still names p k mem names' mem' : cluster_master_slave_mapping_with_name names p k mem = ret (names', mem') -> still mem mem'.
Proof.
  intros E. unfold cluster_master_slave_mapping_with_name in E.
  destruct (match names with Some d => Some d | None => _ end) as [d|]; [|done]. cbn [lift rbind ret] in E.
  destruct (Dict.dictFind d k) as [[[k' q]|]|]; [| |done]; cbn [lift rbind ret] in E.
  - destruct (mem !! p) as [n|] eqn:Ep, (mem !! q) as [n0|] eqn:Eq; cbn [lift rbind ret] in E; try done. destruct (_ && _); [done|]. destruct (_ && _) eqn:Er.
    + destruct (slaves_list n) as [[l|]|]; [|done..]. cbn [rbind ret] in E. destruct (set_entry d k p) as [d'|]; [|done]. cbn [lift rbind ret] in E. injection E as _ <-.
      assert (q <> p) as Hne by (intros ->; rewrite Ep in Eq; injection Eq as ->; apply andb_true_iff in Er as [H1 H2]; apply Z.eqb_eq in H1, H2; rewrite H1 in H2; discriminate H2).
      etrans; [by apply (still_set _ q n0 (with_slaves n0 None))|]. eapply still_set; [by rewrite list_lookup_insert_ne | done].
    + destruct (role n =? REDIS_ROLE_SLAVE); [|done]. destruct (slaves_list n0) as [[l|]|]; [|done..]. cbn [rbind ret] in E. injection E as _ <-. by eapply still_set.
  - destruct (key_copy k) as [k0|]; [|done]. cbn [lift rbind ret] in E. destruct (Dict.dictAdd malloc_ok d k0 p) as [[d' r]|]; [|done]. cbn [lift rbind ret] in E.
    destruct (r =? _); [|done]. cbn [check rbind ret] in E. by injection E as _ <-.
Qed.

(** The parts of a line belong to one node. *)
Lemma parse_part_others flags part p mem mem' q : parse_part flags part p mem = ret mem' -> q <> p -> mem' !! q = mem !! q.
Proof.
  intros E Hq. unfold parse_part in E. destruct (split_sds part (bstr "-")) as [[toks|]|]; cbn [lift rbind ret] in E; [|done..].
  assert (forall start end_ mem1 mem2, (if (start <? 0) || (end_ <? 0) || (end_ <? start) || (REDIS_CLUSTER_SLOTS <=? end_) then ret mem1 else add_region p start end_ mem1) = ret mem2 ->
    mem2 !! q = mem1 !! q) as Hreg.
  { intros start end_ mem1 mem2. destruct (_ || _); [by intros [= ->]|]. unfold add_region. destruct (negb (malloc_ok slot_size)); [done|].
    destruct (mem1 !! p) as [n|]; [|done]. cbn [lift rbind ret]. destruct (negb _); [done|]. destruct (match slots n with Some l => Some l | None => _ end); [|done].
    intros [= <-]. by rewrite list_lookup_insert_ne. }
  assert (forall mem2, parse_open flags toks p mem = ret mem2 -> mem2 !! q = mem !! q) as Hopen.
  { intros mem2. unfold parse_open. repeat case_match; try done; try (by intros [= <-]);
      (destruct (mem !! p) as [n|]; [|done]); cbn [lift rbind ret]; repeat case_match; try done; try (by intros [= <-]);
      (destruct (open_slot _ _ _ _ _) as [[x|]|]; [|done..]); cbn [rbind ret]; intros [= <-]; by rewrite list_lookup_insert_ne. }
  assert (forall x, rbind (parse_open flags toks p mem) (fun mem => ret (-1, -1, mem)) = ret x -> x.2 !! q = mem !! q) as Hrest.
  { intros x. destruct (parse_open flags toks p mem) as [[mem1|]|] eqn:Eo; [|done..]. intros [= <-]. by apply Hopen. }
  destruct (match toks with [] => _ | [a] => _ | _ => _ end) as [[[[start end_] mem1]|]|] eqn:Ex; [|done..]. cbn [rbind] in E. rewrite (Hreg _ _ _ _ E).
  destruct toks as [|a [|b [|c toks]]]; [by apply (Hrest (start, end_, mem1)) | by injection Ex as _ _ <- | by injection Ex as _ _ <- | by apply (Hrest (start, end_, mem1))].
Qed.

Lemma parse_parts_others flags parts p q : q <> p -> forall mem mem', parse_parts flags parts p mem = ret mem' -> mem' !! q = mem !! q.
Proof.
  intros Hq. induction parts as [|part parts IH]; intros mem mem'; cbn [parse_parts]; [by intros [= <-]|].
  destruct (parse_part flags part p mem) as [[mem1|]|] eqn:E; [|done..]. cbn [rbind]. intros E2. rewrite (IH _ _ E2). by eapply parse_part_others.
Qed.

Lemma mark_others me p mem mem' q : mark me p mem = Some mem' -> q <> p -> mem' !! q = mem !! q.
Proof. unfold mark. destruct me; [|by intros [= <-]]. destruct (mem !! p); [|done]. cbn. intros [= <-] Hq. by rewrite list_lookup_insert_ne. Qed.

End Others.

(** ** The text *)

Definition master_descs (ds : list node_desc) : list node_desc := filter (fun d => dmaster d = None) ds.
Definition regions_in (ds : list node_desc) : list region := flat_map desc_regions ds.

Section Text.
Context `{Memory} (Hmem : has_memory) (flags : Z).

Abbreviation state st := (mk_parse (nnodes st) (nmem st) None).
Abbreviation with_slaves_flag := (flag flags HIRCLUSTER_FLAG_ADD_SLAVE).
Abbreviation named st := (default Dict.dictInit (nnames st)).

(** The two arrays of the node of a line hold its slots in motion. *)
Definition opens_read (nodes : nodes_dict) (mem : nodes_mem) (d : node_desc) : Prop :=
  exists p n, Dict.contents nodes !! address (daddr d) = Some p /\ mem !! p = Some n /\
    arr_ok (migrating n) (moved flags true p (dopen d)) /\ arr_ok (importing n) (moved flags false p (dopen d)).

Lemma opens_still nodes nodes' mem mem' d : opens_read nodes mem d -> (forall a p, Dict.contents nodes !! a = Some p -> Dict.contents nodes' !! a = Some p) ->
  (forall q n, mem !! q = Some n -> exists n', mem' !! q = Some n' /\ same_open n n') -> opens_read nodes' mem' d.
Proof. intros (p & n & Hp & Hn & Hm & Hi) Hc Hs. destruct (Hs p n Hn) as (n' & Hn' & Em & Ei). exists p, n'. rewrite Em, Ei. split_and!; try done. by apply Hc. Qed.

(** The state after some lines. *)
Record read_lines (seen : list node_desc) (st : nparse) : Prop := {
  l_known : known (zlen seen) (regions_in seen) (state st);
  l_addr : forall a, is_Some (Dict.contents (nnodes st) !! a) <-> a ∈ map (fun d => address (daddr d)) (master_descs seen);
  l_names : with_slaves_flag = true -> names_ok seen (named st) (nmem st) /\
    forall d, d ∈ seen -> dmaster d = None -> exists p, Dict.contents (nnodes st) !! address (daddr d) = Some p /\ Dict.contents (named st) !! dname d = Some p;
  l_open : forall d, d ∈ seen -> dmaster d = None -> opens_read (nnodes st) (nmem st) d;
}.

(** The masters are told apart by their addresses and by their names. *)
Definition distinct (ds : list node_desc) : Prop :=
  NoDup (map (fun d => address (daddr d)) (master_descs ds)) /\ NoDup (map dname (master_descs ds)).

Lemma mapping_none p k mem : cluster_master_slave_mapping_with_name None p k mem = cluster_master_slave_mapping_with_name (Some Dict.dictInit) p k mem.
Proof. unfold cluster_master_slave_mapping_with_name, Dict.dictCreate. by rewrite Hmem. Qed.

Lemma mapping_named st p k mem :
  cluster_master_slave_mapping_with_name (nnames st) p k mem = cluster_master_slave_mapping_with_name (Some (named st)) p k mem.
Proof. destruct (nnames st); [done | apply mapping_none]. Qed.

Lemma mapping_master seen names mem d : names_ok seen names mem -> zlen seen < 2 ^ 28 -> zlen (dname d) <= INT_MAX -> dmaster d = None ->
  (~ Exists (is_master (dname d)) seen) -> let mem1 := mem ++ [desc_node d REDIS_ROLE_MASTER] in
  exists names' mem', cluster_master_slave_mapping_with_name (Some names) (length mem) (dname d) mem1 = ret (names', mem') /\
    Dict.contents names' = <[dname d := length mem]> (Dict.contents names) /\ names_ok (seen ++ [d]) names' mem' /\ keeps mem1 mem' /\
    exists n, mem' !! length mem = Some n /\ migrating n = None /\ importing n = None.
Proof.
  intros Hok Hz Hn Hd Hno mem1. assert (mkey d = dname d) as Hkey by (unfold mkey; by rewrite Hd).
  assert (mem1 = mem ++ [desc_node d (role_of d)]) as Em by (unfold mem1, role_of; by rewrite Hd). rewrite Em, <- Hkey. rewrite <- Hkey in Hn.
  destruct (Dict.contents names !! mkey d) as [q|] eqn:Eq.
  - destruct (mapping_promote Hmem seen names mem d q Hok Hd Hno Eq) as (names' & mem' & E & Hc & Hok' & Hk & _ & Hn'). by exists names', mem'.
  - destruct (mapping_new Hmem seen names mem d Hok Hz Hn Eq) as (names' & E & Hc & Hok'). eexists names', _. split_and!; try done.
    eexists. by rewrite list_lookup_middle.
Qed.

Lemma mark_spec me p mem n : mem !! p = Some n -> exists mem' n', mark me p mem = Some mem' /\ keeps mem mem' /\ links mem mem' /\
  mem' !! p = Some n' /\ migrating n' = migrating n /\ importing n' = importing n.
Proof.
  intros Hn. unfold mark. destruct me; [|exists mem, n; by split_and!]. rewrite Hn. cbn [mbind option_bind]. eexists _, (with_myself n).
  split_and!; [done | by eapply keeps_set | by eapply links_set | apply list_lookup_insert_eq; by eapply lookup_lt_Some | done..].
Qed.

Lemma master_snoc seen d : master_descs (seen ++ [d]) = master_descs seen ++ (if decide (dmaster d = None) then [d] else []).
Proof.
  unfold master_descs. by rewrite filter_app.
Qed.

Lemma distinct_new seen d : distinct (seen ++ [d]) -> dmaster d = None ->
  (address (daddr d) ∉ map (fun d => address (daddr d)) (master_descs seen)) /\ ~ Exists (is_master (dname d)) seen.
Proof.
  intros [Ha Hn] Hd. rewrite master_snoc, decide_True, map_app in Ha, Hn by done. apply NoDup_app in Ha as (_ & Ha & _), Hn as (_ & Hn & _). split.
  - intros Hin. apply (Ha _ Hin). left.
  - intros He. apply Exists_exists in He as (d' & Hd' & Hm & Hnm). apply (Hn (dname d)); [|left]. apply list_elem_of_fmap. exists d'.
    split; [done|]. by apply list_elem_of_filter.
Qed.

Lemma drop_fields d : good_desc d -> drop 8 (fields d) = map range_text (dslots d) ++ map open_text (dopen d).
Proof. intros [_ _ _ _ _ [Hm _] _ _ _]. unfold fields. rewrite app_assoc, drop_app_exact; [done|]. rewrite length_app, Hm. done. Qed.

Lemma line_master_spec seen st d : read_lines seen st -> zlen seen < 2 ^ 28 -> zlen (dopen d) < 2 ^ 28 -> good_desc d -> dmaster d = None -> distinct (seen ++ [d]) ->
  exists st', line_master flags (fields d) (dmyself d) st = ret st' /\ read_lines (seen ++ [d]) st'.
Proof.
  intros [Hk Ha Hn Hopens] Hz Hzo Hg Hd Hdis. destruct (distinct_new seen d Hdis Hd) as [Hnew Hno]. pose proof Hg as [_ Hadr _ _ _ _ Hsl Hop Hline].
  unfold line_master. rewrite (node_get_nodes_spec Hmem d REDIS_ROLE_MASTER _ Hg). cbn [rbind ret]. rewrite list_lookup_middle by done. cbn [lift rbind ret].
  change (addr (desc_node d REDIS_ROLE_MASTER)) with (address (daddr d)). rewrite (key_copy_spec Hmem) by done. cbn [lift rbind ret].
  assert (Dict.contents (nnodes st) !! address (daddr d) = None) as Hnone.
  { destruct (Dict.contents (nnodes st) !! address (daddr d)) eqn:E; [|done]. exfalso. apply Hnew, Ha. eauto. }
  destruct (add_known Hmem (zlen seen) (regions_in seen) (state st) (daddr d) (Some (dname d)) Hk Hz Hadr Hnone) as (nodes & E & Hc & Hk1).
  cbn [pnodes pmem] in E, Hc, Hk1. rewrite E. cbn [lift rbind ret]. rewrite Z.eqb_refl. cbn [check rbind ret].
  set (mem1 := nmem st ++ [desc_node d REDIS_ROLE_MASTER]) in *. set (p := length (nmem st)) in *. specialize (Hk1 None).
  assert (exists names mem2 n2, (if with_slaves_flag then
       let* nm := lift (name (desc_node d REDIS_ROLE_MASTER)) in
       match cluster_master_slave_mapping_with_name (nnames st) p nm mem1 with
       | Some (inl (names, mem)) => ret (Some names, mem)
       | _ => None
       end
     else ret (nnames st, mem1)) = ret (names, mem2) /\ keeps mem1 mem2 /\ still mem1 mem2 /\ mem2 !! p = Some n2 /\ migrating n2 = None /\ importing n2 = None /\
     (with_slaves_flag = true -> names_ok (seen ++ [d]) (default Dict.dictInit names) mem2 /\
       Dict.contents (default Dict.dictInit names) = <[dname d := p]> (Dict.contents (named st))))
    as (names & mem2 & n2 & -> & Hk2 & Hs2 & Hp2 & Hmi2 & Him2 & Hn2).
  { destruct with_slaves_flag.
    - destruct (Hn eq_refl) as [Hok _]. change (name (desc_node d REDIS_ROLE_MASTER)) with (Some (dname d)). cbn [lift rbind ret].
      assert (zlen (dname d) <= INT_MAX) as Hzn by (etrans; [apply (field_part d); left | done]).
      destruct (mapping_master seen (named st) (nmem st) d Hok Hz Hzn Hd Hno) as (names & mem2 & Em & Hcn & Hok2 & Hk2 & n2 & Hp2 & Hmi & Him).
      rewrite mapping_named. fold mem1 p in Em. rewrite Em. pose proof (mapping_still _ _ _ _ _ _ Em). by exists (Some names), mem2, n2.
    - exists (nnames st), mem1, (desc_node d REDIS_ROLE_MASTER). split_and!; try done. unfold mem1, p. by rewrite list_lookup_middle. }
  cbn [rbind ret]. destruct (mark_spec (dmyself d) p mem2 n2 Hp2) as (mem3 & n3 & E3 & Hk3 & Hl3 & Hp3 & Hmi3 & Him3). rewrite E3. cbn [lift rbind ret].
  rewrite drop_fields by done.
  assert (Dict.contents nodes !! address (daddr d) = Some p) as Hcp by (by rewrite Hc, lookup_insert_eq).
  assert (known (zlen seen + 1) (regions_in seen) (mk_parse nodes mem3 None)) as Hkn3.
  { apply (known_keeps _ _ (mk_parse nodes mem1 None)); [exact Hk1 | etrans; [exact Hk2 | exact Hk3]]. }
  destruct (parse_ranges Hmem flags (daddr d) (map open_text (dopen d)) (dslots d) _ _ nodes mem3 p n3 Hkn3 Hcp Hp3 Hsl) as (mem4 & n4 & E4 & Hkn4 & Hl4 & Hp4 & Hmi4 & Him4).
  destruct (parse_opens Hmem flags (dopen d) mem4 p n4 [] [] Hop) as (mem5 & n5 & E5 & Hk5 & Hl5 & Hp5 & Hmi5 & Him5); try done.
  { rewrite Forall_forall. intros o Ho. etrans; [apply (field_part d) | done]. unfold fields. rewrite !elem_of_app. right. right. right.
    apply list_elem_of_fmap. by exists o. }
  { by rewrite Hmi4, Hmi3, Hmi2. }
  { by rewrite Him4, Him3, Him2. }
  rewrite E5 in E4. rewrite E4. cbn [rbind ret app] in *. eexists. split; [done|]. split; cbn [nnodes nnames nmem].
  - rewrite zlen_app. change (zlen [d]) with 1. unfold regions_in. rewrite flat_map_app. cbn [flat_map]. rewrite app_nil_r. unfold desc_regions at 2. rewrite Hd.
    by apply (known_keeps _ _ (mk_parse nodes mem4 None)).
  - intros a. rewrite master_snoc, decide_True, map_app, elem_of_app, <- Ha by done. cbn [map]. rewrite list_elem_of_singleton, Hc.
    destruct (decide (a = address (daddr d))) as [->|Hne]; [rewrite lookup_insert_eq; split; [by right | eauto]|]. rewrite lookup_insert_ne by done. tauto.
  - intros Hf. destruct (Hn2 Hf) as [Hok2 Hcn], (Hn Hf) as [_ Hm]. split; [apply (names_links _ _ mem2); [|done]; etrans; [exact Hl3|]; etrans; [exact Hl4 | exact Hl5]|].
    intros d' Hd' Hmd. rewrite Hc, Hcn. apply elem_of_app in Hd' as [Hd'|Hd'].
    + destruct (Hm d' Hd' Hmd) as (p' & H1 & H2). exists p'. rewrite !lookup_insert_ne; [done | |].
      * intros E'. apply Hno, Exists_exists. by exists d'.
      * intros E'. rewrite E' in Hnone. congruence.
    + apply list_elem_of_singleton in Hd' as ->. exists p. by rewrite !lookup_insert_eq.
  - intros d' Hd' Hmd. apply elem_of_app in Hd' as [Hd'|Hd']; [|apply list_elem_of_singleton in Hd' as ->; by exists p, n5].
    apply (opens_still (nnodes st) nodes (nmem st) mem5); [by apply Hopens | |].
    + intros a q Hq. rewrite Hc, lookup_insert_ne; [done|]. intros <-. congruence.
    + intros q n Hq. destruct (Hs2 q n) as (n' & Hn' & Hsame); [by apply lookup_app_l_Some|]. exists n'. split; [|done].
      assert (q <> p) by (apply lookup_lt_Some in Hq; unfold p; lia). by rewrite (parse_parts_others _ _ p q ltac:(done) _ _ E4), (mark_others _ _ _ _ q E3).
Qed.


(** Lines that are passed over. *)
Lemma read_more seen st d : read_lines seen st -> is_Some (dmaster d) -> with_slaves_flag = false -> read_lines (seen ++ [d]) st.
Proof.
  intros [Hk Ha Hn Hopens] [m Hd] Hf. split.
  - unfold regions_in. rewrite flat_map_app. cbn [flat_map]. rewrite app_nil_r. unfold desc_regions at 2. rewrite Hd, app_nil_r.
    eapply known_more; [exact Hk|]. rewrite zlen_app. zlen_pos. lia.
  - intros a. by rewrite master_snoc, decide_False, app_nil_r by (by rewrite Hd).
  - congruence.
  - intros d' Hd' Hmd. apply elem_of_app in Hd' as [Hd'|Hd']; [by apply Hopens | apply list_elem_of_singleton in Hd' as ->; congruence].
Qed.

Lemma line_slave_spec seen st d : read_lines seen st -> zlen seen < 2 ^ 28 -> good_desc d -> is_Some (dmaster d) -> with_slaves_flag = true ->
  exists st', line_slave (fields d) (dmyself d) st = ret st' /\ read_lines (seen ++ [d]) st'.
Proof.
  intros [Hk Ha Hn Hopens] Hz Hg [m Hd] Hf. destruct (Hn Hf) as [Hok Hm]. unfold line_slave.
  rewrite (node_get_nodes_spec Hmem d REDIS_ROLE_SLAVE _ Hg). cbn [rbind ret].
  assert (rd (fields d) 3 = Some (mkey d)) as -> by (unfold fields, mkey; by rewrite Hd). cbn [lift rbind ret]. rewrite mapping_named.
  assert (zlen (mkey d) <= INT_MAX) as Hzk.
  { etrans; [apply (field_part d) | apply Hg]. unfold fields, mkey. rewrite Hd. cbn. do 3 right. left. }
  assert (REDIS_ROLE_SLAVE = role_of d) as -> by (unfold role_of; by rewrite Hd).
  assert (exists names' mem', cluster_master_slave_mapping_with_name (Some (named st)) (length (nmem st)) (mkey d) (nmem st ++ [desc_node d (role_of d)]) = ret (names', mem') /\
    names_ok (seen ++ [d]) names' mem' /\ keeps (nmem st ++ [desc_node d (role_of d)]) mem' /\
    (forall k p, Dict.contents (named st) !! k = Some p -> Dict.contents names' !! k = Some p)) as (names' & mem' & Em & Hok' & Hk' & Hsub).
  { destruct (Dict.contents (named st) !! mkey d) as [q|] eqn:Eq.
    - destruct (mapping_slave Hmem seen (named st) (nmem st) d q Hok ltac:(eauto) Eq) as (mem' & E & Hok' & Hk' & _). by exists (named st), mem'.
    - destruct (mapping_new Hmem seen (named st) (nmem st) d Hok Hz Hzk Eq) as (names' & E & Hc & Hok'). eexists names', _. split_and!; try done.
      intros k p Hkp. rewrite Hc, lookup_insert_ne; [done|]. intros <-. congruence. }
  rewrite Em. cbn [rbind ret]. destruct (Hk' (length (nmem st)) (desc_node d (role_of d))) as (n & Hp & _); [by rewrite list_lookup_middle|].
  destruct (mark_spec (dmyself d) _ mem' n Hp) as (mem3 & n3 & E3 & Hk3 & Hl3 & _). rewrite E3. cbn [lift rbind ret]. eexists. split; [done|].
  assert (keeps (nmem st) mem3) as Hkk by (etrans; [apply keeps_app|]; etrans; [exact Hk' | exact Hk3]).
  split; cbn [nnodes nnames nmem default from_option].
  - unfold regions_in. rewrite flat_map_app. cbn [flat_map]. rewrite app_nil_r. unfold desc_regions at 2. rewrite Hd, app_nil_r.
    eapply known_more; [by apply (known_keeps _ _ (state st))|]. rewrite zlen_app. zlen_pos. lia.
  - intros a. by rewrite master_snoc, decide_False, app_nil_r by (by rewrite Hd).
  - intros _. split; [by eapply names_links|]. intros d' Hd' Hmd. apply elem_of_app in Hd' as [Hd'|Hd'].
    + destruct (Hm d' Hd' Hmd) as (p & H1 & H2). exists p. auto.
    + apply list_elem_of_singleton in Hd' as ->. congruence.
  - intros d' Hd' Hmd. apply elem_of_app in Hd' as [Hd'|Hd']; [|apply list_elem_of_singleton in Hd' as ->; congruence].
    apply (opens_still (nnodes st) _ (nmem st) mem3); [by apply Hopens | done |]. intros q n0 Hq.
    destruct (mapping_still _ _ _ _ _ _ Em q n0) as (n' & Hn' & Hsame); [by apply lookup_app_l_Some|]. exists n'. split; [|done].
    rewrite (mark_others _ _ _ _ q E3); [done|]. apply lookup_lt_Some in Hq. lia.
Qed.

Lemma starts_flags d : starts (bstr "myself,") (flags_text d) = dmyself d.
Proof.
  unfold starts, flags_text. destruct (dmyself d).
  - rewrite take_app_length. by rewrite bool_decide_true.
  - apply bool_decide_false. by destruct (dmaster d).
Qed.

Lemma role_text d : (if dmyself d then drop 7 (flags_text d) else flags_text d) = (match dmaster d with None => bstr "master" | Some _ => bstr "slave" end) ++ dmore d.
Proof. unfold flags_text. by destruct (dmyself d). Qed.

Lemma address_not_empty d : good_desc d -> address (daddr d) <> bstr ":0".
Proof.
  intros [_ Ha [_ Hc] _ _ _ _ _ _]. destruct Ha as [[Hh _] _]. unfold address. destruct ((daddr d).1) as [|c h]; [done|]. cbn [app].
  intros E. injection E as -> _. apply Hc. left.
Qed.

Lemma parse_line_spec seen st d rest : read_lines seen st -> zlen seen < 2 ^ 28 -> zlen (dopen d) < 2 ^ 28 -> good_desc d -> distinct (seen ++ [d]) ->
  exists st', parse_line flags (line_text d ++ rest) (zlen (line_text d)) st = ret st' /\ read_lines (seen ++ [d]) st'.
Proof.
  intros Hst Hz Hzo Hg Hdis. unfold parse_line, line_text. change (bstr " ") with [32].
  rewrite split_tokens; [|done|done| | |].
  2:{ eapply Forall_impl; [by apply fields_clean|]. by intros t [? _]. }
  2:{ unfold fields. cbn [app]. rewrite join_cons by done. by destruct (dname d). }
  2:{ exact (g_line d Hg). }
  cbn [lift rbind ret]. pose proof (fields_count d Hg). rewrite (proj2 (Z.ltb_ge _ _)) by lia.
  change (rd (fields d) 1) with (Some (address (daddr d))). change (rd (fields d) 2) with (Some (flags_text d)). cbn [lift rbind ret].
  rewrite bool_decide_false by (by apply address_not_empty). rewrite starts_flags, role_text.
  destruct (dmaster d) as [m|] eqn:Em.
  - replace (starts (bstr "master") (bstr "slave" ++ dmore d)) with false by (symmetry; by apply bool_decide_false).
    assert (starts (bstr "slave") (bstr "slave" ++ dmore d) = true) as -> by (unfold starts; rewrite take_app_length; by apply bool_decide_true).
    rewrite andb_true_r. destruct with_slaves_flag eqn:Ef.
    + by apply (line_slave_spec seen); rewrite ?Em.
    + exists st. split; [done|]. apply read_more; [done | by rewrite Em | done].
  - assert (starts (bstr "master") (bstr "master" ++ dmore d) = true) as -> by (unfold starts; rewrite take_app_length; by apply bool_decide_true).
    by apply (line_master_spec seen).
Qed.

(** The loop looks for the end of the line. *)
Lemma scan_line str end_ ls st suf : forall mid pre f, str = pre ++ mid ++ 10 :: suf -> (10 ∉ mid) -> zlen pre + zlen mid < end_ ->
  (length mid < f)%nat ->
  parse_text f flags str end_ (zlen pre) ls st =
    let* st := parse_line flags (drop (Z.to_nat ls) str) (zlen pre + zlen mid - ls) st in
    parse_text (f - length mid - 1) flags str end_ (zlen pre + zlen mid + 2) (zlen pre + zlen mid + 1) st.
Proof.
  induction mid as [|c mid IH]; intros pre f Hs Hno Hend Hf; (destruct f as [|f]; [simpl in Hf; lia|]); cbn [parse_text]; zlen_pos.
  - cbn [app] in Hs. rewrite (proj2 (Z.leb_gt _ _)) by (change (zlen (@nil Z)) with 0 in Hend; lia).
    assert (rd str (zlen pre) = Some 10) as -> by (rewrite Hs, rd_app_r by lia; by rewrite Z.sub_diag). cbn [lift rbind ret Z.eqb Pos.eqb].
    change (zlen (@nil Z)) with 0. rewrite Z.add_0_r. cbn [length]. by replace (S f - 0 - 1)%nat with f by lia.
  - rewrite zlen_cons in *. rewrite (proj2 (Z.leb_gt _ _)) by lia.
    assert (rd str (zlen pre) = Some c) as -> by (rewrite Hs, rd_app_r by lia; by rewrite Z.sub_diag). cbn [lift rbind ret].
    rewrite (proj2 (Z.eqb_neq c 10)) by set_solver. specialize (IH (pre ++ [c]) f). rewrite <- !app_assoc in IH. cbn [app] in IH.
    rewrite zlen_app in IH. change (zlen [c]) with 1 in IH. simpl in Hf. rewrite IH; [|done|set_solver|lia|lia].
    cbn [length]. replace (zlen pre + 1 + zlen mid) with (zlen pre + (1 + zlen mid)) by lia. done.
Qed.

Lemma join_clean ts : Forall clean ts -> 10 ∉ Sds.join_bytes [32] ts.
Proof.
  induction ts as [|t ts IH]; intros Hf; [apply not_elem_of_nil|]. apply Forall_cons in Hf as [[_ Ht] Hf].
  destruct ts as [|u ts]; [done|]. rewrite join_cons by done. specialize (IH Hf). set_solver.
Qed.

Lemma distinct_prefix seen d ds : distinct (seen ++ d :: ds) -> distinct (seen ++ [d]).
Proof.
  intros [Ha Hn]. replace (seen ++ d :: ds) with ((seen ++ [d]) ++ ds) in Ha, Hn by (by rewrite <- app_assoc).
  unfold distinct, master_descs in *. rewrite filter_app, map_app in Ha, Hn. apply NoDup_app in Ha as [Ha _], Hn as [Hn _]. done.
Qed.

Lemma parse_text_spec str suf ds : forall seen st pre f pos, str = pre ++ nodes_text ds ++ suf -> pos = zlen pre \/ pos = zlen pre + 1 ->
  read_lines seen st -> zlen seen + zlen ds < 2 ^ 28 -> Forall (fun d => zlen (dopen d) < 2 ^ 28) ds -> Forall good_desc ds -> distinct (seen ++ ds) ->
  (length (nodes_text ds) < f)%nat ->
  exists st', parse_text f flags str (zlen (pre ++ nodes_text ds)) pos (zlen pre) st = ret st' /\ read_lines (seen ++ ds) st'.
Proof.
  induction ds as [|d ds IH]; intros seen st pre f pos Hs Hpos Hst Hz Hzo Hg Hdis Hf.
  { exists st. cbn [nodes_text flat_map]. rewrite !app_nil_r. split; [|done]. destruct f as [|f]; [simpl in Hf; lia|]. cbn [parse_text].
    by rewrite (proj2 (Z.leb_le _ _)) by lia. }
  apply Forall_cons in Hg as [Hd Hg], Hzo as [Hzd Hzo]. cbn [nodes_text flat_map] in *. fold (nodes_text ds) in *. rewrite zlen_cons in Hz.
  rewrite <- (app_assoc (line_text d)) in Hs, Hf |- *. cbn [app] in Hs, Hf |- *. rewrite !length_app in Hf. cbn [length] in Hf. zlen_pos.
  destruct (parse_line_spec seen st d (10 :: nodes_text ds ++ suf) Hst ltac:(lia) Hzd Hd ltac:(by eapply distinct_prefix)) as (st1 & E1 & Hst1).
  assert (10 ∉ line_text d) as Hno by (apply join_clean; by apply fields_clean).
  assert (line_text d <> []) as Hnn. { unfold line_text, fields. cbn [app]. change (bstr " ") with [32]. rewrite join_cons by done. by destruct (dname d). }
  assert (str = pre ++ line_text d ++ 10 :: nodes_text ds ++ suf) as Hs' by (rewrite Hs; rewrite <- !app_assoc; done).
  assert (drop (Z.to_nat (zlen pre)) str = line_text d ++ 10 :: nodes_text ds ++ suf) as Hdrop by (rewrite Hs'; apply drop_app_exact; unfold zlen; lia).
  assert (exists f1, (length (nodes_text ds) < f1)%nat /\ parse_text f flags str (zlen (pre ++ line_text d ++ 10 :: nodes_text ds)) pos (zlen pre) st =
    parse_text f1 flags str (zlen (pre ++ line_text d ++ 10 :: nodes_text ds)) (zlen pre + zlen (line_text d) + 2) (zlen pre + zlen (line_text d) + 1) st1)
    as (f1 & Hf1 & ->).
  { destruct Hpos as [->| ->].
    - exists (f - length (line_text d) - 1)%nat. split; [lia|]. rewrite (scan_line str _ (zlen pre) st (nodes_text ds ++ suf) (line_text d) pre f); try done; [|zl|lia].
      rewrite Hdrop. replace (zlen pre + zlen (line_text d) - zlen pre) with (zlen (line_text d)) by lia. by rewrite E1.
    - destruct (line_text d) as [|c line] eqn:El; [done|]. exists (f - length line - 1)%nat. cbn [length] in Hf. split; [lia|].
      replace (zlen pre + 1) with (zlen (pre ++ [c])) by zl.
      rewrite (scan_line str _ (zlen pre) st (nodes_text ds ++ suf) line (pre ++ [c]) f); [|by rewrite Hs', <- app_assoc|set_solver|zl|lia].
      rewrite Hdrop. replace (zlen (pre ++ [c]) + zlen line - zlen pre) with (zlen (c :: line)) by zl. rewrite E1. cbn [rbind ret].
      f_equal; zl. }
  destruct (IH (seen ++ [d]) st1 (pre ++ line_text d ++ [10]) f1 (zlen pre + zlen (line_text d) + 2)) as (st2 & E2 & Hst2); try done.
  - rewrite Hs', <- !app_assoc. done.
  - right. zl.
  - zl.
  - by rewrite <- app_assoc.
  - exists st2. rewrite <- app_assoc in Hst2. split; [|done]. rewrite <- E2. rewrite <- !app_assoc. cbn [app]. f_equal; zl.
Qed.

End Text.

(** ** From the text to the route *)

Section Whole.
Context `{Memory}.

Lemma regions_good ds : Forall good_desc ds -> Forall good_region (regions_in ds).
Proof.
  induction 1 as [|d ds Hd _ IH]; [constructor|]. cbn [regions_in flat_map]. apply Forall_app_2; [|done].
  unfold desc_regions. destruct (dmaster d); [constructor|]. apply List.Forall_map. pose proof Hd as [_ Ha _ _ _ _ Hs _ _].
  eapply Forall_impl; [exact Hs|]. intros [a b] [? ?]. cbn [fst snd] in *. unfold good_region. cbn [region_of rstart rend rmaster rslaves fst snd].
  unfold REDIS_CLUSTER_SLOTS, INT_MAX in *. split_and!; try done; lia.
Qed.

Lemma regions_table ds : Forall good_desc ds -> in_table (regions_in ds).
Proof.
  induction 1 as [|d ds Hd _ IH]; [constructor|]. cbn [regions_in flat_map]. apply Forall_app_2; [|done].
  unfold desc_regions. destruct (dmaster d); [constructor|]. apply List.Forall_map. eapply Forall_impl; [apply Hd|]. by intros [a b] [_ ?].
Qed.

Lemma read_init flags : read_lines flags [] (mk_nparse Dict.dictInit None []).
Proof.
  split; cbn [nnodes nnames nmem default from_option].
  - split; cbn [pnodes pmem]; [apply Dict.wf_init | done | cbn; lia | |]; [intros a p Hp; done | intros r Hr; by apply elem_of_nil in Hr].
  - intros a. unfold Dict.contents. cbn. split; [by intros [? ?] | intros Hin; by apply elem_of_nil in Hin].
  - intros _. split; [apply names_init | intros d Hd; by apply elem_of_nil in Hd].
  - intros d Hd. by apply elem_of_nil in Hd.
Qed.

(** C20: the text of CLUSTER NODES becomes the routing table: the nodes, the slots they hold
    and are moving and their slaves are read from the lines of the text in any order, every
    slot is routed to the master that holds it (when two masters hold the same slot, the
    error path releases an iterator twice). When slaves are asked for, the slaves of every
    master are exactly the nodes that name it; when open slots are asked for, its arrays hold
    the slots that it is giving away and those that it is taking over, each with its number,
    direction and the name of the other node, in the order of the line, and otherwise none. *)
Theorem nodes_reply_routes (qsort : list (option cluster_slot) -> list (option cluster_slot)) (ds : list node_desc) (flags : Z)
    (Hmem : has_memory) (Hqsort : qsort_ok qsort) (Hgood : Forall good_desc ds) (Hdistinct : distinct ds)
    (Hslots : regions_in ds <> []) (Hfew : zlen ds < 2 ^ 28) (Hfew' : zlen (regions_in ds) < 2 ^ 30)
    (Hopen : Forall (fun d => zlen (dopen d) < 2 ^ 28) ds) :
  exists nodes mem, parse_cluster_nodes (nodes_text ds ++ [0]) (zlen (nodes_text ds)) flags = ret (nodes, mem) /\
    (if decide (no_overlap (regions_in ds))
     then exists a t, build_route qsort nodes mem = ret (a, t) /\ routed (regions_in ds) t mem
     else build_route qsort nodes mem = None) /\
    (flag flags HIRCLUSTER_FLAG_ADD_SLAVE = true -> forall d, d ∈ ds -> dmaster d = None ->
       exists p n, Dict.contents nodes !! address (daddr d) = Some p /\ mem !! p = Some n /\
         map (maddr mem) (default [] (slaves n)) ≡ₚ map Some (slaves_of (dname d) ds)) /\
    (forall d, d ∈ ds -> dmaster d = None -> exists p n, Dict.contents nodes !! address (daddr d) = Some p /\ mem !! p = Some n /\
       arr_ok (migrating n) (moved flags true p (dopen d)) /\ arr_ok (importing n) (moved flags false p (dopen d))).
Proof.
  destruct (parse_text_spec Hmem flags (nodes_text ds ++ [0]) [0] ds [] (mk_nparse Dict.dictInit None []) [] (S (Z.to_nat (zlen (nodes_text ds)))) 0)
    as (st & E & [Hk _ Hn Ho]); try done; [by left | apply read_init | unfold zlen; lia |]. cbn [app] in *. change (zlen (@nil Z)) with 0 in E.
  exists (nnodes st), (nmem st). split; [|split; [|split; [|exact Ho]]].
  - unfold parse_cluster_nodes, Dict.dictCreate. rewrite Hmem, E. done.
  - pose proof (known_routes qsort (zlen ds) (regions_in ds) (mk_parse (nnodes st) (nmem st) None) Hmem Hqsort Hk Hslots Hfew Hfew' (regions_good ds Hgood)) as Hr.
    by rewrite (decide_True _ _ (regions_table ds Hgood)) in Hr.
  - intros Hf d Hd Hm. destruct (Hn Hf) as [Hok Hmas]. destruct (Hmas d Hd Hm) as (p & Hp & Hnm).
    destruct (n_entry _ _ _ Hok _ _ Hnm) as (n & Hmn & [(_ & _ & Hl)|(Hro & _)]); [by exists p, n|]. exfalso.
    destruct (k_nodes _ _ _ Hk _ _ Hp) as (n' & Hn' & _ & _ & Hro' & _). cbn [pmem] in Hn'. rewrite Hmn in Hn'. injection Hn' as <-. rewrite Hro in Hro'. done.
Qed.

End Whole.

(** ** Concrete clusters *)

#[local] Existing Instance demo_memory.

#[local] Instance clean_dec t : Decision (clean t).
Proof. unfold clean. apply _. Defined.
#[local] Instance good_addr_dec' x : Decision (good_addr x).
Proof. unfold good_addr. apply _. Defined.
#[local] Instance good_open_dec o : Decision (good_open o).
Proof. unfold good_open. apply _. Defined.
#[local] Instance distinct_dec ds : Decision (distinct ds).
Proof. unfold distinct. apply _. Defined.

Definition demo_mid : list bytes := [bstr "0"; bstr "1426238316232"; bstr "3"; bstr "connected"].

(** A slave, its master, and a master that is moving a slot. *)
Definition demo_descs : list node_desc :=
  [mk_desc (bstr "07c3") (bstr "127.0.0.1", 30004) false (Some (bstr "e7d1")) [] demo_mid [] [];
   mk_desc (bstr "67ed") (bstr "127.0.0.1", 30002) false None [] demo_mid [(5461, 10922)] [(5463, true, bstr "e7d1")];
   mk_desc (bstr "e7d1") (bstr "127.0.0.1", 30001) true None [] demo_mid [(0, 5460); (10923, 10923)] []].

Lemma demo_descs_good : Forall good_desc demo_descs.
Proof. repeat apply Forall_cons_2; [| | |constructor]; split; decided. Qed.

Definition demo_flags : Z := Z.lor HIRCLUSTER_FLAG_ADD_SLAVE HIRCLUSTER_FLAG_ADD_OPENSLOT.

Lemma nodes_reply_routes_witness :
  no_overlap (regions_in demo_descs) /\ flag demo_flags HIRCLUSTER_FLAG_ADD_SLAVE = true /\ flag demo_flags HIRCLUSTER_FLAG_ADD_OPENSLOT = true /\
  exists nodes mem, parse_cluster_nodes (nodes_text demo_descs ++ [0]) (zlen (nodes_text demo_descs)) demo_flags = ret (nodes, mem) /\
    (if decide (no_overlap (regions_in demo_descs))
     then exists a t, build_route demo_qsort nodes mem = ret (a, t) /\ routed (regions_in demo_descs) t mem
     else build_route demo_qsort nodes mem = None) /\
    (flag demo_flags HIRCLUSTER_FLAG_ADD_SLAVE = true -> forall d, d ∈ demo_descs -> dmaster d = None ->
       exists p n, Dict.contents nodes !! address (daddr d) = Some p /\ mem !! p = Some n /\
         map (maddr mem) (default [] (slaves n)) ≡ₚ map Some (slaves_of (dname d) demo_descs)) /\
    (forall d, d ∈ demo_descs -> dmaster d = None -> exists p n, Dict.contents nodes !! address (daddr d) = Some p /\ mem !! p = Some n /\
       arr_ok (migrating n) (moved demo_flags true p (dopen d)) /\ arr_ok (importing n) (moved demo_flags false p (dopen d))).
Proof.
  split; [decided|]. split; [reflexivity|]. split; [reflexivity|].
  apply (nodes_reply_routes demo_qsort demo_descs demo_flags demo_has_memory demo_qsort_ok demo_descs_good);
    [decided | done | done | done | decided].
Defined.

(** A last line without its end is ignored: the master it describes is not in the dictionary. *)
Lemma last_line_ignored :
  exists nodes mem, parse_cluster_nodes (line_text (mk_desc (bstr "67ed") (bstr "h", 1) false None [] demo_mid [(0, 9)] []) ++ [0])
    (zlen (line_text (mk_desc (bstr "67ed") (bstr "h", 1) false None [] demo_mid [(0, 9)] []))) 0 = ret (nodes, mem) /\ Dict.used nodes = 0.
Proof. eexists _, _. split; vm_compute; reflexivity. Qed.

(** Two masters of the same name, where slaves are asked for: the second node is released
    while the dictionary holds it, and released again with the dictionary. *)
Lemma same_name_released_twice :
  parse_cluster_nodes (nodes_text [mk_desc (bstr "67ed") (bstr "h", 1) false None [] demo_mid [] []; mk_desc (bstr "67ed") (bstr "h", 2) false None [] demo_mid [] []] ++ [0])
    (zlen (nodes_text [mk_desc (bstr "67ed") (bstr "h", 1) false None [] demo_mid [] []; mk_desc (bstr "67ed") (bstr "h", 2) false None [] demo_mid [] []]))
    HIRCLUSTER_FLAG_ADD_SLAVE = None.
Proof. vm_compute. reflexivity. Qed.

End Nodes.
