(* ===== verification/Context.v ===== *)
(** Connections, hiredis.c: a context with its output buffer and its protocol reader over a
    socket, the commands that are appended to the one and the replies that are taken from
    the other, and the proof that whatever the socket does in between, every command gets
    its own reply. *)
From S2P Require Import Prelude Sds Read Format Reply.
Import Reply.

Open Scope Z_scope.

Module Context.

Definition REDIS_BLOCK : Z := 1.
Definition REDIS_CONNECTED : Z := 2.
Definition REDIS_ERR_TIMEOUT : Z := 7.
Definition EINTR : Z := 4.
Definition EAGAIN : Z := 11.
Definition EWOULDBLOCK : Z := EAGAIN.

Abbreviation reader := (Read.redisReader loc).
Abbreviation dfn := (Some defaultFunctions).

(** ** The socket *)

(** The answers of [write] and [read]: so many bytes taken, these bytes delivered (none at
    the end of the stream), or -1 with this [errno]. *)
Inductive wres := WBytes (k : Z) | WErr (errno : Z).
Inductive rres := RBytes (data : bytes) | RErr (errno : Z).

(** The answers to come, and what was written so far. *)
Record socket := mk_socket { wplan : list wres; rplan : list rres; sent : bytes }.

(** A call returns, or waits for an answer that does not come. *)
Inductive run (A : Type) := Ret (a : A) | Blocked.
Arguments Ret {A}. Arguments Blocked {A}.

Definition rbind {A B} (x : option (run A)) (k : A -> option (run B)) : option (run B) :=
  match x with
  | None => None
  | Some Blocked => Some Blocked
  | Some (Ret a) => k a
  end.
Notation "'let+' x := e 'in' k" := (rbind e (fun x => k)) (at level 10, x strict pattern, k at level 200).

(** ** redisContext *)

(** The fields in use; the descriptor is the socket, the addresses are not modelled. *)
Record redisContext := mk_context {
  cerr : Z;
  cerrstr : bytes;
  cflags : Z;
  obuf : option Sds.sds;
  creader : option reader;
}.

Definition with_obuf (c : redisContext) (b : option Sds.sds) : redisContext :=
  mk_context (cerr c) (cerrstr c) (cflags c) b (creader c).
Definition with_reader (c : redisContext) (r : reader) : redisContext :=
  mk_context (cerr c) (cerrstr c) (cflags c) (obuf c) (Some r).

Definition blocking (c : redisContext) : bool := negb (Z.land (cflags c) REDIS_BLOCK =? 0).

(** [__redisSetError] with a text. *)
Definition redisSetError (c : redisContext) (type : Z) (str : bytes) : redisContext :=
  mk_context type (take 127 str) (cflags c) (obuf c) (creader c).

Section Ops.
Context `{Memory}.

(** The C library's text for an [errno]. *)
Context (strerror : Z -> bytes).

(** What [vsnprintf] prints for a directive of a format. *)
Context (vsnprintf : bytes -> Format.farg -> bytes).

(** [sizeof(redisContext)]. *)
Definition context_size : Z := 224.

(** [redisContextInit]; on a failure what was created is released. *)
Definition redisContextInit (reader_ok : bool) : option (option redisContext) :=
  if negb (malloc_ok context_size) then Some None
  else
    b ← Sds.sdsempty;
    r ← redisReaderCreate reader_ok;
    match b, r with
    | Some b, Some r => Some (Some (mk_context 0 [] 0 (Some b) (Some r)))
    | _, _ => Some None
    end.

(** [redisConnectFd]. *)
Definition redisConnectFd (reader_ok : bool) : option (option redisContext) :=
  let? c := redisContextInit reader_ok in
  Some (Some (mk_context (cerr c) (cerrstr c) (Z.lor (cflags c) (Z.lor REDIS_BLOCK REDIS_CONNECTED)) (obuf c) (creader c))).

(** What the calls of net.c come to: a connected socket, or an error with its text. *)
Inductive cres := Connected (s : socket) | Failed (type : Z) (msg : bytes).

(** The effect on the context, and the socket. *)
Definition redisContextConnect (c : redisContext) (r : cres) : redisContext * socket :=
  match r with
  | Connected s => (mk_context (cerr c) (cerrstr c) (Z.lor (cflags c) REDIS_CONNECTED) (obuf c) (creader c), s)
  | Failed type msg => (redisSetError c type msg, mk_socket [] [] [])
  end.

(** [redisConnect]. *)
Definition redisConnect (reader_ok : bool) (r : cres) : option (option (redisContext * socket)) :=
  let? c := redisContextInit reader_ok in
  Some (Some (redisContextConnect (mk_context (cerr c) (cerrstr c) (Z.lor (cflags c) REDIS_BLOCK) (obuf c) (creader c)) r)).

(** [redisReconnect] of a context that was connected by an address: the reply under
    construction is released with the reader; the new buffer and reader are not tested. *)
Definition redisReconnect (c : redisContext) (reader_ok : bool) (r : cres) (h : heap) : option (redisContext * socket * heap) :=
  old ← creader c;
  h ← Read.redisReaderFree dfn old h;
  b ← Sds.sdsempty;
  x ← redisReaderCreate reader_ok;
  Some (redisContextConnect (mk_context 0 [] (cflags c) b x) r, h).

(** [redisFree]: the reply under construction is released with the reader. *)
Definition redisFree (c : redisContext) (h : heap) : option heap :=
  match creader c with None => Some h | Some r => Read.redisReaderFree dfn r h end.

(** What [read] and [write] do with an error; [true] is "try again later". *)
Definition io_error (c : redisContext) (errno : Z) : redisContext * bool :=
  if ((errno =? EAGAIN) && negb (blocking c)) || (errno =? EINTR) then (c, true)
  else if (errno =? EWOULDBLOCK) && blocking c then (redisSetError c REDIS_ERR_TIMEOUT (bstr "Socket timeout"), false)
  else (redisSetError c Read.REDIS_ERR_IO (strerror errno), false).

(** The buffer of [redisBufferRead]; [read] never delivers more. *)
Definition read_size : Z := 1024 * 16.

Definition redisBufferRead (c : redisContext) (h : heap) (s : socket) : option (run (Z * redisContext * heap * socket)) :=
  if negb (cerr c =? 0) then Some (Ret (Read.REDIS_ERR, c, h, s))
  else
    match rplan s with
    | [] => Some Blocked
    | RErr errno :: p =>
        let s := mk_socket (wplan s) p (sent s) in
        let '(c, again) := io_error c errno in
        Some (Ret ((if (again : bool) then Read.REDIS_OK else Read.REDIS_ERR), c, h, s))
    | RBytes data :: p =>
        let s := mk_socket (wplan s) p (sent s) in
        if read_size <? zlen data then None
        else if zlen data =? 0 then
          Some (Ret (Read.REDIS_ERR, redisSetError c Read.REDIS_ERR_EOF (bstr "Server closed the connection"), h, s))
        else
          r ← creader c;
          '(ret, r, h) ← Read.redisReaderFeed dfn r (Some data) h;
          let c := with_reader c r in
          if negb (ret =? Read.REDIS_OK) then Some (Ret (Read.REDIS_ERR, redisSetError c (Read.err r) (Read.errstr r), h, s))
          else Some (Ret (Read.REDIS_OK, c, h, s))
    end.

(** The length of a buffer that may be NULL. *)
Definition obuf_len (c : redisContext) : option Z := Sds.sdslen <$> obuf c.

Definition redisBufferWrite (c : redisContext) (s : socket) : option (run (Z * redisContext * socket * bool)) :=
  if negb (cerr c =? 0) then Some (Ret (Read.REDIS_ERR, c, s, false))
  else
    b ← obuf c;
    if 0 <? Sds.sdslen b then
      match wplan s with
      | [] => Some Blocked
      | WErr errno :: p =>
          let s := mk_socket p (rplan s) (sent s) in
          let '(c, again) := io_error c errno in
          if (again : bool) then Some (Ret (Read.REDIS_OK, c, s, false)) else Some (Ret (Read.REDIS_ERR, c, s, false))
      | WBytes k :: p =>
          let n := i32 (Z.max 0 (Z.min k (Sds.sdslen b))) in
          let s := mk_socket p (rplan s) (sent s ++ take (Z.to_nat n) (Sds.buf b)) in
          c ← (if 0 <? n then
                 if n =? i32 (Sds.sdslen b) then e ← Sds.sdsempty; Some (with_obuf c e)
                 else b ← Sds.sdsrange b n (-1); Some (with_obuf c (Some b))
               else Some c);
          l ← obuf_len c;
          Some (Ret (Read.REDIS_OK, c, s, l =? 0))
      end
    else Some (Ret (Read.REDIS_OK, c, s, true)).

Definition redisGetReplyFromReader (c : redisContext) (h : heap) : option (Z * option (Read.vptr loc) * redisContext * heap) :=
  r ← creader c;
  '(ret, rep, r, h) ← Read.redisReaderGetReply dfn r h;
  let c := with_reader c r in
  if ret =? Read.REDIS_ERR then Some (Read.REDIS_ERR, rep, redisSetError c (Read.err r) (Read.errstr r), h)
  else Some (Read.REDIS_OK, rep, c, h).

(** [do ... while (!wdone)]: every round but the last takes an answer of the socket. *)
Fixpoint write_loop (fuel : nat) (c : redisContext) (s : socket) : option (run (Z * redisContext * socket)) :=
  match fuel with
  | O => None
  | S f =>
      let+ (ret, c, s, wdone) := redisBufferWrite c s in
      if ret =? Read.REDIS_ERR then Some (Ret (Read.REDIS_ERR, c, s))
      else if (wdone : bool) then Some (Ret (Read.REDIS_OK, c, s))
      else write_loop f c s
  end.

(** [do ... while (aux == NULL)]. *)
Fixpoint read_loop (fuel : nat) (c : redisContext) (h : heap) (s : socket) :
    option (run (Z * option (Read.vptr loc) * redisContext * heap * socket)) :=
  match fuel with
  | O => None
  | S f =>
      let+ (ret, c, h, s) := redisBufferRead c h s in
      if ret =? Read.REDIS_ERR then Some (Ret (Read.REDIS_ERR, None, c, h, s))
      else
        '(ret, aux, c, h) ← redisGetReplyFromReader c h;
        if ret =? Read.REDIS_ERR then Some (Ret (Read.REDIS_ERR, None, c, h, s))
        else match aux with
             | Some _ => Some (Ret (Read.REDIS_OK, aux, c, h, s))
             | None => read_loop f c h s
             end
  end.

Definition redisGetReply (c : redisContext) (h : heap) (s : socket) :
    option (run (Z * option (Read.vptr loc) * redisContext * heap * socket)) :=
  '(ret, aux, c, h) ← redisGetReplyFromReader c h;
  if ret =? Read.REDIS_ERR then Some (Ret (Read.REDIS_ERR, None, c, h, s))
  else
    match aux with
    | Some _ => Some (Ret (Read.REDIS_OK, aux, c, h, s))
    | None =>
        if blocking c then
          let+ (ret, c, s) := write_loop (S (length (wplan s))) c s in
          if ret =? Read.REDIS_ERR then Some (Ret (Read.REDIS_ERR, None, c, h, s))
          else read_loop (S (length (rplan s))) c h s
        else Some (Ret (Read.REDIS_OK, None, c, h, s))
    end.

(** ** Commands *)

(** [__redisAppendCommand]. *)
Definition redisAppend (c : redisContext) (cmd : bytes) (len : Z) : option (Z * redisContext) :=
  b ← obuf c;
  match Sds.sdscatlen b cmd len with
  | None => None
  | Some None => Some (Read.REDIS_ERR, redisSetError c Read.REDIS_ERR_OOM (bstr "Out of memory"))
  | Some (Some nb) => Some (Read.REDIS_OK, with_obuf c (Some nb))
  end.

Definition redisAppendFormattedCommand (c : redisContext) (cmd : bytes) (len : Z) : option (Z * redisContext) :=
  '(ret, c) ← redisAppend c cmd len;
  if negb (ret =? Read.REDIS_OK) then Some (Read.REDIS_ERR, c) else Some (Read.REDIS_OK, c).

Definition redisvAppendCommand (c : redisContext) (format : bytes) (ap : list Format.farg) : option (Z * redisContext) :=
  r ← Format.redisvFormatCommand vsnprintf format ap;
  match r with
  | inl code =>
      if code =? -1 then Some (Read.REDIS_ERR, redisSetError c Read.REDIS_ERR_OOM (bstr "Out of memory"))
      else if code =? -2 then Some (Read.REDIS_ERR, redisSetError c Read.REDIS_ERR_OTHER (bstr "Invalid format string"))
      else None
  | inr (len, cmd) => redisAppendFormattedCommand c cmd (u64 len)
  end.

Definition redisAppendCommandArgv (c : redisContext) (argv : list bytes) (argvlen : option (list Z)) : option (Z * redisContext) :=
  match Format.redisFormatSdsCommandArgv argv argvlen with
  | None => None
  | Some None => Some (Read.REDIS_ERR, redisSetError c Read.REDIS_ERR_OOM (bstr "Out of memory"))
  | Some (Some (len, cmd)) =>
      if len =? -1 then Some (Read.REDIS_ERR, redisSetError c Read.REDIS_ERR_OOM (bstr "Out of memory"))
      else redisAppendFormattedCommand c (Sds.buf cmd) (u64 len)
  end.

(** [__redisBlockForReply]: the reply, [None] for NULL. *)
Definition redisBlockForReply (c : redisContext) (h : heap) (s : socket) :
    option (run (option (Read.vptr loc) * redisContext * heap * socket)) :=
  if blocking c then
    let+ (ret, reply, c, h, s) := redisGetReply c h s in
    if negb (ret =? Read.REDIS_OK) then Some (Ret (None, c, h, s)) else Some (Ret (reply, c, h, s))
  else Some (Ret (None, c, h, s)).

Definition redisvCommand (c : redisContext) (format : bytes) (ap : list Format.farg) (h : heap) (s : socket) :
    option (run (option (Read.vptr loc) * redisContext * heap * socket)) :=
  '(ret, c) ← redisvAppendCommand c format ap;
  if negb (ret =? Read.REDIS_OK) then Some (Ret (None, c, h, s)) else redisBlockForReply c h s.

Definition redisCommandArgv (c : redisContext) (argv : list bytes) (argvlen : option (list Z)) (h : heap) (s : socket) :
    option (run (option (Read.vptr loc) * redisContext * heap * socket)) :=
  '(ret, c) ← redisAppendCommandArgv c argv argvlen;
  if negb (ret =? Read.REDIS_OK) then Some (Ret (None, c, h, s)) else redisBlockForReply c h s.

End Ops.

(** ** The socket's answers *)

(** The plan of writes after [n] bytes were taken: interrupted calls are repeated. *)
Fixpoint takes (p : list wres) (n : Z) : option (list wres) :=
  if n <=? 0 then Some p
  else
    match p with
    | [] => None
    | WErr e :: p' => if e =? EINTR then takes p' n else None
    | WBytes k :: p' => takes p' (n - Z.max 0 k)
    end.

(** A plan of reads that delivers bytes, interrupted or not. *)
Definition delivery (x : rres) : Prop :=
  match x with RBytes d => 0 < zlen d <= read_size | RErr e => e = EINTR end.

Definition data (p : list rres) : bytes := flat_map (fun x => match x with RBytes d => d | RErr _ => [] end) p.

Lemma takes_nonpos p n : n <= 0 -> takes p n = Some p.
Proof. intros Hn. destruct p; cbn [takes]; by rewrite (proj2 (Z.leb_le _ _)) by lia. Qed.

Lemma eqb_nil (l : bytes) : (zlen l =? 0) = bool_decide (l = []).
Proof. destruct l as [|x l]; [done|]. rewrite zlen_cons, (proj2 (Z.eqb_neq _ _)) by (zlen_pos; lia). by rewrite bool_decide_false. Qed.

Lemma ok_not_err : (Read.REDIS_OK =? Read.REDIS_ERR) = false.
Proof. done. Qed.

Section Spec.
Context `{Memory} (Hmem : has_memory) (strerror : Z -> bytes).

(** A context without an error that blocks, with these bytes to be sent and a reader that is
    in the middle of its input. *)
Definition at_work (n : Z) (c : redisContext) (unsent : bytes) (st : list (Read.redisReadTask loc)) (rep : option (Read.vptr loc))
    (inp : bytes) (h : heap) : Prop :=
  cerr c = 0 /\ blocking c = true /\ (exists b, obuf c = Some b /\ Sds.repr b unsent) /\
  exists r, creader c = Some r /\ Read.ready dfn n r st rep inp h.

(** What is left in the output buffer after a write of [m] bytes. *)
Lemma obuf_rest c b unsent m : obuf c = Some b -> Sds.repr b unsent -> 0 <= m <= zlen unsent ->
  exists b', (if 0 <? m then
                if m =? i32 (zlen unsent) then e ← Sds.sdsempty; Some (with_obuf c e)
                else b ← Sds.sdsrange b m (-1); Some (with_obuf c (Some b))
              else Some c) = Some (with_obuf c (Some b')) /\ Sds.repr b' (drop (Z.to_nat m) unsent).
Proof.
  intros Ho Hr Hm. destruct (Sds.repr_range b unsent Hr) as (Hl0 & Hl1 & Hl2 & Hl3). rewrite Hl3 in *.
  rewrite (i32_small (zlen unsent)) by (unfold INT_MIN, INT_MAX in *; lia).
  destruct (Z.ltb_spec 0 m) as [Hpos|Hpos].
  - destruct (Z.eqb_spec m (zlen unsent)) as [->|Hne].
    + destruct (Sds.ok_or_oom_mem _ _ Hmem Sds.sdsempty_spec) as (e & -> & He). exists e. split; [done|].
      rewrite drop_ge by (unfold zlen; lia). done.
    + set (pre := take (Z.to_nat m) unsent). assert (zlen pre = m) as Hpre by (unfold pre, zlen in *; rewrite length_take; lia).
      rewrite <- (take_drop (Z.to_nat m) unsent) in Hr. fold pre in Hr.
      destruct (Read.sdsrange_drop b pre (drop (Z.to_nat m) unsent) Hr) as (b' & E & Hb').
      { unfold pre. rewrite take_drop. lia. }
      rewrite Hpre, i32_small in E by (unfold INT_MIN, INT_MAX in *; lia). rewrite E. by exists b'.
  - exists b. replace m with 0 by lia. rewrite drop_0. split; [|done]. by destruct c; cbn in *; subst.
Qed.

Lemma write_step c s n unsent st rep inp h k p : at_work n c unsent st rep inp h -> unsent <> [] -> wplan s = WBytes k :: p ->
  exists c', redisBufferWrite strerror c s = Some (Ret (Read.REDIS_OK, c', mk_socket p (rplan s) (sent s ++ take (Z.to_nat (Z.max 0 k)) unsent),
      bool_decide (drop (Z.to_nat (Z.max 0 k)) unsent = []))) /\
    at_work n c' (drop (Z.to_nat (Z.max 0 k)) unsent) st rep inp h.
Proof.
  intros (He & Hb & (b & Ho & Hr) & Hrd) Hne Hp. unfold redisBufferWrite. rewrite He, Ho, Hp. cbn [Z.eqb negb mbind option_bind].
  rewrite (Sds.sdslen_repr b unsent Hr). destruct (Sds.repr_range b unsent Hr) as (Hl0 & Hl1 & Hl2 & Hl3). rewrite Hl3 in *.
  assert (0 < zlen unsent) as Hl by (destruct unsent; [done|]; rewrite zlen_cons; zlen_pos; lia). rewrite (proj2 (Z.ltb_lt _ _)) by lia.
  set (m := Z.max 0 (Z.min k (zlen unsent))). rewrite (i32_small m) by (unfold INT_MIN, INT_MAX in *; lia).
  assert (take (Z.to_nat m) (Sds.buf b) = take (Z.to_nat (Z.max 0 k)) unsent /\ drop (Z.to_nat m) unsent = drop (Z.to_nat (Z.max 0 k)) unsent) as [Ht Hd].
  { destruct Hr as (t & -> & _). unfold m, zlen in *. rewrite take_app_le by lia.
    destruct (decide (k <= Z.of_nat (length unsent))); [by replace (Z.min k (Z.of_nat (length unsent))) with k by lia|].
    rewrite !take_ge, !drop_ge by lia. done. }
  destruct (obuf_rest c b unsent m Ho Hr ltac:(lia)) as (b' & -> & Hb'). cbn [mbind option_bind obuf_len with_obuf obuf fmap option_fmap option_map].
  rewrite Hd in Hb'. rewrite Ht, (Sds.sdslen_repr b' _ Hb'). eexists. split.
  - by rewrite eqb_nil.
  - split_and!; try done. by exists b'.
Qed.

Lemma write_loop_spec f : forall c s n unsent st rep inp h p, at_work n c unsent st rep inp h ->
  takes (wplan s) (zlen unsent) = Some p -> (length (wplan s) < f)%nat ->
  exists c', write_loop strerror f c s = Some (Ret (Read.REDIS_OK, c', mk_socket p (rplan s) (sent s ++ unsent))) /\ at_work n c' [] st rep inp h.
Proof.
  induction f as [|f IH]; intros c s n unsent st rep inp h p Hc Ht Hf; [lia|]. cbn [write_loop].
  destruct unsent as [|u us] eqn:Eu.
  - rewrite takes_nonpos in Ht by done. injection Ht as <-. pose proof Hc as (He & Hb & (b & Ho & Hr) & Hrd).
    unfold redisBufferWrite. rewrite He, Ho. cbn [Z.eqb negb mbind option_bind]. rewrite (Sds.sdslen_repr b [] Hr). cbn [Z.ltb zlen length Z.of_nat Z.compare rbind].
    exists c. rewrite app_nil_r. by destruct s.
  - rewrite <- Eu in *. assert (0 < zlen unsent) as Hl by (rewrite Eu, zlen_cons; zlen_pos; lia).
    destruct (wplan s) as [|[k|e] p0] eqn:Ep; cbn [takes] in Ht; rewrite (proj2 (Z.leb_gt _ _)) in Ht by lia; [done| |].
    + destruct (write_step c s n unsent st rep inp h k p0 Hc ltac:(by rewrite Eu) Ep) as (c' & -> & Hc'). cbn [rbind]. rewrite (proj2 (Z.eqb_neq _ _)) by done.
      set (us' := drop (Z.to_nat (Z.max 0 k)) unsent) in *. destruct (bool_decide (us' = [])) eqn:Ed.
      * apply bool_decide_eq_true in Ed. rewrite Ed in Hc'. exists c'. split; [|done].
        assert (zlen unsent <= Z.max 0 k) as Hle. { unfold us' in Ed. apply (f_equal (@length Z)) in Ed. rewrite length_drop in Ed. unfold zlen. simpl in Ed. lia. }
        rewrite takes_nonpos in Ht by lia. injection Ht as <-. rewrite take_ge by (unfold zlen in Hle; lia). done.
      * apply bool_decide_eq_false in Ed.
        assert (zlen us' = zlen unsent - Z.max 0 k) as Hz.
        { unfold us', zlen. rewrite length_drop. assert (length us' <> 0%nat) by (by destruct us'). unfold us' in *. rewrite length_drop in *. lia. }
        destruct (IH c' (mk_socket p0 (rplan s) (sent s ++ take (Z.to_nat (Z.max 0 k)) unsent)) n us' st rep inp h p Hc') as (c2 & E & Hc2).
        { cbn [wplan]. by rewrite Hz. }
        { cbn [wplan]. simpl in Hf. lia. }
        rewrite E. exists c2. cbn [sent rplan]. rewrite <- app_assoc. unfold us'. by rewrite take_drop.
    + destruct (Z.eqb_spec e EINTR) as [->|]; [|done]. pose proof Hc as (He & Hb & (b & Ho & Hr) & Hrd).
      unfold redisBufferWrite at 1. rewrite He, Ho, Ep. cbn [Z.eqb negb mbind option_bind]. rewrite (Sds.sdslen_repr b unsent Hr), (proj2 (Z.ltb_lt _ _)) by lia.
      unfold io_error. rewrite Z.eqb_refl, orb_true_r. cbn [rbind]. rewrite ok_not_err.
      destruct (IH c (mk_socket p0 (rplan s) (sent s)) n unsent st rep inp h p Hc Ht) as (c2 & E & Hc2); [cbn [wplan]; simpl in Hf; lia|].
      rewrite E. by exists c2.
Qed.


(** ** Replies *)

(** What the stream holds for a parser in this state: these replies, and then this state. *)
Abbreviation holds st rep inp h outs d := (Read.pump_all dfn (Read.norm st) rep inp h = Some (outs, d)).

Lemma arun_hungry_length f : forall st rep inp h st' rep' i h', Read.arun dfn f st rep inp h = Some (Read.RHungry st' rep' i h') -> (length i <= length inp)%nat.
Proof.
  induction f as [|f IH]; intros st rep inp h st' rep' i h'; [done|]. cbn [Read.arun].
  destruct (Read.astep dfn st rep inp h) as [[st1 i1|st1 rep1 i1 w1|ty str w1]|] eqn:E; try done; cbn [mbind option_bind].
  - intros [= <- <- <- <-]. by apply Read.astep_starves in E.
  - apply Read.astep_consumes in E. destruct st1 as [|t st1]; [by destruct rep1|]. intros ?%IH. lia.
  - by destruct (Read.free_reply dfn rep w1).
Qed.

Lemma arun_fuel f : forall g st rep inp h, (length inp < f)%nat -> (length inp < g)%nat -> Read.arun dfn f st rep inp h = Read.arun dfn g st rep inp h.
Proof.
  induction f as [|f IH]; intros [|g] st rep inp h Hf Hg; try lia. cbn [Read.arun].
  destruct (Read.astep dfn st rep inp h) as [[st1 i1|st1 rep1 i1 w1|ty str w1]|] eqn:E; try done. cbn [mbind option_bind].
  apply Read.astep_consumes in E. destruct st1 as [|t st1]; [done|]. apply IH; lia.
Qed.

(** More input behind what is parsed. *)
Lemma arun_app f : forall st rep inp k h, (length (inp ++ k) < f)%nat ->
  Read.arun dfn f st rep (inp ++ k) h =
  match Read.arun dfn f st rep inp h with
  | Some (Read.RDone v i h') => Some (Read.RDone v (i ++ k) h')
  | Some (Read.RHungry st' rep' i h') => Read.arun dfn f st' rep' (i ++ k) h'
  | o => o
  end.
Proof.
  induction f as [|f IH]; intros st rep inp k h Hf; [lia|]. rewrite length_app in Hf. cbn [Read.arun]. rewrite Read.astep_app.
  destruct (Read.astep dfn st rep inp h) as [[st1 i1|st1 rep1 i1 w1|ty str w1]|] eqn:E; try done; cbn [mbind option_bind].
  - apply Read.astep_consumes in E. destruct st1 as [|t st1]; [by destruct rep1|]. rewrite IH by (rewrite length_app; lia).
    pose proof (arun_hungry_length f (t :: st1) rep1 i1 w1) as Hl. destruct (Read.arun dfn f (t :: st1) rep1 i1 w1) as [[| |]|]; try done.
    specialize (Hl _ _ _ _ eq_refl). by apply (arun_fuel f (S f)); rewrite length_app; lia.
  - by destruct (Read.free_reply dfn rep w1).
Qed.

(** The next reply ends where [y] begins, with the heap [hy]. *)
Definition leaves (st : list (Read.redisReadTask loc)) (rep : option (Read.vptr loc)) (inp : bytes) (h : heap) (y : bytes) (hy : heap) : Prop :=
  forall v i h', Read.arun dfn (S (length inp)) (Read.norm st) rep inp h = Some (Read.RDone v i h') -> i = y /\ h' = hy.

Lemma leaves_done st rep inp k h y hy v i h' : leaves st rep (inp ++ k) h y hy -> Read.arun dfn (S (length inp)) (Read.norm st) rep inp h = Some (Read.RDone v i h') -> i ++ k = y /\ h' = hy.
Proof.
  intros Hy E. apply (Hy v). rewrite arun_app by lia. rewrite (arun_fuel _ (S (length inp))) by (rewrite ?length_app; lia). by rewrite E.
Qed.

Lemma leaves_hungry st rep inp k h y hy st' rep' i h' : leaves st rep (inp ++ k) h y hy ->
  Read.arun dfn (S (length inp)) (Read.norm st) rep inp h = Some (Read.RHungry (Read.norm st') rep' i h') -> leaves st' rep' (i ++ k) h' y hy.
Proof.
  intros Hy E v j hj Ej. apply (Hy v). pose proof (arun_hungry_length _ _ _ _ _ _ _ _ _ E) as Hl. rewrite arun_app by lia.
  rewrite (arun_fuel _ (S (length inp))) by (rewrite ?length_app; lia). rewrite E.
  by rewrite (arun_fuel _ (S (length (i ++ k)))) by (rewrite ?length_app in *; lia).
Qed.

(** One attempt to take a reply from the reader, whatever the state of the context. *)
Lemma take_reply c r n st rep inp h rest outs d : creader c = Some r -> Read.ready dfn n r st rep inp h -> n <= INT_MAX ->
  holds st rep (inp ++ rest) h outs d -> (forall ty str w, d <> Read.Dead ty str w) ->
  (exists v outs' r' h' inp', outs = v :: outs' /\ redisGetReplyFromReader c h = Some (Read.REDIS_OK, Some v, with_reader c r', h') /\
    Read.ready dfn n r' [] None inp' h' /\ holds [] None (inp' ++ rest) h' outs' d /\ (length inp' < length inp)%nat /\
    forall y hy, leaves st rep (inp ++ rest) h y hy -> inp' ++ rest = y /\ h' = hy) \/
  (exists r' st' rep' inp' h', redisGetReplyFromReader c h = Some (Read.REDIS_OK, None, with_reader c r', h') /\ Read.ready dfn n r' st' rep' inp' h' /\
    holds st' rep' (inp' ++ rest) h' outs d /\ Read.astep dfn (Read.norm st') rep' inp' h' = Some (Read.Starve (Read.norm st') inp') /\
    forall y hy, leaves st rep (inp ++ rest) h y hy -> leaves st' rep' (inp' ++ rest) h' y hy).
Proof.
  intros Hr Hrd Hn Hh Hd. unfold redisGetReplyFromReader. rewrite Hr. cbn [mbind option_bind].
  pose proof (Read.getreply_sim dfn n Hn r st rep inp h Hrd) as Hg. rewrite Read.pump_app in Hh.
  unfold Read.pump_all in Hh at 1. rewrite Read.pump_arun in Hh by lia.
  destruct (Read.arun dfn (S (length inp)) (Read.norm st) rep inp h) as [[v inp' w'|st' rep' inp' w'|ty str w']|] eqn:Er.
  - destruct Hg as (r' & -> & Hr'). cbn [mbind option_bind]. rewrite ok_not_err. left.
    pose proof (Read.pump_app dfn [Read.root_task] None inp' rest w') as Hpa.
    assert (forall y hy, leaves st rep (inp ++ rest) h y hy -> inp' ++ rest = y /\ w' = hy) as Hy by (intros y hy Hy; by eapply leaves_done).
    apply Read.arun_done in Er. rewrite Read.resume_cons, <- Hpa in Hh.
    destruct (Read.pump_all dfn [Read.root_task] None (inp' ++ rest) w') as [[outs' d']|] eqn:Ep; [|done]. cbn [mbind option_bind] in Hh. injection Hh as <- <-.
    by exists v, outs', r', w', inp'.
  - destruct Hg as (r' & st2 & -> & Hr' & <- & Hst). cbn [mbind option_bind]. rewrite ok_not_err. right.
    exists r', st2, rep', inp', w'. split_and!; try done; [|intros y hy Hy; by eapply leaves_hungry].
    unfold Read.resume in Hh. cbn [mbind option_bind] in Hh.
    destruct (Read.pump_all dfn (Read.norm st2) rep' (inp' ++ rest) w') as [[o2 d2]|]; [|done]. cbn [mbind option_bind app] in Hh. congruence.
  - unfold Read.resume in Hh. cbn [mbind option_bind] in Hh. injection Hh as _ <-. by destruct (Hd ty str w').
  - done.
Qed.

Lemma from_reader c n unsent st rep inp h rest outs d : at_work n c unsent st rep inp h -> n <= INT_MAX ->
  holds st rep (inp ++ rest) h outs d -> (forall ty str w, d <> Read.Dead ty str w) ->
  (exists v outs' c' h' inp', outs = v :: outs' /\ redisGetReplyFromReader c h = Some (Read.REDIS_OK, Some v, c', h') /\
    at_work n c' unsent [] None inp' h' /\ holds [] None (inp' ++ rest) h' outs' d /\ inp <> [] /\ forall y hy, leaves st rep (inp ++ rest) h y hy -> inp' ++ rest = y /\ h' = hy) \/
  (exists c' st' rep' inp' h', redisGetReplyFromReader c h = Some (Read.REDIS_OK, None, c', h') /\ at_work n c' unsent st' rep' inp' h' /\
    holds st' rep' (inp' ++ rest) h' outs d /\ Read.astep dfn (Read.norm st') rep' inp' h' = Some (Read.Starve (Read.norm st') inp') /\
    forall y hy, leaves st rep (inp ++ rest) h y hy -> leaves st' rep' (inp' ++ rest) h' y hy).
Proof.
  intros (He & Hb & Ho & (r & Hr & Hrd)) Hn Hh Hd.
  destruct (take_reply c r n st rep inp h rest outs d Hr Hrd Hn Hh Hd) as
    [(v & outs' & r' & h' & inp' & Eo & E & Hr' & Hh' & Hl & Hy)|(r' & st' & rep' & inp' & h' & E & Hr' & Hh' & Hst & Hy)]; [left|right].
  - exists v, outs', (with_reader c r'), h', inp'. split_and!; try done; [split_and!; try done; by exists r' | by intros ->; simpl in Hl; lia].
  - exists (with_reader c r'), st', rep', inp', h'. split_and!; try done. split_and!; try done. by exists r'.
Qed.

(** A delivery is fed to the reader. *)
Lemma read_step c s n st rep inp h k p : at_work n c [] st rep inp h -> rplan s = RBytes k :: p -> 0 < zlen k <= read_size ->
  Sds.fits (n + zlen k) -> 0 <= n -> Read.astep dfn (Read.norm st) rep inp h = Some (Read.Starve (Read.norm st) inp) ->
  exists c', redisBufferRead strerror c h s = Some (Ret (Read.REDIS_OK, c', h, mk_socket (wplan s) p (sent s))) /\
    at_work (n + zlen k) c' [] st rep (inp ++ k) h.
Proof.
  intros (He & Hb & Ho & (r & Hr & Hrd)) Hp Hk Hf Hn Hst. unfold redisBufferRead. rewrite He, Hp. cbn [Z.eqb negb].
  rewrite (proj2 (Z.ltb_ge _ _)), (proj2 (Z.eqb_neq _ _)) by lia. rewrite Hr. cbn [mbind option_bind].
  destruct (Read.feed_sim dfn n r st rep inp h h k Hmem Hf Hn Hrd Hst) as (r' & -> & Hr' & _). cbn [mbind option_bind].
  rewrite Z.eqb_refl. cbn [negb]. eexists. split; [done|]. split_and!; try done. by exists r'.
Qed.

(** One round of the read loop: a reply is complete, or the loop goes on with less to come. [p] is the part
    of the answers to come that is looked at. *)
Lemma read_round f c s n st rep inp h x p p' outs d : at_work n c [] st rep inp h ->
  Read.astep dfn (Read.norm st) rep inp h = Some (Read.Starve (Read.norm st) inp) -> rplan s = x :: p' -> delivery x ->
  holds st rep (inp ++ data (x :: p)) h outs d -> (forall ty str w, d <> Read.Dead ty str w) ->
  0 <= n -> Sds.fits (n + zlen (data (x :: p))) ->
  exists n', n' + zlen (data p) = n + zlen (data (x :: p)) /\ 0 <= n' /\
  ((exists v outs' c' h' inp', outs = v :: outs' /\
      read_loop strerror (S f) c h s = Some (Ret (Read.REDIS_OK, Some v, c', h', mk_socket (wplan s) p' (sent s))) /\
      at_work n' c' [] [] None inp' h' /\ holds [] None (inp' ++ data p) h' outs' d /\
      forall y hy, leaves st rep (inp ++ data (x :: p)) h y hy -> inp' ++ data p = y /\ h' = hy) \/
   (exists c' st' rep' inp' h', read_loop strerror (S f) c h s = read_loop strerror f c' h' (mk_socket (wplan s) p' (sent s)) /\
      at_work n' c' [] st' rep' inp' h' /\ holds st' rep' (inp' ++ data p) h' outs d /\
      Read.astep dfn (Read.norm st') rep' inp' h' = Some (Read.Starve (Read.norm st') inp') /\
      forall y hy, leaves st rep (inp ++ data (x :: p)) h y hy -> leaves st' rep' (inp' ++ data p) h' y hy)).
Proof.
  intros Hc Hst Ep Hx Hh Hd Hn Hf. cbn [read_loop].
  assert (exists n' c1 inp1, n' + zlen (data p) = n + zlen (data (x :: p)) /\ 0 <= n' /\ n' <= INT_MAX /\ inp ++ data (x :: p) = inp1 ++ data p /\
    redisBufferRead strerror c h s = Some (Ret (Read.REDIS_OK, c1, h, mk_socket (wplan s) p' (sent s))) /\ at_work n' c1 [] st rep inp1 h)
    as (n' & c1 & inp1 & Hz & Hn' & Hm & Ei & -> & Hc1).
  { destruct x as [k|e]; cbn [delivery data flat_map app] in *; fold (data p) in *.
    - rewrite zlen_app in *. zlen_pos.
      destruct (read_step c s n st rep inp h k p' Hc Ep Hx ltac:(unfold Sds.fits in *; lia) Hn Hst) as (c1 & E & Hc1).
      exists (n + zlen k), c1, (inp ++ k). split_and!; try done; [lia..| | by rewrite app_assoc].
      unfold Sds.fits, Sds.SDS_MAX_PREALLOC, INT_MAX in *. lia.
    - subst e. exists n, c, inp. pose proof Hc as (He & _). unfold redisBufferRead. rewrite He, Ep. cbn [Z.eqb negb].
      unfold io_error. rewrite Z.eqb_refl, orb_true_r. split_and!; try done. zlen_pos. unfold Sds.fits, Sds.SDS_MAX_PREALLOC, INT_MAX in *. lia. }
  exists n'. split_and!; try done. cbn [rbind]. rewrite ok_not_err. rewrite Ei in Hh |- *.
  destruct (from_reader c1 n' [] st rep inp1 h (data p) outs d Hc1 Hm Hh Hd) as
    [(v & outs' & c2 & h2 & inp2 & Eo & -> & Hc2 & Hh2 & _ & Hy)|(c2 & st2 & rep2 & inp2 & h2 & -> & Hc2 & Hh2 & Hst2 & Hy)];
    cbn [mbind option_bind]; rewrite ok_not_err; [left|right].
  - by exists v, outs', c2, h2, inp2.
  - by exists c2, st2, rep2, inp2, h2.
Qed.

(** [p] are the answers to come that matter, [q] the ones behind them. *)
Lemma read_loop_spec q f : forall c s p n st rep inp h v outs d, at_work n c [] st rep inp h ->
  Read.astep dfn (Read.norm st) rep inp h = Some (Read.Starve (Read.norm st) inp) -> rplan s = p ++ q -> Forall delivery p ->
  holds st rep (inp ++ data p) h (v :: outs) d -> (forall ty str w, d <> Read.Dead ty str w) ->
  0 <= n -> Sds.fits (n + zlen (data p)) -> (length p < f)%nat ->
  exists c' h' s' p' n' inp', read_loop strerror f c h s = Some (Ret (Read.REDIS_OK, Some v, c', h', s')) /\ at_work n' c' [] [] None inp' h' /\
    rplan s' = p' ++ q /\ Forall delivery p' /\ holds [] None (inp' ++ data p') h' outs d /\ wplan s' = wplan s /\ sent s' = sent s /\
    n' + zlen (data p') = n + zlen (data p) /\ 0 <= n' /\ forall y hy, leaves st rep (inp ++ data p) h y hy -> inp' ++ data p' = y /\ h' = hy.
Proof.
  induction f as [|f IH]; intros c s p n st rep inp h v outs d Hc Hst Ep Hpl Hh Hd Hn Hf Hfu; [lia|].
  destruct p as [|x p].
  - exfalso. cbn [data flat_map] in Hh. rewrite app_nil_r in Hh. unfold Read.pump_all in Hh. cbn [Read.pump] in Hh. by rewrite Hst in Hh.
  - apply Forall_cons in Hpl as [Hx Hpl]. simpl in Hfu.
    destruct (read_round f c s n st rep inp h x p (p ++ q) (v :: outs) d Hc Hst Ep Hx Hh Hd Hn Hf) as (n' & Hz & Hn' &
      [(v' & outs' & c2 & h2 & inp2 & [= <- <-] & -> & Hc2 & Hh2 & Hy)|(c2 & st2 & rep2 & inp2 & h2 & -> & Hc2 & Hh2 & Hst2 & Hy)]).
    + by eexists c2, h2, _, p, n', inp2.
    + destruct (IH c2 (mk_socket (wplan s) (p ++ q) (sent s)) p n' st2 rep2 inp2 h2 v outs d) as (c' & h' & s' & p' & n2 & inp' & -> & ? & ? & ? & ? & ? & ? & Hz2 & ? & Hy');
        try done; [congruence | lia|]. rewrite Hz in Hz2. exists c', h', s', p', n2, inp'. split_and!; try done. intros y hy Hl. by apply Hy', Hy.
Qed.

(** A context whose server closed the connection in the middle of a reply. *)
Definition closed (c : redisContext) (h : heap) : Prop :=
  exists c0 n st rep inp, c = redisSetError c0 Read.REDIS_ERR_EOF (bstr "Server closed the connection") /\ n <= INT_MAX /\
    at_work n c0 [] st rep inp h /\ Read.astep dfn (Read.norm st) rep inp h = Some (Read.Starve (Read.norm st) inp).

Lemma read_loop_closed f : forall c s n st rep inp h p q d, at_work n c [] st rep inp h ->
  Read.astep dfn (Read.norm st) rep inp h = Some (Read.Starve (Read.norm st) inp) -> rplan s = p ++ RBytes [] :: q -> Forall delivery p ->
  holds st rep (inp ++ data p) h [] d -> (forall ty str w, d <> Read.Dead ty str w) ->
  0 <= n -> Sds.fits (n + zlen (data p)) -> (length p < f)%nat ->
  exists c' h', read_loop strerror f c h s = Some (Ret (Read.REDIS_ERR, None, c', h', mk_socket (wplan s) q (sent s))) /\ closed c' h'.
Proof.
  induction f as [|f IH]; intros c s n st rep inp h p q d Hc Hst Ep Hpl Hh Hd Hn Hf Hfu; [lia|].
  destruct p as [|x p].
  - cbn [app] in Ep. pose proof Hc as (He & _). cbn [read_loop]. unfold redisBufferRead. rewrite He, Ep. eexists _, h. split; [done|].
    exists c, n, st, rep, inp. split_and!; try done. zlen_pos. unfold Sds.fits, Sds.SDS_MAX_PREALLOC, INT_MAX in *. lia.
  - apply Forall_cons in Hpl as [Hx Hpl]. simpl in Hfu.
    destruct (read_round f c s n st rep inp h x p (p ++ RBytes [] :: q) [] d Hc Hst Ep Hx Hh Hd Hn Hf) as (n' & Hz & Hn' &
      [(v' & outs' & c2 & h2 & inp2 & [=] & _)|(c2 & st2 & rep2 & inp2 & h2 & -> & Hc2 & Hh2 & Hst2 & _)]).
    apply (IH c2 (mk_socket (wplan s) (p ++ RBytes [] :: q) (sent s)) n' st2 rep2 inp2 h2 p q d); try done; [congruence | lia].
Qed.

(** [redisGetReply] returns the next reply of the stream, and writes before it reads. *)
Lemma get_reply_spec q c s p n unsent st rep inp h v outs d : at_work n c unsent st rep inp h -> rplan s = p ++ q -> Forall delivery p ->
  forall w, takes (wplan s) (zlen unsent) = Some w -> holds st rep (inp ++ data p) h (v :: outs) d ->
  (forall ty str w, d <> Read.Dead ty str w) -> 0 <= n -> Sds.fits (n + zlen (data p)) ->
  exists c' h' s' p' n' inp' unsent', redisGetReply strerror c h s = Some (Ret (Read.REDIS_OK, Some v, c', h', s')) /\
    at_work n' c' unsent' [] None inp' h' /\ rplan s' = p' ++ q /\ Forall delivery p' /\
    takes (wplan s') (zlen unsent') = Some w /\
    holds [] None (inp' ++ data p') h' outs d /\ sent s' ++ unsent' = sent s ++ unsent /\ (inp = [] \/ unsent = [] -> unsent' = []) /\
    (unsent' = unsent \/ unsent' = []) /\ n' + zlen (data p') = n + zlen (data p) /\ 0 <= n' /\ forall y hy, leaves st rep (inp ++ data p) h y hy -> inp' ++ data p' = y /\ h' = hy.
Proof.
  intros Hc Ep Hpl w Ht Hh Hd Hn Hf. unfold redisGetReply.
  destruct (from_reader c n unsent st rep inp h (data p) (v :: outs) d Hc) as
    [(v' & outs' & c2 & h2 & inp2 & Eo & -> & Hc2 & Hh2 & Hne & Hy)|(c2 & st2 & rep2 & inp2 & h2 & -> & Hc2 & Hh2 & Hst2 & Hy)]; try done.
  { unfold Sds.fits, Sds.SDS_MAX_PREALLOC in *. zlen_pos. lia. }
  - injection Eo as <- <-. cbn [mbind option_bind]. rewrite ok_not_err.
    exists c2, h2, s, p, n, inp2, unsent. split_and!; try done; [intros [|]; done | by left].
  - cbn [mbind option_bind]. rewrite ok_not_err.
    pose proof Hc2 as (_ & -> & _).
    destruct (write_loop_spec (S (length (wplan s))) c2 s n unsent st2 rep2 inp2 h2 w Hc2 Ht ltac:(lia)) as (c3 & -> & Hc3). cbn [rbind].
    rewrite ok_not_err. cbn [rplan].
    destruct (read_loop_spec q (S (length (rplan s))) c3 (mk_socket w (rplan s) (sent s ++ unsent)) p n st2 rep2 inp2 h2 v outs d)
      as (c' & h' & s' & p' & n' & inp' & -> & Hc' & Hr' & Hp' & Hh' & Hw & Hs & Hz & Hn' & Hy'); try done; [rewrite Ep, length_app; lia|].
    exists c', h', s', p', n', inp', []. cbn [rplan wplan sent] in *. rewrite app_nil_r. split_and!; try done.
    + rewrite takes_nonpos by done. by rewrite Hw.
    + by right.
    + intros y hy Hl. by apply Hy', Hy.
Qed.

(** ** Pipelines *)

(** A command of the client: its argument vector. *)
Abbreviation command := (list bytes * option (list Z))%type.

Fixpoint append_all (c : redisContext) (cmds : list command) : option (Z * redisContext) :=
  match cmds with
  | [] => Some (Read.REDIS_OK, c)
  | (argv, argvlen) :: cmds' =>
      '(ret, c) ← redisAppendCommandArgv c argv argvlen;
      if negb (ret =? Read.REDIS_OK) then Some (ret, c) else append_all c cmds'
  end.

Fixpoint get_replies (k : nat) (c : redisContext) (h : heap) (s : socket) :
    option (run (list (Read.vptr loc) * redisContext * heap * socket)) :=
  match k with
  | O => Some (Ret ([], c, h, s))
  | S k' =>
      let+ (ret, rep, c, h, s) := redisGetReply strerror c h s in
      match rep with
      | None => Some (Ret ([], c, h, s))
      | Some v => let+ (outs, c, h, s) := get_replies k' c h s in Some (Ret (v :: outs, c, h, s))
      end
  end.

Lemma append_raw c n unsent st rep inp h cmd text : at_work n c unsent st rep inp h -> take (length text) cmd = text ->
  Sds.fits (zlen unsent + zlen text + 1) ->
  exists c', redisAppend c cmd (zlen text) = Some (Read.REDIS_OK, c') /\ at_work n c' (unsent ++ text) st rep inp h.
Proof.
  intros (He & Hb & (b & Ho & Hr) & Hrd) Ht Hf. unfold redisAppend. rewrite Ho. cbn [mbind option_bind]. zlen_pos.
  assert (zlen text <= zlen cmd) by (rewrite <- Ht, zlen_take; unfold zlen; lia).
  destruct (Sds.ok_or_oom_mem _ _ Hmem (Sds.sdscatlen_spec b unsent cmd (zlen text) Hr ltac:(lia) ltac:(unfold Sds.fits in *; lia))) as (nb & -> & Hnb).
  eexists. split; [done|]. split_and!; try done. exists nb. split; [done|]. by replace (Z.to_nat (zlen text)) with (length text) in Hnb by (unfold zlen; lia); rewrite Ht in Hnb.
Qed.

Lemma append_spec c n unsent st rep inp h argv argvlen strs : at_work n c unsent st rep inp h -> Format.passed argv argvlen strs ->
  Sds.fits (zlen unsent + zlen (Format.encode strs) + 1) ->
  exists c', redisAppendCommandArgv c argv argvlen = Some (Read.REDIS_OK, c') /\ at_work n c' (unsent ++ Format.encode strs) st rep inp h.
Proof.
  intros Hc Hp Hf. unfold redisAppendCommandArgv, redisAppendFormattedCommand. zlen_pos.
  destruct (Format.redisFormatSdsCommandArgv_text argv argvlen strs Hmem Hp) as (t & -> & Ht); [unfold Sds.fits in *; lia|].
  assert (zlen (Format.encode strs) <= INT_MAX) by (unfold Sds.fits, Sds.SDS_MAX_PREALLOC in *; lia). unfold INT_MAX in *.
  rewrite (proj2 (Z.eqb_neq _ _)) by lia. rewrite uwrap_small by lia. destruct Ht as (tail & Htb & _).
  destruct (append_raw c n unsent st rep inp h (Sds.buf t) (Format.encode strs) Hc) as (c' & -> & Hc'); [by rewrite Htb, take_app_length | done|].
  cbn [mbind option_bind]. rewrite Z.eqb_refl. by exists c'.
Qed.

Lemma append_all_spec cmds texts : Forall2 (fun cmd strs => Format.passed cmd.1 cmd.2 strs) cmds texts ->
  forall c n unsent st rep inp h, at_work n c unsent st rep inp h -> Sds.fits (zlen unsent + zlen (flat_map Format.encode texts) + 1) ->
  exists c', append_all c cmds = Some (Read.REDIS_OK, c') /\ at_work n c' (unsent ++ flat_map Format.encode texts) st rep inp h.
Proof.
  induction 1 as [|[argv argvlen] strs cmds texts Hp _ IH]; intros c n unsent st rep inp h Hc Hf; cbn [append_all flat_map] in *.
  - exists c. by rewrite app_nil_r.
  - rewrite zlen_app in Hf. zlen_pos. cbn [fst snd] in Hp.
    destruct (append_spec c n unsent st rep inp h argv argvlen strs Hc Hp ltac:(unfold Sds.fits in *; lia)) as (c1 & -> & Hc1).
    cbn [mbind option_bind]. rewrite Z.eqb_refl. cbn [negb].
    destruct (IH c1 n _ st rep inp h Hc1) as (c2 & -> & Hc2); [rewrite zlen_app; by rewrite Z.add_assoc in Hf|].
    exists c2. by rewrite <- app_assoc in Hc2.
Qed.

Lemma get_replies_spec q outs : forall c s p n unsent inp h d, at_work n c unsent [] None inp h -> rplan s = p ++ q -> Forall delivery p ->
  is_Some (takes (wplan s) (zlen unsent)) -> holds [] None (inp ++ data p) h outs d ->
  (forall ty str w, d <> Read.Dead ty str w) -> 0 <= n -> Sds.fits (n + zlen (data p)) ->
  exists c' h' s' p' n' inp' unsent', get_replies (length outs) c h s = Some (Ret (outs, c', h', s')) /\
    at_work n' c' unsent' [] None inp' h' /\ rplan s' = p' ++ q /\ Forall delivery p' /\
    holds [] None (inp' ++ data p') h' [] d /\ sent s' ++ unsent' = sent s ++ unsent /\
    ((inp = [] /\ outs <> []) \/ unsent = [] -> unsent' = []) /\ n' + zlen (data p') = n + zlen (data p).
Proof.
  induction outs as [|v outs IH]; intros c s p n unsent inp h d Hc Ep Hpl [w Ht] Hh Hd Hn Hf; cbn [length get_replies].
  - exists c, h, s, p, n, inp, unsent. split_and!; try done. intros [[_ ?]|?]; done.
  - destruct (get_reply_spec q c s p n unsent [] None inp h v outs d Hc Ep Hpl w Ht Hh Hd Hn Hf)
      as (c1 & h1 & s1 & p1 & n1 & inp1 & un1 & -> & Hc1 & Ep1 & Hp1 & Ht1 & Hh1 & Hs1 & Hu1 & _ & Hz1 & Hn1 & _). cbn [rbind].
    destruct (IH c1 s1 p1 n1 un1 inp1 h1 d Hc1 Ep1 Hp1 ltac:(eauto) Hh1 Hd Hn1 ltac:(by rewrite Hz1))
      as (c2 & h2 & s2 & p2 & n2 & inp2 & un2 & -> & Hc2 & Ep2 & Hp2 & Hh2 & Hs2 & Hu2 & Hz2). cbn [rbind].
    exists c2, h2, s2, p2, n2, inp2, un2. split_and!; try done; [congruence | | lia].
    intros Hx. apply Hu2. right. apply Hu1. tauto.
Qed.

(** A parser that has begun a reply keeps it until the reply is complete. *)
Lemma pump_begun f : forall st rep inp h st' rep' inp' h', is_Some rep ->
  Read.pump dfn f st rep inp h = Some ([], Read.Live st' rep' inp' h') -> is_Some rep'.
Proof.
  induction f as [|f IH]; intros st rep inp h st' rep' inp' h' Hr; [done|]. cbn [Read.pump].
  destruct (Read.astep dfn st rep inp h) as [[s1 i1|s1 r1 i1 w1|ty str w1]|] eqn:E; try done; cbn [mbind option_bind].
  - by intros [= _ <- _ _].
  - destruct s1 as [|t s1]; [|apply IH; eapply Read.astep_rep; [|exact E]; by intros _]. destruct r1; [|done].
    by destruct (Read.pump dfn f [Read.root_task] None i1 w1) as [[? ?]|].
  - by destruct (Read.free_reply dfn rep w1).
Qed.

Lemma pump_untouched inp h h' : Read.pump_all dfn [Read.root_task] None inp h = Some ([], Read.Live [Read.root_task] None [] h') -> inp = [] /\ h' = h.
Proof.
  unfold Read.pump_all. cbn [Read.pump]. destruct (Read.astep dfn [Read.root_task] None inp h) as [[s1 i1|s1 r1 i1 w1|ty str w1]|] eqn:E; try done; cbn [mbind option_bind].
  - intros [= -> -> <-]. split; [|done]. destruct inp as [|b inp]; [done|]. cbn in E. destruct (Read.type_of_byte b) as [ty|] eqn:Eb; [|done].
    pose proof (Read.atyped_grows dfn (Read.set_type Read.root_task ty) [] None inp [] h) as Hg. rewrite E in Hg. cbn in Hg.
    destruct Hg as [[= ?] _]. apply Read.type_of_byte_nonneg in Eb. lia.
  - destruct s1 as [|t s1].
    + destruct r1; [|done]. by destruct (Read.pump _ _ _ _ _ _) as [[? ?]|].
    + intros Hp. apply pump_begun in Hp; [by destruct Hp|]. eapply Read.astep_rep; [|exact E]. unfold Read.rep_inv. cbn. lia.
Qed.

(** The bytes of a value are its reply, and no more. *)
Lemma leaves_value v k h : sendable 8 v -> exists l m, tree v l m /\ m ##ₘ h /\ leaves [] None (resp v ++ k) h k (m ∪ h) /\
  forall outs d, holds [] None k (m ∪ h) outs d -> holds [] None (resp v ++ k) h (Read.Obj l :: outs) d.
Proof.
  intros Hv. destruct (pump_values Hmem [v] h ltac:(by apply Forall_cons)) as (ls & m & Ep & Ht & Hd). cbn [flat_map] in Ep. rewrite app_nil_r in Ep.
  pose proof (trees_length _ _ _ Ht) as Hlen. rewrite length_map in Hlen. destruct ls as [|l [|? ?]]; [done| |done]. cbn [map] in *. exists l, m.
  assert (Read.arun dfn (S (length (resp v))) [Read.root_task] None (resp v) h = Some (Read.RDone (Read.Obj l) [] (m ∪ h))) as Ea.
  { unfold Read.pump_all in Ep. rewrite Read.pump_arun in Ep by lia. destruct (Read.arun _ _ _ _ _ _) as [[v' i w|st i w|ty str w]|]; try done.
    destruct (Read.pump_all dfn [Read.root_task] None i w) as [[outs d]|] eqn:E; [|done]. cbn [mbind option_bind] in Ep. injection Ep as -> -> ->.
    by apply pump_untouched in E as [-> ->]. }
  assert (Read.arun dfn (S (length (resp v ++ k))) [Read.root_task] None (resp v ++ k) h = Some (Read.RDone (Read.Obj l) k (m ∪ h))) as Ek.
  { rewrite arun_app by lia. rewrite (arun_fuel _ (S (length (resp v)))) by (rewrite ?length_app; lia). by rewrite Ea. }
  split_and!; try done.
  - inversion_clear Ht as [| |? ? ? ? ? ? H1 H2 _]. inversion_clear H2. by rewrite (right_id_L ∅ (∪)).
  - intros v' i h' E. cbn [Read.norm] in E. rewrite Ek in E. by injection E as _ <- <-.
  - intros outs d Hk. cbn [Read.norm] in *. unfold Read.pump_all at 1. rewrite Read.pump_arun by lia. by rewrite Ek, Hk.
Qed.

(** A context between two exchanges: nothing to send, nothing left to read. *)
Definition idle (n : Z) (c : redisContext) (h : heap) : Prop := at_work n c [] [] None [] h.

(** C4: commands get their replies: from an idle connection, whatever pieces the socket takes
    the commands in and delivers the replies in, and however often its calls are interrupted,
    the socket is given exactly the text of the commands in their order, and as many calls of
    [redisGetReply] return the trees of the values the server sent, in their order, touching
    no other block. *)
Theorem pipeline_roundtrip (c : redisContext) (cmds : list command) (texts : list (list bytes)) (vs : list value) (h : heap) (s : socket) (n : Z)
    (Hidle : idle n c h) (Hn : 0 <= n)
    (Hcmds : Forall2 (fun cmd strs => Format.passed cmd.1 cmd.2 strs) cmds texts)
    (Hroom : Sds.fits (zlen (flat_map Format.encode texts) + 1))
    (Hsend : Forall (sendable 8) vs) (Hreplies : vs <> [])
    (Hwrite : is_Some (takes (wplan s) (zlen (flat_map Format.encode texts))))
    (Hread : Forall delivery (rplan s)) (Hdata : data (rplan s) = flat_map resp vs) (Hfit : Sds.fits (n + zlen (data (rplan s)))) :
  exists c1 outs c2 s' m, append_all c cmds = Some (Read.REDIS_OK, c1) /\
    get_replies (length vs) c1 h s = Some (Ret (outs, c2, m ∪ h, s')) /\ replies outs vs m /\ m ##ₘ h /\
    sent s' = sent s ++ flat_map Format.encode texts /\ cerr c2 = 0.
Proof.
  destruct (append_all_spec cmds texts Hcmds c n [] [] None [] h Hidle Hroom) as (c1 & E1 & Hc1). cbn [app] in Hc1.
  destruct (pump_values Hmem vs h Hsend) as (ls & m & Ep & Ht & Hd). rewrite <- Hdata in Ep.
  destruct (get_replies_spec [] (map Read.Obj ls) c1 s (rplan s) n _ [] h _ Hc1 ltac:(by rewrite app_nil_r) Hread Hwrite Ep)
    as (c2 & h2 & s2 & p2 & n2 & inp2 & un2 & E2 & Hc2 & _ & Hp2 & Hh2 & Hs2 & Hu2 & Hz2); try done.
  assert (length (map Read.Obj ls) = length vs) as Hlen by (rewrite length_map; apply trees_length in Ht; by rewrite length_map in Ht).
  rewrite Hlen in E2. apply pump_untouched in Hh2 as [Hn2 <-].
  assert (un2 = []) as ->. { apply Hu2. left. split; [done|]. intros Hz. rewrite Hz in Hlen. by destruct vs. }
  exists c1, (map Read.Obj ls), c2, s2, m. split_and!; try done.
  - by exists ls.
  - by rewrite app_nil_r in Hs2.
  - apply Hc2.
Qed.


(** ** Lost connections *)

Lemma get_reply_closed c s n unsent h p q d : at_work n c unsent [] None [] h -> rplan s = p ++ RBytes [] :: q -> Forall delivery p ->
  is_Some (takes (wplan s) (zlen unsent)) -> holds [] None (data p) h [] d -> (forall ty str w, d <> Read.Dead ty str w) ->
  0 <= n -> Sds.fits (n + zlen (data p)) ->
  exists c' h' w', redisGetReply strerror c h s = Some (Ret (Read.REDIS_ERR, None, c', h', mk_socket w' q (sent s ++ unsent))) /\ closed c' h'.
Proof.
  intros Hc Ep Hpl [w' Ht] Hh Hd Hn Hf. unfold redisGetReply.
  destruct (from_reader c n unsent [] None [] h (data p) [] d Hc) as
    [(v' & outs' & c2 & h2 & inp2 & [=] & _)|(c2 & st2 & rep2 & inp2 & h2 & -> & Hc2 & Hh2 & Hst2 & _)]; try done.
  { zlen_pos. unfold Sds.fits, Sds.SDS_MAX_PREALLOC, INT_MAX in *. lia. }
  cbn [mbind option_bind]. rewrite ok_not_err. pose proof Hc2 as (_ & -> & _).
  destruct (write_loop_spec (S (length (wplan s))) c2 s n unsent st2 rep2 inp2 h2 w' Hc2 Ht ltac:(lia)) as (c3 & -> & Hc3). cbn [rbind].
  rewrite ok_not_err. cbn [rplan].
  destruct (read_loop_closed (S (length (rplan s))) c3 (mk_socket w' (rplan s) (sent s ++ unsent)) n st2 rep2 inp2 h2 p q d)
    as (c' & h' & -> & Hcl); try done; [rewrite Ep, length_app; simpl; lia|]. by exists c', h', w'.
Qed.

(** Nothing is read or written any more. *)
Lemma closed_inert c h s : closed c h ->
  exists c' h', redisGetReply strerror c h s = Some (Ret (Read.REDIS_ERR, None, c', h', s)) /\ closed c' h'.
Proof.
  intros (c0 & n & st & rep & inp & -> & Hn & Hc & Hst). pose proof Hc as (He & Hb & Ho & (r & Hr & Hrd)).
  unfold redisGetReply, redisGetReplyFromReader. cbn [redisSetError creader]. rewrite Hr. cbn [mbind option_bind].
  pose proof (Read.getreply_sim dfn n Hn r st rep inp h Hrd) as Hg. cbn [Read.arun] in Hg. rewrite Hst in Hg. cbn [mbind option_bind] in Hg.
  destruct Hg as (r' & st2 & -> & Hr' & Hnst & Hst2). cbn [mbind option_bind]. rewrite ok_not_err. cbn [mbind option_bind]. rewrite ok_not_err.
  unfold blocking in *. cbn [with_reader redisSetError cflags]. rewrite Hb.
  cbn [write_loop]. unfold redisBufferWrite. cbn [with_reader redisSetError cerr Z.eqb negb rbind]. cbn [Read.REDIS_ERR_EOF Z.eqb negb rbind].
  eexists _, h. split; [done|]. exists (with_reader c0 r'), n, st2, rep, inp. rewrite Hnst. split_and!; try done.
  split_and!; try done. by exists r'.
Qed.

(** Less than a whole reply. *)
Lemma prefix_open x y h o h' : Read.pump_all dfn [Read.root_task] None (x ++ y) h = Some ([o], Read.Live [Read.root_task] None [] h') -> y <> [] ->
  exists d, Read.pump_all dfn [Read.root_task] None x h = Some ([], d) /\ forall ty str w, d <> Read.Dead ty str w.
Proof.
  intros Hp Hy. rewrite Read.pump_app in Hp. unfold Read.pump_all in Hp at 1 |- *. rewrite Read.pump_arun in Hp |- * by lia.
  destruct (Read.arun _ _ _ _ _ _) as [[v i w|st i w|ty str w]|]; [|by eexists|done..].
  rewrite Read.resume_cons, <- Read.pump_app in Hp.
  destruct (Read.pump_all dfn [Read.root_task] None (i ++ y) w) as [[outs d]|] eqn:E; [|done]. cbn [mbind option_bind] in Hp.
  injection Hp as -> -> ->. apply pump_untouched in E as [E _]. by destruct (app_eq_nil _ _ E) as [_ ->].
Qed.

(** C37: a connection closed within a reply is an error once and for all: the command is sent
    in full, the caller gets NULL and the context reports the end of the stream; whatever the
    socket would do, a later [redisGetReply] fails without touching it. *)
Theorem connection_lost (c : redisContext) (argv : list bytes) (argvlen : option (list Z)) (strs : list bytes) (v : value) (h : heap) (s : socket)
    (n : Z) (p q : list rres) (missing : bytes) (Hidle : idle n c h) (Hn : 0 <= n)
    (Hargs : Format.passed argv argvlen strs) (Hroom : Sds.fits (zlen (Format.encode strs) + 1))
    (Hwrite : is_Some (takes (wplan s) (zlen (Format.encode strs))))
    (Hread : rplan s = p ++ RBytes [] :: q) (Hp : Forall delivery p)
    (Hsend : sendable 8 v) (Hcut : data p ++ missing = resp v) (Hmissing : missing <> []) (Hfit : Sds.fits (n + zlen (data p))) :
  exists c' h' s', redisCommandArgv strerror c argv argvlen h s = Some (Ret (None, c', h', s')) /\
    cerr c' = Read.REDIS_ERR_EOF /\ cerrstr c' = bstr "Server closed the connection" /\
    sent s' = sent s ++ Format.encode strs /\ rplan s' = q /\
    forall s2, exists c2 h2, redisGetReply strerror c' h' s2 = Some (Ret (Read.REDIS_ERR, None, c2, h2, s2)) /\ closed c2 h2.
Proof.
  unfold redisCommandArgv.
  destruct (append_spec c n [] [] None [] h argv argvlen strs Hidle Hargs Hroom) as (c1 & -> & Hc1). cbn [mbind option_bind app] in *.
  rewrite Z.eqb_refl. cbn [negb]. unfold redisBlockForReply. pose proof Hc1 as (_ & -> & _).
  destruct (pump_values Hmem [v] h ltac:(by apply Forall_cons)) as (ls & m & Ep & Ht & Hd). cbn [flat_map] in Ep. rewrite app_nil_r, <- Hcut in Ep.
  apply trees_length in Ht. rewrite length_map in Ht. destruct ls as [|l [|? ?]]; [done| |done].
  destruct (prefix_open _ _ _ _ _ Ep Hmissing) as (d & Ed & Hnd).
  destruct (get_reply_closed c1 s n _ h p q d Hc1 Hread Hp Hwrite Ed Hnd Hn Hfit) as (c' & h' & w' & -> & Hcl). cbn [rbind].
  eexists c', h', _. split; [done|]. pose proof Hcl as (c0 & ? & ? & ? & ? & -> & _). split_and!; try done.
  intros s2. by apply closed_inert.
Qed.

(** A new connection is idle. *)
Lemma connect_idle c h : redisConnectFd true = Some (Some c) -> idle 0 c h.
Proof.
  unfold redisConnectFd, redisContextInit, redisReaderCreate. destruct (malloc_ok context_size); [|done]. cbn [negb].
  pose proof Sds.sdsempty_spec as He. destruct Sds.sdsempty as [[b|]|] eqn:Eb; cbn [mbind option_bind]; [| |done].
  - destruct (Read.redisReaderCreateWithFunctions true) as [[r|]|] eqn:Er; [|done..]. cbn. intros [= <-].
    split_and!; try done; [by exists b|]. exists r. split; [done|]. by apply Read.create_ready.
  - by destruct (Read.redisReaderCreateWithFunctions true) as [[r|]|].
Qed.

End Spec.

(** ** Demonstrations *)

Section Demo.
#[local] Existing Instance demo_memory.

Definition demo_connection : redisContext :=
  mk_context 0 [] 3 (Some (Sds.mk_sds 0 0 [0])) (Some demo_reader_heap).

Lemma demo_connect : redisConnectFd true = Some (Some demo_connection).
Proof. reflexivity. Qed.

Definition demo_strerror (_ : Z) : bytes := bstr "error".

Definition demo_strs : list (list bytes) := [[bstr "PING"]; [bstr "GET"; [0; 13; 10]]].
Definition demo_cmds : list (list bytes * option (list Z)) := map (fun a => (a, Some (map zlen a))) demo_strs.

Lemma demo_cmds_passed : Forall2 (fun cmd strs => Format.passed cmd.1 cmd.2 strs) demo_cmds demo_strs.
Proof.
  unfold demo_cmds, demo_strs. cbn [map].
  repeat constructor; by exists []; rewrite ?app_nil_r.
Qed.

(** The socket takes seven bytes, is interrupted, and takes the rest; the replies arrive in
    two pieces. *)
Definition demo_socket : socket :=
  mk_socket [WBytes 7; WErr EINTR; WBytes 100]
    [RErr EINTR; RBytes (take 6 (flat_map resp demo_values)); RErr EINTR; RBytes (drop 6 (flat_map resp demo_values))] [].

Lemma pipeline_roundtrip_witness : exists c1 outs c2 s' m, append_all demo_connection demo_cmds = Some (Read.REDIS_OK, c1) /\
  get_replies demo_strerror (length demo_values) c1 ∅ demo_socket = Some (Ret (outs, c2, m ∪ ∅, s')) /\ replies outs demo_values m /\ m ##ₘ ∅ /\
  sent s' = [] ++ flat_map Format.encode demo_strs /\ cerr c2 = 0.
Proof.
  apply (pipeline_roundtrip demo_has_memory demo_strerror demo_connection demo_cmds demo_strs demo_values ∅ demo_socket 0);
    [apply (connect_idle demo_connection ∅ demo_connect) | done | exact demo_cmds_passed | done | exact demo_sendable | done | by eexists | | done | done].
  unfold demo_socket. cbn [rplan]. repeat (apply Forall_cons; split); done.
Defined.

Lemma connection_lost_witness : exists c' h' s', redisCommandArgv demo_strerror demo_connection [bstr "PING"] (Some [4]) ∅
    (mk_socket [WBytes 100] [RBytes (bstr "+PO"); RBytes []; RBytes (bstr "NG")] []) = Some (Ret (None, c', h', s')) /\
  cerr c' = Read.REDIS_ERR_EOF /\ cerrstr c' = bstr "Server closed the connection" /\
  sent s' = [] ++ Format.encode [bstr "PING"] /\ rplan s' = [RBytes (bstr "NG")] /\
  forall s2, exists c2 h2, redisGetReply demo_strerror c' h' s2 = Some (Ret (Read.REDIS_ERR, None, c2, h2, s2)) /\ closed c2 h2.
Proof.
  refine (connection_lost demo_has_memory demo_strerror demo_connection [bstr "PING"] (Some [4]) [bstr "PING"]
    (VString Read.REDIS_REPLY_STATUS (bstr "PONG")) ∅ (mk_socket [WBytes 100] [RBytes (bstr "+PO"); RBytes []; RBytes (bstr "NG")] [])
    0 [RBytes (bstr "+PO")] [RBytes (bstr "NG")] (bstr "NG" ++ CRLF) (connect_idle demo_connection ∅ demo_connect) _ _ _ _ _ _ _ _ _ _); try done.
  - split; [done|]. repeat constructor. by exists [].
  - apply Forall_cons. split; [done | constructor].
  - split; [by left | done].
Defined.

End Demo.

End Context.
