(* ===== verification/Net.v ===== *)
(** Sockets, net.c: connecting over TCP and over a path, the options of a socket, waiting for a
    connection, with the functions of hiredis.c that use them.

    The operating system is a function from the calls that were made so far, with their
    answers, to the answer to the next one, so that every behaviour of it is covered. *)
From stdpp Require Import gmap.
From S2P Require Import Prelude Sds Read Format Reply Context.
Import Reply.

Open Scope Z_scope.

Module Net.

Import Context.

(** ** The operating system *)

Definition EINPROGRESS : Z := 115.
Definition EHOSTUNREACH : Z := 113.
Definition EADDRNOTAVAIL : Z := 99.
Definition ETIMEDOUT : Z := 110.
Definition AF_LOCAL : Z := 1.
Definition AF_INET : Z := 2.
Definition AF_INET6 : Z := 10.
Definition SOCK_STREAM : Z := 1.
Definition O_NONBLOCK : Z := 2048.

(** [struct timeval] and [struct addrinfo]. *)
Record timeval := mk_timeval { tv_sec : Z; tv_usec : Z }.
Record addrinfo := mk_addrinfo { ai_family : Z; ai_socktype : Z; ai_protocol : Z; ai_addr : bytes }.

Inductive option_name := SO_REUSEADDR | SO_KEEPALIVE | TCP_KEEPIDLE | TCP_KEEPINTVL | TCP_KEEPCNT | TCP_NODELAY.

(** The calls, with their arguments. *)
Inductive call :=
| Socket (family socktype protocol : Z)
| Close (fd : Z)
| GetFl (fd : Z)
| SetFl (fd flags : Z)
| SetSockOpt (fd : Z) (name : option_name) (val : Z)
| SetTimeo (fd : Z) (sending : bool) (tv : timeval)
| GetSockErr (fd : Z)
| Bind (fd : Z) (addr : bytes)
| Connect (fd : Z) (addr : bytes)
| Poll (fd msec : Z).

(** A value, or -1 with an [errno]. *)
Inductive answer := Ok (v : Z) | Err (errno : Z).

Abbreviation history := (list (call * answer)).

(** ** Data *)

Definition REDIS_REUSEADDR : Z := 128.
Definition REDIS_CONNECT_RETRIES : Z := 10.
Definition REDIS_KEEPALIVE_INTERVAL : Z := 15.

Inductive redisConnectionType := REDIS_CONN_TCP | REDIS_CONN_UNIX.

(** The fields of a context that [Context] leaves out, with the [errno] and the calls. The
    context and the type of the connection are zero at first, which is TCP. *)
Record net := mk_net {
  n_c : redisContext;
  n_fd : Z;
  n_type : redisConnectionType;
  n_host : option bytes;
  n_port : Z;
  n_source : option bytes;
  n_path : option bytes;
  n_timeout : option timeval;
  n_errno : Z;
  n_calls : history;
}.

Definition with_c (c : redisContext) (n : net) : net :=
  mk_net c (n_fd n) (n_type n) (n_host n) (n_port n) (n_source n) (n_path n) (n_timeout n) (n_errno n) (n_calls n).
Definition with_fd (fd : Z) (n : net) : net :=
  mk_net (n_c n) fd (n_type n) (n_host n) (n_port n) (n_source n) (n_path n) (n_timeout n) (n_errno n) (n_calls n).
Definition with_tcp (host : option bytes) (port : Z) (source : option bytes) (n : net) : net :=
  mk_net (n_c n) (n_fd n) REDIS_CONN_TCP host port source (n_path n) (n_timeout n) (n_errno n) (n_calls n).
Definition with_unix (path : option bytes) (n : net) : net :=
  mk_net (n_c n) (n_fd n) REDIS_CONN_UNIX (n_host n) (n_port n) (n_source n) path (n_timeout n) (n_errno n) (n_calls n).
Definition with_timeout (tv : option timeval) (n : net) : net :=
  mk_net (n_c n) (n_fd n) (n_type n) (n_host n) (n_port n) (n_source n) (n_path n) tv (n_errno n) (n_calls n).
Definition with_errno (e : Z) (n : net) : net :=
  mk_net (n_c n) (n_fd n) (n_type n) (n_host n) (n_port n) (n_source n) (n_path n) (n_timeout n) e (n_calls n).
Definition after_call (c : call) (a : answer) (n : net) : net :=
  mk_net (n_c n) (n_fd n) (n_type n) (n_host n) (n_port n) (n_source n) (n_path n) (n_timeout n)
    (match a with Err e => e | Ok _ => n_errno n end) (n_calls n ++ [(c, a)]).

(** A pointer that may be one of the context's own. *)
Inductive arg (A : Type) := Null | Own | Passed (x : A).
Arguments Null {A}. Arguments Own {A}. Arguments Passed {A}.

(** ** Computations *)

(** [None] is undefined. *)
Definition N (X : Type) : Type := net -> option (X * net).

Definition pure {X} (x : X) : N X := fun n => Some (x, n).
Definition bind {X Y} (m : N X) (k : X -> N Y) : N Y := fun n => '(x, n) ← m n; k x n.
Definition undefined {X} : N X := fun _ => None.
Definition get : N net := fun n => Some (n, n).
Definition modify (f : net -> net) : N unit := fun n => Some (tt, f n).

Notation "'let&' x := e 'in' k" := (bind e (fun x => k)) (at level 10, x strict pattern, k at level 200).

Section Ops.
Context `{Memory} (strerror : Z -> bytes).

(** The operating system, and the resolution of names: an error code or addresses. *)
Context (os : history -> call -> answer) (getaddrinfo : history -> option bytes -> option bytes -> Z -> Z + list addrinfo) (gai_strerror : Z -> bytes).

Definition sys (c : call) : N answer := fun n => let a := os (n_calls n) c in Some (a, after_call c a n).

(** ** Helpers *)

Definition redisContextCloseFd : N unit :=
  let& n := get in
  if 0 <=? n_fd n then let& _ := sys (Close (n_fd n)) in modify (with_fd (-1)) else pure tt.

(** [__redisSetError] on the context. *)
Definition set_error (type : Z) (str : bytes) : N unit := modify (fun n => with_c (redisSetError (n_c n) type str) n).

(** [__redisSetErrorFromErrno]: the text of [errno] behind the prefix. *)
Definition redisSetErrorFromErrno (type : Z) (prefix : bytes) : N unit :=
  let& n := get in set_error type (prefix ++ strerror (n_errno n)).

(** What a failed option comes to. *)
Definition fail_closing (prefix : bytes) : N Z :=
  let& _ := redisSetErrorFromErrno Read.REDIS_ERR_IO prefix in
  let& _ := redisContextCloseFd in
  pure Read.REDIS_ERR.

Definition redisSetReuseAddr : N Z :=
  let& n := get in
  let& a := sys (SetSockOpt (n_fd n) SO_REUSEADDR 1) in
  match a with Err _ => fail_closing [] | Ok _ => pure Read.REDIS_OK end.

Definition redisCreateSocket (type : Z) : N Z :=
  let& a := sys (Socket type SOCK_STREAM 0) in
  match a with
  | Err _ => let& _ := redisSetErrorFromErrno Read.REDIS_ERR_IO [] in pure Read.REDIS_ERR
  | Ok s =>
      let& _ := modify (with_fd s) in
      if type =? AF_INET then redisSetReuseAddr else pure Read.REDIS_OK
  end.

Definition redisSetBlocking (blocking : bool) : N Z :=
  let& n := get in
  let& a := sys (GetFl (n_fd n)) in
  match a with
  | Err _ => fail_closing (bstr "fcntl(F_GETFL): ")
  | Ok flags =>
      let& a := sys (SetFl (n_fd n) (if blocking then Z.land flags (Z.lnot O_NONBLOCK) else Z.lor flags O_NONBLOCK)) in
      match a with Err _ => fail_closing (bstr "fcntl(F_SETFL): ") | Ok _ => pure Read.REDIS_OK end
  end.

(** The options of [redisKeepAlive] that are set one after the other. *)
Fixpoint set_options (fd : Z) (l : list (option_name * Z)) : N Z :=
  match l with
  | [] => pure Read.REDIS_OK
  | (name, val) :: l' =>
      let& a := sys (SetSockOpt fd name val) in
      match a with
      | Err e => let& _ := set_error Read.REDIS_ERR_OTHER (strerror e) in pure Read.REDIS_ERR
      | Ok _ => set_options fd l'
      end
  end.

(** [redisKeepAlive] with the GNU C library. *)
Definition redisKeepAlive (interval : Z) : N Z :=
  let& n := get in
  let third := Z.quot interval 3 in
  set_options (n_fd n) [(SO_KEEPALIVE, 1); (TCP_KEEPIDLE, interval); (TCP_KEEPINTVL, if third =? 0 then 1 else third); (TCP_KEEPCNT, 3)].

Definition redisSetTcpNoDelay : N Z :=
  let& n := get in
  let& a := sys (SetSockOpt (n_fd n) TCP_NODELAY 1) in
  match a with Err _ => fail_closing (bstr "setsockopt(TCP_NODELAY): ") | Ok _ => pure Read.REDIS_OK end.

(** What [getsockopt] says: it failed with an [errno], or this is the error of the socket. *)
Inductive sockopt := OptFailed (errno : Z) | OptError (err : Z).

(** [redisCheckSocketError]: the result, the [errno], and the context. *)
Definition redisCheckSocketError (c : redisContext) (o : sockopt) : Z * Z * redisContext :=
  match o with
  | OptFailed e => (Read.REDIS_ERR, e, redisSetError c Read.REDIS_ERR_IO (bstr "getsockopt(SO_ERROR): " ++ strerror e))
  | OptError e => if e =? 0 then (Read.REDIS_OK, 0, c) else (Read.REDIS_ERR, e, redisSetError c Read.REDIS_ERR_IO (strerror e))
  end.

(** With the call. *)
Definition check_socket_error : N Z :=
  let& n := get in
  let& a := sys (GetSockErr (n_fd n)) in
  let '(ret, errno, c) := redisCheckSocketError (n_c n) (match a with Err e => OptFailed e | Ok e => OptError e end) in
  let& _ := modify (fun n => with_c c (if ret =? Read.REDIS_OK then n else with_errno errno n)) in
  pure ret.

(** [__MAX_MSEC]. *)
Definition MAX_MSEC : Z := (LONG_MAX - 999) / 1000.

(** A [long]; overflow is undefined. *)
Definition long (z : Z) : option Z := if (LONG_MIN <=? z) && (z <=? LONG_MAX) then Some z else None.

(** The milliseconds of a timeout, [Some None] when it is refused. *)
Definition wait_msec (tv : timeval) : option (option Z) :=
  if (1000000 <? tv_usec tv) || (MAX_MSEC <? tv_sec tv) then Some None
  else
    ms ← long (tv_sec tv * 1000);
    us ← long (tv_usec tv + 999);
    msec ← long (ms + Z.quot us 1000);
    Some (Some (if (msec <? 0) || (INT_MAX <? msec) then INT_MAX else msec)).

Definition redisContextWaitReady (timeout : option timeval) : N Z :=
  let& msec := (match timeout with
                | None => pure (Some (-1))
                | Some tv => match wait_msec tv with None => undefined | Some m => pure m end
                end) in
  match msec with
  | None => fail_closing []
  | Some msec =>
      let& n := get in
      if n_errno n =? EINPROGRESS then
        let& a := sys (Poll (n_fd n) msec) in
        match a with
        | Err _ => fail_closing (bstr "poll(2): ")
        | Ok res =>
            if res =? 0 then let& _ := modify (with_errno ETIMEDOUT) in fail_closing []
            else
              let& ret := check_socket_error in
              if negb (ret =? Read.REDIS_OK) then pure Read.REDIS_ERR else pure Read.REDIS_OK
        end
      else fail_closing []
  end.

Definition redisContextSetTimeout (tv : timeval) : N Z :=
  let& n := get in
  let& a := sys (SetTimeo (n_fd n) false tv) in
  match a with
  | Err _ => let& _ := redisSetErrorFromErrno Read.REDIS_ERR_IO (bstr "setsockopt(SO_RCVTIMEO): ") in pure Read.REDIS_ERR
  | Ok _ =>
      let& a := sys (SetTimeo (n_fd n) true tv) in
      match a with
      | Err _ => let& _ := redisSetErrorFromErrno Read.REDIS_ERR_IO (bstr "setsockopt(SO_SNDTIMEO): ") in pure Read.REDIS_ERR
      | Ok _ => pure Read.REDIS_OK
      end
  end.

(** ** Connecting *)

(** [strdup]. *)
Definition strdup (s : bytes) : option bytes := if malloc_ok (zlen s + 1) then Some s else None.

(** The copy of the timeout that the context keeps; that it could not be made is not tested. *)
Definition take_timeout (timeout : arg timeval) : N unit :=
  match timeout with
  | Null => modify (with_timeout None)
  | Own => pure tt
  | Passed tv =>
      let& n := get in
      match n_timeout n with
      | Some _ => modify (with_timeout (Some tv))
      | None => if malloc_ok 16 then modify (with_timeout (Some tv)) else undefined
      end
  end.

(** What an address leads to. *)
Inductive attempt := Continue | Retry | Fail | Success.

(** The loop over the addresses of the source. *)
Fixpoint bind_any (s : Z) (l : list addrinfo) : N bool :=
  match l with
  | [] => pure false
  | b :: l' => let& a := sys (Bind s (ai_addr b)) in match a with Ok _ => pure true | Err _ => bind_any s l' end
  end.

(** Binding to the source address: whether to go on. *)
Definition bind_source (reuseaddr : bool) (family s : Z) : N bool :=
  let& n := get in
  match n_source n with
  | None => pure true
  | Some source =>
      match getaddrinfo (n_calls n) (Some source) None family with
      | inl rv => let& _ := set_error Read.REDIS_ERR_OTHER (bstr "Can't get addr: " ++ gai_strerror rv) in pure false
      | inr bservinfo =>
          let& a := (if reuseaddr then sys (SetSockOpt s SO_REUSEADDR 1) else pure (Ok 0)) in
          match a with
          | Err _ => pure false
          | Ok _ =>
              let& bound := bind_any s bservinfo in
              if (bound : bool) then pure true
              else
                let& n := get in
                let& _ := set_error Read.REDIS_ERR_OTHER (bstr "Can't bind socket: " ++ strerror (n_errno n)) in
                pure false
          end
      end
  end.

(** [goto error] unless the call went well. *)
Definition or_fail (m : N Z) (k : N attempt) : N attempt := let& ret := m in if negb (ret =? Read.REDIS_OK) then pure Fail else k.

(** The end of a round: the socket is connected, or will be. *)
Definition finish_connect (blocking : bool) : N attempt :=
  or_fail (if blocking then redisSetBlocking true else pure Read.REDIS_OK)
    (or_fail redisSetTcpNoDelay
      (let& _ := modify (fun n => with_c (mk_context (cerr (n_c n)) (cerrstr (n_c n)) (Z.lor (cflags (n_c n)) REDIS_CONNECTED) (obuf (n_c n)) (creader (n_c n))) n) in
       pure Success)).

(** One round for an address. *)
Definition try_once (blocking reuseaddr : bool) (family : Z) (p : addrinfo) : N attempt :=
  let& a := sys (Socket (ai_family p) (ai_socktype p) (ai_protocol p)) in
  match a with
  | Err _ => pure Continue
  | Ok s =>
      let& _ := modify (with_fd s) in
      or_fail (redisSetBlocking false)
        (let& go := bind_source reuseaddr family s in
         if negb go then pure Fail
         else
           let& a := sys (Connect s (ai_addr p)) in
           match a with
           | Ok _ => finish_connect blocking
           | Err e =>
               if e =? EHOSTUNREACH then let& _ := redisContextCloseFd in pure Continue
               else if (e =? EINPROGRESS) && negb blocking then finish_connect blocking
               else if (e =? EADDRNOTAVAIL) && reuseaddr then pure Retry
               else let& n := get in or_fail (redisContextWaitReady (n_timeout n)) (finish_connect blocking)
           end)
  end.

(** [addrretry]: at most [REDIS_CONNECT_RETRIES] rounds; the count is kept over the addresses. *)
Fixpoint try_addr (fuel : nat) (blocking reuseaddr : bool) (family : Z) (p : addrinfo) (reuses : Z) : N (attempt * Z) :=
  match fuel with
  | O => undefined
  | S f =>
      let& r := try_once blocking reuseaddr family p in
      match r with
      | Retry => if REDIS_CONNECT_RETRIES <=? reuses + 1 then pure (Fail, reuses + 1) else try_addr f blocking reuseaddr family p (reuses + 1)
      | _ => pure (r, reuses)
      end
  end.

Fixpoint try_addrs (blocking reuseaddr : bool) (family : Z) (l : list addrinfo) (reuses : Z) : N Z :=
  match l with
  | [] =>
      let& n := get in
      let& _ := set_error Read.REDIS_ERR_OTHER (bstr "Can't create socket: " ++ strerror (n_errno n)) in
      pure Read.REDIS_ERR
  | p :: l' =>
      let& (r, reuses) := try_addr (Z.to_nat REDIS_CONNECT_RETRIES) blocking reuseaddr family p reuses in
      match r with
      | Continue => try_addrs blocking reuseaddr family l' reuses
      | Success => pure Read.REDIS_OK
      | _ => pure Read.REDIS_ERR
      end
  end.

(** What the context keeps of the arguments. *)
Definition take_address (addr : arg bytes) (port : Z) (timeout : arg timeval) (source_addr : arg bytes) : N unit :=
  let& n := get in
  let& host := (match addr with Null => undefined | Own => pure (n_host n) | Passed s => pure (strdup s) end) in
  let& _ := modify (with_tcp host port (n_source n)) in
  let& _ := take_timeout timeout in
  modify (fun n => with_tcp (n_host n) (n_port n) (match source_addr with Null => None | Own => n_source n | Passed s => strdup s end) n).

(** [_redisContextConnectTcp]. *)
Definition connect_tcp (addr : arg bytes) (port : Z) (timeout : arg timeval) (source_addr : arg bytes) : N Z :=
  let& n := get in
  let blocking := Context.blocking (n_c n) in
  let reuseaddr := negb (Z.land (cflags (n_c n)) REDIS_REUSEADDR =? 0) in
  let& _ := take_address addr port timeout source_addr in
  let& n := get in
  let service := Some (take 5 (sdec port)) in
  match getaddrinfo (n_calls n) (n_host n) service AF_INET with
  | inr servinfo => try_addrs blocking reuseaddr AF_INET servinfo 0
  | inl _ =>
      match getaddrinfo (n_calls n) (match addr with Passed s => Some s | _ => n_host n end) service AF_INET6 with
      | inr servinfo => try_addrs blocking reuseaddr AF_INET6 servinfo 0
      | inl rv => let& _ := set_error Read.REDIS_ERR_OTHER (gai_strerror rv) in pure Read.REDIS_ERR
      end
  end.

Definition redisContextConnectTcp (addr : arg bytes) (port : Z) (timeout : arg timeval) : N Z := connect_tcp addr port timeout Null.
Definition redisContextConnectBindTcp (addr : arg bytes) (port : Z) (timeout : arg timeval) (source_addr : arg bytes) : N Z := connect_tcp addr port timeout source_addr.

(** [redisContextConnectUnix]; a longer path is cut without a terminator. *)
Definition redisContextConnectUnix (path : arg bytes) (timeout : arg timeval) : N Z :=
  let& n := get in
  let blocking := Context.blocking (n_c n) in
  let& ret := redisCreateSocket AF_LOCAL in
  if ret <? 0 then pure Read.REDIS_ERR
  else
    let& ret := redisSetBlocking false in
    if negb (ret =? Read.REDIS_OK) then pure Read.REDIS_ERR
    else
      let& text := (match path with
                    | Null => undefined
                    | Own => match n_path n with Some s => pure s | None => undefined end
                    | Passed s => pure s
                    end) in
      let& _ := modify (fun n => with_unix (match path with Passed s => strdup s | _ => n_path n end) n) in
      let& _ := take_timeout timeout in
      let& n := get in
      let& a := sys (Connect (n_fd n) (take 107 text)) in
      let& ret := (match a with
                   | Ok _ => pure Read.REDIS_OK
                   | Err e =>
                       if (e =? EINPROGRESS) && negb blocking then pure Read.REDIS_OK
                       else let& n := get in redisContextWaitReady (n_timeout n)
                   end) in
      if negb (ret =? Read.REDIS_OK) then pure Read.REDIS_ERR
      else
        let& ret := (if blocking then redisSetBlocking true else pure Read.REDIS_OK) in
        if negb (ret =? Read.REDIS_OK) then pure Read.REDIS_ERR
        else
          let& _ := modify (fun n => with_c (mk_context (cerr (n_c n)) (cerrstr (n_c n)) (Z.lor (cflags (n_c n)) REDIS_CONNECTED) (obuf (n_c n)) (creader (n_c n))) n) in
          pure Read.REDIS_OK.

(** ** The functions of hiredis.c *)

(** A new context is all zero, its descriptor too. *)
Definition new_net (c : redisContext) (e : Z) (t : history) : net := mk_net c 0 REDIS_CONN_TCP None 0 None None None e t.

Definition set_flags (f : Z) (c : redisContext) : redisContext := mk_context (cerr c) (cerrstr c) f (obuf c) (creader c).
Definition set_block (c : redisContext) : redisContext := set_flags (Z.lor (cflags c) REDIS_BLOCK) c.
Definition clear_block (c : redisContext) : redisContext := set_flags (Z.land (cflags c) (Z.lnot REDIS_BLOCK)) c.
Definition set_reuse (c : redisContext) : redisContext := set_flags (Z.lor (cflags c) REDIS_REUSEADDR) c.

(** The shape of the functions below: what net.c returns is not looked at. *)
Definition connect_by (mode : redisContext -> redisContext) (reader_ok : bool) (connect : N Z) (e : Z) (t : history) : option (option net) :=
  let? c := redisContextInit reader_ok in
  '(_, n) ← connect (new_net (mode c) e t);
  Some (Some n).

Definition redisConnect (reader_ok : bool) (ip : bytes) (port : Z) := connect_by set_block reader_ok (redisContextConnectTcp (Passed ip) port Null).
Definition redisConnectWithTimeout (reader_ok : bool) (ip : bytes) (port : Z) (tv : timeval) := connect_by set_block reader_ok (redisContextConnectTcp (Passed ip) port (Passed tv)).
Definition redisConnectNonBlock (reader_ok : bool) (ip : bytes) (port : Z) := connect_by clear_block reader_ok (redisContextConnectTcp (Passed ip) port Null).
Definition redisConnectUnix (reader_ok : bool) (path : bytes) := connect_by set_block reader_ok (redisContextConnectUnix (Passed path) Null).
Definition redisConnectUnixWithTimeout (reader_ok : bool) (path : bytes) (tv : timeval) := connect_by set_block reader_ok (redisContextConnectUnix (Passed path) (Passed tv)).
Definition redisConnectUnixNonBlock (reader_ok : bool) (path : bytes) := connect_by clear_block reader_ok (redisContextConnectUnix (Passed path) Null).

(** Those that bind do not test the new context. *)
Definition redisConnectBindNonBlock (reader_ok : bool) (ip : bytes) (port : Z) (source_addr : bytes) (e : Z) (t : history) : option net :=
  mjoin (connect_by clear_block reader_ok (redisContextConnectBindTcp (Passed ip) port Null (Passed source_addr)) e t).
Definition redisConnectBindNonBlockWithReuse (reader_ok : bool) (ip : bytes) (port : Z) (source_addr : bytes) (e : Z) (t : history) : option net :=
  mjoin (connect_by (fun c => set_reuse (clear_block c)) reader_ok (redisContextConnectBindTcp (Passed ip) port Null (Passed source_addr)) e t).

Definition redisSetTimeout (tv : timeval) : N Z :=
  let& n := get in
  if Context.blocking (n_c n) then redisContextSetTimeout tv else pure Read.REDIS_ERR.

Definition redisEnableKeepAlive : N Z :=
  let& ret := redisKeepAlive REDIS_KEEPALIVE_INTERVAL in
  if negb (ret =? Read.REDIS_OK) then pure Read.REDIS_ERR else pure Read.REDIS_OK.

(** [redisFree]: the calls, and the heap without the reply under construction. *)
Definition redisFree (n : net) (h : heap) : option (history * heap) :=
  '(_, n) ← (if 0 <? n_fd n then let& _ := sys (Close (n_fd n)) in pure tt else pure tt) n;
  h ← Context.redisFree (n_c n) h;
  Some (n_calls n, h).

(** [redisFreeKeepFd]: the descriptor is not closed. *)
Definition redisFreeKeepFd (n : net) (h : heap) : option (Z * (history * heap)) :=
  r ← redisFree (with_fd (-1) n) h;
  Some (n_fd n, r).

(** [redisReconnect]: the descriptor is closed, and stays in the context; the new buffer and
    the new reader are not tested. *)
Definition redisReconnect (reader_ok : bool) (n : net) (h : heap) : option (Z * net * heap) :=
  '(_, n) ← (if 0 <? n_fd n then let& _ := sys (Close (n_fd n)) in pure tt else pure tt) n;
  old ← creader (n_c n);
  h ← Read.redisReaderFree dfn old h;
  b ← Sds.sdsempty;
  x ← redisReaderCreate reader_ok;
  let n := with_c (mk_context 0 [] (cflags (n_c n)) b x) n in
  let own {A} (o : option A) : arg A := match o with None => Null | Some _ => Own end in
  '(ret, n) ← (match n_type n with
               | REDIS_CONN_TCP => redisContextConnectBindTcp Own (n_port n) (own (n_timeout n)) (own (n_source n))
               | REDIS_CONN_UNIX => redisContextConnectUnix (own (n_path n)) (own (n_timeout n))
               end) n;
  Some (ret, n, h).

End Ops.

(** ** Reasoning *)

(** A computation returns, in such a state. *)
Definition does {X} (n : net) (m : N X) (Q : X -> net -> Prop) : Prop := exists x n', m n = Some (x, n') /\ Q x n'.

Lemma does_bind {X Y} n (m : N X) (k : X -> N Y) Q : does n m (fun x n1 => does n1 (k x) Q) -> does n (bind m k) Q.
Proof. intros (x & n1 & E & y & n2 & E2 & HQ). exists y, n2. split; [|done]. unfold bind. by rewrite E. Qed.

Lemma does_mono {X} n (m : N X) (P Q : X -> net -> Prop) : does n m P -> (forall x n', P x n' -> Q x n') -> does n m Q.
Proof. intros (x & n' & E & HP) HPQ. exists x, n'. split; [done | by apply HPQ]. Qed.

Lemma does_ret {X} n (m : N X) x n' Q : m n = Some (x, n') -> Q x n' -> does n m Q.
Proof. intros E HQ. by exists x, n'. Qed.

(** The state with another context, descriptor and [errno], after more calls. *)
Definition st (n : net) (c : redisContext) (fd e : Z) (t : history) : net :=
  mk_net c fd (n_type n) (n_host n) (n_port n) (n_source n) (n_path n) (n_timeout n) e (n_calls n ++ t).

Lemma st_same n : n = st n (n_c n) (n_fd n) (n_errno n) [].
Proof. destruct n. unfold st. cbn. by rewrite app_nil_r. Qed.

Lemma st_st n c fd e t c' fd' e' t' : st (st n c fd e t) c' fd' e' t' = st n c' fd' e' (t ++ t').
Proof. unfold st. cbn. by rewrite app_assoc. Qed.

(** Calls that leave the set of open descriptors alone. *)
Definition harmless (x : call * answer) : Prop := match x.1 with Socket _ _ _ | Close _ => False | _ => True end.
Abbreviation harmless_all t := (Forall harmless t).

Section Calls.
Context `{Memory} (strerror : Z -> bytes) (os : history -> call -> answer).

Lemma sys_st c n : sys os c n = Some (os (n_calls n) c, st n (n_c n) (n_fd n) (match os (n_calls n) c with Err e => e | Ok _ => n_errno n end) [(c, os (n_calls n) c)]).
Proof. done. Qed.

(** What became of the descriptor when an operation on it failed: it was closed, or it is still
    the context's. *)
Definition given_up (fd fd' : Z) (t : history) : Prop :=
  (fd' = -1 /\ exists q a, harmless_all q /\ t = q ++ [(Close fd, a)]) \/ (fd' = fd /\ harmless_all t).

(** An operation on the descriptor goes well and changes nothing else, or it sets an error. *)
Definition outcome (n : net) (r : Z) (n' : net) : Prop :=
  exists e t, (r = Read.REDIS_OK /\ harmless_all t /\ n' = st n (n_c n) (n_fd n) e t) \/
    (r = Read.REDIS_ERR /\ exists fd ty msg, ty <> 0 /\ given_up (n_fd n) fd t /\ n' = st n (redisSetError (n_c n) ty msg) fd e t).

Lemma outcome_ok n e t : harmless_all t -> outcome n Read.REDIS_OK (st n (n_c n) (n_fd n) e t).
Proof. intros Ht. exists e, t. by left. Qed.

Lemma fail_closing_spec prefix n e q : 0 <= n_fd n -> harmless_all q -> does (st n (n_c n) (n_fd n) e q) (fail_closing strerror os prefix) (outcome n).
Proof.
  intros Hfd Hq. eapply does_ret.
  - unfold fail_closing, redisSetErrorFromErrno, set_error, redisContextCloseFd, bind, get, modify. cbn [mbind option_bind n_fd with_c st].
    rewrite (proj2 (Z.leb_le _ _)) by done. cbn [mbind option_bind sys]. reflexivity.
  - eexists _, (q ++ [(Close (n_fd n), _)]). right. split; [done|]. eexists (-1), Read.REDIS_ERR_IO, _. split; [done|]. split; [left; split; [done|]; by eexists q, _|].
    unfold st, with_fd, after_call, with_c. cbn. rewrite <- app_assoc. reflexivity.
Qed.

Lemma redisSetBlocking_spec b n : 0 <= n_fd n -> does n (redisSetBlocking strerror os b) (outcome n).
Proof.
  intros Hfd. unfold redisSetBlocking. apply does_bind. eapply does_ret; [done|]. apply does_bind. eapply does_ret; [apply sys_st|].
  destruct (os _ (GetFl _)) as [flags|e]; [|by apply fail_closing_spec; [|repeat constructor]].
  apply does_bind. eapply does_ret; [apply sys_st|]. rewrite st_st. cbn [st n_c n_fd n_errno app]. destruct (os _ (SetFl _ _)) as [v|e].
  - eapply does_ret; [done|]. apply outcome_ok. by repeat constructor.
  - apply fail_closing_spec; [done|]. by repeat constructor.
Qed.

Lemma redisSetTcpNoDelay_spec n : 0 <= n_fd n -> does n (redisSetTcpNoDelay strerror os) (outcome n).
Proof.
  intros Hfd. unfold redisSetTcpNoDelay. apply does_bind. eapply does_ret; [done|]. apply does_bind. eapply does_ret; [apply sys_st|].
  destruct (os _ _) as [v|e]; [|by apply fail_closing_spec; [|repeat constructor]]. eapply does_ret; [done|]. apply outcome_ok. by repeat constructor.
Qed.

Lemma check_socket_error_spec n e q : harmless_all q -> does (st n (n_c n) (n_fd n) e q) (check_socket_error strerror os) (outcome n).
Proof.
  intros Hq. unfold check_socket_error. apply does_bind. eapply does_ret; [done|]. apply does_bind. eapply does_ret; [apply sys_st|]. rewrite st_st. cbn [st n_c n_fd n_errno].
  set (a := os _ _). assert (harmless_all (q ++ [(GetSockErr (n_fd n), a)])) as Ht by (apply Forall_app; split; [done | by repeat constructor]).
  destruct a as [v|e']; cbn [redisCheckSocketError].
  - destruct (v =? 0).
    + eapply does_ret; [reflexivity|]. eexists _, _. left. split; [done|]. split; [exact Ht|]. reflexivity.
    + eapply does_ret; [reflexivity|]. eexists _, _. right. split; [done|]. eexists (n_fd n), Read.REDIS_ERR_IO, _. split; [done|]. split; [right; split; [done | exact Ht]|]. reflexivity.
  - eapply does_ret; [reflexivity|]. eexists _, _. right. split; [done|]. eexists (n_fd n), Read.REDIS_ERR_IO, _. split; [done|]. split; [right; split; [done | exact Ht]|]. reflexivity.
Qed.

(** A timeout that does not overflow. *)
Definition sane (o : option timeval) : Prop := forall tv, o = Some tv -> is_Some (wait_msec tv).

Lemma redisContextWaitReady_spec o n e q : sane o -> 0 <= n_fd n -> harmless_all q -> does (st n (n_c n) (n_fd n) e q) (redisContextWaitReady strerror os o) (outcome n).
Proof.
  intros Ho Hfd Hq. unfold redisContextWaitReady. apply does_bind.
  assert (exists m, does (st n (n_c n) (n_fd n) e q) (match o with None => pure (Some (-1)) | Some tv => match wait_msec tv with None => undefined | Some m => pure m end end)
    (fun x n' => x = m /\ n' = st n (n_c n) (n_fd n) e q)) as (m & Hm).
  { destruct o as [tv|]; [|by eexists; eapply does_ret]. destruct (Ho tv eq_refl) as [m ->]. by exists m; eapply does_ret. }
  eapply does_mono; [exact Hm|]. intros x n' [-> ->]. destruct m as [msec|]; [|by apply fail_closing_spec].
  apply does_bind. eapply does_ret; [done|]. destruct (_ =? EINPROGRESS); [|by apply fail_closing_spec].
  apply does_bind. eapply does_ret; [apply sys_st|]. rewrite st_st. cbn [st n_c n_fd n_errno].
  set (a := os _ _). assert (harmless_all (q ++ [(Poll (n_fd n) msec, a)])) as Ht by (apply Forall_app; split; [done | by repeat constructor]).
  destruct a as [res|e']; [|by apply fail_closing_spec]. destruct (res =? 0).
  - apply does_bind. eapply does_ret; [done|]. by apply (fail_closing_spec _ n ETIMEDOUT).
  - apply does_bind. eapply does_mono; [by apply check_socket_error_spec|]. intros r n' (e2 & t & [(-> & Hh & ->)|(-> & Hx)]).
    + eapply does_ret; [done|]. by apply outcome_ok.
    + eapply does_ret; [done|]. exists e2, t. by right.
Qed.

End Calls.

(** *** Descriptors *)

Definition fd_step (s : gset Z) (x : call * answer) : gset Z :=
  match x with
  | (Socket _ _ _, Ok v) => {[v]} ∪ s
  | (Close fd, _) => s ∖ {[fd]}
  | _ => s
  end.

(** The descriptors that are open after these calls. *)
Definition open_fds (base : gset Z) (t : history) : gset Z := foldl fd_step base t.

(** Nothing is closed that is not open. *)
Fixpoint tidy (s : gset Z) (t : history) : Prop :=
  match t with
  | [] => True
  | x :: t' => match x.1 with Close fd => fd ∈ s | _ => True end /\ tidy (fd_step s x) t'
  end.

Lemma open_fds_app base t t' : open_fds base (t ++ t') = open_fds (open_fds base t) t'.
Proof. apply foldl_app. Qed.

Lemma tidy_app t : forall s t', tidy s (t ++ t') <-> tidy s t /\ tidy (open_fds s t) t'.
Proof. induction t as [|x t IH]; intros s t'; cbn [app tidy open_fds foldl]; [tauto|]. rewrite IH. unfold open_fds. tauto. Qed.

Lemma harmless_fds t : forall s, harmless_all t -> open_fds s t = s /\ tidy s t.
Proof.
  induction t as [|[c a] t IH]; intros s Hq; [done|]. apply Forall_cons in Hq as [Hx Hq]. cbn [tidy fst]. change (open_fds s ((c, a) :: t)) with (open_fds (fd_step s (c, a)) t). assert (fd_step s (c, a) = s) as -> by (by destruct c).
  destruct (IH s Hq) as [-> Ht]. split; [done|]. split; [by destruct c | done].
Qed.

(** What a piece of a history does to the descriptors [s]: nothing, or it opens [fd]. *)
Definition neutral (s : gset Z) (t : history) : Prop := open_fds s t = s /\ tidy s t.
Definition opens (s : gset Z) (fd : Z) (t : history) : Prop := 0 < fd /\ (fd ∉ s) /\ open_fds s t = {[fd]} ∪ s /\ tidy s t.

Lemma neutral_app s t t' : neutral s t -> neutral s t' -> neutral s (t ++ t').
Proof. intros [H1 H2] [H3 H4]. split; [by rewrite open_fds_app, H1, H3|]. apply tidy_app. by rewrite H1. Qed.

Lemma opens_after s fd t t' : neutral s t -> opens s fd t' -> opens s fd (t ++ t').
Proof. intros [H1 H2] (Hp & Hf & H3 & H4). split_and!; [done | done | by rewrite open_fds_app, H1, H3|]. apply tidy_app. by rewrite H1. Qed.

Lemma opens_harmless s fd t t' : opens s fd t -> harmless_all t' -> opens s fd (t ++ t').
Proof. intros (Hp & Hf & H3 & H4) Hq. destruct (harmless_fds t' ({[fd]} ∪ s) Hq) as [H5 H6]. split_and!; [done | done | by rewrite open_fds_app, H3, H5|]. apply tidy_app. by rewrite H3. Qed.

(** Closing what was opened. *)
Lemma opens_close s fd t a : opens s fd t -> neutral s (t ++ [(Close fd, a)]).
Proof.
  intros (Hp & Hf & H3 & H4). split.
  - rewrite open_fds_app, H3. cbn. set_solver.
  - apply tidy_app. rewrite H3. split; [done|]. cbn. split; [set_solver | done].
Qed.

(** The end of a failure: the descriptor was closed or never opened, or is still the context's. *)
Definition leaves_fd (s : gset Z) (old fd : Z) (t : history) : Prop := (neutral s t /\ (fd = -1 \/ fd = old)) \/ opens s fd t.

Lemma opens_given_up s old fd fd' t t' : opens s fd t -> given_up fd fd' t' -> leaves_fd s old fd' (t ++ t').
Proof.
  intros Ho [[-> (q & a & Hq & ->)]|[-> Hq]]; [left | right; by apply opens_harmless]. split; [|by left]. rewrite app_assoc. by apply opens_close, opens_harmless.
Qed.

(** *** Attempts *)

Section Attempts.
Context `{Memory} (strerror : Z -> bytes) (os : history -> call -> answer) (getaddrinfo : history -> option bytes -> option bytes -> Z -> Z + list addrinfo) (gai_strerror : Z -> bytes).
Context (base : gset Z).

(** [socket] returns a descriptor that is not in use; 0 is, since standard input is open. *)
Definition fresh_sockets : Prop := forall t f ty p v, os t (Socket f ty p) = Ok v -> 0 < v /\ v ∉ open_fds base t.
Context (Hfresh : fresh_sockets).

Abbreviation fds n := (open_fds base (n_calls n)).

Lemma socket_opens n f ty p v : os (n_calls n) (Socket f ty p) = Ok v -> opens (fds n) v [(Socket f ty p, Ok v)].
Proof. intros E. destruct (Hfresh _ _ _ _ _ E) as [Hp Hv]. by split_and!. Qed.

Definition connected_c (c : redisContext) : redisContext := mk_context (cerr c) (cerrstr c) (Z.lor (cflags c) REDIS_CONNECTED) (obuf c) (creader c).

(** A failure that is reported. *)
Definition failed (n n' : net) : Prop := exists fd ty msg e t, ty <> 0 /\ n' = st n (redisSetError (n_c n) ty msg) fd e t /\ leaves_fd (fds n) (n_fd n) fd t.
Definition succeeded (n n' : net) : Prop := exists fd e t, n' = st n (connected_c (n_c n)) fd e t /\ opens (fds n) fd t.

(** What a round does, without [REDIS_REUSEADDR]. *)
Definition round (n : net) (r : attempt) (n' : net) : Prop :=
  match r with
  | Continue => exists fd e t, n' = st n (n_c n) fd e t /\ neutral (fds n) t /\ (fd = -1 \/ fd = n_fd n)
  | Retry => False
  | Fail => failed n n'
  | Success => succeeded n n'
  end.

(** An operation within a round. *)
Lemma or_fail_spec n fd e t m k : opens (fds n) fd t -> does (st n (n_c n) fd e t) m (outcome (st n (n_c n) fd e t)) ->
  (forall e' t', opens (fds n) fd t' -> does (st n (n_c n) fd e' t') k (round n)) -> does (st n (n_c n) fd e t) (or_fail m k) (round n).
Proof.
  intros Ho Hm Hk. unfold or_fail. apply does_bind. eapply does_mono; [exact Hm|]. intros r n' (e' & t' & [(-> & Hh & ->)|(-> & fd' & ty & msg & Hty & Hg & ->)]); rewrite st_st.
  - cbn [n_c n_fd st]. apply Hk. by apply opens_harmless.
  - eapply does_ret; [done|]. exists fd', ty, msg, e', (t ++ t'). split; [done|]. split; [done|]. by eapply opens_given_up.
Qed.

Lemma finish_connect_spec blocking n fd e t : opens (fds n) fd t -> does (st n (n_c n) fd e t) (finish_connect strerror os blocking) (round n).
Proof.
  intros Ho. assert (0 <= fd) by (destruct Ho; lia). apply or_fail_spec; [done| |].
  - destruct blocking; [by apply redisSetBlocking_spec|]. eapply does_ret; [done|]. exists e, []. left. split; [done|]. split; [constructor|]. exact (st_same _).
  - intros e' t' Ho'. apply or_fail_spec; [done | by apply redisSetTcpNoDelay_spec|]. intros e2 t2 Ho2. eapply does_ret; [done|]. by exists fd, e2, t2.
Qed.

Lemma bind_any_spec s l : forall n, does n (bind_any os s l) (fun _ n' => exists e t, harmless_all t /\ n' = st n (n_c n) (n_fd n) e t).
Proof.
  induction l as [|b l IH]; intros n; cbn [bind_any].
  - eapply does_ret; [done|]. exists (n_errno n), []. split; [constructor | apply st_same].
  - apply does_bind. eapply does_ret; [apply sys_st|]. destruct (os _ _) as [v|e'].
    + eapply does_ret; [done|]. eexists _, _. split; [|done]. by repeat constructor.
    + eapply does_mono; [apply IH|]. intros r n' (e & t & Ht & ->). rewrite st_st. eexists e, _. split; [|done]. by constructor.
Qed.

(** Binding goes well, or sets an error. *)
Lemma bind_source_spec family s n : does n (bind_source strerror os getaddrinfo gai_strerror false family s)
  (fun go n' => exists e t, harmless_all t /\ (if go : bool then n' = st n (n_c n) (n_fd n) e t else exists msg, n' = st n (redisSetError (n_c n) Read.REDIS_ERR_OTHER msg) (n_fd n) e t)).
Proof.
  unfold bind_source. apply does_bind. eapply does_ret; [done|]. destruct (n_source n) as [source|].
  2:{ eapply does_ret; [done|]. exists (n_errno n), []. split; [constructor | apply st_same]. }
  destruct (getaddrinfo _ _ _ _) as [rv|bs].
  - eapply does_ret; [done|]. exists (n_errno n), []. split; [constructor|]. eexists. unfold st. by rewrite app_nil_r.
  - apply does_bind. eapply does_ret; [done|]. apply does_bind. eapply does_mono; [apply bind_any_spec|]. intros [|] n' (e & t & Ht & ->).
    + eapply does_ret; [done|]. by exists e, t.
    + eapply does_ret; [done|]. exists e, t. split; [done|]. by eexists.
Qed.

Lemma try_once_spec blocking family p n : sane (n_timeout n) -> does n (try_once strerror os getaddrinfo gai_strerror blocking false family p) (round n).
Proof.
  intros Hs. unfold try_once. apply does_bind. eapply does_ret; [apply sys_st|]. destruct (os (n_calls n) _) as [s|e] eqn:E.
  2:{ eapply does_ret; [done|]. eexists (n_fd n), _, _. split; [done|]. split; [by split | by right]. }
  pose proof (socket_opens n _ _ _ _ E) as Ho. assert (0 <= s) as Hpos by (destruct Ho; lia).
  apply does_bind. eapply does_ret; [done|]. change (with_fd s (st n (n_c n) (n_fd n) ?e ?t)) with (st n (n_c n) s e t).
  apply or_fail_spec; [done | by apply redisSetBlocking_spec|]. intros e1 t1 Ho1. apply does_bind. eapply does_mono; [apply bind_source_spec|].
  intros [|] n' (e2 & t2 & Ht2 & Hn); rewrite st_st in Hn || destruct Hn as [msg Hn]; cbn [n_c n_fd st] in Hn.
  2:{ rewrite st_st in Hn. subst n'. eapply does_ret; [done|]. eexists s, Read.REDIS_ERR_OTHER, msg, e2, _. split; [done|]. split; [done|]. right. by apply opens_harmless. }
  subst n'. cbn [negb]. pose proof (opens_harmless _ _ _ _ Ho1 Ht2) as Ho2. apply does_bind. eapply does_ret; [apply sys_st|]. rewrite st_st. cbn [n_c n_fd st].
  set (n2 := st n (n_c n) s e2 (t1 ++ t2)). set (a := os _ (Connect _ _)). assert (opens (fds n) s ((t1 ++ t2) ++ [(Connect s (ai_addr p), a)])) as Ho3 by (apply opens_harmless; [done | by repeat constructor]).
  destruct a as [v|e3]; [by apply finish_connect_spec|]. generalize dependent ((t1 ++ t2) ++ [(Connect s (ai_addr p), Err e3)]). intros t3 Ho3. destruct (e3 =? EHOSTUNREACH).
  { eapply does_ret.
    - unfold redisContextCloseFd, bind, get. cbn [mbind option_bind n_fd st]. rewrite (proj2 (Z.leb_le _ _)) by done. reflexivity.
    - cbn [round]. eexists (-1), _, (t3 ++ [(Close s, _)]). split; [|split; [by apply opens_close | by left]].
      unfold st, with_fd, after_call. cbn. rewrite <- (app_assoc (n_calls n)). reflexivity. }
  destruct (_ && negb blocking); [by apply finish_connect_spec|]. rewrite andb_false_r. apply does_bind. eapply does_ret; [done|].
  apply or_fail_spec; [done| |intros; by apply finish_connect_spec].
  rewrite (st_same (st n (n_c n) s e3 _)) at 1. apply (redisContextWaitReady_spec strerror os _ (st n (n_c n) s e3 _)); [exact Hs | done | constructor].
Qed.

(** All addresses: a connection, or an error; the descriptors are those from before, and that of
    the connection. *)
Lemma try_addrs_spec blocking family l : forall n, sane (n_timeout n) ->
  does n (try_addrs strerror os getaddrinfo gai_strerror blocking false family l 0) (fun r n' => (r = Read.REDIS_OK /\ succeeded n n') \/ (r = Read.REDIS_ERR /\ failed n n')).
Proof.
  induction l as [|p l IH]; intros n Hs; cbn [try_addrs].
  - eapply does_ret; [done|]. right. split; [done|]. eexists (n_fd n), Read.REDIS_ERR_OTHER, _, (n_errno n), []. split; [done|]. split; [|left; split; [done | by right]].
    unfold st. by rewrite app_nil_r.
  - apply does_bind. apply (does_mono _ _ (fun x n' => x.2 = 0 /\ round n x.1 n')).
    { change (Z.to_nat REDIS_CONNECT_RETRIES) with (S 9). cbn [try_addr]. apply does_bind. eapply does_mono; [by apply try_once_spec|].
      intros [| | |] n' Hr; [|done|..]; eapply does_ret; done. }
    intros [r z] n' [Hz Hr]. cbn [snd fst] in Hz, Hr. subst z. destruct r; cbn [round] in Hr.
    + destruct Hr as (fd & e & t & -> & Ht & Hfd). pose proof Ht as [Ht1 Ht2]. eapply does_mono; [by apply IH|]. intros r n'. unfold succeeded, failed. cbn [n_c n_calls n_fd st].
      rewrite open_fds_app, Ht1. intros [(-> & fd' & e' & t' & -> & Ho)|(-> & fd' & ty & msg & e' & t' & Hty & -> & Hl)]; [left | right]; (split; [done|]).
      * exists fd', e', (t ++ t'). split; [by rewrite st_st|]. by apply opens_after.
      * exists fd', ty, msg, e', (t ++ t'). split; [done|]. split; [by rewrite st_st|]. destruct Hl as [[Hl Hfd']|Hl]; [left; split; [by apply neutral_app | destruct Hfd' as [-> | ->]; [by left | done]] | right; by apply opens_after].
    + done.
    + eapply does_ret; [done|]. by right.
    + eapply does_ret; [done|]. by left.
Qed.

(** *** Connecting *)

(** The timeout that will be used. *)
Definition sane_arg (tm : arg timeval) (n : net) : Prop := match tm with Null => True | Own => sane (n_timeout n) | Passed x => is_Some (wait_msec x) end.

Lemma take_sane tm n : has_memory -> sane_arg tm n -> exists tv, take_timeout tm n = Some (tt, with_timeout tv n) /\ sane tv.
Proof.
  intros Hmem Hs. destruct tm as [| |x]; cbn [take_timeout sane_arg] in *.
  - exists None. split; [done|]. by intros ? ?.
  - exists (n_timeout n). split; [by destruct n | done].
  - exists (Some x). split; [|by intros ? [= <-]]. unfold bind, get. cbn [mbind option_bind]. destruct (n_timeout n); [done|]. by rewrite Hmem.
Qed.

(** What [_redisContextConnectTcp] and [redisContextConnectUnix] come to. *)
Definition linked (n n' : net) : Prop := exists t, n_calls n' = n_calls n ++ t /\ n_c n' = connected_c (n_c n) /\ opens (fds n) (n_fd n') t.
Definition refused (n n' : net) : Prop :=
  exists t ty msg, ty <> 0 /\ n_calls n' = n_calls n ++ t /\ n_c n' = redisSetError (n_c n) ty msg /\ leaves_fd (fds n) (n_fd n) (n_fd n') t.
Definition result (n : net) (r : Z) (n' : net) : Prop := (r = Read.REDIS_OK /\ linked n n') \/ (r = Read.REDIS_ERR /\ refused n n').

Lemma result_tries n0 n r n' : n_c n = n_c n0 -> n_fd n = n_fd n0 -> n_calls n = n_calls n0 ->
  (r = Read.REDIS_OK /\ succeeded n n') \/ (r = Read.REDIS_ERR /\ failed n n') -> result n0 r n'.
Proof.
  unfold succeeded, failed. intros Ec Ef Et. rewrite Ec, Ef, Et. intros [(-> & fd & e & t & -> & Ho)|(-> & fd & ty & msg & e & t & Hty & -> & Hl)]; [left | right]; (split; [done|]).
  - exists t. cbn [st n_calls n_c n_fd]. by rewrite Et.
  - exists t, ty, msg. cbn [st n_calls n_c n_fd]. by rewrite Et.
Qed.

Definition reuses (c : redisContext) : bool := negb (Z.land (cflags c) REDIS_REUSEADDR =? 0).

Lemma connect_tcp_spec addr port tm source n : has_memory -> addr <> Null -> sane_arg tm n -> reuses (n_c n) = false ->
  does n (connect_tcp strerror os getaddrinfo gai_strerror addr port tm source) (result n).
Proof.
  intros Hmem Ha Hs Hr. unfold connect_tcp. apply does_bind. eapply does_ret; [done|]. fold (reuses (n_c n)). rewrite Hr.
  assert (exists n1, take_address addr port tm source n = Some (tt, n1) /\ n_c n1 = n_c n /\ n_fd n1 = n_fd n /\ n_calls n1 = n_calls n /\ sane (n_timeout n1)) as (n1 & E1 & Hc & Hfd & Ht & Hsane).
  { assert (exists host, (match addr with Null => undefined | Own => pure (n_host n) | Passed s => pure (strdup s) end) n = Some (host, n)) as [host Eh] by (destruct addr; [done | by eexists..]).
    destruct (take_sane tm (with_tcp host port (n_source n) n) Hmem) as (tv & Et & Htv); [by destruct tm|].
    unfold take_address, bind, get. cbn [mbind option_bind]. rewrite Eh. cbn [mbind option_bind modify]. rewrite Et. cbn [mbind option_bind modify].
    eexists. split; [done|]. by split_and!. }
  apply does_bind. eapply does_ret; [exact E1|]. apply does_bind. eapply does_ret; [done|].
  destruct (getaddrinfo _ _ _ AF_INET) as [rv|l]; [destruct (getaddrinfo _ _ _ AF_INET6) as [rv'|l]|].
  - eapply does_ret; [done|]. right. split; [done|]. exists [], Read.REDIS_ERR_OTHER. eexists. split; [done|]. cbn [n_calls with_c n_c n_fd]. rewrite app_nil_r, Hc, Hfd.
    split_and!; try done. left. split; [done | by right].
  - eapply does_mono; [by apply try_addrs_spec|]. intros r n'. by apply result_tries.
  - eapply does_mono; [by apply try_addrs_spec|]. intros r n'. by apply result_tries.
Qed.

(** A socket that is not connected yet. *)
Definition working (n m : net) : Prop := n_c m = n_c n /\ exists t, n_calls m = n_calls n ++ t /\ opens (fds n) (n_fd m) t.

Lemma working_step n m op : working n m -> does m op (outcome m) ->
  does m op (fun r m' => (r = Read.REDIS_OK /\ working n m' /\ n_timeout m' = n_timeout m /\ n_path m' = n_path m) \/ (r = Read.REDIS_ERR /\ refused n m')).
Proof.
  intros [Hc (t & Ht & Ho)] Hop. eapply does_mono; [exact Hop|]. intros r m' (e & t' & [(-> & Hh & ->)|(-> & fd & ty & msg & Hty & Hg & ->)]); [left | right]; (split; [done|]).
  - split; [|done]. split; [done|]. exists (t ++ t'). cbn [st n_calls n_fd]. rewrite Ht, app_assoc. split; [done|]. by apply opens_harmless.
  - exists (t ++ t'), ty, msg. cbn [st n_calls n_c n_fd]. rewrite Ht, app_assoc, Hc. split_and!; try done. by eapply opens_given_up.
Qed.

(** The rest of a function that stops at the first failure. *)
Lemma stop_or n m op k : does m op (fun r m' => (r = Read.REDIS_OK /\ working n m' /\ n_timeout m' = n_timeout m /\ n_path m' = n_path m) \/ (r = Read.REDIS_ERR /\ refused n m')) ->
  (forall m', working n m' -> n_timeout m' = n_timeout m -> n_path m' = n_path m -> does m' k (result n)) ->
  does m (let& ret := op in if negb (ret =? Read.REDIS_OK) then pure Read.REDIS_ERR else k) (result n).
Proof.
  intros Hop Hk. apply does_bind. eapply does_mono; [exact Hop|]. intros r m' [(-> & Hw & Htm & Hp)|(-> & Hr)]; [by apply Hk|]. eapply does_ret; [done|]. by right.
Qed.

Lemma connect_unix_spec path tm n : has_memory -> match path with Null => False | Own => is_Some (n_path n) | Passed _ => True end -> sane_arg tm n ->
  does n (redisContextConnectUnix strerror os path tm) (result n).
Proof.
  intros Hmem Hpath Hs. unfold redisContextConnectUnix. apply does_bind. eapply does_ret; [done|]. apply does_bind. unfold redisCreateSocket. apply does_bind. eapply does_ret; [apply sys_st|].
  destruct (os (n_calls n) _) as [s|e] eqn:E.
  2:{ eapply does_ret; [done|]. eapply does_ret; [done|]. right. split; [done|]. eexists _, Read.REDIS_ERR_IO, _. split; [done|]. split; [done|]. split; [done|]. left. split; [by split | by right]. }
  pose proof (socket_opens n _ _ _ _ E) as Ho. apply does_bind. eapply does_ret; [done|]. change (AF_LOCAL =? AF_INET) with false. eapply does_ret; [done|]. cbn [Z.ltb Read.REDIS_OK]. 
  set (m0 := with_fd s _). assert (working n m0) as Hw0 by (split; [done|]; by eexists).
  apply (stop_or n). { apply working_step; [done|]. apply redisSetBlocking_spec. destruct Ho; cbn; lia. }
  intros m1 Hw1 Htm1 Hp1. assert (exists text, (match path with Null => undefined | Own => match n_path n with Some s => pure s | None => undefined end | Passed s => pure s end) m1 = Some (text, m1)) as [text Et].
  { destruct path; [done| |by eexists]. destruct Hpath as [x ->]. by eexists. }
  apply does_bind. eapply does_ret; [exact Et|]. apply does_bind. eapply does_ret; [done|]. set (m2 := with_unix _ m1).
  destruct (take_sane tm m2 Hmem) as (tv & Etv & Hsane); [destruct tm; try done; cbn [sane_arg] in *; change (n_timeout m2) with (n_timeout m1); by rewrite Htm1|].
  apply does_bind. eapply does_ret; [exact Etv|]. apply does_bind. eapply does_ret; [done|]. set (m3 := with_timeout tv m2).
  assert (working n m3) as Hw3 by exact Hw1. apply does_bind. eapply does_ret; [apply sys_st|]. set (a := os _ (Connect _ _)). set (m4 := st m3 _ _ _ _).
  assert (working n m4) as Hw4.
  { destruct Hw3 as [Hc (t & Ht & Hop)]. split; [done|]. exists (t ++ [(Connect (n_fd m3) (take 107 text), a)]). cbn [m4 st n_calls n_fd]. rewrite Ht, app_assoc. split; [done|]. apply opens_harmless; [done | by repeat constructor]. }
  assert (0 <= n_fd m4) as Hfd4 by (destruct Hw4 as [_ (t & _ & Hop & _)]; lia).
  assert (forall m, m = m4 -> does m (pure Read.REDIS_OK) (outcome m)) as Hpure by (intros m ->; eapply does_ret; [done|]; exists (n_errno m4), []; left; split; [done|]; split; [constructor | exact (st_same m4)]).
  apply (stop_or n).
  - apply working_step; [done|]. destruct a as [v|e] eqn:Ea; [by apply Hpure|]. destruct (_ && _); [by apply Hpure|]. apply does_bind. eapply does_ret; [done|].
    rewrite (st_same m4) at 1. apply redisContextWaitReady_spec; [exact Hsane | done | constructor].
  - intros m5 Hw5 _ _. assert (0 <= n_fd m5) as Hfd5 by (destruct Hw5 as [_ (t & _ & Hop & _)]; lia). apply (stop_or n).
    + apply working_step; [done|]. destruct (Context.blocking _); [by apply redisSetBlocking_spec|]. eapply does_ret; [done|]. exists (n_errno m5), []. left. split; [done|]. split; [constructor | exact (st_same m5)].
    + intros m6 [Hc6 (t6 & Ht6 & Ho6)] _ _. eapply does_ret; [done|]. left. split; [done|]. exists t6. cbn [with_c n_calls n_c n_fd]. split; [done|]. split; [by rewrite Hc6 | done].
Qed.

(** A request for a connection. *)
Inductive request := Tcp (ip : bytes) (port : Z) (timeout : option timeval) (source : option bytes) | Unix (path : bytes) (timeout : option timeval).

Definition to_arg {A} (o : option A) : arg A := match o with None => Null | Some x => Passed x end.

Definition run_request (q : request) : N Z :=
  match q with
  | Tcp ip port tm source => redisContextConnectBindTcp strerror os getaddrinfo gai_strerror (Passed ip) port (to_arg tm) (to_arg source)
  | Unix path tm => redisContextConnectUnix strerror os (Passed path) (to_arg tm)
  end.

Definition timeout_of (q : request) : option timeval := match q with Tcp _ _ tm _ => tm | Unix _ tm => tm end.

Lemma request_spec q n : has_memory -> sane (timeout_of q) -> reuses (n_c n) = false -> does n (run_request q) (result n).
Proof.
  intros Hmem Hs Hr. assert (forall tm, sane tm -> sane_arg (to_arg tm) n) as Harg by (intros [tv|] Htv; [by apply Htv | done]).
  destruct q as [ip port tm source|path tm]; cbn [run_request timeout_of] in *; [by apply connect_tcp_spec; auto | by apply connect_unix_spec; auto].
Qed.

(** C13: the sockets keep the promise that connections rely on. Whatever the operating system
    answers to the calls of a connection over TCP or over a path, blocking or not, with any
    source address and list of addresses, the function returns, and its effect on the context
    is that of one of the two outcomes of [redisContextConnect]: connected, with an open
    descriptor and no error; or not connected, with an error and the result ERR. This is
    without REDIS_REUSEADDR ([reuse_leaks] shows what happens with it), with memory, without a
    timeout or with one whose milliseconds do not overflow, and for a system whose new sockets
    have descriptors that were not open. *)
Theorem connect_outcome (q : request) (n : net) (Hmem : has_memory) (Htimeout : sane (timeout_of q)) (Hreuse : reuses (n_c n) = false) :
  exists ret n' r, run_request q n = Some (ret, n') /\ n_c n' = (redisContextConnect (n_c n) r).1 /\
    match r with
    | Connected _ => ret = Read.REDIS_OK /\ n_fd n' ∈ open_fds base (n_calls n')
    | Failed type _ => ret = Read.REDIS_ERR /\ type <> 0
    end.
Proof.
  destruct (request_spec q n Hmem Htimeout Hreuse) as (ret & n' & E & [(-> & t & Ht & Hc & Ho)|(-> & t & ty & msg & Hty & Ht & Hc & _)]).
  - exists Read.REDIS_OK, n', (Connected (mk_socket [] [] [])). split_and!; try done. destruct Ho as (_ & _ & Ho & _). rewrite Ht, open_fds_app, Ho. set_solver.
  - by exists Read.REDIS_ERR, n', (Failed ty msg).
Qed.

Lemma init_context reader_ok c : redisContextInit reader_ok = Some (Some c) -> cflags c = 0 /\ forall h, Context.redisFree c h = Some h.
Proof.
  unfold redisContextInit, redisReaderCreate, Read.redisReaderCreateWithFunctions. destruct (negb (malloc_ok _)); [done|].
  destruct Sds.sdsempty as [[b|]|]; cbn [mbind option_bind]; [|by destruct (negb reader_ok)|done]. destruct (negb reader_ok); cbn [mbind option_bind]; [done|].
  by intros [= <-].
Qed.

(** C14: no descriptor is lost. A connection over TCP or over a path, blocking or not but without
    REDIS_REUSEADDR ([reuse_leaks] shows the descriptors that are lost with it), with memory,
    and without a timeout or with one whose milliseconds do not overflow, is made and freed
    again: whatever the operating system answers (new sockets having descriptors that were not
    open), and however far it got, the same
    descriptors are open as before, and none was closed that was not open. *)
Theorem connect_no_leak (q : request) (block : bool) (reader_ok : bool) (c : redisContext) (e : Z) (t : history) (h : heap) (Hmem : has_memory)
    (Htimeout : sane (timeout_of q)) (Hinit : redisContextInit reader_ok = Some (Some c)) (Htidy : tidy base t) :
  exists n t', connect_by (if block then set_block else clear_block) reader_ok (run_request q) e t = Some (Some n) /\
    redisFree os n h = Some (t', h) /\ open_fds base t' = open_fds base t /\ tidy base t'.
Proof.
  destruct (init_context reader_ok c Hinit) as [Hflags Hfree]. unfold connect_by. rewrite Hinit. cbn [mbind option_bind]. set (n0 := new_net _ e t).
  assert (reuses (n_c n0) = false) as Hr by (unfold reuses, n0; cbn [n_c new_net]; destruct block; cbn [set_block clear_block set_flags cflags]; by rewrite Hflags).
  assert (forall h, Context.redisFree (n_c n0) h = Some h) as Hf0 by (intros h'; rewrite <- (Hfree h'); by destruct block).
  destruct (request_spec q n0 Hmem Htimeout Hr) as (ret & n & E & Hres). rewrite E. cbn [mbind option_bind]. exists n.
  assert (Context.redisFree (n_c n) h = Some h) as Hfn by (destruct Hres as [(_ & t1 & _ & -> & _)|(_ & t1 & ty & msg & _ & _ & -> & _)]; exact (Hf0 h)).
  assert (exists t1, n_calls n = t ++ t1 /\ leaves_fd (open_fds base t) 0 (n_fd n) t1) as (t1 & Ht1 & Hl) by (destruct Hres as [(_ & t1 & Ht1 & _ & Ho)|(_ & t1 & ty & msg & _ & Ht1 & _ & Ho)]; exists t1; split; try done; by right).
  unfold redisFree. destruct (Z.ltb_spec 0 (n_fd n)) as [Hp|Hp].
  - eexists. split; [done|]. cbn [bind sys pure mbind option_bind after_call n_c n_calls]. rewrite Hfn. split; [done|]. destruct Hl as [[_ [Hx|Hx]]|Ho]; [lia..|].
    set (a := os _ _). destruct (opens_close _ _ _ a Ho) as [H1 H2]. rewrite Ht1, <- app_assoc. split; [by rewrite open_fds_app|]. by apply tidy_app.
  - exists (n_calls n). split; [done|]. cbn [pure mbind option_bind]. rewrite Hfn. split; [done|]. destruct Hl as [[[H1 H2] _]|[Ho _]]; [|lia]. rewrite Ht1.
    split; [by rewrite open_fds_app|]. by apply tidy_app.
Qed.

End Attempts.

(** C15: the time to wait for a connection is computed without overflow for every timeout that a
    caller may mean: one of more seconds than the limit is refused; any other is rounded up to
    milliseconds and limited to the largest [int], so that the wait is never shorter than
    asked for below this limit. *)
Theorem wait_msec_bounds (tv : timeval) (Hsec : 0 <= tv_sec tv <= LONG_MAX) (Husec : 0 <= tv_usec tv <= 1000000) :
  wait_msec tv = Some (if MAX_MSEC <? tv_sec tv then None else Some (Z.min INT_MAX (tv_sec tv * 1000 + (tv_usec tv + 999) / 1000))) /\
  (forall m, wait_msec tv = Some (Some m) -> 0 <= m <= INT_MAX /\ (m < INT_MAX -> tv_sec tv * 1000000 + tv_usec tv <= m * 1000)).
Proof.
  assert (0 <= (tv_usec tv + 999) / 1000 <= 1000) as Hq by (split; [apply Z.div_pos; lia | apply Z.lt_succ_r, Z.div_lt_upper_bound; lia]).
  assert (tv_usec tv <= (tv_usec tv + 999) / 1000 * 1000) as Hup by (pose proof (Z.div_mod (tv_usec tv + 999) 1000 ltac:(done)); pose proof (Z.mod_pos_bound (tv_usec tv + 999) 1000 ltac:(done)); lia).
  assert (wait_msec tv = Some (if MAX_MSEC <? tv_sec tv then None else Some (Z.min INT_MAX (tv_sec tv * 1000 + (tv_usec tv + 999) / 1000)))) as E.
  { unfold wait_msec. rewrite (proj2 (Z.ltb_ge 1000000 _)) by lia. cbn [orb]. destruct (Z.ltb_spec MAX_MSEC (tv_sec tv)) as [|Hm]; [done|].
    change MAX_MSEC with 9223372036854774 in Hm. assert (forall z, LONG_MIN <= z <= LONG_MAX -> long z = Some z) as Hlong by (intros z Hz; unfold long; by rewrite !(proj2 (Z.leb_le _ _)) by lia).
    unfold LONG_MIN, LONG_MAX in *. rewrite Hlong by lia. cbn [mbind option_bind]. rewrite Hlong by lia. cbn [mbind option_bind]. rewrite Z.quot_div_nonneg, Hlong by lia. cbn [mbind option_bind].
    change INT_MAX with 2147483647. rewrite (proj2 (Z.ltb_ge _ 0)) by lia. cbn [orb]. do 2 f_equal. destruct (Z.ltb_spec 2147483647 (tv_sec tv * 1000 + (tv_usec tv + 999) / 1000)); lia. }
  split; [exact E|]. intros m Em. rewrite E in Em. destruct (MAX_MSEC <? tv_sec tv); [done|]. injection Em as <-. unfold INT_MAX in *. lia.
Qed.

(** ** Examples *)

Section Demo.
#[local] Existing Instance demo_memory.

(** A descriptor above all numbers that were answered. *)
Definition demo_next (t : history) : Z := 1 + foldr (fun x m => match x.2 with Ok v => Z.max v m | Err _ => m end) 2 t.

(** A system that answers [connect] with [e], or accepts. *)
Definition demo_os (e : option Z) (t : history) (c : call) : answer :=
  match c with
  | Socket _ _ _ => Ok (demo_next t)
  | Connect _ _ => match e with Some e => Err e | None => Ok 0 end
  | Poll _ _ => Ok 1
  | _ => Ok 0
  end.

Definition demo_gai (ok : bool) (_ : history) (_ _ : option bytes) (_ : Z) : Z + list addrinfo :=
  if ok then inr [mk_addrinfo AF_INET SOCK_STREAM 6 [1]; mk_addrinfo AF_INET SOCK_STREAM 6 [2]] else inl 1.
Definition demo_gai_strerror (_ : Z) : bytes := bstr "unknown".

Definition demo_base : gset Z := {[0; 1; 2]}.

Lemma open_from t : forall s x, x ∈ open_fds s t -> x ∈ s \/ exists c, (c, Ok x) ∈ t.
Proof.
  induction t as [|[c a] t IH]; intros s x Hx; [by left|]. change (open_fds s ((c, a) :: t)) with (open_fds (fd_step s (c, a)) t) in Hx.
  destruct (IH _ _ Hx) as [Hs|[c' Hc]]; [|right; exists c'; set_solver]. destruct c; cbn [fd_step] in Hs; try (by left); [|left; set_solver].
  destruct a as [v|e]; [|by left]. apply elem_of_union in Hs as [Hs|Hs]; [|by left]. apply elem_of_singleton in Hs as ->. right. eexists. left.
Qed.

Lemma demo_next_above t : (3 <= demo_next t) /\ forall c x, (c, Ok x) ∈ t -> x < demo_next t.
Proof.
  unfold demo_next. induction t as [|[c a] t [IH1 IH2]]; cbn [foldr snd]; [split; [lia|]; intros c x Hx; by apply not_elem_of_nil in Hx|]. split; [destruct a; lia|].
  intros c' x Hx. apply elem_of_cons in Hx as [[= <- <-]|Hx]; [lia|]. specialize (IH2 c' x Hx). destruct a; lia.
Qed.

Lemma demo_sockets_fresh e : fresh_sockets (demo_os e) demo_base.
Proof.
  intros t f ty p v E. injection E as <-. destruct (demo_next_above t) as [H3 Hlt]. split; [lia|]. intros Hin. apply open_from in Hin as [Hb|[c Hc]]; [|apply Hlt in Hc; lia].
  unfold demo_base in Hb. set_unfold in Hb. lia.
Qed.

Definition demo_tcp : request := Tcp (bstr "::1") 6379 (Some (mk_timeval 1 500000)) None.

Lemma demo_sane : sane (timeout_of demo_tcp).
Proof. intros tv [= <-]. vm_compute. by eexists. Qed.

Definition demo_new : redisContext := mk_context 0 [] 0 (Some (Sds.mk_sds 0 0 [0])) (Some demo_reader_heap).
Definition demo_net : net := new_net (set_block demo_new) 0 [].

(** A connection that is in progress is waited for. *)
Lemma connect_outcome_witness :
  exists ret n' r, run_request Context.demo_strerror (demo_os (Some EINPROGRESS)) (demo_gai true) demo_gai_strerror demo_tcp demo_net = Some (ret, n') /\
    n_c n' = (redisContextConnect (n_c demo_net) r).1 /\
    match r with
    | Connected _ => ret = Read.REDIS_OK /\ n_fd n' ∈ open_fds demo_base (n_calls n')
    | Failed type _ => ret = Read.REDIS_ERR /\ type <> 0
    end /\ ret = Read.REDIS_OK.
Proof.
  destruct (connect_outcome Context.demo_strerror (demo_os (Some EINPROGRESS)) (demo_gai true) demo_gai_strerror demo_base (demo_sockets_fresh _) demo_tcp demo_net demo_has_memory demo_sane eq_refl)
    as (ret & n' & r & E & Hc & Hr).
  exists ret, n', r. split; [exact E|]. split; [exact Hc|]. split; [exact Hr|]. vm_compute in E. by injection E as <- _.
Defined.

(** A host that cannot be reached. *)
Lemma connect_no_leak_witness : exists n t',
  connect_by set_block true (run_request Context.demo_strerror (demo_os (Some EHOSTUNREACH)) (demo_gai true) demo_gai_strerror demo_tcp) 0 [] = Some (Some n) /\
  redisFree (demo_os (Some EHOSTUNREACH)) n ∅ = Some (t', ∅) /\ open_fds demo_base t' = demo_base /\ tidy demo_base t'.
Proof.
  apply (connect_no_leak Context.demo_strerror (demo_os (Some EHOSTUNREACH)) (demo_gai true) demo_gai_strerror demo_base (demo_sockets_fresh _) demo_tcp true true demo_new 0 [] ∅ demo_has_memory demo_sane);
    [vm_compute; reflexivity | exact I].
Defined.

Lemma wait_msec_bounds_witness : wait_msec (mk_timeval 1 500001) = Some (Some 1501) /\ 1 * 1000000 + 500001 <= 1501 * 1000.
Proof.
  destruct (wait_msec_bounds (mk_timeval 1 500001) ltac:(vm_compute; split; discriminate) ltac:(vm_compute; split; discriminate)) as [E Hm].
  split; [exact E | exact (proj2 (Hm 1501 E) ltac:(vm_compute; reflexivity))].
Defined.

(** *** What goes wrong *)

Definition demo_reuse : option net :=
  redisConnectBindNonBlockWithReuse Context.demo_strerror (demo_os (Some EADDRNOTAVAIL)) (demo_gai true) demo_gai_strerror true (bstr "::1") 6379 (bstr "::2") 0 [].

(** With [REDIS_REUSEADDR] an address that is not available is tried ten times: the sockets of
    the rounds before are never closed, and the context that is returned has no error. *)
Lemma reuse_leaks : exists n t', demo_reuse = Some n /\ cerr (n_c n) = 0 /\ Z.land (cflags (n_c n)) REDIS_CONNECTED = 0 /\
  redisFree (demo_os (Some EADDRNOTAVAIL)) n ∅ = Some (t', ∅) /\ size (open_fds demo_base t') = (size demo_base + 9)%nat.
Proof. unfold demo_reuse. eexists _, _. split; [vm_compute; reflexivity|]. split; [reflexivity|]. split; [reflexivity|]. split; [vm_compute; reflexivity | vm_compute; reflexivity]. Qed.

(** [redisReconnect] closes the descriptor and keeps its number: when the name cannot be resolved
    any more, [redisFree] closes it again. *)
Lemma reconnect_closes_twice : exists n0 ret n t',
  redisConnect Context.demo_strerror (demo_os None) (demo_gai true) demo_gai_strerror true (bstr "::1") 6379 0 [] = Some (Some n0) /\
  redisReconnect Context.demo_strerror (demo_os None) (demo_gai false) demo_gai_strerror true n0 ∅ = Some (ret, n, ∅) /\
  redisFree (demo_os None) n ∅ = Some (t', ∅) /\ length (filter (fun x => Is_true (match x with (Close fd, _) => fd =? 3 | _ => false end)) t') = 2%nat.
Proof. eexists _, _, _, _. split; [vm_compute; reflexivity|]. split; [vm_compute; reflexivity|]. split; [vm_compute; reflexivity|]. vm_compute. reflexivity. Qed.

End Demo.

End Net.
