(* ===== verification/Conn.v ===== *)
(** The connections of a cluster: the interface hircluster.c uses of hiredis.c, its
    implementation by the contexts and sockets of [Context], and what it promises: a
    connection whose server answers is given the replies to its commands, and does not
    disturb the others. *)
From S2P Require Import Prelude Sds Read Format Reply Context.
Import Reply.

Open Scope Z_scope.

Module Conn.

Import Context.

(** ** The interface *)

(** A context is named by its place in the memory of contexts. *)
Abbreviation handle := nat.

(** The operations on contexts that hircluster.c calls. *)
Class Connections := {
  conns : Type;
  con_error : conns -> handle -> option (Z * bytes);
  con_blocking : conns -> handle -> option bool;
  con_connect : bytes -> Z -> conns -> option (run (option handle * conns));
  con_reconnect : handle -> conns -> heap -> option (run (conns * heap));
  con_append : handle -> bytes -> Z -> conns -> option (Z * conns);
  con_reply : handle -> conns -> heap -> option (run (Z * option loc * conns * heap));
  con_command : handle -> bytes -> conns -> heap -> option (run (option loc * conns * heap));
  con_flush : handle -> conns -> option (run (Z * conns));
  con_free : handle -> conns -> heap -> option (conns * heap);
}.

(** A context that was made and is not released yet. *)
Definition live {C : Connections} (n : conns) (c : handle) : Prop := is_Some (con_error n c).

(** What is left to be said over a connection: the texts of commands and the values of the
    replies, one after the other. *)
Abbreviation script := (list (bytes * value)).

(** A format without directives, as items, and the words it stands for. *)
Definition items_of (fmt : bytes) : list Format.item := map (fun c => if c =? 32 then Format.Space else Format.Char c) fmt.
Definition plain_words (fmt : bytes) : list bytes := Format.words (fun _ _ => []) None (items_of fmt).
Definition plain (fmt : bytes) : Prop := Forall (fun c => c <> 0 /\ c <> 37) fmt /\ Format.fmt_fits (plain_words fmt).

(** The promises. [talks n c s]: the context [c] is connected and idle, and the server will
    answer the commands of [s] in their order. [dials n ds]: the next attempts to connect are
    to these addresses, and will be answered by servers that play these scripts. Only
    connecting makes a context, and only releasing takes one away. *)
Class ConnLaws (C : Connections) := {
  talks : conns -> handle -> script -> Prop;
  dials : conns -> list (bytes * Z * script) -> Prop;
  talks_error : forall n c s, talks n c s -> fst <$> con_error n c = Some 0;
  talks_exchange : forall n c text v s cmd, talks n c ((text, v) :: s) -> take (length text) cmd = text ->
    exists n1, con_append c cmd (zlen text) n = Some (Read.REDIS_OK, n1) /\ fst <$> con_error n1 c = Some 0 /\ con_blocking n1 c = Some true /\
    forall h, exists l m n2, con_reply c n1 h = Some (Ret (Read.REDIS_OK, Some l, n2, m ∪ h)) /\ tree v l m /\ m ##ₘ h /\ talks n2 c s /\
      (forall c' s', c' <> c -> talks n c' s' -> talks n2 c' s') /\ (forall ds, dials n ds -> dials n2 ds) /\ (forall c', live n2 c' <-> live n c');
  talks_command : forall n c fmt v s h, talks n c ((Format.encode (plain_words fmt), v) :: s) -> plain fmt ->
    exists l m n2, con_command c fmt n h = Some (Ret (Some l, n2, m ∪ h)) /\ tree v l m /\ m ##ₘ h /\ talks n2 c s /\
      (forall c' s', c' <> c -> talks n c' s' -> talks n2 c' s') /\ (forall ds, dials n ds -> dials n2 ds) /\ (forall c', live n2 c' <-> live n c');
  talks_connect : forall n host port s ds, dials n ((host, port, s) :: ds) ->
    exists c n2, con_connect host port n = Some (Ret (Some c, n2)) /\ talks n2 c s /\ dials n2 ds /\
      (forall c' s', talks n c' s' -> c' <> c /\ talks n2 c' s') /\ ~ live n c /\ (forall c', live n2 c' <-> c' = c \/ live n c');
  talks_free : forall n c s h, talks n c s ->
    exists n2, con_free c n h = Some (n2, h) /\ (forall c' s', c' <> c -> talks n c' s' -> talks n2 c' s') /\ (forall ds, dials n ds -> dials n2 ds) /\
      (forall c', live n2 c' <-> live n c' /\ c' <> c);
}.

(** The promises about pipelines. [asks n c todo owed]: the context [c] is connected, it was
    given commands whose replies [owed] are still to be fetched, and it may be given the
    commands [todo]; once a reply was fetched there are none left to give. *)
Class PipeLaws (C : Connections) := {
  asks : conns -> handle -> script -> list value -> Prop;
  asks_error : forall n c todo owed, asks n c todo owed -> fst <$> con_error n c = Some 0;
  asks_blocking : forall n c todo owed, asks n c todo owed -> con_blocking n c = Some true;
  asks_append : forall n c text v todo owed cmd, asks n c ((text, v) :: todo) owed -> take (length text) cmd = text ->
    exists n2, con_append c cmd (zlen text) n = Some (Read.REDIS_OK, n2) /\ asks n2 c todo (owed ++ [v]) /\
      forall c' todo' owed', c' <> c -> asks n c' todo' owed' -> asks n2 c' todo' owed';
  asks_flush : forall n c owed, asks n c [] owed -> exists n2, con_flush c n = Some (Ret (Read.REDIS_OK, n2)) /\ asks n2 c [] owed /\
      forall c' todo' owed', c' <> c -> asks n c' todo' owed' -> asks n2 c' todo' owed';
  asks_reply : forall n c v owed h, asks n c [] (v :: owed) ->
    exists l m n2, con_reply c n h = Some (Ret (Read.REDIS_OK, Some l, n2, m ∪ h)) /\ tree v l m /\ m ##ₘ h /\ asks n2 c [] owed /\
      forall c' todo' owed', c' <> c -> asks n c' todo' owed' -> asks n2 c' todo' owed';
}.

(** ** The implementation *)

Section Network.
Context `{Memory} (strerror : Z -> bytes) (vsnprintf : bytes -> Format.farg -> bytes).

(** The contexts with their sockets, none once they are released, and what the attempts to
    connect will come to; [dialled] are the addresses that were tried. *)
Record network := mk_network {
  ctxs : list (option (redisContext * socket));
  answers : list cres;
  dialled : list (bytes * Z);
}.

Definition net_get (n : network) (c : handle) : option (redisContext * socket) := mjoin (ctxs n !! c).

Definition net_set (n : network) (c : handle) (x : option (redisContext * socket)) : network :=
  mk_network (<[c := x]> (ctxs n)) (answers n) (dialled n).

(** [sizeof(redisReader)]. *)
Definition reader_size : Z := 560.

(** The default functions make objects, never the numbers a client without functions gets. *)
Definition object (v : option (Read.vptr loc)) : option (option loc) :=
  match v with None => Some None | Some (Read.Obj l) => Some (Some l) | Some (Read.Cast _) => None end.

Definition net_error (n : network) (c : handle) : option (Z * bytes) :=
  '(x, _) ← net_get n c; Some (cerr x, cerrstr x).

Definition net_blocking (n : network) (c : handle) : option bool := '(x, _) ← net_get n c; Some (blocking x).

Definition net_connect (host : bytes) (port : Z) (n : network) : option (run (option handle * network)) :=
  match answers n with
  | [] => Some Blocked
  | r :: rs =>
      x ← redisConnect (malloc_ok reader_size) r;
      match x with
      | None => Some (Ret (None, n))
      | Some x => Some (Ret (Some (length (ctxs n)), mk_network (ctxs n ++ [Some x]) rs (dialled n ++ [(host, port)])))
      end
  end.

Definition net_reconnect (c : handle) (n : network) (h : heap) : option (run (network * heap)) :=
  '(x, _) ← net_get n c;
  match answers n with
  | [] => Some Blocked
  | r :: rs =>
      '(x, s, h) ← redisReconnect x (malloc_ok reader_size) r h;
      Some (Ret (mk_network (<[c := Some (x, s)]> (ctxs n)) rs (dialled n), h))
  end.

Definition net_append (c : handle) (cmd : bytes) (len : Z) (n : network) : option (Z * network) :=
  '(x, s) ← net_get n c;
  '(ret, x) ← redisAppend x cmd len;
  Some (ret, net_set n c (Some (x, s))).

Definition net_reply (c : handle) (n : network) (h : heap) : option (run (Z * option loc * network * heap)) :=
  '(x, s) ← net_get n c;
  let+ (ret, rep, x, h, s) := redisGetReply strerror x h s in
  rep ← object rep;
  Some (Ret (ret, rep, net_set n c (Some (x, s)), h)).

(** [redisCommand] with a format without directives, a C string. *)
Definition net_command (c : handle) (format : bytes) (n : network) (h : heap) : option (run (option loc * network * heap)) :=
  '(x, s) ← net_get n c;
  let+ (rep, x, h, s) := redisvCommand strerror vsnprintf x (format ++ [0]) [] h s in
  rep ← object rep;
  Some (Ret (rep, net_set n c (Some (x, s)), h)).

(** The loop over [redisBufferWrite]. *)
Definition net_flush (c : handle) (n : network) : option (run (Z * network)) :=
  '(x, s) ← net_get n c;
  let+ (ret, x, s) := write_loop strerror (S (length (wplan s))) x s in
  Some (Ret (ret, net_set n c (Some (x, s)))).

Definition net_free (c : handle) (n : network) (h : heap) : option (network * heap) :=
  '(x, _) ← net_get n c;
  h ← redisFree x h;
  Some (net_set n c None, h).

#[local] Instance sockets : Connections := {|
  conns := network;
  con_error := net_error;
  con_blocking := net_blocking;
  con_connect := net_connect;
  con_reconnect := net_reconnect;
  con_append := net_append;
  con_reply := net_reply;
  con_command := net_command;
  con_flush := net_flush;
  con_free := net_free;
|}.

End Network.

(** ** The promises are kept *)

Section Laws.
Context `{Memory} (Hmem : has_memory) (strerror : Z -> bytes) (vsnprintf : bytes -> Format.farg -> bytes).

(** The answers of the socket play the script, after [k] bytes were read. *)
Fixpoint plays (k : Z) (w : list wres) (r : list rres) (s : script) : Prop :=
  match s with
  | [] => True
  | (text, v) :: s' =>
      Sds.fits (zlen text + 1) /\ sendable 8 v /\
      exists w' p r', takes w (zlen text) = Some w' /\ r = p ++ r' /\ Forall delivery p /\ data p = resp v /\
        Sds.fits (k + zlen (resp v)) /\ plays (k + zlen (resp v)) w' r' s'
  end.

Definition net_talks (n : network) (c : handle) (s : script) : Prop :=
  exists x sk k, net_get n c = Some (x, sk) /\ 0 <= k /\ (forall h, idle k x h) /\ plays k (wplan sk) (rplan sk) s.

Lemma plays_later k w p r s : Forall delivery p -> data p = [] -> plays k w r s -> plays k w (p ++ r) s.
Proof.
  intros Hp Hd. destruct s as [|[text v] s]; [done|]. cbn [plays]. intros (Hf & Hs & w' & p' & r' & Ht & -> & Hp' & Hd' & Hz & Hpl).
  split_and!; try done. exists w', (p ++ p'), r'. split_and!; try done; [by rewrite app_assoc | by apply Forall_app_2 |].
  unfold data in *. by rewrite flat_map_app, Hd, Hd'.
Qed.

Lemma idle_heap k x unsent h h' : at_work k x unsent [] None [] h -> at_work k x unsent [] None [] h'.
Proof. intros (He & Hb & Ho & (r & Hr & [Hs Hi Hid _])). split_and!; try done. exists r. split; [done|]. by split. Qed.

Lemma net_get_set n c x : is_Some (net_get n c) -> net_get (net_set n c (Some x)) c = Some x.
Proof.
  unfold net_get, net_set. intros [y Hy]. destruct (ctxs n !! c) as [z|] eqn:E; [|done]. cbn [ctxs].
  by rewrite list_lookup_insert_eq by (by eapply lookup_lt_Some).
Qed.

Lemma net_get_other n c c' x : c' <> c -> net_get (net_set n c x) c' = net_get n c'.
Proof. intros Hne. unfold net_get, net_set. cbn [ctxs]. by rewrite list_lookup_insert_ne. Qed.

Abbreviation net_live n c := (is_Some (net_error n c)).

Lemma net_live_get n c : net_live n c <-> is_Some (net_get n c).
Proof. unfold net_error. destruct (net_get n c) as [[x sk]|]; cbn; split; by intros [? ?]. Qed.

Lemma net_live_set n c x c' : is_Some (net_get n c) -> net_live (net_set n c (Some x)) c' <-> net_live n c'.
Proof.
  intros Hc. rewrite !net_live_get. destruct (decide (c' = c)) as [->|Hne]; [|by rewrite net_get_other]. rewrite net_get_set by done. split; by intros [? ?].
Qed.

Lemma net_live_unset n c c' : net_live (net_set n c None) c' <-> net_live n c' /\ c' <> c.
Proof.
  rewrite !net_live_get. destruct (decide (c' = c)) as [->|Hne]; [|rewrite net_get_other by done; tauto]. split; [|by intros [_ ?]].
  unfold net_get, net_set. cbn [ctxs]. destruct (decide (c < length (ctxs n))%nat).
  - rewrite list_lookup_insert_eq by done. by intros [? ?].
  - rewrite lookup_ge_None_2 by (rewrite length_insert; lia). by intros [? ?].
Qed.

Lemma talks_other n n' c s : net_get n' c = net_get n c -> net_talks n c s -> net_talks n' c s.
Proof. intros E (x & sk & k & Hg & Hrest). exists x, sk, k. by rewrite E. Qed.

Lemma trees_single v l m : trees [v] [Some l] m -> tree v l m.
Proof. intros Ht. inversion_clear Ht as [| |? ? ? ? ? ? H1 H2 _]. inversion_clear H2. by rewrite (right_id_L ∅ (∪)). Qed.

(** The next answers are connected sockets that play these scripts. *)
Definition net_dials (n : network) (ds : list (bytes * Z * script)) : Prop :=
  exists rs rest, answers n = rs ++ rest /\ Forall2 (fun (x : bytes * Z * script) r => exists sk, r = Connected sk /\ plays 0 (wplan sk) (rplan sk) x.2) ds rs.

Lemma net_exchange n c text v s cmd : net_talks n c ((text, v) :: s) -> take (length text) cmd = text ->
  exists n1, net_append c cmd (zlen text) n = Some (Read.REDIS_OK, n1) /\ fst <$> net_error n1 c = Some 0 /\ net_blocking n1 c = Some true /\
  forall h, exists l m n2, net_reply strerror c n1 h = Some (Ret (Read.REDIS_OK, Some l, n2, m ∪ h)) /\ tree v l m /\ m ##ₘ h /\ net_talks n2 c s /\
    (forall c' s', c' <> c -> net_talks n c' s' -> net_talks n2 c' s') /\ (forall ds, net_dials n ds -> net_dials n2 ds) /\ (forall c', net_live n2 c' <-> net_live n c').
Proof.
  intros (x & sk & k & Hg & Hk & Hid & Hf & Hsend & w' & p & r' & Ht & Er & Hp & Hd & Hz & Hpl) Hcmd.
  destruct (append_raw Hmem x k [] [] None [] ∅ cmd text (Hid ∅) Hcmd) as (x1 & E1 & Hx1); [done|]. cbn [app] in Hx1.
  exists (net_set n c (Some (x1, sk))). unfold net_append, net_error, net_blocking. rewrite Hg. cbn [mbind option_bind]. rewrite E1. cbn [mbind option_bind].
  assert (net_get (net_set n c (Some (x1, sk))) c = Some (x1, sk)) as Hg1 by (apply net_get_set; eauto). rewrite Hg1. cbn [mbind option_bind fmap option_fmap option_map fst].
  pose proof Hx1 as (He1 & Hb1 & _). rewrite He1, Hb1. split_and!; try done. intros h.
  destruct (pump_values Hmem [v] h ltac:(by apply Forall_cons)) as (ls & m & Ep & Htr & Hdis). cbn [flat_map] in Ep. rewrite app_nil_r, <- Hd in Ep.
  pose proof (trees_length _ _ _ Htr) as Hlen. rewrite length_map in Hlen. destruct ls as [|l [|? ?]]; [done| |done]. cbn [map] in *.
  rewrite <- Hd in Hz, Hpl.
  destruct (get_reply_spec Hmem strerror r' x1 sk p k text [] None [] h (Read.Obj l) [] _ (idle_heap _ _ _ _ h Hx1) Er Hp w' Ht Ep ltac:(done) Hk Hz)
    as (x2 & h2 & sk2 & p2 & k2 & inp2 & un2 & E2 & Hx2 & Er2 & Hp2 & Ht2 & Hh2 & _ & Hu2 & _ & Hz2 & Hk2 & _).
  cbn [Read.norm] in Hh2. apply pump_untouched in Hh2 as [Hn2 <-]. apply app_eq_nil in Hn2 as [-> Hd2]. rewrite (Hu2 (or_introl eq_refl)) in *.
  unfold net_reply. rewrite Hg1. cbn [mbind option_bind]. rewrite E2. cbn [Context.rbind object mbind option_bind].
  eexists l, m, _. split; [done|]. split; [by apply trees_single|]. split; [done|]. rewrite Hd2 in Hz2. change (zlen (@nil Z)) with 0 in Hz2. rewrite takes_nonpos in Ht2 by done. split.
  - exists x2, sk2, k2. split; [apply net_get_set; by eexists|]. split; [done|]. split; [intros h'; by eapply idle_heap|].
    injection Ht2 as ->. rewrite Er2. replace k2 with (k + zlen (data p)) by lia. by apply plays_later.
  - split; [intros c' s' Hne; apply talks_other; by rewrite !net_get_other|]. split; [done|]. intros c'. etrans; apply net_live_set; by eexists.
Qed.

Lemma plain_text fmt : flat_map Format.item_text (items_of fmt) = fmt /\
  flat_map Format.item_args (items_of fmt) = [].
Proof. induction fmt as [|c fmt [IH1 IH2]]; [done|]. cbn [items_of map flat_map]. fold (items_of fmt). rewrite IH1, IH2. destruct (Z.eqb_spec c 32); by subst. Qed.

Lemma plain_words_of fmt : forall cur, Format.words vsnprintf cur (items_of fmt) = Format.words (fun _ _ => []) cur (items_of fmt).
Proof.
  induction fmt as [|c fmt IH]; intros cur; [done|]. cbn [items_of map Format.words]. fold (items_of fmt). destruct (c =? 32); cbn [Format.is_space Format.item_bytes]; by rewrite IH.
Qed.

Lemma plain_format fmt : plain fmt -> Format.redisvFormatCommand vsnprintf (fmt ++ [0]) [] =
  Some (inr (zlen (Format.encode (plain_words fmt)), Format.encode (plain_words fmt) ++ [0])).
Proof.
  intros [Hc Hf]. destruct (plain_text fmt) as [Ht Ha].
  pose proof (Format.redisvFormatCommand_text vsnprintf (items_of fmt) []) as Hs. rewrite Ht, Ha, plain_words_of in Hs. fold (plain_words fmt) in Hs.
  assert (Forall (Format.item_ok vsnprintf) (items_of fmt)) as Hok.
  { apply List.Forall_map. eapply Forall_impl; [exact Hc|]. intros c [? ?]. by destruct (Z.eqb_spec c 32). }
  assert (0 ∉ fmt) as Hnul by (intros Hin; rewrite Forall_forall in Hc; by destruct (Hc 0 Hin)). specialize (Hs Hok Hnul Hf).
  destruct (Format.redisvFormatCommand _ _ _) as [[code|[len cmd]]|]; [destruct Hs as (_ & k & Hk); by rewrite Hmem in Hk | by destruct Hs as [-> ->] | done].
Qed.

Lemma net_command_spec n c fmt v s h : net_talks n c ((Format.encode (plain_words fmt), v) :: s) -> plain fmt ->
  exists l m n2, net_command strerror vsnprintf c fmt n h = Some (Ret (Some l, n2, m ∪ h)) /\ tree v l m /\ m ##ₘ h /\ net_talks n2 c s /\
    (forall c' s', c' <> c -> net_talks n c' s' -> net_talks n2 c' s') /\ (forall ds, net_dials n ds -> net_dials n2 ds) /\ (forall c', net_live n2 c' <-> net_live n c').
Proof.
  intros Ht Hp. destruct (net_exchange n c _ v s (Format.encode (plain_words fmt) ++ [0]) Ht) as (n1 & Ea & _ & Eb & Hr); [by apply take_app_length|].
  destruct (Hr h) as (l & m & n2 & Er & Htr & Hd & Ht2 & Ho). exists l, m, n2. split_and!; try done; try apply Ho.
  unfold net_append in Ea. unfold net_command. destruct (net_get n c) as [[x sk]|] eqn:Eg; [|done]. cbn [mbind option_bind] in *.
  unfold redisvCommand, redisvAppendCommand. rewrite plain_format by done. cbn [mbind option_bind]. unfold redisAppendFormattedCommand.
  assert (Sds.fits (zlen (Format.encode (plain_words fmt)) + 1)) as Hf by (by destruct Hp). unfold Sds.fits, INT_MAX, Sds.SDS_MAX_PREALLOC in Hf. zlen_pos.
  rewrite uwrap_small by lia. destruct (redisAppend x _ _) as [[ret x1]|]; [|done]. cbn [mbind option_bind] in *. injection Ea as -> <-. cbn [Z.eqb negb mbind option_bind].
  change (Read.REDIS_OK =? Read.REDIS_OK) with true. cbn [negb mbind option_bind].
  assert (net_get (net_set n c (Some (x1, sk))) c = Some (x1, sk)) as Hg1 by (apply net_get_set; eauto).
  unfold net_blocking in Eb. unfold net_reply in Er. rewrite Hg1 in Eb, Er. cbn [mbind option_bind] in Eb, Er. injection Eb as Eb.
  unfold redisBlockForReply. rewrite Eb. destruct (redisGetReply strerror x1 h sk) as [[[[[[ret rep] x2] h2] sk2]|]|]; [|done..]. cbn [Context.rbind] in *.
  destruct (object rep) as [o|] eqn:Eo; [|done]. cbn [mbind option_bind] in Er. injection Er as -> -> <- ->. change (Read.REDIS_OK =? Read.REDIS_OK) with true.
  cbn [negb Context.rbind]. rewrite Eo. cbn [mbind option_bind]. unfold net_set. cbn [ctxs answers dialled]. by rewrite list_insert_insert_eq.
Qed.

(** A connection by an address is idle. *)
Lemma connect_addr_idle sk x sk' h : redisConnect true (Connected sk) = Some (Some (x, sk')) -> sk' = sk /\ idle 0 x h.
Proof.
  unfold redisConnect, redisContextInit, redisReaderCreate. destruct (malloc_ok context_size); [|done]. cbn [negb].
  pose proof Sds.sdsempty_spec as He. destruct Sds.sdsempty as [[b|]|] eqn:Eb; cbn [mbind option_bind]; [| |done].
  - destruct (Read.redisReaderCreateWithFunctions true) as [[r|]|] eqn:Er; [|done..]. cbn. intros [= <- <-].
    split; [done|]. split_and!; try done; [by exists b|]. exists r. split; [done|]. by apply Read.create_ready.
  - by destruct (Read.redisReaderCreateWithFunctions true) as [[r|]|].
Qed.

Lemma connect_addr_ok sk : exists x, redisConnect true (Connected sk) = Some (Some (x, sk)).
Proof.
  unfold redisConnect, redisContextInit, redisReaderCreate. rewrite Hmem. cbn [negb].
  pose proof Sds.sdsempty_spec as He. destruct Sds.sdsempty as [[b|]|] eqn:Eb; [|by destruct He as [k Hk]; rewrite Hmem in Hk | done].
  cbn [mbind option_bind]. unfold Read.redisReaderCreateWithFunctions. rewrite Eb. cbn. by eexists.
Qed.

Lemma net_connect_spec n host port s ds : net_dials n ((host, port, s) :: ds) ->
  exists c n2, net_connect host port n = Some (Ret (Some c, n2)) /\ net_talks n2 c s /\ net_dials n2 ds /\
    (forall c' s', net_talks n c' s' -> c' <> c /\ net_talks n2 c' s') /\ ~ net_live n c /\ (forall c', net_live n2 c' <-> c' = c \/ net_live n c').
Proof.
  intros (rs & rest & Ea & Hf). inversion Hf as [|? ? ? rs' (sk & -> & Hp) Hf' E1 E2]; subst. unfold net_connect. rewrite Ea, Hmem. cbn [app].
  destruct (connect_addr_ok sk) as [x Ex]. rewrite Ex. cbn [mbind option_bind]. eexists _, _. split; [done|]. split_and!.
  - exists x, sk, 0. unfold net_get. cbn [ctxs]. rewrite list_lookup_middle by done. split_and!; try done. intros h. by apply (connect_addr_idle sk x sk).
  - by exists rs', rest.
  - intros c' s' (x' & sk' & k & Hg & Hrest). assert (c' < length (ctxs n))%nat as Hlt.
    { unfold net_get in Hg. destruct (ctxs n !! c') eqn:E; [|done]. by eapply lookup_lt_Some. }
    split; [lia|]. exists x', sk', k. split; [|done]. unfold net_get in *. cbn [ctxs]. by rewrite lookup_app_l.
  - rewrite net_live_get. unfold net_get. rewrite lookup_ge_None_2 by done. by intros [? ?].
  - intros c'. rewrite !net_live_get. unfold net_get. cbn [ctxs]. destruct (decide (c' < length (ctxs n))%nat); [rewrite lookup_app_l by done; split; [by right | intros [->|?]; [lia|done]]|].
    rewrite lookup_app_r, (lookup_ge_None_2 (ctxs n)) by lia. destruct (decide (c' = length (ctxs n))) as [->|Hne].
    + rewrite Nat.sub_diag. split; [by left | by eexists].
    + rewrite lookup_ge_None_2 by (cbn [length]; lia). split; [by intros [? ?] | intros [->|[? ?]]; done].
Qed.

Lemma net_free_spec n c s h : net_talks n c s ->
  exists n2, net_free c n h = Some (n2, h) /\ (forall c' s', c' <> c -> net_talks n c' s' -> net_talks n2 c' s') /\ (forall ds, net_dials n ds -> net_dials n2 ds) /\
    (forall c', net_live n2 c' <-> net_live n c' /\ c' <> c).
Proof.
  intros (x & sk & k & Hg & _ & Hid & _). unfold net_free. rewrite Hg. cbn [mbind option_bind]. destruct (Hid h) as (_ & _ & _ & r & Er & [Hs _ Hi _]).
  unfold redisFree. rewrite Er. assert (Read.reply r = None) as Hr by (by destruct Hs).
  unfold Read.redisReaderFree. rewrite Hr. cbn [mbind option_bind]. eexists. split; [done|]. split; [intros c' s' Hne; apply talks_other; by rewrite net_get_other|].
  split; [done|]. intros c'. apply net_live_unset.
Qed.

Lemma net_talks_error n c s : net_talks n c s -> fst <$> net_error n c = Some 0.
Proof. intros (x & sk & k & Hg & _ & Hid & _). unfold net_error. rewrite Hg. cbn. destruct (Hid ∅) as (-> & _). done. Qed.

#[local] Instance sockets_laws : ConnLaws (sockets strerror vsnprintf) := {|
  talks := net_talks : @conns (sockets strerror vsnprintf) -> handle -> script -> Prop;
  dials := net_dials : @conns (sockets strerror vsnprintf) -> list (bytes * Z * script) -> Prop;
  talks_error := net_talks_error;
  talks_exchange := net_exchange;
  talks_command := net_command_spec;
  talks_connect := net_connect_spec;
  talks_free := net_free_spec;
|}.

(** *** Pipelines *)

(** The bytes of the commands are what is to be sent, and the replies are what the reader
    holds and what the socket will deliver, in any pieces. *)
Definition net_asks (n : network) (c : handle) (todo : script) (owed : list value) : Prop :=
  exists x sk k unsent inp p q w, net_get n c = Some (x, sk) /\ 0 <= k /\ (forall h, at_work k x unsent [] None inp h) /\
    rplan sk = p ++ q /\ Forall delivery p /\ inp ++ data p = flat_map resp (owed ++ map snd todo) /\ Forall (sendable 8) (owed ++ map snd todo) /\
    takes (wplan sk) (zlen (unsent ++ flat_map fst todo)) = Some w /\ Sds.fits (zlen (unsent ++ flat_map fst todo) + 1) /\ Sds.fits (k + zlen (data p)).

Lemma asks_other n n' c todo owed : net_get n' c = net_get n c -> net_asks n c todo owed -> net_asks n' c todo owed.
Proof. intros E (x & sk & k & un & inp & p & q & w & Hg & Hrest). exists x, sk, k, un, inp, p, q, w. by rewrite E. Qed.

Lemma between_heap k x unsent inp h h' : at_work k x unsent [] None inp h -> at_work k x unsent [] None inp h'.
Proof. intros (He & Hb & Ho & (r & Hr & [Hs Hi Hid _])). split_and!; try done. exists r. split; [done|]. by split. Qed.

Lemma net_asks_append n c text v todo owed cmd : net_asks n c ((text, v) :: todo) owed -> take (length text) cmd = text ->
  exists n2, net_append c cmd (zlen text) n = Some (Read.REDIS_OK, n2) /\ net_asks n2 c todo (owed ++ [v]) /\
    forall c' todo' owed', c' <> c -> net_asks n c' todo' owed' -> net_asks n2 c' todo' owed'.
Proof.
  intros (x & sk & k & un & inp & p & q & w & Hg & Hk & Hx & Er & Hp & Hd & Hs & Ht & Hf & Hfk) Hcmd. cbn [flat_map fst map snd] in *. rewrite app_assoc in Ht, Hf.
  destruct (append_raw Hmem x k un [] None inp ∅ cmd text (Hx ∅) Hcmd) as (x1 & E1 & Hx1).
  { rewrite !zlen_app in Hf. unfold Sds.fits in *. zlen_pos. lia. }
  exists (net_set n c (Some (x1, sk))). unfold net_append. rewrite Hg. cbn [mbind option_bind]. rewrite E1. split; [done|]. split.
  - exists x1, sk, k, (un ++ text), inp, p, q, w. rewrite <- app_assoc. split_and!; try done. by apply net_get_set; eexists. intros h. by eapply between_heap.
  - intros c' todo' owed' Hne. apply asks_other. by rewrite net_get_other.
Qed.

Lemma net_asks_flush n c owed : net_asks n c [] owed -> exists n2, net_flush strerror c n = Some (Ret (Read.REDIS_OK, n2)) /\ net_asks n2 c [] owed /\
    forall c' todo' owed', c' <> c -> net_asks n c' todo' owed' -> net_asks n2 c' todo' owed'.
Proof.
  intros (x & sk & k & un & inp & p & q & w & Hg & Hk & Hx & Er & Hp & Hd & Hs & Ht & Hf & Hfk). cbn [flat_map map] in *. rewrite app_nil_r in Ht, Hf.
  destruct (write_loop_spec Hmem strerror (S (length (wplan sk))) x sk k un [] None inp ∅ w (Hx ∅) Ht ltac:(lia)) as (x1 & E1 & Hx1).
  unfold net_flush. rewrite Hg. cbn [mbind option_bind]. rewrite E1. cbn [Context.rbind]. eexists. split; [done|]. split.
  - eexists x1, _, k, [], inp, p, q, w. split; [apply net_get_set; by eexists|]. split_and!; try done; [intros h; by eapply between_heap | by apply takes_nonpos].
  - intros c' todo' owed' Hne. apply asks_other. by rewrite net_get_other.
Qed.

Lemma net_asks_reply n c v owed h : net_asks n c [] (v :: owed) ->
  exists l m n2, net_reply strerror c n h = Some (Ret (Read.REDIS_OK, Some l, n2, m ∪ h)) /\ tree v l m /\ m ##ₘ h /\ net_asks n2 c [] owed /\
    forall c' todo' owed', c' <> c -> net_asks n c' todo' owed' -> net_asks n2 c' todo' owed'.
Proof.
  intros (x & sk & k & un & inp & p & q & w & Hg & Hk & Hx & Er & Hp & Hd & Hs & Ht & Hf & Hfk). cbn [flat_map map] in *. rewrite !app_nil_r in *.
  cbn [flat_map] in Hd. apply Forall_cons in Hs as [Hv Hs]. destruct (leaves_value Hmem v (flat_map resp owed) h Hv) as (l & m & Htr & Hdm & Hl & Hh).
  destruct (pump_values Hmem owed (m ∪ h) Hs) as (ls & m2 & Ep & _). apply Hh in Ep. rewrite <- Hd in Ep, Hl.
  destruct (get_reply_spec Hmem strerror q x sk p k un [] None inp h (Read.Obj l) _ _ (Hx h) Er Hp w Ht Ep ltac:(done) Hk Hfk)
    as (x2 & h2 & sk2 & p2 & k2 & inp2 & un2 & E2 & Hx2 & Er2 & Hp2 & Ht2 & _ & _ & _ & Hu2 & Hz2 & Hk2 & Hy).
  destruct (Hy _ _ Hl) as [Hd2 ->]. unfold net_reply. rewrite Hg. cbn [mbind option_bind]. rewrite E2. cbn [Context.rbind object mbind option_bind].
  eexists l, m, _. split; [done|]. split_and!; try done.
  - exists x2, sk2, k2, un2, inp2, p2, q, w. cbn [flat_map map]. rewrite !app_nil_r. split_and!; try done; [apply net_get_set; by eexists | intros h'; by eapply between_heap | | by rewrite Hz2].
    by destruct Hu2 as [-> | ->].
  - intros c' todo' owed' Hne. apply asks_other. by rewrite net_get_other.
Qed.

Lemma net_asks_error n c todo owed : net_asks n c todo owed -> fst <$> net_error n c = Some 0.
Proof. intros (x & sk & k & un & inp & p & q & w & Hg & _ & Hx & _). unfold net_error. rewrite Hg. cbn. by destruct (Hx ∅) as (-> & _). Qed.

Lemma net_asks_blocking n c todo owed : net_asks n c todo owed -> net_blocking n c = Some true.
Proof. intros (x & sk & k & un & inp & p & q & w & Hg & _ & Hx & _). unfold net_blocking. rewrite Hg. cbn. by destruct (Hx ∅) as (_ & -> & _). Qed.

#[local] Instance sockets_pipes : PipeLaws (sockets strerror vsnprintf) := {|
  asks := net_asks : @conns (sockets strerror vsnprintf) -> handle -> script -> list value -> Prop;
  asks_error := net_asks_error;
  asks_blocking := net_asks_blocking;
  asks_append := net_asks_append;
  asks_flush := net_asks_flush;
  asks_reply := net_asks_reply;
|}.

End Laws.

End Conn.
