(* ===== verification/Cluster.v ===== *)
(** The cluster client, hircluster.c: the context of a cluster, the connections of its nodes,
    the update of its routing table, and the execution of a command, which follows the
    redirections of the servers. *)
From S2P Require Import Prelude Crc16 HiUtil HiArray Dict Sds Read Format Command Reply Frag Gather Route Nodes Context Conn.
Import HiUtil Reply.

Open Scope Z_scope.

Module Cluster.

Import Frag Route Nodes Conn.

(** ** Outcomes *)

(** A call returns, or waits for a socket for ever, or does what is undefined, or does not
    come to an end. *)
Inductive outcome (A : Type) := Done (a : A) | Waiting | Undefined | Endless.
Arguments Done {A}. Arguments Waiting {A}. Arguments Undefined {A}. Arguments Endless {A}.

Definition obind {A B} (x : outcome A) (k : A -> outcome B) : outcome B :=
  match x with
  | Done a => k a
  | Waiting => Waiting
  | Undefined => Undefined
  | Endless => Endless
  end.

(** ** redisClusterContext *)

Definition HIRCLUSTER_FLAG_ROUTE_USE_SLOTS : Z := 16384.
Definition CLUSTER_DEFAULT_MAX_REDIRECT_COUNT : Z := 5.
Definition REDIS_ERR_CLUSTER_TOO_MANY_REDIRECT : Z := 6.

Definition CLUSTER_NOT_ERR : Z := 0.
Definition CLUSTER_ERR_MOVED : Z := 1.
Definition CLUSTER_ERR_ASK : Z := 2.
Definition CLUSTER_ERR_TRYAGAIN : Z := 3.
Definition CLUSTER_ERR_CROSSSLOT : Z := 4.
Definition CLUSTER_ERR_CLUSTERDOWN : Z := 5.
Definition CLUSTER_ERR_SENTINEL : Z := 6.

(** The context without timeouts, with the memory of its nodes, the connections, the heap of
    replies and the counter of the commands. *)
Record redisClusterContext (C : Connections) := mk_cluster {
  cc_err : Z;
  cc_errstr : bytes;
  cc_ip : option bytes;
  cc_port : Z;
  cc_flags : Z;
  cc_slots : option slot_array;
  cc_nodes : option nodes_dict;
  cc_mem : nodes_mem;
  cc_table : slot_table;
  cc_version : Z;
  cc_max : Z;
  cc_retry : Z;
  cc_requests : option (list fragmented);
  cc_need_update : Z;
  cc_conns : conns;
  cc_heap : heap;
  cc_ids : Z;
}.
Arguments mk_cluster {C}. Arguments cc_err {C}. Arguments cc_errstr {C}. Arguments cc_ip {C}. Arguments cc_port {C}. Arguments cc_flags {C}.
Arguments cc_slots {C}. Arguments cc_nodes {C}. Arguments cc_mem {C}. Arguments cc_table {C}. Arguments cc_version {C}. Arguments cc_max {C}.
Arguments cc_retry {C}. Arguments cc_requests {C}. Arguments cc_need_update {C}. Arguments cc_conns {C}. Arguments cc_heap {C}. Arguments cc_ids {C}.

Section Monad.
Context {C : Connections}.

(** A computation on the context. *)
Definition M (A : Type) : Type := redisClusterContext C -> outcome (A * redisClusterContext C).

Definition pure {A} (a : A) : M A := fun st => Done (a, st).
Definition bind {A B} (m : M A) (k : A -> M B) : M B := fun st => obind (m st) (fun '(a, st) => k a st).
Definition get : M (redisClusterContext C) := fun st => Done (st, st).
Definition modify (f : redisClusterContext C -> redisClusterContext C) : M unit := fun st => Done (tt, f st).
Definition undefined {A} : M A := fun _ => Undefined.
Definition endless {A} : M A := fun _ => Endless.

(** Undefined behaviour of a function without effects. *)
Definition need {A} (x : option A) : M A := match x with Some a => pure a | None => undefined end.

(** A call that may wait for the socket. *)
Definition io {A} (x : option (Context.run A)) : M A := fun st =>
  match x with None => Undefined | Some Context.Blocked => Waiting | Some (Context.Ret a) => Done (a, st) end.

End Monad.

Notation "'let%' x := e 'in' k" := (bind e (fun x => k)) (at level 10, x strict pattern, k at level 200).

(** The number of entries, which bounds the iterations. *)
Abbreviation entries d := (S (length (concat (Dict.table d)))).

Section Ops.
Context `{Memory} {C : Connections}.

(** The C library's [qsort] with [cluster_slot_start_cmp]. *)
Context (qsort : list (option cluster_slot) -> list (option cluster_slot)).

Abbreviation cluster := (redisClusterContext C).

Definition set_err (e : Z * bytes) (st : cluster) : cluster :=
  mk_cluster e.1 e.2 (cc_ip st) (cc_port st) (cc_flags st) (cc_slots st) (cc_nodes st) (cc_mem st) (cc_table st) (cc_version st)
    (cc_max st) (cc_retry st) (cc_requests st) (cc_need_update st) (cc_conns st) (cc_heap st) (cc_ids st).
Definition set_mem (mem : nodes_mem) (st : cluster) : cluster :=
  mk_cluster (cc_err st) (cc_errstr st) (cc_ip st) (cc_port st) (cc_flags st) (cc_slots st) (cc_nodes st) mem (cc_table st) (cc_version st)
    (cc_max st) (cc_retry st) (cc_requests st) (cc_need_update st) (cc_conns st) (cc_heap st) (cc_ids st).
Definition set_nodes (nodes : option nodes_dict) (mem : nodes_mem) (st : cluster) : cluster :=
  mk_cluster (cc_err st) (cc_errstr st) (cc_ip st) (cc_port st) (cc_flags st) (cc_slots st) nodes mem (cc_table st) (cc_version st)
    (cc_max st) (cc_retry st) (cc_requests st) (cc_need_update st) (cc_conns st) (cc_heap st) (cc_ids st).
Definition set_route (a : slot_array) (nodes : nodes_dict) (mem : nodes_mem) (t : slot_table) (st : cluster) : cluster :=
  mk_cluster (cc_err st) (cc_errstr st) (cc_ip st) (cc_port st) (cc_flags st) (Some a) (Some nodes) mem t (u64 (cc_version st + 1))
    (cc_max st) (cc_retry st) (cc_requests st) (cc_need_update st) (cc_conns st) (cc_heap st) (cc_ids st).
Definition set_retry (r : Z) (st : cluster) : cluster :=
  mk_cluster (cc_err st) (cc_errstr st) (cc_ip st) (cc_port st) (cc_flags st) (cc_slots st) (cc_nodes st) (cc_mem st) (cc_table st) (cc_version st)
    (cc_max st) r (cc_requests st) (cc_need_update st) (cc_conns st) (cc_heap st) (cc_ids st).
Definition set_conns (n : conns) (h : heap) (st : cluster) : cluster :=
  mk_cluster (cc_err st) (cc_errstr st) (cc_ip st) (cc_port st) (cc_flags st) (cc_slots st) (cc_nodes st) (cc_mem st) (cc_table st) (cc_version st)
    (cc_max st) (cc_retry st) (cc_requests st) (cc_need_update st) n h (cc_ids st).

(** [__redisClusterSetError]. *)
Definition fail_with (type : Z) (msg : bytes) : M unit := modify (set_err (set_error type msg)).

(** ** Calls of hiredis.c *)

(** [c->err] and [c->errstr]. *)
Definition context_error (c : handle) : M (Z * bytes) := let% st := get in need (con_error (cc_conns st) c).

(** [__redisClusterSetError(cc, c->err, c->errstr)]. *)
Definition copy_error (c : handle) : M unit := let% e := context_error c in fail_with e.1 e.2.

Definition connect (host : bytes) (port : Z) : M (option handle) :=
  let% st := get in
  let% (c, n) := io (con_connect host port (cc_conns st)) in
  let% _ := modify (set_conns n (cc_heap st)) in
  pure c.

Definition reconnect (c : handle) : M unit :=
  let% st := get in
  let% (n, h) := io (con_reconnect c (cc_conns st) (cc_heap st)) in
  modify (set_conns n h).

Definition appendCommand (c : handle) (cmd : bytes) (len : Z) : M Z :=
  let% st := get in
  let% (ret, n) := need (con_append c cmd len (cc_conns st)) in
  let% _ := modify (set_conns n (cc_heap st)) in
  pure ret.

Definition getReply (c : handle) : M (Z * option loc) :=
  let% st := get in
  let% (ret, rep, n, h) := io (con_reply c (cc_conns st) (cc_heap st)) in
  let% _ := modify (set_conns n h) in
  pure (ret, rep).

(** [__redisBlockForReply], as hircluster.c repeats it. *)
Definition blockForReply (c : handle) : M (option loc) :=
  let% st := get in
  let% b := need (con_blocking (cc_conns st) c) in
  if b then let% (ret, rep) := getReply c in pure (if negb (ret =? Read.REDIS_OK) then None else rep)
  else pure None.

Definition command (c : handle) (format : bytes) : M (option loc) :=
  let% st := get in
  let% (rep, n, h) := io (con_command c format (cc_conns st) (cc_heap st)) in
  let% _ := modify (set_conns n h) in
  pure rep.

Definition freeContext (c : handle) : M unit :=
  let% st := get in
  let% (n, h) := need (con_free c (cc_conns st) (cc_heap st)) in
  modify (set_conns n h).

Definition freeReply (l : option loc) : M unit :=
  let% st := get in
  let% h := need (freeReplyObject l (cc_heap st)) in
  modify (set_conns (cc_conns st) h).

(** ** Replies *)

(** The characters of a reply. *)
Definition chars (h : heap) (r : redisReply) : option bytes :=
  b ← str r; match h !! b with Some (BChars cs) => Some cs | _ => None end.

(** [strncmp(s, prefix, strlen(prefix)) == 0] on a longer text. *)
Definition begins (prefix cs : bytes) : bool := bool_decide (take (length prefix) cs = prefix).

(** One of the tests of [cluster_reply_error_type]. *)
Definition is_error (h : heap) (r : redisReply) (prefix : bytes) : option bool :=
  if zlen prefix <? rlen r then cs ← chars h r; Some (begins prefix cs) else Some false.

Fixpoint error_among (h : heap) (r : redisReply) (l : list (bytes * Z)) : option Z :=
  match l with
  | [] => Some CLUSTER_ERR_SENTINEL
  | (prefix, type) :: l' => b ← is_error h r prefix; if (b : bool) then Some type else error_among h r l'
  end.

Definition cluster_errors : list (bytes * Z) :=
  [(bstr "MOVED", CLUSTER_ERR_MOVED); (bstr "ASK", CLUSTER_ERR_ASK); (bstr "TRYAGAIN", CLUSTER_ERR_TRYAGAIN);
   (bstr "CROSSSLOT", CLUSTER_ERR_CROSSSLOT); (bstr "CLUSTERDOWN", CLUSTER_ERR_CLUSTERDOWN)].

Definition cluster_reply_error_type (h : heap) (reply : option loc) : option Z :=
  match reply with
  | None => Some Read.REDIS_ERR
  | Some l =>
      r ← load_reply h l;
      if rtype r =? Read.REDIS_REPLY_ERROR then error_among h r cluster_errors else Some CLUSTER_NOT_ERR
  end.

(** ** Nodes *)

Definition with_con (n : cluster_node) (c : option handle) : cluster_node :=
  mk_node (name n) (addr n) (host n) (port n) (role n) (myself n) c (slots n) (slaves n) (migrating n) (importing n).

Definition set_con (p : nodeptr) (c : option handle) : M unit :=
  let% st := get in
  let% n := need (cc_mem st !! p) in
  modify (set_mem (<[p := with_con n c]> (cc_mem st))).

(** [ctx_get_by_node] on a node that is not NULL. *)
Definition ctx_get_by_node (p : nodeptr) : M (option handle) :=
  let% st := get in
  let% n := need (cc_mem st !! p) in
  match con n with
  | Some c =>
      let% e := context_error c in
      let% _ := (if negb (e.1 =? 0) then reconnect c else pure tt) in
      pure (Some c)
  | None =>
      match host n with
      | None => pure None
      | Some host =>
          if port n <=? 0 then pure None
          else
            let% c := connect host (port n) in
            let% _ := set_con p c in
            pure c
      end
  end.

(** The reply to PING is the status PONG. *)
Definition is_pong (h : heap) (reply : loc) : option bool :=
  r ← load_reply h reply;
  if negb (rtype r =? Read.REDIS_REPLY_STATUS) then Some false
  else match str r with None => Some false | Some _ => cs ← chars h r; s ← cstr cs; Some (bool_decide (s = bstr "PONG")) end.

(** The loop of [node_get_witch_connected]; [fuel] bounds the number of the entries. *)
Fixpoint connected_loop (fuel : nat) (d : nodes_dict) (it : Dict.dictIterator bytes nodeptr) : M (option nodeptr) :=
  match fuel with
  | O => endless
  | S f =>
      let% (e, it) := need (Dict.dictNext d it) in
      match e with
      | None => pure None
      | Some (_, p) =>
          let% c := ctx_get_by_node p in
          match c with
          | None => connected_loop f d it
          | Some c =>
              let% e := context_error c in
              if negb (e.1 =? 0) then connected_loop f d it
              else
                let% reply := command c (bstr "PING") in
                match reply with
                | None => connected_loop f d it
                | Some l =>
                    let% st := get in
                    let% pong := need (is_pong (cc_heap st) l) in
                    let% _ := freeReply (Some l) in
                    if pong then pure (Some p) else connected_loop f d it
                end
          end
      end
  end.

(** The iterator is not tested. *)
Definition node_get_witch_connected : M (option nodeptr) :=
  let% st := get in
  match cc_nodes st with
  | None => pure None
  | Some d =>
      let% it := need (Dict.dictGetIterator (K := bytes) (V := nodeptr) malloc_ok) in
      connected_loop (entries d) d it
  end.

(** ** The route *)

(** The value of a reply of the heap; [fuel] bounds the nesting by the blocks of the heap. *)
Fixpoint value_at (fuel : nat) (h : heap) (l : loc) : option value :=
  match fuel with
  | O => None
  | S f =>
      r ← load_reply h l;
      if rtype r =? Read.REDIS_REPLY_ARRAY then
        match element r with
        | None => Some (VArray (relements r) [])
        | Some e =>
            ps ← load_ptrs h e;
            vs ← mapM (fun p => match p with None => Some VHole | Some q => value_at f h q end) ps;
            Some (VArray (relements r) vs)
        end
      else if rtype r =? Read.REDIS_REPLY_INTEGER then Some (VInt (integer r))
      else if rtype r =? Read.REDIS_REPLY_NIL then Some VNil
      else cs ← chars h r; Some (VString (rtype r) (take (length cs - 1) cs))
  end.

(** The loop of [cluster_nodes_swap_ctx]: the connections of the nodes that are known from
    before are kept. The result is the memories of the old and of the new nodes. *)
Fixpoint swap_loop (fuel : nat) (nodes_f nodes_t : nodes_dict) (it : Dict.dictIterator bytes nodeptr) (mem_f mem_t : nodes_mem) :
    M (nodes_mem * nodes_mem) :=
  match fuel with
  | O => endless
  | S f =>
      let% (de_t, it) := need (Dict.dictNext nodes_t it) in
      match de_t with
      | None => pure (mem_f, mem_t)
      | Some (_, p) =>
          let% node_t := need (mem_t !! p) in
          let% de_f := need (Dict.dictFind nodes_f (addr node_t)) in
          match de_f with
          | None => swap_loop f nodes_f nodes_t it mem_f mem_t
          | Some (_, q) =>
              let% node_f := need (mem_f !! q) in
              match con node_f with
              | None => swap_loop f nodes_f nodes_t it mem_f mem_t
              | Some c => swap_loop f nodes_f nodes_t it (<[q := with_con node_f (con node_t)]> mem_f) (<[p := with_con node_t (Some c)]> mem_t)
              end
          end
      end
  end.

(** The iterator is not tested; [nodes_f] is NULL before the first route. *)
Definition cluster_nodes_swap_ctx (nodes_f : option nodes_dict) (nodes_t : nodes_dict) (mem_f mem_t : nodes_mem) : M (nodes_mem * nodes_mem) :=
  match nodes_f with
  | None => pure (mem_f, mem_t)
  | Some nodes_f =>
      let% it := need (Dict.dictGetIterator (K := bytes) (V := nodeptr) malloc_ok) in
      swap_loop (entries nodes_t) nodes_f nodes_t it mem_f mem_t
  end.

(** A destructor is called on each element of a list. *)
Fixpoint each (destroy : nodeptr -> list nodeptr -> M (list nodeptr)) (l : list nodeptr) (freed : list nodeptr) : M (list nodeptr) :=
  match l with
  | [] => pure freed
  | p :: l' => let% freed := destroy p freed in each destroy l' freed
  end.

(** [cluster_node_deinit] and the release of the node: its connection is closed, and its
    slaves are released. A node that is released twice is undefined; [fuel] bounds the
    nesting by the number of the nodes. *)
Fixpoint cluster_node_deinit (fuel : nat) (mem : nodes_mem) (p : nodeptr) (freed : list nodeptr) : M (list nodeptr) :=
  match fuel with
  | O => undefined
  | S f =>
      if bool_decide (p ∈ freed) then undefined
      else
        let% n := need (mem !! p) in
        let% _ := (match con n with Some c => freeContext c | None => pure tt end) in
        each (cluster_node_deinit f mem) (default [] (slaves n)) (p :: freed)
  end.

(** [dictRelease] of a dictionary of nodes: the destructors it calls. *)
Definition release_nodes (d : nodes_dict) (mem : nodes_mem) : M unit :=
  let% _ := each (cluster_node_deinit (S (length mem)) mem)
              (omap (fun x => match x with Dict.FreeVal p => Some p | Dict.FreeKey _ => None end) (Dict.dictRelease d)) [] in
  pure tt.

(** The two ways to ask for the route: the command, the type of its reply, its name. *)
Definition route_command (slots : bool) : bytes := if slots then bstr "CLUSTER SLOTS" else bstr "CLUSTER NODES".
Definition route_type (slots : bool) : Z := if slots then Read.REDIS_REPLY_ARRAY else Read.REDIS_REPLY_STRING.
Definition route_error (slots : bool) (msg : string) : bytes :=
  (if slots then bstr "Command(cluster slots) reply error" else bstr "Command(cluster nodes) reply error") ++ bstr msg.

(** The reply is not there or is of another type; the result says whether it can be used. *)
Definition route_reply (slots : bool) (c : handle) (reply : option loc) : M bool :=
  match reply with
  | None =>
      let% e := context_error c in
      let% _ := (if e.1 =? Context.REDIS_ERR_TIMEOUT then fail_with e.1 (route_error slots "(socket timeout)")
                 else fail_with Read.REDIS_ERR_OTHER (route_error slots "(NULL).")) in
      pure false
  | Some l =>
      let% st := get in
      let% r := need (load_reply (cc_heap st) l) in
      if rtype r =? route_type slots then pure true
      else
        let% _ := (if rtype r =? Read.REDIS_REPLY_ERROR then let% s := need (cs ← chars (cc_heap st) r; cstr cs) in fail_with Read.REDIS_ERR_OTHER s
                   else fail_with Read.REDIS_ERR_OTHER (route_error slots (if slots then ": type is not array." else ": type is not string."))) in
        pure false
  end.

(** The nodes, the regions and the table that the reply describes. *)
Definition route_of_reply (slots : bool) (flags : Z) (h : heap) (l : loc) : res (slot_array * slot_table * nodes_dict * nodes_mem) :=
  let* (nodes, mem) :=
    (if slots then let* v := lift (value_at (size h) h l) in parse_cluster_slots v flags
     else
       let* r := lift (load_reply h l) in
       let* cs := lift (chars h r) in
       parse_cluster_nodes cs (rlen r) flags) in
  let* (a, t) := build_route qsort nodes mem in
  ret (a, t, nodes, mem).

(** The end of [cluster_update_route_by_addr] when the table could be built. *)
Definition install_route (a : slot_array) (t : slot_table) (nodes : nodes_dict) (mem : nodes_mem) : M unit :=
  let% st := get in
  let% (old, mem) := cluster_nodes_swap_ctx (cc_nodes st) nodes (cc_mem st) mem in
  let% _ := (match cc_nodes st with Some d => release_nodes d old | None => pure tt end) in
  modify (set_route a nodes mem t).

(** [cluster_update_route_by_addr]; the new nodes that the error path releases have no
    connections. *)
Definition cluster_update_route_by_addr (ip : option bytes) (port : Z) : M Z :=
  match ip with
  | None => let% _ := fail_with Read.REDIS_ERR_OTHER (bstr "Ip or port error!") in pure Read.REDIS_ERR
  | Some ip =>
      if port <=? 0 then let% _ := fail_with Read.REDIS_ERR_OTHER (bstr "Ip or port error!") in pure Read.REDIS_ERR
      else
        let% c := connect ip port in
        match c with
        | None => let% _ := fail_with Read.REDIS_ERR_OTHER (bstr "Init redis context error(return NULL)") in pure Read.REDIS_ERR
        | Some c =>
            let% e := context_error c in
            if negb (e.1 =? 0) then let% _ := copy_error c in let% _ := freeContext c in pure Read.REDIS_ERR
            else
              let% st := get in
              let slots := flag (cc_flags st) HIRCLUSTER_FLAG_ROUTE_USE_SLOTS in
              let% reply := command c (route_command slots) in
              let% ok := route_reply slots c reply in
              let% ret :=
                (match ok, reply with
                 | true, Some l =>
                     let% st := get in
                     match route_of_reply slots (cc_flags st) (cc_heap st) l with
                     | None => undefined
                     | Some (inr e) => let% _ := modify (match e with Some e => set_err e | None => id end) in pure Read.REDIS_ERR
                     | Some (inl (a, t, nodes, mem)) => let% _ := install_route a t nodes mem in pure Read.REDIS_OK
                     end
                 | _, _ => pure Read.REDIS_ERR
                 end) in
              let% _ := freeReply reply in
              let% _ := freeContext c in
              pure ret
        end
  end.

(** The loop of [cluster_update_route] over the nodes; [not_set] is [flag_err_not_set]. *)
Fixpoint route_loop (fuel : nat) (d : nodes_dict) (it : Dict.dictIterator bytes nodeptr) (not_set : bool) : M Z :=
  match fuel with
  | O => endless
  | S f =>
      let% (de, it) := need (Dict.dictNext d it) in
      match de with
      | None =>
          let% _ := (if not_set then fail_with Read.REDIS_ERR_OTHER (bstr "no valid server address") else pure tt) in
          pure Read.REDIS_ERR
      | Some (_, p) =>
          let% st := get in
          let% n := need (cc_mem st !! p) in
          if bool_decide (host n = None) || (port n <? 0) then route_loop f d it not_set
          else
            let% ret := cluster_update_route_by_addr (host n) (port n) in
            if ret =? Read.REDIS_OK then
              let% _ := modify (fun st => if negb (cc_err st =? 0) then set_err (0, []) st else st) in
              pure Read.REDIS_OK
            else route_loop f d it false
      end
  end.

Definition cluster_update_route : M Z :=
  let% st := get in
  let% (ret, not_set) :=
    (if negb (bool_decide (cc_ip st = None)) && (0 <? cc_port st)
     then let% ret := cluster_update_route_by_addr (cc_ip st) (cc_port st) in pure (ret, false)
     else pure (Read.REDIS_ERR, true)) in
  if ret =? Read.REDIS_OK then pure Read.REDIS_OK
  else
    let% st := get in
    match cc_nodes st with
    | None =>
        let% _ := (if (not_set : bool) then fail_with Read.REDIS_ERR_OTHER (bstr "no server address") else pure tt) in
        pure Read.REDIS_ERR
    | Some d =>
        let% it := need (Dict.dictGetIterator (K := bytes) (V := nodeptr) malloc_ok) in
        route_loop (entries d) d it not_set
    end.

(** ** Commands *)

(** [node_get_by_ask_error_reply]: the node a server asks to be asked. A node that is not known
    is entered under the second word of the reply, the number of the slot. *)
Definition node_get_by_ask_error_reply (reply : loc) : M (option nodeptr) :=
  let% st := get in
  let% ty := need (cluster_reply_error_type (cc_heap st) (Some reply)) in
  if negb (ty =? CLUSTER_ERR_ASK) then
    let% _ := fail_with Read.REDIS_ERR_OTHER (bstr "reply is not ask error!") in pure None
  else
    let% r := need (load_reply (cc_heap st) reply) in
    let% cs := need (chars (cc_heap st) r) in
    let% part := need (split cs (rlen r) (bstr " ")) in
    match part with
    | Some [_; w1; w2] =>
        let% ip_port := need (split_sds w2 (bstr ":")) in
        match ip_port with
        | Some [h; p] =>
            let% d := need (cc_nodes st) in
            let% de := need (Dict.dictFind d w2) in
            match de with
            | Some (_, q) => pure (Some q)
            | None =>
                if negb (malloc_ok cluster_node_size) then let% _ := fail_with Read.REDIS_ERR_OOM (bstr "Out of memory") in pure None
                else
                  let node := node_init None w1 (Some h) (_hi_atoi p) REDIS_ROLE_MASTER None in
                  let q := length (cc_mem st) in
                  let% k := need (key_copy w1) in
                  let% (d, _) := need (Dict.dictAdd malloc_ok d k q) in
                  let% _ := modify (set_nodes (Some d) (cc_mem st ++ [node])) in
                  pure (Some q)
            end
        | _ => let% _ := fail_with Read.REDIS_ERR_OTHER (bstr "ask error reply address part parse error!") in pure None
        end
    | _ => let% _ := fail_with Read.REDIS_ERR_OTHER (bstr "ask error reply parse error!") in pure None
    end.

(** [cc->retry_count ++], and the test behind it. *)
Definition too_many : M bool :=
  let% st := get in
  let r := i32 (cc_retry st + 1) in
  let% _ := modify (set_retry r) in
  if cc_max st <? r then
    let% _ := fail_with REDIS_ERR_CLUSTER_TOO_MANY_REDIRECT (bstr "too many cluster redirect") in pure true
  else pure false.

(** A connection that can be used, or an error. *)
Definition usable (c : option handle) (msg : string) : M (option handle) :=
  match c with
  | None => let% _ := fail_with Read.REDIS_ERR_OTHER (bstr msg) in pure None
  | Some c =>
      let% e := context_error c in
      if negb (e.1 =? 0) then let% _ := copy_error c in pure None else pure (Some c)
  end.

(** From the label [retry] to the label [ask_retry]: the connection for a slot. *)
Definition connection_for (slot_num : Z) : M (option handle) :=
  let% st := get in
  let% node := need (node_get_by_table (cc_table st) (u32 slot_num)) in
  match node with
  | None => let% _ := fail_with Read.REDIS_ERR_OTHER (bstr "node get by table error") in pure None
  | Some p =>
      let% c := ctx_get_by_node p in
      match c with
      | None => let% _ := fail_with Read.REDIS_ERR_OTHER (bstr "ctx get by node is null") in pure None
      | Some c =>
          let% e := context_error c in
          if e.1 =? 0 then pure (Some c)
          else
            let% node := node_get_witch_connected in
            match node with
            | None => let% _ := fail_with Read.REDIS_ERR_OTHER (bstr "no reachable node in cluster") in pure None
            | Some p =>
                let% stop := too_many in
                if (stop : bool) then pure None
                else let% c := ctx_get_by_node p in usable c "ctx get by node error"
            end
      end
  end.

(** The branch of ASK: the connection of the node, which is told that it is asked. *)
Definition ask (reply : loc) : M (option handle) :=
  let% node := node_get_by_ask_error_reply reply in
  match node with
  | None => let% _ := freeReply (Some reply) in pure None
  | Some p =>
      let% _ := freeReply (Some reply) in
      let% c := ctx_get_by_node p in
      let% c := usable c "ctx get by node error" in
      match c with
      | None => pure None
      | Some c =>
          let% reply := command c (bstr "ASKING") in
          match reply with
          | None => let% _ := copy_error c in pure None
          | Some _ => let% _ := freeReply reply in pure (Some c)
          end
      end
  end.

(** A command is appended and its reply awaited. *)
Definition exchange (c : handle) (cmd : bytes) (len : Z) : M (option loc) :=
  let% ret := appendCommand c cmd len in
  if negb (ret =? Read.REDIS_OK) then let% _ := copy_error c in pure None
  else
    let% reply := blockForReply c in
    match reply with
    | None => let% _ := copy_error c in pure None
    | Some _ => pure reply
    end.

(** The labels of [redis_cluster_command_execute]: [retry] without a connection, [ask_retry]
    with one; [fuel] bounds the jumps. *)
Fixpoint execute_loop (fuel : nat) (slot_num : Z) (cmd : bytes) (len : Z) (asked : option handle) : M (option loc) :=
  match fuel with
  | O => endless
  | S f =>
      let% c := (match asked with Some _ => pure asked | None => connection_for slot_num end) in
      match c with
      | None => pure None
      | Some c =>
          let% reply := exchange c cmd len in
          match reply with
          | None => pure None
          | Some l =>
              let% st := get in
              let% error_type := need (cluster_reply_error_type (cc_heap st) (Some l)) in
              if (CLUSTER_NOT_ERR <? error_type) && (error_type <? CLUSTER_ERR_SENTINEL) then
                let% stop := too_many in
                if (stop : bool) then let% _ := freeReply (Some l) in pure None
                else if error_type =? CLUSTER_ERR_MOVED then
                  let% _ := freeReply (Some l) in
                  let% ret := cluster_update_route in
                  if negb (ret =? Read.REDIS_OK) then
                    let% _ := fail_with Read.REDIS_ERR_OTHER (bstr "route update error, please recreate redisClusterContext!") in pure None
                  else execute_loop f slot_num cmd len None
                else if error_type =? CLUSTER_ERR_ASK then
                  let% c := ask l in
                  match c with None => pure None | Some c => execute_loop f slot_num cmd len (Some c) end
                else let% _ := freeReply (Some l) in execute_loop f slot_num cmd len None
              else pure (Some l)
          end
      end
  end.

(** A jump needs a redirection that is still allowed. *)
Definition jumps (st : cluster) : nat := S (S (Z.to_nat (cc_max st - cc_retry st))).

Definition redis_cluster_command_execute (slot_num : Z) (cmd : bytes) (len : Z) : M (option loc) :=
  let% st := get in execute_loop (jumps st) slot_num cmd len None.

End Ops.

(** ** Iterations come to an end *)

(** What an iterator has still to give, in any dictionary. *)
Definition remaining (d : nodes_dict) (it : Dict.dictIterator bytes nodeptr) : nat :=
  ((match Dict.entry it with [] => 0 | _ => length (Dict.nextEntry it) end) + length (concat (drop (Z.to_nat (Dict.index it + 1)) (Dict.table d))))%nat.

Definition iterating (it : Dict.dictIterator bytes nodeptr) : Prop := -1 <= Dict.index it <= INT_MAX.

Lemma bucket_at (d : nodes_dict) i c : rd (Dict.table d) i = Some c -> 0 <= i /\
  length (concat (drop (Z.to_nat i) (Dict.table d))) = (length c + length (concat (drop (Z.to_nat (i + 1)) (Dict.table d))))%nat.
Proof.
  unfold rd. intros E. destruct (decide (0 <= i)); [|done]. split; [done|].
  rewrite (drop_S _ _ _ E). cbn [concat]. rewrite length_app. do 4 f_equal. lia.
Qed.

Lemma next_less (d : nodes_dict) f : forall it e it', Dict.next_loop f d it = Some (Some e, it') -> iterating it ->
  iterating it' /\ (remaining d it' < remaining d it)%nat.
Proof.
  induction f as [|f IH]; intros it e it' E Hi; [done|]. cbn [Dict.next_loop] in E.
  destruct (Dict.entry it) as [|x xs] eqn:He.
  - destruct (i32 (Dict.size d) <=? i32 (Dict.index it + 1)); [done|].
    destruct (rd (Dict.table d) (i32 (Dict.index it + 1))) as [c|] eqn:Ec; [|done]. cbn [mbind option_bind Dict.entry] in E.
    destruct (bucket_at d _ c Ec) as [H0 Hc]. pose proof (swrap_range 32 (Dict.index it + 1) ltac:(lia)) as Hr.
    assert (i32 (Dict.index it + 1) = Dict.index it + 1) as Ei.
    { destruct (decide (Dict.index it = INT_MAX)) as [Eq|]; [rewrite Eq in H0; by vm_compute in H0|]. apply i32_small. unfold iterating, INT_MIN, INT_MAX in *. lia. }
    rewrite Ei in *. assert (Dict.index it + 1 <= INT_MAX) by (unfold INT_MAX; lia). destruct c as [|y c].
    + apply IH in E as [? Hl]; [|unfold iterating in *; cbn; lia]. split; [done|]. unfold remaining in Hl |- *. cbn [Dict.entry Dict.index] in Hl. rewrite He. cbn [length] in Hc. lia.
    + injection E as <- <-. split; [unfold iterating in *; cbn; lia|]. unfold remaining. rewrite He. cbn [Dict.entry Dict.index Dict.nextEntry]. cbn [length] in Hc. lia.
  - cbn [mbind option_bind Dict.entry] in E. destruct (Dict.nextEntry it) as [|y c] eqn:Hn.
    + apply IH in E as [? Hl]; [|done]. split; [done|]. unfold remaining in Hl |- *. cbn [Dict.entry Dict.index Dict.nextEntry] in Hl. rewrite He, Hn. cbn [length]. lia.
    + injection E as <- <-. split; [done|]. unfold remaining. rewrite He, Hn. cbn [Dict.entry Dict.index Dict.nextEntry length]. lia.
Qed.

Lemma iterator_start (ok : Z -> bool) it d : Dict.dictGetIterator (K := bytes) (V := nodeptr) ok = Some it -> iterating it /\ (remaining d it < entries d)%nat.
Proof. unfold Dict.dictGetIterator. destruct (ok 32); [|done]. intros [= <-]. split; [done|]. unfold remaining. cbn [Dict.entry Dict.index]. rewrite drop_0. lia. Qed.

(** ** The logic of computations *)

(** A computation comes to an end, and when it returns its states are related. *)
Definition leads {C : Connections} {A} (R : redisClusterContext C -> redisClusterContext C -> Prop) (m : M A) : Prop :=
  forall st, match m st with Done (_, st') => R st st' | Endless => False | _ => True end.

(** The counter of the redirections and its limit are left alone. *)
Definition uncounted {C : Connections} (st st' : redisClusterContext C) : Prop := cc_max st' = cc_max st /\ cc_retry st' = cc_retry st.

#[export] Instance uncounted_preorder {C : Connections} : PreOrder (uncounted (C := C)).
Proof. split; [done|]. intros a b c [? ?] [? ?]. split; congruence. Qed.

Section Logic.
Context `{Memory} {C : Connections} (R : redisClusterContext C -> redisClusterContext C -> Prop) `{!PreOrder R}.

Lemma leads_pure {A} (a : A) : leads R (pure a).
Proof. intros st. cbn. done. Qed.

Lemma leads_get : leads R get.
Proof. intros st. cbn. done. Qed.

Lemma leads_undefined {A} : leads R (undefined (A := A)).
Proof. done. Qed.

Lemma leads_need {A} (x : option A) : leads R (need x).
Proof. destruct x; [apply leads_pure | done]. Qed.

Lemma leads_io {A} (x : option (Context.run A)) : leads R (io x).
Proof. intros st. by destruct x as [[]|]; cbn. Qed.

Lemma leads_modify f : (forall st, R st (f st)) -> leads R (modify f).
Proof. intros Hf st. apply Hf. Qed.

Lemma leads_bind {A B} (m : M A) (k : A -> M B) : leads R m -> (forall a, leads R (k a)) -> leads R (bind m k).
Proof.
  intros Hm Hk st. specialize (Hm st). unfold bind. destruct (m st) as [[a st1]| | |]; try done. cbn [obind]. specialize (Hk a st1).
  destruct (k a st1) as [[b st2]| | |]; try done. by etrans.
Qed.

(** A bound computation that only reads. *)
Lemma leads_need_bind {A B} (x : option A) (k : A -> M B) : (forall a, x = Some a -> leads R (k a)) -> leads R (bind (need x) k).
Proof. intros Hk. destruct x as [a|]; [|done]. intros st. apply (Hk a eq_refl st). Qed.

End Logic.

(** Taking a computation apart. *)
Ltac leading :=
  repeat match goal with
  | |- leads _ (pure _) => apply leads_pure; exact _
  | |- leads _ get => apply leads_get; exact _
  | |- leads _ undefined => apply leads_undefined
  | |- leads _ (need _) => apply leads_need; exact _
  | |- leads _ (io _) => apply leads_io; exact _
  | |- leads _ (bind _ _) => apply leads_bind; [exact _ | | intros ?]
  | |- leads _ (modify _) => apply leads_modify; intros st; repeat case_match; by destruct st
  | |- leads _ (match ?x with _ => _ end) => destruct x
  | H : forall _, leads _ _ |- leads _ _ => apply H
  | H : forall _ _, leads _ _ |- leads _ _ => apply H
  | |- leads _ _ => solve [eauto with leads]
  end.

Create HintDb leads.

Section Ends.
Context `{Memory} {C : Connections} (qsort : list (option cluster_slot) -> list (option cluster_slot)).

Abbreviation quiet := (leads (uncounted (C := C))).

Lemma quiet_fail type msg : quiet (fail_with type msg).
Proof. unfold fail_with. leading. Qed.

Lemma quiet_context_error c : quiet (context_error c).
Proof. unfold context_error. leading. Qed.
#[local] Hint Resolve quiet_fail quiet_context_error : leads.

Lemma quiet_copy_error c : quiet (copy_error c).
Proof. unfold copy_error. leading. Qed.

Lemma quiet_connect h p : quiet (connect h p).
Proof. unfold connect. leading. Qed.

Lemma quiet_reconnect c : quiet (reconnect c).
Proof. unfold reconnect. leading. Qed.

Lemma quiet_append c cmd len : quiet (appendCommand c cmd len).
Proof. unfold appendCommand. leading. Qed.

Lemma quiet_reply c : quiet (getReply c).
Proof. unfold getReply. leading. Qed.
#[local] Hint Resolve quiet_copy_error quiet_connect quiet_reconnect quiet_append quiet_reply : leads.

Lemma quiet_block c : quiet (blockForReply c).
Proof. unfold blockForReply. leading. Qed.

Lemma quiet_command c fmt : quiet (command c fmt).
Proof. unfold command. leading. Qed.

Lemma quiet_free_context c : quiet (freeContext c).
Proof. unfold freeContext. leading. Qed.

Lemma quiet_free_reply l : quiet (freeReply l).
Proof. unfold freeReply. leading. Qed.

Lemma quiet_set_con p c : quiet (set_con p c).
Proof. unfold set_con. leading. Qed.
#[local] Hint Resolve quiet_block quiet_command quiet_free_context quiet_free_reply quiet_set_con : leads.

Lemma quiet_ctx p : quiet (ctx_get_by_node p).
Proof. unfold ctx_get_by_node. leading. Qed.
#[local] Hint Resolve quiet_ctx : leads.

(** A loop over a dictionary: it is enough that each round, given the rest of the loop,
    comes to an end. *)
Lemma quiet_next {B} (d : nodes_dict) it f (k : option (bytes * nodeptr) * Dict.dictIterator bytes nodeptr -> M B) :
  iterating it -> (remaining d it < S f)%nat -> (forall it', quiet (k (None, it'))) ->
  (forall e it', iterating it' -> (remaining d it' < f)%nat -> quiet (k (Some e, it'))) -> quiet (bind (need (Dict.dictNext d it)) k).
Proof.
  intros Hi Hf Hn Hs. apply leads_need_bind. intros [[e|] it'] E; [|apply Hn].
  destruct (next_less d _ _ _ _ E Hi). apply Hs; [done|lia].
Qed.

Lemma quiet_connected f : forall d it, iterating it -> (remaining d it < f)%nat -> quiet (connected_loop f d it).
Proof.
  induction f as [|f IH]; intros d it Hi Hf; [lia|]. cbn [connected_loop]. apply (quiet_next d it f); [done.. | |].
  - intros it'. leading.
  - intros [k p] it' Hi' Hf'. assert (quiet (connected_loop f d it')) by auto. leading.
Qed.

Lemma quiet_witch : quiet node_get_witch_connected.
Proof.
  unfold node_get_witch_connected. apply leads_bind; [exact _ | leading |]. intros st. destruct (cc_nodes st) as [d|]; [|leading].
  apply leads_need_bind. intros it Hit. apply quiet_connected; by eapply iterator_start.
Qed.

Lemma quiet_swap f : forall nf nt it mf mt, iterating it -> (remaining nt it < f)%nat -> quiet (swap_loop f nf nt it mf mt).
Proof.
  induction f as [|f IH]; intros nf nt it mf mt Hi Hf; [lia|]. cbn [swap_loop]. apply (quiet_next nt it f); [done.. | |].
  - intros it'. leading.
  - intros [k p] it' Hi' Hf'. leading; by apply IH.
Qed.

Lemma quiet_swap_ctx nf nt mf mt : quiet (cluster_nodes_swap_ctx nf nt mf mt).
Proof.
  unfold cluster_nodes_swap_ctx. destruct nf as [nf|]; [|leading].
  apply leads_need_bind. intros it Hit. apply quiet_swap; by eapply iterator_start.
Qed.
#[local] Hint Resolve quiet_swap_ctx quiet_witch : leads.

Lemma quiet_each g l : (forall p fr, quiet (g p fr)) -> forall fr, quiet (each g l fr).
Proof. intros Hg. induction l as [|p l IH]; intros fr; cbn [each]; leading. Qed.

Lemma quiet_deinit mem f : forall p fr, quiet (cluster_node_deinit f mem p fr).
Proof.
  induction f as [|f IH]; intros p fr; cbn [cluster_node_deinit]; leading. by apply quiet_each.
Qed.

Lemma quiet_release d mem : quiet (release_nodes d mem).
Proof. unfold release_nodes. apply leads_bind; [exact _ | | intros; leading]. apply quiet_each. intros. apply quiet_deinit. Qed.
#[local] Hint Resolve quiet_release : leads.

Lemma quiet_install a t d mem : quiet (install_route a t d mem).
Proof. unfold install_route. leading. Qed.

Lemma quiet_route_reply b c l : quiet (route_reply b c l).
Proof. unfold route_reply. leading. Qed.
#[local] Hint Resolve quiet_install quiet_route_reply : leads.

Lemma quiet_by_addr ip port : quiet (cluster_update_route_by_addr qsort ip port).
Proof. unfold cluster_update_route_by_addr. leading. Qed.
#[local] Hint Resolve quiet_by_addr : leads.

Lemma quiet_route_loop f : forall d it b, iterating it -> (remaining d it < f)%nat -> quiet (route_loop qsort f d it b).
Proof.
  induction f as [|f IH]; intros d it b Hi Hf; [lia|]. cbn [route_loop]. apply (quiet_next d it f); [done.. | |].
  - intros it'. leading.
  - intros [k p] it' Hi' Hf'. assert (forall b, quiet (route_loop qsort f d it' b)) by auto. leading.
Qed.

Lemma quiet_update_route : quiet (cluster_update_route qsort).
Proof.
  unfold cluster_update_route. apply leads_bind; [exact _ | leading | intros st]. apply leads_bind; [exact _ | leading | intros [ret ns]].
  destruct (ret =? _); [leading|]. apply leads_bind; [exact _ | leading | intros st1]. destruct (cc_nodes st1) as [d|]; [|leading]. apply leads_need_bind. intros it Hit. apply quiet_route_loop; by eapply iterator_start.
Qed.

Lemma quiet_usable c msg : quiet (usable c msg).
Proof. unfold usable. leading. Qed.
#[local] Hint Resolve quiet_update_route quiet_usable : leads.

Lemma quiet_by_ask l : quiet (node_get_by_ask_error_reply l).
Proof. unfold node_get_by_ask_error_reply. leading. Qed.
#[local] Hint Resolve quiet_by_ask : leads.

Lemma quiet_ask l : quiet (ask l).
Proof. unfold ask. leading. Qed.

Lemma quiet_exchange c cmd len : quiet (exchange c cmd len).
Proof. unfold exchange. leading. Qed.

(** The same with the result, from one state. *)
Definition ends_at {A} (st : redisClusterContext C) (Q : A -> redisClusterContext C -> Prop) (m : M A) : Prop :=
  match m st with Done (a, st') => Q a st' | Endless => False | _ => True end.

Lemma at_bind {A B} st (Q1 : A -> redisClusterContext C -> Prop) (Q : B -> redisClusterContext C -> Prop) m k : ends_at st Q1 m ->
  (forall a st1, Q1 a st1 -> ends_at st1 Q (k a)) -> ends_at st Q (bind m k).
Proof. intros Hm Hk. unfold ends_at, bind in *. destruct (m st) as [[a st1]| | |]; try done. cbn [obind]. by apply Hk. Qed.

Lemma at_quiet {A B} st (Q : B -> redisClusterContext C -> Prop) (m : M A) k : quiet m ->
  (forall a st1, uncounted st st1 -> ends_at st1 Q (k a)) -> ends_at st Q (bind m k).
Proof. intros Hm. apply at_bind. apply Hm. Qed.

(** The counter stays within its limit as long as the command is not given up. *)
Definition within (st : redisClusterContext C) {A} (r : option A) (st' : redisClusterContext C) : Prop :=
  cc_max st' = cc_max st /\ cc_retry st <= cc_retry st' <= cc_max st + 1 /\ (is_Some r -> cc_retry st' <= cc_max st).

Lemma at_giving_up {A B} st0 (m : M A) st : quiet m -> cc_max st = cc_max st0 -> cc_retry st0 <= cc_retry st <= cc_max st0 + 1 ->
  ends_at st (within st0) (bind m (fun _ => pure (@None B))).
Proof.
  intros Hm Hx Hr. apply at_quiet; [done|]. intros a st1 [Hx1 Hr1]. cbn. split_and!; [congruence | lia | lia | by intros []].
Qed.

Lemma at_too_many st : 0 <= cc_retry st <= cc_max st -> cc_max st < INT_MAX ->
  ends_at st (fun b st' => cc_max st' = cc_max st /\ cc_retry st' = cc_retry st + 1 /\ (b = false -> cc_retry st + 1 <= cc_max st)) too_many.
Proof.
  intros Hr Hm. unfold too_many, ends_at. cbn. rewrite i32_small by (unfold INT_MIN, INT_MAX in *; lia).
  destruct (Z.ltb_spec (cc_max st) (cc_retry st + 1)); cbn; split_and!; try done; lia.
Qed.

Lemma at_within {A} (m : M (option A)) st0 st : quiet m -> cc_max st = cc_max st0 -> cc_retry st0 <= cc_retry st <= cc_max st0 ->
  ends_at st (within st0) m.
Proof.
  intros Hm Hx Hr. specialize (Hm st). unfold ends_at. destruct (m st) as [[a st1]| | |]; try done. destruct Hm as [Hx1 Hr1].
  split_and!; [congruence | lia | lia | intros _; lia].
Qed.

Lemma at_connection slot st : 0 <= cc_retry st <= cc_max st -> cc_max st < INT_MAX -> ends_at st (within st) (connection_for slot).
Proof.
  intros Hr Hm. unfold connection_for. apply at_quiet; [leading|]. intros a st1 H1. apply at_quiet; [leading|]. intros node st2 H2.
  assert (uncounted st st2) as [Hx Hc] by (by etrans). clear H1 H2 st1. destruct node as [p|]; [|apply at_giving_up; [leading | done | lia]].
  apply at_quiet; [leading|]. intros c st3 [Hx3 Hc3]. destruct c as [c|]; [|apply at_giving_up; [leading | congruence | lia]].
  apply at_quiet; [leading|]. intros e st4 [Hx4 Hc4]. destruct (e.1 =? 0). { apply at_within; [leading | congruence | lia]. }
  apply at_quiet; [leading|]. intros node st5 [Hx5 Hc5]. destruct node as [q|]; [|apply at_giving_up; [leading | congruence | lia]].
  eapply at_bind; [apply at_too_many; [|congruence]; lia|]. intros b st6 (Hx6 & Hc6 & Hb). destruct b.
  - cbn. split_and!; [congruence | lia | lia | by intros []].
  - specialize (Hb eq_refl). apply at_within; [leading | congruence | lia].
Qed.

Lemma within_trans {A B} st0 st (r : option A) (r' : option B) st' : within st0 r st -> is_Some r -> within st r' st' -> within st0 r' st'.
Proof. intros (Hx & Hr & Hs) Hr0 (Hx' & Hr' & Hs'). unfold within. rewrite Hx in *. specialize (Hs Hr0). split_and!; [done | lia.. |]. intros Hq. by apply Hs'. Qed.

Lemma at_weaken {A} st (Q Q' : A -> redisClusterContext C -> Prop) m : ends_at st Q m -> (forall a st', Q a st' -> Q' a st') -> ends_at st Q' m.
Proof. unfold ends_at. intros Hm HQ. destruct (m st) as [[a st1]| | |]; try done. by apply HQ. Qed.

Lemma execute_ends f : forall slot cmd len asked st, 0 <= cc_retry st <= cc_max st -> cc_max st < INT_MAX ->
  (Z.to_nat (cc_max st - cc_retry st) < f)%nat -> ends_at st (within st) (execute_loop qsort f slot cmd len asked).
Proof.
  induction f as [|f IH]; intros slot cmd len asked st Hr Hm Hf; [lia|]. cbn [execute_loop].
  apply at_bind with (Q1 := within st).
  { destruct asked; [apply at_within; [leading | done | lia] | by apply at_connection]. }
  intros c st1 Hw. destruct c as [c|]; [|destruct Hw as (? & ? & _); split_and!; [done | lia.. | by intros []]]. pose proof Hw as (Hx1 & Hr1 & Hs1). specialize (Hs1 ltac:(done)).
  apply at_quiet; [apply quiet_exchange|]. intros reply st2 [Hx2 Hc2].
  destruct reply as [l|]; [|cbn; split_and!; [congruence | lia | lia | by intros []]].
  apply at_quiet; [leading|]. intros st3' st3 [Hx3 Hc3]. apply at_quiet; [leading|]. intros ty st4 [Hx4 Hc4].
  destruct (_ && _); [|cbn; split_and!; [congruence | lia | lia | lia]].
  eapply at_bind; [apply at_too_many; [|congruence]; lia|]. intros b st5 (Hx5 & Hc5 & Hb). destruct b.
  { apply at_giving_up; [leading | congruence | lia]. }
  specialize (Hb eq_refl). assert (cc_max st5 = cc_max st /\ cc_retry st < cc_retry st5 <= cc_max st) as [Hx Hc] by (split; [congruence | lia]).
  clear - IH Hr Hm Hf Hx Hc.
  assert (forall asked st6, uncounted st5 st6 -> ends_at st6 (within st) (execute_loop qsort f slot cmd len asked)) as Hnext.
  { intros asked st6 [Hx6 Hc6]. eapply at_weaken; [apply IH; [rewrite Hx6; lia | rewrite Hx6; lia | rewrite Hx6; lia]|].
    intros r st' (Hx' & Hr' & Hs'). rewrite Hx6, Hx in *. unfold within. split_and!; [done | lia.. |done]. }
  destruct (ty =? CLUSTER_ERR_MOVED); [|destruct (ty =? CLUSTER_ERR_ASK)].
  - apply at_quiet; [leading|]. intros _ st6 H6. apply at_quiet; [leading|]. intros ret st7 H7.
    destruct (negb _); [|apply Hnext; by etrans]. assert (uncounted st5 st7) as [] by (by etrans). apply at_giving_up; [leading | congruence | lia].
  - apply at_quiet; [apply quiet_ask|]. intros c st6 H6. destruct c; [by apply Hnext|]. destruct H6. cbn. split_and!; [congruence | lia | lia | by intros []].
  - apply at_quiet; [leading|]. intros _ st6 H6. by apply Hnext.
Qed.

End Ends.

(** ** What a reply asks for *)

(** The kind of error a text announces. *)
Fixpoint text_kind (s : bytes) (l : list (bytes * Z)) : Z :=
  match l with
  | [] => CLUSTER_ERR_SENTINEL
  | (prefix, kind) :: l' => if (zlen prefix <? i32 (zlen s)) && begins prefix s then kind else text_kind s l'
  end.

Definition kind_of (v : value) : Z :=
  match v with VString ty s => if ty =? Read.REDIS_REPLY_ERROR then text_kind s cluster_errors else CLUSTER_NOT_ERR | _ => CLUSTER_NOT_ERR end.

(** The value is the answer, or it asks to try again. *)
Definition settled (v : value) : Prop := kind_of v = CLUSTER_NOT_ERR \/ kind_of v = CLUSTER_ERR_SENTINEL.
Definition delays (v : value) : Prop := kind_of v = CLUSTER_ERR_TRYAGAIN \/ kind_of v = CLUSTER_ERR_CROSSSLOT \/ kind_of v = CLUSTER_ERR_CLUSTERDOWN.

Lemma i32_le z : 0 <= z -> i32 z <= z.
Proof. intros Hz. unfold swrap. pose proof (Z.mod_le (z + 2 ^ (32 - 1)) (2 ^ 32)). lia. Qed.

Lemma begins_more prefix s t : zlen prefix <= zlen s -> begins prefix (s ++ t) = begins prefix s.
Proof. intros Hl. unfold begins. by rewrite take_app_le by (unfold zlen in *; lia). Qed.

Lemma error_among_text h ty s b l : h !! b = Some (BChars (s ++ [0])) ->
  error_among h (mk_reply ty 0 (i32 (zlen s)) (Some b) 0 None) l = Some (text_kind s l).
Proof.
  intros Hb. induction l as [|[prefix kind] l IH]; [done|]. cbn [error_among text_kind]. unfold is_error, chars. cbn [rlen str mbind option_bind]. rewrite Hb.
  cbn [mbind option_bind]. pose proof (i32_le (zlen s) (zlen_nonneg s)). destruct (Z.ltb_spec (zlen prefix) (i32 (zlen s))); cbn [mbind option_bind andb]; [|done].
  rewrite begins_more by lia. by destruct (begins prefix s).
Qed.

Lemma tree_kind v l m h : tree v l m -> cluster_reply_error_type (m ∪ h) (Some l) = Some (kind_of v).
Proof.
  unfold cluster_reply_error_type, load_reply. intros Ht. destruct Ht as [z l|l|ty s l b Hty Hne|n l Hn|vs l e ps m Hlen Hts Hle Hl He].
  1, 2, 4: by rewrite lookup_union, lookup_singleton_eq, union_Some_l.
  - rewrite lookup_union, lookup_insert_eq, union_Some_l. cbn [mbind option_bind rtype kind_of string_reply].
    destruct (ty =? Read.REDIS_REPLY_ERROR) eqn:Ety; [|done]. apply error_among_text.
    by rewrite lookup_union, lookup_insert_ne, lookup_singleton_eq, union_Some_l by done.
  - by rewrite lookup_union, lookup_insert_eq, union_Some_l.
Qed.

Lemma set_conns_conns {C : Connections} n h n' h' (st : redisClusterContext C) : set_conns n h (set_conns n' h' st) = set_conns n h st.
Proof. done. Qed.

Lemma set_conns_same {C : Connections} (st : redisClusterContext C) : set_conns (cc_conns st) (cc_heap st) st = st.
Proof. by destruct st. Qed.

(** ** Talking to one node *)

Section Talk.
Context `{Memory} {C : Connections} {L : ConnLaws C} (qsort : list (option cluster_slot) -> list (option cluster_slot)).

Abbreviation cluster := (redisClusterContext C).

(** The other connections go on as before, and so do the attempts to connect; no connection
    was opened or closed. *)
Definition others_kept (n n' : conns) (c : handle) : Prop :=
  (forall c' s', c' <> c -> talks n c' s' -> talks n' c' s') /\ (forall ds, dials n ds -> dials n' ds) /\ (forall c', live n' c' <-> live n c').

Lemma others_refl n c : others_kept n n c.
Proof. done. Qed.

Lemma others_trans n1 n2 n3 c : others_kept n1 n2 c -> others_kept n2 n3 c -> others_kept n1 n3 c.
Proof. intros (H1 & D1 & L1) (H2 & D2 & L2). split_and!; [intros c' s' Hne Ht; by apply H2, H1 | intros ds Hd; by apply D2, D1 | intros c'; by rewrite L2]. Qed.

Lemma context_error_ok (st : cluster) c s : talks (cc_conns st) c s -> exists msg, context_error c st = Done ((0, msg), st).
Proof.
  intros Ht. apply talks_error in Ht. unfold context_error. cbn. unfold bind, get. cbn. destruct (con_error _ _) as [[e msg]|]; [|done].
  cbn in Ht. injection Ht as ->. by exists msg.
Qed.

Lemma exchange_spec (st : cluster) c text v s cmd : talks (cc_conns st) c ((text, v) :: s) -> take (length text) cmd = text ->
  exists l m n2, exchange c cmd (zlen text) st = Done (Some l, set_conns n2 (m ∪ cc_heap st) st) /\ tree v l m /\ m ##ₘ cc_heap st /\
    talks n2 c s /\ others_kept (cc_conns st) n2 c.
Proof.
  intros Ht Hcmd. destruct (talks_exchange _ _ _ _ _ _ Ht Hcmd) as (n1 & Ea & _ & Eb & Hr). destruct (Hr (cc_heap st)) as (l & m & n2 & Er & Htr & Hd & Ht2 & Ho).
  exists l, m, n2. split_and!; try done. unfold exchange, appendCommand, blockForReply, getReply, bind, get. cbn. rewrite Ea. cbn. rewrite Eb. cbn. unfold bind. cbn. rewrite Er. by cbn.
Qed.

Lemma free_spec (st : cluster) v l m h n : tree v l m -> m ##ₘ h -> freeReply (Some l) (set_conns n (m ∪ h) st) = Done (tt, set_conns n h st).
Proof. intros Ht Hd. unfold freeReply, bind, get. cbn [obind cc_heap set_conns]. by rewrite (freeReplyObject_tree _ _ _ _ Ht Hd). Qed.

(** The node of a slot and its open connection. *)
Definition served (st : cluster) (slot : Z) (c : handle) : Prop :=
  exists p n, node_get_by_table (cc_table st) (u32 slot) = Some (Some p) /\ cc_mem st !! p = Some n /\ con n = Some c.

Lemma connection_spec (st : cluster) slot c s : served st slot c -> talks (cc_conns st) c s -> connection_for slot st = Done (Some c, st).
Proof.
  intros (p & n & Ht & Hp & Hc) Htalk. destruct (context_error_ok st c s Htalk) as [msg Ee].
  unfold connection_for, bind at 1, get at 1. cbn [obind]. rewrite Ht. unfold need at 1, bind at 1, pure at 1. cbn [obind].
  assert (ctx_get_by_node p st = Done (Some c, st)) as Ec.
  { unfold ctx_get_by_node, bind at 1, get at 1. cbn [obind]. rewrite Hp. unfold need at 1, bind at 1, pure at 1. cbn [obind]. rewrite Hc.
    unfold bind at 1. rewrite Ee. by cbn. }
  unfold bind at 1. rewrite Ec. cbn [obind]. unfold bind at 1. rewrite Ee. by cbn.
Qed.

(** The state after [k] more redirections, with other connections and another heap. *)
Definition after (st : cluster) (k : Z) (n : conns) (h : heap) : cluster := set_conns n h (set_retry (cc_retry st + k) st).

Lemma after_same st : after st 0 (cc_conns st) (cc_heap st) = st.
Proof. unfold after. rewrite Z.add_0_r. by destruct st. Qed.

Lemma set_after st k n h n' h' : set_conns n' h' (after st k n h) = after st k n' h'.
Proof. done. Qed.

Lemma after_after st k k' n h n' h' : after (after st k n h) k' n' h' = after st (k + k') n' h'.
Proof. unfold after. destruct st. cbn. by rewrite Z.add_assoc. Qed.

Lemma execute_step f slot cmd c (st : cluster) text v s : served st slot c -> talks (cc_conns st) c ((text, v) :: s) -> take (length text) cmd = text ->
  exists l m n2, tree v l m /\ m ##ₘ cc_heap st /\ talks n2 c s /\ others_kept (cc_conns st) n2 c /\
    (settled v -> execute_loop qsort (S f) slot cmd (zlen text) None st = Done (Some l, after st 0 n2 (m ∪ cc_heap st))) /\
    (delays v -> 0 <= cc_retry st <= cc_max st -> cc_max st < INT_MAX ->
      execute_loop qsort (S f) slot cmd (zlen text) None st =
        if cc_max st <? cc_retry st + 1
        then Done (None, set_err (set_error REDIS_ERR_CLUSTER_TOO_MANY_REDIRECT (bstr "too many cluster redirect")) (after st 1 n2 (cc_heap st)))
        else execute_loop qsort f slot cmd (zlen text) None (after st 1 n2 (cc_heap st))).
Proof.
  intros Hs Ht Hcmd. destruct (exchange_spec st c text v s cmd Ht Hcmd) as (l & m & n2 & Ee & Htr & Hd & Ht2 & Ho).
  exists l, m, n2. split_and!; try done.
  - intros Hv. cbn [execute_loop]. unfold bind at 1. rewrite (connection_spec st slot c _ Hs Ht). cbn [obind]. unfold bind at 1. rewrite Ee. cbn [obind].
    unfold bind at 1, get at 1. cbn [obind cc_heap set_conns]. rewrite (tree_kind v l m _ Htr). unfold need at 1, bind at 1, pure at 1. cbn [obind].
    rewrite (proj2 (andb_false_iff _ _)) by (destruct Hv as [-> | ->]; [by left | by right]). unfold after. rewrite Z.add_0_r. by destruct st.
  - intros Hv Hr Hm. cbn [execute_loop]. unfold bind at 1. rewrite (connection_spec st slot c _ Hs Ht). cbn [obind]. unfold bind at 1. rewrite Ee. cbn [obind].
    unfold bind at 1, get at 1. cbn [obind cc_heap set_conns]. rewrite (tree_kind v l m _ Htr). unfold need at 1, bind at 1, pure at 1. cbn [obind].
    assert (negb (kind_of v =? CLUSTER_ERR_MOVED) && negb (kind_of v =? CLUSTER_ERR_ASK) && (CLUSTER_NOT_ERR <? kind_of v) && (kind_of v <? CLUSTER_ERR_SENTINEL) = true) as Hk
      by (by destruct Hv as [-> | [-> | ->]]).
    rewrite !andb_true_iff, !negb_true_iff in Hk. destruct Hk as (((-> & ->) & ->) & ->). cbn [andb].
    unfold bind at 1, too_many, bind at 1, get at 1. cbn [obind]. unfold bind at 1, modify at 1. cbn [obind cc_max cc_retry set_conns].
    rewrite i32_small by (unfold INT_MIN, INT_MAX in *; lia). destruct (cc_max st <? cc_retry st + 1).
    + unfold bind at 1, fail_with, modify, pure at 1. cbn [obind]. unfold bind at 1. unfold freeReply, bind at 1, get at 1. cbn [obind cc_heap set_err set_retry set_conns cc_conns].
      rewrite (freeReplyObject_tree _ _ _ _ Htr Hd). by cbn.
    + unfold pure at 1. cbn [obind]. unfold bind at 1. unfold freeReply, bind at 1, get at 1. cbn [obind cc_heap set_err set_retry set_conns cc_conns].
      rewrite (freeReplyObject_tree _ _ _ _ Htr Hd). by cbn.
Qed.

Definition given_up (st : cluster) : cluster := set_err (set_error REDIS_ERR_CLUSTER_TOO_MANY_REDIRECT (bstr "too many cluster redirect")) st.

Lemma patience f : forall slot cmd c text ds v s st, served st slot c -> talks (cc_conns st) c (map (pair text) (ds ++ [v]) ++ s) ->
  take (length text) cmd = text -> Forall delays ds -> settled v -> 0 <= cc_retry st <= cc_max st -> cc_max st < INT_MAX ->
  (Z.to_nat (cc_max st - cc_retry st) < f)%nat ->
  if zlen ds <=? cc_max st - cc_retry st
  then exists l m n2, execute_loop qsort f slot cmd (zlen text) None st = Done (Some l, after st (zlen ds) n2 (m ∪ cc_heap st)) /\
    tree v l m /\ m ##ₘ cc_heap st /\ talks n2 c s /\ others_kept (cc_conns st) n2 c
  else exists n2, execute_loop qsort f slot cmd (zlen text) None st = Done (None, given_up (after st (cc_max st - cc_retry st + 1) n2 (cc_heap st))) /\
    others_kept (cc_conns st) n2 c.
Proof.
  induction f as [|f IH]; intros slot cmd c text ds v s st Hs Ht Hcmd Hds Hv Hr Hm Hf; [lia|]. destruct ds as [|d ds].
  - cbn [app map] in Ht. rewrite (proj2 (Z.leb_le _ _)) by (unfold zlen; cbn; lia).
    destruct (execute_step f slot cmd c st text v s Hs Ht Hcmd) as (l & m & n2 & Htr & Hd & Ht2 & Ho & E & _). exists l, m, n2. split_and!; try done. by apply E.
  - apply Forall_cons in Hds as [Hd Hds]. cbn [app map] in Ht. rewrite zlen_cons.
    destruct (execute_step f slot cmd c st text d _ Hs Ht Hcmd) as (l & m & n2 & Htr & _ & Ht2 & Ho & _ & E). specialize (E Hd Hr Hm). rewrite E. clear E.
    destruct (Z.ltb_spec (cc_max st) (cc_retry st + 1)).
    + rewrite (proj2 (Z.leb_gt _ _)) by (zlen_pos; lia). exists n2. replace (cc_max st - cc_retry st + 1) with 1 by lia. done.
    + specialize (IH slot cmd c text ds v s (after st 1 n2 (cc_heap st))). change (cc_max (after st 1 n2 (cc_heap st))) with (cc_max st) in IH.
      change (cc_retry (after st 1 n2 (cc_heap st))) with (cc_retry st + 1) in IH. specialize (IH Hs Ht2 Hcmd Hds Hv ltac:(lia) Hm ltac:(lia)).
      replace (1 + zlen ds <=? cc_max st - cc_retry st) with (zlen ds <=? cc_max st - (cc_retry st + 1)) by (apply eq_true_iff_eq; rewrite !Z.leb_le; lia).
      destruct (zlen ds <=? _).
      * destruct IH as (l' & m' & n3 & E' & Htr' & Hd' & Ht3 & Ho3). exists l', m', n3. rewrite E', after_after. split_and!; try done. by eapply others_trans.
      * destruct IH as (n3 & E' & Ho3). exists n3. rewrite E', after_after. split; [|by eapply others_trans]. do 3 f_equal. f_equal. lia.
Qed.

End Talk.

Section Theorems.
Context `{Memory} {C : Connections} (qsort : list (option cluster_slot) -> list (option cluster_slot)).

(** C17: whatever the servers answer, and however often they redirect the client, executing a
    command comes to an end (it may wait for a socket, but does not go round for ever): every
    jump of the code uses one of the redirections that are allowed, and the counter never
    passes the limit by more than one. *)
Theorem execute_terminates (slot_num : Z) (cmd : bytes) (len : Z) (st : redisClusterContext C)
    (Hretry : 0 <= cc_retry st <= cc_max st) (Hmax : cc_max st < INT_MAX) :
  redis_cluster_command_execute qsort slot_num cmd len st <> Endless /\
  forall r st', redis_cluster_command_execute qsort slot_num cmd len st = Done (r, st') ->
    cc_max st' = cc_max st /\ cc_retry st <= cc_retry st' <= cc_max st + 1 /\ (is_Some r -> cc_retry st' <= cc_max st).
Proof.
  pose proof (execute_ends qsort (jumps st) slot_num cmd len None st Hretry Hmax ltac:(unfold jumps; lia)) as Hw.
  unfold ends_at in Hw. unfold redis_cluster_command_execute, bind, get. cbn [obind].
  destruct (execute_loop _ _ _ _ _ _ st) as [[r st']| | |]; try done. split; [done|]. intros r0 st0 [= <- <-]. exact Hw.
Qed.

(** A computation whose results satisfy [Q]. *)
Definition returns {A} (Q : A -> redisClusterContext C -> Prop) (m : M A) : Prop := forall st a st', m st = Done (a, st') -> Q a st'.

Lemma returns_bind {A B} (Q : B -> redisClusterContext C -> Prop) (m : M A) (k : A -> M B) : (forall a, returns Q (k a)) -> returns Q (bind m k).
Proof. intros Hk st b st' E. unfold bind in E. destruct (m st) as [[a st1]| | |]; try done. by apply (Hk a st1). Qed.

(** The errors by which a server sends the client elsewhere or puts it off. *)
Definition redirections : list bytes := [bstr "MOVED"; bstr "ASK"; bstr "TRYAGAIN"; bstr "CROSSSLOT"; bstr "CLUSTERDOWN"].

(** A reply in the heap that is no such error: its text does not go on after one of the words. *)
Definition no_redirection (h : heap) (l : loc) : Prop :=
  exists r, load_reply h l = Some r /\
    (rtype r = Read.REDIS_REPLY_ERROR -> forall word, word ∈ redirections -> zlen word < rlen r -> exists cs, chars h r = Some cs /\ take (length word) cs <> word).

Lemma error_among_other h r l ty : error_among h r l = Some ty -> ~ (CLUSTER_NOT_ERR < ty < CLUSTER_ERR_SENTINEL) ->
  Forall (fun x => CLUSTER_NOT_ERR < x.2 < CLUSTER_ERR_SENTINEL) l -> Forall (fun x => is_error h r x.1 = Some false) l.
Proof.
  intros E Hty. induction l as [|[prefix kind] l IH]; [constructor|]. intros [Hk Hl]%Forall_cons. cbn [error_among fst snd] in *.
  destruct (is_error h r prefix) as [[]|] eqn:Ei; [|by constructor; [|apply IH]|done]. by injection E as <-.
Qed.

Lemma error_type_other h l ty : cluster_reply_error_type h (Some l) = Some ty -> ~ (CLUSTER_NOT_ERR < ty < CLUSTER_ERR_SENTINEL) -> no_redirection h l.
Proof.
  unfold cluster_reply_error_type. destruct (load_reply h l) as [r|] eqn:Er; [|done]. cbn [mbind option_bind]. intros E Hty. exists r. split; [done|]. intros Ht word Hw Hl.
  rewrite Ht, Z.eqb_refl in E. apply error_among_other in E; [|done|by repeat (apply Forall_cons; split)].
  assert (word ∈ cluster_errors.*1) as Hin by exact Hw. apply list_elem_of_fmap in Hin as (x & -> & Hx). rewrite Forall_forall in E. specialize (E x Hx).
  unfold is_error in E. rewrite (proj2 (Z.ltb_lt _ _)) in E by done. destruct (chars h r) as [cs|]; [|done]. cbn [mbind option_bind] in E. injection E as E.
  exists cs. split; [done|]. by apply bool_decide_eq_false in E.
Qed.

Definition settled_reply (r : option loc) (st : redisClusterContext C) : Prop := forall l, r = Some l -> no_redirection (cc_heap st) l.

Lemma returns_none : returns settled_reply (pure None).
Proof. by intros st a st' [= <- <-]. Qed.

Lemma execute_returns f : forall slot cmd len asked, returns settled_reply (execute_loop qsort f slot cmd len asked).
Proof.
  induction f as [|f IH]; intros slot cmd len asked; cbn [execute_loop]; [done|]. apply returns_bind. intros [c|]; [|apply returns_none].
  apply returns_bind. intros [l|]; [|apply returns_none]. intros st a st'. unfold bind at 1, get at 1. cbn [obind].
  destruct (cluster_reply_error_type (cc_heap st) (Some l)) as [ty|] eqn:Ety; [|done]. unfold need, bind at 1, pure at 1. cbn [obind].
  destruct ((CLUSTER_NOT_ERR <? ty) && (ty <? CLUSTER_ERR_SENTINEL)) eqn:Er.
  - revert st a st' Ety. enough (forall m : M (option loc), returns settled_reply m -> forall st a st', m st = Done (a, st') -> settled_reply a st') as Hm.
    { intros st a st' _. apply Hm. apply returns_bind. intros b. repeat first [apply returns_none | apply IH | apply returns_bind; intros ? | case_match]. }
    intros m Hm st a st' E. by apply (Hm st).
  - intros [= <- <-] l0 [= <-]. apply (error_type_other _ _ ty Ety). intros [H1 H2]. apply Z.ltb_lt in H1, H2. by rewrite H1, H2 in Er.
Qed.

(** C24: whatever the servers answer, a reply that is handed to the caller is an object in the
    heap that is not an error whose text goes on after MOVED, ASK, TRYAGAIN, CROSSSLOT or
    CLUSTERDOWN: these are dealt with inside. *)
Theorem execute_settles (slot_num : Z) (cmd : bytes) (len : Z) (st st' : redisClusterContext C) (l : loc)
    (Hdone : redis_cluster_command_execute qsort slot_num cmd len st = Done (Some l, st')) :
  exists r, load_reply (cc_heap st') l = Some r /\
    (rtype r = Read.REDIS_REPLY_ERROR -> forall word, word ∈ redirections -> zlen word < rlen r ->
      exists cs, chars (cc_heap st') r = Some cs /\ take (length word) cs <> word).
Proof. by apply (execute_returns (jumps st) slot_num cmd len None st (Some l) st'). Qed.

Context {L : ConnLaws C}.

(** C18: a command goes to the node of its slot, and as long as the server asks to try again
    it is sent again. When the server comes to answer within the redirections that are
    allowed, that answer is returned, exactly its blocks are added to the heap, all other
    replies have been released and the other connections go on undisturbed; when it does
    not, nothing is left of its replies and the error says so. *)
Theorem execute_patience (slot_num : Z) (cmd text : bytes) (c : handle) (ds : list value) (v : value) (s : script) (st : redisClusterContext C)
    (Hserved : served st slot_num c) (Htalks : talks (cc_conns st) c (map (pair text) (ds ++ [v]) ++ s))
    (Hcmd : take (length text) cmd = text) (Hdelays : Forall delays ds) (Hv : settled v)
    (Hretry : 0 <= cc_retry st <= cc_max st) (Hmax : cc_max st < INT_MAX) :
  if zlen ds <=? cc_max st - cc_retry st
  then exists l m n, redis_cluster_command_execute qsort slot_num cmd (zlen text) st = Done (Some l, after st (zlen ds) n (m ∪ cc_heap st)) /\
    tree v l m /\ m ##ₘ cc_heap st /\ talks n c s /\ others_kept (cc_conns st) n c
  else exists n, redis_cluster_command_execute qsort slot_num cmd (zlen text) st =
      Done (None, given_up (after st (cc_max st - cc_retry st + 1) n (cc_heap st))) /\ others_kept (cc_conns st) n c.
Proof. apply patience; try done. unfold jumps. lia. Qed.

End Theorems.

(** ** Demonstrations *)

Section Demo.
#[local] Existing Instance demo_memory.
#[local] Existing Instance sockets.

Definition demo_vsnprintf (_ : bytes) (_ : Format.farg) : bytes := [].

#[local] Instance demo_sockets : Connections := sockets Context.demo_strerror demo_vsnprintf.
#[local] Instance demo_laws : ConnLaws demo_sockets := sockets_laws demo_has_memory Context.demo_strerror demo_vsnprintf.

Definition demo_text : bytes := Format.encode [bstr "GET"; bstr "k"].
Definition demo_delay : value := VString Read.REDIS_REPLY_ERROR (bstr "TRYAGAIN later").

Definition demo_error_reply : value := VString Read.REDIS_REPLY_ERROR (bstr "ERR no such command").

(** The server delays the command and then answers it. *)
Definition demo_plan (v : value) : Context.socket :=
  Context.mk_socket [Context.WBytes 100; Context.WBytes 100] [Context.RBytes (resp demo_delay); Context.RBytes (resp v)] [].

Definition demo_network (v : value) : @conns demo_sockets := mk_network [Some (Context.demo_connection, demo_plan v)] [] [].

Definition demo_connected : cluster_node := with_con (node_init None (bstr "h:7") (Some (bstr "h")) 7 REDIS_ROLE_MASTER None) (Some 0%nat).

Definition demo_cluster (v : value) (max : Z) : redisClusterContext demo_sockets :=
  mk_cluster 0 [] None 0 0 None None [demo_connected] (Some 0%nat :: replicate (Z.to_nat 16383) None) 1 max 0 None 0 (demo_network v) ∅ 0.

Lemma demo_served v max : served (demo_cluster v max) 0 0%nat.
Proof. by exists 0%nat, demo_connected. Qed.

Lemma demo_talks v max : sendable 8 v -> Context.delivery (Context.RBytes (resp v)) -> zlen (resp v) <= 100 ->
  talks (cc_conns (demo_cluster v max)) 0%nat (map (pair demo_text) ([demo_delay] ++ [v]) ++ []).
Proof.
  intros Hv Hd Hz. exists Context.demo_connection, (demo_plan v), 0. split; [done|]. split; [done|].
  split; [intros h; by apply (Context.connect_idle Context.demo_connection h Context.demo_connect)|].
  cbn [app map plays]. split_and!; [done | split; [by right | done] |].
  exists [Context.WBytes 100], [Context.RBytes (resp demo_delay)], [Context.RBytes (resp v)].
  split_and!; try done; [by apply Forall_cons|].
  exists [], [Context.RBytes (resp v)], []. split_and!; try done; [by apply Forall_cons | by cbn; rewrite app_nil_r |].
  change (zlen (resp demo_delay)) with 17. pose proof (zlen_nonneg (resp v)). unfold Sds.fits, INT_MAX, Sds.SDS_MAX_PREALLOC. lia.
Qed.

Lemma demo_delays : Forall delays [demo_delay].
Proof. apply Forall_cons. split; [by left | done]. Qed.

Lemma execute_terminates_witness : redis_cluster_command_execute demo_qsort 0 demo_text (zlen demo_text) (demo_cluster (VInt 5) 5) <> Endless.
Proof. apply (execute_terminates demo_qsort 0 demo_text (zlen demo_text) (demo_cluster (VInt 5) 5)); [by split | done]. Defined.

Lemma execute_settles_witness : exists l st' r,
  redis_cluster_command_execute demo_qsort 0 demo_text (zlen demo_text) (demo_cluster demo_error_reply 5) = Done (Some l, st') /\
  load_reply (cc_heap st') l = Some r /\
  (rtype r = Read.REDIS_REPLY_ERROR -> forall word, word ∈ redirections -> zlen word < rlen r ->
    exists cs, chars (cc_heap st') r = Some cs /\ take (length word) cs <> word).
Proof.
  destruct (patience demo_qsort (jumps (demo_cluster demo_error_reply 5)) 0 demo_text 0%nat demo_text [demo_delay] demo_error_reply [] (demo_cluster demo_error_reply 5)
    (demo_served _ 5) (demo_talks demo_error_reply 5 ltac:(split; [by right | done]) ltac:(done) ltac:(done)) eq_refl demo_delays (or_intror eq_refl) ltac:(by split) ltac:(done) ltac:(unfold jumps; lia)) as (l & m & n & E & _).
  destruct (execute_settles demo_qsort 0 demo_text (zlen demo_text) (demo_cluster demo_error_reply 5) _ l E) as (r & Hr & Hn).
  eexists l, _, r. split; [exact E|]. split; [exact Hr | exact Hn].
Defined.

Lemma execute_patience_witness :
  (exists l m n, redis_cluster_command_execute demo_qsort 0 demo_text (zlen demo_text) (demo_cluster (VInt 5) 5) =
    Done (Some l, after (demo_cluster (VInt 5) 5) 1 n (m ∪ ∅)) /\ tree (VInt 5) l m) /\
  (exists n, redis_cluster_command_execute demo_qsort 0 demo_text (zlen demo_text) (demo_cluster (VInt 5) 0) = Done (None, given_up (after (demo_cluster (VInt 5) 0) 1 n ∅))).
Proof.
  split.
  - destruct (execute_patience demo_qsort 0 demo_text demo_text 0%nat [demo_delay] (VInt 5) [] (demo_cluster (VInt 5) 5)
      (demo_served _ 5) (demo_talks (VInt 5) 5 ltac:(done) ltac:(done) ltac:(done)) eq_refl demo_delays (or_introl eq_refl) ltac:(by split) ltac:(done)) as (l & m & n & E & Ht & _).
    exists l, m, n. split; [exact E | exact Ht].
  - destruct (execute_patience demo_qsort 0 demo_text demo_text 0%nat [demo_delay] (VInt 5) [] (demo_cluster (VInt 5) 0)
      (demo_served _ 0) (demo_talks (VInt 5) 0 ltac:(done) ltac:(done) ltac:(done)) eq_refl demo_delays (or_introl eq_refl) ltac:(by split) ltac:(done)) as (n & E & _).
    exists n. exact E.
Defined.

End Demo.

End Cluster.
