(* ===== verification/Redirect.v ===== *)
(** Following a redirection, hircluster.c: the server that was asked says that the slot has
    moved; the client asks another node for the description of the cluster, builds the new
    route, keeps the connections that the old and the new nodes have in common, releases the
    others, and asks the new node of the slot. *)
From S2P Require Import Prelude Crc16 HiUtil HiArray Dict Sds Read Format Command Reply Frag Gather Route Nodes Context Conn Cluster.
Import HiUtil Reply.

Open Scope Z_scope.

Module Redirect.

Import Frag Route Nodes Conn Cluster.

(** ** The value of a reply *)

(** Arrays are as long as they say; [room] bounds the nesting. *)
Fixpoint well_counted (room : nat) (v : value) : Prop :=
  match room, v with
  | S k, VArray n vs => n = zlen vs /\ Forall (well_counted k) vs
  | O, VArray _ _ => False
  | _, _ => True
  end.

(** The value of an element. *)
Definition element_value (f : nat) (h : heap) (p : option loc) : option value := match p with None => Some VHole | Some q => value_at f h q end.

Lemma value_at_both :
  (forall v l m, tree v l m -> forall room f h, well_counted room v -> m ##ₘ h -> (size m <= f)%nat -> value_at f (m ∪ h) l = Some v) /\
  (forall vs ps m, trees vs ps m -> forall room f h, Forall (well_counted room) vs -> m ##ₘ h -> (size m <= f)%nat -> mapM (element_value f (m ∪ h)) ps = Some vs).
Proof.
  apply tree_trees_ind.
  - intros z l room f h _ _ Hf. rewrite map_size_singleton in Hf. destruct f; [lia|]. cbn [value_at]. unfold load_reply.
    by rewrite lookup_union, lookup_singleton_eq, union_Some_l.
  - intros l room f h _ _ Hf. rewrite map_size_singleton in Hf. destruct f; [lia|]. cbn [value_at]. unfold load_reply.
    by rewrite lookup_union, lookup_singleton_eq, union_Some_l.
  - intros ty s l b Hty Hne room f h _ _ Hf. rewrite size_insert, map_size_singleton in Hf by (by apply lookup_singleton_ne). destruct f; [lia|].
    cbn [value_at]. unfold load_reply. rewrite lookup_union, lookup_insert_eq, union_Some_l. cbn [mbind option_bind rtype string_reply].
    unfold chars. cbn [str mbind option_bind]. rewrite lookup_union, lookup_insert_ne, lookup_singleton_eq, union_Some_l by done. cbn [mbind option_bind].
    rewrite length_app. cbn [length]. rewrite Nat.add_sub, take_app_length. by destruct Hty as [-> | [-> | ->]].
  - intros n l Hn room f h Hw _ Hf. destruct room as [|room]; [done|]. destruct Hw as [Hz _]. rewrite map_size_singleton in Hf. destruct f; [lia|]. cbn [value_at]. unfold load_reply.
    rewrite lookup_union, lookup_singleton_eq, union_Some_l. cbn. change (zlen (@nil value)) with 0 in Hz. by subst.
  - intros vs l e ps m Hlen Hts IH Hle Hl He room f h Hw Hd Hf. destruct room as [|room]; [done|]. destruct Hw as [_ Hw]. rewrite !size_insert in Hf; [|done|by rewrite lookup_insert_ne]. destruct f; [lia|].
    cbn [value_at]. unfold load_reply. rewrite lookup_union, lookup_insert_eq, union_Some_l. cbn [mbind option_bind rtype array_reply element relements].
    rewrite Z.eqb_refl. unfold load_ptrs. rewrite lookup_union, lookup_insert_ne, lookup_insert_eq, union_Some_l by done. cbn [mbind option_bind].
    apply map_disjoint_insert_l in Hd as [Hhl Hd]. apply map_disjoint_insert_l in Hd as [Hhe Hd].
    fold (element_value f (<[l:=array_reply (zlen vs) (Some e)]> (<[e:=BPtrs ps]> m) ∪ h)).
    rewrite (union_insert_out l), (union_insert_out e) by (done || by rewrite lookup_insert_ne).
    rewrite (IH room f (<[e := BPtrs ps]> (<[l := array_reply (zlen vs) (Some e)]> h))).
    + cbn [mbind option_bind]. unfold INT_MAX in Hlen. by rewrite uwrap_small by lia.
    + done.
    + apply map_disjoint_insert_r. split; [done|]. apply map_disjoint_insert_r. done.
    + lia.
  - intros room f h _ _ _. done.
  - intros vs ps m Hts IH room f h Hw Hd Hf. apply Forall_cons in Hw as [_ Hw]. cbn [mapM element_value mbind option_bind]. by rewrite (IH room f h).
  - intros v vs l ps m1 m2 Ht IH1 Hts IH2 Hd12 room f h Hw Hd Hf. apply Forall_cons in Hw as [Hw1 Hw]. apply map_disjoint_union_l in Hd as [Hd1 Hd2].
    rewrite map_size_disj_union in Hf by done. cbn [mapM element_value]. rewrite <- (assoc_L (∪)), (IH1 room f (m2 ∪ h)); [|done|by apply map_disjoint_union_r|lia].
    cbn [mbind option_bind]. rewrite (assoc_L (∪)), (map_union_comm m1 m2), <- (assoc_L (∪)) by done.
    rewrite (IH2 room f (m1 ∪ h)); [done|done|by apply map_disjoint_union_r|lia].
Qed.

Lemma value_of_tree room v l m h : tree v l m -> well_counted room v -> m ##ₘ h -> value_at (size (m ∪ h)) (m ∪ h) l = Some v.
Proof. intros Ht Hw Hd. apply (proj1 value_at_both _ _ _ Ht room); try done. rewrite map_size_disj_union by done. lia. Qed.

Lemma slots_counted rs : well_counted 3 (slots_reply rs).
Proof.
  assert (forall x, well_counted 1 (node_value x)) as Hnode by (intros x; split; [done|]; by repeat (apply Forall_cons; split)).
  split; [by rewrite zlen_map|]. apply List.Forall_map, Forall_forall. intros r _. split; [rewrite ?zlen_cons, ?zlen_map; zl|].
  apply Forall_cons. split; [done|]. apply Forall_cons. split; [done|]. apply Forall_cons. split; [apply Hnode|].
  apply List.Forall_map, Forall_forall. intros x _. apply Hnode.
Qed.

(** ** New nodes have no connections *)

Definition unconnected (mem : nodes_mem) : Prop := Forall (fun n => con n = None) mem.

Definition res_of {A} (P : A -> Prop) (r : res A) : Prop := match r with Some (inl a) => P a | _ => True end.

Lemma res_bind {A B} (P : A -> Prop) (Q : B -> Prop) (x : res A) (k : A -> res B) :
  res_of P x -> (forall a, P a -> res_of Q (k a)) -> res_of Q (rbind x k).
Proof. intros Hx Hk. destruct x as [[a|e]|]; cbn; [by apply Hk | done..]. Qed.

Lemma res_any {A B} (Q : B -> Prop) (x : res A) (k : A -> res B) : (forall a, res_of Q (k a)) -> res_of Q (rbind x k).
Proof. intros Hk. by apply (res_bind (fun _ => True)); [destruct x as [[]|]|]. Qed.

Lemma unconnected_set mem p n : unconnected mem -> con n = None -> unconnected (<[p := n]> mem).
Proof. intros Hm Hn. by apply Forall_insert. Qed.

Lemma unconnected_at mem p n : unconnected mem -> mem !! p = Some n -> con n = None.
Proof. intros Hm Hn. by eapply Forall_lookup_1 in Hm. Qed.

Section Fresh.
Context `{Memory}.

Lemma slots_node_fresh h p role mem : unconnected mem -> res_of (fun x => unconnected x.1) (node_get_with_slots h p role mem).
Proof.
  intros Hm. unfold node_get_with_slots. destruct h, p; try done; repeat (apply res_any; intros ?); apply Forall_app; (split; [done | by apply Forall_cons]).
Qed.

Lemma ref_fresh slot p st : unconnected (pmem st) -> res_of (fun st => unconnected (pmem st)) (ref_or_fail slot p st).
Proof.
  intros Hm. unfold ref_or_fail, cluster_slot_ref_node. destruct (pmem st !! p) as [n|] eqn:E; [|done]. cbn [mbind option_bind].
  destruct (negb (role n =? REDIS_ROLE_MASTER)); [done|]. destruct (match slots n with Some l => Some l | None => _ end); [|done].
  cbn. apply unconnected_set; [done|]. by eapply (unconnected_at _ p n).
Qed.

Lemma node_fresh flags idx v slot st : unconnected (pmem st) -> res_of (fun x => unconnected (pmem x.1)) (parse_node flags idx v slot st).
Proof.
  intros Hm. unfold parse_node. do 6 (apply res_any; intros ?). destruct (idx =? 2); [|destruct (negb _); [|done]].
  - unfold parse_master. do 2 (apply res_any; intros ?). destruct a6 as [[? q]|].
    + eapply res_bind; [by apply ref_fresh|]. done.
    + eapply res_bind; [by apply slots_node_fresh|]. intros [mem q] Hmem. do 2 (apply res_any; intros ?). apply res_any. intros [nodes r].
      apply res_any. intros _. eapply res_bind; [by apply ref_fresh|]. done.
  - apply (res_bind (fun st => unconnected (pmem st))); [|done]. unfold parse_slave. eapply res_bind; [by apply slots_node_fresh|]. intros [mem q] Hmem. apply res_any. intros m.
    destruct (mem !! m) as [n|] eqn:En; [|done]. cbn [lift rbind ret]. apply res_any. intros l. apply unconnected_set; [done|]. by eapply (unconnected_at _ m n).
Qed.

Lemma region_fresh flags vs : forall idx n slot st, unconnected (pmem st) -> res_of (fun st => unconnected (pmem st)) (parse_region flags vs idx n slot st).
Proof.
  induction vs as [|v vs IH]; intros idx n slot st Hm; cbn [parse_region]; [by destruct (idx <? n)|].
  destruct (n <=? idx); [done|]. destruct (idx =? 0); [|destruct (idx =? 1)].
  - do 2 (apply res_any; intros ?). by apply IH.
  - do 3 (apply res_any; intros ?). by apply IH.
  - eapply res_bind; [by apply node_fresh|]. intros [st' []] Hm'; [done | by apply IH].
Qed.

Lemma regions_fresh flags vs : forall i n st, unconnected (pmem st) -> res_of (fun st => unconnected (pmem st)) (parse_regions flags vs i n st).
Proof.
  induction vs as [|v vs IH]; intros i n st Hm; cbn [parse_regions]; [by destruct (i <? n)|].
  destruct (n <=? i); [done|]. do 2 (apply res_any; intros ?). destruct cluster_slot_create; [|done].
  eapply res_bind; [by apply region_fresh|]. intros st' Hm'. by apply IH.
Qed.

Lemma slots_fresh v flags : res_of (fun x => unconnected x.2) (parse_cluster_slots v flags).
Proof.
  unfold parse_cluster_slots. destruct Dict.dictCreate; [|done]. do 2 (apply res_any; intros ?).
  eapply res_bind; [apply regions_fresh; constructor|]. done.
Qed.

End Fresh.

(** ** The connections that are kept *)

Lemma with_con_same n : with_con n (con n) = n.
Proof. by destruct n. Qed.

Lemma with_con_twice n c c' : with_con (with_con n c) c' = with_con n c'.
Proof. done. Qed.

(** The nodes of a dictionary are there, each under one key. *)
Record nodes_ok (d : nodes_dict) (mem : nodes_mem) : Prop := {
  no_wf : Dict.wf d;
  no_size : Dict.size d < 2 ^ 31;
  no_nodes : forall k q, Dict.contents d !! k = Some q -> is_Some (mem !! q);
  no_keys : forall k k' q, Dict.contents d !! k = Some q -> Dict.contents d !! k' = Some q -> k = k';
}.

(** The connection of an address. *)
Definition connection_of (d : nodes_dict) (mem : nodes_mem) (k : bytes) : option handle := q ← Dict.contents d !! k; n ← mem !! q; con n.

Lemma contents_entry (d : nodes_dict) k p : Dict.wf d -> Dict.contents d !! k = Some p <-> (k, p) ∈ concat (Dict.table d).
Proof. intros Hw. unfold Dict.contents. rewrite elem_of_list_to_map; [done|]. apply Hw. Qed.

Section Swap.
Context `{Memory} (Hmem : has_memory) {C : Connections}.
Context (nf nt : nodes_dict) (mf0 mt0 : nodes_mem) (Hf : nodes_ok nf mf0) (Ht : nodes_ok nt mt0).
Context (Hnew : forall k p, Dict.contents nt !! k = Some p -> exists n, mt0 !! p = Some n /\ addr n = k /\ con n = None).

(** The memories when the entries of [done] were handled. *)
Record swapped (done : list bytes) (mf mt : nodes_mem) : Prop := {
  sw_new : forall k p n, Dict.contents nt !! k = Some p -> mt0 !! p = Some n ->
    mt !! p = Some (with_con n (if decide (k ∈ done) then connection_of nf mf0 k else None));
  sw_old : forall k q n, Dict.contents nf !! k = Some q -> mf0 !! q = Some n ->
    mf !! q = Some (if decide (k ∈ done) then if decide (is_Some (Dict.contents nt !! k)) then with_con n None else n else n);
}.

Lemma swapped_init : swapped [] mf0 mt0.
Proof.
  split.
  - intros k p n Hk Hp. destruct (Hnew k p Hk) as (n' & Hp' & _ & Hc). rewrite Hp in Hp'. injection Hp' as <-.
    rewrite decide_False by (by apply not_elem_of_nil). by rewrite <- Hc, with_con_same.
  - intros k q n _ Hq. by rewrite decide_False by (by apply not_elem_of_nil).
Qed.

(** An entry without a connection in the old nodes. *)
Lemma swapped_skip done mf mt k : swapped done mf mt -> is_Some (Dict.contents nt !! k) -> connection_of nf mf0 k = None -> swapped (done ++ [k]) mf mt.
Proof.
  intros [Hn Ho] Hk Hc. split.
  - intros k' p n Hk' Hp. rewrite (Hn k' p n Hk' Hp). do 2 f_equal. destruct (decide (k' ∈ done)); [by rewrite decide_True by set_solver|].
    destruct (decide (k' = k)) as [->|]; [by rewrite decide_True by set_solver | by rewrite decide_False by set_solver].
  - intros k' q n Hk' Hq. rewrite (Ho k' q n Hk' Hq). f_equal. destruct (decide (k' ∈ done)); [by rewrite (decide_True (P := k' ∈ done ++ [k])) by set_solver|].
    destruct (decide (k' = k)) as [->|]; [|by rewrite (decide_False (P := k' ∈ done ++ [k])) by set_solver]. rewrite (decide_True (P := k ∈ done ++ [k])) by set_solver. rewrite decide_True by done.
    unfold connection_of in Hc. rewrite Hk' in Hc. cbn [mbind option_bind] in Hc. rewrite Hq in Hc. cbn [mbind option_bind] in Hc. by rewrite <- Hc, with_con_same.
Qed.

(** An entry whose connection is taken over. *)
Lemma swapped_take done mf mt k p q n nn c : swapped done mf mt -> k ∉ done -> Dict.contents nt !! k = Some p -> mt0 !! p = Some n ->
  Dict.contents nf !! k = Some q -> mf0 !! q = Some nn -> con nn = Some c ->
  swapped (done ++ [k]) (<[q := with_con nn None]> mf) (<[p := with_con n (Some c)]> mt).
Proof.
  intros [Hn Ho] Hd Hk Hp Hq Hnn Hc. assert (connection_of nf mf0 k = Some c) as Hco.
  { unfold connection_of. rewrite Hq. cbn [mbind option_bind]. by rewrite Hnn. }
  split.
  - intros k' p' n' Hk' Hp'. destruct (decide (k' = k)) as [->|Hne].
    + rewrite Hk in Hk'. injection Hk' as <-. rewrite Hp in Hp'. injection Hp' as <-. rewrite list_lookup_insert_eq by (apply lookup_lt_is_Some; rewrite (Hn k p n Hk Hp); done).
      by rewrite decide_True, Hco by set_solver.
    + rewrite list_lookup_insert_ne by (intros ->; apply Hne; by eapply (no_keys _ _ Ht)). rewrite (Hn k' p' n' Hk' Hp'). do 2 f_equal.
      destruct (decide (k' ∈ done)); [by rewrite decide_True by set_solver | by rewrite decide_False by set_solver].
  - intros k' q' n' Hk' Hq'. destruct (decide (k' = k)) as [->|Hne].
    + rewrite Hq in Hk'. injection Hk' as <-. rewrite Hnn in Hq'. injection Hq' as <-. rewrite list_lookup_insert_eq by (apply lookup_lt_is_Some; rewrite (Ho k q nn Hq Hnn); done).
      rewrite (decide_True (P := k ∈ done ++ [k])) by set_solver. by rewrite decide_True by (by rewrite Hk).
    + rewrite list_lookup_insert_ne by (intros ->; apply Hne; by eapply (no_keys _ _ Hf)). rewrite (Ho k' q' n' Hk' Hq'). f_equal.
      destruct (decide (k' ∈ done)); [by rewrite (decide_True (P := k' ∈ done ++ [k])) by set_solver | by rewrite (decide_False (P := k' ∈ done ++ [k])) by set_solver].
Qed.

Lemma swap_loop_spec (st : redisClusterContext C) f : forall it done mf mt, Dict.iter_ok nt it ->
  concat (Dict.table nt) = done ++ Dict.remaining nt it -> (length (Dict.remaining nt it) < f)%nat -> swapped done.*1 mf mt ->
  exists mf' mt', swap_loop f nf nt it mf mt st = Done ((mf', mt'), st) /\ swapped (concat (Dict.table nt)).*1 mf' mt'.
Proof.
  induction f as [|f IH]; intros it done mf mt Hi Hrem Hl Hsw; [lia|]. cbn [swap_loop].
  destruct (Dict.dictNext_spec nt it (no_wf _ _ Ht) (no_size _ _ Ht) Hi) as (r & it' & -> & Hr). unfold need at 1, bind at 1, pure at 1. cbn [obind]. destruct r as [[k p]|].
  2:{ rewrite Hr, app_nil_r in Hrem. exists mf, mt. split; [done|]. by rewrite Hrem. }
  destruct Hr as [Hr Hi']. rewrite Hr in Hrem, Hl. cbn [length] in Hl.
  assert (Dict.contents nt !! k = Some p) as Hk by (apply contents_entry; [apply Ht|]; rewrite Hrem; set_solver).
  destruct (Hnew k p Hk) as (n & Hp & Ha & _).
  assert (k ∉ done.*1) as Hnd.
  { pose proof (Dict.wf_keys _ (no_wf _ _ Ht)) as Hu. rewrite Hrem, fmap_app in Hu. apply NoDup_app in Hu as (_ & Hu & _). intros Hin. apply (Hu k Hin). by left. }
  rewrite (cons_middle (k, p)), app_assoc in Hrem.
  assert (forall mf mt, swapped (done.*1 ++ [k]) mf mt -> exists mf' mt', swap_loop f nf nt it' mf mt st = Done ((mf', mt'), st) /\ swapped (concat (Dict.table nt)).*1 mf' mt') as Hnext.
  { intros mf1 mt1 Hs. apply (IH it' (done ++ [(k, p)])); try done; [lia|]. by rewrite fmap_app. }
  rewrite (sw_new _ _ _ Hsw k p n Hk Hp). rewrite decide_False by done. unfold need at 1, bind at 1, pure at 1. cbn [obind]. cbn [addr with_con]. rewrite Ha.
  rewrite (Dict.dictFind_refines nf k (no_wf _ _ Hf)). unfold need at 1, bind at 1, pure at 1. cbn [obind].
  destruct (Dict.contents nf !! k) as [q|] eqn:Eq; cbn [fmap option_fmap option_map].
  2:{ apply Hnext, swapped_skip; [done | by rewrite Hk |]. unfold connection_of. by rewrite Eq. }
  destruct (no_nodes _ _ Hf k q Eq) as [nn Hnn]. rewrite (sw_old _ _ _ Hsw k q nn Eq Hnn), decide_False by done. unfold need at 1, bind at 1, pure at 1. cbn [obind].
  destruct (con nn) as [c|] eqn:Ec; apply Hnext.
  - by apply (swapped_take _ _ _ k p q n nn c).
  - apply swapped_skip; [done | by rewrite Hk |]. unfold connection_of. rewrite Eq. cbn [mbind option_bind]. by rewrite Hnn.
Qed.

Lemma swap_ctx_spec (st : redisClusterContext C) : exists mf mt, cluster_nodes_swap_ctx (Some nf) nt mf0 mt0 st = Done ((mf, mt), st) /\
  (forall k p n, Dict.contents nt !! k = Some p -> mt0 !! p = Some n -> mt !! p = Some (with_con n (connection_of nf mf0 k))) /\
  (forall k q n, Dict.contents nf !! k = Some q -> mf0 !! q = Some n ->
    mf !! q = Some (if decide (is_Some (Dict.contents nt !! k)) then with_con n None else n)).
Proof.
  unfold cluster_nodes_swap_ctx, Dict.dictGetIterator. rewrite Hmem. unfold need at 1, bind at 1, pure at 1. cbn [obind].
  destruct (swap_loop_spec st (entries nt) (Dict.mk_iter (-1) [] []) [] mf0 mt0) as (mf & mt & E & [Hn Ho]); [by right | done | apply Nat.lt_succ_diag_r | apply swapped_init |].
  exists mf, mt. split; [done|].
  assert (forall k p, Dict.contents nt !! k = Some p -> k ∈ (concat (Dict.table nt)).*1) as Hin.
  { intros k p Hk. apply contents_entry in Hk; [|apply Ht]. apply list_elem_of_fmap. by exists (k, p). }
  split.
  - intros k p n Hk Hp. rewrite (Hn k p n Hk Hp). by rewrite decide_True by (by eapply Hin).
  - intros k q n Hk Hq. rewrite (Ho k q n Hk Hq). f_equal. destruct (decide (is_Some (Dict.contents nt !! k))) as [[p Hp]|].
    + by rewrite decide_True by (by eapply Hin).
    + by destruct (decide (k ∈ _)).
Qed.

End Swap.

(** ** The old nodes are released *)

Lemma released_values (d : nodes_dict) : Dict.wf d -> Dict.used d < 2 ^ 64 ->
  omap (fun x => match x with Dict.FreeVal p => Some p | Dict.FreeKey _ => None end) (Dict.dictRelease d) = (concat (Dict.table d)).*2.
Proof.
  intros Hw Hu. unfold Dict.dictRelease. rewrite (Dict.dictClear_spec d Hw Hu). cbn [snd]. generalize (concat (Dict.table d)). clear.
  induction l as [|[k p] l IH]; [done|]. cbn [mbind list_bind]. rewrite omap_app, IH. done.
Qed.

Section Release.
Context {C : Connections} {L : ConnLaws C}.

Lemma free_context_spec (st : redisClusterContext C) c s : talks (cc_conns st) c s ->
  exists n2, freeContext c st = Done (tt, set_conns n2 (cc_heap st) st) /\ (forall c' s', c' <> c -> talks (cc_conns st) c' s' -> talks n2 c' s') /\
    (forall ds, dials (cc_conns st) ds -> dials n2 ds) /\ (forall c', live n2 c' <-> live (cc_conns st) c' /\ c' <> c).
Proof.
  intros Ht. destruct (talks_free _ _ _ (cc_heap st) Ht) as (n2 & E & Ho). exists n2. split; [|done]. unfold freeContext, bind, get. cbn [obind]. by rewrite E.
Qed.

Definition con_at (mem : nodes_mem) (q : nodeptr) : option handle := n ← mem !! q; con n.

(** A node without slaves whose connection, if it has one, is idle. *)
Definition releasable (n : conns) (mem : nodes_mem) (q : nodeptr) : Prop :=
  exists nd, mem !! q = Some nd /\ slaves nd = None /\ forall c, con nd = Some c -> exists s, talks n c s.

Lemma each_spec mem f qs : forall freed (st : redisClusterContext C), NoDup qs -> (forall q, q ∈ qs -> q ∉ freed) ->
  Forall (releasable (cc_conns st) mem) qs -> NoDup (omap (con_at mem) qs) ->
  exists fr n2, each (cluster_node_deinit (S f) mem) qs freed st = Done (fr, set_conns n2 (cc_heap st) st) /\
    (forall c s, (c ∉ omap (con_at mem) qs) -> talks (cc_conns st) c s -> talks n2 c s) /\ (forall ds, dials (cc_conns st) ds -> dials n2 ds) /\
    (forall c, live n2 c <-> live (cc_conns st) c /\ c ∉ omap (con_at mem) qs).
Proof.
  induction qs as [|q qs IH]; intros freed st Hnd Hfr Hrel Hcons.
  - exists freed, (cc_conns st). cbn [each]. rewrite set_conns_same. split_and!; try done. intros c. split; [|tauto]. intros Hc. split; [done | apply not_elem_of_nil].
  - apply NoDup_cons in Hnd as [Hq Hnd]. apply Forall_cons in Hrel as [(nd & Hm & Hs & Htalk) Hrel]. cbn [each].
    assert (exists n1, cluster_node_deinit (S f) mem q freed st = Done (q :: freed, set_conns n1 (cc_heap st) st) /\
      (forall c s, Some c <> con nd -> talks (cc_conns st) c s -> talks n1 c s) /\ (forall ds, dials (cc_conns st) ds -> dials n1 ds) /\
      (forall c, live n1 c <-> live (cc_conns st) c /\ Some c <> con nd)) as (n1 & E1 & Ho & Hd & Hl).
    { cbn [cluster_node_deinit]. rewrite bool_decide_false by (apply Hfr; by left). rewrite Hm. unfold need at 1, bind at 1, pure at 1. cbn [obind]. rewrite Hs.
      cbn [default from_option each]. destruct (con nd) as [c|] eqn:Ec.
      - destruct (Htalk c eq_refl) as [s Ht]. destruct (free_context_spec st c s Ht) as (n1 & E & Ho & Hd & Hl). exists n1. unfold bind. rewrite E.
        split; [done|]. split; [intros c' s' Hne; apply Ho; congruence|]. split; [done|]. intros c'. rewrite Hl. split; (intros [? ?]; split; [done | congruence]).
      - exists (cc_conns st). rewrite set_conns_same. split_and!; try done. intros c. split; [by split | tauto]. }
    cbn [omap list_omap] in Hcons |- *. unfold con_at in Hcons at 1. rewrite Hm in Hcons. cbn [mbind option_bind] in Hcons.
    assert (NoDup (omap (con_at mem) qs) /\ forall c, con nd = Some c -> c ∉ omap (con_at mem) qs) as [Hnd' Hout].
    { destruct (con nd) as [c|]; [|done]. apply NoDup_cons in Hcons as [? ?]. split; [done|]. by intros c' [= <-]. }
    destruct (IH (q :: freed) (set_conns n1 (cc_heap st) st) Hnd) as (fr & n2 & E2 & Ho2 & Hd2 & Hl2).
    { intros q' Hq' [->|?]%elem_of_cons; [done|]. apply (Hfr q'); [by right | done]. }
    { apply Forall_forall. intros q' Hq'. rewrite Forall_forall in Hrel. destruct (Hrel q' Hq') as (nd' & Hm' & Hs' & Ht'). exists nd'. split_and!; try done.
      intros c Hc. destruct (Ht' c Hc) as [s Ht]. exists s. apply Ho; [|done]. intros E. symmetry in E. apply (Hout c E). apply list_elem_of_omap.
      exists q'. split; [done|]. unfold con_at. by rewrite Hm'. }
    { done. }
    exists fr, n2. unfold bind. rewrite E1. cbn [obind]. split; [exact E2|]. cbn [cc_conns set_conns] in Ho2, Hd2, Hl2.
    assert (forall c, c ∉ (match con_at mem q with Some x => x :: omap (con_at mem) qs | None => omap (con_at mem) qs end) <-> Some c <> con nd /\ c ∉ omap (con_at mem) qs) as Hsplit.
    { intros c. unfold con_at at 1. rewrite Hm. cbn [mbind option_bind]. destruct (con nd) as [c0|]; [rewrite not_elem_of_cons|]; naive_solver. }
    split_and!; [|auto|].
    + intros c s [Hc1 Hc2]%Hsplit Ht. by apply Ho2, Ho.
    + intros c. rewrite Hl2, Hl, Hsplit. tauto.
Qed.

Lemma release_spec d mem (st : redisClusterContext C) : nodes_ok d mem -> Dict.used d < 2 ^ 64 ->
  (forall k q, Dict.contents d !! k = Some q -> releasable (cc_conns st) mem q) ->
  (forall k k' q q' c, Dict.contents d !! k = Some q -> Dict.contents d !! k' = Some q' -> con_at mem q = Some c -> con_at mem q' = Some c -> k = k') ->
  exists n2, release_nodes d mem st = Done (tt, set_conns n2 (cc_heap st) st) /\
    (forall c s, (forall k, connection_of d mem k <> Some c) -> talks (cc_conns st) c s -> talks n2 c s) /\ (forall ds, dials (cc_conns st) ds -> dials n2 ds) /\
    (forall c, live n2 c <-> live (cc_conns st) c /\ forall k, connection_of d mem k <> Some c).
Proof.
  intros Hok Hu Hrel Hdist. pose proof (no_wf _ _ Hok) as Hw. unfold release_nodes. rewrite (released_values d Hw Hu).
  assert (forall k q, Dict.contents d !! k = Some q <-> (k, q) ∈ concat (Dict.table d)) as Hiff by (intros k q; apply contents_entry, Hw).
  pose proof (Dict.wf_keys _ Hw) as Hkeys. revert Hiff Hkeys. generalize (concat (Dict.table d)). intros es Hiff. pose proof (fun k q => proj2 (Hiff k q)) as Hin. intros Hkeys.
  destruct (each_spec mem (length mem) es.*2 [] st) as (fr & n2 & E & Ho & Hd & Hl).
  - clear -Hin Hkeys Hok. induction es as [|[k q] es IH]; cbn [fmap list_fmap]; [constructor|]. apply NoDup_cons in Hkeys as [Hk Hkeys]. apply NoDup_cons. split.
    + intros Hq. apply list_elem_of_fmap in Hq as ([k' q'] & Eq & Hq'). cbn [snd] in Eq. subst q'. cbn [snd] in *. apply Hk. apply list_elem_of_fmap. exists (k', q). split; [|done].
      eapply (no_keys _ _ Hok); apply Hin; [by left | by right].
    + apply IH; [|done]. intros k' q' Hq'. apply Hin. by right.
  - intros q _. apply not_elem_of_nil.
  - apply Forall_forall. intros q Hq. apply list_elem_of_fmap in Hq as ([k q'] & Eq & Hq). cbn [snd] in Eq. subst q'. by apply (Hrel k), Hin.
  - clear -Hin Hkeys Hdist. induction es as [|[k q] es IH]; cbn [fmap list_fmap omap list_omap]; [constructor|]. apply NoDup_cons in Hkeys as [Hk Hkeys].
    specialize (IH ltac:(intros k' q' Hq'; apply Hin; by right) Hkeys). cbn [snd]. destruct (con_at mem q) as [c|] eqn:Ec; [|done]. apply NoDup_cons. split; [|done].
    intros Hc. apply list_elem_of_omap in Hc as (q' & Hq' & Ec'). apply list_elem_of_fmap in Hq' as ([k' q''] & Eq & Hq'). cbn [snd] in *. subst q''.
    apply Hk. apply list_elem_of_fmap. exists (k', q'). split; [|done]. eapply (Hdist k k' q q' c); try done; apply Hin; [by left | by right].
  - assert (forall c, c ∉ omap (con_at mem) es.*2 <-> forall k, connection_of d mem k <> Some c) as Hnone.
    { intros c. split.
      - intros Hc k Hk. unfold connection_of in Hk. destruct (Dict.contents d !! k) as [q|] eqn:Ek; [|done]. apply Hc, list_elem_of_omap. exists q. split; [|exact Hk].
        apply list_elem_of_fmap. exists (k, q). split; [done|]. by apply Hiff.
      - intros Hc Hcin. apply list_elem_of_omap in Hcin as (q & Hq & Ec). apply list_elem_of_fmap in Hq as ([k q'] & Eq & Hq). cbn [snd] in Eq. subst q'.
        apply (Hc k). unfold connection_of. rewrite (Hin _ _ Hq). exact Ec. }
    exists n2. unfold bind. rewrite E. cbn [obind]. split_and!; try done; [|intros c; by rewrite Hl, Hnone]. intros c s Hc. by apply Ho, Hnone.
Qed.

End Release.

(** ** The new route *)

Section Update.
Context `{Memory} (Hmem : has_memory) {C : Connections} {L : ConnLaws C}.
Context (qsort : list (option cluster_slot) -> list (option cluster_slot)) (Hqsort : qsort_ok qsort).

Abbreviation cluster := (redisClusterContext C).

(** The old nodes: each under one key, without slaves, with idle connections of their own. *)
Record old_nodes (st : cluster) (d : nodes_dict) : Prop := {
  on_nodes : cc_nodes st = Some d;
  on_ok : nodes_ok d (cc_mem st);
  on_used : Dict.used d < 2 ^ 64;
  on_idle : forall k q, Dict.contents d !! k = Some q -> releasable (cc_conns st) (cc_mem st) q;
  on_own : forall k k' c, connection_of d (cc_mem st) k = Some c -> connection_of d (cc_mem st) k' = Some c -> k = k';
}.

(** More connections, or other scripts, do not matter. *)
Lemma old_nodes_conns st d n h : (forall c s, talks (cc_conns st) c s -> exists s', talks n c s') -> old_nodes st d -> old_nodes (set_conns n h st) d.
Proof.
  intros Ht [Hn Ho Hu Hi Hown]. split; try done. intros k q Hk. destruct (Hi k q Hk) as (nd & Hm & Hs & Hc). exists nd. split_and!; try done.
  intros c Ec. destruct (Hc c Ec) as [s Hs']. by apply (Ht c s).
Qed.

Lemma connection_at d mem k q : Dict.contents d !! k = Some q -> connection_of d mem k = con_at mem q.
Proof. intros Hk. unfold connection_of. by rewrite Hk. Qed.

Lemma install_spec st d a t nt mt0 : old_nodes st d -> nodes_ok nt mt0 ->
  (forall k p, Dict.contents nt !! k = Some p -> exists n, mt0 !! p = Some n /\ addr n = k /\ con n = None) ->
  exists mt n2, install_route a t nt mt0 st = Done (tt, set_route a nt mt t (set_conns n2 (cc_heap st) st)) /\
    (forall k p n, Dict.contents nt !! k = Some p -> mt0 !! p = Some n -> mt !! p = Some (with_con n (connection_of d (cc_mem st) k))) /\
    (forall c s, (forall k, Dict.contents nt !! k = None -> connection_of d (cc_mem st) k <> Some c) -> talks (cc_conns st) c s -> talks n2 c s) /\
    (forall ds, dials (cc_conns st) ds -> dials n2 ds) /\
    (forall c, live n2 c <-> live (cc_conns st) c /\ forall k, Dict.contents nt !! k = None -> connection_of d (cc_mem st) k <> Some c).
Proof.
  intros [Hn Hok Hu Hi Hown] Ht Hnew. destruct (swap_ctx_spec Hmem d nt (cc_mem st) mt0 Hok Ht Hnew st) as (mf & mt & Es & Hmt & Hmf).
  assert (forall k q c, Dict.contents d !! k = Some q -> con_at mf q = Some c <-> connection_of d (cc_mem st) k = Some c /\ Dict.contents nt !! k = None) as Hleft.
  { intros k q c Hk. destruct (no_nodes _ _ Hok k q Hk) as [nd Hnd]. unfold con_at. rewrite (Hmf k q nd Hk Hnd). cbn [mbind option_bind].
    rewrite (connection_at _ _ k q Hk). unfold con_at. rewrite Hnd. cbn [mbind option_bind]. destruct (decide (is_Some (Dict.contents nt !! k))) as [[p Hp]|Hno].
    - rewrite Hp. by split; [|intros []].
    - rewrite eq_None_not_Some. tauto. }
  assert (forall k c, connection_of d mf k = Some c <-> connection_of d (cc_mem st) k = Some c /\ Dict.contents nt !! k = None) as Hgone.
  { intros k c. destruct (Dict.contents d !! k) as [q|] eqn:Eq; [rewrite (connection_at _ mf k q Eq); by apply Hleft|]. unfold connection_of. rewrite Eq. by split; [|intros []]. }
  destruct (release_spec d mf st) as (n2 & Er & Ho & Hd & Hl).
  - destruct Hok as [Hw Hs Hnod Hk]. split; try done. intros k q Hq. destruct (Hnod k q Hq) as [nd Hnd]. by rewrite (Hmf k q nd Hq Hnd).
  - done.
  - intros k q Hk. destruct (Hi k q Hk) as (nd & Hm & Hs & Hc). unfold releasable. rewrite (Hmf k q nd Hk Hm).
    destruct (decide (is_Some _)); [by exists (with_con nd None) | by exists nd].
  - intros k k' q q' c Hk Hk' Hc Hc'. apply (Hleft k q c Hk) in Hc as [? _]. apply (Hleft k' q' c Hk') in Hc' as [? _]. by eapply Hown.
  - exists mt, n2. split_and!; try done.
    + unfold install_route, bind at 1, get at 1. cbn [obind]. rewrite Hn. unfold bind at 1. rewrite Es. cbn [obind]. unfold bind at 1. rewrite Er. done.
    + intros c s Hc. apply Ho. intros k [H1 H2]%Hgone. by apply (Hc k).
    + intros c. rewrite Hl. split; (intros [Hlv Hc]; split; [done|]).
      * intros k Hk Hck. by apply (Hc k), Hgone.
      * intros k [H1 H2]%Hgone. by apply (Hc k).
Qed.

(** What is known of the route after the update: the nodes of the slots, with the connections
    they had before. *)
Definition new_route (d : nodes_dict) (mem : nodes_mem) (rs : list region) (t : slot_table) (mt : nodes_mem) : Prop :=
  forall k r, 0 <= k < REDIS_CLUSTER_SLOTS -> r ∈ rs -> rstart r <= k <= rend r ->
    exists p n, node_get_by_table t k = Some (Some p) /\ mt !! p = Some n /\ host n = Some (rmaster r).1 /\ port n = (rmaster r).2 /\
      con n = connection_of d mem (address (rmaster r)).

Context (rs : list region) (Hne : rs <> []) (Hfew : zlen rs < 2 ^ 28) (Hgood : Forall good_region rs) (Hin : in_table rs) (Hover : no_overlap rs).

(** The reply becomes a route. *)
Lemma route_of_slots flags h l m : tree (slots_reply rs) l m -> m ##ₘ h ->
  exists a t nt mt0, route_of_reply qsort true flags (m ∪ h) l = ret (a, t, nt, mt0) /\ nodes_ok nt mt0 /\
    (forall k p, Dict.contents nt !! k = Some p -> exists n, mt0 !! p = Some n /\ addr n = k /\ con n = None) /\
    routed rs t mt0 /\ routed_in nt rs t /\ (forall k, is_Some (Dict.contents nt !! k) <-> k ∈ announced rs).
Proof.
  intros Htr Hd. unfold route_of_reply. rewrite (value_of_tree 3 _ _ _ _ Htr (slots_counted rs) Hd). cbn [lift rbind ret].
  destruct (parse_known rs flags Hmem Hne Hfew Hgood) as (st & E & Hk & Honly). pose proof (slots_fresh (slots_reply rs) flags) as Hf. rewrite E in Hf |- *. cbn [res_of ret rbind snd] in Hf |- *.
  pose proof (known_routes_in qsort (zlen rs) rs st Hmem Hqsort Hk Hne Hfew ltac:(lia) Hgood) as Hr. rewrite decide_True, decide_True in Hr by done.
  destruct Hr as (a & t & Eb & Hr & Hri). rewrite Eb. cbn [rbind ret]. exists a, t, (pnodes st), (pmem st). split; [done|].
  assert (forall k p, Dict.contents (pnodes st) !! k = Some p -> exists n, pmem st !! p = Some n /\ addr n = k /\ con n = None) as Hn.
  { intros k p Hkp. destruct (k_nodes _ _ _ Hk k p Hkp) as (n & Hn & Ha & _). exists n. split_and!; try done. by eapply (unconnected_at _ p n). }
  split_and!; try done.
  2:{ intros k. split; [apply Honly|]. intros (r & -> & Hr0)%list_elem_of_fmap. by apply Hk. }
  split; [apply Hk | pose proof (k_size _ _ _ Hk); lia | |].
  - intros k q Hq. destruct (Hn k q Hq) as (n & -> & _). done.
  - intros k k' q Hq Hq'. destruct (Hn k q Hq) as (n & Hnq & <- & _). destruct (Hn k' q Hq') as (n' & Hnq' & <- & _). congruence.
Qed.

Lemma command_spec (st : cluster) c fmt v s : talks (cc_conns st) c ((Format.encode (plain_words fmt), v) :: s) -> plain fmt ->
  exists l m n2, command c fmt st = Done (Some l, set_conns n2 (m ∪ cc_heap st) st) /\ tree v l m /\ m ##ₘ cc_heap st /\ talks n2 c s /\
    others_kept (cc_conns st) n2 c.
Proof.
  intros Ht Hp. destruct (talks_command _ _ _ _ _ (cc_heap st) Ht Hp) as (l & m & n2 & E & Htr & Hd & Ht2 & Ho). exists l, m, n2. split_and!; try done; try apply Ho.
  unfold command, bind, get. cbn [obind]. by rewrite E.
Qed.

Lemma connect_spec (st : cluster) host port s ds : dials (cc_conns st) ((host, port, s) :: ds) ->
  exists c n2, connect host port st = Done (Some c, set_conns n2 (cc_heap st) st) /\ talks n2 c s /\ dials n2 ds /\
    (forall c' s', talks (cc_conns st) c' s' -> c' <> c /\ talks n2 c' s') /\ ~ live (cc_conns st) c /\ (forall c', live n2 c' <-> c' = c \/ live (cc_conns st) c').
Proof.
  intros Hd. destruct (talks_connect _ _ _ _ _ Hd) as (c & n2 & E & Ht & Hd2 & Ho & Hl). exists c, n2. split_and!; try done; try apply Hl.
  unfold connect, bind, get. cbn [obind]. by rewrite E.
Qed.

Definition ask_slots : bytes := Format.encode (plain_words (bstr "CLUSTER SLOTS")).

Lemma plain_slots : plain (bstr "CLUSTER SLOTS").
Proof. split; [by repeat (apply Forall_cons; split) | done]. Qed.

(** What an update with this description leaves: the announced nodes have the connections
    they had, the connections of the other nodes are closed, and no other is opened. *)
Definition updated (d : nodes_dict) (ds : list (bytes * Z * script)) (st st' : cluster) : Prop :=
  exists a t nt mt n, st' = set_route a nt mt t (set_conns n (cc_heap st) st) /\ (routed rs t mt /\ new_route d (cc_mem st) rs t mt) /\ dials n ds /\
    (forall k c s, k ∈ announced rs -> connection_of d (cc_mem st) k = Some c -> talks (cc_conns st) c s -> talks n c s) /\
    nodes_ok nt mt /\ routed_in nt rs t /\
    (forall k, connection_of nt mt k = if decide (k ∈ announced rs) then connection_of d (cc_mem st) k else None) /\
    (forall c, live n c <-> live (cc_conns st) c /\ forall k, connection_of d (cc_mem st) k = Some c -> k ∈ announced rs).

Lemma nodes_kept (d nt : nodes_dict) mem mt0 mt : nodes_ok nt mt0 -> (forall k, is_Some (Dict.contents nt !! k) <-> k ∈ announced rs) ->
  (forall k p n, Dict.contents nt !! k = Some p -> mt0 !! p = Some n -> mt !! p = Some (with_con n (connection_of d mem k))) ->
  nodes_ok nt mt /\ forall k, connection_of nt mt k = if decide (k ∈ announced rs) then connection_of d mem k else None.
Proof.
  intros [Hw Hs Hn Hk] Hall Hmt. split.
  - split; try done. intros k p Hp. destruct (Hn k p Hp) as [n Hnp]. by rewrite (Hmt k p n Hp Hnp).
  - intros k. unfold connection_of at 1. destruct (Dict.contents nt !! k) as [p|] eqn:Ep; cbn [mbind option_bind].
    + rewrite decide_True by (apply Hall; by rewrite Ep). destruct (Hn k p Ep) as [n Hnp]. by rewrite (Hmt k p n Ep Hnp).
    + rewrite decide_False; [done|]. intros [p Hp]%Hall. by rewrite Ep in Hp.
Qed.

Lemma route_reply_ok st c l m h : tree (slots_reply rs) l m -> route_reply true c (Some l) (set_conns (cc_conns st) (m ∪ h) st) = Done (true, set_conns (cc_conns st) (m ∪ h) st).
Proof.
  intros Ht. unfold route_reply, bind at 1, get at 1. cbn [obind cc_heap set_conns]. unfold slots_reply in Ht.
  assert (exists r, load_reply (m ∪ h) l = Some r /\ rtype r = Read.REDIS_REPLY_ARRAY) as (r & -> & Hr).
  { unfold load_reply. inversion Ht; subst.
    - rewrite lookup_union, lookup_singleton_eq, union_Some_l. by eexists.
    - rewrite lookup_union, lookup_insert_eq, union_Some_l. by eexists. }
  unfold need, bind at 1, pure at 1. cbn [obind]. by rewrite Hr.
Qed.

Lemma routed_kept d mem nt t mt0 mt : routed rs t mt0 -> routed_in nt rs t ->
  (forall k p n, Dict.contents nt !! k = Some p -> mt0 !! p = Some n -> mt !! p = Some (with_con n (connection_of d mem k))) ->
  routed rs t mt /\ new_route d mem rs t mt.
Proof.
  intros Hr Hri Hmt. assert (forall k r, 0 <= k < REDIS_CLUSTER_SLOTS -> r ∈ rs -> rstart r <= k <= rend r -> exists p n,
    node_get_by_table t k = Some (Some p) /\ mt !! p = Some (with_con n (connection_of d mem (address (rmaster r)))) /\ addr n = address (rmaster r) /\
    host n = Some (rmaster r).1 /\ port n = (rmaster r).2 /\ role n = REDIS_ROLE_MASTER) as Hall.
  { intros k r Hk Hr0 Hc. destruct (Hri k r Hk Hr0 Hc) as (p & Hp & Hcp). destruct (proj1 (Hr k Hk) r Hr0 Hc) as (p' & Hp' & n & Hn & Ha & Hh & Hpo & Hro).
    rewrite Hp in Hp'. injection Hp' as <-. exists p, n. split_and!; try done. by apply Hmt. }
  split.
  - intros k Hk. split; [|by apply Hr]. intros r Hr0 Hc. destruct (Hall k r Hk Hr0 Hc) as (p & n & Hp & Hm & Hrest). exists p. split; [done|]. by eexists.
  - intros k r Hk Hr0 Hc. destruct (Hall k r Hk Hr0 Hc) as (p & n & Hp & Hm & _ & Hh & Hpo & _). by exists p, (with_con n (connection_of d mem (address (rmaster r)))).
Qed.

Lemma by_addr_spec st d ip port s ds : old_nodes st d -> flag (cc_flags st) HIRCLUSTER_FLAG_ROUTE_USE_SLOTS = true -> 0 < port ->
  dials (cc_conns st) ((ip, port, (ask_slots, slots_reply rs) :: s) :: ds) ->
  exists st', cluster_update_route_by_addr qsort (Some ip) port st = Done (Read.REDIS_OK, st') /\ updated d ds st st'.
Proof.
  intros Hold Hfl Hp Hd. unfold cluster_update_route_by_addr. rewrite (proj2 (Z.leb_gt _ _)) by lia.
  destruct (connect_spec st ip port _ _ Hd) as (c & n1 & E1 & Ht1 & Hd1 & Ho1 & Hnl & Hl1). unfold bind at 1. rewrite E1. cbn [obind].
  destruct (context_error_ok (set_conns n1 (cc_heap st) st) c _ Ht1) as [msg Ee]. unfold bind at 1. rewrite Ee. cbn [obind fst Z.eqb negb].
  unfold bind at 1, get at 1. cbn [obind]. change (cc_flags (set_conns n1 (cc_heap st) st)) with (cc_flags st). rewrite Hfl.
  destruct (command_spec (set_conns n1 (cc_heap st) st) c (bstr "CLUSTER SLOTS") _ _ Ht1 plain_slots) as (l & m & n2 & E2 & Htr & Hdm & Ht2 & Ho2 & Hdd2 & Hl2).
  cbn [cc_heap set_conns cc_conns] in E2, Hdm, Ho2, Hdd2, Hl2. unfold bind at 1. change (route_command true) with (bstr "CLUSTER SLOTS"). rewrite E2. cbn [obind].
  set (st2 := set_conns n2 (m ∪ cc_heap st) st). change (set_conns n2 (m ∪ cc_heap st) (set_conns n1 (cc_heap st) st)) with st2.
  unfold bind at 1. pose proof (route_reply_ok st2 c l m (cc_heap st) Htr) as Err. change (set_conns (cc_conns st2) (m ∪ cc_heap st) st2) with st2 in Err. rewrite Err. cbn [obind].
  destruct (route_of_slots (cc_flags st) (cc_heap st) l m Htr Hdm) as (a & t & nt & mt0 & Er & Hnt & Hnew & Hr & Hri & Hall).
  assert (old_nodes st2 d) as Hold2.
  { apply old_nodes_conns; [|done]. intros c' s' Ht'. destruct (Ho1 c' s' Ht') as [Hne' Ht1']. exists s'. by apply Ho2. }
  destruct (install_spec st2 d a t nt mt0 Hold2 Hnt Hnew) as (mt & n3 & Ei & Hmt & Ho3 & Hd3 & Hl3). cbn [cc_heap st2 set_conns cc_mem cc_conns] in Ei, Hmt, Ho3, Hd3, Hl3.
  assert (forall k, connection_of d (cc_mem st) k <> Some c) as Hfresh.
  { intros k Hk. unfold connection_of in Hk. destruct (Dict.contents d !! k) as [q|] eqn:Eq; [|done]. destruct (on_idle _ _ Hold k q Eq) as (nd & Hm & _ & Hc).
    cbn [mbind option_bind] in Hk. rewrite Hm in Hk. destruct (Hc c Hk) as [s' Hs']. by destruct (Ho1 c s' Hs'). }
  assert (talks n3 c s) as Ht3 by (apply Ho3; [intros k _; apply Hfresh | done]).
  unfold bind at 1. unfold bind at 1, get at 1. cbn [obind]. change (cc_flags st2) with (cc_flags st). change (cc_heap st2) with (m ∪ cc_heap st). rewrite Er.
  unfold ret. unfold bind at 1. rewrite Ei. unfold pure at 1. cbn [obind].
  unfold bind at 1. unfold freeReply, bind at 1, get at 1. cbn [obind cc_heap set_route set_conns]. rewrite (freeReplyObject_tree _ _ _ _ Htr Hdm).
  unfold need, bind at 1, pure at 1, modify. cbn [obind cc_conns set_route set_conns].
  set (st3 := set_conns n3 (cc_heap st) (set_route a nt mt t (set_conns n3 (m ∪ cc_heap st) st2))).
  destruct (free_context_spec st3 c s Ht3) as (n4 & E4 & Ho4 & Hd4 & Hl4). unfold bind at 1. rewrite E4. cbn [obind].
  eexists. split; [done|]. destruct (nodes_kept d nt (cc_mem st) mt0 mt Hnt Hall Hmt) as [Hok Hcon]. exists a, t, nt, mt, n4. split_and!; try done.
  - by eapply routed_kept.
  - by eapply routed_kept.
  - by apply Hd4, Hd3, Hdd2.
  - intros k c' s' Hk0 Hc' Ht'. destruct (Ho1 c' s' Ht') as [Hne' Ht1']. apply Ho4; [done|]. apply Ho3; [|by apply Ho2].
    intros k' Hk' Hck. apply Hall in Hk0 as [p Hp0]. assert (k' = k) as -> by (by eapply (on_own _ _ Hold)). by rewrite Hk' in Hp0.
  - assert (forall k, Dict.contents nt !! k = None <-> k ∉ announced rs) as Hout by (intros k; by rewrite <- Hall, eq_None_not_Some).
    intros c'. rewrite Hl4. change (cc_conns st3) with n3. rewrite Hl3, Hl2, Hl1. split.
    + intros [[[->|Hlive] Hc] Hne']; [done|]. split; [done|]. intros k Hk. destruct (decide (k ∈ announced rs)); [done|]. by destruct (Hc k (proj2 (Hout k) n)).
    + intros [Hlive Hc]. split; [split; [by right|] | by intros ->]. intros k Hk Hck. by apply (proj1 (Hout k) Hk), Hc.
Qed.

(** The first node that is asked. *)
Definition first_node (st : cluster) (d : nodes_dict) (ip : bytes) (port_ : Z) : Prop :=
  exists k q es n, concat (Dict.table d) = (k, q) :: es /\ cc_mem st !! q = Some n /\ host n = Some ip /\ port n = port_ /\ 0 < port_.

Lemma update_route_spec st d ip port s ds : old_nodes st d -> flag (cc_flags st) HIRCLUSTER_FLAG_ROUTE_USE_SLOTS = true -> cc_ip st = None ->
  first_node st d ip port -> dials (cc_conns st) ((ip, port, (ask_slots, slots_reply rs) :: s) :: ds) ->
  exists st', cluster_update_route qsort st = Done (Read.REDIS_OK, if negb (cc_err st' =? 0) then set_err (0, []) st' else st') /\ updated d ds st st'.
Proof.
  intros Hold Hfl Hip (k & q & es & n & Hhd & Hq & Hh & Hpo & Hp) Hd. destruct (by_addr_spec st d ip port s ds Hold Hfl Hp Hd) as (st' & E & Hup).
  exists st'. split; [|done]. unfold cluster_update_route, bind at 1, get at 1. cbn [obind]. rewrite Hip. rewrite bool_decide_true by done. cbn [negb andb].
  unfold bind at 1, pure at 1. cbn [obind]. change (Read.REDIS_ERR =? Read.REDIS_OK) with false. cbn [andb]. unfold bind at 1, get at 1. cbn [obind].
  rewrite (on_nodes _ _ Hold). unfold Dict.dictGetIterator. rewrite Hmem. unfold need, bind at 1, pure at 1. cbn [obind]. cbn [route_loop].
  destruct (Dict.dictNext_spec d (Dict.mk_iter (-1) [] []) (no_wf _ _ (on_ok _ _ Hold)) (no_size _ _ (on_ok _ _ Hold)) ltac:(by right)) as (r & it' & En & Hr).
  rewrite En. unfold need, bind at 1, pure at 1. cbn [obind]. change (Dict.remaining d (Dict.mk_iter (-1) [] [])) with (concat (Dict.table d)) in Hr.
  destruct r as [[k' q']|]; [|by rewrite Hr in Hhd]. destruct Hr as [Hr _]. rewrite Hr in Hhd. injection Hhd as -> -> _.
  unfold bind at 1, get at 1. cbn [obind]. rewrite Hq. unfold bind at 1, pure at 1. cbn [obind]. rewrite Hh, Hpo, bool_decide_false by done.
  rewrite (proj2 (Z.ltb_ge _ _)) by lia. cbn [orb]. unfold bind at 1. rewrite E. cbn [obind]. done.
Qed.

End Update.

(** ** Following the redirection *)

Section Follow.
Context `{Memory} {C : Connections} {L : ConnLaws C} (qsort : list (option cluster_slot) -> list (option cluster_slot)).

Abbreviation cluster := (redisClusterContext C).

Lemma execute_answered f slot cmd c (st st1 : cluster) text v s : connection_for slot st = Done (Some c, st1) ->
  talks (cc_conns st1) c ((text, v) :: s) -> take (length text) cmd = text -> settled v ->
  exists l m n2, execute_loop qsort (S f) slot cmd (zlen text) None st = Done (Some l, set_conns n2 (m ∪ cc_heap st1) st1) /\ tree v l m /\ m ##ₘ cc_heap st1 /\
    talks n2 c s /\ others_kept (cc_conns st1) n2 c.
Proof.
  intros Hc Ht Hcmd Hv. destruct (exchange_spec st1 c text v s cmd Ht Hcmd) as (l & m & n2 & Ee & Htr & Hd & Ht2 & Ho).
  exists l, m, n2. split_and!; try done. cbn [execute_loop]. unfold bind at 1. rewrite Hc. cbn [obind]. unfold bind at 1. rewrite Ee. cbn [obind].
  unfold bind at 1, get at 1. cbn [obind cc_heap set_conns]. rewrite (tree_kind v l m _ Htr). unfold need at 1, bind at 1, pure at 1. cbn [obind].
  rewrite (proj2 (andb_false_iff _ _)) by (destruct Hv as [-> | ->]; [by left | by right]). done.
Qed.

Definition route_failed : M (option loc) :=
  let% _ := fail_with Read.REDIS_ERR_OTHER (bstr "route update error, please recreate redisClusterContext!") in pure None.

Lemma execute_moved f slot cmd c (st : cluster) text v s : served st slot c -> talks (cc_conns st) c ((text, v) :: s) -> take (length text) cmd = text ->
  kind_of v = CLUSTER_ERR_MOVED -> 0 <= cc_retry st < cc_max st -> cc_max st < INT_MAX ->
  exists n2, talks n2 c s /\ others_kept (cc_conns st) n2 c /\
    execute_loop qsort (S f) slot cmd (zlen text) None st =
      bind (cluster_update_route qsort) (fun ret => if negb (ret =? Read.REDIS_OK) then route_failed else execute_loop qsort f slot cmd (zlen text) None)
        (after st 1 n2 (cc_heap st)).
Proof.
  intros Hs Ht Hcmd Hk Hr Hm. destruct (exchange_spec st c text v s cmd Ht Hcmd) as (l & m & n2 & Ee & Htr & Hd & Ht2 & Ho).
  exists n2. split_and!; try done; try apply Ho. cbn [execute_loop]. unfold bind at 1. rewrite (connection_spec st slot c _ Hs Ht). cbn [obind]. unfold bind at 1. rewrite Ee. cbn [obind].
  unfold bind at 1, get at 1. cbn [obind cc_heap set_conns]. rewrite (tree_kind v l m _ Htr). unfold need at 1, bind at 1, pure at 1. cbn [obind]. rewrite Hk.
  change ((CLUSTER_NOT_ERR <? CLUSTER_ERR_MOVED) && (CLUSTER_ERR_MOVED <? CLUSTER_ERR_SENTINEL)) with true. change (CLUSTER_ERR_MOVED =? CLUSTER_ERR_MOVED) with true. cbn [andb].
  unfold bind at 1, too_many, bind at 1, get at 1. cbn [obind]. unfold bind at 1, modify at 1. cbn [obind cc_max cc_retry set_conns].
  rewrite i32_small by (unfold INT_MIN, INT_MAX in *; lia). rewrite (proj2 (Z.ltb_ge _ _)) by lia. unfold pure at 1. cbn [obind].
  unfold bind at 1. unfold freeReply, bind at 1, get at 1. cbn [obind cc_heap set_retry set_conns cc_conns]. rewrite (freeReplyObject_tree _ _ _ _ Htr Hd). done.
Qed.

(** A node that has no connection yet is connected. *)
Lemma connection_new (st : cluster) slot p n h port_ s ds : node_get_by_table (cc_table st) (u32 slot) = Some (Some p) -> cc_mem st !! p = Some n ->
  con n = None -> host n = Some h -> port n = port_ -> 0 < port_ -> dials (cc_conns st) ((h, port_, s) :: ds) ->
  exists c n2, connection_for slot st = Done (Some c, set_mem (<[p := with_con n (Some c)]> (cc_mem st)) (set_conns n2 (cc_heap st) st)) /\ talks n2 c s /\
    (forall c' s', talks (cc_conns st) c' s' -> c' <> c /\ talks n2 c' s') /\ ~ live (cc_conns st) c /\ (forall c', live n2 c' <-> c' = c \/ live (cc_conns st) c').
Proof.
  intros Ht Hp Hc Hh Hpo Hpos Hd. destruct (connect_spec st h port_ s ds Hd) as (c & n2 & E & Htalk & _ & Hnew). exists c, n2. split; [|done].
  unfold connection_for, bind at 1, get at 1. cbn [obind]. rewrite Ht. unfold need at 1, bind at 1, pure at 1. cbn [obind].
  assert (ctx_get_by_node p st = Done (Some c, set_mem (<[p := with_con n (Some c)]> (cc_mem st)) (set_conns n2 (cc_heap st) st))) as Ec.
  { unfold ctx_get_by_node, bind at 1, get at 1. cbn [obind]. rewrite Hp. unfold need at 1, bind at 1, pure at 1. cbn [obind]. rewrite Hc, Hh, Hpo.
    rewrite (proj2 (Z.leb_gt _ _)) by lia. unfold bind at 1. rewrite E. cbn [obind]. unfold set_con, bind at 1, bind at 1, get at 1. cbn [obind].
    cbn [cc_mem set_conns]. rewrite Hp. by cbn. }
  unfold bind at 1. rewrite Ec. cbn [obind]. unfold bind at 1.
  destruct (context_error_ok (set_mem (<[p := with_con n (Some c)]> (cc_mem st)) (set_conns n2 (cc_heap st) st)) c s Htalk) as [msg ->]. by cbn.
Qed.

Lemma routed_set_con rs t mem p n c : routed rs t mem -> mem !! p = Some n -> routed rs t (<[p := with_con n c]> mem).
Proof.
  intros Hr Hp k Hk. split; [|by apply Hr]. intros r Hr0 Hc. destruct (proj1 (Hr k Hk) r Hr0 Hc) as (q & Hq & nd & Hn & Hrest). exists q. split; [done|].
  destruct (decide (q = p)) as [->|Hne].
  - rewrite Hp in Hn. injection Hn as <-. exists (with_con n c). split; [|done]. by rewrite list_lookup_insert_eq by (by eapply lookup_lt_Some).
  - exists nd. split; [|done]. by rewrite list_lookup_insert_ne.
Qed.

(** The connection of an address when the node of [k] was given one. *)
Lemma connection_set (d : nodes_dict) mem k p n c : nodes_ok d mem -> Dict.contents d !! k = Some p -> mem !! p = Some n ->
  forall a, connection_of d (<[p := with_con n (Some c)]> mem) a = if decide (a = k) then Some c else connection_of d mem a.
Proof.
  intros Hok Hk Hp a. destruct (decide (a = k)) as [->|Hne]; unfold connection_of.
  - rewrite Hk. cbn [mbind option_bind]. by rewrite list_lookup_insert_eq by (by eapply lookup_lt_Some).
  - destruct (Dict.contents d !! a) as [q|] eqn:Eq; [|done]. cbn [mbind option_bind]. rewrite list_lookup_insert_ne; [done|]. intros ->. apply Hne. by eapply (no_keys _ _ Hok).
Qed.

Lemma talks_live n c s : talks n c s -> live n c.
Proof. intros Ht%talks_error. unfold live. by destruct (con_error n c). Qed.

Section Targets.
Context (slot_num : Z) (cmd text : bytes) (c : handle) (v : value) (s2 : script) (st : cluster) (d : nodes_dict) (rs : list region) (r : region).

(** A connection that was open and stays open: it is not that of a node which is not announced. *)
Definition kept (c' : handle) : Prop := live (cc_conns st) c' /\ forall a, connection_of d (cc_mem st) a = Some c' -> a ∈ announced rs.

(** What is open once a redirection to the master of [r] was followed, [c2] being its
    connection: the announced nodes have the connections they had, the kept connections and
    [c2] are open and no others, and a kept connection that was not used goes on as before. *)
Definition reconnected (c2 : handle) (st' : cluster) : Prop :=
  (exists d', cc_nodes st' = Some d' /\ forall a, connection_of d' (cc_mem st') a =
    if decide (a = address (rmaster r)) then Some c2 else if decide (a ∈ announced rs) then connection_of d (cc_mem st) a else None) /\
  (forall c', live (cc_conns st') c' <-> c' = c2 \/ kept c') /\
  (forall a c' s', a ∈ announced rs -> connection_of d (cc_mem st) a = Some c' -> c' <> c -> c' <> c2 -> talks (cc_conns st) c' s' -> talks (cc_conns st') c' s').

(** The state after the update, before the command is sent again. *)
Record anew (st3 : cluster) (nt : nodes_dict) (ds : list (bytes * Z * script)) : Prop := {
  an_nodes : cc_nodes st3 = Some nt;
  an_ok : nodes_ok nt (cc_mem st3);
  an_in : routed_in nt rs (cc_table st3);
  an_routed : routed rs (cc_table st3) (cc_mem st3);
  an_route : new_route d (cc_mem st) rs (cc_table st3) (cc_mem st3);
  an_conns : forall k, connection_of nt (cc_mem st3) k = if decide (k ∈ announced rs) then connection_of d (cc_mem st) k else None;
  an_live : forall c', live (cc_conns st3) c' <-> kept c';
  an_talks : forall a c' s', a ∈ announced rs -> connection_of d (cc_mem st) a = Some c' -> c' <> c -> talks (cc_conns st) c' s' -> talks (cc_conns st3) c' s';
  an_dials : dials (cc_conns st3) ds;
  an_heap : cc_heap st3 = cc_heap st;
  an_retry : cc_retry st3 = cc_retry st + 1;
}.

(** The answer of the new master, in the state [st']. *)
Definition answered (l : loc) (m : heap) (c2 : handle) (st' : cluster) : Prop :=
  tree v l m /\ m ##ₘ cc_heap st /\ cc_heap st' = m ∪ cc_heap st /\ routed rs (cc_table st') (cc_mem st') /\ cc_retry st' = cc_retry st + 1 /\
  served st' slot_num c2 /\ talks (cc_conns st') c2 s2 /\ reconnected c2 st'.

Context (Hcmd : take (length text) cmd = text) (Hv : settled v) (Hold : old_nodes st d) (Hgood : Forall good_region rs).
Context (Hslot : 0 <= slot_num < REDIS_CLUSTER_SLOTS) (Hr : r ∈ rs) (Hcovers : rstart r <= slot_num <= rend r).

Lemma target_announced : address (rmaster r) ∈ announced rs.
Proof. apply list_elem_of_fmap. by exists r. Qed.

Lemma slot_u32 : u32 slot_num = slot_num.
Proof. apply uwrap_small. unfold REDIS_CLUSTER_SLOTS in Hslot. lia. Qed.

(** The new master has a connection already. *)
Lemma follow_known f st3 nt ds c2 : anew st3 nt ds -> connection_of d (cc_mem st) (address (rmaster r)) = Some c2 -> c2 <> c ->
  talks (cc_conns st) c2 ((text, v) :: s2) -> exists l m st', execute_loop qsort (S f) slot_num cmd (zlen text) None st3 = Done (Some l, st') /\ answered l m c2 st'.
Proof.
  intros Ha Eco Hne Ht. destruct (an_route _ _ _ Ha slot_num r Hslot Hr Hcovers) as (p & nd & Hp & Hnd & _ & _ & Hc). rewrite Eco in Hc.
  assert (talks (cc_conns st3) c2 ((text, v) :: s2)) as Ht3 by (by apply (an_talks _ _ _ Ha _ _ _ target_announced Eco)).
  assert (served st3 slot_num c2) as Hs3 by (exists p, nd; by rewrite slot_u32).
  destruct (execute_answered f slot_num cmd c2 st3 st3 text v s2) as (l & m & n2 & E & Htr & Hdj & Ht2 & Ho2 & _ & Hl2); try done; [by eapply connection_spec|].
  destruct Ha as [Ent Hok Hri Hro Hnr Hcon Hlive Htalks _ Eh Erc]. rewrite Eh in *.
  eexists l, m, _. split; [exact E|]. unfold answered, reconnected. split_and!; try done; cbn [cc_nodes cc_mem cc_conns set_conns].
  - exists nt. split; [done|]. intros a. rewrite Hcon. destruct (decide (a = _)) as [->|]; [by rewrite decide_True by exact target_announced | done].
  - intros c'. rewrite Hl2, Hlive. split; [by right|]. intros [->|?]; [|done]. split; [by eapply talks_live|].
    intros a Hca. assert (a = address (rmaster r)) as -> by (by eapply (on_own _ _ Hold)). exact target_announced.
  - intros a c' s' Ha' Hca Hne1 Hne2 Ht'. apply Ho2; [done|]. by apply (Htalks a).
Qed.

(** It has none. *)
Lemma follow_new f st3 nt ds : anew st3 nt (((rmaster r).1, (rmaster r).2, (text, v) :: s2) :: ds) -> connection_of d (cc_mem st) (address (rmaster r)) = None ->
  exists l m c2 st', execute_loop qsort (S f) slot_num cmd (zlen text) None st3 = Done (Some l, st') /\ answered l m c2 st' /\ ~ kept c2.
Proof.
  intros Ha Eco. destruct (an_route _ _ _ Ha slot_num r Hslot Hr Hcovers) as (p & nd & Hp & Hnd & Hh & Hpo & Hc). rewrite Eco in Hc.
  pose proof Hgood as Hg. rewrite Forall_forall in Hg. destruct (Hg r Hr) as (_ & _ & [_ Hport] & _).
  destruct (connection_new st3 slot_num p nd (rmaster r).1 (rmaster r).2 ((text, v) :: s2) ds) as (c2 & n2 & Ec2 & Ht3 & Ho3 & Hnl3 & Hl3); try done;
    [by rewrite slot_u32 | lia | by apply Ha |].
  destruct (execute_answered f slot_num cmd c2 st3 _ text v s2 Ec2 Ht3 Hcmd Hv) as (l & m & n3 & E & Htr & Hdj & Ht4 & Ho4 & _ & Hl4).
  cbn [cc_heap set_mem set_conns cc_conns] in Hdj, E, Ho4, Hl4. destruct Ha as [Ent Hok Hri Hro Hnr Hcon Hlive Htalks _ Eh Erc]. rewrite Eh in *.
  assert (Dict.contents nt !! address (rmaster r) = Some p) as Hntp by (destruct (Hri slot_num r Hslot Hr Hcovers) as (p' & Hp' & Hq'); congruence).
  eexists l, m, c2, _. split; [exact E|]. split; [|by rewrite <- Hlive]. unfold answered, reconnected. split_and!; try done; cbn [cc_nodes cc_mem cc_conns cc_table set_conns set_mem].
  - by apply routed_set_con.
  - exists p, (with_con nd (Some c2)). cbn [cc_table cc_mem set_conns set_mem]. rewrite slot_u32. split_and!; try done. by rewrite list_lookup_insert_eq by (by eapply lookup_lt_Some).
  - exists nt. split; [done|]. intros a. rewrite (connection_set nt _ (address (rmaster r)) p nd c2 Hok Hntp Hnd), Hcon. done.
  - intros c'. by rewrite Hl4, Hl3, Hlive.
  - intros a c' s' Ha' Hca Hne1 Hne2 Ht'. apply Ho4; [done|]. apply Ho3. by apply (Htalks a).
Qed.

(** The redirection and the update of the route. *)
Lemma moved_anew f moved s0 ip port_ ds : has_memory -> qsort_ok qsort -> served st slot_num c -> talks (cc_conns st) c ((text, moved) :: s0) ->
  kind_of moved = CLUSTER_ERR_MOVED -> 0 <= cc_retry st < cc_max st -> cc_max st < INT_MAX -> cc_ip st = None ->
  flag (cc_flags st) HIRCLUSTER_FLAG_ROUTE_USE_SLOTS = true -> first_node st d ip port_ -> zlen rs < 2 ^ 28 -> in_table rs -> no_overlap rs ->
  dials (cc_conns st) ((ip, port_, [(ask_slots, slots_reply rs)]) :: ds) ->
  exists st3 nt, execute_loop qsort (S f) slot_num cmd (zlen text) None st = execute_loop qsort f slot_num cmd (zlen text) None st3 /\ anew st3 nt ds.
Proof.
  intros Hmem Hqsort Hserved Htalks Hmoved Hretry Hmax Hip Hflag Hfirst Hfew Hin Hover Hd.
  destruct (execute_moved f slot_num cmd c st text moved s0 Hserved Htalks Hcmd Hmoved Hretry Hmax) as (n1 & Ht1 & (Ho1 & Hd1 & Hl1) & ->).
  set (st1 := after st 1 n1 (cc_heap st)). assert (rs <> []) as Hne by (intros E; rewrite E in Hr; by apply elem_of_nil in Hr).
  assert (old_nodes st1 d) as Hold1.
  { unfold st1, after. apply old_nodes_conns; [|by destruct Hold]. intros c' s' Ht'. destruct (decide (c' = c)) as [->|]; [by exists s0 | exists s'; by apply Ho1]. }
  destruct (update_route_spec Hmem qsort Hqsort rs Hne Hfew Hgood Hin Hover st1 d ip port_ [] ds Hold1 Hflag Hip Hfirst (Hd1 _ Hd))
    as (st2 & Eu & (a & t & nt & mt & n & -> & [Hro Hnr] & Hdn & Hkept & Hok & Hri & Hcon & Hlive)).
  unfold bind. rewrite Eu. cbn [obind]. change (Read.REDIS_OK =? Read.REDIS_OK) with true. cbn [negb]. clear Eu. eexists _, nt. split; [reflexivity|].
  assert (forall c', live n c' <-> kept c') as Hlive' by (intros c'; rewrite Hlive; cbn [cc_conns st1 after set_conns]; by rewrite Hl1).
  destruct (negb _); split; try done; (intros a' c' s' Ha' Hca Hne' Ht'; apply (Hkept a'); [done | done | by apply Ho1]).
Qed.

End Targets.

(** C6: a redirection is followed. The server of a slot answers MOVED; the client, which asks
    for CLUSTER SLOTS and whose nodes have idle connections and no slaves, asks the first of
    its nodes over a new connection and builds the table that the reply describes. The nodes
    that are announced keep the connections they had, the connections of the others and the
    one that was opened for the question are closed, and no other connection is opened or
    closed but the one to the new master of the slot, if it had none. The command is sent to
    that master, its answer is returned, exactly its blocks are new in the heap, every slot
    is routed as the description says, and one redirection was counted. *)
Theorem moved_followed (slot_num : Z) (cmd text : bytes) (c : handle) (moved v : value) (s0 s2 : script) (st : cluster) (d : nodes_dict)
    (ip : bytes) (port_ : Z) (rs : list region) (r : region)
    (Hmem : has_memory) (Hqsort : qsort_ok qsort)
    (Hserved : served st slot_num c) (Htalks : talks (cc_conns st) c ((text, moved) :: s0)) (Hcmd : take (length text) cmd = text)
    (Hmoved : kind_of moved = CLUSTER_ERR_MOVED) (Hv : settled v)
    (Hretry : 0 <= cc_retry st < cc_max st) (Hmax : cc_max st < INT_MAX)
    (Hold : old_nodes st d) (Hip : cc_ip st = None) (Hflag : flag (cc_flags st) HIRCLUSTER_FLAG_ROUTE_USE_SLOTS = true)
    (Hfirst : first_node st d ip port_)
    (Hne : rs <> []) (Hfew : zlen rs < 2 ^ 28) (Hgood : Forall good_region rs) (Hin : in_table rs) (Hover : no_overlap rs)
    (Hslot : 0 <= slot_num < REDIS_CLUSTER_SLOTS) (Hr : r ∈ rs) (Hcovers : rstart r <= slot_num <= rend r)
    (Htarget : match connection_of d (cc_mem st) (address (rmaster r)) with
               | Some c2 => c2 <> c /\ talks (cc_conns st) c2 ((text, v) :: s2) /\ dials (cc_conns st) [(ip, port_, [(ask_slots, slots_reply rs)])]
               | None => dials (cc_conns st) [(ip, port_, [(ask_slots, slots_reply rs)]); ((rmaster r).1, (rmaster r).2, (text, v) :: s2)]
               end) :
  exists l m c2 st', redis_cluster_command_execute qsort slot_num cmd (zlen text) st = Done (Some l, st') /\ tree v l m /\ m ##ₘ cc_heap st /\
    cc_heap st' = m ∪ cc_heap st /\ routed rs (cc_table st') (cc_mem st') /\ cc_retry st' = cc_retry st + 1 /\
    served st' slot_num c2 /\ talks (cc_conns st') c2 s2 /\ reconnected c st d rs r c2 st' /\
    match connection_of d (cc_mem st) (address (rmaster r)) with Some c' => c2 = c' | None => ~ kept st d rs c2 end.
Proof.
  set (ds := match connection_of d (cc_mem st) (address (rmaster r)) with Some _ => [] | None => [((rmaster r).1, (rmaster r).2, (text, v) :: s2)] end).
  assert (dials (cc_conns st) ((ip, port_, [(ask_slots, slots_reply rs)]) :: ds)) as Hd by (unfold ds; by destruct (connection_of _ _ _); [apply Htarget|]).
  destruct (moved_anew slot_num cmd text c st d rs r Hcmd Hold Hgood Hr (S (Z.to_nat (cc_max st - cc_retry st))) moved s0 ip port_ ds) as (st3 & nt & E3 & Ha); try done.
  assert (redis_cluster_command_execute qsort slot_num cmd (zlen text) st = execute_loop qsort (S (Z.to_nat (cc_max st - cc_retry st))) slot_num cmd (zlen text) None st3) as ->
    by (unfold redis_cluster_command_execute, bind at 1, get at 1; exact E3).
  unfold ds in Ha. destruct (connection_of d (cc_mem st) (address (rmaster r))) as [c2|] eqn:Eco.
  - destruct Htarget as (Hc2 & Htalk2 & _).
    destruct (follow_known slot_num cmd text c v s2 st d rs r Hcmd Hv Hold Hslot Hr Hcovers (Z.to_nat (cc_max st - cc_retry st)) st3 nt [] c2 Ha Eco Hc2 Htalk2) as (l & m & st' & E & Hans).
    exists l, m, c2, st'. split; [exact E|]. unfold answered in Hans. tauto.
  - destruct (follow_new slot_num cmd text c v s2 st d rs r Hcmd Hv Hgood Hslot Hr Hcovers (Z.to_nat (cc_max st - cc_retry st)) st3 nt [] Ha Eco) as (l & m & c2 & st' & E & Hans & Hnk).
    exists l, m, c2, st'. split; [exact E|]. unfold answered in Hans. tauto.
Qed.

End Follow.

(** ** A concrete redirection *)

Section Demo.
#[local] Existing Instance demo_memory.
#[local] Existing Instance demo_sockets.
#[local] Existing Instance demo_laws.

(** The slot 0 has moved from h:7, where the client is connected, to i:8. *)
Definition demo_moved : value := VString Read.REDIS_REPLY_ERROR (bstr "MOVED 0 i:8").
Definition demo_region : region := mk_region 0 3 (bstr "i", 8) [].

Definition demo_answering (v : value) : Context.socket := Context.mk_socket [Context.WBytes 100] [Context.RBytes (resp v)] [].

(** The old server, the same node asked for the description, and the new server. *)
Definition demo_moving : @conns demo_sockets :=
  mk_network [Some (Context.demo_connection, demo_answering demo_moved)]
    [Context.Connected (demo_answering (slots_reply [demo_region])); Context.Connected (demo_answering (VInt 5))] [].

Definition demo_stale : redisClusterContext demo_sockets :=
  mk_cluster 0 [] None 0 HIRCLUSTER_FLAG_ROUTE_USE_SLOTS None (Some demo_nodes) [demo_connected] (Some 0%nat :: replicate (Z.to_nat 16383) None) 1 5 0 None 0 demo_moving ∅ 0.

Lemma demo_plays v text : sendable 8 v -> Sds.fits (zlen text + 1) -> zlen text <= 100 -> 0 < zlen text -> Context.delivery (Context.RBytes (resp v)) ->
  Sds.fits (0 + zlen (resp v)) -> plays 0 (Context.wplan (demo_answering v)) (Context.rplan (demo_answering v)) [(text, v)].
Proof.
  intros Hs Hf Hz Hp Hd Hr. cbn [plays]. split_and!; [done..|]. exists [], [Context.RBytes (resp v)], []. unfold demo_answering. cbn [Context.wplan Context.rplan Context.takes].
  rewrite (proj2 (Z.leb_gt _ _)) by lia. rewrite (proj2 (Z.leb_le _ _)) by lia. split_and!; try done; [by apply Forall_cons|]. cbn. by rewrite app_nil_r.
Qed.

Lemma demo_moving_talks : talks (cc_conns demo_stale) 0%nat [(demo_text, demo_moved)].
Proof.
  exists Context.demo_connection, (demo_answering demo_moved), 0. split; [done|]. split; [done|].
  split; [intros h; by apply (Context.connect_idle Context.demo_connection h Context.demo_connect)|].
  apply demo_plays; try done. split; [by right | done].
Qed.

Lemma demo_dials : dials (cc_conns demo_stale)
  [(bstr "h", 7, [(ask_slots, slots_reply [demo_region])]); (bstr "i", 8, [(demo_text, VInt 5)])].
Proof.
  eexists _, []. split; [symmetry; apply app_nil_r|]. apply Forall2_cons. split; [|apply Forall2_cons; split; [|constructor]]; eexists; (split; [reflexivity|]); apply demo_plays; try done.
  cbn [sendable slots_reply map region_value node_value demo_region]. repeat first [done | apply Forall_nil_2 | apply Forall_cons; split | split].
Qed.

Lemma demo_only c : live (cc_conns demo_stale) c -> c = 0%nat.
Proof. destruct c as [|c]; [done|]. intros [x Hx]. destruct c; done. Qed.

Lemma demo_entry k q : Dict.contents demo_nodes !! k = Some q -> k = bstr "h:7" /\ q = 0%nat.
Proof. intros Hk. change (Dict.contents demo_nodes) with ({[bstr "h:7" := 0%nat]} : gmap bytes nodeptr) in Hk. by apply lookup_singleton_Some in Hk as [<- <-]. Qed.

Lemma demo_old : old_nodes demo_stale demo_nodes.
Proof.
  split; [done | | done | |].
  - split.
    + apply demo_masters.
    + done.
    + intros k q [-> ->]%demo_entry. by eexists.
    + intros k k' q [-> _]%demo_entry [-> _]%demo_entry. done.
  - intros k q [-> ->]%demo_entry. exists demo_connected. split_and!; try done. intros c [= <-]. eexists. exact demo_moving_talks.
  - intros k k' c Hk Hk'. unfold connection_of in *. destruct (Dict.contents demo_nodes !! k) as [q|] eqn:E; [|done]. destruct (Dict.contents demo_nodes !! k') as [q'|] eqn:E'; [|done].
    apply demo_entry in E as [-> _]. by apply demo_entry in E' as [-> _].
Qed.

(** The connection to h:7 is closed, and that to i:8 is the only one. *)
Lemma moved_followed_witness : exists l m c2 st', redis_cluster_command_execute demo_qsort 0 demo_text (zlen demo_text) demo_stale = Done (Some l, st') /\
  tree (VInt 5) l m /\ cc_heap st' = m ∪ ∅ /\ routed [demo_region] (cc_table st') (cc_mem st') /\ cc_retry st' = 1 /\
  served st' 0 c2 /\ forall c', live (cc_conns st') c' <-> c' = c2.
Proof.
  destruct (moved_followed demo_qsort 0 demo_text demo_text 0%nat demo_moved (VInt 5) [] [] demo_stale demo_nodes (bstr "h") 7 [demo_region] demo_region
    demo_has_memory demo_qsort_ok (ltac:(by exists 0%nat, demo_connected)) demo_moving_talks eq_refl eq_refl (or_introl eq_refl)
    ltac:(by split) ltac:(done) demo_old eq_refl eq_refl) as (l & m & c2 & st' & E & Htr & _ & Hh & Hro & Hre & Hsv & _ & (_ & Hlive & _) & _).
  - eexists _, _, _, _. by split_and!.
  - done.
  - done.
  - apply Forall_cons. split; [|constructor]. unfold good_region, good_addr. cbn. split_and!; try done; apply Forall_nil_2.
  - by apply Forall_cons.
  - decided.
  - done.
  - by apply list_elem_of_singleton.
  - done.
  - exact demo_dials.
  - exists l, m, c2, st'. split; [exact E|]. split; [exact Htr|]. split; [exact Hh|]. split; [exact Hro|]. split; [exact Hre|]. split; [exact Hsv|].
    intros c'. rewrite Hlive. split; [|by left]. intros [Hc|[Hl Hk]]; [exact Hc|]. exfalso.
    assert (c' = 0%nat) as -> by exact (demo_only c' Hl). specialize (Hk (bstr "h:7") eq_refl). by apply list_elem_of_singleton in Hk.
Defined.

End Demo.

End Redirect.
