(* ===== verification/Client.v ===== *)
(** The blocking interface of the cluster client, hircluster.c: setting up a context, commands
    that are executed at once, commands that are appended and whose replies are fetched
    later, and the proofs that a command over several slots is answered as one command. *)
From S2P Require Import Prelude Crc16 HiUtil HiArray Dict Sds Read Format Command Reply Frag Gather Route Nodes Context Conn Cluster.
Import HiUtil Command Reply.

Open Scope Z_scope.

Module Client.

Import Frag Gather Route Nodes Conn Cluster.

Section Ops.
Context `{Memory} {C : Connections} (qsort : list (option cluster_slot) -> list (option cluster_slot)).

Abbreviation cluster := (redisClusterContext C).

Definition set_ids (i : Z) (st : cluster) : cluster :=
  mk_cluster (cc_err st) (cc_errstr st) (cc_ip st) (cc_port st) (cc_flags st) (cc_slots st) (cc_nodes st) (cc_mem st) (cc_table st) (cc_version st)
    (cc_max st) (cc_retry st) (cc_requests st) (cc_need_update st) (cc_conns st) (cc_heap st) i.
Definition set_flags (f : Z) (st : cluster) : cluster :=
  mk_cluster (cc_err st) (cc_errstr st) (cc_ip st) (cc_port st) f (cc_slots st) (cc_nodes st) (cc_mem st) (cc_table st) (cc_version st)
    (cc_max st) (cc_retry st) (cc_requests st) (cc_need_update st) (cc_conns st) (cc_heap st) (cc_ids st).
Definition set_max (m : Z) (st : cluster) : cluster :=
  mk_cluster (cc_err st) (cc_errstr st) (cc_ip st) (cc_port st) (cc_flags st) (cc_slots st) (cc_nodes st) (cc_mem st) (cc_table st) (cc_version st)
    m (cc_retry st) (cc_requests st) (cc_need_update st) (cc_conns st) (cc_heap st) (cc_ids st).
Definition set_requests (r : option (list fragmented)) (st : cluster) : cluster :=
  mk_cluster (cc_err st) (cc_errstr st) (cc_ip st) (cc_port st) (cc_flags st) (cc_slots st) (cc_nodes st) (cc_mem st) (cc_table st) (cc_version st)
    (cc_max st) (cc_retry st) r (cc_need_update st) (cc_conns st) (cc_heap st) (cc_ids st).
Definition set_need_update (u r : Z) (st : cluster) : cluster :=
  mk_cluster (cc_err st) (cc_errstr st) (cc_ip st) (cc_port st) (cc_flags st) (cc_slots st) (cc_nodes st) (cc_mem st) (cc_table st) (cc_version st)
    (cc_max st) r (cc_requests st) u (cc_conns st) (cc_heap st) (cc_ids st).

(** ** Setting up *)

(** [redisClusterContextInit]; the connections, the heap and the counter are those of the
    program. *)
Definition redisClusterContextInit (n : conns) (h : heap) (i : Z) : option cluster :=
  if malloc_ok 131328
  then Some (mk_cluster 0 [] None 0 Context.REDIS_BLOCK None None [] (replicate (Z.to_nat REDIS_CLUSTER_SLOTS) None) 0
               CLUSTER_DEFAULT_MAX_REDIRECT_COUNT 0 None 0 n h i)
  else None.

(** [redisClusterSetOptionAddNode] of the C string [a], which has no NUL within it; the entry is
    added untested. *)
Definition redisClusterSetOptionAddNode (a : bytes) : M Z :=
  let% st := get in
  match (match cc_nodes st with Some d => Some d | None => Dict.dictCreate malloc_ok end) with
  | None => pure Read.REDIS_ERR
  | Some d =>
      let% _ := modify (set_nodes (Some d) (cc_mem st)) in
      let% k := need (key_copy a) in
      let% node_entry := need (Dict.dictFind d k) in
      match node_entry with
      | Some _ => pure Read.REDIS_OK
      | None =>
          let% ip_port := need (split (a ++ [0]) (zlen a) IP_PORT_SEPARATOR) in
          match ip_port with
          | Some [ip; p] =>
              if (zlen ip <=? 0) || (zlen p <=? 0) then
                let% _ := fail_with Read.REDIS_ERR_OTHER (bstr "server address is error(correct is like: 127.0.0.1:1234)") in pure Read.REDIS_ERR
              else if _hi_atoi p <=? 0 then
                let% _ := fail_with Read.REDIS_ERR_OTHER (bstr "server port is error") in pure Read.REDIS_ERR
              else if negb (malloc_ok cluster_node_size) then
                let% _ := fail_with Read.REDIS_ERR_OTHER (bstr "alloc cluster node error") in pure Read.REDIS_ERR
              else
                match key_copy a with
                | None => let% _ := fail_with Read.REDIS_ERR_OTHER (bstr "new node address error") in pure Read.REDIS_ERR
                | Some addr =>
                    let% (d, _) := need (Dict.dictAdd malloc_ok d addr (length (cc_mem st))) in
                    let% _ := modify (set_nodes (Some d) (cc_mem st ++ [node_init None addr (Some ip) (_hi_atoi p) REDIS_ROLE_NULL None])) in
                    pure Read.REDIS_OK
                end
          | _ => let% _ := fail_with Read.REDIS_ERR_OTHER (bstr "server address is error(correct is like: 127.0.0.1:1234)") in pure Read.REDIS_ERR
          end
      end
  end.

Definition CLUSTER_ADDRESS_SEPARATOR : bytes := bstr ",".

Fixpoint add_nodes (l : list bytes) : M Z :=
  match l with
  | [] => pure Read.REDIS_OK
  | a :: l' => let% ret := redisClusterSetOptionAddNode a in if negb (ret =? Read.REDIS_OK) then pure Read.REDIS_ERR else add_nodes l'
  end.

Definition redisClusterSetOptionAddNodes (addrs : bytes) : M Z :=
  let% address := need (split (addrs ++ [0]) (zlen addrs) CLUSTER_ADDRESS_SEPARATOR) in
  match address with
  | None | Some [] =>
      let% _ := fail_with Read.REDIS_ERR_OTHER (bstr "servers address is error(correct is like: 127.0.0.1:1234,127.0.0.2:5678)") in
      pure Read.REDIS_ERR
  | Some l => add_nodes l
  end.

(** The options. *)
Definition set_flag (f : Z) : M Z := let% _ := modify (fun st => set_flags (Z.lor (cc_flags st) f) st) in pure Read.REDIS_OK.
Definition redisClusterSetOptionConnectBlock : M Z := set_flag Context.REDIS_BLOCK.
Definition redisClusterSetOptionParseSlaves : M Z := set_flag HIRCLUSTER_FLAG_ADD_SLAVE.
Definition redisClusterSetOptionParseOpenSlots : M Z := set_flag HIRCLUSTER_FLAG_ADD_OPENSLOT.
Definition redisClusterSetOptionRouteUseSlots : M Z := set_flag HIRCLUSTER_FLAG_ROUTE_USE_SLOTS.
Definition redisClusterSetOptionConnectNonBlock : M Z :=
  let% _ := modify (fun st => set_flags (Z.land (cc_flags st) (Z.lnot Context.REDIS_BLOCK)) st) in pure Read.REDIS_OK.
Definition redisClusterSetOptionMaxRedirect (count : Z) : M Z :=
  if count <=? 0 then pure Read.REDIS_ERR else let% _ := modify (set_max count) in pure Read.REDIS_OK.

(** [_redisClusterConnect2]. *)
Definition redisClusterConnect2 : M Z :=
  let% st := get in
  if match cc_nodes st with None => true | Some d => Dict.used d =? 0 end
  then let% _ := fail_with Read.REDIS_ERR_OTHER (bstr "servers address does not set up") in pure Read.REDIS_ERR
  else cluster_update_route qsort.

(** [_redisClusterConnect]: the result is the context. *)
Definition redisClusterConnect_ (addrs : bytes) : M unit :=
  let% ret := redisClusterSetOptionAddNodes addrs in
  if negb (ret =? Read.REDIS_OK) then pure tt else let% _ := cluster_update_route qsort in pure tt.

Definition redisClusterConnect (addrs : bytes) (flags : Z) : M unit :=
  let% _ := modify (fun st => set_flags (Z.lor (Z.lor (cc_flags st) Context.REDIS_BLOCK) flags) st) in redisClusterConnect_ addrs.

Definition redisClusterConnectNonBlock (addrs : bytes) (flags : Z) : M unit :=
  let% _ := modify (fun st => set_flags (Z.lor (Z.land (cc_flags st) (Z.lnot Context.REDIS_BLOCK)) flags) st) in redisClusterConnect_ addrs.

Definition redisClusterSetMaxRedirect (count : Z) : M unit := if count <=? 0 then pure tt else modify (set_max count).

(** ** Commands that are executed at once *)

(** The error is forgotten. *)
Definition clear_error : M unit := modify (fun st => if negb (cc_err st =? 0) then set_err (0, []) st else st).

(** An error that a function without effects set. *)
Definition keep_error (e : option cerror) : M unit := modify (match e with Some e => set_err e | None => fun st => st end).

(** The replies of the parts, by the places of the parts. *)
Abbreviation replies := (gmap nat loc).

(** The loop over the parts: their replies, and whether it was left, with an error reply or
    without a reply. *)
Fixpoint execute_parts (qs : list nat) (store : list cmd) (rs : replies) : M (replies * option (option loc)) :=
  match qs with
  | [] => pure (rs, None)
  | q :: qs' =>
      let% sub := need (store !! q) in
      let% txt := need (text sub) in
      let% reply := redis_cluster_command_execute qsort (Command.slot_num sub) txt (clen sub) in
      match reply with
      | None => pure (rs, Some None)
      | Some l =>
          let% st := get in
          let% r := need (load_reply (cc_heap st) l) in
          if rtype r =? Read.REDIS_REPLY_ERROR then pure (rs, Some (Some l))
          else execute_parts qs' store (<[q := l]> rs)
      end
  end.

(** [listRelease] of the parts: [command_destroy] releases their replies. *)
Fixpoint destroy_parts (qs : list nat) (rs : replies) : M unit :=
  match qs with
  | [] => pure tt
  | q :: qs' => let% _ := freeReply (rs !! q) in destroy_parts qs' rs
  end.

(** [command_post_fragment] on the parts. *)
Definition post_fragment (f : fragmented) (rs : replies) : M (option loc) :=
  let% st := get in
  let reply := fun q => rs !! q in
  let% (h, r, e) := need (command_post_fragment (ctype (fcmd f)) (map reply (fcommands f)) (map (fun x => x ≫= reply) (default [] (fseq f))) (cc_heap st)) in
  let% _ := modify (set_conns (cc_conns st) h) in
  let% _ := keep_error e in
  pure r.

(** The labels [done] and [error]. *)
Definition finish (f : fragmented) (rs : replies) (r : option loc) : M (option loc) :=
  let% _ := destroy_parts (fcommands f) rs in
  let% _ := modify (set_retry 0) in
  pure r.

(** [command_get] and [command_format_by_slot]: [inr] without a command, or with what they
    made of it. *)
Definition format_command (cmd : bytes) (len : Z) : M (option (option fragmented)) :=
  let% st := get in
  match command_get (cc_ids st) with
  | (None, i) => let% _ := modify (set_ids i) in let% _ := fail_with Read.REDIS_ERR_OOM (bstr "Out of memory") in pure None
  | (Some r, i) =>
      let% _ := modify (set_ids i) in
      if negb (malloc_ok list_size) then let% _ := fail_with Read.REDIS_ERR_OOM (bstr "Out of memory") in pure (Some None)
      else
        let% f := need (command_format_by_slot (set_text r cmd (u32 len)) i) in
        let% _ := modify (set_ids (fids f)) in
        let% _ := keep_error (ferror f) in
        if fslot f <? 0 then pure (Some None)
        else if REDIS_CLUSTER_SLOTS <=? fslot f then
          let% _ := fail_with Read.REDIS_ERR_OTHER (bstr "slot_num is out of range") in pure (Some None)
        else pure (Some (Some f))
  end.

(** [redisClusterFormattedCommand]; the assertion is on the number of the parts, and the
    iterator is not tested. *)
Definition redisClusterFormattedCommand (cmd : bytes) (len : Z) : M (option loc) :=
  let% _ := clear_error in
  let% f := format_command cmd len in
  match f with
  | None => pure None
  | Some None => let% _ := modify (set_retry 0) in pure None
  | Some (Some f) =>
      match fcommands f with
      | [] =>
          let% r := redis_cluster_command_execute qsort (Command.slot_num (fcmd f)) cmd (clen (fcmd f)) in
          finish f ∅ r
      | [_] => undefined
      | qs =>
          let% _ := need (if malloc_ok iter_size then Some tt else None) in
          let% (rs, stop) := execute_parts qs (fstore f) ∅ in
          let% r := (match stop with Some r => pure r | None => post_fragment f rs end) in
          finish f rs r
      end
  end.

(** [redisClusterCommandArgv]. *)
Definition redisClusterCommandArgv (argv : list bytes) (argvlen : option (list Z)) : M (option loc) :=
  let% x := need (Format.redisFormatCommandArgv argv argvlen) in
  match x with
  | None => let% _ := fail_with Read.REDIS_ERR_OOM (bstr "Out of memory") in pure None
  | Some (len, cmd) => redisClusterFormattedCommand cmd len
  end.

(** [redisClustervCommand], on a context that is not NULL. *)
Definition redisClustervCommand (vsnprintf : bytes -> Format.farg -> bytes) (format : bytes) (args : list Format.farg) : M (option loc) :=
  let% x := need (Format.redisvFormatCommand vsnprintf format args) in
  match x with
  | inl len =>
      let% _ := (if len =? -1 then fail_with Read.REDIS_ERR_OOM (bstr "Out of memory")
                 else fail_with Read.REDIS_ERR_OTHER (bstr "Invalid format string")) in
      pure None
  | inr (len, cmd) => redisClusterFormattedCommand cmd len
  end.

(** ** Commands that are appended *)

(** [__redisClusterAppendCommand]. *)
Definition append_command (c : cmd) (txt : bytes) : M Z :=
  let% st := get in
  let% node := need (node_get_by_table (cc_table st) (u32 (Command.slot_num c))) in
  match node with
  | None => let% _ := fail_with Read.REDIS_ERR_OTHER (bstr "node get by slot error") in pure Read.REDIS_ERR
  | Some p =>
      let% con := ctx_get_by_node p in
      let% con := usable con "ctx get by node is null" in
      match con with
      | None => pure Read.REDIS_ERR
      | Some con =>
          let% ret := appendCommand con txt (clen c) in
          if negb (ret =? Read.REDIS_OK) then let% _ := copy_error con in pure Read.REDIS_ERR else pure Read.REDIS_OK
      end
  end.

Fixpoint append_parts (qs : list nat) (store : list cmd) : M Z :=
  match qs with
  | [] => pure Read.REDIS_OK
  | q :: qs' =>
      let% sub := need (store !! q) in
      let% txt := need (text sub) in
      let% ret := append_command sub txt in
      if ret =? Read.REDIS_OK then append_parts qs' store else pure Read.REDIS_ERR
  end.

(** [redisClusterAppendFormattedCommand]; a request that cannot be linked is lost, untested. *)
Definition redisClusterAppendFormattedCommand (cmd : bytes) (len : Z) : M Z :=
  let% st := get in
  match (match cc_requests st with Some l => Some l | None => if malloc_ok list_size then Some [] else None end) with
  | None => let% _ := fail_with Read.REDIS_ERR_OOM (bstr "Out of memory") in pure Read.REDIS_ERR
  | Some l =>
      let% _ := modify (set_requests (Some l)) in
      let% f := format_command cmd len in
      match f with
      | None | Some None => pure Read.REDIS_ERR
      | Some (Some f) =>
          let% ret :=
            (match fcommands f with
             | [] => append_command (fcmd f) cmd
             | [_] => undefined
             | qs => let% _ := need (if malloc_ok iter_size then Some tt else None) in append_parts qs (fstore f)
             end) in
          if negb (ret =? Read.REDIS_OK) then pure Read.REDIS_ERR
          else
            let% _ := modify (set_requests (Some (if malloc_ok node_size then l ++ [f] else l))) in
            pure Read.REDIS_OK
      end
  end.

(** [redisClustervAppendCommand], on a context and a format that are not NULL. *)
Definition redisClustervAppendCommand (vsnprintf : bytes -> Format.farg -> bytes) (format : bytes) (args : list Format.farg) : M Z :=
  let% x := need (Format.redisvFormatCommand vsnprintf format args) in
  match x with
  | inl len =>
      let% _ := (if len =? -1 then fail_with Read.REDIS_ERR_OOM (bstr "Out of memory")
                 else fail_with Read.REDIS_ERR_OTHER (bstr "Invalid format string")) in
      pure Read.REDIS_ERR
  | inr (len, cmd) => redisClusterAppendFormattedCommand cmd len
  end.

Definition redisClusterAppendCommandArgv (argv : list bytes) (argvlen : option (list Z)) : M Z :=
  let% x := need (Format.redisFormatCommandArgv argv argvlen) in
  match x with
  | None => let% _ := fail_with Read.REDIS_ERR_OOM (bstr "Out of memory") in pure Read.REDIS_ERR
  | Some (len, cmd) => redisClusterAppendFormattedCommand cmd len
  end.

(** [__redisClusterGetReply]. *)
Definition get_reply (slot : Z) : M (Z * option loc) :=
  if slot <? 0 then pure (Read.REDIS_ERR, None)
  else
    let% st := get in
    let% node := need (node_get_by_table (cc_table st) (u32 slot)) in
    match node with
    | None => let% _ := fail_with Read.REDIS_ERR_OTHER (bstr "node get by table is null") in pure (Read.REDIS_ERR, None)
    | Some p =>
        let% c := ctx_get_by_node p in
        match c with
        | None => let% _ := fail_with Read.REDIS_ERR_OOM (bstr "Out of memory") in pure (Read.REDIS_ERR, None)
        | Some c =>
            let% e := context_error c in
            if negb (e.1 =? 0) then
              let% _ := modify (fun st =>
                if cc_need_update st =? 0 then
                  let r := i32 (cc_retry st + 1) in
                  if cc_max st <? r then set_need_update 1 0 st else set_need_update (cc_need_update st) r st
                else st) in
              let% _ := copy_error c in
              pure (Read.REDIS_ERR, None)
            else
              let% (ret, reply) := getReply c in
              if negb (ret =? Read.REDIS_OK) then let% _ := copy_error c in pure (Read.REDIS_ERR, None)
              else
                let% st := get in
                let% ty := need (cluster_reply_error_type (cc_heap st) reply) in
                let% _ := (if ty =? CLUSTER_ERR_MOVED then modify (fun st => set_need_update 1 (cc_retry st) st) else pure tt) in
                pure (Read.REDIS_OK, reply)
        end
    end.

(** The loop over the parts of a request; the flag says whether all were answered. *)
Fixpoint get_parts (qs : list nat) (store : list cmd) (rs : replies) : M (replies * bool) :=
  match qs with
  | [] => pure (rs, true)
  | q :: qs' =>
      let% sub := need (store !! q) in
      if Command.slot_num sub <? 0 then
        let% _ := fail_with Read.REDIS_ERR_OTHER (bstr "sub_command slot_num is less then zero") in pure (rs, false)
      else
        let% (ret, l) := get_reply (Command.slot_num sub) in
        if negb (ret =? Read.REDIS_OK) then pure (rs, false)
        else get_parts qs' store (match l with Some l => <[q := l]> rs | None => rs end)
  end.

(** [redisClusterGetReply]: at the end the request is released with its parts and their
    replies. *)
Definition redisClusterGetReply : M (Z * option loc) :=
  let% _ := modify (set_err (0, [])) in
  let% st := get in
  match cc_requests st with
  | None => pure (Read.REDIS_ERR, None)
  | Some [] => pure (Read.REDIS_OK, None)
  | Some (f :: l) =>
      if 0 <=? Command.slot_num (fcmd f) then
        let% _ := modify (set_requests (Some l)) in get_reply (Command.slot_num (fcmd f))
      else
        match fcommands f with
        | [] =>
            let% _ := fail_with Read.REDIS_ERR_OTHER (bstr "sub_commands in command is null") in
            let% _ := modify (set_requests (Some l)) in pure (Read.REDIS_ERR, None)
        | [_] => undefined
        | qs =>
            let% _ := need (if malloc_ok iter_size then Some tt else None) in
            let% (rs, ok) := get_parts qs (fstore f) ∅ in
            let% r := (if (ok : bool) then post_fragment f rs else pure None) in
            let% _ := modify (set_requests (Some l)) in
            let% _ := destroy_parts qs rs in
            pure (match r with Some _ => Read.REDIS_OK | None => Read.REDIS_ERR end, r)
        end
  end.

(** ** Closing *)

(** The loop of [redisCLusterClearAll]. *)
Fixpoint clear_loop (fuel : nat) (d : nodes_dict) (it : Dict.dictIterator bytes nodeptr) : M Z :=
  match fuel with
  | O => endless
  | S f =>
      let% (de, it) := need (Dict.dictNext d it) in
      match de with
      | None => pure Read.REDIS_OK
      | Some (_, p) =>
          let% st := get in
          let% n := need (cc_mem st !! p) in
          match con n with
          | None => clear_loop f d it
          | Some c => let% _ := freeContext c in let% _ := set_con p None in clear_loop f d it
          end
      end
  end.

Definition redisCLusterClearAll : M Z :=
  let% _ := clear_error in
  let% st := get in
  match cc_nodes st with
  | None => pure Read.REDIS_ERR
  | Some d =>
      let% it := need (Dict.dictGetIterator (K := bytes) (V := nodeptr) malloc_ok) in
      clear_loop (entries d) d it
  end.

(** [redisBufferWrite] until everything is written. *)
Definition flush (c : handle) : M Z :=
  let% st := get in
  let% (ret, n) := io (con_flush c (cc_conns st)) in
  let% _ := modify (set_conns n (cc_heap st)) in
  pure ret.

(** The loop of [redisCLusterSendAll]. *)
Fixpoint send_loop (fuel : nat) (d : nodes_dict) (it : Dict.dictIterator bytes nodeptr) : M Z :=
  match fuel with
  | O => endless
  | S f =>
      let% (de, it) := need (Dict.dictNext d it) in
      match de with
      | None => pure Read.REDIS_OK
      | Some (_, p) =>
          let% c := ctx_get_by_node p in
          match c with
          | None => send_loop f d it
          | Some c =>
              let% st := get in
              let% b := need (con_blocking (cc_conns st) c) in
              if (b : bool) then
                let% ret := flush c in
                if ret =? Read.REDIS_ERR then pure Read.REDIS_ERR else send_loop f d it
              else send_loop f d it
          end
      end
  end.

Definition redisCLusterSendAll : M Z :=
  let% st := get in
  match cc_nodes st with
  | None => pure Read.REDIS_ERR
  | Some d =>
      let% it := need (Dict.dictGetIterator (K := bytes) (V := nodeptr) malloc_ok) in
      send_loop (entries d) d it
  end.

(** The loop of [redisClusterReset]: every round but the last takes a request. *)
Fixpoint drain (fuel : nat) : M unit :=
  match fuel with
  | O => endless
  | S f =>
      let% (status, reply) := redisClusterGetReply in
      if status =? Read.REDIS_OK then
        let% _ := freeReply reply in
        match reply with Some _ => drain f | None => pure tt end
      else let% _ := redisCLusterClearAll in pure tt
  end.

(** [redisClusterReset]; the requests that are left hold no replies. *)
Definition redisClusterReset : M unit :=
  let% st := get in
  match cc_nodes st with
  | None => pure tt
  | Some _ =>
      let% _ :=
        (if negb (cc_err st =? 0) then let% _ := redisCLusterClearAll in pure tt
         else let% _ := redisCLusterSendAll in drain (S (length (default [] (cc_requests st))))) in
      let% _ := modify (set_requests None) in
      let% st := get in
      if negb (cc_need_update st =? 0) then
        let% status := cluster_update_route qsort in
        if negb (status =? Read.REDIS_OK)
        then fail_with Read.REDIS_ERR_OTHER (bstr "route update error, please recreate redisClusterContext!")
        else modify (fun st => set_need_update 0 (cc_retry st) st)
      else pure tt
  end.

(** [redisClusterFree]: what is left are the connections and the heap. *)
Definition redisClusterFree : M unit :=
  let% st := get in
  match cc_nodes st with Some d => release_nodes d (cc_mem st) | None => pure tt end.

End Ops.

(** ** Commands over several slots *)

Lemma tree_type v l m h : tree v l m -> exists r, load_reply (m ∪ h) l = Some r /\ vtype v = Some (rtype r).
Proof.
  unfold load_reply. intros Ht. destruct Ht as [z l|l|ty s l b Hty Hne|n l Hn|vs l e ps m Hlen Hts Hle Hl He].
  1, 2, 4: rewrite lookup_union, lookup_singleton_eq, union_Some_l; by eexists.
  all: rewrite lookup_union, lookup_insert_eq, union_Some_l; by eexists.
Qed.

(** A value that is no error is an answer. *)
Definition no_error (v : value) : Prop := vtype v <> Some Read.REDIS_REPLY_ERROR.

Lemma no_error_settled v : no_error v -> settled v.
Proof. destruct v as [ty s| | | |]; try by left. intros Hne. left. cbn [kind_of]. destruct (Z.eqb_spec ty Read.REDIS_REPLY_ERROR); [subst; by destruct Hne | done]. Qed.

Section Mget.
Context `{Memory} {C : Connections} {L : ConnLaws C} (qsort : list (option cluster_slot) -> list (option cluster_slot)).

Abbreviation cluster := (redisClusterContext C).

Lemma direct (st : cluster) slot c text v s cmd : served st slot c -> talks (cc_conns st) c ((text, v) :: s) -> take (length text) cmd = text -> settled v ->
  exists l m n2, redis_cluster_command_execute qsort slot cmd (zlen text) st = Done (Some l, set_conns n2 (m ∪ cc_heap st) st) /\
    tree v l m /\ m ##ₘ cc_heap st /\ talks n2 c s /\ others_kept (cc_conns st) n2 c.
Proof.
  intros Hs Ht Hcmd Hv. destruct (execute_step qsort (S (Z.to_nat (cc_max st - cc_retry st))) slot cmd c st text v s Hs Ht Hcmd) as (l & m & n2 & Htr & Hd & Ht2 & Ho & E & _).
  exists l, m, n2. split_and!; try done. unfold redis_cluster_command_execute, bind, get. cbn [obind]. unfold jumps. rewrite (E Hv).
  do 2 f_equal. unfold after. rewrite Z.add_0_r. by destruct st.
Qed.

(** The slots of the parts, what each is sent and what it will be answered, and the
    connection of each slot. *)
Context (ans : Z -> bytes * value) (route : Z -> handle).

(** What is said over a connection about these slots. *)
Definition speech (ss : list Z) (c : handle) : script := map ans (filter (fun s => route s = c) ss).

Definition part_ready (store : list cmd) (s : Z) (q : nat) : Prop :=
  exists sub, store !! q = Some sub /\ Command.slot_num sub = s /\ text sub = Some (ans s).1 /\ clen sub = zlen (ans s).1.

Lemma execute_parts_spec (P : handle -> Prop) (more : handle -> script) store ss : forall qs rs (st : cluster),
  Forall2 (part_ready store) ss qs -> NoDup qs -> Forall (fun s => served st s (route s) /\ no_error (ans s).2 /\ P (route s)) ss ->
  (forall c, P c -> talks (cc_conns st) c (speech ss c ++ more c)) ->
  exists ls hs n rs', execute_parts qsort qs store rs st = Done ((rs', None), set_conns n (uni (cc_heap st :: hs)) st) /\ apart (cc_heap st :: hs) /\
    Forall2 (fun s p => tree (ans s).2 p.1 p.2) ss (zip ls hs) /\ length ls = length ss /\ length hs = length ss /\
    map (fun q => rs' !! q) qs = map Some ls /\ (forall q, (q ∉ qs) -> rs' !! q = rs !! q) /\ forall c, P c -> talks n c (more c).
Proof.
  induction ss as [|s ss IH]; intros qs rs st Hqs Hnd Hss Htalk.
  - inversion Hqs; subst. exists [], [], (cc_conns st), rs. cbn [execute_parts uni apart]. rewrite (right_id_L ∅ (∪)).
    split_and!; try done; [by rewrite set_conns_same | by apply map_disjoint_empty_r].
  - inversion Hqs as [|? q ? qs' Hq Hqs' E1 E2]; subst. apply NoDup_cons in Hnd as [Hqn Hnd]. apply Forall_cons in Hss as [(Hsv & Hne & HP) Hss].
    destruct Hq as (sub & Hsub & Hsl & Htx & Hcl).
    assert (talks (cc_conns st) (route s) (((ans s).1, (ans s).2) :: speech ss (route s) ++ more (route s))) as Ht1.
    { pose proof (Htalk _ HP) as Ht. unfold speech in Ht |- *. rewrite filter_cons_True in Ht by done. cbn [map app] in Ht. by destruct (ans s). }
    destruct (direct st s (route s) _ _ _ (ans s).1 Hsv Ht1 (take_ge _ _ (le_n _)) (no_error_settled _ Hne)) as (l & m & n2 & E & Htr & Hd & Ht2 & Ho).
    destruct (IH qs' (<[q := l]> rs) (set_conns n2 (m ∪ cc_heap st) st) Hqs' Hnd) as (ls & hs & n & rs' & E' & Ha & Htrs & Hll & Hlh & Hrs & Hother & Hmore).
    { eapply Forall_impl; [exact Hss|]. intros s' (? & ? & ?). done. }
    { intros c Hc. destruct (decide (c = route s)) as [->|Hcne]; [done|]. apply (proj1 Ho); [done|]. pose proof (Htalk c Hc) as Ht.
      unfold speech in Ht |- *. by rewrite filter_cons_False in Ht by done. }
    cbn [cc_heap set_conns] in E', Ha. exists (l :: ls), (m :: hs), n, rs'.
    assert (apart (cc_heap st :: m :: hs) /\ uni (m ∪ cc_heap st :: hs) = uni (cc_heap st :: m :: hs)) as [Ha1 Hu].
    { rewrite uni_split. apply pieces_perm; [constructor|]. by apply piece_split. }
    rewrite Hu in E'. split_and!; try done.
    + cbn [execute_parts]. rewrite Hsub. unfold need at 1, bind at 1, pure at 1. cbn [obind]. rewrite Htx. unfold need at 1, bind at 1, pure at 1. cbn [obind].
      rewrite Hsl, Hcl. unfold bind at 1. rewrite E. cbn [obind]. unfold bind at 1, get at 1. cbn [obind cc_heap set_conns].
      destruct (tree_type _ _ _ (cc_heap st) Htr) as (r & Hr & Hty). rewrite Hr. unfold need at 1, bind at 1, pure at 1. cbn [obind].
      rewrite (proj2 (Z.eqb_neq _ _)); [done|]. intros Eq. apply Hne. by rewrite Hty, Eq.
    + cbn [zip]. by constructor.
    + cbn [length]. by rewrite Hll.
    + cbn [length]. by rewrite Hlh.
    + cbn [map]. rewrite Hrs. f_equal. rewrite Hother by done. by rewrite lookup_insert_eq.
    + intros q' Hq'. apply not_elem_of_cons in Hq' as [? ?]. rewrite Hother by done. by rewrite lookup_insert_ne.
Qed.

Lemma destroy_parts_spec (st : cluster) n qs rs : forall ls h h', map (fun q => rs !! q) qs = map Some ls -> free_parts ls h = Some h' ->
  destroy_parts qs rs (set_conns n h st) = Done (tt, set_conns n h' st).
Proof.
  induction qs as [|q qs IH]; intros [|l ls] h h' Hm Hf; try done; cbn [map free_parts destroy_parts] in *.
  - by injection Hf as ->.
  - injection Hm as Hq Hm. destruct (freeReplyObject (Some l) h) as [h1|] eqn:E; [|done]. cbn [mbind option_bind] in Hf.
    rewrite Hq. unfold bind at 1, freeReply, bind at 1, get at 1. cbn [obind cc_heap set_conns]. rewrite E. unfold need, bind at 1, pure, modify. cbn [obind]. by apply (IH ls).
Qed.

End Mget.

(** *** The encoding of commands is unambiguous *)

Lemma cut_sep (c : Z) a b x y : (c ∉ a) -> (c ∉ b) -> a ++ c :: x = b ++ c :: y -> a = b /\ x = y.
Proof.
  revert b. induction a as [|u a IH]; intros [|v b] Ha Hb E; cbn [app] in E; [by injection E|..]; injection E as E1 E2; subst; [set_solver..|].
  destruct (IH b) as [-> ->]; set_solver.
Qed.

(** A number before CRLF. *)
Lemma count_inj {A B} (l : list A) (k : list B) x y : dec (zlen l) ++ CRLF ++ x = dec (zlen k) ++ CRLF ++ y -> length l = length k /\ x = y.
Proof.
  intros E. apply cut_sep in E as [E1 [= ->]]; [|apply dec_no_CR, zlen_nonneg..]. split; [|done].
  apply (f_equal undec) in E1. rewrite !undec_dec in E1 by apply zlen_nonneg. unfold zlen in E1. lia.
Qed.

Lemma bulk_app a x : Format.bulk a ++ x = 36 :: dec (zlen a) ++ CRLF ++ a ++ CRLF ++ x.
Proof. unfold Format.bulk. by rewrite <- app_comm_cons, <- !app_assoc. Qed.

Lemma bulks_inj ks : forall ks', length ks = length ks' -> flat_map Format.bulk ks = flat_map Format.bulk ks' -> ks = ks'.
Proof.
  induction ks as [|k ks IH]; intros [|k' ks'] Hl E; try done. cbn [flat_map] in E. rewrite !bulk_app in E. apply (f_equal tail) in E. cbn [tail] in E.
  apply count_inj in E as [El E]. apply app_inj_1 in E as [-> E]; [|done]. apply app_inv_head in E. f_equal. apply IH; [by injection Hl | done].
Qed.

Lemma encode_inj ks ks' : Format.encode ks = Format.encode ks' -> ks = ks'.
Proof. unfold Format.encode. intros [= E]. apply count_inj in E as [El E]. by apply bulks_inj. Qed.

(** ** The whole client *)

Lemma command_get_ok `{Memory} i : has_memory -> exists r i', command_get i = (Some r, i') /\ fresh_cmd r.
Proof.
  intros Hmem. destruct (command_get i) as [[r|] i'] eqn:E; [exists r, i'; split; [done|]; by eapply command_get_fresh|].
  unfold command_get, HiArray.hiarray_create in E. by rewrite !Hmem in E.
Qed.

Lemma fresh_text r txt n : fresh_cmd r -> fresh_cmd (set_text r txt n).
Proof. done. Qed.

(** The parts that [parts_of] finds. *)
Lemma parts_ready f (ans : Z -> bytes * value) ss : parts_of f = Some (map (fun s => (s, (ans s).1)) ss) -> NoDup ss ->
  Forall2 (part_ready ans (fstore f)) ss (fcommands f) /\ NoDup (fcommands f).
Proof.
  unfold parts_of. intros Hp Hnd. apply mapM_Some in Hp. rewrite Forall2_fmap_r in Hp || apply Forall2_map_r in Hp.
  assert (Forall2 (part_ready ans (fstore f)) ss (fcommands f)) as Hf.
  { apply Forall2_flip. eapply Forall2_impl; [exact Hp|]. intros q s E. cbn in E. destruct (fstore f !! q) as [c|] eqn:Eq; [|done]. cbn in E.
    destruct (text c) as [b|] eqn:Eb; [|done]. cbn in E. destruct (Z.eqb_spec (clen c) (zlen b)); [|done]. injection E as E1 E2. subst b.
    exists c. split_and!; try done. }
  split; [done|]. clear Hp. apply NoDup_alt. intros i j q Hi Hj.
  destruct (Forall2_lookup_r _ _ _ _ _ Hf Hi) as (s & Hs & (c & Hc & Hsl & _)). destruct (Forall2_lookup_r _ _ _ _ _ Hf Hj) as (s' & Hs' & (c' & Hc' & Hsl' & _)).
  rewrite Hc in Hc'. injection Hc' as <-. subst s s'. by eapply (NoDup_lookup ss).
Qed.

Section Theorems.
Context `{Memory} {C : Connections} {L : ConnLaws C} (qsort : list (option cluster_slot) -> list (option cluster_slot)).

Abbreviation keys_of args s := (concat (group s (items CMD_REQ_REDIS_MGET args))).

(** The part of an MGET for a slot, and the reply of a server that knows the values. *)
Definition mget_part (answer : bytes -> value) (args : list bytes) (s : Z) : bytes * value :=
  (Format.encode (bstr "mget" :: keys_of args s), VArray (zlen (keys_of args s)) (map answer (keys_of args s))).

(** The slots of the keys. *)
Abbreviation mget_slots args := (slots_of (items CMD_REQ_REDIS_MGET args)).

Lemma mget_answered answer args (ss : list Z) ls hs : length ls = length ss -> length hs = length ss ->
  Forall2 (fun s p => tree (mget_part answer args s).2 p.1 p.2) ss (zip ls hs) ->
  all_answered answer (map (part CMD_REQ_REDIS_MGET (items CMD_REQ_REDIS_MGET args)) ss) ls hs.
Proof.
  intros Hl Hh Hf. unfold all_answered. rewrite length_map. split_and!; [done..|].
  intros j p l m Hp Hlj Hmj ks Eks. rewrite list_lookup_fmap in Hp. destruct (ss !! j) as [s|] eqn:Es; [|done]. injection Hp as <-.
  unfold part in Eks. cbn [snd] in Eks. apply encode_inj in Eks. injection Eks as <-.
  destruct (Forall2_lookup_l _ _ _ _ _ Hf Es) as (x & Hx & Ht). rewrite lookup_zip_with in Hx. rewrite Hlj in Hx. cbn in Hx. rewrite Hmj in Hx. injection Hx as <-. exact Ht.
Qed.

(** The context after the command was cut up. *)
Definition cleared (st : redisClusterContext C) : redisClusterContext C := if negb (cc_err st =? 0) then set_err (0, []) st else st.

Lemma format_command_spec (st : redisClusterContext C) cmd len r i f : has_memory -> command_get (cc_ids st) = (Some r, i) ->
  command_format_by_slot (set_text r cmd (u32 len)) i = Some f -> ferror f = None -> 0 <= fslot f < REDIS_CLUSTER_SLOTS ->
  format_command cmd len st = Done (Some (Some f), set_ids (fids f) st).
Proof.
  intros Hmem Eg Ef He Hs. unfold format_command, bind at 1, get at 1. cbn [obind]. rewrite Eg. unfold bind at 1, modify at 1. cbn [obind].
  rewrite Hmem. cbn [negb]. rewrite Ef. unfold need, bind at 1, pure at 1. cbn [obind]. unfold bind at 1, modify at 1. cbn [obind].
  rewrite He. unfold keep_error, bind at 1, modify at 1. cbn [obind]. rewrite (proj2 (Z.ltb_ge _ _)), (proj2 (Z.leb_gt _ _)) by lia. done.
Qed.

(** Executing and joining the parts. *)
Lemma formatted_parts (st st1 : redisClusterContext C) cmd len f rs n h h' r h'' ls : has_memory ->
  format_command cmd len (cleared st) = Done (Some (Some f), st1) -> (2 <= length (fcommands f))%nat ->
  execute_parts qsort (fcommands f) (fstore f) ∅ st1 = Done ((rs, None), set_conns n h st1) ->
  command_post_fragment (ctype (fcmd f)) (map (fun q => rs !! q) (fcommands f)) (map (fun x => x ≫= (fun q => rs !! q)) (default [] (fseq f))) h =
    Some (h', Some r, None) ->
  map (fun q => rs !! q) (fcommands f) = map Some ls -> free_parts ls h' = Some h'' ->
  redisClusterFormattedCommand qsort cmd len st = Done (Some r, set_retry 0 (set_conns n h'' st1)).
Proof.
  intros Hmem Ef Hl Ee Ep Hm Hfree. unfold redisClusterFormattedCommand, clear_error, bind at 1, modify at 1. cbn [obind]. fold (cleared st).
  unfold bind at 1. rewrite Ef. cbn [obind]. destruct (fcommands f) as [|q1 [|q2 qs]] eqn:Eq; [simpl in Hl; lia..|]. rewrite <- Eq in *.
  rewrite Hmem. unfold need at 1, bind at 1, pure at 1. cbn [obind]. unfold bind at 1. rewrite Ee. cbn [obind].
  unfold bind at 1, post_fragment, bind at 1, get at 1. cbn [obind cc_heap set_conns]. rewrite Ep. unfold need, bind at 1, pure at 1. cbn [obind].
  unfold bind at 1, modify at 1. cbn [obind]. unfold bind at 1, keep_error, modify at 1, pure at 1. cbn [obind cc_conns set_conns].
  unfold finish, bind at 1. change (set_conns n h' (set_conns n h st1)) with (set_conns n h' st1).
  rewrite (destroy_parts_spec st1 n (fcommands f) rs ls h' h'' Hm Hfree). done.
Qed.

Lemma many_of (l : list Z) s : s ∈ l -> zlen l <> 1 -> (2 <= length l)%nat.
Proof. unfold zlen. destruct l as [|? [|? ?]]; cbn; [by intros ?%elem_of_nil | done | lia]. Qed.

Lemma mget_slots_many args : 0 < zlen args -> zlen (mget_slots args) <> 1 -> (2 <= length (mget_slots args))%nat.
Proof.
  intros Ha. destruct args as [|k args']; [done|]. apply (many_of _ (item_slot [k])). apply slot_listed. by left.
Qed.

(** C5: an MGET of keys that are not empty and lie in at least two slots, given to the cluster
    client, answers like an MGET given to one server that holds all keys. Its parts go to the nodes of their slots, which may share connections;
    when every node answers its parts with the values of their keys, the client returns the
    array of all values in the order of the command, exactly the blocks of that array are
    new in the heap (every other reply was released), and no error and no redirection is
    left in the context. *)
Theorem client_mget (nm : bytes) (args : list bytes) (rest : bytes) (answer : bytes -> value) (st : redisClusterContext C) (route : Z -> handle)
    (Hmem : has_memory) (Hname : command_named nm = CMD_REQ_REDIS_MGET)
    (Hmax : zlen (Format.encode (nm :: args) ++ rest) <= INT_MAX)
    (Hkeys : Forall (fun k => k <> []) args) (Hwhole : forall k, whole (answer k)) (Hargs : 1 < zlen args)
    (Hslots : zlen (mget_slots args) <> 1)
    (Hserved : Forall (fun s => served st s (route s)) (mget_slots args))
    (Htalks : Forall (fun s => talks (cc_conns st) (route s) (speech (mget_part answer args) route (mget_slots args) (route s))) (mget_slots args)) :
  exists l m st', redisClusterFormattedCommand qsort (Format.encode (nm :: args) ++ rest) (zlen (Format.encode (nm :: args))) st = Done (Some l, st') /\
    tree (VArray (zlen args) (map answer args)) l m /\ m ##ₘ cc_heap st /\ cc_heap st' = m ∪ cc_heap st /\ cc_err st' = 0 /\ cc_retry st' = 0.
Proof.
  set (txt := Format.encode (nm :: args)) in *.
  destruct (command_get_ok (cc_ids (cleared st)) Hmem) as (r & i & Eg & Hfr).
  assert (u32 (zlen txt) = zlen txt) as Hu by (rewrite uwrap_small; [done|]; rewrite zlen_app in Hmax; unfold INT_MAX in Hmax; zlen_pos; lia).
  destruct (mget_whole (set_text r (txt ++ rest) (zlen txt)) nm args rest i answer Hmem (fresh_text _ _ _ Hfr) Hname eq_refl eq_refl Hmax Hkeys Hwhole Hslots Hargs)
    as (f & sq & Ef & He & Hfs & Hct & Hsq & Hps & Hpost).
  pose proof (slots_NoDup (items CMD_REQ_REDIS_MGET args)) as Hss. pose proof (mget_slots_many args ltac:(lia) Hslots) as Hmany.
  generalize dependent (mget_slots args). intros ss Hslots Hserved Htalks Hps Hpost Hss Hmany.
  destruct (parts_ready f (mget_part answer args) ss Hps Hss) as [Hready Hnd].
  assert (format_command (txt ++ rest) (zlen txt) (cleared st) = Done (Some (Some f), set_ids (fids f) (cleared st))) as Efc.
  { apply (format_command_spec _ _ _ r i); try done. by rewrite Hu. }
  destruct (execute_parts_spec qsort (mget_part answer args) route (fun c => c ∈ map route ss) (fun _ => []) (fstore f) ss
    (fcommands f) ∅ (set_ids (fids f) (cleared st)) Hready Hnd) as (ls & hs & n & rs & Ee & Ha & Htr & Hll & Hlh & Hm & _).
  { apply Forall_forall. intros s Hs. rewrite Forall_forall in Hserved. pose proof (Hserved s Hs) as Hsv. split_and!; [|done|].
    - unfold cleared. by destruct (negb _).
    - apply list_elem_of_fmap. by exists s. }
  { intros c Hc. apply list_elem_of_fmap in Hc as (s & -> & Hs). rewrite app_nil_r. rewrite Forall_forall in Htalks. pose proof (Htalks s Hs) as Ht.
    unfold cleared. by destruct (negb _). }
  assert (cc_heap (set_ids (fids f) (cleared st)) = cc_heap st) as Hh by (unfold cleared; by destruct (negb _)). rewrite Hh in *.
  destruct (Hpost (fun q => rs !! q) (cc_heap st) ls hs Hm (mget_answered _ _ _ _ _ Hll Hlh Htr) Ha) as (h & l & m & Ep & Ht & Hd & Hfree).
  eexists l, m, _. split; [eapply (formatted_parts st _ _ _ f rs n _ h l (m ∪ cc_heap st) ls Hmem Efc)|].
  - apply Forall2_length in Hready. rewrite <- Hready. exact Hmany.
  - exact Ee.
  - rewrite Hct, Hsq. exact Ep.
  - done.
  - done.
  - split_and!; try done. unfold cleared. destruct (Z.eqb_spec (cc_err st) 0); done.
Qed.

End Theorems.

(** ** The addresses of a cluster *)

Section Addresses.
Context `{Memory} (Hmem : has_memory) {C : Connections}.

(** An address the client can be given in a C string: a host without separators and without a
    NUL, and a port. *)
Definition seed (x : bytes * Z) : Prop := good_addr x /\ (58 ∉ x.1) /\ (44 ∉ x.1) /\ 0 ∉ x.1.

Definition seed_node (x : bytes * Z) : cluster_node := node_init None (address x) (Some x.1) x.2 REDIS_ROLE_NULL None.

(** The dictionary holds a node for every address, and no others. *)
Record configured (xs : list (bytes * Z)) (d : nodes_dict) (mem : nodes_mem) : Prop := {
  cf_wf : Dict.wf d;
  cf_used : Dict.used d <= zlen xs;
  cf_nodes : forall a p, Dict.contents d !! a = Some p -> exists x, x ∈ xs /\ address x = a /\ mem !! p = Some (seed_node x);
  cf_all : forall x, x ∈ xs -> is_Some (Dict.contents d !! address x);
}.

Lemma configured_init mem : configured [] Dict.dictInit mem.
Proof. split; [apply Dict.wf_init | done | done | set_solver]. Qed.

Lemma address_split x : seed x -> split (address x ++ [0]) (zlen (address x)) IP_PORT_SEPARATOR = Some (Some [x.1; dec x.2]).
Proof.
  intros (Hg & Hc & _). pose proof (address_length x Hg) as Hl. rewrite (address_sdec x Hg) in *. destruct Hg as [[Hh _] Hp].
  change (x.1 ++ bstr ":" ++ dec x.2) with (Sds.join_bytes [58] [x.1; dec x.2]) in *.
  apply (split_sds_tokens Hmem 58 [x.1; dec x.2]); [done | | by destruct x.1 | unfold INT_MAX; lia].
  repeat apply Forall_cons_2; [done | apply dec_clean; lia | constructor].
Qed.

(** The state with another dictionary. *)
Abbreviation with_nodes d mem st := (set_nodes (C := C) (Some d) mem st).

Lemma configured_skip xs d mem x : configured xs d mem -> is_Some (Dict.contents d !! address x) -> configured (xs ++ [x]) d mem.
Proof.
  intros [Hw Hu Hn Ha] Hx. split; [done | zl | |].
  - intros a p Hp. destruct (Hn a p Hp) as (y & Hy & ? & ?). exists y. split; [set_solver | done].
  - intros y [Hy| ->%list_elem_of_singleton]%elem_of_app; [by apply Ha | done].
Qed.

Lemma add_node_spec xs x (st : redisClusterContext C) d : seed x -> configured xs d (cc_mem st) -> zlen xs < 2 ^ 30 ->
  match cc_nodes st with Some d' => d' = d | None => d = Dict.dictInit end ->
  exists d' mem', redisClusterSetOptionAddNode (address x) st = Done (Read.REDIS_OK, with_nodes d' mem' st) /\ configured (xs ++ [x]) d' mem'.
Proof.
  intros Hx Hc Hz Hd. pose proof Hx as (Hg & _). pose proof (address_length x Hg) as Hl. unfold redisClusterSetOptionAddNode, bind at 1, get at 1. cbn [obind].
  assert ((match cc_nodes st with Some d => Some d | None => Dict.dictCreate malloc_ok end) = Some d) as ->.
  { destruct (cc_nodes st); [by subst|]. unfold Dict.dictCreate. by rewrite Hmem, Hd. }
  unfold bind at 1, modify at 1. cbn [obind]. rewrite (key_copy_spec Hmem x Hg). unfold need at 1, bind at 1, pure at 1. cbn [obind].
  rewrite (Dict.dictFind_refines d (address x) (cf_wf _ _ _ Hc)). unfold need at 1, bind at 1, pure at 1. cbn [obind].
  destruct (Dict.contents d !! address x) as [p|] eqn:Ec; cbn [fmap option_fmap option_map].
  - exists d, (cc_mem st). split; [done|]. by apply configured_skip.
  - rewrite (address_split x Hx). unfold need at 1, bind at 1, pure at 1. cbn [obind]. destruct Hg as [[Hh _] Hp].
    pose proof (dec_length_pos x.2 ltac:(lia)). rewrite !(proj2 (Z.leb_gt _ _)) by lia. cbn [orb]. rewrite hi_atoi_dec by (unfold INT_MAX; lia).
    rewrite (proj2 (Z.leb_gt _ _)) by lia. rewrite Hmem. cbn [negb].
    destruct (Dict.dictAdd_refines malloc_ok d (address x) (length (cc_mem st)) (cf_wf _ _ _ Hc)) as (d' & r & E & Hw & Hr); [pose proof (cf_used _ _ _ Hc); lia | done |].
    rewrite E. rewrite Ec in Hr. destruct Hr as (_ & Hco & Hu). unfold need, bind at 1, pure at 1. cbn [obind]. unfold bind, modify. cbn [obind].
    exists d', (cc_mem st ++ [seed_node x]). split; [done|]. change (Dict.dictSetHashVal (length (cc_mem st))) with (length (cc_mem st)) in Hco.
    destruct Hc as [_ Hused Hn Ha]. split; [done | zl | |].
    + intros a p Hap. rewrite Hco in Hap. apply lookup_insert_Some in Hap as [[<- <-]|[_ Hap]].
      * exists x. rewrite list_lookup_middle by done. split; [set_solver | done].
      * destruct (Hn a p Hap) as (y & Hy & ? & Hmp). exists y. split; [set_solver|]. split; [done|]. by apply lookup_app_l_Some.
    + intros y Hy. rewrite Hco. destruct (decide (address y = address x)) as [->|Hne]; [by rewrite lookup_insert_eq|].
      rewrite lookup_insert_ne by done. apply elem_of_app in Hy as [Hy| ->%list_elem_of_singleton]; [by apply Ha | done].
Qed.

Lemma add_nodes_loop ys : forall xs (st : redisClusterContext C) d, Forall seed ys -> configured xs d (cc_mem st) -> zlen (xs ++ ys) < 2 ^ 30 ->
  cc_nodes st = Some d ->
  exists d' mem', add_nodes (map address ys) st = Done (Read.REDIS_OK, with_nodes d' mem' st) /\ configured (xs ++ ys) d' mem'.
Proof.
  induction ys as [|y ys IH]; intros xs st d Hf Hc Hz Hd; cbn [map add_nodes].
  - exists d, (cc_mem st). rewrite app_nil_r. split; [|done]. unfold pure. do 2 f_equal. destruct st. cbn in *. by rewrite Hd.
  - apply Forall_cons in Hf as [Hy Hf]. destruct (add_node_spec xs y st d Hy Hc) as (d1 & mem1 & E & Hc1); [zl | by rewrite Hd |].
    unfold bind. rewrite E. cbn [obind]. rewrite Z.eqb_refl. cbn [negb]. rewrite (cons_middle y xs ys), app_assoc in Hz |- *.
    destruct (IH (xs ++ [y]) (with_nodes d1 mem1 st) d1 Hf Hc1 Hz eq_refl) as (d2 & mem2 & E2 & Hc2). exists d2, mem2. split; [exact E2 | exact Hc2].
Qed.

(** C34: the list of addresses a client is started with ("host:port,host:port,...") is taken
    apart into exactly one node per address, with its host and port and without a
    connection; repeated addresses are entered once. Hosts have no separators and no NUL. *)
Theorem add_nodes_spec (xs : list (bytes * Z)) (st : redisClusterContext C)
    (Hseeds : Forall seed xs) (Hne : xs <> []) (Hlen : zlen (Sds.join_bytes CLUSTER_ADDRESS_SEPARATOR (map address xs)) <= INT_MAX)
    (Hcount : zlen xs < 2 ^ 30) (Hnodes : cc_nodes st = None) :
  exists d mem, redisClusterSetOptionAddNodes (Sds.join_bytes CLUSTER_ADDRESS_SEPARATOR (map address xs)) st =
      Done (Read.REDIS_OK, set_nodes (Some d) mem st) /\ Dict.wf d /\
    (forall a p, Dict.contents d !! a = Some p -> exists x, x ∈ xs /\ address x = a /\ mem !! p = Some (seed_node x)) /\
    (forall x, x ∈ xs -> is_Some (Dict.contents d !! address x)).
Proof.
  unfold redisClusterSetOptionAddNodes, CLUSTER_ADDRESS_SEPARATOR in *. change (bstr ",") with [44] in *.
  rewrite (split_tokens Hmem 44 (map address xs) [0]); [|by destruct xs | | by destruct xs as [|[[|? ?] ?] [|? ?]] | done].
  2:{ apply List.Forall_map. eapply Forall_impl; [exact Hseeds|]. intros x (Hg & _ & Hc & _). rewrite (address_sdec x Hg).
      destruct Hg as [_ Hp]. pose proof (dec_digits x.2 ltac:(lia)) as Hd. rewrite Forall_forall in Hd.
      intros [Hin|[Hin|Hin]%elem_of_app]%elem_of_app; [done | by apply list_elem_of_singleton in Hin | by specialize (Hd _ Hin)]. }
  unfold need, bind at 1, pure at 1. cbn [obind]. destruct xs as [|x xs]; [done|]. apply Forall_cons in Hseeds as [Hx Hxs]. cbn [map].
  destruct (add_node_spec [] x st Dict.dictInit Hx (configured_init _) ltac:(done)) as (d1 & mem1 & E & Hc1); [by rewrite Hnodes|].
  cbn [app] in Hc1. destruct (add_nodes_loop xs [x] (with_nodes d1 mem1 st) d1 Hxs Hc1 Hcount eq_refl) as (d2 & mem2 & E2 & [Hw _ Hn Ha]).
  exists d2, mem2. split; [|done]. cbn [add_nodes]. unfold bind. rewrite E. cbn [obind]. rewrite Z.eqb_refl. cbn [negb]. exact E2.
Qed.

End Addresses.

(** ** Demonstrations *)

Section Demo.
#[local] Existing Instance demo_memory.
#[local] Existing Instance demo_sockets.
#[local] Existing Instance demo_laws.

Definition demo_keys : list bytes := [bstr "a"; bstr "b"].
Definition demo_answer (k : bytes) : value := VInt (zlen k).

Lemma demo_slots : slots_of (items CMD_REQ_REDIS_MGET demo_keys) = [3300; 15495].
Proof. vm_cast_no_check (eq_refl [3300; 15495]). Qed.

Definition demo_route (s : Z) : handle := if s =? 3300 then 0%nat else 1%nat.

Definition demo_node_with (c : handle) : cluster_node := with_con (node_init None (bstr "h:7") (Some (bstr "h")) 7 REDIS_ROLE_MASTER None) (Some c).

Definition demo_line : Context.socket := Context.mk_socket [Context.WBytes 100] [Context.RBytes (bstr "*1" ++ CRLF); Context.RBytes (bstr ":1" ++ CRLF)] [].

Definition demo_lines : @conns demo_sockets := mk_network [Some (Context.demo_connection, demo_line); Some (Context.demo_connection, demo_line)] [] [].

Definition demo_client : redisClusterContext demo_sockets :=
  mk_cluster 4 (bstr "old") None 0 0 None None [demo_node_with 0; demo_node_with 1]
    (<[Z.to_nat 3300 := Some 0%nat]> (<[Z.to_nat 15495 := Some 1%nat]> (replicate (Z.to_nat 16384) None))) 1 5 0 None 0 demo_lines ∅ 0.

Lemma demo_talk (c : handle) text : (c < 2)%nat -> 0 < zlen text <= 100 -> talks (cc_conns demo_client) c [(text, VArray 1 [VInt 1])].
Proof.
  intros Hc Hz. exists Context.demo_connection, demo_line, 0. split; [by destruct c as [|[|c]]; [| |lia]|]. split; [done|].
  split; [intros h; by apply (Context.connect_idle Context.demo_connection h Context.demo_connect)|].
  cbn [plays]. split_and!; [unfold Sds.fits, Sds.SDS_MAX_PREALLOC, INT_MAX; lia | split_and!; [done..|]; by apply Forall_cons |].
  exists [], (Context.rplan demo_line), []. split_and!; try done; [| by repeat (apply Forall_cons; split)].
  unfold demo_line. cbn [Context.wplan Context.takes]. rewrite (proj2 (Z.leb_gt _ _)) by lia. by rewrite (proj2 (Z.leb_le _ _)) by lia.
Qed.

Lemma client_mget_witness : exists l m st',
  redisClusterFormattedCommand demo_qsort (Format.encode (bstr "mGet" :: demo_keys) ++ [0]) (zlen (Format.encode (bstr "mGet" :: demo_keys))) demo_client =
    Done (Some l, st') /\
  tree (VArray 2 [VInt 1; VInt 1]) l m /\ cc_heap st' = m ∪ ∅ /\ cc_err st' = 0.
Proof.
  destruct (client_mget demo_qsort (bstr "mGet") demo_keys [0] demo_answer demo_client demo_route demo_has_memory eq_refl) as (l & m & st' & E & Ht & _ & Hh & He & _).
  - done.
  - by repeat constructor.
  - done.
  - done.
  - by rewrite demo_slots.
  - rewrite demo_slots. repeat (apply Forall_cons; split); [| |constructor].
    + by exists 0%nat, (demo_node_with 0).
    + by exists 1%nat, (demo_node_with 1).
  - rewrite demo_slots. repeat (apply Forall_cons; split); [| |constructor].
    + assert (speech (mget_part demo_answer demo_keys) demo_route [3300; 15495] (demo_route 3300) =
        [(Format.encode [bstr "mget"; bstr "b"], VArray 1 [VInt 1])]) as -> by (vm_compute; reflexivity).
      by apply (demo_talk 0); [lia|].
    + assert (speech (mget_part demo_answer demo_keys) demo_route [3300; 15495] (demo_route 15495) =
        [(Format.encode [bstr "mget"; bstr "a"], VArray 1 [VInt 1])]) as -> by (vm_compute; reflexivity).
      by apply (demo_talk 1); [lia|].
  - exists l, m, st'. split; [exact E|]. split; [exact Ht|]. split; [exact Hh | exact He].
Defined.

Definition demo_seeds : list (bytes * Z) := [(bstr "127.0.0.1", 7000); (bstr "127.0.0.1", 7001); (bstr "127.0.0.1", 7000)].

Definition demo_empty : redisClusterContext demo_sockets :=
  mk_cluster 0 [] None 0 0 None None [] [] 0 5 0 None 0 (mk_network [] [] [] : @conns demo_sockets) ∅ 0.

Lemma demo_seed host n : 0 < zlen host <= 2 ^ 20 -> 1 <= n <= 65535 -> forallb (fun c => negb ((c =? 58) || (c =? 44) || (c =? 0))) host = true -> seed (host, n).
Proof.
  intros Hh Hn Hb. split; [done|]. rewrite forallb_forall in Hb. split_and!; intros Hin; apply list_elem_of_In, Hb in Hin; done.
Qed.

Lemma add_nodes_spec_witness : exists d mem,
  redisClusterSetOptionAddNodes (bstr "127.0.0.1:7000,127.0.0.1:7001,127.0.0.1:7000") demo_empty = Done (Read.REDIS_OK, set_nodes (Some d) mem demo_empty) /\ Dict.wf d /\
  (forall a p, Dict.contents d !! a = Some p -> exists x, x ∈ demo_seeds /\ address x = a /\ mem !! p = Some (seed_node x)) /\
  (forall x, x ∈ demo_seeds -> is_Some (Dict.contents d !! address x)).
Proof.
  apply (add_nodes_spec demo_has_memory demo_seeds demo_empty); try done.
  repeat (apply Forall_cons; split); [by apply demo_seed.. | constructor].
Defined.

(** The nodes of the two slots answer their parts of an MGET, one of them with an error. *)
Definition demo_refusal : Context.socket := Context.mk_socket [Context.WBytes 100] [Context.RBytes (bstr "-ERR no" ++ CRLF)] [].

Definition demo_refused : redisClusterContext demo_sockets :=
  set_conns (mk_network [Some (Context.demo_connection, demo_refusal); Some (Context.demo_connection, demo_line)] [] [] : @conns demo_sockets) ∅ demo_client.

(** A reply that is released before it is returned: when a part of an appended command is
    answered with an error, [redisClusterGetReply] reports success and returns the error
    reply of the part, which it has just released together with the part. *)
Theorem get_reply_released :
  match bind (redisClusterAppendFormattedCommand (Format.encode (bstr "MGET" :: demo_keys) ++ [0]) (zlen (Format.encode (bstr "MGET" :: demo_keys))))
          (fun _ => redisClusterGetReply) demo_refused with
  | Done ((ret, Some l), st) => ret = Read.REDIS_OK /\ cc_heap st !! l = None
  | _ => False
  end.
Proof. vm_compute. by split. Qed.

End Demo.

End Client.
