(* ===== verification/Pipe.v ===== *)
(** Pipelines of the cluster client, hircluster.c: commands that are appended for the nodes of
    their slots, over any number of connections, get their replies in the order in which they
    were appended. *)
From S2P Require Import Prelude Crc16 HiUtil HiArray Dict Sds Read Format Command Reply Frag Gather Route Nodes Context Conn Cluster Redirect Client.
Import HiUtil Command Reply.

Open Scope Z_scope.

Module Pipe.

Import Frag Gather Route Nodes Conn Cluster Redirect Client.

(** A command, its key, and the value that the server of the key will answer. *)
Record request := mk_request { rname : bytes; rargs : list bytes; rkey : bytes; rvalue : value }.

Definition request_text (x : request) : bytes := Format.encode (rname x :: rargs x).
Definition request_slot (x : request) : Z := Crc16.keyHashSlot (rkey x).

(** A command with one key. *)
Definition one_key (x : request) : Prop :=
  rname x <> [] /\ rkey x <> [] /\ (exists t, command_of (rname x) (rargs x) = Some (t, [rkey x])) /\ zlen (request_text x ++ [0]) <= INT_MAX.

Section Drivers.
Context `{Memory} {C : Connections}.

(** All commands are appended, and then as many replies are fetched. *)
Fixpoint append_requests (xs : list request) : M Z :=
  match xs with
  | [] => pure Read.REDIS_OK
  | x :: xs' =>
      let% ret := redisClusterAppendFormattedCommand (request_text x ++ [0]) (zlen (request_text x)) in
      if ret =? Read.REDIS_OK then append_requests xs' else pure ret
  end.

Fixpoint get_all (k : nat) : M (list (Z * option loc)) :=
  match k with
  | O => pure []
  | S k' => let% r := redisClusterGetReply in let% rs := get_all k' in pure (r :: rs)
  end.

End Drivers.

Section Pipelines.
Context `{Memory} (Hmem : has_memory) {C : Connections} {L : PipeLaws C} (route : Z -> handle).

Abbreviation cluster := (redisClusterContext C).

(** What a connection is asked by these requests. *)
Abbreviation routed_to c := (filter (fun x => route (request_slot x) = c)).
Abbreviation asked c xs := (map (fun x => (request_text x, rvalue x)) (routed_to c xs)).
Abbreviation answered c xs := (map rvalue (routed_to c xs)).

Lemma asks_ok (st : cluster) c todo owed : asks (cc_conns st) c todo owed -> exists msg, context_error c st = Done ((0, msg), st).
Proof.
  intros Ha. apply asks_error in Ha. unfold context_error, bind, get. cbn. destruct (con_error _ _) as [[e msg]|]; [|done].
  cbn in Ha. injection Ha as ->. by exists msg.
Qed.

Lemma ctx_open (st : cluster) c todo owed p n : asks (cc_conns st) c todo owed -> cc_mem st !! p = Some n -> con n = Some c ->
  ctx_get_by_node p st = Done (Some c, st).
Proof.
  intros Ha Hp Hc. destruct (asks_ok st c todo owed Ha) as [msg Ee]. unfold ctx_get_by_node, bind at 1, get at 1. cbn [obind].
  rewrite Hp. unfold need at 1, bind at 1, pure at 1. cbn [obind]. rewrite Hc. unfold bind at 1. rewrite Ee. by cbn.
Qed.

Lemma bind_done {A B} (m : M A) (k : A -> M B) (st : cluster) a st' : m st = Done (a, st') -> bind m k st = k a st'.
Proof. intros E. unfold bind. by rewrite E. Qed.

Lemma append_command_ok (st : cluster) x (r : cmd) todo owed : Command.slot_num r = request_slot x -> clen r = zlen (request_text x) ->
  served st (request_slot x) (route (request_slot x)) -> asks (cc_conns st) (route (request_slot x)) ((request_text x, rvalue x) :: todo) owed ->
  exists n, append_command r (request_text x ++ [0]) st = Done (Read.REDIS_OK, set_conns n (cc_heap st) st) /\
    asks n (route (request_slot x)) todo (owed ++ [rvalue x]) /\
    forall c' todo' owed', c' <> route (request_slot x) -> asks (cc_conns st) c' todo' owed' -> asks n c' todo' owed'.
Proof.
  intros Hsl Hcl (p & nd & Ht & Hp & Hc) Ha. destruct (asks_append _ _ _ _ _ _ (request_text x ++ [0]) Ha) as (n & Ea & Ha2 & Ho); [by apply take_app_length|].
  destruct (asks_ok st _ _ _ Ha) as [msg Ee]. exists n. split_and!; try done. unfold append_command. rewrite Hsl, Hcl.
  rewrite (bind_done _ _ st st st) by done. rewrite Ht. rewrite (bind_done _ _ st (Some p) st) by done.
  rewrite (bind_done _ _ _ _ _ (ctx_open st _ _ _ p nd Ha Hp Hc)).
  rewrite (bind_done _ _ st (Some (route (request_slot x))) st) by (unfold usable; by rewrite (bind_done _ _ _ _ _ Ee)).
  rewrite (bind_done _ _ st Read.REDIS_OK (set_conns n (cc_heap st) st)); [done|].
  unfold appendCommand. rewrite (bind_done _ _ st st st) by done. by rewrite Ea.
Qed.

Lemma format_one (st : cluster) x : one_key x ->
  exists f i, format_command (request_text x ++ [0]) (zlen (request_text x)) st = Done (Some (Some f), set_ids i st) /\
    fcommands f = [] /\ Command.slot_num (fcmd f) = request_slot x /\ clen (fcmd f) = zlen (request_text x).
Proof.
  intros (Hn & Hk & (t & Hc) & Hmax). set (txt := request_text x) in *. destruct (command_get_ok (cc_ids st) Hmem) as (r & i & Eg & Hfr).
  assert (u32 (zlen txt) = zlen txt) as Hu by (rewrite uwrap_small; [done|]; rewrite zlen_app in Hmax; unfold INT_MAX in Hmax; zlen_pos; lia).
  destruct (format_by_slot_text (set_text r (txt ++ [0]) (zlen txt)) (rname x) (rargs x) [0] i Hmem (fresh_text _ _ _ Hfr) Hn eq_refl eq_refl Hmax) as (f & Ef & Hf).
  { intros t' ks E. rewrite Hc in E. injection E as <- <-. by apply Forall_cons. }
  rewrite Hc in Hf. destruct Hf as (Hfs & He & Hcm & Hsl & _ & Hcl). exists f, (fids f). split_and!; try done.
  apply (format_command_spec _ _ _ r i); try done; [by rewrite Hu|]. rewrite Hfs. apply Crc16.keyHashSlot_range.
Qed.

Lemma append_one (st : cluster) x todo owed : one_key x -> served st (request_slot x) (route (request_slot x)) ->
  asks (cc_conns st) (route (request_slot x)) ((request_text x, rvalue x) :: todo) owed ->
  exists f i n, redisClusterAppendFormattedCommand (request_text x ++ [0]) (zlen (request_text x)) st =
      Done (Read.REDIS_OK, set_requests (Some (default [] (cc_requests st) ++ [f])) (set_ids i (set_conns n (cc_heap st) st))) /\
    Command.slot_num (fcmd f) = request_slot x /\ asks n (route (request_slot x)) todo (owed ++ [rvalue x]) /\
    forall c' todo' owed', c' <> route (request_slot x) -> asks (cc_conns st) c' todo' owed' -> asks n c' todo' owed'.
Proof.
  intros Hx Hs Ha. set (l := default [] (cc_requests st)).
  destruct (format_one (set_requests (Some l) st) x Hx) as (f & i & Ef & Hcm & Hsl & Hcl).
  destruct (append_command_ok (set_ids i (set_requests (Some l) st)) x (fcmd f) todo owed Hsl Hcl Hs Ha) as (n & Ea & Ha2 & Ho).
  exists f, i, n. split_and!; try done. unfold redisClusterAppendFormattedCommand. rewrite (bind_done _ _ st st st) by done.
  assert ((match cc_requests st with Some l => Some l | None => if malloc_ok list_size then Some [] else None end) = Some l) as ->.
  { unfold l. destruct (cc_requests st); [done|]. by rewrite Hmem. }
  rewrite (bind_done _ _ st tt (set_requests (Some l) st)) by done. rewrite (bind_done _ _ _ _ _ Ef). rewrite Hcm.
  rewrite (bind_done _ _ _ _ _ Ea). change (Read.REDIS_OK =? Read.REDIS_OK) with true. cbn [negb]. by rewrite Hmem.
Qed.

(** The state after more requests. *)
Lemma append_requests_spec xs : forall (P : handle -> Prop) (owed : handle -> list value) (st : cluster), Forall one_key xs ->
  Forall (fun x => served st (request_slot x) (route (request_slot x)) /\ P (route (request_slot x))) xs ->
  (forall c, P c -> asks (cc_conns st) c (asked c xs) (owed c)) ->
  exists fs i n, append_requests xs (set_requests (Some (default [] (cc_requests st))) st) =
      Done (Read.REDIS_OK, set_requests (Some (default [] (cc_requests st) ++ fs)) (set_ids i (set_conns n (cc_heap st) st))) /\
    Forall2 (fun x f => Command.slot_num (fcmd f) = request_slot x) xs fs /\ forall c, P c -> asks n c [] (owed c ++ answered c xs).
Proof.
  induction xs as [|x xs IH]; intros P owed st Hk Hs Ha.
  - exists [], (cc_ids st), (cc_conns st). rewrite app_nil_r. split; [by destruct st|]. split; [done|]. intros c Hc. rewrite app_nil_r. by apply Ha.
  - apply Forall_cons in Hk as [Hx Hk]. apply Forall_cons in Hs as [[Hsx HP] Hs]. set (c0 := route (request_slot x)) in *.
    pose proof (Ha c0 HP) as Ha0. rewrite filter_cons_True in Ha0 by done. cbn [map] in Ha0.
    destruct (append_one (set_requests (Some (default [] (cc_requests st))) st) x _ _ Hx Hsx Ha0) as (f & i & n & E & Hsl & Ha1 & Ho). fold c0 in Ha1, Ho.
    set (st1 := set_ids i (set_conns n (cc_heap st) st)).
    destruct (IH P (fun c => owed c ++ answered c [x]) (set_requests (Some (default [] (cc_requests st) ++ [f])) st1) Hk) as (fs & i' & n' & E' & Hfs & Ha').
    { eapply Forall_impl; [exact Hs|]. done. }
    { intros c Hc. destruct (decide (c = c0)) as [->|Hne].
      - rewrite filter_cons_True by done. exact Ha1.
      - rewrite filter_cons_False by (intros Hx'; by apply Hne). cbn [map app filter list_filter]. rewrite app_nil_r. apply Ho; [done|]. pose proof (Ha c Hc) as Hac.
        rewrite filter_cons_False in Hac by (intros Hx'; by apply Hne). exact Hac. }
    exists (f :: fs), i', n'. split_and!.
    + cbn [append_requests]. rewrite (bind_done _ _ _ _ _ E). change (Read.REDIS_OK =? Read.REDIS_OK) with true. 
      change (default [] (cc_requests (set_requests (Some (default [] (cc_requests st) ++ [f])) st1))) with (default [] (cc_requests st) ++ [f]) in E'.
      rewrite <- app_assoc in E'. exact E'.
    + by constructor.
    + intros c Hc. specialize (Ha' c Hc). rewrite <- app_assoc, <- map_app, <- filter_app in Ha'. exact Ha'.
Qed.

Lemma append_fresh (st : cluster) cmd len :
  redisClusterAppendFormattedCommand cmd len st = redisClusterAppendFormattedCommand cmd len (set_requests (Some (default [] (cc_requests st))) st).
Proof.
  unfold redisClusterAppendFormattedCommand. rewrite !(bind_done _ _ _ _ _ (eq_refl : get _ = Done (_, _))). cbn [cc_requests set_requests].
  destruct (cc_requests st) as [l|]; unfold default; cbn [from_option]; unfold Datatypes.id; rewrite ?Hmem; by rewrite !(bind_done _ _ _ _ _ (eq_refl : modify _ _ = Done (_, _))).
Qed.

Lemma append_requests_some xs (P : handle -> Prop) (owed : handle -> list value) (st : cluster) : Forall one_key xs -> xs <> [] ->
  Forall (fun x => served st (request_slot x) (route (request_slot x)) /\ P (route (request_slot x))) xs ->
  (forall c, P c -> asks (cc_conns st) c (asked c xs) (owed c)) ->
  exists fs i n, append_requests xs st = Done (Read.REDIS_OK, set_requests (Some (default [] (cc_requests st) ++ fs)) (set_ids i (set_conns n (cc_heap st) st))) /\
    Forall2 (fun x f => Command.slot_num (fcmd f) = request_slot x) xs fs /\ forall c, P c -> asks n c [] (owed c ++ answered c xs).
Proof.
  intros Hk Hne Hs Ha. destruct (append_requests_spec xs P owed st Hk Hs Ha) as (fs & i & n & E & Hfs & Ha'). exists fs, i, n. split; [|done].
  destruct xs as [|x xs]; [done|]. cbn [append_requests] in E |- *. unfold bind at 1 in E. unfold bind at 1. by rewrite append_fresh.
Qed.

(** A MOVED among the replies. *)
Definition moves (vs : list value) : bool := existsb (fun v => kind_of v =? CLUSTER_ERR_MOVED) vs.

Lemma get_one (st : cluster) f l v owed c : cc_requests st = Some (f :: l) -> 0 <= Command.slot_num (fcmd f) -> served st (Command.slot_num (fcmd f)) c ->
  asks (cc_conns st) c [] (v :: owed) ->
  exists ll m n st', redisClusterGetReply st = Done ((Read.REDIS_OK, Some ll), st') /\ tree v ll m /\ m ##ₘ cc_heap st /\ asks n c [] owed /\
    (forall c' todo' owed', c' <> c -> asks (cc_conns st) c' todo' owed' -> asks n c' todo' owed') /\
    st' = set_need_update (if moves [v] then 1 else cc_need_update st) (cc_retry st) (set_conns n (m ∪ cc_heap st) (set_requests (Some l) (set_err (0, []) st))).
Proof.
  intros Hr Hs0 (p & nd & Ht & Hp & Hc) Ha. destruct (asks_reply _ _ _ _ (cc_heap st) Ha) as (ll & m & n & Er & Htr & Hd & Ha2 & Ho).
  set (st1 := set_requests (Some l) (set_err (0, []) st)). set (st2 := set_conns n (m ∪ cc_heap st) st1).
  exists ll, m, n, (set_need_update (if moves [v] then 1 else cc_need_update st) (cc_retry st) st2). split_and!; try done.
  unfold redisClusterGetReply. rewrite (bind_done _ _ st tt (set_err (0, []) st)) by done. rewrite (bind_done _ _ _ (set_err (0, []) st) (set_err (0, []) st)) by done.
  cbn [cc_requests set_err]. rewrite Hr, (proj2 (Z.leb_le _ _)) by done. rewrite (bind_done _ _ _ tt st1) by done.
  unfold get_reply. rewrite (proj2 (Z.ltb_ge _ _)) by done. rewrite (bind_done _ _ st1 st1 st1) by done. change (cc_table st1) with (cc_table st). rewrite Ht.
  rewrite (bind_done _ _ st1 (Some p) st1) by done. rewrite (bind_done _ _ _ _ _ (ctx_open st1 c _ _ p nd Ha Hp Hc)).
  destruct (asks_ok st1 c _ _ Ha) as [msg Ee]. rewrite (bind_done _ _ _ _ _ Ee). cbn [fst]. change (0 =? 0) with true. cbn [negb].
  rewrite (bind_done _ _ st1 (Read.REDIS_OK, Some ll) st2).
  2:{ unfold getReply. rewrite (bind_done _ _ st1 st1 st1) by done. change (cc_heap st1) with (cc_heap st). change (cc_conns st1) with (cc_conns st). by rewrite Er. }
  change (Read.REDIS_OK =? Read.REDIS_OK) with true. cbn [negb]. rewrite (bind_done _ _ st2 st2 st2) by done.
  cbn [cc_heap st2 set_conns]. rewrite (tree_kind v ll m _ Htr). rewrite (bind_done _ _ st2 (kind_of v) st2) by done. cbn [moves existsb]. rewrite orb_false_r.
  destruct (kind_of v =? CLUSTER_ERR_MOVED); [by rewrite (bind_done _ _ st2 tt (set_need_update 1 (cc_retry st2) st2)) | by rewrite (bind_done _ _ st2 tt st2)].
Qed.

(** The replies of all requests. *)
Lemma get_all_spec xs : forall (P : handle -> Prop) fs (st : cluster), cc_requests st = Some fs ->
  Forall2 (fun x f => Command.slot_num (fcmd f) = request_slot x) xs fs ->
  Forall (fun x => served st (request_slot x) (route (request_slot x)) /\ P (route (request_slot x))) xs ->
  (forall c, P c -> asks (cc_conns st) c [] (answered c xs)) -> cc_err st = 0 ->
  exists ls m st', get_all (length xs) st = Done (map (fun l => (Read.REDIS_OK, Some l)) ls, st') /\ trees (map rvalue xs) (map Some ls) m /\ m ##ₘ cc_heap st /\
    cc_heap st' = m ∪ cc_heap st /\ cc_requests st' = Some [] /\ cc_err st' = 0 /\
    cc_need_update st' = (if moves (map rvalue xs) then 1 else cc_need_update st) /\ forall c, P c -> asks (cc_conns st') c [] [].
Proof.
  induction xs as [|x xs IH]; intros P fs st Hr Hf Hs Ha He.
  - apply Forall2_nil_inv_l in Hf as ->. exists [], ∅, st. rewrite (left_id_L ∅ (∪)). split_and!; try done; [constructor | apply map_disjoint_empty_l].
  - apply Forall2_cons_inv_l in Hf as (f & fs' & Hsl & Hf & ->). apply Forall_cons in Hs as [[Hsx HP] Hs]. set (c0 := route (request_slot x)) in *.
    pose proof (Ha c0 HP) as Ha0. rewrite filter_cons_True in Ha0 by done. cbn [map] in Ha0. rewrite <- Hsl in Hsx.
    destruct (get_one st f fs' (rvalue x) (answered c0 xs) c0 Hr) as (l & m & n & st1 & E & Htr & Hd & Ha1 & Ho & Hst1); [rewrite Hsl; apply Crc16.keyHashSlot_range | done | exact Ha0|].
    destruct (IH P fs' st1) as (ls & m' & st' & E' & Htrs & Hd' & Hh & Hrq & He' & Hnu & Ha'); [by rewrite Hst1 | done | | | by rewrite Hst1 |].
    { eapply Forall_impl; [exact Hs|]. rewrite Hst1. done. }
    { intros c Hc. rewrite Hst1. cbn [cc_conns set_need_update set_conns]. destruct (decide (c = c0)) as [->|Hne]; [exact Ha1|]. apply Ho; [done|].
      pose proof (Ha c Hc) as Hac. rewrite filter_cons_False in Hac by (intros Hx'; by apply Hne). exact Hac. }
    assert (cc_heap st1 = m ∪ cc_heap st) as Hh1 by (by rewrite Hst1). rewrite Hh1 in *. apply map_disjoint_union_r in Hd' as [Hd1 Hd2].
    exists (l :: ls), (m ∪ m'), st'. split_and!; try done.
    + cbn [length get_all]. rewrite (bind_done _ _ _ _ _ E), (bind_done _ _ _ _ _ E'). done.
    + cbn [map]. by constructor.
    + by apply map_disjoint_union_l.
    + rewrite Hh, (assoc_L (∪)). f_equal. by apply map_union_comm.
    + rewrite Hnu, Hst1. cbn [cc_need_update set_need_update map moves existsb]. destruct (kind_of _ =? _); cbn [orb]; [|done]. fold (moves (map rvalue xs)). by destruct (moves _).
Qed.

(** C7: a pipeline over a cluster keeps its order. Commands with one key each are appended,
    the connection of the slot of each takes its text; then as many calls of
    [redisClusterGetReply] return, one after the other, the trees of the answers to the
    commands in the order in which they were appended, however the commands are spread over
    the connections. Exactly the blocks of these trees are new in the heap, no request is
    left, and a MOVED among the answers is noted for the next update of the route. Memory can
    be allocated throughout. *)
Theorem client_pipeline (xs : list request) (st : cluster)
    (Hkeys : Forall one_key xs) (Hsome : xs <> []) (Hfresh : default [] (cc_requests st) = []) (Herr : cc_err st = 0)
    (Hserved : Forall (fun x => served st (request_slot x) (route (request_slot x))) xs)
    (Hasks : Forall (fun x => asks (cc_conns st) (route (request_slot x)) (asked (route (request_slot x)) xs) []) xs) :
  exists st1 ls m st2, append_requests xs st = Done (Read.REDIS_OK, st1) /\ cc_heap st1 = cc_heap st /\
    get_all (length xs) st1 = Done (map (fun l => (Read.REDIS_OK, Some l)) ls, st2) /\
    trees (map rvalue xs) (map Some ls) m /\ m ##ₘ cc_heap st /\ cc_heap st2 = m ∪ cc_heap st /\
    cc_requests st2 = Some [] /\ cc_err st2 = 0 /\ cc_need_update st2 = if moves (map rvalue xs) then 1 else cc_need_update st.
Proof.
  set (P := fun c => exists x, x ∈ xs /\ c = route (request_slot x)). rewrite Forall_forall in Hasks.
  assert (Forall (fun x => served st (request_slot x) (route (request_slot x)) /\ P (route (request_slot x))) xs) as Hs.
  { apply Forall_forall. intros x Hx. rewrite Forall_forall in Hserved. split; [by apply Hserved | by exists x]. }
  destruct (append_requests_some xs P (fun _ => []) st Hkeys Hsome Hs) as (fs & i & n & E & Hfs & Ha); [intros c (x & Hx & ->); by apply Hasks|].
  rewrite Hfresh in E. cbn [app] in E.
  destruct (get_all_spec xs P fs (set_requests (Some fs) (set_ids i (set_conns n (cc_heap st) st)))) as (ls & m & st2 & E2 & Ht & Hd & Hh & Hr & He & Hn & _); try done.
  exists (set_requests (Some fs) (set_ids i (set_conns n (cc_heap st) st))), ls, m, st2. split; [exact E | by split_and!].
Qed.

End Pipelines.

(** ** Giving up a pipeline *)

Section Reset.
Context `{Memory} (Hmem : has_memory) {C : Connections} {L : PipeLaws C} (qsort : list (option cluster_slot) -> list (option cluster_slot)) (route : Z -> handle).

Abbreviation cluster := (redisClusterContext C).
Abbreviation answered c xs := (map rvalue (filter (fun x => route (request_slot x) = c) xs)).
Abbreviation asked c xs := (map (fun x => (request_text x, rvalue x)) (filter (fun x => route (request_slot x) = c) xs)).

(** Every node is known and connected. *)
Definition all_connected (d : nodes_dict) (mem : nodes_mem) (P : handle -> Prop) : Prop :=
  forall k q, Dict.contents d !! k = Some q -> exists n c, mem !! q = Some n /\ con n = Some c /\ P c.

Lemma send_loop_spec (P : handle -> Prop) (owed : handle -> list value) d f : forall it (st : cluster), nodes_ok d (cc_mem st) -> all_connected d (cc_mem st) P ->
  Dict.iter_ok d it -> (forall e, e ∈ Dict.remaining d it -> e ∈ concat (Dict.table d)) -> (length (Dict.remaining d it) < f)%nat ->
  (forall c, P c -> asks (cc_conns st) c [] (owed c)) ->
  exists n, send_loop f d it st = Done (Read.REDIS_OK, set_conns n (cc_heap st) st) /\ forall c, P c -> asks n c [] (owed c).
Proof.
  induction f as [|f IH]; intros it st Hok Hcon Hi Hin Hl Ha; [lia|]. cbn [send_loop].
  destruct (Dict.dictNext_spec d it (no_wf _ _ Hok) (no_size _ _ Hok) Hi) as (r & it' & -> & Hr). rewrite (bind_done _ _ st (r, it') st) by done. destruct r as [[k p]|].
  2:{ exists (cc_conns st). split; [by destruct st | done]. }
  destruct Hr as [Hr Hi']. rewrite Hr in Hin, Hl. cbn [length] in Hl.
  assert (Dict.contents d !! k = Some p) as Hk by (apply contents_entry; [apply Hok|]; apply Hin; by left).
  destruct (Hcon k p Hk) as (nd & c & Hp & Hc & HP). pose proof (Ha c HP) as Hac. rewrite (bind_done _ _ _ _ _ (ctx_open st c _ _ p nd Hac Hp Hc)).
  rewrite (bind_done _ _ st st st) by done. rewrite (asks_blocking _ _ _ _ Hac). rewrite (bind_done _ _ st true st) by done.
  destruct (asks_flush _ _ _ Hac) as (n & Ef & Ha1 & Ho). rewrite (bind_done _ _ st Read.REDIS_OK (set_conns n (cc_heap st) st)).
  2:{ unfold flush. rewrite (bind_done _ _ st st st) by done. by rewrite Ef. }
  change (Read.REDIS_OK =? Read.REDIS_ERR) with false.
  destruct (IH it' (set_conns n (cc_heap st) st) Hok Hcon Hi') as (n' & E & Ha'); [intros e He; apply Hin; by right | lia | | by exists n'].
  intros c' Hc'. destruct (decide (c' = c)) as [->|Hne]; [done|]. apply Ho; [done|]. by apply Ha.
Qed.

Lemma send_all_spec (P : handle -> Prop) (owed : handle -> list value) d (st : cluster) : cc_nodes st = Some d -> nodes_ok d (cc_mem st) -> all_connected d (cc_mem st) P ->
  (forall c, P c -> asks (cc_conns st) c [] (owed c)) ->
  exists n, redisCLusterSendAll st = Done (Read.REDIS_OK, set_conns n (cc_heap st) st) /\ forall c, P c -> asks n c [] (owed c).
Proof.
  intros Hd Hok Hcon Ha. unfold redisCLusterSendAll. rewrite (bind_done _ _ st st st) by done. rewrite Hd. unfold Dict.dictGetIterator. rewrite Hmem.
  rewrite (bind_done _ _ st (Dict.mk_iter (-1) [] []) st) by done. apply send_loop_spec; try done; [by right | apply Nat.lt_succ_diag_r].
Qed.

(** The replies are fetched and released. *)
Lemma drain_spec xs : forall (P : handle -> Prop) fs (st : cluster), cc_requests st = Some fs ->
  Forall2 (fun x f => Command.slot_num (fcmd f) = request_slot x) xs fs ->
  Forall (fun x => served st (request_slot x) (route (request_slot x)) /\ P (route (request_slot x))) xs ->
  (forall c, P c -> asks (cc_conns st) c [] (answered c xs)) ->
  exists n, drain (S (length fs)) st = Done (tt, set_need_update (if moves (map rvalue xs) then 1 else cc_need_update st) (cc_retry st)
      (set_conns n (cc_heap st) (set_requests (Some []) (set_err (0, []) st)))) /\ forall c, P c -> asks n c [] [].
Proof.
  induction xs as [|x xs IH]; intros P fs st Hr Hf Hs Ha.
  - apply Forall2_nil_inv_l in Hf as ->. exists (cc_conns st). split; [|done]. cbn [length drain].
    rewrite (bind_done _ _ st (Read.REDIS_OK, None) (set_err (0, []) st)).
    + rewrite Z.eqb_refl. unfold freeReply. destruct st. cbn in *. by rewrite Hr.
    + unfold redisClusterGetReply. rewrite (bind_done _ _ st tt (set_err (0, []) st)) by done. rewrite (bind_done _ _ _ (set_err (0, []) st) (set_err (0, []) st)) by done.
      cbn [cc_requests set_err]. by rewrite Hr.
  - apply Forall2_cons_inv_l in Hf as (f & fs' & Hsl & Hf & ->). apply Forall_cons in Hs as [[Hsx HP] Hs]. set (c0 := route (request_slot x)) in *.
    pose proof (Ha c0 HP) as Ha0. rewrite filter_cons_True in Ha0 by done. cbn [map] in Ha0. rewrite <- Hsl in Hsx.
    destruct (get_one st f fs' (rvalue x) (answered c0 xs) c0 Hr) as (l & m & n & st1 & E & Htr & Hd & Ha1 & Ho & Hst1); [rewrite Hsl; apply Crc16.keyHashSlot_range | done | exact Ha0|].
    set (st2 := set_conns n (cc_heap st) st1).
    destruct (IH P fs' st2) as (n' & E' & Ha'); [unfold st2; by rewrite Hst1 | done | | |].
    { eapply Forall_impl; [exact Hs|]. unfold st2. rewrite Hst1. done. }
    { intros c Hc. cbn [cc_conns st2 set_conns]. destruct (decide (c = c0)) as [->|Hne]; [exact Ha1|]. apply Ho; [done|].
      pose proof (Ha c Hc) as Hac. rewrite filter_cons_False in Hac by (intros Hx'; by apply Hne). exact Hac. }
    exists n'. split; [|done]. cbn [length drain] in E' |- *. rewrite (bind_done _ _ _ _ _ E). rewrite Z.eqb_refl.
    rewrite (bind_done _ _ st1 tt st2).
    2:{ unfold freeReply. rewrite (bind_done _ _ st1 st1 st1) by done. assert (cc_heap st1 = m ∪ cc_heap st) as -> by (by rewrite Hst1).
        rewrite (freeReplyObject_tree _ _ _ _ Htr Hd). unfold st2. by rewrite Hst1. }
    rewrite E'. unfold st2. rewrite Hst1. cbn [cc_need_update set_need_update set_conns map moves existsb]. fold (moves (map rvalue xs)).
    do 2 f_equal. destruct (kind_of _ =? _), (moves _); by destruct st.
Qed.

(** C16: a pipeline can be given up. After commands with one key each were appended for
    connected nodes, when no update of the route is pending and none of the answers is a
    MOVED, [redisClusterReset] writes what is left to be written, fetches every reply that is owed
    and releases it: the heap is as it was before, no request and no error is left, and
    every connection has nothing more to send or to fetch, so that the next command gets its
    own reply. Memory can be allocated throughout. *)
Theorem reset_releases (xs : list request) (st : cluster) (d : nodes_dict) (P : handle -> Prop)
    (Hkeys : Forall one_key xs) (Hsome : xs <> []) (Hfresh : default [] (cc_requests st) = []) (Herr : cc_err st = 0)
    (Hserved : Forall (fun x => served st (request_slot x) (route (request_slot x)) /\ P (route (request_slot x))) xs)
    (Hasks : forall c, P c -> asks (cc_conns st) c (asked c xs) [])
    (Hnodes : cc_nodes st = Some d) (Hok : nodes_ok d (cc_mem st)) (Hcon : all_connected d (cc_mem st) P)
    (Hstay : moves (map rvalue xs) = false) (Hupdate : cc_need_update st = 0) :
  exists st1 st2, append_requests xs st = Done (Read.REDIS_OK, st1) /\ redisClusterReset qsort st1 = Done (tt, st2) /\
    cc_heap st2 = cc_heap st /\ cc_requests st2 = None /\ cc_err st2 = 0 /\ forall c, P c -> asks (cc_conns st2) c [] [].
Proof.
  destruct (append_requests_some Hmem route xs P (fun _ => []) st Hkeys Hsome Hserved Hasks) as (fs & i & n & E & Hfs & Ha).
  rewrite Hfresh in E. cbn [app] in E, Ha. set (st1 := set_requests (Some fs) (set_ids i (set_conns n (cc_heap st) st))) in *.
  destruct (send_all_spec P (fun c => answered c xs) d st1 Hnodes Hok Hcon Ha) as (n1 & E1 & Ha1).
  destruct (drain_spec xs P fs (set_conns n1 (cc_heap st) st1) eq_refl Hfs Hserved Ha1) as (n2 & E2 & Ha2). rewrite Hstay in E2.
  set (st2 := set_need_update _ _ _) in E2. exists st1, (set_requests None st2). split; [done|]. split; [|done].
  unfold redisClusterReset. rewrite (bind_done _ _ st1 st1 st1) by done. change (cc_nodes st1) with (cc_nodes st). rewrite Hnodes.
  change (cc_err st1) with (cc_err st). rewrite Herr. change (0 =? 0) with true. cbn [negb].
  rewrite (bind_done _ _ st1 tt st2).
  2:{ rewrite (bind_done _ _ _ _ _ E1). exact E2. }
  rewrite (bind_done _ _ st2 tt (set_requests None st2)) by done. rewrite (bind_done _ _ _ (set_requests None st2) (set_requests None st2)) by done.
  change (cc_need_update (set_requests None st2)) with (cc_need_update st). by rewrite Hupdate.
Qed.

End Reset.

(** ** A concrete pipeline *)

Section Demo.
#[local] Existing Instance demo_memory.
#[local] Existing Instance demo_sockets.
#[local] Instance demo_pipes : PipeLaws demo_sockets := sockets_pipes demo_has_memory Context.demo_strerror demo_vsnprintf.

(** Two of three commands go to the same node. *)
Definition demo_get (k : bytes) (v : value) : request := mk_request (bstr "GET") [k] k v.
Definition demo_requests : list request := [demo_get (bstr "b") (VInt 1); demo_get (bstr "a") VNil; demo_get (bstr "b") (VInt 3)].

(** Its two replies arrive in one piece, but for their last byte. *)
Definition demo_pipe (c : handle) : Context.socket :=
  if decide (c = 0%nat)
  then Context.mk_socket [Context.WBytes 15; Context.WErr Context.EINTR; Context.WBytes 100] [Context.RBytes (bstr ":1" ++ CRLF ++ bstr ":3" ++ [13]); Context.RBytes [10]] []
  else Context.mk_socket [Context.WBytes 100] [Context.RBytes (resp VNil)] [].

Definition demo_pipe_conns : @conns demo_sockets := mk_network [Some (Context.demo_connection, demo_pipe 0); Some (Context.demo_connection, demo_pipe 1)] [] [].

Definition demo_piped : redisClusterContext demo_sockets :=
  mk_cluster 0 [] None 0 0 None (Some Route.demo_nodes) [demo_node_with 0; demo_node_with 1]
    (<[Z.to_nat 3300 := Some 0%nat]> (<[Z.to_nat 15495 := Some 1%nat]> (replicate (Z.to_nat 16384) None))) 1 5 0 None 0 demo_pipe_conns ∅ 0.

Lemma demo_one_key : Forall one_key demo_requests.
Proof. repeat (apply Forall_cons; split); [..|constructor]; (split; [done|]; split; [done|]; split; [eexists; vm_compute; reflexivity | done]). Qed.

Lemma demo_request_slots : map request_slot demo_requests = [3300; 15495; 3300].
Proof. vm_compute. reflexivity. Qed.

Lemma demo_piped_served : Forall (fun x => served demo_piped (request_slot x) (Client.demo_route (request_slot x)) /\ (Client.demo_route (request_slot x) < 2)%nat) demo_requests.
Proof.
  apply (List.Forall_map request_slot (fun s => served demo_piped s (Client.demo_route s) /\ (Client.demo_route s < 2)%nat)). rewrite demo_request_slots.
  repeat (apply Forall_cons; split); [..|constructor]; (split; [|cbn; lia]); [exists 0%nat, (demo_node_with 0) | exists 1%nat, (demo_node_with 1) | exists 0%nat, (demo_node_with 0)]; done.
Qed.

Lemma demo_asks (c : handle) : (c < 2)%nat ->
  asks (cc_conns demo_piped) c (map (fun x => (request_text x, rvalue x)) (filter (fun x => Client.demo_route (request_slot x) = c) demo_requests)) [].
Proof.
  intros Hc. exists Context.demo_connection, (demo_pipe c), 0, [], [], (Context.rplan (demo_pipe c)), [], [].
  split; [by destruct c as [|[|c]]; [| |lia]|]. split; [done|].
  split; [intros h; by apply (Context.connect_idle Context.demo_connection h Context.demo_connect)|].
  destruct c as [|[|c]]; [| |lia].
  - assert (filter (fun x => Client.demo_route (request_slot x) = 0%nat) demo_requests = [demo_get (bstr "b") (VInt 1); demo_get (bstr "b") (VInt 3)]) as -> by (vm_compute; reflexivity).
    split; [done|]. split; [by repeat (apply Forall_cons; split)|]. split; [reflexivity|]. split; [by repeat (apply Forall_cons; split)|]. done.
  - assert (filter (fun x => Client.demo_route (request_slot x) = 1%nat) demo_requests = [demo_get (bstr "a") VNil]) as -> by (vm_compute; reflexivity).
    split; [done|]. split; [by repeat (apply Forall_cons; split)|]. split; [reflexivity|]. split; [by repeat (apply Forall_cons; split)|]. done.
Qed.

Lemma client_pipeline_witness : exists st1 ls m st2, append_requests demo_requests demo_piped = Done (Read.REDIS_OK, st1) /\
  get_all 3 st1 = Done (map (fun l => (Read.REDIS_OK, Some l)) ls, st2) /\ trees [VInt 1; VNil; VInt 3] (map Some ls) m /\ cc_heap st2 = m ∪ ∅.
Proof.
  destruct (client_pipeline demo_has_memory Client.demo_route demo_requests demo_piped demo_one_key) as (st1 & ls & m & st2 & E1 & _ & E2 & Ht & _ & Hh & _).
  - done.
  - done.
  - done.
  - eapply Forall_impl; [exact demo_piped_served|]. by intros x [? _].
  - eapply Forall_impl; [exact demo_piped_served|]. intros x [_ ?]. by apply demo_asks.
  - exists st1, ls, m, st2. split; [exact E1|]. split; [exact E2|]. split; [exact Ht | exact Hh].
Defined.

Lemma reset_releases_witness : exists st1 st2, append_requests demo_requests demo_piped = Done (Read.REDIS_OK, st1) /\
  redisClusterReset demo_qsort st1 = Done (tt, st2) /\ cc_heap st2 = ∅ /\ cc_requests st2 = None.
Proof.
  destruct (reset_releases demo_has_memory demo_qsort Client.demo_route demo_requests demo_piped Route.demo_nodes (fun c => (c < 2)%nat) demo_one_key ltac:(done) eq_refl eq_refl
    demo_piped_served demo_asks eq_refl) as (st1 & st2 & E1 & E2 & Hh & Hr & _).
  - split; [apply demo_masters | done | |].
    + intros k q [-> ->]%demo_entry. by eexists.
    + intros k k' q [-> _]%demo_entry [-> _]%demo_entry. done.
  - intros k q [-> ->]%demo_entry. exists (demo_node_with 0), 0%nat. split_and!; try done. lia.
  - done.
  - done.
  - exists st1, st2. split; [exact E1|]. split; [exact E2|]. split; [exact Hh | exact Hr].
Defined.

End Demo.

End Pipe.
