(* ===== verification/Async.v ===== *)
(** Asynchronous contexts, async.c: a connection that is driven by an event loop. Commands are
    queued with a callback each, read and write events move the bytes, and the callbacks of
    the program run in between and may call the library again.

    The hooks of the event loop and the callbacks of the program are recorded in a trace; what
    the program does within a callback is a function of the trace, so that every behaviour of
    a program is covered. *)
From S2P Require Import Prelude HiUtil Dict Sds Read Format Reply Route Context Net Conn Cluster Redirect.
Import Reply.

Open Scope Z_scope.

Module Async.

Import Context.

(** ** Data *)

Definition REDIS_DISCONNECTING : Z := 4.
Definition REDIS_FREEING : Z := 8.
Definition REDIS_IN_CALLBACK : Z := 16.
Definition REDIS_SUBSCRIBED : Z := 32.
Definition REDIS_MONITORING : Z := 64.

(** A callback: the function, none for NULL, and its argument. *)
Record redisCallback := mk_callback { fn : option Z; privdata : Z }.

#[export] Instance redisCallback_eq : EqDecision redisCallback.
Proof. solve_decision. Defined.

(** The hooks of the event loop. *)
Inductive hook := AddRead | DelRead | AddWrite | DelWrite | Cleanup.

#[export] Instance hook_eq : EqDecision hook.
Proof. solve_decision. Defined.

(** What the program and the event loop can see. *)
Inductive event :=
| Hooked (k : hook)
| Issued (cb : redisCallback) (status : Z)
| Called (cb : redisCallback) (reply : option value)
| OnConnect (status : Z)
| OnDisconnect (status : Z)
| DataHandled.

(** What the program may do within a callback. *)
Inductive action :=
| Issue (cb : redisCallback) (cmd : bytes) (len : Z)
| Disconnect
| Free.

(** [callbackDict]: keys are compared by content, values are copied. *)
#[export] Instance callbackDict : Dict.dictType bytes redisCallback := {|
  Dict.hashFunction := Dict.dictGenHashFunction;
  Dict.keyDup := None;
  Dict.valDup := Some (fun cb => cb);
  Dict.keyCompare := Some (fun a b => if zlen a =? zlen b then bool_decide (a = b) else false);
  Dict.has_keyDestructor := true;
  Dict.has_valDestructor := true;
|}.

#[export] Instance callbackDict_laws : Dict.DictLaws callbackDict.
Proof.
  split.
  - intros k. apply Dict.dictGenHashFunction_range.
  - intros f E a b. injection E as <-. destruct (Z.eqb_spec (zlen a) (zlen b)) as [Hz|Hz]; [done|].
    symmetry. apply bool_decide_eq_false. congruence.
  - done.
Qed.

Abbreviation subscriptions := (Dict.dict bytes redisCallback).

(** The context; [errstr] points to the text of [ac_c] once it is set, and the hooks that are
    not NULL are listed. *)
Record redisAsyncContext := mk_async {
  ac_c : redisContext;
  ac_err : Z;
  ev : list hook;
  onDisconnect : option Z;
  onConnect : option Z;
  dataHandler : option Z;
  replies : list redisCallback;
  invalid : list redisCallback;
  channels : option subscriptions;
  patterns : option subscriptions;
}.

Definition with_c (c : redisContext) (a : redisAsyncContext) : redisAsyncContext :=
  mk_async c (ac_err a) (ev a) (onDisconnect a) (onConnect a) (dataHandler a) (replies a) (invalid a) (channels a) (patterns a).
Definition with_err (e : Z) (a : redisAsyncContext) : redisAsyncContext :=
  mk_async (ac_c a) e (ev a) (onDisconnect a) (onConnect a) (dataHandler a) (replies a) (invalid a) (channels a) (patterns a).
Definition with_onConnect (f : option Z) (a : redisAsyncContext) : redisAsyncContext :=
  mk_async (ac_c a) (ac_err a) (ev a) (onDisconnect a) f (dataHandler a) (replies a) (invalid a) (channels a) (patterns a).
Definition with_onDisconnect (f : option Z) (a : redisAsyncContext) : redisAsyncContext :=
  mk_async (ac_c a) (ac_err a) (ev a) f (onConnect a) (dataHandler a) (replies a) (invalid a) (channels a) (patterns a).
Definition with_replies (l : list redisCallback) (a : redisAsyncContext) : redisAsyncContext :=
  mk_async (ac_c a) (ac_err a) (ev a) (onDisconnect a) (onConnect a) (dataHandler a) l (invalid a) (channels a) (patterns a).
Definition with_invalid (l : list redisCallback) (a : redisAsyncContext) : redisAsyncContext :=
  mk_async (ac_c a) (ac_err a) (ev a) (onDisconnect a) (onConnect a) (dataHandler a) (replies a) l (channels a) (patterns a).
Definition with_channels (d : option subscriptions) (a : redisAsyncContext) : redisAsyncContext :=
  mk_async (ac_c a) (ac_err a) (ev a) (onDisconnect a) (onConnect a) (dataHandler a) (replies a) (invalid a) d (patterns a).
Definition with_patterns (d : option subscriptions) (a : redisAsyncContext) : redisAsyncContext :=
  mk_async (ac_c a) (ac_err a) (ev a) (onDisconnect a) (onConnect a) (dataHandler a) (replies a) (invalid a) (channels a) d.

Definition with_flags (f : Z) (c : redisContext) : redisContext := mk_context (cerr c) (cerrstr c) f (obuf c) (creader c).

(** [c->flags & f], [c->flags |= f] and [c->flags &= ~f]. *)
Definition flagged (a : redisAsyncContext) (f : Z) : bool := negb (Z.land (cflags (ac_c a)) f =? 0).
Definition set_flag (f : Z) (a : redisAsyncContext) : redisAsyncContext := with_c (with_flags (Z.lor (cflags (ac_c a)) f) (ac_c a)) a.
Definition clear_flag (f : Z) (a : redisAsyncContext) : redisAsyncContext := with_c (with_flags (Z.land (cflags (ac_c a)) (Z.lnot f)) (ac_c a)) a.

(** The context, none once it was freed, with the heap of replies, the socket and the trace. *)
Record world := mk_world { w_ac : option redisAsyncContext; w_heap : heap; w_sock : socket; w_trace : list event }.

(** ** Computations *)

(** A call may wait for the socket, or do what is undefined: use what was freed, fail an
    assertion, read outside of a block. *)
Definition A (X : Type) : Type := world -> option (run (X * world)).

Definition pure {X} (x : X) : A X := fun w => Some (Ret (x, w)).
Definition bind {X Y} (m : A X) (k : X -> A Y) : A Y := fun w => rbind (m w) (fun '(x, w) => k x w).
Definition undefined {X} : A X := fun _ => None.
Definition need {X} (x : option X) : A X := match x with Some x => pure x | None => undefined end.

Notation "'let@' x := e 'in' k" := (bind e (fun x => k)) (at level 10, x strict pattern, k at level 200).

(** The context, which must not be freed. *)
Definition get_ac : A redisAsyncContext := fun w => need (w_ac w) w.
Definition put_ac (a : redisAsyncContext) : A unit := fun w => Some (Ret (tt, mk_world (Some a) (w_heap w) (w_sock w) (w_trace w))).
Definition modify_ac (f : redisAsyncContext -> redisAsyncContext) : A unit := let@ a := get_ac in put_ac (f a).
Definition get_heap : A heap := fun w => Some (Ret (w_heap w, w)).
Definition put_heap (h : heap) : A unit := fun w => Some (Ret (tt, mk_world (w_ac w) h (w_sock w) (w_trace w))).
Definition get_sock : A socket := fun w => Some (Ret (w_sock w, w)).
Definition put_sock (s : socket) : A unit := fun w => Some (Ret (tt, mk_world (w_ac w) (w_heap w) s (w_trace w))).
Definition get_trace : A (list event) := fun w => Some (Ret (w_trace w, w)).
Definition log (e : event) : A unit := fun w => Some (Ret (tt, mk_world (w_ac w) (w_heap w) (w_sock w) (w_trace w ++ [e]))).

(** A call of hiredis.c. *)
Definition io {X} (x : option (run X)) : A X := fun w => rbind x (fun x => Some (Ret (x, w))).

(** [_EL_ADD_READ] and the other macros. *)
Definition EL (k : hook) : A unit := let@ a := get_ac in if bool_decide (k ∈ ev a) then log (Hooked k) else pure tt.

(** ** Reading a formatted command *)

(** [strchr] from a place of a block: the place of the byte, none before the NUL. *)
Fixpoint find_byte (c : Z) (l : bytes) : option (option Z) :=
  match l with
  | [] => None
  | x :: l' => if x =? c then Some (Some 0) else if x =? 0 then Some None else i ← find_byte c l'; Some (option_map Z.succ i)
  end.

Definition strchr (mem : bytes) (p c : Z) : option (option Z) :=
  if p <? 0 then None else i ← find_byte c (drop (Z.to_nat p) mem); Some (option_map (Z.add p) i).

(** [strtol] with base 10: white space, a sign, digits; the value is kept within a [long]. *)
Fixpoint strtol_digits (v : Z) (l : bytes) : option Z :=
  match l with
  | [] => None
  | c :: l' => if (48 <=? c) && (c <=? 57) then strtol_digits (v * 10 + (c - 48)) l' else Some v
  end.

Fixpoint strtol (l : bytes) : option Z :=
  match l with
  | [] => None
  | c :: l' =>
      if Sds.isspace c then strtol l'
      else
        v ← (if c =? 45 then option_map Z.opp (strtol_digits 0 l') else if c =? 43 then strtol_digits 0 l' else strtol_digits 0 l);
        Some (Z.max LONG_MIN (Z.min LONG_MAX v))
  end.

(** [nextArgument]: where the argument begins, its length, and what is returned. *)
Definition nextArgument (mem : bytes) (start : Z) : option (option (Z * Z * Z)) :=
  c ← rd mem start;
  p ← (if c =? 36 then Some (Some start) else strchr mem start 36);
  match p with
  | None => Some None
  | Some p =>
      len ← strtol (drop (Z.to_nat (p + 1)) mem);
      q ← mjoin (strchr mem p CR);
      Some (Some (q + 2, u64 (i32 len), q + 2 + i32 len + 2))
  end.

(** [strncasecmp(s, lit, strlen(lit)) == 0] for a literal in lower case. *)
Fixpoint starts_ci (lit l : bytes) : option bool :=
  match lit, l with
  | [], _ => Some true
  | _ :: _, [] => None
  | x :: lit', c :: l' => if Sds.tolower c =? x then starts_ci lit' l' else Some false
  end.

(** [strcasecmp(s, lit) == 0]. *)
Definition equals_ci (lit l : bytes) : option bool := starts_ci (lit ++ [0]) l.

(** The branches of [__redisAsyncCommand]; a subscription with the place of its first
    argument. *)
Inductive command_class := Subscribe (pvariant : bool) (p : Z) | Unsubscribe | Monitor | Regular.

Definition classify (mem : bytes) : option command_class :=
  '(cstr, clen, p) ← mjoin (nextArgument mem 0);
  c ← rd mem p;
  let hasnext := c =? 36 in
  c0 ← rd mem cstr;
  let pvariant := Sds.tolower c0 =? 112 in
  let l := drop (Z.to_nat (if pvariant then cstr + 1 else cstr)) mem in
  sub ← (if hasnext then starts_ci (bstr "subscribe" ++ CRLF) l else Some false);
  if (sub : bool) then Some (Subscribe pvariant p)
  else
    unsub ← starts_ci (bstr "unsubscribe" ++ CRLF) l;
    if (unsub : bool) then Some Unsubscribe
    else mon ← starts_ci (bstr "monitor" ++ CRLF) l; Some (if (mon : bool) then Monitor else Regular).

Section Ops.
Context `{Memory} (strerror : Z -> bytes) (vsnprintf : bytes -> Format.farg -> bytes).

(** What the program does in a callback, after this trace. *)
Context (user : list event -> list action).

(** ** Connecting *)

(** [sizeof(redisAsyncContext)] and [sizeof(redisCallback)]. *)
Definition async_size : Z := 376.
Definition callback_size : Z := 24.

(** [redisConnectNonBlock]; [r] is the outcome of net.c, see [Net]. *)
Definition redisConnectNonBlock (reader_ok : bool) (r : cres) : option (option (redisContext * socket)) :=
  let? c := redisContextInit reader_ok in
  Some (Some (redisContextConnect (with_flags (Z.land (cflags c) (Z.lnot REDIS_BLOCK)) c) r)).

(** [redisAsyncInitialize]. *)
Definition redisAsyncInitialize (c : redisContext) : option redisAsyncContext :=
  if negb (malloc_ok async_size) then None
  else Some (mk_async (with_flags (Z.land (cflags c) (Z.lnot REDIS_CONNECTED)) c) 0 [] None None None [] []
               (Dict.dictCreate malloc_ok) (Dict.dictCreate malloc_ok)).

(** [__redisAsyncCopyError]. *)
Definition copy_error (a : redisAsyncContext) : redisAsyncContext := with_err (cerr (ac_c a)) a.

(** [redisAsyncConnect]; on a failure the context, which holds no reply, is released. *)
Definition redisAsyncConnect (reader_ok : bool) (r : cres) : option (option (redisAsyncContext * socket)) :=
  let? x := redisConnectNonBlock reader_ok r in
  match redisAsyncInitialize x.1 with
  | None => Some None
  | Some a => Some (Some (copy_error a, x.2))
  end.

(** [redisConnectUnixNonBlock] and [redisAsyncConnectUnix]: a path instead of an address. *)
Definition redisConnectUnixNonBlock (reader_ok : bool) (r : cres) : option (option (redisContext * socket)) :=
  let? c := redisContextInit reader_ok in
  Some (Some (redisContextConnect (with_flags (Z.land (cflags c) (Z.lnot REDIS_BLOCK)) c) r)).

Definition redisAsyncConnectUnix (reader_ok : bool) (r : cres) : option (option (redisAsyncContext * socket)) :=
  let? x := redisConnectUnixNonBlock reader_ok r in
  match redisAsyncInitialize x.1 with
  | None => Some None
  | Some a => Some (Some (copy_error a, x.2))
  end.

(** [redisConnectBindNonBlock]: that the context could not be made is not tested. *)
Definition redisConnectBindNonBlock (reader_ok : bool) (r : cres) : option (redisContext * socket) :=
  c ← mjoin (redisContextInit reader_ok);
  Some (redisContextConnect (with_flags (Z.land (cflags c) (Z.lnot REDIS_BLOCK)) c) r).

Definition redisAsyncConnectBind (reader_ok : bool) (r : cres) : option (option (redisAsyncContext * socket)) :=
  '(c, s) ← redisConnectBindNonBlock reader_ok r;
  Some ((fun a => (copy_error a, s)) <$> redisAsyncInitialize c).

(** [redisAsyncConnectBindWithReuse], for what [Net.redisConnectBindNonBlockWithReuse] made. *)
Definition redisAsyncConnectBindWithReuse (n : Net.net) : option redisAsyncContext := copy_error <$> redisAsyncInitialize (Net.n_c n).

Definition redisAsyncSetConnectCallback (f : Z) : A Z :=
  let@ a := get_ac in
  match onConnect a with
  | Some _ => pure Read.REDIS_ERR
  | None => let@ _ := put_ac (with_onConnect (Some f) a) in let@ _ := EL AddWrite in pure Read.REDIS_OK
  end.

Definition redisAsyncSetDisconnectCallback (f : Z) : A Z :=
  let@ a := get_ac in
  match onDisconnect a with
  | Some _ => pure Read.REDIS_ERR
  | None => let@ _ := put_ac (with_onDisconnect (Some f) a) in pure Read.REDIS_OK
  end.

(** ** Callbacks *)

(** [__redisPushCallback]: a failure is reported, and never tested. *)
Definition redisPushCallback (l : list redisCallback) (cb : redisCallback) : list redisCallback :=
  if malloc_ok callback_size then l ++ [cb] else l.

(** [__redisShiftCallback]. *)
Definition redisShiftCallback (l : list redisCallback) : option (redisCallback * list redisCallback) :=
  match l with [] => None | cb :: l' => Some (cb, l') end.

(** ** Commands *)

(** The loop over the channels of a subscription. *)
Fixpoint subscribe_loop (fuel : nat) (mem : bytes) (p : Z) (cb : redisCallback) (d : subscriptions) : option subscriptions :=
  match fuel with
  | O => None
  | S f =>
      arg ← nextArgument mem p;
      match arg with
      | None => Some d
      | Some (astr, alen, p) =>
          s ← mjoin (Sds.sdsnewlen (Some (drop (Z.to_nat astr) mem)) alen);
          '(d, _, _) ← (if malloc_ok callback_size then Dict.dictReplace malloc_ok d (Route.Route.sds_text s) cb else None);
          subscribe_loop f mem p cb d
      end
  end.

(** What becomes of the callback. *)
Definition register (cls : command_class) (mem : bytes) (cb : redisCallback) (a : redisAsyncContext) : option (option redisAsyncContext) :=
  match cls with
  | Subscribe pvariant p =>
      let a := set_flag REDIS_SUBSCRIBED a in
      if (pvariant : bool)
      then d ← patterns a; d ← subscribe_loop (S (length mem)) mem p cb d; Some (Some (with_patterns (Some d) a))
      else d ← channels a; d ← subscribe_loop (S (length mem)) mem p cb d; Some (Some (with_channels (Some d) a))
  | Unsubscribe => Some (if flagged a REDIS_SUBSCRIBED then Some a else None)
  | Monitor => let a := set_flag REDIS_MONITORING a in Some (Some (with_replies (redisPushCallback (replies a) cb) a))
  | Regular =>
      Some (Some (if flagged a REDIS_SUBSCRIBED then with_invalid (redisPushCallback (invalid a) cb) a
                  else with_replies (redisPushCallback (replies a) cb) a))
  end.

(** [__redisAsyncCommand]; that the command could not be appended is not tested. *)
Definition issue (cb : redisCallback) (cmd : bytes) (len : Z) : A Z :=
  let@ a := get_ac in
  if flagged a (Z.lor REDIS_DISCONNECTING REDIS_FREEING) then pure Read.REDIS_ERR
  else
    let@ cls := need (classify cmd) in
    let@ a := need (register cls cmd cb a) in
    match a with
    | None => pure Read.REDIS_ERR
    | Some a =>
        let@ (_, c) := need (redisAppend (ac_c a) cmd len) in
        let@ _ := put_ac (with_c c a) in
        let@ _ := EL AddWrite in
        pure Read.REDIS_OK
    end.

(** [redisAsyncFormattedCommand]; the result is part of what the program sees. *)
Definition redisAsyncFormattedCommand (cb : redisCallback) (cmd : bytes) (len : Z) : A Z :=
  let@ status := issue cb cmd len in let@ _ := log (Issued cb status) in pure status.

(** [redisvAsyncCommand]; [redisAsyncCommand] collects the arguments for it. *)
Definition redisvAsyncCommand (cb : redisCallback) (format : bytes) (ap : list Format.farg) : A Z :=
  let@ r := need (Format.redisvFormatCommand vsnprintf format ap) in
  match r with
  | inl _ => pure Read.REDIS_ERR
  | inr (len, cmd) => redisAsyncFormattedCommand cb cmd (u64 len)
  end.

(** [redisAsyncCommandArgv]; that the text could not be made is not tested. *)
Definition redisAsyncCommandArgv (cb : redisCallback) (argv : list bytes) (argvlen : option (list Z)) : A Z :=
  let@ r := need (mjoin (Format.redisFormatSdsCommandArgv argv argvlen)) in
  redisAsyncFormattedCommand cb (Sds.buf r.2) (u64 r.1).

(** ** Running callbacks *)

(** [redisAsyncFree] and [redisAsyncDisconnect], given what frees the context. *)
Definition free_with (free : A unit) : A unit :=
  let@ _ := modify_ac (set_flag REDIS_FREEING) in
  let@ a := get_ac in
  if flagged a REDIS_IN_CALLBACK then pure tt else free.

Definition disconnect_with (disconnect : A unit) : A unit :=
  let@ _ := modify_ac (set_flag REDIS_DISCONNECTING) in
  let@ a := get_ac in
  if negb (flagged a REDIS_IN_CALLBACK) && bool_decide (replies a = []) then disconnect else pure tt.

(** A call of the library within a callback; the context cannot be freed there. *)
Definition act (x : action) : A unit :=
  match x with
  | Issue cb cmd len => let@ _ := redisAsyncFormattedCommand cb cmd len in pure tt
  | Disconnect => disconnect_with undefined
  | Free => free_with undefined
  end.

Fixpoint acts (l : list action) : A unit :=
  match l with [] => pure tt | x :: l' => let@ _ := act x in acts l' end.

(** What a callback is given. *)
Definition seen (reply : option loc) : A (option value) :=
  match reply with
  | None => pure None
  | Some l => let@ h := get_heap in let@ v := need (Cluster.value_at (size h) h l) in pure (Some v)
  end.

(** [__redisRunCallback]. *)
Definition redisRunCallback (cb : redisCallback) (reply : option loc) : A unit :=
  match fn cb with
  | None => pure tt
  | Some _ =>
      let@ _ := modify_ac (set_flag REDIS_IN_CALLBACK) in
      let@ v := seen reply in
      let@ _ := log (Called cb v) in
      let@ t := get_trace in
      let@ _ := acts (user t) in
      modify_ac (clear_flag REDIS_IN_CALLBACK)
  end.

(** ** Freeing *)

(** One of the two queues. *)
Definition queue (regular : bool) (a : redisAsyncContext) : list redisCallback := if regular then replies a else invalid a.
Definition with_queue (regular : bool) (l : list redisCallback) (a : redisAsyncContext) : redisAsyncContext :=
  if regular then with_replies l a else with_invalid l a.

(** [while (__redisShiftCallback(...) == REDIS_OK)]: as many rounds as there are callbacks,
    because none is added while the context is freed. *)
Fixpoint run_pending (fuel : nat) (regular : bool) : A unit :=
  match fuel with
  | O => undefined
  | S f =>
      let@ a := get_ac in
      match redisShiftCallback (queue regular a) with
      | None => pure tt
      | Some (cb, l) =>
          let@ _ := put_ac (with_queue regular l a) in
          let@ _ := redisRunCallback cb None in
          run_pending f regular
      end
  end.

Definition table_of (channel : bool) (a : redisAsyncContext) : option subscriptions := if channel then channels a else patterns a.
Definition with_table (channel : bool) (d : option subscriptions) (a : redisAsyncContext) : redisAsyncContext :=
  if channel then with_channels d a else with_patterns d a.

(** The loops over the subscriptions. *)
Fixpoint run_subscribers (fuel : nat) (channel : bool) (it : Dict.dictIterator bytes redisCallback) : A unit :=
  match fuel with
  | O => undefined
  | S f =>
      let@ a := get_ac in
      let@ d := need (table_of channel a) in
      let@ (de, it) := need (Dict.dictNext d it) in
      match de with
      | None => pure tt
      | Some (_, cb) => let@ _ := redisRunCallback cb None in run_subscribers f channel it
      end
  end.

(** The iterator is not tested; the table is released. *)
Definition end_subscriptions (channel : bool) : A unit :=
  let@ a := get_ac in
  let@ d := need (table_of channel a) in
  let@ it := need (Dict.dictGetIterator (K := bytes) (V := redisCallback) malloc_ok) in
  let@ _ := run_subscribers (S (length (concat (Dict.table d)))) channel it in
  modify_ac (with_table channel None).

(** The context is gone. *)
Definition drop_ac : A unit := fun w => Some (Ret (tt, mk_world None (w_heap w) (w_sock w) (w_trace w))).

(** [__redisAsyncFree]. *)
Definition async_free : A unit :=
  let@ a := get_ac in
  let@ _ := run_pending (S (length (replies a))) true in
  let@ a := get_ac in
  let@ _ := run_pending (S (length (invalid a))) false in
  let@ _ := end_subscriptions true in
  let@ _ := end_subscriptions false in
  let@ _ := EL Cleanup in
  let@ a := get_ac in
  let@ _ := (match onDisconnect a with
             | Some _ =>
                 if flagged a REDIS_CONNECTED then
                   log (OnDisconnect (if flagged a REDIS_FREEING then Read.REDIS_OK else if ac_err a =? 0 then Read.REDIS_OK else Read.REDIS_ERR))
                 else pure tt
             | None => pure tt
             end) in
  let@ _ := (match dataHandler a with Some _ => log DataHandled | None => pure tt end) in
  let@ h := get_heap in
  let@ h := need (redisFree (ac_c a) h) in
  let@ _ := put_heap h in
  drop_ac.

Definition redisAsyncFree : A unit := free_with async_free.

(** [__redisAsyncDisconnect]. *)
Definition async_disconnect : A unit :=
  let@ _ := modify_ac copy_error in
  let@ a := get_ac in
  let@ _ := (if ac_err a =? 0 then need (match redisShiftCallback (replies a) with None => Some tt | Some _ => None end)
             else modify_ac (set_flag REDIS_DISCONNECTING)) in
  async_free.

Definition redisAsyncDisconnect : A unit := disconnect_with async_disconnect.

(** ** Replies *)

(** The elements of an array. *)
Definition elements_of (h : heap) (r : redisReply) : option (list (option loc)) := e ← element r; load_ptrs h e.

(** The reply at an index. *)
Definition reply_at (h : heap) (ps : list (option loc)) (i : Z) : option redisReply := l ← mjoin (rd ps i); load_reply h l.

(** [__redisGetSubscribeCallback]: [cb] is left as it is when nothing is found. *)
Definition redisGetSubscribeCallback (reply : loc) (cb : redisCallback) : A redisCallback :=
  let@ h := get_heap in
  let@ r := need (load_reply h reply) in
  let@ a := get_ac in
  if rtype r =? Read.REDIS_REPLY_ARRAY then
    let@ _ := need (if relements r <? 2 then None else Some tt) in
    let@ ps := need (elements_of h r) in
    let@ e0 := need (reply_at h ps 0) in
    let@ _ := need (if rtype e0 =? Read.REDIS_REPLY_STRING then Some tt else None) in
    let@ stype := need (Cluster.chars h e0) in
    let@ c0 := need (rd stype 0) in
    let pvariant := Sds.tolower c0 =? 112 in
    let@ d := need (table_of (negb pvariant) a) in
    let@ e1 := need (reply_at h ps 1) in
    let@ _ := need (if rtype e1 =? Read.REDIS_REPLY_STRING then Some tt else None) in
    let@ nm := need (Cluster.chars h e1) in
    let@ s := need (mjoin (Sds.sdsnewlen (Some nm) (u64 (rlen e1)))) in
    let sname := Route.Route.sds_text s in
    let@ de := need (Dict.dictFind d sname) in
    match de with
    | None => pure cb
    | Some (_, found) =>
        let@ unsub := need (equals_ci (bstr "unsubscribe") (drop (if pvariant then 1%nat else 0%nat) stype)) in
        if (unsub : bool) then
          let@ (d, _, _) := need (Dict.dictDelete d sname) in
          let@ _ := put_ac (with_table (negb pvariant) (Some d) a) in
          let@ e2 := need (reply_at h ps 2) in
          let@ _ := need (if rtype e2 =? Read.REDIS_REPLY_INTEGER then Some tt else None) in
          let@ _ := (if integer e2 =? 0 then modify_ac (clear_flag REDIS_SUBSCRIBED) else pure tt) in
          pure found
        else pure found
    end
  else
    match redisShiftCallback (invalid a) with
    | None => pure cb
    | Some (cb, l) => let@ _ := put_ac (with_invalid l a) in pure cb
    end.

(** [redisGetReply] of the context. *)
Definition getReply : A (Z * option loc) :=
  let@ a := get_ac in
  let@ h := get_heap in
  let@ s := get_sock in
  let@ (ret, rep, c, h, s) := io (redisGetReply strerror (ac_c a) h s) in
  let@ _ := put_ac (with_c c a) in
  let@ _ := put_heap h in
  let@ _ := put_sock s in
  let@ rep := need (Conn.object rep) in
  pure (ret, rep).

(** [c->reader->fn->freeObject(reply)]. *)
Definition freeObject (l : loc) : A unit :=
  let@ h := get_heap in let@ h := need (freeReplyObject (Some l) h) in put_heap h.

(** The text of an error becomes that of the context. *)
Definition error_text (h : heap) (r : redisReply) : option bytes := cs ← Cluster.chars h r; take 127 <$> cstr cs.

(** The callback for a reply when no command is waiting for one; none when the connection
    was closed instead. *)
Definition spontaneous (l : loc) (cb : redisCallback) : A (option redisCallback) :=
  let@ a := get_ac in
  let@ h := get_heap in
  let@ r := need (load_reply h l) in
  if rtype r =? Read.REDIS_REPLY_ERROR then
    let@ msg := need (error_text h r) in
    let@ _ := put_ac (with_c (mk_context Read.REDIS_ERR_OTHER msg (cflags (ac_c a)) (obuf (ac_c a)) (creader (ac_c a))) a) in
    let@ _ := freeObject l in
    let@ _ := async_disconnect in
    pure None
  else
    let@ _ := need (if flagged a REDIS_SUBSCRIBED || flagged a REDIS_MONITORING then Some tt else None) in
    if flagged a REDIS_SUBSCRIBED then let@ cb := redisGetSubscribeCallback l cb in pure (Some cb) else pure (Some cb).

(** The loop of [redisProcessCallbacks]: [cb] keeps the callback of the round before. Every
    round but the last takes a reply of at least one byte from the reader. *)
Fixpoint process_loop (fuel : nat) (cb : redisCallback) : A unit :=
  match fuel with
  | O => undefined
  | S f =>
      let@ (status, reply) := getReply in
      if negb (status =? Read.REDIS_OK) then async_disconnect
      else
        let@ a := get_ac in
        match reply with
        | None =>
            let@ stop := (if flagged a REDIS_DISCONNECTING then let@ l := need (obuf_len (ac_c a)) in pure (l =? 0) else pure false) in
            if (stop : bool) then async_disconnect
            else if flagged a REDIS_MONITORING then put_ac (with_replies (redisPushCallback (replies a) cb) a)
            else pure tt
        | Some l =>
            let@ cb :=
              (match redisShiftCallback (replies a) with
               | Some (cb, rest) => let@ _ := put_ac (with_replies rest a) in pure (Some cb)
               | None => spontaneous l cb
               end) in
            match cb with
            | None => pure tt
            | Some cb =>
                match fn cb with
                | Some _ =>
                    let@ _ := redisRunCallback cb (Some l) in
                    let@ _ := freeObject l in
                    let@ a := get_ac in
                    if flagged a REDIS_FREEING then async_free else process_loop f cb
                | None => let@ _ := freeObject l in process_loop f cb
                end
            end
        end
  end.

(** The bytes in the reader. *)
Definition unread (a : redisAsyncContext) : nat := match creader (ac_c a) with Some r => Z.to_nat (Read.len r) | None => O end.

Definition redisProcessCallbacks : A unit := let@ a := get_ac in process_loop (S (unread a)) (mk_callback None 0).

(** ** Events *)

(** [__redisAsyncHandleConnect]; the callback is given a constant context. *)
Definition handle_connect (o : Net.sockopt) : A Z :=
  let@ a := get_ac in
  let '(ret, errno, c) := Net.redisCheckSocketError strerror (ac_c a) o in
  let@ _ := put_ac (with_c c a) in
  if ret =? Read.REDIS_ERR then
    if errno =? Net.EINPROGRESS then pure Read.REDIS_OK
    else
      let@ _ := (match onConnect a with Some _ => log (OnConnect Read.REDIS_ERR) | None => pure tt end) in
      let@ _ := async_disconnect in
      pure Read.REDIS_ERR
  else
    let@ _ := modify_ac (set_flag REDIS_CONNECTED) in
    let@ _ := (match onConnect a with Some _ => log (OnConnect Read.REDIS_OK) | None => pure tt end) in
    pure Read.REDIS_OK.

(** Whether the handler goes on. *)
Definition connected (o : Net.sockopt) : A bool :=
  let@ a := get_ac in
  if flagged a REDIS_CONNECTED then pure true
  else
    let@ ret := handle_connect o in
    if negb (ret =? Read.REDIS_OK) then pure false else let@ a := get_ac in pure (flagged a REDIS_CONNECTED).

Definition redisAsyncHandleRead (o : Net.sockopt) : A unit :=
  let@ go := connected o in
  if negb go then pure tt
  else
    let@ a := get_ac in
    let@ h := get_heap in
    let@ s := get_sock in
    let@ (ret, c, h, s) := io (redisBufferRead strerror (ac_c a) h s) in
    let@ _ := put_ac (with_c c a) in
    let@ _ := put_heap h in
    let@ _ := put_sock s in
    if ret =? Read.REDIS_ERR then async_disconnect
    else let@ _ := EL AddRead in redisProcessCallbacks.

Definition redisAsyncHandleWrite (o : Net.sockopt) : A unit :=
  let@ go := connected o in
  if negb go then pure tt
  else
    let@ a := get_ac in
    let@ s := get_sock in
    let@ (ret, c, s, wdone) := io (redisBufferWrite strerror (ac_c a) s) in
    let@ _ := put_ac (with_c c a) in
    let@ _ := put_sock s in
    if ret =? Read.REDIS_ERR then async_disconnect
    else
      let@ _ := EL (if (wdone : bool) then DelWrite else AddWrite) in
      EL AddRead.

End Ops.

(** ** Reasoning *)

(** Every state a computation may end in. *)
Definition ok {X} (w : world) (m : A X) (Q : X -> world -> Prop) : Prop := forall x w', m w = Some (Ret (x, w')) -> Q x w'.

(** It ends in such a state. *)
Definition ends {X} (w : world) (m : A X) (Q : X -> world -> Prop) : Prop := exists x w', m w = Some (Ret (x, w')) /\ Q x w'.

Lemma ok_bind {X Y} w (m : A X) (k : X -> A Y) Q : ok w m (fun x w1 => ok w1 (k x) Q) -> ok w (bind m k) Q.
Proof. intros Hm y w'. unfold bind. destruct (m w) as [[[x w1]|]|] eqn:E; cbn; [by apply (Hm x w1 E) | done..]. Qed.

Lemma bind_ret {X Y} (m : A X) (k : X -> A Y) w x w' : m w = Some (Ret (x, w')) -> bind m k w = k x w'.
Proof. intros E. unfold bind. by rewrite E. Qed.

Lemma get_live w a : w_ac w = Some a -> get_ac w = Some (Ret (a, w)).
Proof. intros E. unfold get_ac, need. by rewrite E. Qed.

Lemma ok_mono {X} w (m : A X) (P Q : X -> world -> Prop) : ok w m P -> (forall x w', P x w' -> Q x w') -> ok w m Q.
Proof. intros Hm HPQ x w' E. by apply HPQ, Hm. Qed.

Lemma ends_bind {X Y} w (m : A X) (k : X -> A Y) Q : ends w m (fun x w1 => ends w1 (k x) Q) -> ends w (bind m k) Q.
Proof. intros (x & w1 & E & y & w2 & E2 & HQ). exists y, w2. split; [|done]. unfold bind. by rewrite E. Qed.

Lemma ends_mono {X} w (m : A X) (P Q : X -> world -> Prop) : ends w m P -> (forall x w', P x w' -> Q x w') -> ends w m Q.
Proof. intros (x & w' & E & HP) HPQ. exists x, w'. split; [done | by apply HPQ]. Qed.

Lemma ends_done {X} w (m : A X) x w' Q : m w = Some (Ret (x, w')) -> Q x w' -> ends w m Q.
Proof. intros E HQ. by exists x, w'. Qed.

(** *** Flags *)

(** The flags of async.c are single bits. *)
Lemma flag_bit f i : 0 <= i -> f = 2 ^ i -> forall x, negb (Z.land x f =? 0) = Z.testbit x i.
Proof.
  intros Hi -> x. destruct (Z.testbit x i) eqn:E.
  - apply negb_true_iff, Z.eqb_neq. intros H0. assert (Z.testbit (Z.land x (2 ^ i)) i = true) as Hb by (by rewrite Z.land_spec, E, Z.pow2_bits_true).
    by rewrite H0, Z.bits_0 in Hb.
  - apply negb_false_iff, Z.eqb_eq, Z.bits_inj. intros j. rewrite Z.land_spec, Z.bits_0. destruct (decide (i = j)) as [<-|Hne]; [by rewrite E|].
    rewrite Z.pow2_bits_false by done. apply andb_false_r.
Qed.

Lemma lor_bit x f i j : 0 <= i -> 0 <= j -> f = 2 ^ i -> Z.testbit (Z.lor x f) j = (Z.testbit x j || bool_decide (i = j))%bool.
Proof.
  intros Hi Hj ->. rewrite Z.lor_spec. f_equal. case_bool_decide; [subst; by apply Z.pow2_bits_true | by apply Z.pow2_bits_false].
Qed.

Lemma clear_bit x f i j : 0 <= i -> 0 <= j -> f = 2 ^ i -> Z.testbit (Z.land x (Z.lnot f)) j = (Z.testbit x j && negb (bool_decide (i = j)))%bool.
Proof.
  intros Hi Hj ->. rewrite Z.land_spec, Z.lnot_spec by lia. f_equal. f_equal. case_bool_decide; [subst; by apply Z.pow2_bits_true | by apply Z.pow2_bits_false].
Qed.

(** The bit of a flag. *)
Definition bit (a : redisAsyncContext) (i : Z) : bool := Z.testbit (cflags (ac_c a)) i.

Lemma flagged_bit a f i : 0 <= i -> f = 2 ^ i -> flagged a f = bit a i.
Proof. intros. by apply flag_bit. Qed.

Lemma closing_bits a : flagged a (Z.lor REDIS_DISCONNECTING REDIS_FREEING) = (bit a 2 || bit a 3)%bool.
Proof.
  unfold flagged, bit, REDIS_DISCONNECTING, REDIS_FREEING. set (x := cflags (ac_c a)). rewrite Z.land_lor_distr_r.
  rewrite <- (flag_bit 4 2), <- (flag_bit 8 3) by (done || lia).
  destruct (Z.eqb_spec (Z.land x 4) 0) as [->|H4], (Z.eqb_spec (Z.land x 8) 0) as [->|H8]; cbn [negb orb]; try done; apply negb_true_iff, Z.eqb_neq; intros E;
    apply Z.lor_eq_0_iff in E as [? ?]; done.
Qed.

Lemma set_flag_bit f a i j : 0 <= i -> 0 <= j -> f = 2 ^ i -> bit (set_flag f a) j = (bit a j || bool_decide (i = j))%bool.
Proof. intros. by apply lor_bit. Qed.

Lemma clear_flag_bit f a i j : 0 <= i -> 0 <= j -> f = 2 ^ i -> bit (clear_flag f a) j = (bit a j && negb (bool_decide (i = j)))%bool.
Proof. intros. by apply clear_bit. Qed.

(** *** The trace *)

(** The callbacks that were called, with what they were given. *)
Definition calls (t : list event) : list (redisCallback * option value) := omap (fun e => match e with Called cb v => Some (cb, v) | _ => None end) t.

Lemma calls_app t t' : calls (t ++ t') = calls t ++ calls t'.
Proof. apply omap_app. Qed.

(** The calls of the disconnect callback. *)
Definition disconnects (t : list event) : list Z := omap (fun e => match e with OnDisconnect s => Some s | _ => None end) t.

Lemma disconnects_app t t' : disconnects (t ++ t') = disconnects t ++ disconnects t'.
Proof. apply omap_app. Qed.

(** These are the calls of a trace. *)
Definition says (t : list event) (cs : list (redisCallback * option value)) (ds : list Z) : Prop := calls t = cs /\ disconnects t = ds.

Lemma says_app t t' cs cs' ds ds' : says t cs ds -> says t' cs' ds' -> says (t ++ t') (cs ++ cs') (ds ++ ds').
Proof. intros [<- <-] [<- <-]. split; [apply calls_app | apply disconnects_app]. Qed.

(** Callbacks that are not NULL. *)
Definition has_fn (cb : redisCallback) : Prop := is_Some (fn cb).
#[export] Instance has_fn_dec cb : Decision (has_fn cb).
Proof. unfold has_fn. apply _. Defined.

Definition null_calls (l : list redisCallback) : list (redisCallback * option value) := map (fun cb => (cb, None)) (filter has_fn l).

Lemma null_calls_app l l' : null_calls (l ++ l') = null_calls l ++ null_calls l'.
Proof. unfold null_calls. by rewrite filter_app, map_app. Qed.

(** *** A context that is being closed *)

Section Closing.
Context `{Memory} (strerror : Z -> bytes) (user : list event -> list action).

Definition closing (a : redisAsyncContext) : bool := bit a 2 || bit a 3.

(** Only the flags that close a context may have been set. *)
Definition flags_grow (a a' : redisAsyncContext) : Prop :=
  exists f, a' = with_c (with_flags f (ac_c a)) a /\ forall i, 0 <= i -> (bit a i = true -> Z.testbit f i = true) /\ (i <> 2 -> i <> 3 -> Z.testbit f i = bit a i).

Lemma flags_grow_refl a : flags_grow a a.
Proof. exists (cflags (ac_c a)). split; [|done]. by destruct a as [[]]. Qed.

Lemma flags_grow_trans a b c : flags_grow a b -> flags_grow b c -> flags_grow a c.
Proof.
  intros (f & -> & Hf) (g & -> & Hg). exists g. split; [done|]. intros i Hi. destruct (Hf i Hi) as [Hf1 Hf2], (Hg i Hi) as [Hg1 Hg2]. split; [intros Hb; by apply Hg1, Hf1|].
  intros H2 H3. rewrite Hg2 by done. by apply Hf2.
Qed.

Lemma flags_grow_set f i a : 0 <= i -> f = 2 ^ i -> i = 2 \/ i = 3 -> flags_grow a (set_flag f a).
Proof.
  intros Hi Hf Hc. exists (Z.lor (cflags (ac_c a)) f). split; [done|]. intros j Hj. rewrite (lor_bit _ f i j) by done. fold (bit a j). split; [by intros ->|].
  intros H2 H3. rewrite bool_decide_false by lia. apply orb_false_r.
Qed.

Lemma flags_grow_bits a a' : flags_grow a a' -> (closing a = true -> closing a' = true) /\ forall i, 0 <= i -> i <> 2 -> i <> 3 -> bit a' i = bit a i.
Proof.
  intros (f & -> & Hf). split.
  - unfold closing. intros Hc. apply orb_true_iff. apply orb_true_iff in Hc as [Hc|Hc]; [left; by apply (Hf 2) | right; by apply (Hf 3)].
  - intros i Hi H2 H3. by apply Hf.
Qed.

(** The world with another context and a longer trace. *)
Abbreviation later w a t := (mk_world (Some a) (w_heap w) (w_sock w) (w_trace w ++ t)).

Lemma later_same w a : w_ac w = Some a -> w = later w a [].
Proof. destruct w. cbn. intros ->. by rewrite app_nil_r. Qed.

(** Within a callback no call of the library adds a command or frees the context. *)
Lemma act_closing x w a : w_ac w = Some a -> closing a = true -> bit a 4 = true ->
  ends w (act x) (fun _ w' => exists a' t, w' = later w a' t /\ flags_grow a a' /\ says t [] []).
Proof.
  intros Ha Hc H4. destruct x as [cb cmd len| |]; cbn [act].
  - eapply ends_done; [|exists a, [Issued cb Read.REDIS_ERR]; split_and!; [done | apply flags_grow_refl | done]].
    unfold redisAsyncFormattedCommand, issue, bind, get_ac, need. rewrite Ha. cbn. rewrite closing_bits. fold (closing a). rewrite Hc. cbn. by rewrite Ha.
  - eapply ends_done; [|exists (set_flag REDIS_DISCONNECTING a), []; split_and!; [by rewrite app_nil_r | by apply (flags_grow_set _ 2); auto | done]].
    unfold disconnect_with, modify_ac, bind, get_ac, need, put_ac. rewrite Ha. cbn [rbind pure w_ac].
    rewrite (flagged_bit _ _ 4) by done. rewrite (set_flag_bit _ _ 2) by done. rewrite H4. done.
  - eapply ends_done; [|exists (set_flag REDIS_FREEING a), []; split_and!; [by rewrite app_nil_r | by apply (flags_grow_set _ 3); auto | done]].
    unfold free_with, modify_ac, bind, get_ac, need, put_ac. rewrite Ha. cbn [rbind pure w_ac].
    rewrite (flagged_bit _ _ 4) by done. rewrite (set_flag_bit _ _ 3) by done. rewrite H4. done.
Qed.

Lemma acts_closing l : forall w a, w_ac w = Some a -> closing a = true -> bit a 4 = true ->
  ends w (acts l) (fun _ w' => exists a' t, w' = later w a' t /\ flags_grow a a' /\ says t [] []).
Proof.
  induction l as [|x l IH]; intros w a Ha Hc H4; cbn [acts].
  - eapply ends_done; [done|]. exists a, []. split_and!; [by apply later_same | apply flags_grow_refl | done].
  - apply ends_bind. eapply ends_mono; [by apply (act_closing x w a)|]. intros _ w1 (a1 & t1 & -> & Hg1 & Ht1).
    destruct (flags_grow_bits _ _ Hg1) as [Hc1 Hb1]. eapply ends_mono; [apply (IH _ a1); [done | by apply Hc1 | by rewrite Hb1]|].
    intros _ w2 (a2 & t2 & -> & Hg2 & Ht2). exists a2, (t1 ++ t2). cbn [w_heap w_sock w_trace]. rewrite <- app_assoc. split_and!; [done | by eapply flags_grow_trans | exact (says_app _ _ _ _ _ _ Ht1 Ht2)].
Qed.

(** A callback runs, and nothing but the closing flags has changed. *)
Lemma run_closing cb w a : w_ac w = Some a -> closing a = true -> bit a 4 = false ->
  ends w (redisRunCallback user cb None) (fun _ w' => exists a' t, w' = later w a' t /\ flags_grow a a' /\ says t (null_calls [cb]) []).
Proof.
  intros Ha Hc H4. unfold redisRunCallback. destruct (fn cb) as [f|] eqn:Ef.
  2:{ eapply ends_done; [done|]. exists a, []. split_and!; [by apply later_same | apply flags_grow_refl |].
      unfold null_calls. rewrite filter_cons_False; [done|]. unfold has_fn. rewrite Ef. by intros [? ?]. }
  set (a1 := set_flag REDIS_IN_CALLBACK a).
  assert (forall j, 0 <= j -> bit a1 j = (bit a j || bool_decide (4 = j))%bool) as Hb1 by (intros j Hj; by apply (set_flag_bit _ _ 4)).
  apply ends_bind. eapply (ends_done _ _ tt (mk_world (Some a1) (w_heap w) (w_sock w) (w_trace w))).
  { unfold modify_ac, bind, get_ac, need. by rewrite Ha. }
  apply ends_bind. eapply ends_done; [done|]. apply ends_bind. eapply ends_done; [done|]. apply ends_bind. eapply ends_done; [done|]. cbn [w_ac w_heap w_sock w_trace].
  apply ends_bind. eapply ends_mono; [eapply (acts_closing _ _ a1); [done | unfold closing; by rewrite !Hb1, !orb_false_r | rewrite Hb1 by done; apply orb_true_r]|].
  intros _ w2 (a2 & t & -> & (g & -> & Hg) & Ht). cbn [w_heap w_sock w_trace].
  eapply ends_done; [unfold modify_ac, bind, get_ac, need; cbn; reflexivity|]. cbn [w_heap w_sock w_trace].
  eexists _, ([Called cb None] ++ t). split; [by rewrite app_assoc|]. split.
  - eexists. split; [reflexivity|]. intros j Hj. cbn. rewrite (clear_bit _ _ 4 j) by done. destruct (Hg j Hj) as [Hg1 Hg2]. rewrite Hb1 in Hg1, Hg2 by done. split.
    + intros Hb. rewrite Hb in Hg1. rewrite Hg1 by done. rewrite bool_decide_false; [done|]. intros <-. by rewrite H4 in Hb.
    + intros H2 H3. rewrite Hg2 by done. destruct (bool_decide_reflect (4 = j)) as [<-|]; [by rewrite H4|]. by rewrite orb_false_r, andb_true_r.
  - unfold null_calls. rewrite filter_cons_True by (by exists f). exact (says_app [Called cb None] _ [(cb, None)] _ [] _ (conj eq_refl eq_refl) Ht).
Qed.

Lemma flags_grow_queue regular l a a' : flags_grow a a' -> flags_grow (with_queue regular l a) (with_queue regular l a').
Proof. intros (f & -> & Hf). exists f. destruct regular; split; done. Qed.

Lemma flags_grow_table channel d a a' : flags_grow a a' -> flags_grow (with_table channel d a) (with_table channel d a').
Proof. intros (f & -> & Hf). exists f. destruct channel; split; done. Qed.

Lemma bit_queue regular l a i : bit (with_queue regular l a) i = bit a i.
Proof. by destruct regular. Qed.

Lemma bit_table channel d a i : bit (with_table channel d a) i = bit a i.
Proof. by destruct channel. Qed.

(** Every callback of a queue is called with NULL. *)
Lemma run_pending_closing regular f : forall w a, w_ac w = Some a -> closing a = true -> bit a 4 = false -> (length (queue regular a) < f)%nat ->
  ends w (run_pending user f regular) (fun _ w' => exists a' t, w' = later w a' t /\ flags_grow (with_queue regular [] a) a' /\ says t (null_calls (queue regular a)) []).
Proof.
  induction f as [|f IH]; intros w a Ha Hc H4 Hl; [lia|]. cbn [run_pending]. apply ends_bind. eapply ends_done; [unfold get_ac, need; by rewrite Ha|].
  destruct (queue regular a) as [|cb l] eqn:Eq; cbn [redisShiftCallback].
  - eapply ends_done; [done|]. exists a, []. split_and!; [by apply later_same | | done]. replace (with_queue regular [] a) with a; [apply flags_grow_refl|].
    destruct a, regular; cbn in *; by subst.
  - set (a1 := with_queue regular l a). apply ends_bind. eapply ends_done; [done|]. apply ends_bind.
    eapply ends_mono; [apply (run_closing cb _ a1); [done | unfold closing, a1; by rewrite !bit_queue | unfold a1; by rewrite bit_queue]|].
    intros _ w1 (a2 & t1 & -> & Hg1 & Ht1). destruct (flags_grow_bits _ _ Hg1) as [Hc1 Hb1]. cbn [w_heap w_sock w_trace] in *.
    assert (queue regular a2 = l) as Hq by (destruct Hg1 as (g & -> & _); unfold a1; by destruct regular).
    eapply ends_mono; [apply (IH _ a2); [done | apply Hc1; unfold closing, a1; by rewrite !bit_queue | rewrite Hb1 by done; unfold a1; by rewrite bit_queue | rewrite Hq; simpl in Hl; lia]|].
    intros _ w2 (a3 & t2 & -> & Hg2 & Ht2). exists a3, (t1 ++ t2). cbn [w_heap w_sock w_trace]. rewrite app_assoc. split_and!; [done | |].
    + eapply flags_grow_trans; [|exact Hg2]. apply (flags_grow_queue regular []) in Hg1. unfold a1 in Hg1. by destruct regular.
    + rewrite Hq in Ht2. change (cb :: l) with ([cb] ++ l). rewrite null_calls_app. exact (says_app _ _ _ _ _ _ Ht1 Ht2).
Qed.

(** So is every callback of a table of subscriptions. *)
Lemma run_subscribers_closing channel d f : forall it w a, w_ac w = Some a -> closing a = true -> bit a 4 = false -> table_of channel a = Some d ->
  Dict.wf d -> Dict.size d < 2 ^ 31 -> Dict.iter_ok d it -> (length (Dict.remaining d it) < f)%nat ->
  ends w (run_subscribers user f channel it) (fun _ w' => exists a' t, w' = later w a' t /\ flags_grow a a' /\ says t (null_calls (Dict.remaining d it).*2) []).
Proof.
  induction f as [|f IH]; intros it w a Ha Hc H4 Hd Hwf Hsz Hi Hl; [lia|]. cbn [run_subscribers]. apply ends_bind. eapply ends_done; [unfold get_ac, need; by rewrite Ha|].
  rewrite Hd. apply ends_bind. eapply ends_done; [done|]. destruct (Dict.dictNext_spec d it Hwf Hsz Hi) as (r & it' & -> & Hr).
  apply ends_bind. eapply ends_done; [done|]. cbn beta iota. destruct r as [[k cb]|].
  - destruct Hr as [Hr Hi']. rewrite Hr in Hl |- *. cbn [length] in Hl. apply ends_bind. eapply ends_mono; [by apply (run_closing cb w a)|].
    intros _ w1 (a1 & t1 & -> & Hg1 & Ht1). destruct (flags_grow_bits _ _ Hg1) as [Hc1 Hb1].
    eapply ends_mono; [apply (IH it' _ a1); [done | by apply Hc1 | by rewrite Hb1 | | done..| lia]|].
    { destruct Hg1 as (g & -> & _). by destruct channel. }
    intros _ w2 (a2 & t2 & -> & Hg2 & Ht2). exists a2, (t1 ++ t2). cbn [w_heap w_sock w_trace]. rewrite app_assoc. split_and!; [done | by eapply flags_grow_trans |].
    change ((k, cb) :: Dict.remaining d it').*2 with ([cb] ++ (Dict.remaining d it').*2). rewrite null_calls_app. exact (says_app _ _ _ _ _ _ Ht1 Ht2).
  - rewrite Hr. eapply ends_done; [done|]. exists a, []. split_and!; [by apply later_same | apply flags_grow_refl | done].
Qed.

Context (Hmem : has_memory).

(** A table of subscriptions, as it should be. *)
Definition table_fine (d : subscriptions) : Prop := Dict.wf d /\ Dict.size d < 2 ^ 31.

Lemma end_subscriptions_closing channel d w a : w_ac w = Some a -> closing a = true -> bit a 4 = false -> table_of channel a = Some d -> table_fine d ->
  ends w (end_subscriptions user channel) (fun _ w' => exists a' t, w' = later w a' t /\ flags_grow (with_table channel None a) a' /\
    says t (null_calls (concat (Dict.table d)).*2) []).
Proof.
  intros Ha Hc H4 Hd [Hwf Hsz]. unfold end_subscriptions. apply ends_bind. eapply ends_done; [unfold get_ac, need; by rewrite Ha|].
  rewrite Hd. apply ends_bind. eapply ends_done; [done|]. unfold Dict.dictGetIterator. rewrite Hmem. apply ends_bind. eapply ends_done; [done|].
  apply ends_bind. eapply ends_mono; [apply (run_subscribers_closing channel d _ (Dict.mk_iter (-1) [] []) w a); try done; [by right | apply Nat.lt_succ_diag_r]|].
  intros _ w1 (a1 & t & -> & Hg & Ht). eapply ends_done; [done|]. exists (with_table channel None a1), t. split_and!; [done | by apply flags_grow_table | done].
Qed.

Lemma EL_ends k w a : w_ac w = Some a -> ends w (EL k) (fun _ w' => exists t, w' = later w a t /\ says t [] []).
Proof.
  intros Ha. unfold EL. apply ends_bind. eapply ends_done; [unfold get_ac, need; by rewrite Ha|]. case_bool_decide.
  - eapply ends_done; [done|]. exists [Hooked k]. by rewrite Ha.
  - eapply ends_done; [done|]. exists []. split; [by apply later_same | done].
Qed.

(** All callbacks that are owed a call when the context is freed, in their order. *)
Definition owed (a : redisAsyncContext) (dc dp : subscriptions) : list redisCallback :=
  replies a ++ invalid a ++ (concat (Dict.table dc)).*2 ++ (concat (Dict.table dp)).*2.

Lemma async_free_spec w a dc dp h : w_ac w = Some a -> closing a = true -> bit a 4 = false -> channels a = Some dc -> patterns a = Some dp ->
  table_fine dc -> table_fine dp -> redisFree (ac_c a) (w_heap w) = Some h ->
  ends w (async_free user) (fun _ w' => exists t s, w' = mk_world None h (w_sock w) (w_trace w ++ t) /\
    says t (null_calls (owed a dc dp)) (if bit a 1 then match onDisconnect a with Some _ => [s] | None => [] end else []) /\
    (bit a 3 = true \/ ac_err a = 0 -> s = Read.REDIS_OK)).
Proof.
  intros Ha Hc H4 Hdc Hdp Hfc Hfp Hfree. unfold async_free. apply ends_bind. eapply ends_done; [unfold get_ac, need; by rewrite Ha|].
  apply ends_bind. eapply ends_mono; [by apply (run_pending_closing true _ w a); [..|apply Nat.lt_succ_diag_r]|]. intros _ w1 (a1 & t1 & -> & Hg1 & Ht1).
  destruct (flags_grow_bits _ _ Hg1) as [Hc1 Hb1]. specialize (Hc1 Hc). apply ends_bind. eapply ends_done; [done|].
  apply ends_bind. eapply ends_mono; [apply (run_pending_closing false _ _ a1); [done | done | by rewrite Hb1 | apply Nat.lt_succ_diag_r]|]. intros _ w2 (a2 & t2 & -> & Hg2 & Ht2).
  destruct (flags_grow_bits _ _ Hg2) as [Hc2 Hb2]. specialize (Hc2 Hc1). cbn [w_heap w_sock w_trace] in *.
  pose proof (flags_grow_trans _ _ _ (flags_grow_queue false [] _ _ Hg1) Hg2) as Hg12.
  apply ends_bind. eapply ends_mono; [apply (end_subscriptions_closing true dc _ a2); [done | done | by rewrite Hb2, bit_queue, Hb1 | by destruct Hg12 as (g & -> & _) | done]|].
  intros _ w3 (a3 & t3 & -> & Hg3 & Ht3). destruct (flags_grow_bits _ _ Hg3) as [Hc3 Hb3]. specialize (Hc3 Hc2). cbn [w_heap w_sock w_trace] in *.
  pose proof (flags_grow_trans _ _ _ (flags_grow_table true None _ _ Hg12) Hg3) as Hg13.
  apply ends_bind. eapply ends_mono; [apply (end_subscriptions_closing false dp _ a3); [done | done | by rewrite Hb3, bit_table, Hb2, bit_queue, Hb1 | by destruct Hg13 as (g & -> & _) | done]|].
  intros _ w4 (a4 & t4 & -> & Hg4 & Ht4). destruct (flags_grow_bits _ _ Hg4) as [Hc4 Hb4]. cbn [w_heap w_sock w_trace] in *.
  pose proof (flags_grow_trans _ _ _ (flags_grow_table false None _ _ Hg13) Hg4) as Hg14.
  apply ends_bind. eapply ends_mono; [by apply (EL_ends _ _ a4)|]. intros _ w5 (t5 & -> & Ht5). cbn [w_heap w_sock w_trace] in *.
  apply ends_bind. eapply ends_done; [done|]. cbn [w_ac].
  assert (invalid a1 = invalid a) as Hinv by (by destruct Hg1 as (g & -> & _)). cbn [queue] in Ht1, Ht2. rewrite Hinv in Ht2.
  destruct Hg14 as (g & -> & Hg). set (a5 := with_c _ _).
  assert (flagged a5 REDIS_CONNECTED = bit a 1) as Hcon by (rewrite (flagged_bit _ _ 1) by done; by apply (Hg 1)).
  set (s := if flagged a5 REDIS_FREEING then Read.REDIS_OK else if ac_err a5 =? 0 then Read.REDIS_OK else Read.REDIS_ERR).
  assert (bit a 3 = true \/ ac_err a = 0 -> s = Read.REDIS_OK) as Hs.
  { intros Hx. unfold s. destruct (flagged a5 REDIS_FREEING) eqn:Ef; [done|]. rewrite (flagged_bit _ _ 3) in Ef by done. destruct Hx as [Hx|Hx].
    - change (bit a5 3) with (Z.testbit g 3) in Ef. by rewrite (proj1 (Hg 3 ltac:(lia)) Hx) in Ef.
    - cbn [ac_err a5 with_c with_table with_patterns with_channels with_queue with_invalid with_replies]. by rewrite Hx. }
  change (onDisconnect a5) with (onDisconnect a). change (dataHandler a5) with (dataHandler a). rewrite Hcon.
  set (ds := if bit a 1 then match onDisconnect a with Some _ => [s] | None => [] end else []).
  set (t6 := map OnDisconnect ds ++ match dataHandler a with Some _ => [DataHandled] | None => [] end).
  assert (says t6 [] ds) as Ht6 by (unfold t6, ds; by destruct (bit a 1), (onDisconnect a), (dataHandler a)).
  eapply ends_done; [|exists (t1 ++ t2 ++ t3 ++ t4 ++ t5 ++ t6), s; split; [reflexivity|]; split; [|exact Hs]].
  - unfold t6, ds, bind, pure, get_heap, put_heap, drop_ac, log, need, rbind. cbn [w_heap]. change (redisFree (ac_c a5)) with (redisFree (ac_c a)).
    destruct (bit a 1), (onDisconnect a), (dataHandler a); cbn [w_heap w_ac w_sock w_trace map app]; rewrite Hfree; cbn; rewrite <- ?app_assoc, ?app_nil_r; done.
  - pose proof (says_app _ _ _ _ _ _ Ht1 (says_app _ _ _ _ _ _ Ht2 (says_app _ _ _ _ _ _ Ht3 (says_app _ _ _ _ _ _ Ht4 (says_app _ _ _ _ _ _ Ht5 Ht6))))) as Ht.
    cbn [app] in Ht. rewrite app_nil_r in Ht. unfold owed. by rewrite !null_calls_app.
Qed.

(** C10: freeing an asynchronous context settles every debt. Whatever the callbacks do when they
    are called (issue commands, disconnect, free), [redisAsyncFree] outside of a callback
    calls the callbacks of all waiting commands, of the commands that were invalid, and of
    all subscriptions exactly once, with NULL and in this order, calls the disconnect
    callback at most once and with REDIS_OK, and frees the context once. *)
Theorem free_settles (w : world) (a : redisAsyncContext) (dc dp : subscriptions) (h : heap)
    (Hlive : w_ac w = Some a) (Houtside : bit a 4 = false) (Hchannels : channels a = Some dc) (Hpatterns : patterns a = Some dp)
    (Hdc : table_fine dc) (Hdp : table_fine dp) (Hreader : redisFree (ac_c a) (w_heap w) = Some h) :
  exists t, redisAsyncFree user w = Some (Ret (tt, mk_world None h (w_sock w) (w_trace w ++ t))) /\
    calls t = null_calls (owed a dc dp) /\
    disconnects t = if bit a 1 then match onDisconnect a with Some _ => [Read.REDIS_OK] | None => [] end else [].
Proof.
  set (a1 := set_flag REDIS_FREEING a). assert (forall j, 0 <= j -> bit a1 j = (bit a j || bool_decide (3 = j))%bool) as Hb by (intros j Hj; by apply (set_flag_bit _ _ 3)).
  destruct (async_free_spec (mk_world (Some a1) (w_heap w) (w_sock w) (w_trace w)) a1 dc dp h) as ([] & w' & E & t & s & -> & [Hcs Hds] & Hs); try done.
  { unfold closing. rewrite !Hb by done. by rewrite orb_true_r, orb_true_r. }
  { rewrite Hb by done. by rewrite Houtside. }
  exists t. split.
  - unfold redisAsyncFree, free_with, modify_ac, bind, get_ac, need, put_ac. rewrite Hlive. cbn [rbind pure w_ac]. fold a1.
    rewrite (flagged_bit _ _ 4), Hb, Houtside by done. exact E.
  - split; [exact Hcs|]. rewrite Hds, Hb by done. rewrite bool_decide_false, orb_false_r by done. change (onDisconnect a1) with (onDisconnect a).
    destruct (bit a 1), (onDisconnect a); try done.
    rewrite Hs; [done|]. left. rewrite Hb by done. apply orb_true_r.
Qed.

(** An answer of the socket that ends the connection. *)
Definition breaks (c : redisContext) (x : rres) : Prop :=
  match x with RBytes d => d = [] | RErr e => snd (io_error strerror c e) = false end.

Lemma broken_read c h s x p : cerr c = 0 -> rplan s = x :: p -> breaks c x ->
  exists type msg, redisBufferRead strerror c h s = Some (Ret (Read.REDIS_ERR, redisSetError c type msg, h, mk_socket (wplan s) p (sent s))) /\ type <> 0.
Proof.
  intros He Ep Hx. unfold redisBufferRead. rewrite He, Ep. destruct x as [d|e]; cbn [breaks] in Hx; cbn [Z.eqb negb].
  - subst d. by eexists _, _.
  - unfold io_error in *. destruct (_ || _); [done|]. destruct (_ && _); by eexists _, _.
Qed.

(** C11: a connection that is lost settles every debt. When a read event finds that the server
    has closed the connection or that the socket has failed, every waiting callback is called
    exactly once, with NULL and in the order of the commands, whatever the callbacks do; the
    disconnect callback is called once if it is set, and the context is freed once. *)
Theorem lost_settles (o : Net.sockopt) (w : world) (a : redisAsyncContext) (dc dp : subscriptions) (h : heap) (x : rres) (p : list rres)
    (Hlive : w_ac w = Some a) (Hconnected : bit a 1 = true) (Houtside : bit a 4 = false) (Hfine : cerr (ac_c a) = 0)
    (Hchannels : channels a = Some dc) (Hpatterns : patterns a = Some dp)
    (Hdc : table_fine dc) (Hdp : table_fine dp) (Hreader : redisFree (ac_c a) (w_heap w) = Some h)
    (Hplan : rplan (w_sock w) = x :: p) (Hbreaks : breaks (ac_c a) x) :
  exists t s, redisAsyncHandleRead strerror user o w = Some (Ret (tt, mk_world None h s (w_trace w ++ t))) /\
    calls t = null_calls (owed a dc dp) /\ length (disconnects t) = match onDisconnect a with Some _ => 1%nat | None => 0%nat end.
Proof.
  destruct (broken_read (ac_c a) (w_heap w) (w_sock w) x p Hfine Hplan Hbreaks) as (type & msg & Er & Hty).
  set (a1 := set_flag REDIS_DISCONNECTING (with_err type (with_c (redisSetError (ac_c a) type msg) a))).
  assert (forall j, 0 <= j -> bit a1 j = (bit a j || bool_decide (2 = j))%bool) as Hb by (intros j Hj; unfold a1; by rewrite (set_flag_bit _ _ 2)).
  set (s := mk_socket (wplan (w_sock w)) p (sent (w_sock w))).
  destruct (async_free_spec (mk_world (Some a1) (w_heap w) s (w_trace w)) a1 dc dp h) as ([] & w' & E & t & st & -> & [Hcs Hds] & _); try done.
  { unfold closing. rewrite !Hb by done. rewrite bool_decide_true, orb_true_r by done. done. }
  { rewrite Hb by done. by rewrite Houtside. }
  exists t, s. split; [|split; [exact Hcs|]].
  - unfold redisAsyncHandleRead. rewrite (bind_ret _ _ w true w).
    2:{ unfold connected. rewrite (bind_ret _ _ w a w) by (by apply get_live). by rewrite (flagged_bit _ _ 1), Hconnected. }
    cbn [negb]. rewrite (bind_ret _ _ w a w) by (by apply get_live). rewrite (bind_ret _ _ w (w_heap w) w), (bind_ret _ _ w (w_sock w) w) by done.
    erewrite (bind_ret _ _ w _ w) by (unfold io; by rewrite Er). cbn beta iota. do 3 (erewrite bind_ret by reflexivity). rewrite Z.eqb_refl.
    unfold async_disconnect. do 2 (erewrite bind_ret by reflexivity).
    cbn [ac_err with_err copy_error with_c ac_c redisSetError cerr]. rewrite (proj2 (Z.eqb_neq _ _)) by done. erewrite bind_ret by reflexivity. exact E.
  - rewrite Hds, Hb by done. rewrite Hconnected. change (onDisconnect a1) with (onDisconnect a). by destruct (onDisconnect a).
Qed.

End Closing.

(** ** Exactly once *)

(** The commands that were accepted. *)
Definition accepted (t : list event) : list redisCallback :=
  omap (fun e => match e with Issued cb s => if s =? Read.REDIS_OK then Some cb else None | _ => None end) t.

Lemma accepted_app t t' : accepted (t ++ t') = accepted t ++ accepted t'.
Proof. apply omap_app. Qed.

(** The callbacks that wait for a reply. *)
Definition waiting (o : option redisAsyncContext) : list redisCallback := match o with Some a => replies a | None => [] end.

(** Every accepted callback was called or waits, in the order of the commands, but for those in
    [held], which were taken from the queue and are about to be called. *)
Definition balanced (held : list redisCallback) (o : option redisAsyncContext) (t : list event) : Prop :=
  filter has_fn (accepted t) = (calls t).*1 ++ filter has_fn (held ++ waiting o).

(** No subscription. *)
Definition no_entries (o : option subscriptions) : Prop := forall d, o = Some d -> table_fine d /\ concat (Dict.table d) = [].

Definition plain (a : redisAsyncContext) : Prop :=
  invalid a = [] /\ bit a 0 = false /\ bit a 5 = false /\ bit a 6 = false /\ no_entries (channels a) /\ no_entries (patterns a).

Definition safe (held : list redisCallback) (w : world) : Prop := (forall a, w_ac w = Some a -> plain a) /\ balanced held (w_ac w) (w_trace w).

(** A computation after which the balance is the same. *)
Definition keeps {X} (m : A X) : Prop := forall held w, safe held w -> ok w m (fun _ w' => safe held w').

(** What does not concern the balance. *)
Definition quiet (e : event) : Prop := accepted [e] = [] /\ calls [e] = [].

(** The same for the context. *)
Definition alike (a a' : redisAsyncContext) : Prop := replies a' = replies a /\ (plain a -> plain a').

Lemma ok_ret {X} w (x : X) (Q : X -> world -> Prop) : Q x w -> ok w (pure x) Q.
Proof. intros HQ x' w' E. by injection E as <- <-. Qed.

Lemma ok_get w (Q : redisAsyncContext -> world -> Prop) : (forall a, w_ac w = Some a -> Q a w) -> ok w get_ac Q.
Proof. intros HQ x w'. unfold get_ac, need. destruct (w_ac w) as [a|] eqn:E; [|done]. intros [= <- <-]. by apply HQ. Qed.

Lemma ok_need {X} w (o : option X) (Q : X -> world -> Prop) : (forall x, o = Some x -> Q x w) -> ok w (need o) Q.
Proof. destruct o as [x|]; [intros HQ; apply ok_ret; by apply HQ | done]. Qed.

Lemma ok_io {X} w (o : option (run X)) (Q : X -> world -> Prop) : (forall x, o = Some (Ret x) -> Q x w) -> ok w (io o) Q.
Proof. intros HQ x w'. unfold io. destruct o as [[y|]|]; [|done..]. intros [= <- <-]. by apply HQ. Qed.

Lemma ok_put w a (Q : unit -> world -> Prop) : Q tt (mk_world (Some a) (w_heap w) (w_sock w) (w_trace w)) -> ok w (put_ac a) Q.
Proof. intros HQ x w' E. by injection E as <- <-. Qed.

Lemma safe_swap held w a a' h s : safe held w -> w_ac w = Some a -> alike a a' -> safe held (mk_world (Some a') h s (w_trace w)).
Proof.
  intros [Hp Hb] Ha [Hr Hpl]. split; cbn [w_ac w_trace].
  - intros b [= <-]. by apply Hpl, Hp.
  - unfold balanced in *. rewrite Ha in Hb. cbn [waiting] in *. by rewrite Hr.
Qed.

Lemma safe_io held w h s : safe held w -> safe held (mk_world (w_ac w) h s (w_trace w)).
Proof. done. Qed.

Lemma safe_log held w e : safe held w -> quiet e -> safe held (mk_world (w_ac w) (w_heap w) (w_sock w) (w_trace w ++ [e])).
Proof. intros [Hp Hb] [Ha Hc]. split; [done|]. unfold balanced in *. cbn [w_ac w_trace]. rewrite accepted_app, calls_app, Ha, Hc. by rewrite !app_nil_r. Qed.

Lemma keeps_pure {X} (x : X) : keeps (pure x).
Proof. intros held w Hs. by apply ok_ret. Qed.

Lemma keeps_bind {X Y} (m : A X) (k : X -> A Y) : keeps m -> (forall x, keeps (k x)) -> keeps (bind m k).
Proof. intros Hm Hk held w Hs. apply ok_bind. eapply ok_mono; [by apply Hm|]. intros x w1 H1. by apply Hk. Qed.

Lemma keeps_need {X} (o : option X) : keeps (need o).
Proof. intros held w Hs. by apply ok_need. Qed.

Lemma keeps_get : keeps get_ac.
Proof. intros held w Hs. by apply ok_get. Qed.

Lemma keeps_heap : keeps get_heap.
Proof. intros held w Hs x w' E. by injection E as <- <-. Qed.

Lemma keeps_put_heap h : keeps (put_heap h).
Proof. intros held w Hs x w' E. by injection E as <- <-. Qed.

Lemma keeps_sock : keeps get_sock.
Proof. intros held w Hs x w' E. by injection E as <- <-. Qed.

Lemma keeps_put_sock s : keeps (put_sock s).
Proof. intros held w Hs x w' E. by injection E as <- <-. Qed.

Lemma keeps_log e : quiet e -> keeps (log e).
Proof. intros He held w Hs x w' E. injection E as <- <-. by apply safe_log. Qed.

Lemma keeps_modify f : (forall a, alike a (f a)) -> keeps (modify_ac f).
Proof. intros Hf held w Hs. apply ok_bind, ok_get. intros a Ha. apply ok_put. by apply (safe_swap held w a). Qed.

Create HintDb keeps.
#[local] Hint Resolve keeps_pure keeps_need keeps_get keeps_heap keeps_put_heap keeps_sock keeps_put_sock : keeps.

Lemma EL_keeps k : keeps (EL k).
Proof. apply keeps_bind; [auto with keeps|]. intros a. case_bool_decide; [by apply keeps_log | auto with keeps]. Qed.

(** Flags other than those a plain context has unset. *)
Lemma alike_flags a f : (forall i, i = 0 \/ i = 5 \/ i = 6 -> Z.testbit f i = bit a i) -> alike a (with_c (with_flags f (ac_c a)) a).
Proof. intros Hf. split; [done|]. intros (Hi & H0 & H5 & H6 & Hc & Hd). split_and!; try done.
  - exact (eq_trans (Hf 0 ltac:(auto)) H0).
  - exact (eq_trans (Hf 5 ltac:(auto)) H5).
  - exact (eq_trans (Hf 6 ltac:(auto)) H6).
Qed.

Lemma alike_set f i a : 0 <= i -> f = 2 ^ i -> i <> 0 -> i <> 5 -> i <> 6 -> alike a (set_flag f a).
Proof.
  intros Hi Hf H0 H5 H6. apply alike_flags. intros j Hj. rewrite (lor_bit _ f i) by lia. rewrite bool_decide_false by lia. apply orb_false_r.
Qed.

Lemma alike_clear f i a : 0 <= i -> f = 2 ^ i -> alike a (clear_flag f a).
Proof.
  intros Hi Hf. split; [done|]. intros (Hv & H0 & H5 & H6 & Hc & Hd). split_and!; try done; rewrite (clear_flag_bit _ _ i) by (done || lia).
  - by rewrite H0. - by rewrite H5. - by rewrite H6.
Qed.

Lemma alike_c c a : cflags c = cflags (ac_c a) -> alike a (with_c c a).
Proof. intros Hc. split; [done|]. intros (Hv & H0 & H5 & H6 & Hd & Hp). split_and!; try done; unfold bit; cbn [ac_c with_c]; by rewrite Hc. Qed.

(** *** Flags and hiredis.c *)

Section Flags.
Context `{Memory} (strerror : Z -> bytes).

Lemma io_error_flags c e : cflags (io_error strerror c e).1 = cflags c.
Proof. unfold io_error. by repeat case_match. Qed.

Lemma append_flags c cmd len r c' : redisAppend c cmd len = Some (r, c') -> cflags c' = cflags c.
Proof. unfold redisAppend. intros E. simplify_option_eq. destruct (Sds.sdscatlen _ _ _) as [[nb|]|]; by simplify_eq. Qed.

Lemma read_flags c h s r c' h' s' : redisBufferRead strerror c h s = Some (Ret (r, c', h', s')) -> cflags c' = cflags c.
Proof.
  unfold redisBufferRead. destruct (negb _); [by intros [= <- <- <- <-]|]. destruct (rplan s) as [|[d|e] p]; [done| |].
  - destruct (_ <? _); [done|]. destruct (_ =? _); [by intros [= <- <- <- <-]|]. destruct (creader c) as [rd|]; [|done]. cbn [mbind option_bind].
    destruct (Read.redisReaderFeed _ _ _ _) as [[[ret rd'] h1]|]; [|done]. cbn [mbind option_bind]. by destruct (negb _); intros [= <- <- <- <-].
  - pose proof (io_error_flags c e) as Hf. destruct (io_error strerror c e) as [c1 again]. by intros [= <- <- <- <-].
Qed.

Lemma write_flags c s r c' s' d : redisBufferWrite strerror c s = Some (Ret (r, c', s', d)) -> cflags c' = cflags c.
Proof.
  unfold redisBufferWrite. destruct (negb _); [by intros [= <- <- <- <-]|]. destruct (obuf c) as [b|]; [|done]. cbn [mbind option_bind].
  destruct (0 <? _); [|by intros [= <- <- <- <-]]. destruct (wplan s) as [|[k|e] p]; [done| |].
  - destruct (if 0 <? _ then _ else _) as [c1|] eqn:E1; [|done]. cbn [mbind option_bind]. destruct (obuf_len c1) as [l|]; [|done]. cbn [mbind option_bind].
    intros [= <- <- <- <-]. destruct (0 <? _); [|by injection E1 as <-]. destruct (_ =? _); simplify_option_eq; done.
  - pose proof (io_error_flags c e) as Hf. destruct (io_error strerror c e) as [c1 [|]]; by intros [= <- <- <- <-].
Qed.

Lemma reply_flags c h s r o c' h' s' : blocking c = false -> redisGetReply strerror c h s = Some (Ret (r, o, c', h', s')) -> cflags c' = cflags c /\ s' = s.
Proof.
  intros Hn. unfold redisGetReply, redisGetReplyFromReader. destruct (creader c) as [rd|]; [|done]. cbn [mbind option_bind].
  destruct (Read.redisReaderGetReply _ _ _) as [[[[ret rep] rd'] h1]|]; [|done]. cbn [mbind option_bind].
  destruct (ret =? Read.REDIS_ERR); cbn [mbind option_bind].
  - by intros [= <- <- <- <- <-].
  - destruct (_ =? _); [by intros [= <- <- <- <- <-]|]. destruct rep; [by intros [= <- <- <- <- <-]|].
    replace (blocking (with_reader c rd')) with (blocking c) by done. rewrite Hn. by intros [= <- <- <- <- <-].
Qed.

Lemma sockerr_flags c o : cflags (Net.redisCheckSocketError strerror c o).2 = cflags c.
Proof. unfold Net.redisCheckSocketError. by repeat case_match. Qed.

End Flags.

(** *** The library keeps the balance *)

Section Once.
Context `{Memory} (Hmem : has_memory) (strerror : Z -> bytes) (user : list event -> list action).

(** Programs that use plain commands only. *)
Definition plain_action (x : action) : Prop := match x with Issue _ cmd _ => classify cmd = Some Regular | _ => True end.
Context (Huser : forall t, Forall plain_action (user t)).

#[local] Hint Resolve keeps_pure keeps_need keeps_get keeps_heap keeps_put_heap keeps_sock keeps_put_sock EL_keeps : keeps.

Lemma keeps_mono {X} (m : A X) held w : keeps m -> safe held w -> ok w m (fun _ w' => safe held w').
Proof. intros Hm. apply Hm. Qed.

(** An accepted command joins the queue. *)
Lemma redisAsyncFormattedCommand_keeps cb cmd len : classify cmd = Some Regular -> keeps (redisAsyncFormattedCommand cb cmd len).
Proof.
  intros Hcls held w Hs. unfold redisAsyncFormattedCommand, issue. apply ok_bind, ok_bind, ok_get. intros a Ha. destruct (flagged a _).
  { apply ok_ret. apply ok_bind. eapply ok_mono; [by apply keeps_log|]. intros. by apply ok_ret. }
  rewrite Hcls. apply ok_bind, ok_ret, ok_bind, ok_need. intros a1 E1. destruct Hs as [Hp Hb]. pose proof (Hp a Ha) as Hpa.
  cbn [register] in E1. rewrite (flagged_bit _ _ 5) in E1 by done. destruct Hpa as (Hv & H0 & H5 & H6 & Hc & Hd). rewrite H5 in E1. injection E1 as <-.
  apply ok_bind, ok_need. intros [r c] Er. apply append_flags in Er. apply ok_bind, ok_put. unfold redisPushCallback. rewrite Hmem.
  set (a1 := with_c c _). assert (plain a1) as Hp1 by (split_and!; try done; unfold bit; cbn [ac_c a1 with_c]; by rewrite Er).
  apply ok_bind. intros x w1 E1. unfold EL, bind, get_ac in E1. cbn in E1.
  assert (exists t, w1 = mk_world (Some a1) (w_heap w) (w_sock w) (w_trace w ++ t) /\ accepted t = [] /\ calls t = []) as (t & -> & Ht).
  { case_bool_decide; injection E1 as <- <-; [by exists [Hooked AddWrite] | exists []; by rewrite app_nil_r]. }
  destruct Ht as [Ht1 Ht2]. apply ok_ret, ok_bind. intros y w2 E2. injection E2 as <- <-. apply ok_ret. split; cbn [w_ac w_trace]; [by intros ? [= <-]|].
  unfold balanced in *. rewrite Ha in Hb. cbn [waiting] in *. rewrite !accepted_app, !calls_app, Ht1, Ht2, !app_nil_r, filter_app, Hb. 
  cbn [replies a1 with_c with_replies]. by rewrite (app_assoc held), (filter_app _ (held ++ _)), app_assoc.
Qed.

Lemma act_keeps x : plain_action x -> keeps (act x).
Proof.
  destruct x as [cb cmd len| |]; cbn [plain_action act]; intros Hx.
  - apply keeps_bind; [by apply redisAsyncFormattedCommand_keeps | auto with keeps].
  - apply keeps_bind; [apply keeps_modify; intros a; by apply (alike_set _ 2)|]. intros _. apply keeps_bind; [auto with keeps|]. intros a. destruct (_ && _); [by intros held w Hs | auto with keeps].
  - apply keeps_bind; [apply keeps_modify; intros a; by apply (alike_set _ 3)|]. intros _. apply keeps_bind; [auto with keeps|]. intros a. destruct (flagged _ _); [auto with keeps | by intros held w Hs].
Qed.

Lemma acts_keeps l : Forall plain_action l -> keeps (acts l).
Proof. induction 1; cbn [acts]; [auto with keeps|]. apply keeps_bind; [by apply act_keeps | done]. Qed.

Lemma seen_keeps r : keeps (seen r).
Proof. destruct r; cbn [seen]; [|auto with keeps]. repeat (apply keeps_bind; [auto with keeps|]; intros ?). auto with keeps. Qed.

(** The callback that was taken is called. *)
Lemma redisRunCallback_safe cb r w : safe [cb] w -> ok w (redisRunCallback user cb r) (fun _ w' => safe [] w').
Proof.
  intros Hs. unfold redisRunCallback. destruct (fn cb) as [f|] eqn:Ef.
  2:{ apply ok_ret. destruct Hs as [Hp Hb]. split; [done|]. unfold balanced in *. rewrite filter_app, filter_cons_False in Hb; [done|]. unfold has_fn. rewrite Ef. by intros [? ?]. }
  apply ok_bind. eapply ok_mono; [by apply keeps_modify; [intros a; by apply (alike_set _ 4)|]|]. intros ? w1 H1. cbn beta in H1.
  apply ok_bind. eapply ok_mono; [by apply seen_keeps|]. intros v w2 H2. cbn beta in H2.
  apply ok_bind. intros ? w3 E3. injection E3 as _ <-. set (w3 := mk_world _ _ _ _). assert (safe [] w3) as H3.
  { destruct H2 as [Hp Hb]. split; [done|]. unfold balanced in *. unfold w3. cbn [w_ac w_trace]. rewrite accepted_app, calls_app, fmap_app, app_nil_r, Hb.
    rewrite filter_app, filter_cons_True by (by exists f). rewrite filter_nil, <- !app_assoc. done. }
  apply ok_bind. intros t w4 E4. injection E4 as <- <-. apply ok_bind. eapply ok_mono; [by apply acts_keeps|]. intros ? w5 H5. cbn beta in H5.
  apply keeps_modify; [|done]. intros a. by apply (alike_clear _ 4).
Qed.

(** Taking the callback of the first command. *)
Lemma safe_take w a cb l : safe [] w -> w_ac w = Some a -> replies a = cb :: l -> safe [cb] (mk_world (Some (with_replies l a)) (w_heap w) (w_sock w) (w_trace w)).
Proof.
  intros [Hp Hb] Ha Hr. split; cbn [w_ac w_trace].
  - intros b [= <-]. destruct (Hp a Ha) as (Hv & H0 & H5 & H6 & Hc & Hd). by split_and!.
  - unfold balanced in *. rewrite Ha in Hb. cbn [waiting] in *. rewrite Hr in Hb. exact Hb.
Qed.

(** All is settled. *)
Definition settled (w : world) : Prop := safe [] w /\ waiting (w_ac w) = [].

Lemma run_pending_settles f : forall w, safe [] w -> ok w (run_pending user f true) (fun _ w' => settled w').
Proof.
  induction f as [|f IH]; intros w Hs; [by intros ? ?|]. cbn [run_pending]. apply ok_bind, ok_get. intros a Ha. cbn [queue with_queue].
  destruct (replies a) as [|cb l] eqn:Er; cbn [redisShiftCallback].
  - apply ok_ret. split; [done|]. by rewrite Ha.
  - apply ok_bind, ok_put, ok_bind. eapply ok_mono; [apply redisRunCallback_safe; by apply safe_take|]. intros ? w1 H1. by apply IH.
Qed.

Lemma run_invalid f w : settled w -> ok w (run_pending user f false) (fun _ w' => settled w').
Proof.
  intros Hs. destruct f as [|f]; [by intros ? ?|]. cbn [run_pending]. apply ok_bind, ok_get. intros a Ha. cbn [queue]. destruct (proj1 Hs) as [Hp _].
  destruct (Hp a Ha) as (-> & _). cbn [redisShiftCallback]. by apply ok_ret.
Qed.

Lemma plain_table channel a d : plain a -> table_of channel a = Some d -> table_fine d /\ concat (Dict.table d) = [].
Proof. intros (_ & _ & _ & _ & Hc & Hp). destruct channel; [apply Hc | apply Hp]. Qed.

Lemma end_subscriptions_settled channel w : settled w -> ok w (end_subscriptions user channel) (fun _ w' => settled w').
Proof.
  intros Hs. unfold end_subscriptions. apply ok_bind, ok_get. intros a Ha. apply ok_bind, ok_need. intros d Hd. destruct (proj1 Hs) as [Hp Hb].
  destruct (plain_table channel a d (Hp a Ha) Hd) as [[Hwf Hsz] Hn]. unfold Dict.dictGetIterator. rewrite Hmem. apply ok_bind, ok_ret, ok_bind. rewrite Hn.
  cbn [length run_subscribers]. apply ok_bind, ok_get. intros a1 Ha1. rewrite Ha in Ha1. injection Ha1 as <-. apply ok_bind. rewrite Hd. apply ok_ret.
  destruct (Dict.dictNext_spec d (Dict.mk_iter (-1) [] []) Hwf Hsz) as (r & it' & -> & Hr); [by right|]. apply ok_bind, ok_ret. cbn beta iota.
  change (Dict.remaining d (Dict.mk_iter (-1) [] [])) with (concat (Dict.table d)) in Hr. rewrite Hn in Hr.
  destruct r as [[k cb]|]; [by destruct Hr|]. apply ok_ret. apply ok_bind, ok_get. intros a1 Ha1. rewrite Ha in Ha1. injection Ha1 as <-. apply ok_put.
  destruct Hs as [_ Hw]. rewrite Ha in Hw, Hb. cbn [waiting] in Hw.
  destruct (Hp a Ha) as (Hv & H0 & H5 & H6 & Hc & Hpt). split; [split|]; cbn [w_ac w_trace].
  - intros b [= <-]. destruct channel; by split_and!.
  - destruct channel; exact Hb.
  - by destruct channel.
Qed.

(** The context may be freed when all is settled. *)
Lemma async_free_safe w : safe [] w -> ok w (async_free user) (fun _ w' => safe [] w').
Proof.
  intros Hs. unfold async_free. apply ok_bind, ok_get. intros a0 _. apply ok_bind. eapply ok_mono; [by apply run_pending_settles|]. intros ? w1 H1. cbn beta in H1.
  apply ok_bind, ok_get. intros a1 _. apply ok_bind. eapply ok_mono; [by apply run_invalid|]. intros ? w2 H2. cbn beta in H2.
  apply ok_bind. eapply ok_mono; [by apply end_subscriptions_settled|]. intros ? w3 H3. cbn beta in H3.
  apply ok_bind. eapply ok_mono; [by apply end_subscriptions_settled|]. intros ? w4 [H4 Hw4].
  assert (balanced [] None (w_trace w4)) as Hb by (destruct H4 as [_ H4]; unfold balanced in *; by rewrite Hw4 in H4).
  assert (forall e t, quiet e -> balanced [] None t -> balanced [] None (t ++ [e])) as Hlog.
  { intros e t [Ha Hc] Ht. unfold balanced in *. rewrite accepted_app, calls_app, Ha, Hc, (app_nil_r (accepted t)), (app_nil_r (calls t)). exact Ht. }
  assert (forall k w, balanced [] None (w_trace w) -> ok w (EL k) (fun _ w' => balanced [] None (w_trace w'))) as HEL.
  { intros k w' Hw'. apply ok_bind, ok_get. intros a _. case_bool_decide; [|by apply ok_ret]. intros ? ? E. injection E as <- <-. by apply Hlog. }
  apply ok_bind. eapply ok_mono; [by apply HEL|]. intros ? w5 H5. cbn beta in H5. apply ok_bind, ok_get. intros a Ha.
  apply ok_bind. apply (ok_mono _ _ (fun _ w' => balanced [] None (w_trace w'))).
  { destruct (onDisconnect a); [|by apply ok_ret]. destruct (flagged _ _); [|by apply ok_ret]. intros ? ? E. injection E as <- <-. by apply Hlog. }
  intros ? w6 H6. apply ok_bind. apply (ok_mono _ _ (fun _ w' => balanced [] None (w_trace w'))).
  { destruct (dataHandler a); [|by apply ok_ret]. intros ? ? E. injection E as <- <-. by apply Hlog. }
  intros ? w7 H7. apply ok_bind. intros ? ? E. injection E as <- <-. apply ok_bind, ok_need. intros h Hh. apply ok_bind. intros ? ? E. injection E as <- <-.
  intros ? ? E. injection E as <- <-. split; [done|]. exact H7.
Qed.

Lemma alike_err e a : alike a (with_err e a).
Proof. by split. Qed.

Lemma async_disconnect_safe w : safe [] w -> ok w (async_disconnect user) (fun _ w' => safe [] w').
Proof.
  intros Hs. unfold async_disconnect. apply ok_bind. eapply ok_mono; [by apply keeps_modify; [intros a; apply alike_err|]|]. intros ? w1 H1. cbn beta in H1.
  apply ok_bind, ok_get. intros a Ha. apply ok_bind. apply (ok_mono _ _ (fun _ w' => safe [] w')).
  { destruct (_ =? _); [by apply ok_need|]. by apply keeps_modify; [intros ?; apply (alike_set _ 2)|]. }
  intros ? w2 H2. by apply async_free_safe.
Qed.

Lemma freeObject_keeps l : keeps (freeObject l).
Proof. repeat (apply keeps_bind; [auto with keeps|]; intros ?). auto with keeps. Qed.

Lemma plain_blocking a : plain a -> blocking (ac_c a) = false.
Proof. intros (_ & H0 & _). unfold blocking. by rewrite (flag_bit REDIS_BLOCK 0). Qed.

Lemma getReply_keeps : keeps (getReply strerror).
Proof.
  intros held w Hs. unfold getReply. apply ok_bind, ok_get. intros a Ha. apply ok_bind. intros ? ? E. injection E as <- <-. apply ok_bind. intros ? ? E. injection E as <- <-.
  apply ok_bind, ok_io. intros [[[[ret rep] c] h] s] E. apply reply_flags in E as [Hc _]; [|by apply plain_blocking, Hs]. cbn beta iota.
  apply ok_bind, ok_put, ok_bind. intros ? ? E. injection E as <- <-. apply ok_bind. intros ? ? E. injection E as <- <-. apply ok_bind, ok_need. intros o _. apply ok_ret.
  apply (safe_swap held w a); [done..|]. by apply alike_c.
Qed.

(** Without a waiting command a plain context can only be given an error. *)
Lemma spontaneous_safe l cb w : safe [] w -> ok w (spontaneous user l cb) (fun o w' => o = None /\ safe [] w').
Proof.
  intros Hs. unfold spontaneous. apply ok_bind, ok_get. intros a Ha. apply ok_bind. intros ? ? E. injection E as <- <-. apply ok_bind, ok_need. intros r Hr.
  destruct (rtype r =? _).
  - apply ok_bind, ok_need. intros msg _. apply ok_bind, ok_put, ok_bind. eapply ok_mono; [apply freeObject_keeps; eapply (safe_swap [] w a); [done..|]; by apply alike_c|].
    intros ? w1 H1. cbn beta in H1. apply ok_bind. eapply ok_mono; [by apply async_disconnect_safe|]. intros ? w2 H2. by apply ok_ret.
  - apply ok_bind, ok_need. rewrite (flagged_bit _ _ 5), (flagged_bit _ _ 6) by done. destruct Hs as [Hp _]. destruct (Hp a Ha) as (_ & _ & -> & -> & _). done.
Qed.

Lemma process_loop_safe f : forall cb w, safe [] w -> ok w (process_loop strerror user f cb) (fun _ w' => safe [] w').
Proof.
  induction f as [|f IH]; intros cb w Hs; [by intros ? ?|]. cbn [process_loop]. apply ok_bind. eapply ok_mono; [by apply getReply_keeps|]. intros [status reply] w1 H1.
  cbn beta iota in H1 |- *. destruct (negb _); [by apply async_disconnect_safe|]. apply ok_bind, ok_get. intros a Ha. destruct reply as [l|].
  2:{ apply ok_bind. apply (ok_mono _ _ (fun _ w' => safe [] w')).
      - destruct (flagged _ _); [|by apply ok_ret]. apply ok_bind, ok_need. intros n _. by apply ok_ret.
      - intros [|] w2 H2; [by apply async_disconnect_safe|]. rewrite (flagged_bit _ _ 6) by done. destruct H1 as [Hp _]. destruct (Hp a Ha) as (_ & _ & _ & -> & _). by apply ok_ret. }
  apply ok_bind. destruct (replies a) as [|cb1 rest] eqn:Er; cbn [redisShiftCallback].
  - eapply ok_mono; [by apply spontaneous_safe|]. intros o w2 [-> H2]. by apply ok_ret.
  - apply ok_bind, ok_put, ok_ret. pose proof (safe_take _ _ _ _ H1 Ha Er) as H2. set (w2 := mk_world _ _ _ _) in *. destruct (fn cb1) as [g|] eqn:Eg.
    + apply ok_bind. eapply ok_mono; [by apply redisRunCallback_safe|]. intros ? w3 H3. cbn beta in H3. apply ok_bind. eapply ok_mono; [by apply freeObject_keeps|].
      intros ? w4 H4. cbn beta in H4. apply ok_bind, ok_get. intros a4 _. destruct (flagged _ _); [by apply async_free_safe | by apply IH].
    + assert (safe [] w2) as H2' by (pose proof (redisRunCallback_safe cb1 None w2 H2) as Hr; unfold redisRunCallback in Hr; rewrite Eg in Hr; by apply (Hr tt)).
      apply ok_bind. eapply ok_mono; [by apply freeObject_keeps|]. intros ? w3 H3. by apply IH.
Qed.

(** *** Events *)

Lemma connected_safe o w : safe [] w -> ok w (connected strerror user o) (fun _ w' => safe [] w').
Proof.
  intros Hs. unfold connected. apply ok_bind, ok_get. intros a Ha. destruct (flagged _ _); [by apply ok_ret|]. apply ok_bind.
  apply (ok_mono _ _ (fun _ w' => safe [] w')).
  2:{ intros ret w1 H1. destruct (negb _); [by apply ok_ret|]. apply ok_bind, ok_get. intros a1 _. by apply ok_ret. }
  unfold handle_connect. apply ok_bind, ok_get. intros a1 Ha1. rewrite Ha in Ha1. injection Ha1 as <-. pose proof (sockerr_flags strerror (ac_c a) o) as Hf.
  destruct (Net.redisCheckSocketError strerror (ac_c a) o) as [[ret errno] c]. cbn [snd] in Hf. apply ok_bind, ok_put.
  assert (safe [] (mk_world (Some (with_c c a)) (w_heap w) (w_sock w) (w_trace w))) as H1 by (eapply safe_swap; [done..|]; by apply alike_c).
  set (w1 := mk_world _ _ _ _) in *.
  assert (forall w s, safe [] w -> ok w (match onConnect a with Some _ => log (OnConnect s) | None => pure tt end) (fun _ w' => safe [] w')) as Hcon.
  { intros w' s Hw'. destruct (onConnect a); [by apply keeps_log | by apply ok_ret]. }
  destruct (ret =? _).
  - destruct (errno =? _); [by apply ok_ret|]. apply ok_bind. eapply ok_mono; [by apply Hcon|]. intros ? w2 H2. cbn beta in H2. apply ok_bind.
    eapply ok_mono; [by apply async_disconnect_safe|]. intros ? w3 H3. by apply ok_ret.
  - apply ok_bind. eapply ok_mono; [by apply keeps_modify; [intros ?; by apply (alike_set _ 1)|]|]. intros ? w2 H2. cbn beta in H2. apply ok_bind.
    eapply ok_mono; [by apply Hcon|]. intros ? w3 H3. by apply ok_ret.
Qed.

Lemma redisAsyncHandleRead_safe o w : safe [] w -> ok w (redisAsyncHandleRead strerror user o) (fun _ w' => safe [] w').
Proof.
  intros Hs. unfold redisAsyncHandleRead. apply ok_bind. eapply ok_mono; [by apply connected_safe|]. intros go w1 H1. cbn beta in H1. destruct (negb go); [by apply ok_ret|].
  apply ok_bind, ok_get. intros a Ha. apply ok_bind. intros ? ? E. injection E as <- <-. apply ok_bind. intros ? ? E. injection E as <- <-.
  apply ok_bind, ok_io. intros [[[ret c] h] s] E. apply read_flags in E. cbn beta iota. apply ok_bind, ok_put, ok_bind. intros ? ? E'. injection E' as <- <-. apply ok_bind. intros ? ? E'. injection E' as <- <-.
  assert (safe [] (mk_world (Some (with_c c a)) h s (w_trace w1))) as H2 by (eapply safe_swap; [done..|]; by apply alike_c).
  destruct (ret =? _); [by apply async_disconnect_safe|]. apply ok_bind. eapply ok_mono; [by apply EL_keeps|]. intros ? w3 H3. cbn beta in H3.
  apply ok_bind, ok_get. intros a3 _. by apply process_loop_safe.
Qed.

Lemma redisAsyncHandleWrite_safe o w : safe [] w -> ok w (redisAsyncHandleWrite strerror user o) (fun _ w' => safe [] w').
Proof.
  intros Hs. unfold redisAsyncHandleWrite. apply ok_bind. eapply ok_mono; [by apply connected_safe|]. intros go w1 H1. cbn beta in H1. destruct (negb go); [by apply ok_ret|].
  apply ok_bind, ok_get. intros a Ha. apply ok_bind. intros ? ? E. injection E as <- <-.
  apply ok_bind, ok_io. intros [[[ret c] s] d] E. apply write_flags in E. cbn beta iota. apply ok_bind, ok_put, ok_bind. intros ? ? E'. injection E' as <- <-.
  assert (safe [] (mk_world (Some (with_c c a)) (w_heap w1) s (w_trace w1))) as H2 by (eapply safe_swap; [done..|]; by apply alike_c).
  destruct (ret =? _); [by apply async_disconnect_safe|]. apply ok_bind. eapply ok_mono; [by apply EL_keeps|]. intros ? w3 H3. by apply EL_keeps.
Qed.

(** What may happen to a context: the calls of the program, the events, and changes of what the
    socket will answer. *)
Inductive async_step : world -> world -> Prop :=
| step_command cb cmd len status w w' : classify cmd = Some Regular -> redisAsyncFormattedCommand cb cmd len w = Some (Ret (status, w')) -> async_step w w'
| step_connect_callback f status w w' : redisAsyncSetConnectCallback f w = Some (Ret (status, w')) -> async_step w w'
| step_disconnect_callback f status w w' : redisAsyncSetDisconnectCallback f w = Some (Ret (status, w')) -> async_step w w'
| step_read o w w' : redisAsyncHandleRead strerror user o w = Some (Ret (tt, w')) -> async_step w w'
| step_write o w w' : redisAsyncHandleWrite strerror user o w = Some (Ret (tt, w')) -> async_step w w'
| step_disconnect w w' : redisAsyncDisconnect user w = Some (Ret (tt, w')) -> async_step w w'
| step_free w w' : redisAsyncFree user w = Some (Ret (tt, w')) -> async_step w w'
| step_socket s w : async_step w (mk_world (w_ac w) (w_heap w) s (w_trace w)).

(** A context that was just made, with the hooks of an event loop. *)
Definition attach (hooks : list hook) (a : redisAsyncContext) : redisAsyncContext :=
  mk_async (ac_c a) (ac_err a) hooks (onDisconnect a) (onConnect a) (dataHandler a) (replies a) (invalid a) (channels a) (patterns a).

Inductive started : world -> Prop :=
| started_intro reader_ok r hooks a h s : redisAsyncConnect reader_ok r = Some (Some (a, s)) -> started (mk_world (Some (attach hooks a)) h s []).

Lemma no_entries_new : no_entries (Dict.dictCreate malloc_ok).
Proof.
  intros d E. unfold Dict.dictCreate in E. rewrite Hmem in E. injection E as <-. split; [split; [apply Dict.wf_init | done] | done].
Qed.

Lemma connect_plain reader_ok r a s : redisAsyncConnect reader_ok r = Some (Some (a, s)) -> plain a /\ replies a = [].
Proof.
  unfold redisAsyncConnect, redisConnectNonBlock, redisContextInit, redisAsyncInitialize. rewrite !Hmem. cbn [negb].
  destruct Sds.sdsempty as [[bf|]|]; [|destruct (redisReaderCreate _); done|done]. cbn [mbind option_bind].
  destruct (redisReaderCreate reader_ok) as [[rd|]|]; [|done..]. cbn [mbind option_bind]. intros [= <- <-].
  split; [|done]. destruct r as [s'|type msg]; split_and!; try done; apply no_entries_new.
Qed.

Lemma started_safe w : started w -> safe [] w.
Proof.
  intros [reader_ok r hooks a h s E]. apply connect_plain in E as [Hp Hr]. split; [by intros b [= <-]|]. unfold balanced. cbn [waiting w_ac replies attach]. by rewrite Hr.
Qed.

Lemma ok_elim {X} w (m : A X) (P : world -> Prop) x w' : ok w m (fun _ => P) -> m w = Some (Ret (x, w')) -> P w'.
Proof. intros Hm E. by apply (Hm x). Qed.

Lemma async_step_safe w w' : safe [] w -> async_step w w' -> safe [] w'.
Proof.
  intros Hs Hstep. destruct Hstep as [cb cmd len st w w' Hcls E|f st w w' E|f st w w' E|o w w' E|o w w' E|w w' E|w w' E|s w].
  - exact (redisAsyncFormattedCommand_keeps cb cmd len Hcls [] w Hs _ _ E).
  - refine (ok_elim _ _ (safe []) _ _ _ E). apply ok_bind, ok_get. intros a Ha. destruct (onConnect a); [by apply ok_ret|]. apply ok_bind, ok_put, ok_bind.
    eapply ok_mono; [apply EL_keeps; by eapply safe_swap|]. intros ? w1 H1. by apply ok_ret.
  - refine (ok_elim _ _ (safe []) _ _ _ E). apply ok_bind, ok_get. intros a Ha. destruct (onDisconnect a); [by apply ok_ret|]. apply ok_bind, ok_put, ok_ret. by eapply safe_swap.
  - exact (redisAsyncHandleRead_safe o w Hs _ _ E).
  - exact (redisAsyncHandleWrite_safe o w Hs _ _ E).
  - refine (ok_elim _ _ (safe []) _ _ _ E). unfold redisAsyncDisconnect, disconnect_with. apply ok_bind.
    eapply ok_mono; [by apply keeps_modify; [intros ?; by apply (alike_set _ 2)|]|]. intros ? w1 H1. cbn beta in H1. apply ok_bind, ok_get. intros a _.
    destruct (_ && _); [by apply async_disconnect_safe | by apply ok_ret].
  - refine (ok_elim _ _ (safe []) _ _ _ E). unfold redisAsyncFree, free_with. apply ok_bind.
    eapply ok_mono; [by apply keeps_modify; [intros ?; by apply (alike_set _ 3)|]|]. intros ? w1 H1. cbn beta in H1. apply ok_bind, ok_get. intros a _.
    destruct (flagged _ _); [by apply ok_ret | by apply async_free_safe].
  - by apply safe_io.
Qed.

(** C8: every command is answered exactly once. For a program that uses plain commands and does
    whatever else it likes in its callbacks, after every sequence of calls, read and write
    events, disconnects and frees, with every behaviour of the socket: the callbacks of the
    commands that were accepted are those that were called, followed by those that wait for a
    reply, all in the order of the commands; nobody waits once the context is freed. *)
Theorem async_exactly_once (w0 w : world) (Hstart : started w0) (Hsteps : rtc async_step w0 w) :
  filter has_fn (accepted (w_trace w)) = (calls (w_trace w)).*1 ++ filter has_fn (waiting (w_ac w)).
Proof.
  apply started_safe in Hstart. induction Hsteps as [w|w0 w1 w Hstep _ IH]; [apply Hstart|]. apply IH. by eapply async_step_safe.
Qed.

End Once.

(** ** Delivery *)

Lemma sendable_counted v : forall room, sendable room v -> Redirect.well_counted room v.
Proof.
  induction v as [ty s|z| |n vs IH|] using value_ind'; intros [|room] Hs; try done; cbn in Hs; [tauto|].
  destruct Hs as (-> & _ & Hall). split; [done|]. rewrite Forall_forall in *. auto.
Qed.

(** The calls for these replies. *)
Definition delivered (cbs : list redisCallback) (vs : list value) : list (redisCallback * option value) :=
  map (fun x => (x.1, Some x.2)) (filter (fun x => has_fn x.1) (zip cbs vs)).

Section Deliver.
Context `{Memory} (Hmem : has_memory) (strerror : Z -> bytes).

(** A program that does not call the library within its callbacks. *)
Context (user : list event -> list action) (Hpassive : forall t, user t = []).

(** A connected context that is neither being closed nor in a callback. *)
Definition open (a : redisAsyncContext) : Prop :=
  cerr (ac_c a) = 0 /\ bit a 0 = false /\ bit a 1 = true /\ bit a 2 = false /\ bit a 3 = false /\ bit a 4 = false /\ bit a 6 = false.

(** The state of the reader. *)
Definition reads_at (n : Z) (a : redisAsyncContext) st rep inp h : Prop := exists r, creader (ac_c a) = Some r /\ Read.ready dfn n r st rep inp h.

(** The parser waits for more. *)
Definition starved (st : list (Read.redisReadTask loc)) rep inp (h : heap) : Prop := Read.astep dfn (Read.norm st) rep inp h = Some (Read.Starve (Read.norm st) inp).

(** What the stream holds for a parser in this state. *)
Abbreviation holds st rep inp h outs d := (Read.pump_all dfn (Read.norm st) rep inp h = Some (outs, d)).

(** The parser has seen [inp]; with [k] to come these are the replies, the first one of which may
    have begun. *)
Definition pending (vs : list value) st rep inp (h h0 : heap) (k : bytes) : Prop :=
  match vs with
  | [] => holds st rep (inp ++ k) h [] (Read.Live [Read.root_task] None [] h0)
  | v :: vs' => exists l m outs d, tree v l m /\ m ##ₘ h0 /\ (forall ty str w, d <> Read.Dead ty str w) /\
      holds st rep (inp ++ k) h (Read.Obj l :: outs) d /\ leaves st rep (inp ++ k) h (flat_map resp vs') (m ∪ h0)
  end.

Lemma pending_start vs inp h k : Forall (sendable 8) vs -> inp ++ k = flat_map resp vs -> pending vs [] None inp h h k.
Proof.
  intros Hvs E. destruct vs as [|v vs]; cbn [pending flat_map] in *; rewrite E; [done|]. apply Forall_cons in Hvs as [Hv Hvs].
  destruct (leaves_value Hmem v (flat_map resp vs) h Hv) as (l & m & Ht & Hd & Hl & Hh). destruct (pump_values Hmem vs (m ∪ h) Hvs) as (ls & m' & Ep & _ & _).
  eexists l, m, _, _. split_and!; [done | done | | by apply Hh | done]. done.
Qed.

Lemma pending_end st rep inp h h0 : pending [] st rep inp h h0 [] -> starved st rep inp h -> rep = None /\ inp = [] /\ h = h0 /\ Read.norm st = [Read.root_task].
Proof.
  cbn [pending]. rewrite app_nil_r. intros Hh Hst. unfold Read.pump_all in Hh. cbn [Read.pump] in Hh. rewrite Hst in Hh. cbn [mbind option_bind] in Hh. by injection Hh as -> -> -> ->.
Qed.

(** A callback of such a program changes nothing. *)
Lemma same_flags a : bit a 4 = false -> clear_flag REDIS_IN_CALLBACK (set_flag REDIS_IN_CALLBACK a) = a.
Proof.
  intros H4. destruct a as [[e es f b r]]. unfold clear_flag, set_flag, with_c, with_flags. cbn [ac_c cflags cerr cerrstr obuf creader ac_err]. repeat f_equal.
  apply Z.bits_inj'. intros j Hj. rewrite (clear_bit _ _ 4), (lor_bit _ _ 4) by done. change (bit _ 4) with (Z.testbit f 4) in H4.
  case_bool_decide; [subst j; by rewrite H4|]. by rewrite orb_false_r, andb_true_r.
Qed.

Lemma run_passive cb l v w a : w_ac w = Some a -> bit a 4 = false -> Cluster.value_at (size (w_heap w)) (w_heap w) l = Some v ->
  redisRunCallback user cb (Some l) w = Some (Ret (tt, mk_world (Some a) (w_heap w) (w_sock w) (w_trace w ++ match fn cb with Some _ => [Called cb (Some v)] | None => [] end))).
Proof.
  intros Ha H4 Hv. unfold redisRunCallback. destruct (fn cb); [|rewrite app_nil_r; destruct w; cbn in *; by rewrite Ha].
  erewrite bind_ret by (unfold modify_ac; erewrite bind_ret by (by apply get_live); reflexivity).
  erewrite bind_ret by (cbn [seen]; erewrite bind_ret by reflexivity; cbn [w_heap]; rewrite Hv; reflexivity).
  do 2 (erewrite bind_ret by reflexivity). rewrite Hpassive. erewrite bind_ret by reflexivity. unfold modify_ac. erewrite bind_ret by reflexivity.
  cbn [put_ac w_ac w_heap w_sock w_trace]. by rewrite same_flags.
Qed.

(** The context with another reader and another queue. *)
Definition moved (a : redisAsyncContext) (r : Read.redisReader loc) (l : list redisCallback) : redisAsyncContext := with_replies l (with_c (with_reader (ac_c a) r) a).

Lemma moved_open a r l : open a -> open (moved a r l).
Proof. done. Qed.

Lemma ready_heap n r inp h h' : Read.ready dfn n r [] None inp h -> Read.ready dfn n r [] None inp h'.
Proof. intros [Hs Hr Hi He]. split; [done | done | done |]. intros _. reflexivity. Qed.

Lemma open_blocking a : open a -> blocking (ac_c a) = false.
Proof. intros (_ & H0 & _). unfold blocking. by rewrite (flag_bit REDIS_BLOCK 0). Qed.

Lemma getReply_from w a o l r h : w_ac w = Some a -> open a -> Conn.object o = Some l ->
  redisGetReplyFromReader (ac_c a) (w_heap w) = Some (Read.REDIS_OK, o, with_reader (ac_c a) r, h) ->
  getReply strerror w = Some (Ret ((Read.REDIS_OK, l), mk_world (Some (with_c (with_reader (ac_c a) r) a)) h (w_sock w) (w_trace w))).
Proof.
  intros Ha Ho Hl E. unfold getReply. rewrite (bind_ret _ _ w a w) by (by apply get_live). do 2 (erewrite bind_ret by reflexivity).
  erewrite (bind_ret _ _ w (Read.REDIS_OK, o, with_reader (ac_c a) r, h, w_sock w) w).
  2:{ unfold io, redisGetReply. rewrite E. cbn [mbind option_bind]. rewrite ok_not_err. destruct o; [done|].
      replace (blocking (with_reader (ac_c a) r)) with (blocking (ac_c a)) by done. by rewrite (open_blocking a Ho). }
  cbn beta iota. do 3 (erewrite bind_ret by reflexivity). by rewrite Hl.
Qed.

Lemma delivered_cons cb cbs v vs : delivered (cb :: cbs) (v :: vs) = calls (match fn cb with Some _ => [Called cb (Some v)] | None => [] end) ++ delivered cbs vs.
Proof.
  unfold delivered. cbn [zip zip_with]. destruct (fn cb) as [f|] eqn:Ef.
  - rewrite filter_cons_True by (by exists f). done.
  - rewrite filter_cons_False; [done|]. cbn. unfold has_fn. rewrite Ef. by intros [? ?].
Qed.

(** What a round of the event loop leaves. *)
Definition progress (w : world) (a : redisAsyncContext) (n : Z) (vs : list value) (h0 : heap) (k : bytes) (w' : world) : Prop :=
  exists vs1 vs2 r st rep inp t, vs = vs1 ++ vs2 /\
    w_ac w' = Some (moved a r (drop (length vs1) (replies a))) /\ w_trace w' = w_trace w ++ t /\ calls t = delivered (replies a) vs1 /\
    Read.ready dfn n r st rep inp (w_heap w') /\ pending vs2 st rep inp (w_heap w') h0 k /\ starved st rep inp (w_heap w').

(** The loop calls the callbacks of all replies that are complete. *)
Lemma process_pending f : forall vs cb w a n st rep inp h0 k, w_ac w = Some a -> open a -> n <= INT_MAX -> reads_at n a st rep inp (w_heap w) ->
  Forall (sendable 8) vs -> pending vs st rep inp (w_heap w) h0 k -> (length vs <= length (replies a))%nat -> (length inp < f)%nat ->
  ends w (process_loop strerror user f cb) (fun _ w' => progress w a n vs h0 k w' /\ w_sock w' = w_sock w).
Proof.
  induction f as [|f IH]; intros vs cb w a n st rep inp h0 k Ha Ho Hn (r & Hr & Hrd) Hvs Hp Hle Hf; [lia|]. cbn [process_loop].
  assert (exists outs d, holds st rep (inp ++ k) (w_heap w) outs d /\ (forall ty str x, d <> Read.Dead ty str x) /\ (vs = [] -> outs = [])) as (outs & d & Hh & Hd & Hnil).
  { destruct vs as [|v vs]; cbn [pending] in Hp; [by eexists _, _|]. destruct Hp as (l & m & outs & d & _ & _ & Hd & Hh & _). by exists (Read.Obj l :: outs), d. }
  destruct (take_reply (ac_c a) r n st rep inp (w_heap w) k outs d Hr Hrd Hn Hh Hd) as
    [(v & outs' & r' & h' & inp' & -> & E & Hr' & _ & Hl & Hy)|(r' & st' & rep' & inp' & h' & E & Hr' & Hh' & Hst & Hy)].
  - destruct vs as [|x vs]; [by specialize (Hnil eq_refl)|]. destruct Hp as (l & m & outs & d2 & Htr & Hdj & _ & Hh2 & Hlv). rewrite Hh in Hh2. injection Hh2 as -> -> <-.
    destruct (Hy _ _ Hlv) as [Hk ->]. apply Forall_cons in Hvs as [Hx Hvs].
    apply ends_bind. eapply ends_done; [exact (getReply_from w a (Some (Read.Obj l)) (Some l) r' _ Ha Ho eq_refl E)|]. cbn beta iota. rewrite Z.eqb_refl. cbn [negb].
    apply ends_bind. eapply ends_done; [by apply get_live|]. set (a1 := with_c _ a). change (replies a1) with (replies a).
    destruct (replies a) as [|cb1 rest] eqn:Er; [simpl in Hle; lia|]. cbn [redisShiftCallback].
    apply ends_bind. eapply ends_done; [reflexivity|]. cbn beta iota. set (a2 := with_replies rest a1). set (w2 := mk_world (Some a2) (m ∪ h0) (w_sock w) (w_trace w)).
    pose proof (Redirect.value_of_tree 8 x l m h0 Htr (sendable_counted x 8 Hx) Hdj) as Hval.
    assert (open a2) as Ho2 by done. assert (bit a2 4 = false) as H4 by apply Ho2.
    pose proof (run_passive cb1 l x w2 a2 eq_refl H4 Hval) as Hrun. cbn [w_heap w_sock w_trace w2] in Hrun. set (t1 := match fn cb1 with Some _ => [Called cb1 (Some x)] | None => [] end) in *.
    set (w3 := mk_world (Some a2) h0 (w_sock w) (w_trace w ++ t1)).
    assert (freeObject l (mk_world (Some a2) (m ∪ h0) (w_sock w) (w_trace w ++ t1)) = Some (Ret (tt, w3))) as Hfree.
    { unfold freeObject. erewrite bind_ret by reflexivity. cbn [w_heap]. by rewrite (freeReplyObject_tree x l m h0 Htr Hdj). }
    assert (ends w3 (process_loop strerror user f cb1) (fun _ w' => progress w3 a2 n vs h0 k w' /\ w_sock w' = w_sock w3)) as Hrest.
    { apply (IH vs cb1 w3 a2 n [] None inp' h0 k); [done | done | done | | done | by apply pending_start | | lia].
      - exists r'. split; [done|]. by eapply ready_heap.
      - simpl in Hle |- *. lia. }
    assert (forall w', progress w3 a2 n vs h0 k w' /\ w_sock w' = w_sock w3 -> progress w a n (x :: vs) h0 k w' /\ w_sock w' = w_sock w) as Hfin.
    { intros w' [(vs1 & vs2 & r2 & st2 & rep2 & inp2 & t & -> & Hac & Htr2 & Hc & Hrd2 & Hp2 & Hst2) Hs]. split; [|exact Hs].
      exists (x :: vs1), vs2, r2, st2, rep2, inp2, (t1 ++ t). rewrite Er. split_and!; [done | exact Hac | by rewrite Htr2; cbn [w_trace w3]; rewrite app_assoc | | done..].
      rewrite calls_app, Hc, delivered_cons. done. }
    subst t1. destruct (fn cb1) as [g|] eqn:Eg.
    + apply ends_bind. eapply ends_done; [exact Hrun|]. apply ends_bind. eapply ends_done; [exact Hfree|]. apply ends_bind. eapply ends_done; [by apply get_live|].
      rewrite (flagged_bit _ _ 3) by done. destruct Ho2 as (_ & _ & _ & _ & -> & _). eapply ends_mono; [exact Hrest|]. intros ? w'. apply Hfin.
    + apply ends_bind. subst w3. rewrite app_nil_r in Hfree, Hrest, Hfin. eapply ends_done; [exact Hfree|]. eapply ends_mono; [exact Hrest|]. intros ? w'. apply Hfin.
  - apply ends_bind. eapply ends_done; [exact (getReply_from w a None None r' _ Ha Ho eq_refl E)|]. cbn beta iota. rewrite Z.eqb_refl. cbn [negb].
    apply ends_bind. eapply ends_done; [by apply get_live|]. rewrite (flagged_bit _ _ 2), (flagged_bit _ _ 6) by done.
    pose proof (moved_open a r' (replies a) Ho) as (_ & _ & _ & H2 & _ & _ & H6). change (bit (with_c _ a) 2) with (bit (moved a r' (replies a)) 2). change (bit (with_c _ a) 6) with (bit (moved a r' (replies a)) 6).
    rewrite H2, H6. apply ends_bind. eapply ends_done; [done|]. eapply ends_done; [done|]. split; [|done].
    exists [], vs, r', st', rep', inp', []. cbn [w_ac w_trace w_heap]. rewrite app_nil_r. split_and!; try done; [by unfold delivered; rewrite zip_with_nil_r |].
    destruct vs as [|x vs]; cbn [pending] in Hp |- *; [rewrite Hh in Hp; injection Hp as -> ->; done|].
    destruct Hp as (l & m & outs2 & d2 & Htr & Hdj & Hd2 & Hh2 & Hlv). rewrite Hh in Hh2. injection Hh2 as -> <-. exists l, m, outs2, d. split_and!; try done. by apply Hy.
Qed.

Lemma pending_app vs st rep inp d h h0 k : pending vs st rep inp h h0 (d ++ k) -> pending vs st rep (inp ++ d) h h0 k.
Proof. destruct vs; cbn [pending]; by rewrite app_assoc. Qed.

Lemma ready_unread n r st rep inp h : Read.ready dfn n r st rep inp h -> (length inp <= Z.to_nat (Read.len r))%nat.
Proof. intros [Hs _ _ _]. destruct (Read.sim_buf _ _ _ _ _ Hs) as (s & pre & _ & _ & _ & -> & _). unfold zlen. rewrite length_app. lia. Qed.

(** What the socket delivers is given to the reader. *)
Lemma read_piece c h s r n st rep inp x p : cerr c = 0 -> creader c = Some r -> Read.ready dfn n r st rep inp h -> starved st rep inp h ->
  rplan s = x :: p -> delivery x -> 0 <= n -> Sds.fits (n + zlen (data [x])) ->
  exists r', redisBufferRead strerror c h s = Some (Ret (Read.REDIS_OK, with_reader c r', h, mk_socket (wplan s) p (sent s))) /\
    Read.ready dfn (n + zlen (data [x])) r' st rep (inp ++ data [x]) h.
Proof.
  intros He Hr Hrd Hst Hp Hx Hn Hf. unfold redisBufferRead. rewrite He, Hp. cbn [Z.eqb negb]. destruct x as [d|e]; cbn [delivery data flat_map] in *; rewrite ?app_nil_r in *.
  - rewrite (proj2 (Z.ltb_ge _ _)), (proj2 (Z.eqb_neq _ _)) by lia. rewrite Hr. cbn [mbind option_bind].
    destruct (Read.feed_sim dfn n r st rep inp h h d Hmem Hf Hn Hrd Hst) as (r' & -> & Hr' & _). cbn [mbind option_bind]. rewrite Z.eqb_refl. cbn [negb]. by exists r'.
  - subst e. exists r. rewrite (zlen_nil (A := Z)), Z.add_0_r. split; [|done]. unfold io_error. rewrite Z.eqb_refl, orb_true_r. repeat f_equal. by destruct c; cbn in *; subst.
Qed.

(** One read event. *)
Lemma read_event o w a r n st rep inp vs h0 x p k : w_ac w = Some a -> open a -> creader (ac_c a) = Some r -> Read.ready dfn n r st rep inp (w_heap w) -> starved st rep inp (w_heap w) ->
  rplan (w_sock w) = x :: p -> delivery x -> 0 <= n -> Sds.fits (n + zlen (data [x])) ->
  Forall (sendable 8) vs -> pending vs st rep inp (w_heap w) h0 (data [x] ++ k) -> (length vs <= length (replies a))%nat ->
  ends w (redisAsyncHandleRead strerror user o) (fun _ w' => progress w a (n + zlen (data [x])) vs h0 k w' /\ w_sock w' = mk_socket (wplan (w_sock w)) p (sent (w_sock w))).
Proof.
  intros Ha Ho Hr Hrd Hst Hp Hx Hn Hf Hvs Hpe Hle. destruct (read_piece (ac_c a) (w_heap w) (w_sock w) r n st rep inp x p (proj1 Ho) Hr Hrd Hst Hp Hx Hn Hf) as (r' & E & Hr').
  unfold redisAsyncHandleRead. apply ends_bind. apply (ends_done _ _ true w).
  { unfold connected. rewrite (bind_ret _ _ w a w) by (by apply get_live). rewrite (flagged_bit _ _ 1) by done. by destruct Ho as (_ & _ & -> & _). }
  cbn [negb]. apply ends_bind. eapply ends_done; [by apply get_live|]. do 2 (apply ends_bind; eapply ends_done; [reflexivity|]).
  apply ends_bind. eapply ends_done; [unfold io; rewrite E; reflexivity|]. cbn beta iota. do 3 (apply ends_bind; eapply ends_done; [reflexivity|]). rewrite ok_not_err.
  set (a1 := with_c _ a). set (w1 := mk_world _ _ _ _). apply ends_bind. eapply ends_mono; [by apply (EL_ends _ w1 a1)|]. intros ? w2 (t0 & -> & Ht0 & _).
  unfold redisProcessCallbacks. apply ends_bind. eapply ends_done; [reflexivity|]. eapply ends_mono.
  - apply (process_pending _ vs _ _ a1 (n + zlen (data [x])) st rep (inp ++ data [x]) h0 k); [done | done | | by exists r' | done | by apply pending_app | done |].
    + unfold Sds.fits, Sds.SDS_MAX_PREALLOC, INT_MAX in *. lia.
    + unfold unread. cbn [a1 ac_c with_c with_reader creader]. pose proof (ready_unread _ _ _ _ _ _ Hr'). lia.
  - intros ? w' [(vs1 & vs2 & r2 & st2 & rep2 & inp2 & t & -> & Hac & Htr & Hc & Hrd2 & Hp2 & Hst2) Hs]. split; [|exact Hs].
    exists vs1, vs2, r2, st2, rep2, inp2, (t0 ++ t). split_and!; [done | exact Hac | by rewrite Htr; cbn [w_trace w1]; rewrite app_assoc | by rewrite calls_app, Ht0, Hc | done..].
Qed.

Lemma delivered_app cbs vs1 vs2 : delivered cbs (vs1 ++ vs2) = delivered cbs vs1 ++ delivered (drop (length vs1) cbs) vs2.
Proof.
  revert cbs. induction vs1 as [|v vs1 IH]; intros [|cb cbs]; cbn [app length drop]; [done | by unfold delivered at 2; rewrite zip_with_nil_r | done |].
  by rewrite !delivered_cons, IH, app_assoc.
Qed.

(** Read events, one after the other. *)
Fixpoint read_events (o : Net.sockopt) (k : nat) : A unit :=
  match k with O => pure tt | S k' => let@ _ := redisAsyncHandleRead strerror user o in read_events o k' end.

Lemma read_events_progress o q p : forall w a r n st rep inp vs h0, w_ac w = Some a -> open a -> creader (ac_c a) = Some r -> Read.ready dfn n r st rep inp (w_heap w) ->
  starved st rep inp (w_heap w) -> rplan (w_sock w) = p ++ q -> Forall delivery p -> 0 <= n -> Sds.fits (n + zlen (data p)) ->
  Forall (sendable 8) vs -> pending vs st rep inp (w_heap w) h0 (data p) -> (length vs <= length (replies a))%nat ->
  ends w (read_events o (length p)) (fun _ w' => progress w a (n + zlen (data p)) vs h0 [] w' /\ w_sock w' = mk_socket (wplan (w_sock w)) q (sent (w_sock w))).
Proof.
  induction p as [|x p IH]; intros w a r n st rep inp vs h0 Ha Ho Hr Hrd Hst Hp Hx Hn Hf Hvs Hpe Hle; cbn [length read_events].
  - eapply ends_done; [done|]. cbn [app] in Hp. change (data []) with (@nil Z) in *. split; [|rewrite <- Hp; by destruct (w_sock w)]. exists [], vs, r, st, rep, inp, []. rewrite app_nil_r, (zlen_nil (A := Z)), Z.add_0_r. cbn [drop length].
    split_and!; try done; [|by unfold delivered; rewrite zip_with_nil_r]. rewrite Ha. f_equal. destruct a as [[]]; cbn in *; by subst.
  - apply Forall_cons in Hx as [Hx Hxs]. change (data (x :: p)) with ((match x with RBytes d => d | RErr _ => [] end) ++ data p) in *.
    replace (match x with RBytes d => d | RErr _ => [] end) with (data [x]) in * by (cbn; apply app_nil_r). rewrite zlen_app in Hf. zlen_pos.
    apply ends_bind. eapply ends_mono; [apply (read_event o w a r n st rep inp vs h0 x (p ++ q) (data p)); try done; unfold Sds.fits in *; lia|].
    intros ? w1 [(vs1 & vs2 & r1 & st1 & rep1 & inp1 & t1 & -> & Hac & Htr & Hc & Hrd1 & Hp1 & Hst1) Hs1]. apply Forall_app in Hvs as [Hv1 Hv2]. rewrite length_app in Hle.
    eapply ends_mono; [apply (IH w1 _ r1 (n + zlen (data [x])) st1 rep1 inp1 vs2 h0 Hac); try done; [by rewrite Hs1 | zlen_pos; lia | by rewrite <- Z.add_assoc | cbn [moved replies with_replies]; rewrite length_drop; lia]|].
    intros ? w2 [(vs3 & vs4 & r2 & st2 & rep2 & inp2 & t2 & -> & Hac2 & Htr2 & Hc2 & Hrd2 & Hp2 & Hst2) Hs2]. rewrite <- Z.add_assoc, <- zlen_app in Hrd2. split; [|by rewrite Hs2, Hs1].
    exists (vs1 ++ vs3), vs4, r2, st2, rep2, inp2, (t1 ++ t2). cbn [moved replies with_replies] in Hac2, Hc2. rewrite drop_drop in Hac2.
    split_and!; [by rewrite app_assoc | by rewrite length_app | by rewrite Htr2, Htr, app_assoc | by rewrite calls_app, Hc, Hc2, delivered_app | done..].
Qed.

(** Between two replies. *)
Definition rests (n : Z) (a : redisAsyncContext) (h : heap) : Prop := exists st, Read.norm st = [Read.root_task] /\ reads_at n a st None [] h.

Lemma rests_starved st h : Read.norm st = [Read.root_task] -> starved st None [] h.
Proof. intros E. unfold starved. rewrite E. reflexivity. Qed.

Lemma pending_norm vs st st' rep inp h h0 k : Read.norm st = Read.norm st' -> pending vs st rep inp h h0 k -> pending vs st' rep inp h h0 k.
Proof. intros E. unfold pending, leaves. by rewrite E. Qed.

Lemma pending_done vs st rep inp h h0 : pending vs st rep inp h h0 [] -> starved st rep inp h -> vs = [].
Proof.
  destruct vs as [|v vs]; [done|]. intros (l & m & outs & d & _ & _ & _ & Hh & _) Hst. rewrite app_nil_r in Hh.
  unfold Read.pump_all in Hh. cbn [Read.pump] in Hh. rewrite Hst in Hh. by cbn [mbind option_bind] in Hh.
Qed.

(** C9: replies reach their callbacks. Whatever pieces a connection delivers the replies in, one
    read event per piece, interrupted calls among them: the callbacks of the waiting commands
    are called with the values the server sent, the first command with the first value and so
    on, each once, for a program that does not call the library within its callbacks; every reply is released after its callback, so that the heap is as it was;
    the callbacks of later commands still wait, and the context is ready for more. Memory can
    be allocated throughout. *)
Theorem async_delivers (o : Net.sockopt) (w : world) (a : redisAsyncContext) (vs : list value) (n : Z) (p q : list rres)
    (Hlive : w_ac w = Some a) (Hopen : open a) (Hrest : rests n a (w_heap w)) (Hn : 0 <= n)
    (Hsend : Forall (sendable 8) vs) (Hwait : (length vs <= length (replies a))%nat)
    (Hplan : rplan (w_sock w) = p ++ q) (Hp : Forall delivery p) (Hdata : data p = flat_map resp vs) (Hfit : Sds.fits (n + zlen (data p))) :
  exists t a', read_events o (length p) w = Some (Ret (tt, mk_world (Some a') (w_heap w) (mk_socket (wplan (w_sock w)) q (sent (w_sock w))) (w_trace w ++ t))) /\
    calls t = delivered (replies a) vs /\ replies a' = drop (length vs) (replies a) /\ open a' /\ rests (n + zlen (data p)) a' (w_heap w).
Proof.
  destruct Hrest as (st & Hst & r & Hr & Hrd).
  destruct (read_events_progress o q p w a r n st None [] vs (w_heap w) Hlive Hopen Hr Hrd) as
    ([] & w' & E & (vs1 & vs2 & r' & st' & rep & inp & t & -> & Hac & Htr & Hc & Hrd' & Hpe & Hst') & Hs); try done.
  { by apply rests_starved. }
  { apply (pending_norm _ []); [done|]. by apply pending_start. }
  pose proof (pending_done _ _ _ _ _ _ Hpe Hst') as ->. destruct (pending_end _ _ _ _ _ Hpe Hst') as (-> & -> & Hh & Hnorm). rewrite app_nil_r in *.
  exists t, (moved a r' (drop (length vs1) (replies a))). split; [rewrite E; destruct w'; cbn in *; by subst|].
  split_and!; try done; [apply Hopen..|]. exists st'. split; [done|]. exists r'. split; [done|]. by rewrite Hh in Hrd'.
Qed.

End Deliver.

(** ** Examples *)

Section Demo.
#[local] Existing Instance demo_memory.

Definition demo_cb (n : Z) : redisCallback := mk_callback (Some 1) n.
Definition demo_ping : bytes := Format.encode [bstr "PING"] ++ [0].

(** A program that issues another command when its first callback is called, and frees the
    context when the second one is. *)
Definition demo_user (t : list event) : list action :=
  match last t with
  | Some (Called cb _) => if privdata cb =? 1 then [Issue (demo_cb 3) demo_ping 14] else if privdata cb =? 2 then [Free; Issue (demo_cb 4) demo_ping 14] else []
  | _ => []
  end.

Definition after {X} (w : world) (m : A X) : world := match m w with Some (Ret (_, w')) => w' | _ => w end.

Definition demo_sock : socket := mk_socket [WBytes 100; WBytes 100; WBytes 100] [RBytes (bstr "+PO"); RBytes (bstr "NG" ++ CRLF ++ bstr ":7" ++ CRLF)] [].

Definition demo_start : world :=
  match redisAsyncConnect true (Connected demo_sock) with
  | Some (Some (a, s)) => mk_world (Some (attach [AddRead; AddWrite; DelWrite] a)) ∅ s []
  | _ => mk_world None ∅ demo_sock []
  end.

(** Two commands, a write event, a read event for half a reply. *)
Definition demo_waiting : world :=
  after (after (after (after (after demo_start (redisAsyncSetDisconnectCallback 9)) (redisAsyncFormattedCommand (demo_cb 1) demo_ping 14)) (redisAsyncFormattedCommand (demo_cb 2) demo_ping 14))
    (redisAsyncHandleWrite Context.demo_strerror demo_user (Net.OptError 0))) (redisAsyncHandleRead Context.demo_strerror demo_user (Net.OptError 0)).

(** The rest of the replies arrives. *)
Definition demo_end : world := after demo_waiting (redisAsyncHandleRead Context.demo_strerror demo_user (Net.OptError 0)).

Lemma demo_user_plain t : Forall plain_action (demo_user t).
Proof.
  assert (classify demo_ping = Some Regular) as Hc by (vm_compute; reflexivity).
  unfold demo_user. destruct (last t) as [[]|]; try done. destruct (_ =? _); [by repeat constructor|]. destruct (_ =? _); by repeat constructor.
Qed.

Lemma async_exactly_once_witness :
  filter has_fn (accepted (w_trace demo_waiting)) = (calls (w_trace demo_waiting)).*1 ++ filter has_fn (waiting (w_ac demo_waiting)) /\
  filter has_fn (accepted (w_trace demo_end)) = (calls (w_trace demo_end)).*1 ++ filter has_fn (waiting (w_ac demo_end)) /\
  accepted (w_trace demo_end) = map demo_cb [1; 2; 3].
Proof.
  assert (started demo_start) as H0.
  { unfold demo_start. destruct (redisAsyncConnect true (Connected demo_sock)) as [[[a s]|]|] eqn:E; [exact (started_intro _ _ _ _ ∅ _ E) | vm_compute in E; discriminate E..]. }
  assert (rtc (async_step Context.demo_strerror demo_user) demo_start demo_waiting) as H1.
  { eapply rtc_l; [apply (step_disconnect_callback _ _ 9 0); vm_compute; reflexivity|].
    eapply rtc_l; [apply (step_command _ _ (demo_cb 1) demo_ping 14 0); vm_compute; reflexivity|].
    eapply rtc_l; [apply (step_command _ _ (demo_cb 2) demo_ping 14 0); vm_compute; reflexivity|].
    eapply rtc_l; [apply (step_write _ _ (Net.OptError 0)); vm_compute; reflexivity|].
    eapply rtc_l; [apply (step_read _ _ (Net.OptError 0)); vm_compute; reflexivity|]. vm_compute. apply rtc_refl. }
  split; [exact (async_exactly_once demo_has_memory Context.demo_strerror demo_user demo_user_plain demo_start demo_waiting H0 H1)|]. split; [|vm_compute; reflexivity].
  apply (async_exactly_once demo_has_memory Context.demo_strerror demo_user demo_user_plain demo_start demo_end H0).
  eapply rtc_r; [exact H1|]. apply (step_read _ _ (Net.OptError 0)). vm_compute. reflexivity.
Defined.

Lemma demo_table : table_fine Dict.dictInit.
Proof. split; [apply Dict.wf_init | done]. Qed.

(** The first callback issues a command in vain. *)
Lemma free_settles_witness : exists t w', redisAsyncFree demo_user demo_waiting = Some (Ret (tt, w')) /\ w_ac w' = None /\ w_heap w' = ∅ /\ w_trace w' = w_trace demo_waiting ++ t /\
  calls t = [(demo_cb 1, None); (demo_cb 2, None)] /\ disconnects t = [0].
Proof.
  destruct (w_ac demo_waiting) as [a|] eqn:Ea; [|vm_compute in Ea; discriminate Ea].
  assert (w_heap demo_waiting = ∅) as Eh by (vm_compute; reflexivity).
  edestruct (free_settles demo_user demo_has_memory demo_waiting a Dict.dictInit Dict.dictInit ∅ Ea) as (t & E & Hc & Hd);
    [vm_compute in Ea; injection Ea as <-; vm_compute; reflexivity..| exact demo_table | exact demo_table | rewrite Eh; vm_compute in Ea; injection Ea as <-; vm_compute; reflexivity |].
  eexists t, _. split; [exact E|]. split; [reflexivity|]. split; [reflexivity|]. split; [done|].
  rewrite Hc, Hd. vm_compute in Ea. injection Ea as <-. split; vm_compute; reflexivity.
Defined.

(** The server closes the connection. *)
Definition demo_broken : world := mk_world (w_ac demo_waiting) ∅ (mk_socket [] [RBytes []] []) (w_trace demo_waiting).

Lemma lost_settles_witness : exists t w', redisAsyncHandleRead Context.demo_strerror demo_user (Net.OptError 0) demo_broken = Some (Ret (tt, w')) /\ w_ac w' = None /\
  w_trace w' = w_trace demo_broken ++ t /\ calls t = [(demo_cb 1, None); (demo_cb 2, None)] /\ length (disconnects t) = 1%nat.
Proof.
  destruct (w_ac demo_broken) as [a|] eqn:Ea; [|vm_compute in Ea; discriminate Ea].
  edestruct (lost_settles Context.demo_strerror demo_user demo_has_memory (Net.OptError 0) demo_broken a Dict.dictInit Dict.dictInit ∅ (RBytes []) [] Ea) as (t & s & E & Hc & Hd);
    [vm_compute in Ea; injection Ea as <-; vm_compute; reflexivity..| exact demo_table | exact demo_table | vm_compute in Ea; injection Ea as <-; vm_compute; reflexivity | done | done |].
  eexists t, _. split; [exact E|]. split; [reflexivity|]. split; [reflexivity|].
  rewrite Hc, Hd. vm_compute in Ea. injection Ea as <-. split; vm_compute; reflexivity.
Defined.

Definition demo_idle (_ : list event) : list action := [].

(** Three commands of which two are answered, in three pieces with an interrupted call. *)
Definition demo_plan : list rres := [RBytes (bstr "+PO"); RErr EINTR; RBytes (bstr "NG" ++ CRLF ++ bstr "*1"); RBytes (CRLF ++ bstr ":7" ++ CRLF)].

Definition demo_context : redisAsyncContext :=
  mk_async (with_flags REDIS_CONNECTED Context.demo_connection) 0 [AddRead] None None None [demo_cb 1; demo_cb 2; demo_cb 3] [] (Some Dict.dictInit) (Some Dict.dictInit).
Definition demo_ready : world := mk_world (Some demo_context) ∅ (mk_socket [] demo_plan []) [].

Lemma async_delivers_witness : exists t a' s, read_events Context.demo_strerror demo_idle (Net.OptError 0) 4 demo_ready = Some (Ret (tt, mk_world (Some a') ∅ s t)) /\
  calls t = [(demo_cb 1, Some (VString 5 (bstr "PONG"))); (demo_cb 2, Some (VArray 1 [VInt 7]))] /\ replies a' = [demo_cb 3].
Proof.
  destruct (async_delivers demo_has_memory Context.demo_strerror demo_idle (fun _ => eq_refl) (Net.OptError 0) demo_ready demo_context
    [VString 5 (bstr "PONG"); VArray 1 [VInt 7]] 0 demo_plan []) as (t & a' & E & Hc & Hr & _).
  - reflexivity.
  - repeat split.
  - exists []. split; [reflexivity|]. destruct (Context.connect_idle Context.demo_connection ∅ Context.demo_connect) as (_ & _ & _ & r & Er & Hrd). exists r. split; [exact Er | exact Hrd].
  - lia.
  - apply Forall_cons. split; [split; [by left | vm_compute; reflexivity]|]. apply Forall_cons. split; [|constructor].
    split; [reflexivity|]. split; [vm_compute; discriminate|]. apply Forall_cons. split; [vm_compute; discriminate | constructor].
  - cbn. lia.
  - reflexivity.
  - unfold demo_plan. repeat (apply Forall_cons; split); vm_compute; try (split; [reflexivity | discriminate]); constructor.
  - vm_compute. reflexivity.
  - vm_compute. split; discriminate.
  - exists t, a', (mk_socket [] [] []). split; [exact E|]. split; [exact Hc | exact Hr].
Defined.

(** *** What the loop does with callbacks of a round before *)

Definition demo_issue (l : list bytes) : A Z := redisAsyncFormattedCommand (demo_cb 1) (Format.encode l ++ [0]) (zlen (Format.encode l)).
Definition demo_read : A unit := redisAsyncHandleRead Context.demo_strerror demo_idle (Net.OptError 0).
Definition demo_calls (w : world) : list Z := map (fun x => privdata x.1) (calls (w_trace w)).

(** The context of [demo_start], with what the server will send. *)
Definition demo_with (plan : list bytes) : world := mk_world (w_ac demo_start) ∅ (mk_socket [] (map RBytes plan) []) [].

(** A message of a channel that nobody subscribed to goes to the callback that was called
    before it: two calls for the subscription to one channel and one message for another. *)
Lemma stale_callback :
  let w := after (demo_with [flat_map Format.encode [[bstr "subscribe"; bstr "a"; bstr "1"]; [bstr "message"; bstr "b"; bstr "x"]]])
             (demo_issue [bstr "SUBSCRIBE"; bstr "a"]) in
  demo_calls (after w demo_read) = [1; 1].
Proof. vm_compute. reflexivity. Qed.

(** A line of MONITOR that arrives in two pieces leaves a callback that is NULL in the queue:
    from then on every second line is dropped. *)
Lemma monitor_drops :
  let w := after (demo_with ([bstr "+OK" ++ CRLF; bstr "+on"; bstr "e" ++ CRLF] ++ replicate 4 (bstr "+line" ++ CRLF)))
             (demo_issue [bstr "MONITOR"]) in
  let w3 := after (after (after w demo_read) demo_read) demo_read in
  length (demo_calls w3) = 2%nat /\ length (demo_calls (after (after (after (after w3 demo_read) demo_read) demo_read) demo_read)) = 4%nat.
Proof. vm_compute. split; reflexivity. Qed.

(** A socket that is still connecting is tried again later, but the error stays: the first
    read of the connected socket disconnects, although it has a reply. *)
Lemma in_progress_closes :
  let w := after (demo_with [bstr "+PONG" ++ CRLF]) (redisAsyncFormattedCommand (demo_cb 1) demo_ping 14) in
  let w1 := after w (redisAsyncHandleRead Context.demo_strerror demo_idle (Net.OptError Net.EINPROGRESS)) in
  is_Some (w_ac w1) /\ w_ac (after w1 demo_read) = None /\ calls (w_trace (after w1 demo_read)) = [(demo_cb 1, None)] /\
  calls (w_trace (after w demo_read)) = [(demo_cb 1, Some (VString 5 (bstr "PONG")))].
Proof. vm_compute. split; [by eexists|]. repeat split; reflexivity. Qed.

End Demo.

(** ** Subscriptions *)

Lemma string_at ty s l m H : tree (VString ty s) l m -> m ⊆ H -> exists r, load_reply H l = Some r /\ rtype r = ty /\ rlen r = i32 (zlen s) /\ Cluster.chars H r = Some (s ++ [0]).
Proof.
  intros Ht Hs. inversion Ht as [| |? ? ? b Hty Hne| |]; subst. assert (H !! l = Some (string_reply ty s b)) as El by (eapply lookup_weaken; [apply lookup_insert_eq | done]).
  assert (H !! b = Some (BChars (s ++ [0]))) as Eb by (eapply lookup_weaken; [|done]; rewrite lookup_insert_ne by done; apply lookup_singleton_eq).
  unfold load_reply. rewrite El. eexists. split; [done|]. split_and!; try done. unfold Cluster.chars. cbn. by rewrite Eb.
Qed.

Lemma int_at z l m H : tree (VInt z) l m -> m ⊆ H -> exists r, load_reply H l = Some r /\ rtype r = Read.REDIS_REPLY_INTEGER /\ integer r = z.
Proof.
  intros Ht Hs. inversion Ht; subst. unfold load_reply. erewrite lookup_weaken by (apply lookup_singleton_eq || done). by eexists.
Qed.

Lemma array_at vs l m H : tree (VArray (zlen vs) vs) l m -> vs <> [] -> m ⊆ H ->
  exists r ps m', load_reply H l = Some r /\ rtype r = Read.REDIS_REPLY_ARRAY /\ relements r = zlen vs /\ elements_of H r = Some ps /\ trees vs ps m' /\ m' ⊆ H.
Proof.
  intros Ht Hne Hs. inversion Ht as [| | |n ? Hn|? ? e ps m' Hz Htr Hle Hml Hme]; subst; [done|].
  assert (H !! l = Some (array_reply (zlen vs) (Some e))) as El by (eapply lookup_weaken; [apply lookup_insert_eq | done]).
  assert (H !! e = Some (BPtrs ps)) as Ee by (eapply lookup_weaken; [|done]; rewrite lookup_insert_ne by done; apply lookup_insert_eq).
  eexists _, ps, m'. unfold load_reply. rewrite El. split; [done|]. split; [done|]. split; [cbn; unfold INT_MAX in *; rewrite uwrap_small; [done | lia]|].
  split; [unfold elements_of, load_ptrs; cbn; by rewrite Ee|]. split; [done|]. etrans; [|exact Hs]. by do 2 (etrans; [|apply insert_subseteq; by rewrite ?lookup_insert_ne]).
Qed.

(** The element at the head of a list of replies. *)
Lemma trees_head v vs ps m H : trees (v :: vs) ps m -> v <> VHole -> m ⊆ H -> exists l ps' m1 m2, ps = Some l :: ps' /\ tree v l m1 /\ m1 ⊆ H /\ trees vs ps' m2 /\ m2 ⊆ H.
Proof.
  intros Ht Hv Hs. inversion Ht as [|? ? ? _|? ? l ps' m1 m2 H1 H2 Hd]; subst; [done|]. exists l, ps', m1, m2. split_and!; try done.
  - etrans; [|exact Hs]. apply map_union_subseteq_l.
  - etrans; [|exact Hs]. by apply map_union_subseteq_r.
Qed.

(** What a server says about a subscription. *)
Inductive notice := Message | Subscribed | Unsubscribed (left : Z).

Definition notice_word (pattern : bool) (x : notice) : bytes :=
  (if pattern then bstr "p" else []) ++ match x with Message => bstr "message" | Subscribed => bstr "subscribe" | Unsubscribed _ => bstr "unsubscribe" end.

(** The reply for the channel or the pattern [nm]. *)
Definition notice_reply (pattern : bool) (x : notice) (nm : bytes) (more : list value) : list value :=
  VString Read.REDIS_REPLY_STRING (notice_word pattern x) :: VString Read.REDIS_REPLY_STRING nm :: match x with Unsubscribed k => [VInt k] | _ => more end.

(** C12: messages reach their subscribers. For every reply a server sends about a channel or a
    pattern, the callback is the one that the command for this channel or pattern gave, and
    the one from before if there is none; a message or a confirmation changes nothing; the end
    of a subscription removes exactly this subscription, and the last one makes the context
    an ordinary one again. *)
Theorem subscription_dispatch `{Memory} (pattern : bool) (x : notice) (nm : bytes) (more : list value) (l : loc) (m h : heap) (w : world) (a : redisAsyncContext)
    (d : subscriptions) (cb : redisCallback) (Hmem : has_memory) (Hlive : w_ac w = Some a) (Htable : table_of (negb pattern) a = Some d) (Hwf : Dict.wf d)
    (Htree : tree (VArray (zlen (notice_reply pattern x nm more)) (notice_reply pattern x nm more)) l m) (Hheap : w_heap w = m ∪ h) (Hname : zlen nm <= INT_MAX) :
  exists w', redisGetSubscribeCallback l cb w = Some (Ret (default cb (Dict.contents d !! nm), w')) /\
    match x, Dict.contents d !! nm with
    | Unsubscribed k, Some _ => exists d', Dict.wf d' /\ Dict.contents d' = delete nm (Dict.contents d) /\
        w' = mk_world (Some ((if k =? 0 then clear_flag REDIS_SUBSCRIBED else Datatypes.id) (with_table (negb pattern) (Some d') a))) (w_heap w) (w_sock w) (w_trace w)
    | _, _ => w' = w
    end.
Proof.
  set (vs := notice_reply pattern x nm more) in *. assert (m ⊆ w_heap w) as Hsub by (rewrite Hheap; apply map_union_subseteq_l).
  destruct (array_at vs l m _ Htree ltac:(done) Hsub) as (r & ps & m' & Er & Hty & Hel & Eps & Htr & Hm').
  destruct (trees_head _ _ _ _ _ Htr ltac:(done) Hm') as (l0 & ps0 & m0 & m0' & -> & Ht0 & Hs0 & Htr0 & Hs0').
  destruct (trees_head _ _ _ _ _ Htr0 ltac:(done) Hs0') as (l1 & ps1 & m1 & m1' & -> & Ht1 & Hs1 & Htr1 & Hs1').
  destruct (string_at _ _ _ _ _ Ht0 Hs0) as (r0 & E0 & Hty0 & _ & Ec0). destruct (string_at _ _ _ _ _ Ht1 Hs1) as (r1 & E1 & Hty1 & Hlen1 & Ec1).
  assert (exists s, mjoin (Sds.sdsnewlen (Some (nm ++ [0])) (u64 (rlen r1))) = Some s /\ Route.Route.sds_text s = nm) as (s & Es & Hst).
  { zlen_pos. rewrite Hlen1. rewrite i32_small, uwrap_small by (unfold INT_MAX, INT_MIN in *; lia).
    destruct (Sds.ok_or_oom_mem _ _ Hmem (Sds.sdsnewlen_spec (nm ++ [0]) (zlen nm) ltac:(lia) ltac:(rewrite zlen_app; zl))) as (s & E & Hr & _). exists s. rewrite E. split; [done|].
    apply Route.Route.sds_text_repr. by rewrite take_app_exact in Hr by (unfold zlen; lia). }
  unfold redisGetSubscribeCallback. rewrite (bind_ret _ _ w (w_heap w) w) by done. cbn beta. rewrite Er. erewrite (bind_ret _ _ w r w) by done. rewrite (bind_ret _ _ w a w) by (by apply get_live).
  rewrite Hty, Z.eqb_refl. cbn iota. assert ((relements r <? 2) = false) as -> by (rewrite Hel; unfold vs, notice_reply; apply Z.ltb_ge; rewrite !zlen_cons; zl).
  assert (forall {X Y} (o : option X) y (k : X -> A Y), o = Some y -> bind (need o) k w = k y w) as Hneed by (intros X Y o y k ->; done).
  assert (reply_at (w_heap w) (Some l0 :: Some l1 :: ps1) 0 = Some r0) as Ea0 by exact E0.
  assert (reply_at (w_heap w) (Some l0 :: Some l1 :: ps1) 1 = Some r1) as Ea1 by exact E1.
  assert (rd (notice_word pattern x ++ [0]) 0 = Some (if pattern then 112 else hd 0 (notice_word false x))) as Erd by (by destruct pattern, x).
  assert ((Sds.tolower (if pattern then 112 else hd 0 (notice_word false x)) =? 112) = pattern) as Hp by (by destruct pattern, x).
  erewrite bind_ret by reflexivity. rewrite (Hneed _ _ _ _ _ Eps), (Hneed _ _ _ _ _ Ea0), Hty0. erewrite bind_ret by reflexivity. rewrite (Hneed _ _ _ _ _ Ec0), (Hneed _ _ _ _ _ Erd), Hp.
  rewrite (Hneed _ _ _ _ _ Htable), (Hneed _ _ _ _ _ Ea1), Hty1. erewrite bind_ret by reflexivity. rewrite (Hneed _ _ _ _ _ Ec1), (Hneed _ _ _ _ _ Es), Hst.
  rewrite (Hneed _ _ _ _ _ (Dict.dictFind_refines d nm Hwf)). pose proof (Dict.dictDelete_refines d nm Hwf) as Hdel.
  destruct (Dict.contents d !! nm) as [found|]; cbn [fmap option_fmap option_map default]; [|exists w; by destruct x].
  assert (equals_ci (bstr "unsubscribe") (drop (if pattern then 1%nat else 0%nat) (notice_word pattern x ++ [0])) = Some (match x with Unsubscribed _ => true | _ => false end)) as Eu by (by destruct pattern, x).
  rewrite (Hneed _ _ _ _ _ Eu). destruct x as [| |k]; [by exists w..|]. destruct Hdel as (d' & Hwf' & Hc' & Ed). rewrite (Hneed _ _ _ _ _ Ed). cbn beta iota.
  destruct (trees_head _ _ _ _ _ Htr1 ltac:(done) Hs1') as (l2 & ps2 & m2 & m2' & -> & Ht2 & Hs2 & _). destruct (int_at _ _ _ _ Ht2 Hs2) as (r2 & E2 & Hty2 & Hi2).
  erewrite bind_ret by reflexivity. erewrite bind_ret by (change (reply_at (w_heap w) (Some l0 :: Some l1 :: Some l2 :: ps2) 2) with (load_reply (w_heap w) l2); rewrite E2; reflexivity).
  rewrite Hty2, Hi2. erewrite bind_ret by reflexivity. destruct (k =? 0); (erewrite bind_ret by reflexivity); by eexists _; split; [reflexivity|]; exists d'.
Qed.

Section DispatchDemo.
#[local] Existing Instance demo_memory.

(** A subscription ends, and it was the last one. *)
Lemma subscription_dispatch_witness : exists l m d d' (w w' : world), Dict.contents d = {[bstr "a" := demo_cb 1]} /\
  tree (VArray 3 (notice_reply false (Unsubscribed 0) (bstr "a") [])) l m /\
  redisGetSubscribeCallback l (demo_cb 2) w = Some (Ret (demo_cb 1, w')) /\ Dict.contents d' = ∅ /\ table_of true <$> w_ac w' = Some (Some d').
Proof.
  destruct (Dict.dictReplace_refines malloc_ok Dict.dictInit (bstr "a") (demo_cb 1) Dict.wf_init ltac:(done) ltac:(done)) as (d & Hwf & Hc & _). change (Dict.contents Dict.dictInit) with (∅ : gmap bytes redisCallback) in Hc.
  change (Dict.dictSetHashVal (demo_cb 1)) with (demo_cb 1) in Hc.
  destruct (pump_values demo_has_memory [VArray 3 (notice_reply false (Unsubscribed 0) (bstr "a") [])] ∅) as (ls & m & _ & Ht & _).
  { apply Forall_cons. split; [|constructor]. split; [reflexivity|]. split; [vm_compute; discriminate|]. repeat (apply Forall_cons; split); [vm_compute; discriminate..| constructor]. }
  pose proof (trees_length _ _ _ Ht) as Hl. rewrite length_map in Hl. destruct ls as [|l [|? ?]]; [done| |done]. apply Conn.trees_single in Ht.
  set (a := with_channels (Some d) demo_context). set (w := mk_world (Some a) (m ∪ ∅) (mk_socket [] [] []) []).
  destruct (subscription_dispatch false (Unsubscribed 0) (bstr "a") [] l m ∅ w a d (demo_cb 2) demo_has_memory eq_refl eq_refl Hwf Ht eq_refl ltac:(vm_compute; discriminate)) as (w' & E & Hw).
  rewrite Hc in E, Hw. rewrite lookup_insert_eq in E, Hw. destruct Hw as (d' & Hwf' & Hc' & ->).
  exists l, m, d, d', w. eexists. split; [exact Hc|]. split; [exact Ht|]. split; [exact E|]. split; [rewrite Hc', delete_insert_id; done | reflexivity].
Defined.

End DispatchDemo.

End Async.
